(* ===== verification/_CoqProject ===== *)
-Q . S2P
Prelude.v
Codec.v
Records.v
Key.v
Arena.v
ArenaThreads.v
SkipList.v
SkipListSpec.v
SkipListThreads.v
SkipListProgress.v
SkipListReads.v
SkipListPublish.v
Memtable.v
MemtableThreads.v
Wal.v
Batch.v
WriteBatch.v
Pipeline.v
PipelineThreads.v
QueueSlots.v
PrepareThreads.v
Admission.v
Allocation.v
Pool.v
PoolThreads.v
Handle.v
Indexed.v
ThreadLocal.v
PoolTls.v
ThreadLocalThreads.v
Hazard.v
HazardProtect.v
HazardThreads.v
Tagged.v
Radix.v
