(* ===== verification/Prelude.v ===== *)
(** * Ordinum: a verification development

    Ordinum is an embedded, log-structured key-value engine (crate [engine]
    under [src/crates/engine/src]; paths below are relative to it).  Writers
    encode operations into batches, a commit pipeline orders the batches and
    gives them sequence numbers, a write-ahead log makes them durable, and a
    memtable, an arena-backed skip list of versioned keys, serves reads.  This
    library models the parts of that path that have behaviour in the source
    and proves what makes them correct; where the source does something other
    than it means to, the theorem states what it does.

    ** How the code is represented

    Stateful code takes its state and returns the new one; a call that may
    fail to return returns an [outcome]: [Done], [Panic] (assertions, overflow
    checks, [unwrap], [todo!]), [UB] (an unsafe access its caller had to rule
    out) or [NoFuel] (an iteration cut short; theorems show it does not occur).
    [Result]s are the type [result].  Code compiled differently with debug
    assertions takes a [profile].  Machine integers are [Z] with [wrap] and
    the checked operations of this file written where the code has them; bytes
    are [Z] in lists.  A pointer is an offset into its allocation, an index of
    a chunk with an offset, or the number of an allocation in a heap.  Shared
    state is modelled twice: by sequential operations, and, where threads
    meet, by steps of one access to an atomic, a mutex or a condition variable
    each (or one critical section, where all it touches is under its mutex),
    under sequential consistency; [HazardProtect] has store buffers too, and
    [SkipListPublish] the happens-before relation of the orders in the source.

    ** Files

    - [Prelude]: the outcome monad, integer widths, byte-slice operations, the
      lemmas and tactics shared below.
    - [Codec] ([utils/mod.rs], [utils/var_int.rs]): raw fixed-width access on
      either byte order, and base-128 lengths.  Writing then reading is the
      identity and touches no other byte; [VarInt] terminates inside its
      five-byte buffer and round-trips; malformed input is characterised.
    - [Records] ([db/batch.rs], [error.rs]): operation kinds and errors.
    - [Key] ([key/*.rs]): trailers, internal keys, the [Comparator] trait with
      the laws its users rely on (class [ComparatorOk]) and the two instances,
      and the inline or heap buffers of lookup and iterator keys.
    - [Arena] ([arena/arena.rs], [arena/allocator.rs], [options.rs]): bump
      allocation in chunks under a cap, chunk memory, reset.  Grants are
      inside one chunk, at aligned offsets, disjoint; failures are exactly the documented
      ones; memory written through one grant survives the others.
      [ArenaThreads] interleaves allocating threads.
    - [SkipList] ([utils/skiplists/mem_skip_list.rs]): nodes at arena pointers,
      search, both insertions with their exchange loops, iterators and ranges.
      [SkipListSpec] gives the representation invariant [sl_inv] and proves,
      against [ComparatorOk], that search and iteration terminate and are
      correct and that a list refines a sorted map.  [SkipListThreads]
      interleaves inserting, scanning and searching threads, one step per
      access to a shared word, a weak exchange failing whenever the schedule
      says so ([insert_step], [search_step]); [run_ok] is the invariant of
      every reachable state.  [SkipListProgress] bounds the steps a thread
      takes and [SkipListReads] gives a search its moment of linearization.
      [SkipListPublish] adds the memory order of each access and what happens
      before what: where the source races, and which orders would not.
    - [Memtable] ([memtable/memtable.rs], [iterator/internal_iterator.rs]): a
      read at a snapshot returns the newest visible version; scans; the
      direct insertion path; what keys longer than a node can hold do.
      [MemtableThreads] composes it with the interleaved list: many writers of
      one memtable, and a point read after them or among them.
    - [Wal] ([wal/mod.rs], [log_records/mod.rs]): the completion signal of a
      batch, sequentially and interleaved, and the chunk-header table.
    - [Batch] ([db/batch.rs], [db/options.rs]): the encoded buffer with its
      limits, the deferred writer, run-time states, reset.  The specification
      is a list of records [rec] with the encoding [enc_rec]; [batch_ok] ties
      a buffer to it and [parse_batch] is the decoder that defines it.
    - [WriteBatch] ([db/write_batch.rs]): the earlier batch format.
    - [Pipeline] ([db/write_pipeline.rs], [version/mod.rs], [db/db_impl.rs],
      [db/db.rs]): the ring buffer behind its packed positions, admission,
      [prepare] and [commit], against the environment interface [WriterEnv].
      [PipelineThreads] interleaves producers and consumers of the queue,
      [QueueSlots] says when it keeps its batches, [PrepareThreads] builds
      [prepare] on it for writers that run at once, and [Admission] interleaves
      the threads that take and return permits.
    - [Allocation] ([db/batch.rs]): the trait [BatchAllocation] as a class, the
      contract a pool relies on ([AllocationLaws]), and the operations of
      [BatchObject<B, P>] for any allocation [P].
    - [Pool] ([db/batch_pool.rs]): thread caches and shards of batch
      allocations, against that contract and the one of factories
      ([BatchFactory], [FactoryLaws]).  The ownership invariant [pool_inv] says
      each live batch is in one place and valid.
      [PoolThreads] interleaves acquiring and releasing threads between the
      critical sections of the shards.
    - [Handle] ([db/batch.rs], with [write_pipeline.rs] and [batch_pool.rs]):
      the handle [Batch<S>], whose type parameter is its commit state.  Clients
      are programs over handles, and a checker plays the part of the type
      system; what it accepts runs without fault on the pool, the batch and the
      pipeline together.
    - [Indexed] ([db/batch.rs], [utils/skiplists/batch_index.rs]): batches with
      an index, the second allocation that keeps the contract, and their
      handle.  Pools of them are as safe as those of plain batches; the factory
      of the engine, not written yet, panics.
    - [ThreadLocal] ([thread_local_storage/*.rs]): the registry of columns and
      the ring of rows, one per thread, with access, removal of a column and
      thread exit, refined to a matrix of cells.  [ThreadLocalThreads]
      interleaves threads that use it, with accesses nested in the closures of
      others.  [PoolTls] puts the pool's caches in boxes behind its column, with
      the handler that frees them, and refines [Pool], whose caches are a map.
    - [Hazard] (crate [mem], [hazard/*.rs]): the domain of hazard pointer
      records with its free list and lock bit, acquisition and release of one
      or several, protection, and the arrays that own records.  [HazardProtect]
      runs [protect] beside threads that replace the pointer, its stores
      buffered; [HazardThreads] interleaves acquisitions and releases.
    - [Tagged] ([utils/tagged_pointer.rs]): the compile-time checks that leave
      a pointer room for a tag.
    - [Radix] ([utils/radix.rs]): node layouts and the slab of slots, which
      nothing calls yet.

    A file requires the files of the components it calls.  In each, a comment
    before a definition names the lines it translates.

    ** Groups of theorems

    - Reads and writes: [memtable_get_newest], [memtable_scan],
      [skiplist_refines_map], [internal_key_order].
    - Many threads in one memtable: [skiplist_threads_safe],
      [skiplist_threads_terminate], [skiplist_scan_threads],
      [skiplist_read_linearizes], [skiplist_acquire_race_free],
      [memtable_threads_get], [memtable_read_during_writes].
    - Other interleavings: [arena_threads_safe], [queue_threads_fifo],
      [queue_threads_refine], [prepare_threads_order], [admission_conserves_permits],
      [sync_waiter_no_missed_wakeup], [pool_threads_exclusive],
      [pool_threads_end], [pool_threads_alone], [tls_threads_safe],
      [tls_threads_end], [hazard_threads_safe], [hazard_protect_safe].
    - Encodings: [internal_key_roundtrip], [iter_key_reuse],
      [varint_roundtrip], [batch_bytes_decode], [batch_put],
      [batch_put_with], [tagged_pointer_room].
    - Memory and reuse: [arena_alloc_correct], [lifecycle_types_sound],
      [tls_refines_matrix], [pool_on_tls], [hazard_refines_stack].
    - Where the code departs from its intent: [queue_threads_lose_batch],
      [hazard_double_acquire], [hazard_protect_x86],
      [skiplist_relaxed_races], and clauses of [iter_key_reuse] and
      [batch_put_with].

    More theorems of the same kinds stand beside these, such as
    [skiplist_search], [skiplist_insert], [skiplist_insert_with],
    [arena_memory_isolated], [arena_reset_capacity],
    [write_batch_roundtrip], [batch_reset_reuse], [pool_exclusive],
    [queue_fifo], [queue_threads_stale_batch], [header_format_bijection],
    [tls_reclaims_once], [hazard_protect_ends], [indexed_pool_panics],
    [indexed_pool_exclusive], [indexed_close], [indexed_close_fails],
    [commit_exhausts_permits], [allocated_slots_dangle],
    [lookup_key_roundtrip], [raw_access_roundtrip],
    [pool_release_reacquire], [random_level_at_most_three], [skiplist_range_default],
    [memtable_long_key], [insert_direct_never_returns],
    [prepare_assigns], [prepare_overlap] and [varint_decode_malformed].

    ** Fuel

    Two attempts suffice for the sequential allocation loop ([ALLOC_FUEL]) and
    for the insertion loops ([LINK_FUEL]), since nobody interferes; walking a
    level of a skip list visits each node once ([walk_fuel]); the loops of the
    pool are bounded by an eight-bit capacity ([HYDRATE_FUEL], [SPILL_FUEL]).
    The variable-length integer loops are bounded by the buffer and by the
    input.  A walk along a column of thread-local storage meets each row once
    ([column_fuel]), and a thread alone in a hazard domain takes its lock
    on the first turn of the loop ([alone_fuel]); the weak exchange that adds a
    record fails as often as its argument [spurious] says.  The theorems show
    [NoFuel] is not returned.  Interleaved threads need no fuel, each step
    being one access; [step_bound] is the number of its own steps after which
    an operation on the skip list has returned, and [pool_threads_end] bounds
    those of an operation on the pool.  Two loops of the source spin
    for ever: [DbImpl::seq_state] returns [NoFuel] for every fuel, and [commit]
    without a permit, which waits for a release that no one can make, is
    [NoFuel] outright.

    ** Not modelled

    Versions, column families, the iterators above the memtable, the log writer
    and the file system are declarations and stubs; so are the index of an
    indexed batch and what would use radix slots and tags.  The constructors of
    indexed batches are [todo!()], so the theorems about their pools take the
    factory as a parameter.  Hazard pointers do not retire or
    reclaim anything ([retire_ptr] returns 0).  Interleavings are sequentially
    consistent but for the store buffers of [HazardProtect]; the values a weaker
    order could let a load return are left out ([SkipListPublish] keeps the
    values and tracks happens-before), as are allocation failure of the system, the
    addresses of arena chunks, in which only offsets are known to be aligned, and
    poisoned mutexes other than the one of [Admission].  [HazardThreads] is about
    the schedules in which no thread takes the lock of a head it read before
    another one changed it; [hazard_double_acquire] is what happens then.

    ** Plan

    Next: the life of a batch behind the write queue, once [commit] uses it;
    reclamation, the index of batches and the log once the source has them. *)

From stdpp Require Export base numbers list list_numbers strings gmap.
From Stdlib Require Export ZArith Lia.

Set Default Goal Selector "!".

Declare Scope ordinum_scope.
Delimit Scope ordinum_scope with ord.
Global Open Scope Z_scope.

(** ** Build profiles

    [debug_assert!] and integer-overflow checks are compiled in or out, so the
    code has two behaviours.  Every operation whose behaviour depends on it
    takes the profile as its first argument. *)

Inductive profile := Debug | Release.

#[export] Instance profile_eq_dec : EqDecision profile.
Proof. solve_decision. Defined.

(** ** Outcomes

    What evaluating a Rust expression can end in: a value, a panic, undefined
    behaviour (an unsafe operation used outside its contract), or, for loops
    run with fuel, exhausted fuel. *)

Inductive outcome (A : Type) : Type :=
| Done (a : A)
| Panic (why : string)
| UB (why : string)
| NoFuel.

Arguments Done {A} _.
Arguments Panic {A} _%_string.
Arguments UB {A} _%_string.
Arguments NoFuel {A}.

#[export] Instance outcome_ret : MRet outcome := @Done.

#[export] Instance outcome_bind : MBind outcome :=
  fun A B f m =>
    match m with
    | Done a => f a
    | Panic w => Panic w
    | UB w => UB w
    | NoFuel => NoFuel
    end.

#[export] Instance outcome_fmap : FMap outcome :=
  fun A B f m =>
    match m with
    | Done a => Done (f a)
    | Panic w => Panic w
    | UB w => UB w
    | NoFuel => NoFuel
    end.

Definition is_done {A} (m : outcome A) : bool :=
  match m with Done _ => true | _ => false end.

(** Rust's [Result<A, E>]. *)

Inductive result (A E : Type) : Type :=
| Ok (a : A)
| Err (e : E).

Arguments Ok {A E} _.
Arguments Err {A E} _.

Definition is_ok {A E} (r : result A E) : bool :=
  match r with Ok _ => true | Err _ => false end.

(** [assert!] and [debug_assert!]. *)

Definition rust_assert (b : bool) (why : string) : outcome unit :=
  if b then Done tt else Panic why.

Definition debug_assert (p : profile) (b : bool) (why : string) : outcome unit :=
  match p with
  | Debug => rust_assert b why
  | Release => Done tt
  end.

(** ** Machine integers

    A [w]-bit unsigned integer is a [Z] in [[0, 2^w)].  The checked operators
    panic on overflow in a debug build and wrap in a release build. *)

Definition u_max (w : Z) : Z := 2 ^ w - 1.
Definition in_width (w z : Z) : Prop := 0 <= z < 2 ^ w.
Definition wrap (w z : Z) : Z := z mod 2 ^ w.

Definition add_w (p : profile) (w a b : Z) : outcome Z :=
  if decide (a + b < 2 ^ w) then Done (a + b)
  else match p with Debug => Panic "attempt to add with overflow" | Release => Done (wrap w (a + b)) end.

Definition sub_w (p : profile) (w a b : Z) : outcome Z :=
  if decide (b <= a) then Done (a - b)
  else match p with Debug => Panic "attempt to subtract with overflow" | Release => Done (wrap w (a - b)) end.

Definition checked_add (w a b : Z) : option Z :=
  if decide (a + b < 2 ^ w) then Some (a + b) else None.

Definition usize_bits : Z := 64.
Definition usize_max : Z := u_max usize_bits.
Definition isize_max : Z := 2 ^ 63 - 1.

(** [usize::trailing_zeros]. *)

Fixpoint pos_trailing_zeros (x : positive) : nat :=
  match x with xO x => S (pos_trailing_zeros x) | _ => O end.

Definition trailing_zeros (z : Z) : nat :=
  match z with Zpos x => pos_trailing_zeros x | _ => 64%nat end.

Definition is_power_of_two (z : Z) : bool := (0 <? z) && (Z.land z (z - 1) =? 0).

(** ** Bytes and buffers *)

Abbreviation bytes := (list Z).

Definition is_byte (b : Z) : Prop := in_width 8 b.
Abbreviation all_bytes l := (Forall is_byte l).

(** [slice.len()] as a machine integer. *)

Definition len {A} (l : list A) : Z := Z.of_nat (length l).

(** [&l[a..b]]: panics when the range is out of order or out of bounds. *)

Definition slice_range {A} (l : list A) (a b : Z) : outcome (list A) :=
  if decide (0 <= a <= b /\ b <= len l)
  then Done (take (Z.to_nat (b - a)) (drop (Z.to_nat a) l))
  else Panic "range out of bounds for slice".

(** The buffer [l] with [xs] written over it from index [i] on. *)

Definition splice {A} (i : Z) (xs l : list A) : list A :=
  take (Z.to_nat i) l ++ xs ++ drop (Z.to_nat i + length xs) l.

(** [l[a..b].copy_from_slice(xs)]: panics when the range is out of bounds or
    when its length differs from [xs]'s. *)

Definition copy_into {A} (l : list A) (a b : Z) (xs : list A) : outcome (list A) :=
  if decide (0 <= a <= b /\ b <= len l)
  then if decide (len xs = b - a) then Done (splice a xs l)
       else Panic "source slice length does not match destination slice length"
  else Panic "range out of bounds for slice".

(** [l[i] = x]. *)

Definition store_at {A} (l : list A) (i : Z) (x : A) : outcome (list A) :=
  if decide (0 <= i < len l) then Done (splice i [x] l)
  else Panic "index out of bounds".

(** [vec.resize(n, x)]. *)

Definition vec_resize {A} (l : list A) (n : Z) (x : A) : list A :=
  take (Z.to_nat n) l ++ replicate (Z.to_nat n - length l) x.

(** [vec.pop()]: the last entry and the ones before it. *)

Definition vec_pop {A} (l : list A) : option (list A * A) :=
  match last l with
  | Some x => Some (take (length l - 1) l, x)
  | None => None
  end.

Definition last_or {A} (a : A) (l : list A) : A := default a (last l).

(** Rust's [Ord] on byte slices: lexicographic, a proper prefix is less. *)

Fixpoint bytes_cmp (a b : bytes) : comparison :=
  match a, b with
  | [], [] => Eq
  | [], _ :: _ => Lt
  | _ :: _, [] => Gt
  | x :: a', y :: b' =>
      match x ?= y with
      | Eq => bytes_cmp a' b'
      | c => c
      end
  end.

Definition cmp_lt (c : comparison) : bool := match c with Lt => true | _ => false end.
Definition cmp_eq (c : comparison) : bool := match c with Eq => true | _ => false end.

#[global] Arguments len {A} l : simpl never.
#[global] Arguments splice {A} i xs l : simpl never.
#[global] Arguments slice_range {A} l a b : simpl never.
#[global] Arguments copy_into {A} l a b xs : simpl never.
#[global] Arguments store_at {A} l i x : simpl never.

(** ** Tactics *)

Create HintDb ordinum discriminated.
Create Rewrite HintDb lengths.
Create Rewrite HintDb lens.

(** Case analysis on every [match]/[decide] scrutinee of the goal. *)

Ltac case_all := repeat (case_decide || case_match); simplify_eq/=.

(** Runs the outcome monad one bind at a time in hypothesis [H]. *)

Ltac inv_bind H :=
  repeat match type of H with
  | mbind _ ?m = _ =>
      let E := fresh "E" in
      destruct m eqn:E; cbn [mbind outcome_bind] in H; try discriminate H
  | Done _ = Done _ => injection H as H; subst
  end.

Ltac width := unfold in_width, is_byte, u_max, usize_max, usize_bits, isize_max, len in *.
Ltac width_lia := width; simpl in *; lia.

(** ** Outcome lemmas *)

Lemma bind_done {A B} (m : outcome A) (f : A -> outcome B) b :
  (m ≫= f) = Done b -> exists a, m = Done a /\ f a = Done b.
Proof. destruct m; simpl; intros H; try discriminate. eauto. Qed.

Lemma rust_assert_true b w : b = true -> rust_assert b w = Done tt.
Proof. intros ->. done. Qed.

Lemma debug_assert_true p b w : b = true -> debug_assert p b w = Done tt.
Proof. intros ->. by destruct p. Qed.

Lemma add_w_small p w a b : a + b < 2 ^ w -> add_w p w a b = Done (a + b).
Proof. intros. unfold add_w. by rewrite decide_True. Qed.

Lemma sub_w_small p w a b : b <= a -> sub_w p w a b = Done (a - b).
Proof. intros. unfold sub_w. by rewrite decide_True. Qed.

Lemma checked_add_Some w a b s : checked_add w a b = Some s <-> s = a + b /\ a + b < 2 ^ w.
Proof. unfold checked_add. case_decide; split; [by intros [= <-]|by intros [-> _]|done|by intros [_ ?]]. Qed.

Lemma checked_add_None w a b : checked_add w a b = None <-> 2 ^ w <= a + b.
Proof. unfold checked_add. case_decide; split; intros; try discriminate; try lia; done. Qed.

#[export] Hint Rewrite @length_app @length_take @length_drop @length_replicate : lengths.

(** ** Buffer lemmas *)

Lemma len_nonneg {A} (l : list A) : 0 <= len l.
Proof. unfold len. lia. Qed.
#[export] Hint Resolve len_nonneg : ordinum.

Lemma len_app {A} (l k : list A) : len (l ++ k) = len l + len k.
Proof. unfold len. rewrite length_app. lia. Qed.

Lemma len_cons {A} (x : A) l : len (x :: l) = 1 + len l.
Proof. unfold len. simpl. lia. Qed.

Lemma len_nil {A} : len (@nil A) = 0.
Proof. done. Qed.

Lemma len_replicate {A} n (x : A) : len (replicate n x) = Z.of_nat n.
Proof. unfold len. by rewrite length_replicate. Qed.

#[export] Hint Rewrite @len_app @len_cons @len_nil @len_replicate : lens.

Lemma splice_length {A} i (xs l : list A) :
  0 <= i -> i + len xs <= len l -> length (splice i xs l) = length l.
Proof. unfold splice, len. intros. autorewrite with lengths. lia. Qed.

Lemma len_splice {A} i (xs l : list A) :
  0 <= i -> i + len xs <= len l -> len (splice i xs l) = len l.
Proof. intros. unfold len at 1. rewrite splice_length; done. Qed.

Lemma splice_nil {A} i (l : list A) : splice i [] l = l.
Proof. unfold splice. simpl. rewrite Nat.add_0_r. apply take_drop. Qed.

(** Writing at the border between two parts of a buffer replaces the front of
    the second part. *)

Lemma splice_app {A} (l xs k : list A) :
  splice (len l) xs (l ++ k) = l ++ xs ++ drop (length xs) k.
Proof.
  unfold splice, len. rewrite Nat2Z.id, take_app_length, drop_app_ge by lia.
  do 3 f_equal. lia.
Qed.

Lemma splice_app_at {A} i (l xs k : list A) :
  i = len l -> splice i xs (l ++ k) = l ++ xs ++ drop (length xs) k.
Proof. intros ->. apply splice_app. Qed.

Lemma copy_into_done {A} (l : list A) a b xs :
  0 <= a -> b <= len l -> b = a + len xs -> copy_into l a b xs = Done (splice a xs l).
Proof.
  intros. unfold copy_into. pose proof (len_nonneg xs).
  rewrite !decide_True by lia. done.
Qed.

Lemma store_at_done {A} (l : list A) i x :
  0 <= i < len l -> store_at l i x = Done (splice i [x] l).
Proof. intros. unfold store_at. by rewrite decide_True. Qed.

Lemma slice_range_done {A} (l : list A) a b :
  0 <= a <= b -> b <= len l ->
  slice_range l a b = Done (take (Z.to_nat (b - a)) (drop (Z.to_nat a) l)).
Proof. intros. unfold slice_range. rewrite decide_True by lia. done. Qed.

(** The middle of a buffer, read back. *)

Lemma slice_range_app {A} (l xs k : list A) a b :
  a = len l -> b = len l + len xs -> slice_range (l ++ xs ++ k) a b = Done xs.
Proof.
  intros -> ->. rewrite slice_range_done;
    [| pose proof (len_nonneg l); pose proof (len_nonneg xs); lia
     | autorewrite with lens; pose proof (len_nonneg k); lia].
  f_equal. unfold len. rewrite Nat2Z.id, drop_app_length.
  replace (Z.to_nat _) with (length xs) by lia. apply take_app_length.
Qed.

Lemma vec_pop_Some {A} (l r : list A) x : vec_pop l = Some (r, x) -> l = r ++ [x].
Proof.
  unfold vec_pop. destruct (last l) as [y|] eqn:E; [|done]. intros [= <- <-].
  apply last_Some in E as [l' ->]. rewrite length_app. cbn. by rewrite Nat.add_sub, take_app_length.
Qed.

Lemma vec_pop_None {A} (l : list A) : vec_pop l = None -> l = [].
Proof. unfold vec_pop. destruct (last l) eqn:E; [done|]. by apply last_None in E. Qed.

Lemma last_or_cons {A} (a x : A) l : last_or a (x :: l) = last_or x l.
Proof. unfold last_or. rewrite last_cons. by destruct (last l). Qed.

Lemma last_or_in {A} (a : A) l : last_or a l = a \/ last_or a l ∈ l.
Proof. unfold last_or. destruct (last l) as [x|] eqn:E; [right; by apply last_Some_elem_of in E|by left]. Qed.

Lemma last_or_elem {A} (a : A) l : last_or a l ∈ a :: l.
Proof. destruct (last_or_in a l) as [->|H]; [by left|by right]. Qed.

Lemma vec_resize_grow {A} (l : list A) n x :
  len l <= n -> vec_resize l n x = l ++ replicate (Z.to_nat (n - len l)) x.
Proof.
  unfold len. intros. unfold vec_resize. rewrite take_ge by lia. do 2 f_equal. lia.
Qed.

Lemma vec_resize_shrink {A} (l k : list A) x :
  vec_resize (l ++ k) (len l) x = l.
Proof.
  unfold vec_resize, len. rewrite Nat2Z.id, take_app_length, length_app.
  replace (length l - _)%nat with 0%nat by lia. apply app_nil_r.
Qed.

(** ** Filters *)

Lemma list_alter_insert {A} (f : A -> A) i (l : list A) x : l !! i = Some x -> alter f i l = <[i := f x]> l.
Proof.
  intros Hx. apply list_eq. intros j. destruct (decide (i = j)) as [<-|Hne].
  - by rewrite list_lookup_alter_eq, Hx, list_lookup_insert_eq by (by eapply lookup_lt_Some).
  - by rewrite list_lookup_alter_ne, list_lookup_insert_ne.
Qed.

Lemma list_filter_all {A} (P : A -> Prop) `{!forall x, Decision (P x)} (l : list A) :
  Forall P l -> filter P l = l.
Proof. induction 1; [done|]. rewrite filter_cons, decide_True by done. by f_equal. Qed.

Lemma list_filter_none {A} (P : A -> Prop) `{!forall x, Decision (P x)} (l : list A) :
  Forall (fun x => ~ P x) l -> filter P l = [].
Proof. induction 1; [done|]. by rewrite filter_cons, decide_False by done. Qed.

Lemma list_filter_ext_in {A} (P Q : A -> Prop) `{!forall x, Decision (P x)} `{!forall x, Decision (Q x)}
    (l : list A) :
  (forall x, x ∈ l -> P x <-> Q x) -> filter P l = filter Q l.
Proof.
  induction l as [|x l IH]; intros Hiff; [done|]. rewrite !filter_cons.
  rewrite IH by (intros y Hy; apply Hiff; by right).
  pose proof (Hiff x ltac:(left)). do 2 case_decide; tauto.
Qed.

Fixpoint take_while {A} (f : A -> bool) (l : list A) : list A :=
  match l with
  | x :: l => if f x then x :: take_while f l else []
  | [] => []
  end.

(** ** Lexicographic order of byte strings *)

Lemma bytes_cmp_refl a : bytes_cmp a a = Eq.
Proof. induction a; simpl; rewrite ?Z.compare_refl; done. Qed.

Lemma bytes_cmp_eq a b : bytes_cmp a b = Eq <-> a = b.
Proof.
  split; [| intros ->; apply bytes_cmp_refl].
  revert b; induction a as [|x a IH]; intros [|y b]; simpl; try done.
  destruct (x ?= y) eqn:E; try done. apply Z.compare_eq in E as ->.
  intros H. f_equal. auto.
Qed.

Lemma bytes_cmp_antisym a b : bytes_cmp b a = CompOpp (bytes_cmp a b).
Proof.
  revert b; induction a as [|x a IH]; intros [|y b]; simpl; try done.
  rewrite Z.compare_antisym. destruct (x ?= y); simpl; auto.
Qed.

Lemma bytes_cmp_trans a b c :
  bytes_cmp a b = Lt -> bytes_cmp b c = Lt -> bytes_cmp a c = Lt.
Proof.
  revert b c; induction a as [|x a IH]; intros [|y b] [|z c]; simpl; try done.
  destruct (Z.compare_spec x y); destruct (Z.compare_spec y z); intros; try done;
    destruct (Z.compare_spec x z); try lia; try done; subst; eauto.
Qed.

(** A common prefix does not matter. *)

Lemma bytes_cmp_app_l p a b : bytes_cmp (p ++ a) (p ++ b) = bytes_cmp a b.
Proof. induction p; simpl; rewrite ?Z.compare_refl; done. Qed.

(** ** Bit-packing lemmas *)

Lemma land_shiftl_low a b n :
  0 <= n -> 0 <= b < 2 ^ n -> Z.land (Z.shiftl a n) b = 0.
Proof.
  intros Hn Hb. apply Z.bits_inj'. intros i Hi.
  rewrite Z.land_spec, Z.bits_0.
  destruct (decide (i < n)).
  - by rewrite Z.shiftl_spec_low by lia.
  - assert (Z.testbit b i = false) as -> by (apply (Z.bounded_iff_bits_nonneg n b); lia).
    apply andb_false_r.
Qed.

(** A packed word is the sum of its fields. *)

Lemma lor_shiftl_add a b n :
  0 <= n -> 0 <= b < 2 ^ n -> Z.lor (Z.shiftl a n) b = a * 2 ^ n + b.
Proof.
  intros. pose proof (Z.add_lor_land (Z.shiftl a n) b) as E.
  rewrite land_shiftl_low, Z.add_0_r in E by done.
  rewrite E, Z.shiftl_mul_pow2 by lia. done.
Qed.

Lemma land_mask z n : 0 <= n -> Z.land z (2 ^ n - 1) = z mod 2 ^ n.
Proof.
  intros. rewrite <- Z.land_ones by lia. by rewrite Z.ones_equiv, <- Z.sub_1_r.
Qed.

Lemma power_of_two_pow2 k : 0 <= k -> is_power_of_two (2 ^ k) = true.
Proof.
  intros. unfold is_power_of_two. apply andb_true_iff. split.
  - apply Z.ltb_lt. apply Z.pow_pos_nonneg; lia.
  - apply Z.eqb_eq. rewrite land_mask by lia. apply Z.mod_same. lia.
Qed.

(** A power of two has as many trailing zeros as its exponent says. *)

Lemma trailing_zeros_pow k : 0 <= k -> Z.of_nat (trailing_zeros (2 ^ k)) = k.
Proof.
  intros Hk. replace (2 ^ k) with (Zpos (Nat.iter (Z.to_nat k) xO xH)).
  - cbn [trailing_zeros]. rewrite <- (Z2Nat.id k Hk) at 2. f_equal. induction (Z.to_nat k) as [|n IH]; [done|].
    by apply (f_equal S).
  - rewrite <- (Z2Nat.id k Hk) at 2. induction (Z.to_nat k) as [|n IH]; [done|].
    by rewrite Nat2Z.inj_succ, Z.pow_succ_r, <- IH by lia.
Qed.

(** Sums over the entries of a map. *)

Definition total {A} (f : A -> nat) (m : gmap nat A) : nat := sum_list_with (fun e => f e.2) (map_to_list m).

Lemma total_delete {A} (f : A -> nat) m i x : m !! i = Some x -> total f m = (f x + total f (delete i m))%nat.
Proof. intros H. unfold total. by rewrite <- (map_to_list_delete m i x H). Qed.

Lemma total_insert {A} (f : A -> nat) m i x y :
  m !! i = Some x -> (total f (<[i := y]> m) + f x = total f m + f y)%nat.
Proof.
  intros H. rewrite (total_delete f _ i y (lookup_insert_eq _ _ _)), (total_delete f m i x H), delete_insert_eq. lia.
Qed.

Lemma total_ext {A} (f g : A -> nat) m : map_Forall (fun _ x => f x = g x) m -> total f m = total g m.
Proof.
  unfold total. rewrite map_Forall_to_list. induction 1 as [|[i x] l H _ IH]; [done|]. cbn in *. by rewrite H, IH.
Qed.

Lemma total_le {A} (f : A -> nat) (b : nat) m : map_Forall (fun _ x => (f x <= b)%nat) m -> (total f m <= size m * b)%nat.
Proof.
  unfold total. rewrite map_Forall_to_list, <- length_map_to_list.
  induction 1 as [|[i x] l H _ IH]; [done|]. cbn in *. lia.
Qed.

Lemma wrap_small w z : in_width w z -> wrap w z = z.
Proof. intros. apply Z.mod_small. done. Qed.

Lemma wrap_in_width w z : 0 <= w -> in_width w (wrap w z).
Proof. intros. apply Z.mod_pos_bound. apply Z.pow_pos_nonneg; lia. Qed.

#[export] Hint Resolve wrap_in_width : ordinum.
