(* ===== verification/Codec.v ===== *)
(** * Codec: unaligned integer access and variable-length integers

    Models [utils/mod.rs] (reading and writing fixed-width integers through raw
    pointers) and [utils/var_int.rs] (the base-128 encoding of [u32] lengths
    used by batch records).  A raw pointer is an offset into the allocation it
    points into; an access outside the allocation is undefined behaviour. *)

From S2P Require Import Prelude.

(** ** Byte orders (Rust's [to_le_bytes], [from_le_bytes], [to_be_bytes], ...) *)

Fixpoint to_le_bytes (n : nat) (z : Z) : bytes :=
  match n with
  | O => []
  | S n => z mod 256 :: to_le_bytes n (z / 256)
  end.

Fixpoint from_le_bytes (l : bytes) : Z :=
  match l with
  | [] => 0
  | b :: l => b + 256 * from_le_bytes l
  end.

Definition to_be_bytes (n : nat) (z : Z) : bytes := reverse (to_le_bytes n z).
Definition from_be_bytes (l : bytes) : Z := from_le_bytes (reverse l).
Definition swap_bytes (n : nat) (z : Z) : Z := from_be_bytes (to_le_bytes n z).

(** The byte order of the compilation target. *)

Inductive endian := LittleEndian | BigEndian.

Definition from_ne_bytes (t : endian) (l : bytes) : Z :=
  match t with LittleEndian => from_le_bytes l | BigEndian => from_be_bytes l end.

(** [n.to_le()] and [n.to_be()] on an [n]-byte integer. *)

Definition int_to_le (t : endian) (n : nat) (z : Z) : Z :=
  match t with LittleEndian => z | BigEndian => swap_bytes n z end.

Definition int_to_be (t : endian) (n : nat) (z : Z) : Z :=
  match t with LittleEndian => swap_bytes n z | BigEndian => z end.

(** [ptr::read_unaligned] and [ptr::copy_nonoverlapping] within one allocation. *)

Definition read_unaligned (t : endian) (n : nat) (mem : bytes) (p : Z) : outcome Z :=
  if decide (0 <= p /\ p + Z.of_nat n <= len mem)
  then Done (from_ne_bytes t (take n (drop (Z.to_nat p) mem)))
  else UB "read outside the allocation".

Definition copy_nonoverlapping (src : bytes) (mem : bytes) (p : Z) : outcome bytes :=
  if decide (0 <= p /\ p + len src <= len mem)
  then Done (splice p src mem)
  else UB "write outside the allocation".

(* @src crates/engine/src/utils/mod.rs:9-12 read_u16_le_unsafe *)
Definition read_u16_le_unsafe (t : endian) (mem : bytes) (p : Z) : outcome Z :=
  int_to_le t 2 <$> read_unaligned t 2 mem p.

(* @src crates/engine/src/utils/mod.rs:14-18 write_u16_le_unsafe *)
Definition write_u16_le_unsafe (mem : bytes) (p value : Z) : outcome bytes :=
  copy_nonoverlapping (to_le_bytes 2 value) mem p.

(* @src crates/engine/src/utils/mod.rs:20-23 read_u32_le_unsafe *)
Definition read_u32_le_unsafe (t : endian) (mem : bytes) (p : Z) : outcome Z :=
  int_to_le t 4 <$> read_unaligned t 4 mem p.

(* @src crates/engine/src/utils/mod.rs:25-29 write_u32_le_unsafe *)
Definition write_u32_le_unsafe (mem : bytes) (p value : Z) : outcome bytes :=
  copy_nonoverlapping (to_le_bytes 4 value) mem p.

(* @src crates/engine/src/utils/mod.rs:31-34 read_u32_be_unsafe *)
Definition read_u32_be_unsafe (t : endian) (mem : bytes) (p : Z) : outcome Z :=
  int_to_be t 4 <$> read_unaligned t 4 mem p.

(* @src crates/engine/src/utils/mod.rs:36-40 write_u32_be_unsafe *)
Definition write_u32_be_unsafe (mem : bytes) (p value : Z) : outcome bytes :=
  copy_nonoverlapping (to_be_bytes 4 value) mem p.

(* @src crates/engine/src/utils/mod.rs:42-45 read_u64_unsafe *)
Definition read_u64_unsafe (t : endian) (mem : bytes) (p : Z) : outcome Z :=
  int_to_le t 8 <$> read_unaligned t 8 mem p.

(* @src crates/engine/src/utils/mod.rs:47-53 write_u64_unsafe *)
Definition write_u64_unsafe (mem : bytes) (p value : Z) : outcome bytes :=
  copy_nonoverlapping (to_le_bytes 8 value) mem p.

(** ** Variable-length integers *)

(* @src crates/engine/src/utils/var_int.rs:5-5 MSB *)
Definition MSB : Z := 0x80.
(* @src crates/engine/src/utils/var_int.rs:6-6 LOW_7_BITS *)
Definition LOW_7_BITS : Z := 0x7F.
(* @src crates/engine/src/utils/var_int.rs:7-7 SHIFT_7_BITS *)
Definition SHIFT_7_BITS : Z := 7.
(* @src crates/engine/src/utils/var_int.rs:16-18 MAX_VARINT *)
Definition MAX_VARINT : nat := 5.

(* @src crates/engine/src/utils/var_int.rs:9-13 VarInt *)
Record VarInt := mkVarInt { vi_buf : bytes; vi_len : Z }.

(** The [while v > 127] loop.  [store_at] panics as the array index would. *)

(* @src crates/engine/src/utils/var_int.rs:25-29 VarInt::new *)
Fixpoint VarInt_new_loop (fuel : nat) (buf : bytes) (v i : Z) : outcome (bytes * Z * Z) :=
  match fuel with
  | O => NoFuel
  | S fuel =>
      if decide (v > 127) then
        buf ← store_at buf i (Z.lor (wrap 8 (Z.land v LOW_7_BITS)) MSB);
        VarInt_new_loop fuel buf (Z.shiftr v SHIFT_7_BITS) (i + 1)
      else Done (buf, v, i)
  end.

(* @src crates/engine/src/utils/var_int.rs:20-36 VarInt::new *)
Definition VarInt_new (value : Z) : outcome VarInt :=
  '(buf, v, i) ← VarInt_new_loop MAX_VARINT (replicate MAX_VARINT 0) value 0;
  buf ← store_at buf i (wrap 8 v);
  Done (mkVarInt buf (wrap 8 (i + 1))).

(** [x << s] on [u32]: an overlong shift panics in a debug build and is taken
    modulo the width in a release build. *)

Definition shl_u32 (p : profile) (x s : Z) : outcome Z :=
  if decide (s < 32) then Done (wrap 32 (Z.shiftl x s))
  else match p with
       | Debug => Panic "attempt to shift left with overflow"
       | Release => Done (wrap 32 (Z.shiftl x (s mod 32)))
       end.

(* @src crates/engine/src/utils/var_int.rs:43-50 VarInt::decode *)
Fixpoint VarInt_decode_loop (p : profile) (buf : bytes) (res shift bytes_read : Z)
  : outcome (Z * Z) :=
  match buf with
  | [] => Done (res, bytes_read)
  | b :: buf =>
      x ← shl_u32 p (Z.land b 0x7F) shift;
      let res := Z.lor res x in
      if decide (Z.land b 0x80 = 0) then Done (res, bytes_read + 1)
      else VarInt_decode_loop p buf res (shift + 7) (bytes_read + 1)
  end.

(* @src crates/engine/src/utils/var_int.rs:38-53 VarInt::decode *)
Definition VarInt_decode (p : profile) (buf : bytes) : outcome (Z * Z) :=
  VarInt_decode_loop p buf 0 0 0.

(* @src crates/engine/src/utils/var_int.rs:55-57 VarInt::size *)
Definition VarInt_size (v : VarInt) : Z := vi_len v.

(* @src crates/engine/src/utils/var_int.rs:59-61 VarInt::as_slice *)
Definition VarInt_as_slice (v : VarInt) : outcome bytes :=
  slice_range (vi_buf v) 0 (VarInt_size v).

(** ** Reference encoding

    Base-128 digits, least significant first, every digit but the last marked
    with the high bit. *)

Fixpoint leb128 (n : nat) (v : Z) : bytes :=
  match n with
  | O => []
  | S n => if decide (v > 127) then (v mod 128 + 128) :: leb128 n (v / 128) else [v]
  end.

(** The encoding of a [u32], and its length by magnitude. *)

Definition varint (v : Z) : bytes := leb128 MAX_VARINT v.

Definition varint_size (v : Z) : Z :=
  if decide (v < 2 ^ 7) then 1
  else if decide (v < 2 ^ 14) then 2
  else if decide (v < 2 ^ 21) then 3
  else if decide (v < 2 ^ 28) then 4
  else 5.

(** ** Byte-order lemmas *)

Lemma to_le_bytes_length n z : length (to_le_bytes n z) = n.
Proof. revert z; induction n; simpl; auto. Qed.

Lemma len_to_le_bytes n z : len (to_le_bytes n z) = Z.of_nat n.
Proof. unfold len. by rewrite to_le_bytes_length. Qed.

Lemma to_be_bytes_length n z : length (to_be_bytes n z) = n.
Proof. unfold to_be_bytes. by rewrite length_reverse, to_le_bytes_length. Qed.

Lemma len_to_be_bytes n z : len (to_be_bytes n z) = Z.of_nat n.
Proof. unfold len. by rewrite to_be_bytes_length. Qed.

#[export] Hint Rewrite len_to_le_bytes len_to_be_bytes : lens.
#[export] Hint Rewrite to_le_bytes_length to_be_bytes_length : lengths.

Lemma to_le_bytes_bytes n z : all_bytes (to_le_bytes n z).
Proof.
  revert z; induction n; simpl; constructor; auto.
  apply Z.mod_pos_bound. lia.
Qed.

Lemma to_be_bytes_bytes n z : all_bytes (to_be_bytes n z).
Proof. apply Forall_reverse, to_le_bytes_bytes. Qed.

Lemma pow256_succ n : 2 ^ (8 * Z.of_nat (S n)) = 256 * 2 ^ (8 * Z.of_nat n).
Proof. replace (8 * Z.of_nat (S n)) with (8 + 8 * Z.of_nat n) by lia. by rewrite Z.pow_add_r by lia. Qed.

Lemma from_to_le_bytes n z : from_le_bytes (to_le_bytes n z) = wrap (8 * Z.of_nat n) z.
Proof.
  unfold wrap. revert z; induction n as [|n IH]; intros z.
  - simpl. by rewrite Z.mod_1_r.
  - cbn [to_le_bytes from_le_bytes]. rewrite IH, pow256_succ.
    assert (0 < 2 ^ (8 * Z.of_nat n)) by (apply Z.pow_pos_nonneg; lia).
    rewrite Z.rem_mul_r by lia. lia.
Qed.

Lemma from_to_be_bytes n z : from_be_bytes (to_be_bytes n z) = wrap (8 * Z.of_nat n) z.
Proof. unfold from_be_bytes, to_be_bytes. rewrite reverse_involutive. apply from_to_le_bytes. Qed.

Lemma from_le_bytes_bound l : all_bytes l -> 0 <= from_le_bytes l < 2 ^ (8 * len l).
Proof.
  induction 1 as [|b l Hb Hl IH]; [done|].
  unfold len in *. cbn [from_le_bytes length]. rewrite pow256_succ.
  unfold is_byte, in_width in Hb. lia.
Qed.

Lemma to_from_le_bytes l : all_bytes l -> to_le_bytes (length l) (from_le_bytes l) = l.
Proof.
  induction 1 as [|b l Hb Hl IH]; [done|]. cbn [length from_le_bytes to_le_bytes].
  unfold is_byte, in_width in Hb.
  replace (b + 256 * from_le_bytes l) with (b + from_le_bytes l * 256) by lia.
  rewrite Z.mod_add, Z.div_add, Z.mod_small, Z.div_small, Z.add_0_l by lia. by rewrite IH.
Qed.

Lemma to_from_be_bytes l : all_bytes l -> to_be_bytes (length l) (from_be_bytes l) = l.
Proof.
  intros. unfold to_be_bytes, from_be_bytes. rewrite <- (length_reverse l).
  rewrite to_from_le_bytes by by apply Forall_reverse. apply reverse_involutive.
Qed.

(** Big-endian strings of one length order as the numbers they encode: this is
    what lets a byte comparator compare trailers. *)

Lemma to_be_bytes_succ n z :
  to_be_bytes (S n) z = to_be_bytes n (z / 256) ++ [z mod 256].
Proof. unfold to_be_bytes. simpl. by rewrite reverse_cons. Qed.

Lemma bytes_cmp_app_same a b x y :
  length a = length b ->
  bytes_cmp (a ++ [x]) (b ++ [y]) =
    match bytes_cmp a b with Eq => x ?= y | c => c end.
Proof.
  revert b; induction a as [|c a IH]; intros [|d b] Hl; simplify_eq/=.
  - by destruct (x ?= y).
  - destruct (c ?= d); auto.
Qed.

Lemma to_be_bytes_cmp n a b :
  in_width (8 * Z.of_nat n) a -> in_width (8 * Z.of_nat n) b ->
  bytes_cmp (to_be_bytes n a) (to_be_bytes n b) = (a ?= b).
Proof.
  unfold in_width. revert a b; induction n as [|n IH]; intros a b Ha Hb.
  - simpl in *. assert (a = 0) as -> by lia. by assert (b = 0) as -> by lia.
  - rewrite pow256_succ in *.
    rewrite !to_be_bytes_succ, bytes_cmp_app_same by by rewrite !to_be_bytes_length.
    rewrite IH; try (split; [apply Z.div_pos; lia | apply Z.div_lt_upper_bound; lia]).
    pose proof (Z.div_mod a 256) as Ea. pose proof (Z.div_mod b 256) as Eb.
    pose proof (Z.mod_pos_bound a 256). pose proof (Z.mod_pos_bound b 256).
    destruct (Z.compare_spec (a / 256) (b / 256)) as [E|E|E].
    + destruct (Z.compare_spec (a mod 256) (b mod 256));
        symmetry; [apply Z.compare_eq_iff|apply Z.compare_lt_iff|apply Z.compare_gt_iff]; lia.
    + symmetry. apply Z.compare_lt_iff. lia.
    + symmetry. apply Z.compare_gt_iff. lia.
Qed.

(** ** Raw access *)

Lemma from_be_to_le n z : from_be_bytes (to_le_bytes n z) = swap_bytes n z.
Proof. done. Qed.

Lemma swap_from_le l : all_bytes l -> swap_bytes (length l) (from_le_bytes l) = from_be_bytes l.
Proof. intros. unfold swap_bytes. by rewrite to_from_le_bytes. Qed.

Lemma swap_from_be l : all_bytes l -> swap_bytes (length l) (from_be_bytes l) = from_le_bytes l.
Proof.
  intros. unfold swap_bytes, from_be_bytes. rewrite <- (length_reverse l).
  rewrite <- (to_from_le_bytes (reverse l)) at 2 by by apply Forall_reverse.
  rewrite to_from_le_bytes by by apply Forall_reverse.
  by rewrite to_from_le_bytes, reverse_involutive by by apply Forall_reverse.
Qed.

Lemma take_drop_splice {A} p (xs mem : list A) :
  0 <= p -> p + len xs <= len mem ->
  take (length xs) (drop (Z.to_nat p) (splice p xs mem)) = xs.
Proof.
  unfold len. intros. unfold splice.
  rewrite drop_app_ge by (rewrite length_take; lia).
  rewrite length_take, Nat.min_l, Nat.sub_diag, drop_0 by lia.
  apply take_app_length.
Qed.

Lemma copy_nonoverlapping_done src mem p :
  0 <= p -> p + len src <= len mem ->
  copy_nonoverlapping src mem p = Done (splice p src mem).
Proof. intros. unfold copy_nonoverlapping. by rewrite decide_True. Qed.

(** Reading back what a copy wrote, as a native-endian integer. *)

Lemma read_unaligned_splice t src mem p :
  0 <= p -> p + len src <= len mem ->
  read_unaligned t (length src) (splice p src mem) p = Done (from_ne_bytes t src).
Proof.
  intros. unfold read_unaligned. rewrite len_splice by done.
  rewrite decide_True by (unfold len in *; lia). by rewrite take_drop_splice.
Qed.

Lemma int_to_le_ne t n src :
  all_bytes src -> length src = n -> int_to_le t n (from_ne_bytes t src) = from_le_bytes src.
Proof. intros ? <-. destruct t; simpl; [done|]. by apply swap_from_be. Qed.

Lemma int_to_be_ne t n src :
  all_bytes src -> length src = n -> int_to_be t n (from_ne_bytes t src) = from_be_bytes src.
Proof. intros ? <-. destruct t; simpl; [by apply swap_from_le|done]. Qed.

(** A write at [p] of [n] bytes: what is left untouched. *)

Definition same_outside (p n : Z) (mem mem' : bytes) : Prop :=
  length mem' = length mem /\
  take (Z.to_nat p) mem' = take (Z.to_nat p) mem /\
  drop (Z.to_nat (p + n)) mem' = drop (Z.to_nat (p + n)) mem.

Lemma splice_same_outside p src mem :
  0 <= p -> p + len src <= len mem -> same_outside p (len src) mem (splice p src mem).
Proof.
  intros. split_and!.
  - by apply splice_length.
  - unfold splice. rewrite take_app_le by (rewrite length_take; unfold len in *; lia).
    rewrite take_take. f_equal. lia.
  - unfold splice, len in *. rewrite app_assoc, drop_app_ge by (autorewrite with lengths; lia).
    rewrite drop_drop. f_equal. autorewrite with lengths. lia.
Qed.

(** One round trip for all widths and both encodings: copy the encoding, read
    it back natively, convert. *)

Lemma raw_roundtrip t (conv : Z -> Z) n src mem p v :
  length src = n -> conv (from_ne_bytes t src) = v ->
  0 <= p -> p + Z.of_nat n <= len mem ->
  exists mem', copy_nonoverlapping src mem p = Done mem' /\
    conv <$> read_unaligned t n mem' p = Done v /\ same_outside p (Z.of_nat n) mem mem'.
Proof.
  intros <- Hc Hp Hm. change (Z.of_nat (length src)) with (len src) in *.
  rewrite copy_nonoverlapping_done by done. eexists; split; [done|].
  rewrite read_unaligned_splice by done. cbn [fmap outcome_fmap]. rewrite Hc.
  eauto using splice_same_outside.
Qed.

Lemma int_to_le_roundtrip t n v :
  in_width (8 * Z.of_nat n) v -> int_to_le t n (from_ne_bytes t (to_le_bytes n v)) = v.
Proof.
  intros. rewrite int_to_le_ne, from_to_le_bytes, wrap_small;
    auto using to_le_bytes_length, to_le_bytes_bytes.
Qed.

Lemma int_to_be_roundtrip t n v :
  in_width (8 * Z.of_nat n) v -> int_to_be t n (from_ne_bytes t (to_be_bytes n v)) = v.
Proof.
  intros. rewrite int_to_be_ne, from_to_be_bytes, wrap_small;
    auto using to_be_bytes_length, to_be_bytes_bytes.
Qed.

(** Every fixed-width reader of utils/mod.rs reads back what the matching
    writer stored at the same place, whatever the target's byte order, and the
    write touches no other byte of the allocation. *)
Theorem raw_access_roundtrip t mem p v :
  0 <= p ->
  (p + 2 <= len mem -> in_width 16 v ->
   exists mem', write_u16_le_unsafe mem p v = Done mem' /\
     read_u16_le_unsafe t mem' p = Done v /\ same_outside p 2 mem mem') /\
  (p + 4 <= len mem -> in_width 32 v ->
   (exists mem', write_u32_le_unsafe mem p v = Done mem' /\
     read_u32_le_unsafe t mem' p = Done v /\ same_outside p 4 mem mem') /\
   (exists mem', write_u32_be_unsafe mem p v = Done mem' /\
     read_u32_be_unsafe t mem' p = Done v /\ same_outside p 4 mem mem')) /\
  (p + 8 <= len mem -> in_width 64 v ->
   exists mem', write_u64_unsafe mem p v = Done mem' /\
     read_u64_unsafe t mem' p = Done v /\ same_outside p 8 mem mem').
Proof.
  intros Hp. split_and!; intros; [|split|];
    apply raw_roundtrip;
    auto using to_le_bytes_length, to_be_bytes_length, int_to_le_roundtrip, int_to_be_roundtrip.
Qed.

Lemma raw_access_roundtrip_witness :
  exists mem', write_u32_be_unsafe [1; 2; 3; 4; 5; 6] 1 0xA0B0C0D0 = Done mem' /\
    read_u32_be_unsafe BigEndian mem' 1 = Done 0xA0B0C0D0 /\
    same_outside 1 4 [1; 2; 3; 4; 5; 6] mem'.
Proof.
  destruct (raw_access_roundtrip BigEndian [1; 2; 3; 4; 5; 6] 1 0xA0B0C0D0) as (_ & H & _);
    [lia|].
  apply H; [unfold len; simpl; lia | unfold in_width; lia].
Defined.

(** ** The variable-length encoder computes the reference encoding *)

Lemma low7_is_mod v : Z.land v LOW_7_BITS = v mod 128.
Proof. apply (land_mask v 7). lia. Qed.

Lemma lor_msb d : 0 <= d < 128 -> Z.lor d MSB = d + 128.
Proof.
  intros. rewrite Z.lor_comm. change MSB with (Z.shiftl 1 7).
  rewrite lor_shiftl_add by lia. lia.
Qed.

Lemma continuation_byte v : Z.lor (wrap 8 (Z.land v LOW_7_BITS)) MSB = v mod 128 + 128.
Proof.
  rewrite low7_is_mod. pose proof (Z.mod_pos_bound v 128).
  rewrite wrap_small by (unfold in_width; lia). apply lor_msb. lia.
Qed.

Lemma shift7_is_div v : Z.shiftr v SHIFT_7_BITS = v / 128.
Proof. by rewrite Z.shiftr_div_pow2. Qed.

Lemma leb128_length n v : (length (leb128 n v) <= n)%nat.
Proof. revert v; induction n; intros; simpl; [lia|]. case_decide; simpl; [specialize (IHn (v/128))|]; lia. Qed.

Lemma leb128_nonempty n v : (0 < n)%nat -> leb128 n v <> [].
Proof. destruct n; [lia|]. simpl. by case_decide. Qed.

Lemma div128_lt v (n : nat) : v < 128 ^ Z.of_nat (S n) -> v / 128 < 128 ^ Z.of_nat n.
Proof.
  intros. apply Z.div_lt_upper_bound; [lia|].
  rewrite <- Z.pow_succ_r by lia. by rewrite <- Nat2Z.inj_succ.
Qed.

(** The loop keeps the invariant that [pre] holds the digits emitted so far:
    after it, [buf] is [pre] followed by the remaining digits but the last. *)

Lemma VarInt_new_loop_spec n pre post v :
  0 <= v < 128 ^ Z.of_nat n -> (length post = n) -> (0 < n)%nat ->
  exists digits last post',
    leb128 n v = digits ++ [last] /\ in_width 8 last /\ (0 < length post')%nat /\
    length (digits ++ post') = length post /\
    VarInt_new_loop n (pre ++ post) v (len pre) =
      Done (pre ++ digits ++ post', last, len pre + len digits).
Proof.
  revert pre post v. induction n as [|n IH]; intros pre post v Hv Hpost Hn; [lia|].
  simpl. destruct post as [|z post]; [done|]. injection Hpost as Hpost.
  case_decide as Hgt.
  - rewrite continuation_byte, shift7_is_div.
    rewrite store_at_done by (autorewrite with lens; pose proof (len_nonneg pre); pose proof (len_nonneg post); lia).
    cbn [mbind outcome_bind]. rewrite splice_app. cbn [length app drop skipn].
    assert (0 < n)%nat. { destruct n; [|lia]. change (128 ^ Z.of_nat 1) with 128 in Hv. lia. }
    destruct (IH (pre ++ [v mod 128 + 128]) post (v / 128)) as (ds & l & post' & E & Hl & Hp & Hd & Hrun).
    { split; [apply Z.div_pos; lia|]. apply div128_lt, Hv. }
    { done. } { done. }
    exists ((v mod 128 + 128) :: ds), l, post'. rewrite E. split_and!; try done.
    + simpl. by rewrite Hd.
    + rewrite drop_0. replace (pre ++ v mod 128 + 128 :: post) with ((pre ++ [v mod 128 + 128]) ++ post)
        by by rewrite <- app_assoc.
      replace (len pre + 1) with (len (pre ++ [v mod 128 + 128])) by (autorewrite with lens; lia).
      rewrite Hrun. rewrite <- !app_assoc. simpl. do 2 f_equal. autorewrite with lens. lia.
  - exists [], v, (z :: post). split_and!; simpl; try done; [unfold in_width; lia|lia|].
    by rewrite len_nil, Z.add_0_r.
Qed.

Definition VarInt_ok (v : Z) (r : VarInt) : Prop :=
  VarInt_as_slice r = Done (varint v) /\ VarInt_size r = len (varint v) /\
  len (vi_buf r) = Z.of_nat MAX_VARINT.

Lemma VarInt_new_spec v :
  in_width 32 v -> exists r, VarInt_new v = Done r /\ VarInt_ok v r.
Proof.
  intros Hv. unfold VarInt_new.
  destruct (VarInt_new_loop_spec MAX_VARINT [] (replicate MAX_VARINT 0) v)
    as (ds & l & post' & E & Hl & Hp & Hd & Hrun); [unfold in_width, MAX_VARINT in *; lia|done|unfold MAX_VARINT; lia|].
  rewrite app_nil_l in Hrun. change (len (@nil Z)) with 0 in Hrun. rewrite Hrun.
  cbn [mbind outcome_bind]. rewrite app_nil_l, Z.add_0_l, (wrap_small 8 l) by done.
  destruct post' as [|z post']; [simpl in Hp; lia|].
  rewrite store_at_done by (autorewrite with lens; pose proof (len_nonneg ds); pose proof (len_nonneg post'); lia).
  cbn [mbind outcome_bind]. rewrite splice_app. cbn [length app drop].
  eexists; split; [done|]. unfold VarInt_ok, VarInt_as_slice, VarInt_size, varint. cbn [vi_buf vi_len].
  rewrite E. rewrite drop_0.
  assert (length (ds ++ z :: post') = MAX_VARINT) as Hd' by (rewrite Hd; apply length_replicate).
  rewrite length_app in Hd'. simpl in Hd'.
  rewrite wrap_small by (unfold in_width, len, MAX_VARINT in *; lia).
  split_and!.
  - replace (ds ++ l :: post') with ([] ++ (ds ++ [l]) ++ post') by (simpl; by rewrite <- app_assoc).
    apply slice_range_app; [done|]. autorewrite with lens. lia.
  - autorewrite with lens. lia.
  - unfold len. rewrite length_app. simpl. lia.
Qed.

(** ** The decoder inverts the reference encoding *)

Lemma land_high_bit d : 0 <= d < 256 -> Z.land d 0x80 = 0 <-> d < 128.
Proof.
  intros Hd. destruct (decide (d < 128)) as [Hlt|Hge].
  - split; [done|intros _]. rewrite Z.land_comm. change 0x80 with (Z.shiftl 1 7).
    apply land_shiftl_low; lia.
  - split; [|lia]. intros E.
    assert (d = Z.lor (Z.shiftl 1 7) (d - 128)) as Ed by (rewrite lor_shiftl_add; lia).
    rewrite Ed, Z.land_lor_distr_l in E. apply Z.lor_eq_0_iff in E as [E _]. done.
Qed.

Lemma low7_continuation d : 0 <= d < 128 -> Z.land (d + 128) 0x7F = d.
Proof.
  intros. change 0x7F with LOW_7_BITS. rewrite low7_is_mod.
  replace (d + 128) with (d + 1 * 128) by lia. rewrite Z.mod_add, Z.mod_small by lia. done.
Qed.

Lemma low7_small d : 0 <= d < 128 -> Z.land d 0x7F = d.
Proof. intros. change 0x7F with LOW_7_BITS. rewrite low7_is_mod. apply Z.mod_small. lia. Qed.

Lemma shl_u32_done p x s :
  0 <= s < 32 -> 0 <= x -> x * 2 ^ s < 2 ^ 32 -> shl_u32 p x s = Done (x * 2 ^ s).
Proof.
  intros. unfold shl_u32. rewrite decide_True by lia.
  rewrite Z.shiftl_mul_pow2, wrap_small by (unfold in_width; lia). done.
Qed.

(** One digit is merged into the accumulator without touching it. *)

Lemma lor_digit r d s : 0 <= s -> 0 <= r < 2 ^ s -> Z.lor r (d * 2 ^ s) = r + d * 2 ^ s.
Proof.
  intros. rewrite <- Z.shiftl_mul_pow2 by lia. rewrite Z.lor_comm, lor_shiftl_add by lia.
  rewrite Z.shiftl_mul_pow2 by lia. lia.
Qed.

Lemma VarInt_decode_loop_spec p n v rest r s k :
  0 <= v < 128 ^ Z.of_nat n -> (0 < n)%nat -> 0 <= s < 32 -> 0 <= r < 2 ^ s ->
  v * 2 ^ s < 2 ^ 32 ->
  VarInt_decode_loop p (leb128 n v ++ rest) r s k =
    Done (r + v * 2 ^ s, k + len (leb128 n v)).
Proof.
  revert v r s k. induction n as [|n IH]; intros v r s k Hv Hn Hs Hr Hb; [lia|].
  assert (0 < 2 ^ s) by (apply Z.pow_pos_nonneg; lia).
  simpl. case_decide as Hgt.
  - assert (0 < n)%nat. { destruct n; [|lia]. change (128 ^ Z.of_nat 1) with 128 in Hv. lia. }
    pose proof (Z.mod_pos_bound v 128 ltac:(lia)) as Hm.
    pose proof (Z.div_mod v 128 ltac:(lia)) as Edm.
    assert (1 <= v / 128) by (apply Z.div_le_lower_bound; lia).
    assert (2 ^ (s + 7) = 128 * 2 ^ s) as Ep by (rewrite Z.pow_add_r by lia; lia).
    simpl app. cbn [VarInt_decode_loop]. rewrite low7_continuation by done.
    rewrite shl_u32_done by nia. cbn [mbind outcome_bind].
    rewrite lor_digit by lia.
    rewrite decide_False by (rewrite land_high_bit by lia; lia).
    assert (s + 7 < 32). { apply (Z.pow_lt_mono_r_iff 2); [lia|lia|]. nia. }
    rewrite IH; [| |done|lia|nia|nia].
    + f_equal. f_equal; [nia|]. autorewrite with lens. lia.
    + split; [lia|]. apply div128_lt. apply Hv.
  - cbn [app VarInt_decode_loop]. rewrite low7_small by lia.
    rewrite shl_u32_done by lia. cbn [mbind outcome_bind].
    rewrite lor_digit by lia. rewrite decide_True by (rewrite land_high_bit by lia; lia).
    by autorewrite with lens.
Qed.

Lemma VarInt_decode_spec p v rest :
  in_width 32 v -> VarInt_decode p (varint v ++ rest) = Done (v, len (varint v)).
Proof.
  unfold in_width. intros H. unfold VarInt_decode, varint.
  assert (v < 128 ^ Z.of_nat MAX_VARINT) by (eapply Z.lt_trans; [apply H|done]).
  rewrite VarInt_decode_loop_spec; [by rewrite Z.pow_0_r, Z.mul_1_r|lia|unfold MAX_VARINT; lia|lia|simpl; lia|simpl; lia].
Qed.

(** C35: for every u32 the encoder terminates without panicking, uses at most
    the five bytes of its buffer, and decoding its bytes, with anything after
    them, in either build gives back the value and the number of bytes it
    occupies. *)
Theorem varint_roundtrip p v rest :
  in_width 32 v ->
  exists r s, VarInt_new v = Done r /\ VarInt_as_slice r = Done s /\
    len s = VarInt_size r /\ 1 <= VarInt_size r <= Z.of_nat MAX_VARINT /\
    VarInt_decode p (s ++ rest) = Done (v, VarInt_size r).
Proof.
  intros Hv. destruct (VarInt_new_spec v Hv) as (r & Hr & Hs & Hz & _).
  exists r, (varint v). rewrite Hz, VarInt_decode_spec by done. split_and!; try done.
  - assert (varint v <> []) by (apply leb128_nonempty; unfold MAX_VARINT; lia).
    destruct (varint v); [done|]. autorewrite with lens. pose proof (len_nonneg l). lia.
  - pose proof (leb128_length MAX_VARINT v). unfold len, varint. lia.
Qed.

Lemma varint_roundtrip_witness :
  exists r s, VarInt_new 3000000 = Done r /\ VarInt_as_slice r = Done s /\
    len s = VarInt_size r /\ 1 <= VarInt_size r <= Z.of_nat MAX_VARINT /\
    VarInt_decode Debug (s ++ [7; 255]) = Done (3000000, VarInt_size r).
Proof. apply (varint_roundtrip Debug 3000000 [7; 255]). unfold in_width. lia. Defined.

(** The length of the encoding by magnitude, as var_int.rs's boundary test
    tabulates it. *)

Lemma varint_len v : in_width 32 v -> len (varint v) = varint_size v.
Proof.
  intros Hv. unfold in_width in Hv. change (2 ^ 32) with 4294967296 in Hv.
  unfold varint_size. change (2 ^ 7) with 128. change (2 ^ 14) with 16384.
  change (2 ^ 21) with 2097152. change (2 ^ 28) with 268435456.
  unfold varint, MAX_VARINT. cbn [leb128]. rewrite !Zdiv_Zdiv by lia.
  change (128 * 128 * 128 * 128) with 268435456. change (128 * 128 * 128) with 2097152.
  change (128 * 128) with 16384.
  repeat case_decide; unfold len; simpl; Z.to_euclidean_division_equations; lia.
Qed.

(** The encoding is prefix-free, so two different lengths never read alike. *)

Lemma varint_inj v w r1 r2 :
  in_width 32 v -> in_width 32 w -> varint v ++ r1 = varint w ++ r2 -> v = w /\ r1 = r2.
Proof.
  intros Hv Hw E. pose proof (VarInt_decode_spec Debug v r1 Hv) as E1.
  rewrite E, VarInt_decode_spec in E1 by done. injection E1 as ->.
  by apply app_inv_head in E.
Qed.

Lemma varint_bytes v : in_width 32 v -> all_bytes (varint v).
Proof.
  intros Hv. unfold varint. assert (0 <= v) as H by (unfold in_width in Hv; lia). clear Hv.
  revert v H. induction MAX_VARINT as [|n IH]; intros v H; simpl; [constructor|].
  pose proof (Z.mod_pos_bound v 128 ltac:(lia)).
  case_decide; repeat constructor; unfold is_byte, in_width; try lia.
  apply IH. apply Z.div_pos; lia.
Qed.

(** ** Malformed input *)

Lemma VarInt_decode_loop_all_continue p bs r s k :
  Forall (fun b => 128 <= b < 256) bs -> 0 <= s -> s + 7 * len bs <= 35 ->
  exists r', VarInt_decode_loop p bs r s k = Done (r', k + len bs) /\
    forall rest, VarInt_decode_loop p (bs ++ rest) r s k =
      VarInt_decode_loop p rest r' (s + 7 * len bs) (k + len bs).
Proof.
  intros H. revert r s k. induction H as [|b bs Hb Hbs IH]; intros r s k Hs Hl.
  - exists r. simpl. unfold len. simpl. split; [by rewrite Z.add_0_r|].
    intros. by rewrite !Z.add_0_r.
  - rewrite len_cons in Hl. pose proof (len_nonneg bs).
    cbn [VarInt_decode_loop app].
    assert (shl_u32 p (Z.land b 0x7F) s = Done (wrap 32 (Z.shiftl (Z.land b 0x7F) s))) as Es.
    { unfold shl_u32. rewrite decide_True by lia. done. }
    destruct (IH (Z.lor r (wrap 32 (Z.shiftl (Z.land b 127) s))) (s + 7) (k + 1)) as (r' & E1 & E2);
      [lia|lia|].
    exists r'. setoid_rewrite Es. cbn [mbind outcome_bind].
    setoid_rewrite decide_False; [|rewrite land_high_bit by lia; lia|rewrite land_high_bit by lia; lia].
    rewrite E1. setoid_rewrite E2. rewrite !len_cons.
    split; intros; [do 2 f_equal|f_equal]; lia.
Qed.

(** Malformed lengths.  An input that ends before a terminating byte is
    accepted as if complete, and an input whose first five bytes all ask for
    continuation makes a debug build panic at the sixth byte. *)
Theorem varint_decode_malformed p bs b rest :
  Forall (fun b => 128 <= b < 256) bs -> len bs <= 5 ->
  (exists r, VarInt_decode p bs = Done (r, len bs)) /\
  (len bs = 5 -> VarInt_decode Debug (bs ++ b :: rest) = Panic "attempt to shift left with overflow").
Proof.
  intros H Hl. unfold VarInt_decode. split.
  - destruct (VarInt_decode_loop_all_continue p bs 0 0 0 H) as (r & E & _); [lia|lia|].
    exists r. rewrite E. do 2 f_equal.
  - intros E5. destruct (VarInt_decode_loop_all_continue Debug bs 0 0 0 H) as (r & _ & E); [lia|lia|].
    rewrite E, E5. done.
Qed.

Lemma varint_decode_malformed_witness :
  (exists r, VarInt_decode Debug [255; 255; 255; 255; 255] = Done (r, 5)) /\
  (5 = 5 -> VarInt_decode Debug ([255; 255; 255; 255; 255] ++ 1 :: []) =
    Panic "attempt to shift left with overflow").
Proof.
  apply (varint_decode_malformed Debug [255; 255; 255; 255; 255] 1 []).
  - repeat constructor; lia.
  - unfold len. simpl. lia.
Defined.

#[export] Hint Resolve to_le_bytes_bytes to_be_bytes_bytes varint_bytes : ordinum.
