(* ===== verification/Records.v ===== *)
(** * Records: the kinds of operations a batch can hold

    Models the operation-kind enumerations of [db/batch.rs] and the static
    table that classifies them, and the crate's error type ([error.rs]), which
    the components that follow share. *)

From S2P Require Import Prelude.

(* @src crates/engine/src/db/batch.rs:148-157 RecordKind *)
Inductive RecordKind := RPut | RDelete | RMerge | RRangeDel | RLogData.

#[export] Instance RecordKind_eq_dec : EqDecision RecordKind.
Proof. solve_decision. Defined.

(** [kind as u8] / [kind as usize]. *)

Definition RecordKind_as_u8 (k : RecordKind) : Z :=
  match k with RPut => 1 | RDelete => 2 | RMerge => 3 | RRangeDel => 4 | RLogData => 5 end.

(* @src crates/engine/src/db/batch.rs:159-159 RECORD_KIND_MAX *)
Definition RECORD_KIND_MAX : Z := RecordKind_as_u8 RLogData.

(* @src crates/engine/src/db/batch.rs:162-164 RecordKind::index *)
Definition RecordKind_index (k : RecordKind) : nat := Z.to_nat (RecordKind_as_u8 k).

(* @src crates/engine/src/db/batch.rs:171-181 RecordKind::fmt *)
Definition RecordKind_fmt (k : RecordKind) : string :=
  match k with
  | RPut => "Put" | RDelete => "Delete" | RMerge => "Merge"
  | RRangeDel => "RangeDel" | RLogData => "LogData"
  end.

(* @src crates/engine/src/db/batch.rs:183-190 RecordCategory *)
Inductive RecordCategory := CatInvalid | CatPoint | CatRangeDel | CatLogData.

(* @src crates/engine/src/db/batch.rs:192-201 RecordCategory::fmt *)
Definition RecordCategory_fmt (c : RecordCategory) : string :=
  match c with
  | CatInvalid => "Invalid" | CatPoint => "Point"
  | CatRangeDel => "RangeDel" | CatLogData => "LogData"
  end.

(* @src crates/engine/src/db/batch.rs:89-91 DefaultFormatMajorVersion *)
Definition DefaultFormatMajorVersion : Z := 0.

(* @src crates/engine/src/db/batch.rs:203-206 BatchKindInfo *)
Record BatchKindInfo := mkBatchKindInfo {
  min_format_major_version : Z;
  category : RecordCategory
}.

(* @src crates/engine/src/db/batch.rs:218-225 BatchKindInfo::from *)
Definition BatchKindInfo_from (cat : RecordCategory) : BatchKindInfo :=
  mkBatchKindInfo DefaultFormatMajorVersion cat.

(* @src crates/engine/src/db/batch.rs:227-227 InvalidBatchKind *)
Definition InvalidBatchKind : BatchKindInfo := BatchKindInfo_from CatInvalid.

(* @src crates/engine/src/db/batch.rs:229-239 make_batch_kind_mapping *)
Definition make_batch_kind_mapping : list BatchKindInfo :=
  let mappings := replicate (Z.to_nat (RECORD_KIND_MAX + 1)) InvalidBatchKind in
  let mappings := <[RecordKind_index RPut := BatchKindInfo_from CatPoint]> mappings in
  let mappings := <[RecordKind_index RDelete := BatchKindInfo_from CatPoint]> mappings in
  let mappings := <[RecordKind_index RMerge := BatchKindInfo_from CatPoint]> mappings in
  let mappings := <[RecordKind_index RRangeDel := BatchKindInfo_from CatRangeDel]> mappings in
  let mappings := <[RecordKind_index RLogData := BatchKindInfo_from CatLogData]> mappings in
  mappings.

(* @src crates/engine/src/db/batch.rs:241-241 RECORD_KIND_MAPPING *)
Definition RECORD_KIND_MAPPING : list BatchKindInfo := make_batch_kind_mapping.

(* @src crates/engine/src/db/batch.rs:166-168 RecordKind::info *)
Definition RecordKind_info (k : RecordKind) : outcome BatchKindInfo :=
  match RECORD_KIND_MAPPING !! RecordKind_index k with
  | Some i => Done i
  | None => Panic "index out of bounds"
  end.

(** The crate's error values ([std::io::Error] payloads are not inspected). *)

(* @src crates/engine/src/error.rs:5-37 Error *)
Inductive Error :=
| Io
| Shutdown
| Corruption (msg : string)
| ColumnFamilyNotFound (id : Z)
| WalErr
| KeyTooLarge (size max : Z)
| ValueTooLarge (size max : Z)
| RecordTooLarge (encoded_size max_batch_size : Z)
| BatchFull (record_size current_size max_batch_size : Z).

(** Every kind is classified, as a point, range or log operation, and none as
    invalid; looking a kind up never goes out of the table's bounds. *)

Lemma RecordKind_info_category k :
  category <$> RecordKind_info k =
    Done match k with
         | RPut | RDelete | RMerge => CatPoint
         | RRangeDel => CatRangeDel
         | RLogData => CatLogData
         end.
Proof. by destruct k. Qed.

Lemma RecordKind_as_u8_inj j k : RecordKind_as_u8 j = RecordKind_as_u8 k -> j = k.
Proof. by destruct j, k. Qed.

Lemma RecordKind_as_u8_byte k : is_byte (RecordKind_as_u8 k).
Proof. destruct k; unfold is_byte, in_width; simpl; lia. Qed.

#[export] Hint Resolve RecordKind_as_u8_byte : ordinum.
