(* ===== verification/Key.v ===== *)
(** * Key: internal keys, their order, and the buffers that hold them

    Models [key/internal_key.rs] (trailer packing and decoding),
    [key/comparator.rs] (the two comparators), [key/mod.rs] ([encode_into]),
    [key/inner_key.rs], [key/iter_key.rs] and [key/lookup_key.rs] (inline and
    heap storage of an encoded key). *)

From stdpp Require Import pretty.
From S2P Require Import Prelude Codec Records.
Local Open Scope Z_scope.


(* @src crates/engine/src/key/mod.rs:14-15 MAX_USER_KEY_BYTES *)
Definition MAX_USER_KEY_BYTES : Z := u_max 16.
(* @src crates/engine/src/key/mod.rs:17-18 MAX_KEY_SIZE *)
Definition MAX_KEY_SIZE : Z := MAX_USER_KEY_BYTES.
(* @src crates/engine/src/key/mod.rs:20-20 INITIAL_KEY_BUFFER_CAP *)
Definition INITIAL_KEY_BUFFER_CAP : Z := 512.
(* @src crates/engine/src/key/internal_key.rs:24-24 INLINE_IK_SIZE *)
Definition INLINE_IK_SIZE : Z := 20.
(* @src crates/engine/src/key/inner_key.rs:12-14 ITER_INLINE *)
Definition ITER_INLINE : Z := 39.

(** ** Kinds *)

(* @src crates/engine/src/key/internal_key.rs:26-35 InternalKeyKind *)
Inductive InternalKeyKind := KPut | KDelete | KMerge | KRangeDel | KLog | KMax.

#[export] Instance InternalKeyKind_eq_dec : EqDecision InternalKeyKind.
Proof. solve_decision. Defined.

(** [op as u8], and [u64::from(op)]. *)

(* @src crates/engine/src/key/internal_key.rs:63-67 u64::from *)
Definition InternalKeyKind_as_u8 (k : InternalKeyKind) : Z :=
  match k with KPut => 1 | KDelete => 2 | KMerge => 3 | KRangeDel => 4 | KLog => 5 | KMax => 255 end.

(* @src crates/engine/src/key/internal_key.rs:37-46 InvalidInternalKeyKind *)
Record InvalidInternalKeyKind := mkInvalid { raw : Z }.

(* @src crates/engine/src/key/internal_key.rs:54-59 InvalidInternalKeyKind::fmt *)
Definition InvalidInternalKeyKind_fmt (e : InvalidInternalKeyKind) : string :=
  "invalid internal-key kind: " +:+ pretty (raw e).

(* @src crates/engine/src/key/internal_key.rs:69-81 InternalKeyKind::try_from *)
Definition InternalKeyKind_try_from (b : Z) : result InternalKeyKind InvalidInternalKeyKind :=
  if decide (b = 1) then Ok KPut
  else if decide (b = 2) then Ok KDelete
  else if decide (b = 3) then Ok KMerge
  else if decide (b = 255) then Ok KMax
  else Err (mkInvalid b).

(* @src crates/engine/src/key/internal_key.rs:83-94 InternalKeyKind::fmt *)
Definition InternalKeyKind_fmt (k : InternalKeyKind) : string :=
  match k with
  | KPut => "Put" | KDelete => "Delete" | KMerge => "Merge"
  | KRangeDel => "RangeDel" | KLog => "LogData" | KMax => "Max"
  end.

(* @src crates/engine/src/key/internal_key.rs:96-108 InternalKeyKind::try_from *)
Definition InternalKeyKind_try_from_record (k : RecordKind) : result InternalKeyKind RecordKind :=
  match k with
  | RPut => Ok KPut
  | RDelete => Ok KDelete
  | RMerge => Ok KMerge
  | RRangeDel => Err RRangeDel
  | RLogData => Ok KLog
  end.

(** ** Trailers *)

(* @src crates/engine/src/key/internal_key.rs:110-115 pack_trailer *)
Definition pack_trailer (p : profile) (seq_no : Z) (op : InternalKeyKind) : outcome Z :=
  _ ← debug_assert p (seq_no <? Z.shiftl 1 56) "seq_no < (1 << 56)";
  Done (Z.lor (wrap 64 (Z.shiftl seq_no 8)) (InternalKeyKind_as_u8 op)).

(* @src crates/engine/src/key/internal_key.rs:117-121 encode_trailer *)
Definition encode_trailer (p : profile) (seq_no : Z) (op : InternalKeyKind) : outcome bytes :=
  to_be_bytes 8 <$> pack_trailer p seq_no op.

(* @src crates/engine/src/key/internal_key.rs:123-126 unpack_trailer_raw *)
Definition unpack_trailer_raw (trailer : Z) : Z * Z :=
  (Z.shiftr trailer 8, wrap 8 (Z.land trailer 0xff)).

(* @src crates/engine/src/key/internal_key.rs:128-134 unpack_trailer *)
Definition unpack_trailer (trailer : Z) : result (Z * InternalKeyKind) InvalidInternalKeyKind :=
  let '(seq_no, op) := unpack_trailer_raw trailer in
  match InternalKeyKind_try_from op with
  | Ok k => Ok (seq_no, k)
  | Err e => Err e
  end.

(* @src crates/engine/src/key/internal_key.rs:136-139 extract_seq_no *)
Definition extract_seq_no (trailer : Z) : Z := Z.shiftr trailer 8.

(* @src crates/engine/src/key/internal_key.rs:141-144 extract_op *)
Definition extract_op (trailer : Z) : result InternalKeyKind InvalidInternalKeyKind :=
  InternalKeyKind_try_from (wrap 8 (Z.land trailer 0xff)).

(* @src crates/engine/src/key/internal_key.rs:146-149 extract_op_raw *)
Definition extract_op_raw (trailer : Z) : Z := wrap 8 (Z.land trailer 0xff).

(** ** Decoded keys *)

(* @src crates/engine/src/key/internal_key.rs:151-158 InternalKeyRef *)
Record InternalKeyRef := mkInternalKeyRef { user_key : bytes; seq_no : Z; op : Z }.

(** [slice.split_at(n)]. *)

Definition split_at (l : bytes) (n : Z) : outcome (bytes * bytes) :=
  if decide (0 <= n <= len l)
  then Done (take (Z.to_nat n) l, drop (Z.to_nat n) l)
  else Panic "mid > len".

(* @src crates/engine/src/key/internal_key.rs:160-175 InternalKeyRef::from *)
Definition InternalKeyRef_from (p : profile) (key : bytes) : outcome InternalKeyRef :=
  _ ← debug_assert p (8 <=? len key) "InternalKey must include trailer";
  mid ← sub_w p usize_bits (len key) 8;
  '(user_key, trailer_bytes) ← split_at key mid;
  _ ← rust_assert (len trailer_bytes =? 8) "called Result::unwrap on an Err value";
  let trailer := from_be_bytes trailer_bytes in
  let '(seq_no, op) := unpack_trailer_raw trailer in
  Done (mkInternalKeyRef user_key seq_no op).

(** ** Comparators

    The trait, and the contract its users rely on: on the keys a comparator
    accepts it answers without panicking, with a total order. *)

(* @src crates/engine/src/key/comparator.rs:5-12 Comparator *)
Class Comparator := compare : profile -> bytes -> bytes -> outcome comparison.

Class ComparatorOk (C : Comparator) (valid : bytes -> Prop) := {
  key_cmp : bytes -> bytes -> comparison;
  compare_done p a b : valid a -> valid b -> compare p a b = Done (key_cmp a b);
  key_cmp_eq a b : valid a -> valid b -> key_cmp a b = Eq <-> a = b;
  key_cmp_antisym a b : valid a -> valid b -> key_cmp b a = CompOpp (key_cmp a b);
  key_cmp_trans a b c :
    valid a -> valid b -> valid c ->
    key_cmp a b = Lt -> key_cmp b c = Lt -> key_cmp a c = Lt
}.

(* @src crates/engine/src/key/comparator.rs:24-28 DefaultComparator::compare *)
Definition DefaultComparator : Comparator := fun _ a b => Done (bytes_cmp a b).

(* @src crates/engine/src/key/comparator.rs:40-53 InternalKeyComparator::compare *)
Definition InternalKeyComparator : Comparator := fun p a b =>
  na ← sub_w p usize_bits (len a) 8;
  '(a_user, a_trailer) ← split_at a na;
  nb ← sub_w p usize_bits (len b) 8;
  '(b_user, b_trailer) ← split_at b nb;
  Done match bytes_cmp a_user b_user with
       | Eq => bytes_cmp b_trailer a_trailer
       | other => other
       end.

(** ** Encoding into a buffer *)

(* @src crates/engine/src/key/mod.rs:26-35 encode_into *)
Definition encode_into (p : profile) (dst user_key : bytes) (seq_no : Z) (op_type : InternalKeyKind)
  : outcome bytes :=
  let user_len := len user_key in
  _ ← debug_assert p (user_len + 8 <=? len dst) "user_len + 8 <= dst.len()";
  dst ← copy_into dst 0 user_len user_key;
  trailer ← encode_trailer p seq_no op_type;
  copy_into dst user_len (user_len + 8) trailer.

(** ** Key storage

    The external pointer of an [InnerKey] is a token naming an allocation;
    what it points to is supplied by whoever owns that allocation, and a token
    that no longer names a live allocation is dangling. *)

(* @src crates/engine/src/key/inner_key.rs:19-23 InnerKey *)
Record InnerKey := mkInnerKey { ik_inline : bytes; ik_len : Z; ik_external : option nat }.

(* @src crates/engine/src/key/inner_key.rs:26-32 InnerKey::new *)
Definition InnerKey_new (N : Z) : InnerKey := mkInnerKey (replicate (Z.to_nat N) 0) 0 None.

(* @src crates/engine/src/key/inner_key.rs:34-43 InnerKey::as_slice *)
Definition InnerKey_as_slice (deref : nat -> option bytes) (k : InnerKey) : outcome bytes :=
  match ik_external k with
  | Some ptr =>
      match deref ptr with
      | Some mem => if decide (ik_len k <= len mem) then Done (take (Z.to_nat (ik_len k)) mem)
                    else UB "slice longer than the allocation"
      | None => UB "dangling pointer"
      end
  | None => slice_range (ik_inline k) 0 (ik_len k)
  end.

(* @src crates/engine/src/key/inner_key.rs:45-50 InnerKey::set_inline *)
Definition InnerKey_set_inline (p : profile) (N : Z) (k : InnerKey) (n : Z) : outcome InnerKey :=
  _ ← debug_assert p (n <=? N) "len <= N";
  Done (mkInnerKey (ik_inline k) n None).

(* @src crates/engine/src/key/inner_key.rs:52-56 InnerKey::set_external *)
Definition InnerKey_set_external (k : InnerKey) (n : Z) (ptr : nat) : InnerKey :=
  mkInnerKey (ik_inline k) n (Some ptr).

(* @src crates/engine/src/key/inner_key.rs:58-64 InnerKey::encode_inline *)
Definition InnerKey_encode_inline (p : profile) (N : Z) (k : InnerKey) (user_key : bytes)
    (seq_no : Z) (op : InternalKeyKind) : outcome InnerKey :=
  let total := len user_key + 8 in
  _ ← debug_assert p (total <=? N) "total <= N";
  k ← InnerKey_set_inline p N k total;
  dst ← slice_range (ik_inline k) 0 total;
  dst ← encode_into p dst user_key seq_no op;
  Done (mkInnerKey (splice 0 dst (ik_inline k)) (ik_len k) (ik_external k)).

(* @src crates/engine/src/key/inner_key.rs:66-72 InnerKey::encode_inline_from_slice *)
Definition InnerKey_encode_inline_from_slice (p : profile) (N : Z) (k : InnerKey) (slice : bytes)
  : outcome InnerKey :=
  let n := len slice in
  _ ← debug_assert p (n <=? N) "len <= N";
  k ← InnerKey_set_inline p N k n;
  inl ← copy_into (ik_inline k) 0 n slice;
  Done (mkInnerKey inl (ik_len k) (ik_external k)).

(** [Vec<u8>] with its capacity made visible: [vec_mem] is the whole
    allocation, [vec_id] its identity, which a reallocation changes. *)

Record ByteVec := mkByteVec { vec_id : nat; vec_len : Z; vec_mem : bytes }.

Definition vec_capacity (v : ByteVec) : Z := len (vec_mem v).

Definition vec_with_capacity (n : Z) : ByteVec := mkByteVec 0 0 (replicate (Z.to_nat n) 0).

Definition vec_clear (v : ByteVec) : ByteVec := mkByteVec (vec_id v) 0 (vec_mem v).

(** [Vec::reserve]: does nothing when the spare capacity, counted from the
    length, covers [additional]; otherwise grows to at least twice the capacity. *)

Definition vec_reserve (v : ByteVec) (additional : Z) : ByteVec :=
  if decide (additional <= vec_capacity v - vec_len v) then v
  else
    let required := vec_len v + additional in
    let cap := Z.max (Z.max (vec_capacity v * 2) required) 8 in
    mkByteVec (S (vec_id v)) (vec_len v)
      (take (Z.to_nat (vec_len v)) (vec_mem v)
         ++ replicate (Z.to_nat (cap - vec_len v)) 0).

(** [Vec::set_len]: undefined beyond the capacity. *)

Definition vec_set_len (v : ByteVec) (n : Z) : outcome ByteVec :=
  if decide (n <= vec_capacity v) then Done (mkByteVec (vec_id v) n (vec_mem v))
  else UB "set_len beyond the capacity".

(* @src crates/engine/src/key/iter_key.rs:12-15 IterKey *)
Record IterKey := mkIterKey { it_inner : InnerKey; it_heap : ByteVec }.

Definition IterKey_deref (k : IterKey) (ptr : nat) : option bytes :=
  if decide (ptr = vec_id (it_heap k)) then Some (vec_mem (it_heap k)) else None.

(* @src crates/engine/src/key/iter_key.rs:18-23 IterKey::new *)
Definition IterKey_new (N : Z) : IterKey :=
  mkIterKey (InnerKey_new N) (vec_with_capacity INITIAL_KEY_BUFFER_CAP).

(** The heap path shared by [set] and [set_from_slice]: clear, reserve, set
    the length, point the inner key at the buffer. *)

(* @src crates/engine/src/key/iter_key.rs:37-50 IterKey::set *)
Definition IterKey_use_heap (k : IterKey) (total : Z) : outcome IterKey :=
  let heap := vec_clear (it_heap k) in
  let heap := if decide (vec_capacity heap < total)
              then vec_reserve heap (total - vec_capacity heap) else heap in
  heap ← vec_set_len heap total;
  Done (mkIterKey (InnerKey_set_external (it_inner k) total (vec_id heap)) heap).

(* @src crates/engine/src/key/iter_key.rs:25-52 IterKey::set *)
Definition IterKey_set (p : profile) (N : Z) (k : IterKey) (user_key : bytes) (seq_no : Z)
    (op : InternalKeyKind) : outcome IterKey :=
  let total := len user_key + 8 in
  _ ← debug_assert p (total <=? MAX_KEY_SIZE) "total <= MAX_KEY_SIZE";
  if decide (total <= N) then
    inner ← InnerKey_encode_inline p N (it_inner k) user_key seq_no op;
    Done (mkIterKey inner (it_heap k))
  else
    k ← IterKey_use_heap k total;
    dst ← encode_into p (take (Z.to_nat total) (vec_mem (it_heap k))) user_key seq_no op;
    Done (mkIterKey (it_inner k)
            (mkByteVec (vec_id (it_heap k)) (vec_len (it_heap k)) (splice 0 dst (vec_mem (it_heap k))))).

(* @src crates/engine/src/key/iter_key.rs:54-73 IterKey::set_from_slice *)
Definition IterKey_set_from_slice (p : profile) (N : Z) (k : IterKey) (slice : bytes)
  : outcome IterKey :=
  let n := len slice in
  if decide (n <= N) then
    inner ← InnerKey_encode_inline_from_slice p N (it_inner k) slice;
    Done (mkIterKey inner (it_heap k))
  else
    k ← IterKey_use_heap k n;
    Done (mkIterKey (it_inner k)
            (mkByteVec (vec_id (it_heap k)) (vec_len (it_heap k)) (splice 0 slice (vec_mem (it_heap k))))).

(* @src crates/engine/src/key/iter_key.rs:75-77 IterKey::as_slice *)
Definition IterKey_as_slice (k : IterKey) : outcome bytes :=
  InnerKey_as_slice (IterKey_deref k) (it_inner k).

(* @src crates/engine/src/key/lookup_key.rs:13-16 LookUpKey *)
Record LookUpKey := mkLookUpKey { lk_inner : InnerKey; lk_buffer : option bytes }.

(** The boxed buffer is one allocation, named by token 0. *)

(* @src crates/engine/src/key/lookup_key.rs:18-48 LookUpKey::new *)
Definition LookUpKey_new (p : profile) (N : Z) (user_key : bytes) (seq_no : Z)
    (op : InternalKeyKind) : outcome LookUpKey :=
  let total := len user_key + 8 in
  _ ← debug_assert p (total <=? MAX_KEY_SIZE) "total <= MAX_KEY_SIZE";
  if decide (total <= N) then
    inner ← InnerKey_encode_inline p N (InnerKey_new N) user_key seq_no op;
    Done (mkLookUpKey inner None)
  else
    trailer ← encode_trailer p seq_no op;
    let buffer := user_key ++ trailer in
    let inner := InnerKey_set_external (InnerKey_new N) total 0 in
    Done (mkLookUpKey inner (Some buffer)).

(* @src crates/engine/src/key/lookup_key.rs:50-54 LookUpKey::as_ref *)
Definition LookUpKey_as_ref (k : LookUpKey) : outcome bytes :=
  InnerKey_as_slice (fun _ => lk_buffer k) (lk_inner k).

(** ** Specification of encoded keys *)

Definition seq_ok (s : Z) : Prop := in_width 56 s.

Definition trailer_of (s : Z) (k : InternalKeyKind) : Z := s * 2 ^ 8 + InternalKeyKind_as_u8 k.

(** The encoding of an internal key: the user key, then the trailer in
    big-endian order. *)

Definition enc (u : bytes) (s : Z) (k : InternalKeyKind) : bytes :=
  u ++ to_be_bytes 8 (trailer_of s k).

Definition user_part (k : bytes) : bytes := take (length k - 8) k.
Definition trailer_part (k : bytes) : bytes := drop (length k - 8) k.

(** ** Trailer lemmas *)

Lemma as_u8_kind_byte k : 0 <= InternalKeyKind_as_u8 k < 2 ^ 8.
Proof. destruct k; simpl; lia. Qed.

Lemma as_u8_kind_inj k1 k2 : InternalKeyKind_as_u8 k1 = InternalKeyKind_as_u8 k2 -> k1 = k2.
Proof. by destruct k1, k2. Qed.

Lemma trailer_of_width s k : seq_ok s -> in_width 64 (trailer_of s k).
Proof. unfold seq_ok, trailer_of. pose proof (as_u8_kind_byte k). width. lia. Qed.
#[export] Hint Resolve trailer_of_width : ordinum.

Lemma pack_trailer_done p s k :
  seq_ok s -> pack_trailer p s k = Done (trailer_of s k).
Proof.
  intros Hs. unfold pack_trailer. rewrite debug_assert_true.
  2: { apply Z.ltb_lt. rewrite Z.shiftl_mul_pow2 by lia. unfold seq_ok in Hs. width. lia. }
  cbn [mbind outcome_bind]. f_equal. pose proof (as_u8_kind_byte k).
  rewrite wrap_small.
  - rewrite lor_shiftl_add by lia. done.
  - rewrite Z.shiftl_mul_pow2 by lia. unfold seq_ok in Hs. width. lia.
Qed.

Lemma encode_trailer_done p s k :
  seq_ok s -> encode_trailer p s k = Done (to_be_bytes 8 (trailer_of s k)).
Proof. intros. unfold encode_trailer. by rewrite pack_trailer_done. Qed.

Lemma shiftr_trailer s k : Z.shiftr (trailer_of s k) 8 = s.
Proof.
  rewrite Z.shiftr_div_pow2 by lia. unfold trailer_of. pose proof (as_u8_kind_byte k).
  rewrite Z.div_add_l by lia. rewrite Z.div_small by lia. lia.
Qed.

Lemma low_byte_trailer s k : wrap 8 (Z.land (trailer_of s k) 0xff) = InternalKeyKind_as_u8 k.
Proof.
  pose proof (as_u8_kind_byte k). change 0xff with (2 ^ 8 - 1). rewrite land_mask by lia.
  unfold trailer_of. rewrite Z.add_comm, Z.mod_add, Z.mod_small by lia. by apply wrap_small.
Qed.

Lemma unpack_raw_trailer s k :
  unpack_trailer_raw (trailer_of s k) = (s, InternalKeyKind_as_u8 k).
Proof. unfold unpack_trailer_raw. by rewrite shiftr_trailer, low_byte_trailer. Qed.

Lemma len_enc u s k : len (enc u s k) = len u + 8.
Proof. unfold enc. by autorewrite with lens. Qed.
#[export] Hint Rewrite len_enc : lens.

Lemma length_enc u s k : length (enc u s k) = (length u + 8)%nat.
Proof. unfold enc. by autorewrite with lengths. Qed.

Lemma user_part_enc u s k : user_part (enc u s k) = u.
Proof.
  unfold user_part. rewrite length_enc. unfold enc.
  rewrite Nat.add_sub. apply take_app_length.
Qed.

Lemma trailer_part_enc u s k : trailer_part (enc u s k) = to_be_bytes 8 (trailer_of s k).
Proof.
  unfold trailer_part. rewrite length_enc. unfold enc.
  rewrite Nat.add_sub. apply drop_app_length.
Qed.

Lemma user_trailer_part k : user_part k ++ trailer_part k = k.
Proof. apply take_drop. Qed.

(** A key long enough to hold a trailer is split before it. *)

Lemma split_at_key (k : bytes) :
  8 <= len k -> split_at k (len k - 8) = Done (user_part k, trailer_part k).
Proof.
  intros. unfold split_at.
  rewrite decide_True by lia. unfold user_part, trailer_part, len.
  by replace (Z.to_nat _) with (length k - 8)%nat by lia.
Qed.

(** The trailer of a key shorter than a trailer cannot be split off. *)

Lemma split_key_short p (k : bytes) :
  len k < 8 -> is_done (mid ← sub_w p usize_bits (len k) 8; split_at k mid) = false.
Proof.
  intros. pose proof (len_nonneg k). unfold sub_w. rewrite decide_False by lia.
  destruct p; [done|]. cbn [mbind outcome_bind]. unfold split_at, wrap, usize_bits.
  rewrite decide_False; [done|]. Z.to_euclidean_division_equations. lia.
Qed.

Lemma InternalKeyRef_from_enc p u s k :
  seq_ok s ->
  InternalKeyRef_from p (enc u s k) = Done (mkInternalKeyRef u s (InternalKeyKind_as_u8 k)).
Proof.
  intros. unfold InternalKeyRef_from. pose proof (len_nonneg u).
  rewrite debug_assert_true by (apply Z.leb_le; rewrite len_enc; lia).
  cbn [mbind outcome_bind]. rewrite sub_w_small by (rewrite len_enc; lia).
  cbn [mbind outcome_bind].
  rewrite split_at_key by (rewrite len_enc; lia). cbn [mbind outcome_bind].
  rewrite user_part_enc, trailer_part_enc. autorewrite with lens. simpl rust_assert.
  cbn [mbind outcome_bind]. rewrite from_to_be_bytes, wrap_small by auto with ordinum.
  by rewrite unpack_raw_trailer.
Qed.

(** ** The comparators implement the interface *)

#[export, refine] Instance DefaultComparatorOk : ComparatorOk DefaultComparator (fun _ => True) := {
  key_cmp := bytes_cmp;
  compare_done := _; key_cmp_eq := _; key_cmp_antisym := _; key_cmp_trans := _
}.
Proof.
  - done.
  - intros. apply bytes_cmp_eq.
  - intros. apply bytes_cmp_antisym.
  - intros a b c _ _ _. apply bytes_cmp_trans.
Defined.

(** The order of internal keys: user keys ascending, trailers descending. *)

Definition ikey_cmp (a b : bytes) : comparison :=
  match bytes_cmp (user_part a) (user_part b) with
  | Eq => bytes_cmp (trailer_part b) (trailer_part a)
  | c => c
  end.

Definition ikey_valid (k : bytes) : Prop := 8 <= len k.

Lemma InternalKeyComparator_done p a b :
  ikey_valid a -> ikey_valid b -> InternalKeyComparator p a b = Done (ikey_cmp a b).
Proof.
  unfold ikey_valid, InternalKeyComparator. intros Ha Hb. cbv beta.
  rewrite (sub_w_small _ _ (len a)) by done. cbn [mbind outcome_bind].
  rewrite (split_at_key a) by done. cbn [mbind outcome_bind].
  rewrite sub_w_small by done. cbn [mbind outcome_bind].
  rewrite (split_at_key b) by done. done.
Qed.

Lemma ikey_cmp_eq a b : ikey_cmp a b = Eq <-> a = b.
Proof.
  unfold ikey_cmp. split.
  - destruct (bytes_cmp (user_part a) (user_part b)) eqn:E; try done.
    apply bytes_cmp_eq in E. intros H%bytes_cmp_eq.
    rewrite <- (user_trailer_part a), <- (user_trailer_part b). congruence.
  - intros ->. by rewrite !bytes_cmp_refl.
Qed.

Lemma ikey_cmp_antisym a b : ikey_cmp b a = CompOpp (ikey_cmp a b).
Proof.
  unfold ikey_cmp. rewrite (bytes_cmp_antisym (user_part a)).
  destruct (bytes_cmp (user_part a) (user_part b)); simpl; try done. apply bytes_cmp_antisym.
Qed.

Lemma ikey_cmp_trans a b c : ikey_cmp a b = Lt -> ikey_cmp b c = Lt -> ikey_cmp a c = Lt.
Proof.
  unfold ikey_cmp.
  destruct (bytes_cmp (user_part a) (user_part b)) eqn:E1;
    destruct (bytes_cmp (user_part b) (user_part c)) eqn:E2; try done; intros H1 H2.
  - apply bytes_cmp_eq in E1 as ->. rewrite E2. eauto using bytes_cmp_trans.
  - apply bytes_cmp_eq in E1 as ->. by rewrite E2.
  - apply bytes_cmp_eq in E2 as <-. by rewrite E1.
  - by rewrite (bytes_cmp_trans _ _ _ E1 E2).
Qed.

#[export, refine] Instance InternalKeyComparatorOk : ComparatorOk InternalKeyComparator ikey_valid := {
  key_cmp := ikey_cmp;
  compare_done := _; key_cmp_eq := _; key_cmp_antisym := _; key_cmp_trans := _
}.
Proof.
  - apply InternalKeyComparator_done.
  - intros. apply ikey_cmp_eq.
  - intros. apply ikey_cmp_antisym.
  - intros a b c _ _ _. apply ikey_cmp_trans.
Defined.

Lemma enc_valid u s k : ikey_valid (enc u s k).
Proof. unfold ikey_valid. rewrite len_enc. pose proof (len_nonneg u). lia. Qed.
#[export] Hint Resolve enc_valid : ordinum.

(** Descending lexicographic order of (sequence number, kind). *)

Definition newer_first (s1 : Z) (k1 : InternalKeyKind) (s2 : Z) (k2 : InternalKeyKind) : comparison :=
  match s2 ?= s1 with
  | Eq => InternalKeyKind_as_u8 k2 ?= InternalKeyKind_as_u8 k1
  | c => c
  end.

Lemma ikey_cmp_enc u1 s1 k1 u2 s2 k2 :
  seq_ok s1 -> seq_ok s2 ->
  ikey_cmp (enc u1 s1 k1) (enc u2 s2 k2) =
  match bytes_cmp u1 u2 with Eq => newer_first s1 k1 s2 k2 | c => c end.
Proof.
  intros. unfold ikey_cmp. rewrite !user_part_enc, !trailer_part_enc.
  rewrite to_be_bytes_cmp by auto with ordinum.
  destruct (bytes_cmp u1 u2); try done. unfold newer_first, trailer_of.
  pose proof (as_u8_kind_byte k1). pose proof (as_u8_kind_byte k2).
  destruct (Z.compare_spec s2 s1).
  - subst. destruct (Z.compare_spec (InternalKeyKind_as_u8 k2) (InternalKeyKind_as_u8 k1));
      [apply Z.compare_eq_iff | apply Z.compare_lt_iff | apply Z.compare_gt_iff]; lia.
  - apply Z.compare_lt_iff. lia.
  - apply Z.compare_gt_iff. lia.
Qed.

Lemma enc_inj u1 s1 k1 u2 s2 k2 :
  seq_ok s1 -> seq_ok s2 -> enc u1 s1 k1 = enc u2 s2 k2 -> u1 = u2 /\ s1 = s2 /\ k1 = k2.
Proof.
  intros H1 H2 E. apply ikey_cmp_eq in E. rewrite ikey_cmp_enc in E by done.
  destruct (bytes_cmp u1 u2) eqn:Eu; try done. apply bytes_cmp_eq in Eu as ->.
  unfold newer_first in E. destruct (Z.compare_spec s2 s1); try done. subst.
  apply Z.compare_eq in E. split; [done|]. split; [done|]. by apply as_u8_kind_inj.
Qed.

Lemma encode_into_done p dst u s k :
  seq_ok s -> len u + 8 <= len dst ->
  encode_into p dst u s k = Done (splice 0 (enc u s k) dst).
Proof.
  intros Hs Hl. unfold encode_into. pose proof (len_nonneg u).
  rewrite debug_assert_true by (apply Z.leb_le; lia). cbn [mbind outcome_bind].
  rewrite copy_into_done by lia. cbn [mbind outcome_bind].
  rewrite encode_trailer_done by done. cbn [mbind outcome_bind].
  rewrite copy_into_done; [|lia|rewrite len_splice; lia|by autorewrite with lens].
  f_equal. unfold splice at 2. cbn [Z.to_nat]. change (take 0 dst) with (@nil Z).
  rewrite app_nil_l, splice_app. unfold splice. cbn [Z.to_nat]. change (take 0 dst) with (@nil Z).
  rewrite app_nil_l. unfold enc at 1. rewrite <- app_assoc. do 2 f_equal.
  rewrite skipn_skipn. rewrite length_enc, to_be_bytes_length. f_equal. lia.
Qed.

(** ** Storage lemmas *)

Lemma take_enc_splice u s k (dst : bytes) :
  len u + 8 <= len dst -> take (Z.to_nat (len u + 8)) (splice 0 (enc u s k) dst) = enc u s k.
Proof.
  intros. unfold splice. cbn [Z.to_nat]. change (take 0 dst) with (@nil Z). rewrite app_nil_l.
  replace (Z.to_nat (len u + 8)) with (length (enc u s k)) by (rewrite length_enc; unfold len; lia).
  apply take_app_length.
Qed.

Lemma splice_take_front (xs l : bytes) n :
  len xs = n -> n <= len l -> splice 0 xs (take (Z.to_nat n) l) = xs.
Proof.
  intros <- H. unfold splice. cbn [Z.to_nat]. change (take 0 _) with (@nil Z).
  rewrite app_nil_l, drop_ge, app_nil_r; [done|]. unfold len in *. autorewrite with lengths. lia.
Qed.

Lemma encode_inline_done p N k u s op :
  seq_ok s -> len (ik_inline k) = N -> len u + 8 <= N ->
  InnerKey_encode_inline p N k u s op =
  Done (mkInnerKey (splice 0 (enc u s op) (ik_inline k)) (len u + 8) None).
Proof.
  intros Hs HN Hl. unfold InnerKey_encode_inline, InnerKey_set_inline. pose proof (len_nonneg u).
  rewrite !debug_assert_true by (apply Z.leb_le; lia). cbn -[splice slice_range].
  rewrite slice_range_done by lia. cbn -[splice take]. rewrite encode_into_done; [|done|].
  - cbn -[splice take]. do 2 f_equal. change (drop (Z.to_nat 0) (ik_inline k)) with (ik_inline k).
    rewrite Z.sub_0_r, splice_take_front; [done|by rewrite len_enc|lia].
  - change (drop (Z.to_nat 0) (ik_inline k)) with (ik_inline k).
    unfold len in *. autorewrite with lengths. lia.
Qed.

Lemma as_slice_inline deref k u s op :
  len u + 8 <= len (ik_inline k) ->
  InnerKey_as_slice deref (mkInnerKey (splice 0 (enc u s op) (ik_inline k)) (len u + 8) None) =
  Done (enc u s op).
Proof.
  intros H. pose proof (len_nonneg u). unfold InnerKey_as_slice. cbn -[splice].
  rewrite slice_range_done; [|lia|rewrite len_splice; rewrite ?len_enc; lia].
  rewrite Z.sub_0_r. change (Z.to_nat 0) with 0%nat. by rewrite drop_0, take_enc_splice.
Qed.

(** What every [IterKey] keeps: an inline array of [N] bytes, and the heap
    buffer it was created with. *)

Definition iter_ok (N : Z) (k : IterKey) : Prop :=
  len (ik_inline (it_inner k)) = N /\ vec_capacity (it_heap k) = INITIAL_KEY_BUFFER_CAP.

Lemma IterKey_new_ok N : 0 <= N -> iter_ok N (IterKey_new N).
Proof.
  intros. unfold iter_ok, vec_capacity. cbn -[replicate Z.to_nat].
  rewrite !len_replicate. unfold INITIAL_KEY_BUFFER_CAP. lia.
Qed.

Lemma use_heap_done k total :
  total <= vec_capacity (it_heap k) ->
  IterKey_use_heap k total =
  Done (mkIterKey (InnerKey_set_external (it_inner k) total (vec_id (it_heap k)))
          (mkByteVec (vec_id (it_heap k)) total (vec_mem (it_heap k)))).
Proof.
  intros H. unfold IterKey_use_heap, vec_clear. cbn -[decide].
  rewrite decide_False by (unfold vec_capacity in *; cbn; lia).
  unfold vec_set_len. rewrite decide_True by (unfold vec_capacity in *; cbn; lia). done.
Qed.

(** The reservation is computed from the capacity but counted by [Vec] from
    the length, so it never makes room for a key larger than the buffer. *)

Lemma use_heap_ub k total :
  8 <= vec_capacity (it_heap k) < total -> exists w, IterKey_use_heap k total = UB w.
Proof.
  intros H. unfold IterKey_use_heap, vec_clear. cbn -[decide vec_reserve].
  rewrite decide_True by (unfold vec_capacity in *; cbn; lia).
  set (v := mkByteVec _ 0 _). assert (Hc : vec_capacity v = vec_capacity (it_heap k)) by done.
  assert (Hv : vec_capacity (vec_reserve v (total - vec_capacity v)) < total).
  { unfold vec_reserve. case_decide; [lia|]. unfold vec_capacity at 1. cbn [vec_mem]. change (vec_len v) with 0 in *.
    change (Z.to_nat 0) with 0%nat. rewrite take_0, app_nil_l, len_replicate. lia. }
  unfold vec_set_len. rewrite decide_False by lia. cbn. eauto.
Qed.

Lemma IterKey_set_inline p N k u s op :
  seq_ok s -> iter_ok N k -> len u + 8 <= MAX_KEY_SIZE -> len u + 8 <= N ->
  IterKey_set p N k u s op =
  Done (mkIterKey (mkInnerKey (splice 0 (enc u s op) (ik_inline (it_inner k))) (len u + 8) None)
          (it_heap k)).
Proof.
  intros Hs [HN _] Hm Hl. unfold IterKey_set.
  rewrite debug_assert_true by (apply Z.leb_le; lia). cbn [mbind outcome_bind].
  rewrite decide_True by lia. by rewrite encode_inline_done.
Qed.

Lemma IterKey_set_heap p N k u s op :
  seq_ok s -> iter_ok N k -> len u + 8 <= MAX_KEY_SIZE -> N < len u + 8 <= INITIAL_KEY_BUFFER_CAP ->
  IterKey_set p N k u s op =
  Done (mkIterKey (InnerKey_set_external (it_inner k) (len u + 8) (vec_id (it_heap k)))
          (mkByteVec (vec_id (it_heap k)) (len u + 8)
             (splice 0 (enc u s op) (vec_mem (it_heap k))))).
Proof.
  intros Hs [_ Hc] Hm Hl. unfold IterKey_set. pose proof (len_nonneg u).
  rewrite debug_assert_true by (apply Z.leb_le; lia). cbn [mbind outcome_bind].
  rewrite decide_False by lia. rewrite use_heap_done by lia. cbn -[encode_into splice take Z.add].
  unfold vec_capacity in Hc. rewrite encode_into_done; [|done|].
  - cbn -[splice take Z.add]. rewrite splice_take_front; [done|by rewrite len_enc|].
    rewrite Hc. lia.
  - unfold len in *. autorewrite with lengths. lia.
Qed.

Definition iter_after_set (N : Z) (k : IterKey) (u : bytes) (s : Z) (op : InternalKeyKind) : IterKey :=
  if decide (len u + 8 <= N)
  then mkIterKey (mkInnerKey (splice 0 (enc u s op) (ik_inline (it_inner k))) (len u + 8) None)
         (it_heap k)
  else mkIterKey (InnerKey_set_external (it_inner k) (len u + 8) (vec_id (it_heap k)))
         (mkByteVec (vec_id (it_heap k)) (len u + 8)
            (splice 0 (enc u s op) (vec_mem (it_heap k)))).

Lemma IterKey_set_done p N k u s op :
  seq_ok s -> iter_ok N k -> len u + 8 <= MAX_KEY_SIZE ->
  len u + 8 <= Z.max N INITIAL_KEY_BUFFER_CAP ->
  IterKey_set p N k u s op = Done (iter_after_set N k u s op).
Proof.
  intros. unfold iter_after_set. case_decide.
  - by apply IterKey_set_inline.
  - apply IterKey_set_heap; try done. lia.
Qed.

Lemma iter_after_set_ok N k u s op :
  iter_ok N k -> len u + 8 <= Z.max N INITIAL_KEY_BUFFER_CAP ->
  iter_ok N (iter_after_set N k u s op).
Proof.
  unfold iter_ok, iter_after_set, vec_capacity. intros [H1 H2] Hl. pose proof (len_nonneg u).
  case_decide; cbn; rewrite ?len_splice by (rewrite ?len_enc; lia); done.
Qed.

Lemma iter_after_set_slice N k u s op :
  iter_ok N k -> len u + 8 <= Z.max N INITIAL_KEY_BUFFER_CAP ->
  IterKey_as_slice (iter_after_set N k u s op) = Done (enc u s op).
Proof.
  unfold iter_ok, iter_after_set, IterKey_as_slice, vec_capacity. intros [H1 H2] Hl.
  pose proof (len_nonneg u). case_decide.
  - cbn [it_inner]. rewrite as_slice_inline; [done|lia].
  - unfold InnerKey_as_slice, IterKey_deref.
    cbn [it_inner it_heap InnerKey_set_external ik_external ik_len ik_inline vec_id vec_mem].
    rewrite decide_True by done. rewrite decide_True by (rewrite len_splice; rewrite ?len_enc; lia).
    rewrite take_enc_splice by lia. done.
Qed.

(** ** Properties *)

(** C31: encoding a user key, a sequence number below 2^56 and a kind into a
    buffer that has room for the trailer never panics, leaves the rest of the
    buffer alone, and the bytes written decode to the same three fields.  The
    kind byte converts back to the kind exactly for the kinds other than
    RangeDel and Log. *)
Theorem internal_key_roundtrip p dst u s k :
  seq_ok s -> len u + 8 <= len dst ->
  exists dst',
    encode_into p dst u s k = Done dst' /\
    drop (length u + 8) dst' = drop (length u + 8) dst /\
    InternalKeyRef_from p (take (length u + 8) dst') =
      Done (mkInternalKeyRef u s (InternalKeyKind_as_u8 k)) /\
    (InternalKeyKind_try_from (InternalKeyKind_as_u8 k) = Ok k <-> k <> KRangeDel /\ k <> KLog).
Proof.
  intros Hs Hl. exists (splice 0 (enc u s k) dst). pose proof (take_enc_splice u s k dst Hl) as Ht.
  replace (Z.to_nat (len u + 8)) with (length u + 8)%nat in Ht by (unfold len; lia).
  split; [by apply encode_into_done|]. split.
  - unfold splice. change (Z.to_nat 0) with 0%nat.
    rewrite take_0, app_nil_l, <- (length_enc u s k), drop_app_length. done.
  - rewrite Ht. split; [by apply InternalKeyRef_from_enc|]. destruct k; vm_compute; split; intros; try done; tauto.
Qed.

Lemma internal_key_roundtrip_witness :
  exists dst',
    encode_into Debug (replicate 12 0) [107; 49] 300 KPut = Done dst' /\
    drop 10 dst' = [0; 0] /\
    InternalKeyRef_from Debug (take 10 dst') = Done (mkInternalKeyRef [107; 49] 300 1) /\
    (InternalKeyKind_try_from 1 = Ok KPut <-> KPut <> KRangeDel /\ KPut <> KLog).
Proof.
  apply (internal_key_roundtrip Debug (replicate 12 0) [107; 49] 300 KPut);
    [vm_compute; split; congruence | vm_compute; congruence].
Defined.

(** C27: on encoded keys the comparator orders by user key ascending, then by
    sequence number descending, then by kind descending, so among the versions
    of one key the newest comes first; it never panics there, and it panics on
    any key too short to hold a trailer. *)
Theorem internal_key_order p u1 s1 k1 u2 s2 k2 short :
  seq_ok s1 -> seq_ok s2 -> len short < 8 ->
  compare (Comparator := InternalKeyComparator) p (enc u1 s1 k1) (enc u2 s2 k2) =
    Done match bytes_cmp u1 u2 with
         | Eq => match s2 ?= s1 with
                 | Eq => InternalKeyKind_as_u8 k2 ?= InternalKeyKind_as_u8 k1
                 | c => c
                 end
         | c => c
         end /\
  is_done (InternalKeyComparator p short (enc u1 s1 k1)) = false /\
  is_done (InternalKeyComparator p (enc u1 s1 k1) short) = false.
Proof.
  intros H1 H2 Hshort. split; [|split].
  - rewrite compare_done by auto with ordinum. f_equal. by apply ikey_cmp_enc.
  - pose proof (split_key_short p short Hshort) as E. unfold InternalKeyComparator.
    destruct (sub_w p usize_bits (len short) 8); [|done..]. cbn [mbind outcome_bind] in E |- *.
    by destruct (split_at short a).
  - pose proof (split_key_short p short Hshort) as E. unfold InternalKeyComparator.
    pose proof (enc_valid u1 s1 k1). rewrite (sub_w_small _ _ (len (enc _ _ _))) by done.
    cbn [mbind outcome_bind]. rewrite split_at_key by done. cbn [mbind outcome_bind].
    destruct (sub_w p usize_bits (len short) 8); [|done..]. cbn [mbind outcome_bind] in E |- *.
    by destruct (split_at short a).
Qed.

Lemma internal_key_order_witness :
  compare (Comparator := InternalKeyComparator) Release (enc [1] 9 KDelete) (enc [1] 4 KPut) = Done Lt /\
  is_done (InternalKeyComparator Release [1; 2] (enc [1] 9 KDelete)) = false /\
  is_done (InternalKeyComparator Release (enc [1] 9 KDelete) [1; 2]) = false.
Proof.
  apply (internal_key_order Release [1] 9 KDelete [1] 4 KPut [1; 2]);
    [vm_compute; split; congruence | vm_compute; split; congruence | reflexivity].
Defined.

(** A lookup key of any user key the size assertion admits reads back as
    the internal-key encoding, whether it is stored inline or in the boxed
    buffer.  The assertion compares the size with the trailer to the bound on
    user keys, so in a debug build the keys of the last eight admissible
    lengths panic. *)
Theorem lookup_key_roundtrip p N u s op :
  seq_ok s -> 0 <= N -> len u <= MAX_USER_KEY_BYTES ->
  (len u + 8 <= MAX_KEY_SIZE \/ p = Release ->
     (k ← LookUpKey_new p N u s op; LookUpKey_as_ref k) = Done (enc u s op)) /\
  (MAX_KEY_SIZE < len u + 8 -> LookUpKey_new Debug N u s op = Panic "total <= MAX_KEY_SIZE").
Proof.
  intros Hs HN Hu. pose proof (len_nonneg u). split; intros Hl; unfold LookUpKey_new.
  - assert (debug_assert p (len u + 8 <=? MAX_KEY_SIZE) "total <= MAX_KEY_SIZE" = Done tt) as ->.
    { destruct Hl as [Hl | ->]; [by rewrite debug_assert_true by (apply Z.leb_le; lia)|done]. }
    cbn [mbind outcome_bind].
    assert (len (ik_inline (InnerKey_new N)) = N).
    { cbn [ik_inline InnerKey_new]. rewrite len_replicate. lia. }
    case_decide.
    + rewrite encode_inline_done by done. cbn [mbind outcome_bind].
      unfold LookUpKey_as_ref. cbn [lk_inner]. apply as_slice_inline. lia.
    + rewrite encode_trailer_done by done. cbn [mbind outcome_bind].
      unfold LookUpKey_as_ref, InnerKey_as_slice.
      cbn [lk_inner lk_buffer InnerKey_set_external ik_external ik_len].
      fold (enc u s op). rewrite decide_True by (rewrite len_enc; lia).
      rewrite take_ge; [done|]. rewrite length_enc. unfold len. lia.
  - destruct (Z.leb_spec (len u + 8) MAX_KEY_SIZE); [lia|done].
Qed.

Lemma lookup_key_roundtrip_witness :
  (len [7; 7] + 8 <= MAX_KEY_SIZE \/ Debug = Release ->
     (k ← LookUpKey_new Debug 4 [7; 7] 5 KMax; LookUpKey_as_ref k) = Done (enc [7; 7] 5 KMax)) /\
  (MAX_KEY_SIZE < len [7; 7] + 8 -> LookUpKey_new Debug 4 [7; 7] 5 KMax = Panic "total <= MAX_KEY_SIZE").
Proof.
  apply lookup_key_roundtrip; [vm_compute; split; congruence | lia | vm_compute; congruence].
Defined.

(** The history of one [IterKey]: the keys it was set to, in order. *)

Fixpoint IterKey_sets (p : profile) (N : Z) (k : IterKey)
    (ks : list (bytes * Z * InternalKeyKind)) : outcome IterKey :=
  match ks with
  | [] => Done k
  | (u, s, op) :: ks => k ← IterKey_set p N k u s op; IterKey_sets p N k ks
  end.

Definition iter_fits (N : Z) (e : bytes * Z * InternalKeyKind) : Prop :=
  let '(u, s, _) := e in
  seq_ok s /\ len u + 8 <= MAX_KEY_SIZE /\ len u + 8 <= Z.max N INITIAL_KEY_BUFFER_CAP.

Lemma IterKey_sets_ok p N ks k :
  iter_ok N k -> Forall (iter_fits N) ks ->
  exists k', IterKey_sets p N k ks = Done k' /\ iter_ok N k'.
Proof.
  intros Hk Hks. revert k Hk. induction Hks as [|[[u s] op] ks (? & ? & ?) _ IH]; intros k Hk; simpl.
  - eauto.
  - rewrite IterKey_set_done by done. cbn [mbind outcome_bind].
    apply IH. by apply iter_after_set_ok.
Qed.

(** C36: after any sequence of keys that fit the inline array or the initial
    buffer, an iterator key holds the encoding of the key set last; and after
    any such sequence, setting a key larger than both is undefined behaviour
    ([set_len] past the capacity), however often the buffer was used before,
    because the growth is requested relative to the capacity while the vector
    has just been cleared. *)
Theorem iter_key_reuse p N ks u s op :
  0 <= N -> Forall (iter_fits N) ks -> seq_ok s -> len u + 8 <= MAX_KEY_SIZE ->
  exists k, IterKey_sets p N (IterKey_new N) ks = Done k /\
    (len u + 8 <= Z.max N INITIAL_KEY_BUFFER_CAP ->
       (k' ← IterKey_set p N k u s op; IterKey_as_slice k') = Done (enc u s op)) /\
    (Z.max N INITIAL_KEY_BUFFER_CAP < len u + 8 ->
       exists w, IterKey_set p N k u s op = UB w).
Proof.
  intros HN Hks Hs Hm. destruct (IterKey_sets_ok p N ks _ (IterKey_new_ok N HN) Hks) as (k & Hk & Hok).
  exists k. split; [done|]. split; intros Hl.
  - rewrite IterKey_set_done by done. cbn [mbind outcome_bind]. by apply iter_after_set_slice.
  - unfold IterKey_set. rewrite debug_assert_true by (apply Z.leb_le; lia). cbn [mbind outcome_bind].
    rewrite decide_False by lia. destruct Hok as [_ Hc].
    destruct (use_heap_ub k (len u + 8)) as [w ->]; [rewrite Hc; unfold INITIAL_KEY_BUFFER_CAP in *; lia|].
    simpl. eauto.
Qed.

Lemma iter_key_reuse_witness :
  exists k, IterKey_sets Debug 4 (IterKey_new 4) [([1; 2], 3, KPut)] = Done k /\
    (len (replicate 600 7) + 8 <= Z.max 4 INITIAL_KEY_BUFFER_CAP ->
       (k' ← IterKey_set Debug 4 k (replicate 600 7) 9 KPut; IterKey_as_slice k') =
         Done (enc (replicate 600 7) 9 KPut)) /\
    (Z.max 4 INITIAL_KEY_BUFFER_CAP < len (replicate 600 7) + 8 ->
       exists w, IterKey_set Debug 4 k (replicate 600 7) 9 KPut = UB w).
Proof.
  apply iter_key_reuse; [lia | | vm_compute; split; congruence | vm_compute; congruence].
  constructor; [|constructor]. split; [|split]; vm_compute; [split|..]; congruence.
Defined.
