(* ===== verification/Arena.v ===== *)
(** * Arena: the bump allocator behind memtables and indexed batches

    Models [arena/arena.rs] and [arena/allocator.rs].  A pointer the arena
    hands out is the pair of the chunk's index and the offset in it.  What the
    arena aligns is the offset: chunks are boxed byte slices, and no type of the
    source gives them an alignment of more than one.  Chunk memory holds [None]
    where it has not been initialised.  The operations are
    those of one thread; [ArenaThreads.v] interleaves allocating threads. *)

From S2P Require Import Prelude.

(* @src crates/engine/src/arena/arena.rs:36-40 ArenaPolicy *)
Record ArenaPolicy := mkPolicy { block_size : Z; cap : Z }.

(* @src crates/engine/src/arena/arena.rs:42-48 ArenaError *)
Inductive ArenaError := AllocationError (size : Z) | Overflow | ChunkDoubleCheckFailed | ArenaFull.

#[export] Instance ArenaError_eq_dec : EqDecision ArenaError.
Proof. solve_decision. Defined.

(** [std::alloc::Layout]. *)

Record Layout := mkLayout { l_size : Z; l_align : Z }.

Definition layout_ok (l : Layout) : Prop :=
  0 <= l_size l <= isize_max /\ exists k, 0 <= k < 63 /\ l_align l = 2 ^ k.

(** ** The allocator behind the arena *)

(* @src crates/engine/src/arena/allocator.rs:20-26 Allocator *)
Inductive Allocator := AllocSystem | AllocNUMA | AllocHugePage | AllocMMap | AllocTest.

Abbreviation memory := (list (option Z)).

(* @src crates/engine/src/arena/allocator.rs:45-60 SystemAllocator::allocate *)
Definition SystemAllocator_allocate (p : profile) (size : Z) : memory :=
  match p with
  | Debug => replicate (Z.to_nat size) (Some 1)
  | Release => replicate (Z.to_nat size) None
  end.

(* @src crates/engine/src/arena/allocator.rs:28-35 Allocator::allocate *)
Definition Allocator_allocate (p : profile) (a : Allocator) (size : Z) : outcome memory :=
  match a with
  | AllocSystem => Done (SystemAllocator_allocate p size)
  | _ => Panic "not implemented"
  end.

(** ** Chunks and the arena *)

(* @src crates/engine/src/arena/arena.rs:50-54 Chunk *)
Record Chunk := mkChunk { ch_mem : memory; ch_bump : Z }.

(* @src crates/engine/src/arena/arena.rs:63-68 Chunk::new *)
Definition Chunk_new (mem : memory) : Chunk := mkChunk mem 0.

(* @src crates/engine/src/arena/arena.rs:74-77 Chunk::len *)
Definition Chunk_len (c : Chunk) : Z := len (ch_mem c).

(* @src crates/engine/src/arena/arena.rs:70-72 Chunk::get_bump *)
Definition Chunk_get_bump (c : Chunk) : Z := ch_bump c.

(* @src crates/engine/src/arena/arena.rs:84-88 Chunk::initialized_slice *)
Definition Chunk_initialized_slice (c : Chunk) (n : Z) : outcome bytes :=
  match mapM id (take (Z.to_nat n) (ch_mem c)) with
  | Some bs => if decide (n <= Chunk_len c) then Done bs else UB "slice longer than the chunk"
  | None => UB "uninitialised memory"
  end.

(* @src crates/engine/src/arena/arena.rs:108-116 Arena *)
Record Arena := mkArena {
  current_chunk : nat;
  chunks : list Chunk;
  allocated_bytes : Z;
  memory_used : Z;
  allocator : Allocator;
  policy : ArenaPolicy
}.

Definition set_chunks (f : list Chunk -> list Chunk) (a : Arena) : Arena :=
  mkArena (current_chunk a) (f (chunks a)) (allocated_bytes a) (memory_used a) (allocator a) (policy a).

Definition set_bump (n : Z) (c : Chunk) : Chunk := mkChunk (ch_mem c) n.

(* @src crates/engine/src/arena/arena.rs:119-163 Arena::new *)
Definition Arena_new (p : profile) (pol : ArenaPolicy) (al : Allocator) : outcome Arena :=
  _ ← rust_assert (block_size pol <=? cap pol) "Arena capacity must be >= block size";
  _ ← rust_assert (negb (block_size pol =? 0)) "attempt to calculate the remainder with a divisor of zero";
  _ ← rust_assert (cap pol mod block_size pol =? 0) "Arena capacity must be a multiple of block size";
  _ ← rust_assert (cap pol <=? isize_max) "Arena capacity exceeds addressable memory range";
  heap ← Allocator_allocate p al (block_size pol);
  Done (mkArena 0 [Chunk_new heap] (block_size pol) 0 al pol).

(* @src crates/engine/src/arena/arena.rs:165-171 Arena::get_chunk *)
Definition Arena_get_chunk (a : Arena) : outcome Chunk :=
  match chunks a !! current_chunk a with
  | Some c => Done c
  | None => UB "dangling chunk pointer"
  end.

(** The offset [bump] rounded up to the alignment, in machine arithmetic. *)

Definition align_up (p : profile) (bump align : Z) : outcome Z :=
  t ← add_w p usize_bits bump (align - 1);
  Done (Z.land t (Z.lxor usize_max (align - 1))).

(* @src crates/engine/src/arena/arena.rs:173-188 Arena::alignment_check *)
Definition Arena_alignment_check (p : profile) (a : Arena) (bump : Z) (layout : Layout)
  : outcome (result (Z * Z) ArenaError) :=
  _ ← debug_assert p (is_power_of_two (l_align layout)) "layout.align().is_power_of_two()";
  aligned ← align_up p bump (l_align layout);
  match checked_add usize_bits aligned (l_size layout) with
  | None => Done (Err Overflow)
  | Some next =>
      c ← Arena_get_chunk a;
      Done (if decide (Chunk_len c < next) then Err Overflow else Ok (aligned, next))
  end.

(* @src crates/engine/src/arena/arena.rs:294-329 Arena::try_new_chunk *)
Definition Arena_try_new_chunk (p : profile) (a : Arena) (layout : Layout)
  : outcome (Arena * result unit ArenaError) :=
  chunk ← Arena_get_chunk a;
  check ← Arena_alignment_check p a (ch_bump chunk) layout;
  match check with
  | Ok _ => Done (a, Ok tt)
  | Err _ =>
      total ← add_w p usize_bits (allocated_bytes a) (block_size (policy a));
      if decide (cap (policy a) < total) then Done (a, Err ArenaFull)
      else
        heap ← Allocator_allocate p (allocator a) (block_size (policy a));
        Done (mkArena (length (chunks a)) (chunks a ++ [Chunk_new heap])
                (wrap usize_bits (allocated_bytes a + block_size (policy a)))
                (memory_used a) (allocator a) (policy a), Ok tt)
  end.

(** A pointer into the arena: chunk and offset. *)

Abbreviation arena_ptr := (nat * Z)%type.

(** The successful compare-and-exchange and the statistics update after it. *)

Definition Arena_claim (a : Arena) (next : Z) (layout : Layout) : Arena :=
  mkArena (current_chunk a) (alter (set_bump next) (current_chunk a) (chunks a))
    (allocated_bytes a) (wrap usize_bits (memory_used a + l_size layout)) (allocator a) (policy a).

(** The retry loop; without other threads the compare-and-exchange succeeds. *)

(* @src crates/engine/src/arena/arena.rs:251-291 Arena::alloc_raw_fallback *)
Fixpoint Arena_alloc_loop (fuel : nat) (p : profile) (a : Arena) (layout : Layout)
  : outcome (Arena * result arena_ptr ArenaError) :=
  match fuel with
  | O => NoFuel
  | S fuel =>
      chunk ← Arena_get_chunk a;
      check ← Arena_alignment_check p a (ch_bump chunk) layout;
      match check with
      | Err _ =>
          '(a, r) ← Arena_try_new_chunk p a layout;
          match r with
          | Err e => Done (a, Err e)
          | Ok _ => Arena_alloc_loop fuel p a layout
          end
      | Ok (aligned, next) =>
          Done (Arena_claim a next layout, Ok (current_chunk a, aligned))
      end
  end.

Definition ALLOC_FUEL : nat := 2.

(* @src crates/engine/src/arena/arena.rs:245-249 Arena::alloc_raw_fallback *)
Definition Arena_alloc_raw_fallback (p : profile) (a : Arena) (layout : Layout)
  : outcome (Arena * result arena_ptr ArenaError) :=
  if decide (block_size (policy a) < l_size layout)
  then Done (a, Err (AllocationError (l_size layout)))
  else Arena_alloc_loop ALLOC_FUEL p a layout.

(** The loop of [alloc_raw] differs in panicking where the other returns. *)

(* @src crates/engine/src/arena/arena.rs:194-243 Arena::alloc_raw *)
Definition Arena_alloc_raw (p : profile) (a : Arena) (layout : Layout)
  : outcome (Arena * arena_ptr) :=
  _ ← rust_assert (l_size layout <=? block_size (policy a)) "arena allocation exceeds regular block size";
  '(a, r) ← Arena_alloc_loop ALLOC_FUEL p a layout;
  match r with
  | Err _ => Panic "Arena allocation failed"
  | Ok ptr => Done (a, ptr)
  end.

(* @src crates/engine/src/arena/arena.rs:331-335 Arena::blocks_used *)
Definition Arena_blocks_used (a : Arena) : Z := allocated_bytes a / block_size (policy a).

(* @src crates/engine/src/arena/arena.rs:337-340 Arena::max_bytes *)
Definition Arena_max_bytes (a : Arena) : Z := cap (policy a).

(* @src crates/engine/src/arena/arena.rs:342-345 Arena::number_of_blocks *)
Definition Arena_number_of_blocks (a : Arena) : Z := cap (policy a) / block_size (policy a).

(* @src crates/engine/src/arena/arena.rs:347-351 Arena::memory_used *)
Definition Arena_memory_used (a : Arena) : Z := memory_used a.

(* @src crates/engine/src/arena/arena.rs:353-379 Arena::reset *)
Definition Arena_reset (p : profile) (a : Arena) : outcome Arena :=
  _ ← debug_assert p (negb (bool_decide (chunks a = []))) "!chunks.is_empty()";
  let cs := set_bump 0 <$> chunks a in
  _ ← rust_assert (negb (bool_decide (cs = []))) "an arena must retain its initial chunk";
  Done (mkArena 0 cs (allocated_bytes a) 0 (allocator a) (policy a)).

(* @src crates/engine/src/arena/arena.rs:381-395 Arena::get_current_init_slice *)
Definition Arena_get_current_init_slice (a : Arena) : outcome bytes :=
  chunk ← Arena_get_chunk a;
  Chunk_initialized_slice chunk (Chunk_get_bump chunk).

(** What a caller does with the pointer it got: writes and reads through it. *)

Definition Arena_write (a : Arena) (ptr : arena_ptr) (bs : bytes) : outcome Arena :=
  match chunks a !! ptr.1 with
  | Some c =>
      if decide (0 <= ptr.2 /\ ptr.2 + len bs <= Chunk_len c)
      then Done (set_chunks (alter (fun c => mkChunk (splice ptr.2 (Some <$> bs) (ch_mem c)) (ch_bump c)) ptr.1) a)
      else UB "write outside the chunk"
  | None => UB "dangling pointer"
  end.

Definition Arena_read (a : Arena) (ptr : arena_ptr) (n : Z) : outcome bytes :=
  match chunks a !! ptr.1 with
  | Some c =>
      if decide (0 <= ptr.2 /\ ptr.2 + n <= Chunk_len c)
      then match mapM id (take (Z.to_nat n) (drop (Z.to_nat ptr.2) (ch_mem c))) with
           | Some bs => Done bs
           | None => UB "uninitialised memory"
           end
      else UB "read outside the chunk"
  | None => UB "dangling pointer"
  end.

(** ** Size presets *)

(* @src crates/engine/src/options.rs:19-24 WriteBufferSize *)
Inductive WriteBufferSize := WbSmall | WbMedium | WbDefault | WbLarge.

(* @src crates/engine/src/options.rs:6-17 KIB *)
Definition KIB : Z := 1024.
Definition MIB : Z := KIB * 1024.

(* @src crates/engine/src/options.rs:27-34 WriteBufferSize::as_bytes *)
Definition WriteBufferSize_as_bytes (s : WriteBufferSize) : Z :=
  match s with
  | WbSmall => 16 * MIB | WbMedium => 32 * MIB | WbDefault => 64 * MIB | WbLarge => 128 * MIB
  end.

(* @src crates/engine/src/options.rs:36-55 WriteBufferSize::arena_policy *)
Definition WriteBufferSize_arena_policy (s : WriteBufferSize) : ArenaPolicy :=
  match s with
  | WbSmall => mkPolicy (2 * MIB) (16 * MIB)
  | WbMedium => mkPolicy (4 * MIB) (32 * MIB)
  | WbDefault => mkPolicy (4 * MIB) (64 * MIB)
  | WbLarge => mkPolicy (8 * MIB) (128 * MIB)
  end.

(** ** Invariant *)

Definition policy_ok (pol : ArenaPolicy) : Prop :=
  0 < block_size pol <= cap pol /\ cap pol mod block_size pol = 0 /\ cap pol <= isize_max.

Definition chunk_ok (bs : Z) (c : Chunk) : Prop := Chunk_len c = bs /\ 0 <= ch_bump c <= bs.

Record arena_ok (a : Arena) : Prop := mkArenaOk {
  ao_policy : policy_ok (policy a);
  ao_chunks : Forall (chunk_ok (block_size (policy a))) (chunks a);
  ao_current : (current_chunk a < length (chunks a))%nat;
  ao_allocated : allocated_bytes a = block_size (policy a) * len (chunks a);
  ao_cap : allocated_bytes a <= cap (policy a);
  ao_system : allocator a = AllocSystem
}.

(** ** Alignment *)

(** The next multiple of [al]. *)

Definition round_up (b al : Z) : Z := (b + (al - 1)) / al * al.

Lemma land_clear_low x k w :
  0 <= k <= w -> 0 <= x < 2 ^ w ->
  Z.land x (Z.lxor (2 ^ w - 1) (2 ^ k - 1)) = x / 2 ^ k * 2 ^ k.
Proof.
  intros Hk Hx. rewrite <- Z.shiftl_mul_pow2, <- Z.shiftr_div_pow2 by lia.
  replace (2 ^ w - 1) with (Z.ones w) by (rewrite Z.ones_equiv; lia).
  replace (2 ^ k - 1) with (Z.ones k) by (rewrite Z.ones_equiv; lia).
  apply Z.bits_inj'. intros i Hi. rewrite Z.land_spec, Z.lxor_spec.
  destruct (decide (i < k)).
  - rewrite Z.shiftl_spec_low, !Z.ones_spec_low by lia. apply andb_false_r.
  - rewrite Z.shiftl_spec, Z.shiftr_spec, (Z.ones_spec_high k) by lia.
    replace (i - k + k) with i by lia. rewrite xorb_false_r.
    destruct (decide (i < w)).
    + by rewrite Z.ones_spec_low, andb_true_r by lia.
    + rewrite Z.ones_spec_high, andb_false_r by lia. symmetry.
      apply (Z.bounded_iff_bits_nonneg w x); lia.
Qed.

Lemma align_up_done p b k :
  0 <= k < 63 -> 0 <= b <= isize_max -> align_up p b (2 ^ k) = Done (round_up b (2 ^ k)).
Proof.
  intros Hk Hb. assert (2 ^ k <= 2 ^ 62) by (apply Z.pow_le_mono_r; lia).
  assert (0 < 2 ^ k) by (apply Z.pow_pos_nonneg; lia).
  unfold isize_max in Hb. unfold align_up, usize_bits, usize_max, u_max, usize_bits.
  rewrite add_w_small by lia. cbn [mbind outcome_bind]. f_equal.
  rewrite land_clear_low by lia. done.
Qed.

Lemma round_up_bounds b al : 0 < al -> b <= round_up b al < b + al.
Proof. intros. unfold round_up. Z.to_euclidean_division_equations. nia. Qed.

Lemma round_up_mod b al : 0 < al -> round_up b al mod al = 0.
Proof. intros. apply Z_mod_mult. Qed.

Lemma round_up_0 al : 0 < al -> round_up 0 al = 0.
Proof. intros. unfold round_up. rewrite Z.div_small by lia. lia. Qed.

Lemma layout_align_pos l : layout_ok l -> 0 < l_align l.
Proof. intros [_ (k & ? & ->)]. apply Z.pow_pos_nonneg; lia. Qed.
#[export] Hint Resolve layout_align_pos : ordinum.

(** Where an allocation starting at [b] in a chunk of [bs] bytes would go. *)

Definition fit (bs b : Z) (l : Layout) : result (Z * Z) ArenaError :=
  let aligned := round_up b (l_align l) in
  if decide (bs < aligned + l_size l) then Err Overflow else Ok (aligned, aligned + l_size l).

Lemma arena_bs_bounds a : arena_ok a -> 0 < block_size (policy a) <= isize_max.
Proof. intros [[? [? ?]] _ _ _ _ _]. lia. Qed.

Lemma arena_get_chunk_done a :
  arena_ok a -> exists c, chunks a !! current_chunk a = Some c /\
    Arena_get_chunk a = Done c /\ chunk_ok (block_size (policy a)) c.
Proof.
  intros H. destruct (lookup_lt_is_Some_2 _ _ (ao_current a H)) as [c Hc]. exists c.
  unfold Arena_get_chunk. rewrite Hc. split_and!; try done.
  by apply (proj1 (Forall_lookup _ _) (ao_chunks a H) _ _ Hc).
Qed.

Lemma alignment_check_done p a b l :
  arena_ok a -> layout_ok l -> 0 <= b <= block_size (policy a) ->
  Arena_alignment_check p a b l = Done (fit (block_size (policy a)) b l).
Proof.
  intros Ha [Hs (k & Hk & Hal)] Hb. pose proof (arena_bs_bounds a Ha).
  destruct (arena_get_chunk_done a Ha) as (c & _ & Hc & Hl & _).
  assert (2 ^ k <= 2 ^ 62) by (apply Z.pow_le_mono_r; lia).
  assert (0 < 2 ^ k) by (apply Z.pow_pos_nonneg; lia).
  pose proof (round_up_bounds b (2 ^ k)).
  unfold Arena_alignment_check. rewrite Hal, power_of_two_pow2 by lia.
  rewrite debug_assert_true by done. cbn [mbind outcome_bind].
  rewrite align_up_done by lia. cbn [mbind outcome_bind].
  unfold fit. rewrite Hal. unfold checked_add, usize_bits.
  rewrite Hc. case_decide as Hov; cbn [mbind outcome_bind].
  - by rewrite Hl.
  - rewrite decide_True; [done|]. width. lia.
Qed.

(** ** Functional behaviour of allocation *)

(** The arena after a new chunk has been pushed and made current. *)

Definition grow (p : profile) (a : Arena) : Arena :=
  mkArena (length (chunks a))
    (chunks a ++ [Chunk_new (SystemAllocator_allocate p (block_size (policy a)))])
    (allocated_bytes a + block_size (policy a)) (memory_used a) (allocator a) (policy a).

Definition is_full (a : Arena) : Prop := cap (policy a) < allocated_bytes a + block_size (policy a).

#[export] Instance is_full_dec a : Decision (is_full a).
Proof. unfold is_full. apply _. Defined.

Lemma new_chunk_ok p bs : 0 <= bs -> chunk_ok bs (Chunk_new (SystemAllocator_allocate p bs)).
Proof.
  intros. unfold chunk_ok, Chunk_len, SystemAllocator_allocate. cbn [ch_mem ch_bump Chunk_new].
  destruct p; rewrite len_replicate; lia.
Qed.

Lemma grow_ok p a : arena_ok a -> ~ is_full a -> arena_ok (grow p a).
Proof.
  intros H Hf. pose proof (arena_bs_bounds a H). unfold is_full in Hf.
  destruct H as [H1 H2 H3 H4 H5 H6]. constructor; cbn [policy chunks current_chunk allocated_bytes allocator grow].
  - done.
  - apply Forall_app. split; [done|]. constructor; [apply new_chunk_ok; lia|constructor].
  - rewrite length_app. simpl. lia.
  - rewrite H4, len_app. change (len [_]) with 1. lia.
  - lia.
  - done.
Qed.

Lemma claim_ok a n l : arena_ok a -> 0 <= n <= block_size (policy a) -> arena_ok (Arena_claim a n l).
Proof.
  intros [H1 H2 H3 H4 H5 H6] Hn.
  constructor; cbn [policy chunks current_chunk allocated_bytes allocator Arena_claim]; try done.
  - apply Forall_alter; [done|]. intros c _ [? ?]. split; done.
  - by rewrite length_alter.
  - unfold len in *. by rewrite length_alter.
Qed.

Lemma grow_chunk p a : chunks (grow p a) !! current_chunk (grow p a) =
  Some (Chunk_new (SystemAllocator_allocate p (block_size (policy a)))).
Proof.
  cbn [chunks current_chunk grow]. apply list_lookup_middle. done.
Qed.

Lemma try_new_chunk_done p a l c :
  arena_ok a -> layout_ok l -> chunks a !! current_chunk a = Some c ->
  Arena_try_new_chunk p a l =
  Done match fit (block_size (policy a)) (ch_bump c) l with
       | Ok _ => (a, Ok tt)
       | Err _ => if decide (is_full a) then (a, Err ArenaFull) else (grow p a, Ok tt)
       end.
Proof.
  intros Ha Hl Hc. pose proof (arena_bs_bounds a Ha) as Hbs. unfold isize_max in Hbs.
  destruct (arena_get_chunk_done a Ha) as (c' & Hc' & Hg & _ & Hb). simplify_eq.
  unfold Arena_try_new_chunk. rewrite Hg. cbn [mbind outcome_bind].
  rewrite alignment_check_done by done. cbn [mbind outcome_bind].
  destruct (fit _ _ _); [done|]. pose proof (ao_cap a Ha). destruct (ao_policy a Ha) as (_ & _ & Hcap).
  unfold isize_max in Hcap. pose proof (ao_allocated a Ha). pose proof (len_nonneg (chunks a)).
  rewrite add_w_small by (unfold usize_bits; lia). cbn [mbind outcome_bind]. unfold is_full.
  case_decide; [by rewrite decide_True|]. rewrite decide_False by done.
  unfold Allocator_allocate. rewrite (ao_system a Ha). cbn [mbind outcome_bind].
  unfold grow. rewrite (ao_system a Ha), wrap_small; [done|]. width. nia.
Qed.

Definition alloc_spec (p : profile) (a : Arena) (l : Layout) : Arena * result arena_ptr ArenaError :=
  match fit (block_size (policy a)) (from_option ch_bump 0 (chunks a !! current_chunk a)) l with
  | Ok (aligned, next) => (Arena_claim a next l, Ok (current_chunk a, aligned))
  | Err _ =>
      if decide (is_full a) then (a, Err ArenaFull)
      else (Arena_claim (grow p a) (l_size l) l, Ok (length (chunks a), 0))
  end.

Lemma fit_fresh bs l : layout_ok l -> l_size l <= bs -> fit bs 0 l = Ok (0, l_size l).
Proof.
  intros Hl Hs. unfold fit. rewrite round_up_0 by auto with ordinum.
  rewrite decide_False by lia. done.
Qed.

Lemma fit_ok bs b l x n :
  layout_ok l -> fit bs b l = Ok (x, n) ->
  b <= x /\ n = x + l_size l /\ n <= bs /\ x mod l_align l = 0.
Proof.
  intros Hl. pose proof (layout_align_pos l Hl). unfold fit. case_decide; [done|].
  intros [= <- <-]. pose proof (round_up_bounds b (l_align l)). split_and!; try lia.
  by apply round_up_mod.
Qed.

(** Two iterations always suffice. *)

Lemma alloc_loop_done p a l :
  arena_ok a -> layout_ok l -> l_size l <= block_size (policy a) ->
  Arena_alloc_loop ALLOC_FUEL p a l = Done (alloc_spec p a l).
Proof.
  intros Ha Hl Hs. destruct (arena_get_chunk_done a Ha) as (c & Hc & Hg & _ & Hb).
  unfold ALLOC_FUEL, alloc_spec. rewrite Hc. cbn [from_option Arena_alloc_loop]. rewrite Hg.
  cbn [mbind outcome_bind]. rewrite alignment_check_done by done. cbn [mbind outcome_bind].
  destruct (fit _ (ch_bump c) l) as [[x n]|e] eqn:E; [done|].
  rewrite (try_new_chunk_done p a l c), E by done. cbn [mbind outcome_bind].
  case_decide as Hf; [done|]. pose proof (grow_ok p a Ha Hf) as Hg'.
  unfold Arena_get_chunk. rewrite grow_chunk. cbn [mbind outcome_bind].
  pose proof (arena_bs_bounds a Ha).
  rewrite alignment_check_done by (try done; simpl; lia). cbn [mbind outcome_bind].
  cbn [policy grow Chunk_new ch_bump]. rewrite fit_fresh by done. done.
Qed.

Lemma alloc_spec_ok p a l :
  arena_ok a -> layout_ok l -> l_size l <= block_size (policy a) -> arena_ok (alloc_spec p a l).1.
Proof.
  intros Ha Hl Hs. destruct (arena_get_chunk_done a Ha) as (c & Hc & _ & _ & Hb).
  pose proof (proj1 Hl). unfold alloc_spec. rewrite Hc. cbn [from_option].
  destruct (fit _ (ch_bump c) l) as [[x n]|e] eqn:E; cbn [fst].
  - apply fit_ok in E as (? & ? & ? & ?); [|done]. apply claim_ok; [done|lia].
  - case_decide; [done|]. apply claim_ok; [by apply grow_ok|]. cbn [policy grow]. lia.
Qed.

(** A later state of the same arena: chunks are never moved or dropped, and
    their bumps only grow. *)

Definition chunk_le (c c' : Chunk) : Prop := ch_mem c = ch_mem c' /\ ch_bump c <= ch_bump c'.

Definition arena_le (a a' : Arena) : Prop :=
  policy a' = policy a /\
  forall i c, chunks a !! i = Some c -> exists c', chunks a' !! i = Some c' /\ chunk_le c c'.

Lemma chunk_le_refl c : chunk_le c c.
Proof. by split. Qed.

Lemma arena_le_refl a : arena_le a a.
Proof. split; [done|]. intros. eauto using chunk_le_refl. Qed.

Lemma arena_le_trans a b c : arena_le a b -> arena_le b c -> arena_le a c.
Proof.
  intros [P1 H1] [P2 H2]. split; [congruence|]. intros i x Hx.
  destruct (H1 i x Hx) as (y & Hy & [? ?]). destruct (H2 i y Hy) as (z & Hz & [? ?]).
  exists z. split; [done|]. split; [congruence|lia].
Qed.

Lemma grow_le p a : arena_le a (grow p a).
Proof.
  split; [done|]. intros i c Hc. exists c. split; [|apply chunk_le_refl].
  cbn [chunks grow]. by apply lookup_app_l_Some.
Qed.

Lemma claim_le a n l c :
  chunks a !! current_chunk a = Some c -> ch_bump c <= n -> arena_le a (Arena_claim a n l).
Proof.
  intros Hc Hn. split; [done|]. intros i x Hx. cbn [chunks Arena_claim].
  destruct (decide (i = current_chunk a)) as [->|Hi].
  - simplify_eq. exists (set_bump n c). rewrite list_lookup_alter_eq, Hc. split; done.
  - exists x. rewrite list_lookup_alter_ne by done. split; [done|apply chunk_le_refl].
Qed.

Lemma alloc_spec_grant p a l a' i off :
  arena_ok a -> layout_ok l -> l_size l <= block_size (policy a) ->
  alloc_spec p a l = (a', Ok (i, off)) ->
  arena_le a a' /\ 0 <= off /\ off mod l_align l = 0 /\ off + l_size l <= block_size (policy a) /\
  (ch_bump <$> chunks a' !! i) = Some (off + l_size l) /\
  (forall c, chunks a !! i = Some c -> ch_bump c <= off).
Proof.
  intros Ha Hl Hs. destruct (arena_get_chunk_done a Ha) as (c & Hc & _ & _ & Hb).
  pose proof (proj1 Hl) as Hsz. unfold alloc_spec. rewrite Hc. cbn [from_option].
  destruct (fit _ (ch_bump c) l) as [[x n]|e] eqn:E.
  - apply fit_ok in E as (? & -> & ? & ?); [|done]. intros [= <- <- <-]. split_and!; try done; try lia.
    + eapply claim_le; [done|lia].
    + cbn [chunks Arena_claim]. by rewrite list_lookup_alter_eq, Hc.
    + intros. simplify_eq. lia.
  - case_decide; [done|]. intros [= <- <- <-]. split_and!; try done; try lia.
    + eapply arena_le_trans; [apply (grow_le p)|]. eapply claim_le; [apply grow_chunk|]. simpl. lia.
    + pose proof (grow_chunk p a) as Hg. cbn [current_chunk grow] in Hg.
      cbn [chunks Arena_claim current_chunk]. unfold grow at 1. cbn [current_chunk].
      rewrite list_lookup_alter_eq, Hg. done.
    + intros x Hx%lookup_lt_Some. lia.
Qed.

(** ** Memory through granted pointers *)

Definition ptr_in (a : Arena) (ptr : arena_ptr) (n : Z) : Prop :=
  exists c, chunks a !! ptr.1 = Some c /\ 0 <= ptr.2 /\ 0 <= n /\
    ptr.2 + n <= ch_bump c /\ ptr.2 + n <= Chunk_len c.

Definition ptr_disjoint (p1 : arena_ptr) (n1 : Z) (p2 : arena_ptr) (n2 : Z) : Prop :=
  p1.1 <> p2.1 \/ p1.2 + n1 <= p2.2 \/ p2.2 + n2 <= p1.2.

Lemma ptr_in_le a a' ptr n : arena_le a a' -> ptr_in a ptr n -> ptr_in a' ptr n.
Proof.
  intros [_ H] (c & Hc & ?). destruct (H _ _ Hc) as (c' & Hc' & Hm & ?).
  exists c'. unfold Chunk_len in *. rewrite <- Hm. split_and!; try done; lia.
Qed.

Lemma Arena_read_le a a' ptr n :
  arena_le a a' -> ptr_in a ptr n -> Arena_read a' ptr n = Arena_read a ptr n.
Proof.
  intros [_ H] (c & Hc & _). destruct (H _ _ Hc) as (c' & Hc' & Hm & ?).
  unfold Arena_read, Chunk_len. by rewrite Hc, Hc', Hm.
Qed.

Lemma mapM_id_Some_fmap (bs : bytes) : mapM id (Some <$> bs) = Some bs.
Proof.
  induction bs as [|b bs IH]; [done|]. rewrite fmap_cons. cbn [mapM mbind option_bind id].
  by rewrite IH.
Qed.

Lemma take_drop_splice_same {A} i n (xs l : list A) :
  0 <= i -> n = len xs -> i + n <= len l ->
  take (Z.to_nat n) (drop (Z.to_nat i) (splice i xs l)) = xs.
Proof.
  intros Hi -> Hl. unfold splice, len in *.
  rewrite drop_app_ge by (rewrite length_take; lia). rewrite length_take_le by lia.
  rewrite Nat.sub_diag, drop_0, Nat2Z.id. apply take_app_length.
Qed.

Lemma take_drop_splice_disj {A} i j n (xs l : list A) :
  0 <= i -> 0 <= j -> 0 <= n -> i + len xs <= len l -> j + n <= len l -> j + n <= i \/ i + len xs <= j ->
  take (Z.to_nat n) (drop (Z.to_nat j) (splice i xs l)) = take (Z.to_nat n) (drop (Z.to_nat j) l).
Proof.
  intros Hi Hj Hn Hl Hjl Hd. apply list_eq. intros m.
  destruct (decide (m < Z.to_nat n)%nat) as [Hm|Hm].
  2: { by rewrite !lookup_take_ge by lia. }
  rewrite !lookup_take_lt, !lookup_drop by lia. unfold splice, len in *.
  destruct Hd as [Hd|Hd].
  - rewrite lookup_app_l by (rewrite length_take; lia). by rewrite lookup_take_lt by lia.
  - rewrite lookup_app_r by (rewrite length_take; lia).
    rewrite length_take_le by lia. rewrite lookup_app_r by lia. rewrite lookup_drop. f_equal. lia.
Qed.

Lemma Arena_write_read a ptr bs a' :
  Arena_write a ptr bs = Done a' -> Arena_read a' ptr (len bs) = Done bs.
Proof.
  unfold Arena_write, Arena_read. destruct (chunks a !! ptr.1) as [c|] eqn:Hc; [|done].
  case_decide as Hd; [|done]. intros [= <-]. cbn [chunks set_chunks].
  rewrite list_lookup_alter_eq, Hc. cbn [fmap option_fmap option_map]. unfold Chunk_len in *. cbn [ch_mem].
  assert (len (Some <$> bs) = len bs) as El by (unfold len; by rewrite length_fmap).
  rewrite len_splice, decide_True by lia.
  rewrite take_drop_splice_same by lia. by rewrite mapM_id_Some_fmap.
Qed.

Lemma Arena_write_other a ptr bs a' ptr2 n :
  Arena_write a ptr bs = Done a' -> ptr_in a ptr2 n -> ptr_disjoint ptr (len bs) ptr2 n ->
  Arena_read a' ptr2 n = Arena_read a ptr2 n.
Proof.
  unfold Arena_write, Arena_read. destruct (chunks a !! ptr.1) as [c|] eqn:Hc; [|done].
  case_decide as Hd; [|done]. intros [= <-] (c2 & Hc2 & ? & ? & ? & ?) Hdis. cbn [chunks set_chunks].
  destruct (decide (ptr2.1 = ptr.1)) as [E|Hne].
  - rewrite E in *. simplify_eq. rewrite list_lookup_alter_eq, Hc.
    cbn [fmap option_fmap option_map]. unfold Chunk_len in *. cbn [ch_mem].
    assert (len (Some <$> bs) = len bs) as El by (unfold len; by rewrite length_fmap).
    rewrite len_splice by lia. case_decide; [|done].
    rewrite take_drop_splice_disj; try lia; [done|]. destruct Hdis as [?|?]; [congruence|lia].
  - by rewrite list_lookup_alter_ne.
Qed.

Lemma len_Some_fmap (bs : bytes) : len (Some <$> bs) = len bs.
Proof. unfold len. by rewrite length_fmap. Qed.

Lemma Arena_write_ok a ptr bs a' : arena_ok a -> Arena_write a ptr bs = Done a' -> arena_ok a'.
Proof.
  intros [P1 P2 P3 P4 P5 P6] W. unfold Arena_write in W. destruct (chunks a !! ptr.1) as [c|] eqn:Hc; [|done].
  case_decide; [|done]. injection W as <-.
  constructor; cbn [set_chunks policy chunks current_chunk allocated_bytes allocator]; try done.
  - apply Forall_alter; [done|]. intros c' Hc' [? ?]. simplify_eq. split; [|done].
    unfold Chunk_len in *. cbn [ch_mem]. rewrite len_splice; rewrite ?len_Some_fmap; lia.
  - by rewrite length_alter.
  - unfold len in *. by rewrite length_alter.
Qed.

Lemma Arena_write_ptr_in a i off n bs a' :
  0 <= n -> ch_bump <$> (chunks a !! i) = Some (off + n) -> len bs = n ->
  Arena_write a (i, off) bs = Done a' -> ptr_in a' (i, off) n.
Proof.
  intros Hn Hbump Hl W. unfold Arena_write in W. cbn [fst snd] in W.
  destruct (chunks a !! i) as [c|] eqn:Hc; [|done]. case_decide; [|done]. injection W as <-.
  eexists. cbn [fst snd chunks set_chunks]. rewrite list_lookup_alter_eq, Hc. split; [done|].
  injection Hbump as Hbump. unfold Chunk_len in *. cbn [ch_mem ch_bump].
  rewrite len_splice; rewrite ?len_Some_fmap; lia.
Qed.

Lemma alloc_raw_outcome p a l :
  arena_ok a -> layout_ok l ->
  exists a' r, Arena_alloc_raw_fallback p a l = Done (a', r) /\ arena_ok a' /\
    match r with
    | Ok (i, off) =>
        Arena_alloc_raw p a l = Done (a', (i, off)) /\
        arena_le a a' /\ 0 <= off /\ off mod l_align l = 0 /\
        off + l_size l <= block_size (policy a) /\
        (ch_bump <$> chunks a' !! i) = Some (off + l_size l) /\
        (forall c, chunks a !! i = Some c -> ch_bump c <= off)
    | Err e =>
        a' = a /\ is_done (Arena_alloc_raw p a l) = false /\
        ((e = AllocationError (l_size l) /\ block_size (policy a) < l_size l) \/
         (e = ArenaFull /\ is_full a /\ exists c, Arena_get_chunk a = Done c /\
            block_size (policy a) < round_up (ch_bump c) (l_align l) + l_size l))
    end.
Proof.
  intros Ha Hl. unfold Arena_alloc_raw_fallback, Arena_alloc_raw. case_decide as Hs.
  - exists a, (Err (AllocationError (l_size l))). split_and!; try done; [|by left].
    destruct (Z.leb_spec (l_size l) (block_size (policy a))); [lia|done].
  - rewrite alloc_loop_done by (try done; lia).
    assert ((l_size l <=? block_size (policy a)) = true) as -> by (apply Z.leb_le; lia).
    cbn [mbind outcome_bind rust_assert].
    pose proof (alloc_spec_ok p a l Ha Hl ltac:(lia)) as Hok.
    destruct (alloc_spec p a l) as [a' [[i off]|e]] eqn:E; exists a'; eexists; (split; [done|]);
      (split; [exact Hok|]).
    + split; [done|]. eapply alloc_spec_grant; try done. lia.
    + destruct (arena_get_chunk_done a Ha) as (c & Hc & Hg & _ & Hb).
      unfold alloc_spec in E. rewrite Hc in E. cbn [from_option] in E.
      destruct (fit _ (ch_bump c) l) as [[? ?]|] eqn:Hfit; [done|].
      case_decide; simplify_eq. split_and!; try done. right. split_and!; try done.
      exists c. split; [done|]. unfold fit in Hfit. by case_decide.
Qed.

(** ** Properties of the sequential operations *)

(** C29: an allocation of any layout always terminates without panicking in
    the fallible variant.  It returns a range inside one chunk, at an aligned
    offset, that
    lies beyond everything handed out from that chunk before and leaves all
    chunk memory in place, or it fails with the state unchanged, exactly when
    the layout exceeds a block or when it does not fit and the next block
    would exceed the cap.  The panicking variant returns the same pointer and
    panics exactly on the failures. *)
Theorem arena_alloc_correct p a l :
  arena_ok a -> layout_ok l ->
  exists a' r, Arena_alloc_raw_fallback p a l = Done (a', r) /\ arena_ok a' /\
    match r with
    | Ok (i, off) =>
        Arena_alloc_raw p a l = Done (a', (i, off)) /\
        arena_le a a' /\ 0 <= off /\ off mod l_align l = 0 /\
        off + l_size l <= block_size (policy a) /\
        (ch_bump <$> chunks a' !! i) = Some (off + l_size l) /\
        (forall c, chunks a !! i = Some c -> ch_bump c <= off)
    | Err e =>
        a' = a /\ is_done (Arena_alloc_raw p a l) = false /\
        ((e = AllocationError (l_size l) /\ block_size (policy a) < l_size l) \/
         (e = ArenaFull /\ is_full a /\ exists c, Arena_get_chunk a = Done c /\
            block_size (policy a) < round_up (ch_bump c) (l_align l) + l_size l))
    end.
Proof. apply alloc_raw_outcome. Qed.

Definition tiny_policy : ArenaPolicy := mkPolicy 8 16.

Definition tiny_arena : Arena := mkArena 0 [Chunk_new (replicate 8 None)] 8 0 AllocSystem tiny_policy.

Lemma tiny_arena_ok : arena_ok tiny_arena.
Proof.
  constructor.
  - unfold policy_ok. cbn. split_and!; vm_compute; congruence.
  - constructor; [|constructor]. unfold chunk_ok. split_and!; vm_compute; congruence.
  - cbn. lia.
  - done.
  - vm_compute. congruence.
  - done.
Qed.

Lemma layout_3_2_ok : layout_ok (mkLayout 3 2).
Proof. split; [vm_compute; split; congruence|]. exists 1. split; [lia|done]. Qed.

Lemma arena_alloc_correct_witness :
  exists a' r, Arena_alloc_raw_fallback Debug tiny_arena (mkLayout 3 2) = Done (a', r) /\ arena_ok a' /\
    match r with
    | Ok (i, off) =>
        Arena_alloc_raw Debug tiny_arena (mkLayout 3 2) = Done (a', (i, off)) /\
        arena_le tiny_arena a' /\ 0 <= off /\ off mod 2 = 0 /\ off + 3 <= 8 /\
        (ch_bump <$> chunks a' !! i) = Some (off + 3) /\
        (forall c, chunks tiny_arena !! i = Some c -> ch_bump c <= off)
    | Err e =>
        a' = tiny_arena /\ is_done (Arena_alloc_raw Debug tiny_arena (mkLayout 3 2)) = false /\
        ((e = AllocationError 3 /\ 8 < 3) \/
         (e = ArenaFull /\ is_full tiny_arena /\ exists c, Arena_get_chunk tiny_arena = Done c /\
            8 < round_up (ch_bump c) 2 + 3))
    end.
Proof. exact (arena_alloc_correct Debug tiny_arena (mkLayout 3 2) tiny_arena_ok layout_3_2_ok). Defined.

(** What is written through one granted pointer is read back unchanged
    after any further allocation and after any write through the new pointer. *)
Theorem arena_memory_isolated p a1 l1 a2 ptr1 bs1 a3 l2 a4 ptr2 bs2 a5 :
  arena_ok a1 -> layout_ok l1 -> layout_ok l2 ->
  Arena_alloc_raw_fallback p a1 l1 = Done (a2, Ok ptr1) ->
  len bs1 = l_size l1 -> Arena_write a2 ptr1 bs1 = Done a3 ->
  Arena_alloc_raw_fallback p a3 l2 = Done (a4, Ok ptr2) ->
  len bs2 = l_size l2 -> Arena_write a4 ptr2 bs2 = Done a5 ->
  Arena_read a5 ptr1 (l_size l1) = Done bs1 /\ Arena_read a5 ptr2 (l_size l2) = Done bs2.
Proof.
  intros Ha Hl1 Hl2 H1 Hb1 W1 H2 Hb2 W2.
  pose proof (Arena_write_read _ _ _ _ W1) as R1. pose proof (Arena_write_read _ _ _ _ W2) as R2.
  split; [|by rewrite <- Hb2]. rewrite Hb1 in R1. rewrite <- R1.
  destruct (alloc_raw_outcome p a1 l1 Ha Hl1) as (a2' & r & E & Ha2 & Hr). rewrite E in H1.
  simplify_eq. destruct ptr1 as [i1 o1]. destruct Hr as (_ & _ & ? & _ & ? & Hbump & _).
  assert (Hpol : policy a2 = policy a1).
  { unfold Arena_alloc_raw_fallback in E. case_decide; [done|].
    rewrite alloc_loop_done in E by (try done; lia). injection E as E.
    by destruct (alloc_spec_grant p a1 l1 a2 i1 o1 Ha Hl1 ltac:(lia) E) as [[-> _] _]. }
  assert (Hin : ptr_in a3 (i1, o1) (l_size l1)).
  { by apply (Arena_write_ptr_in a2 _ _ _ bs1); [apply Hl1| | |]. }
  pose proof (Arena_write_ok _ _ _ _ Ha2 W1) as Ha3.
  destruct (alloc_raw_outcome p a3 l2 Ha3 Hl2) as (a4' & r & E2 & _ & Hr2). rewrite E2 in H2.
  simplify_eq. destruct ptr2 as [i2 o2]. destruct Hr2 as (_ & Hle & ? & _ & _ & _ & Hfresh).
  rewrite <- (Arena_read_le a3 a4) by done.
  eapply Arena_write_other; [done|by eapply ptr_in_le|].
  destruct Hin as (c & Hc & ? & ? & ? & ?). unfold ptr_disjoint. cbn [fst snd] in *.
  destruct (decide (i2 = i1)) as [->|]; [|by left]. specialize (Hfresh c Hc). lia.
Qed.

Definition tiny_with (mem : memory) (bump used : Z) : Arena :=
  mkArena 0 [mkChunk mem bump] 8 used AllocSystem tiny_policy.

Lemma arena_memory_isolated_witness :
  let mem1 := [Some 7; Some 8; Some 9; None; None; None; None; None] in
  let mem2 := [Some 7; Some 8; Some 9; None; Some 1; Some 2; Some 3; None] in
  Arena_read (tiny_with mem2 7 6) (0%nat, 0) 3 = Done [7; 8; 9] /\
  Arena_read (tiny_with mem2 7 6) (0%nat, 4) 3 = Done [1; 2; 3].
Proof.
  intros mem1 mem2.
  apply (arena_memory_isolated Debug tiny_arena (mkLayout 3 2) (tiny_with (replicate 8 None) 3 3)
    (0%nat, 0) [7; 8; 9] (tiny_with mem1 3 3) (mkLayout 3 2) (tiny_with mem1 7 6)
    (0%nat, 4) [1; 2; 3] (tiny_with mem2 7 6) tiny_arena_ok layout_3_2_ok layout_3_2_ok); reflexivity.
Defined.

Lemma Arena_reset_done p a :
  arena_ok a ->
  Arena_reset p a = Done (mkArena 0 (set_bump 0 <$> chunks a) (allocated_bytes a) 0 (allocator a) (policy a)).
Proof.
  intros Ha. pose proof (ao_current a Ha) as Hc. unfold Arena_reset.
  destruct (chunks a) as [|c cs] eqn:E; [simpl in Hc; lia|].
  rewrite debug_assert_true by by rewrite bool_decide_false. cbn [mbind outcome_bind].
  rewrite bool_decide_false by done. done.
Qed.

Lemma reset_ok a :
  arena_ok a ->
  arena_ok (mkArena 0 (set_bump 0 <$> chunks a) (allocated_bytes a) 0 (allocator a) (policy a)).
Proof.
  intros Ha. pose proof (arena_bs_bounds a Ha). destruct Ha as [P1 P2 P3 P4 P5 P6].
  constructor; cbn [policy chunks current_chunk allocated_bytes allocator]; try done.
  - apply Forall_fmap. eapply Forall_impl; [done|]. intros c [? ?]. split; cbn; [done|lia].
  - rewrite length_fmap. lia.
  - unfold len in *. by rewrite length_fmap.
Qed.

(** A reset arena is a valid empty arena that still owns its chunks, but it
    serves allocations from the first chunk only: if it had grown to its cap,
    the first allocation that does not fit the rest of the current chunk fails
    with [ArenaFull] although the other retained chunks are empty. *)
Theorem arena_reset_capacity p a l1 l2 :
  arena_ok a -> layout_ok l1 -> layout_ok l2 -> cap (policy a) < allocated_bytes a + block_size (policy a) ->
  l_size l1 <= block_size (policy a) -> l_size l2 <= block_size (policy a) ->
  block_size (policy a) < round_up (l_size l1) (l_align l2) + l_size l2 ->
  exists a0 a1, Arena_reset p a = Done a0 /\ arena_ok a0 /\
    length (chunks a0) = length (chunks a) /\ Forall (fun c => ch_bump c = 0) (chunks a0) /\
    Arena_memory_used a0 = 0 /\
    Arena_alloc_raw_fallback p a0 l1 = Done (a1, Ok (0%nat, 0)) /\
    Arena_alloc_raw_fallback p a1 l2 = Done (a1, Err ArenaFull).
Proof.
  intros Ha Hl1 Hl2 Hfull Hs1 Hs2 Hno. rewrite Arena_reset_done by done.
  pose proof (reset_ok a Ha) as H0. set (a0 := mkArena 0 _ _ _ _ _) in *.
  destruct (arena_get_chunk_done a0 H0) as (c & Hc & _ & _ & _).
  assert (ch_bump c = 0) as Hb.
  { unfold a0 in Hc. cbn [chunks current_chunk] in Hc. rewrite list_lookup_fmap in Hc.
    apply fmap_Some in Hc as (c' & _ & ->). done. }
  assert (E1 : alloc_spec p a0 l1 = (Arena_claim a0 (l_size l1) l1, Ok (0%nat, 0))).
  { unfold alloc_spec. rewrite Hc. cbn [from_option]. rewrite Hb.
    by rewrite fit_fresh. }
  exists a0, (Arena_claim a0 (l_size l1) l1). split; [done|]. split; [done|].
  split; [unfold a0; cbn [chunks]; by rewrite length_fmap|].
  split; [unfold a0; cbn [chunks]; apply Forall_fmap, Forall_true; done|]. split; [done|].
  unfold Arena_alloc_raw_fallback. cbn [policy a0 Arena_claim].
  rewrite !decide_False by lia. split; [by rewrite alloc_loop_done, E1|].
  assert (H1 : arena_ok (Arena_claim a0 (l_size l1) l1)).
  { pose proof (alloc_spec_ok p a0 l1 H0 Hl1 Hs1) as H. by rewrite E1 in H. }
  rewrite alloc_loop_done by done. unfold alloc_spec.
  change (chunks (Arena_claim a0 (l_size l1) l1)) with (alter (set_bump (l_size l1)) 0%nat (chunks a0)).
  cbn [current_chunk Arena_claim policy]. change (current_chunk a0) with 0%nat in *.
  rewrite list_lookup_alter_eq, Hc. cbn [fmap option_fmap option_map from_option set_bump ch_bump].
  unfold fit. cbn [policy a0]. rewrite decide_True by done. rewrite decide_True; [done|].
  unfold is_full. cbn. lia.
Qed.

Definition tiny_full : Arena :=
  mkArena 1 [mkChunk (replicate 8 None) 8; mkChunk (replicate 8 None) 2] 16 10 AllocSystem tiny_policy.

Lemma tiny_full_ok : arena_ok tiny_full.
Proof.
  constructor.
  - unfold policy_ok. cbn. split_and!; vm_compute; congruence.
  - repeat constructor; vm_compute; congruence.
  - cbn. lia.
  - done.
  - vm_compute. congruence.
  - done.
Qed.

Lemma arena_reset_capacity_witness :
  exists a0 a1, Arena_reset Debug tiny_full = Done a0 /\ arena_ok a0 /\
    length (chunks a0) = 2%nat /\ Forall (fun c => ch_bump c = 0) (chunks a0) /\
    Arena_memory_used a0 = 0 /\
    Arena_alloc_raw_fallback Debug a0 (mkLayout 6 2) = Done (a1, Ok (0%nat, 0)) /\
    Arena_alloc_raw_fallback Debug a1 (mkLayout 6 2) = Done (a1, Err ArenaFull).
Proof.
  apply (arena_reset_capacity Debug tiny_full (mkLayout 6 2) (mkLayout 6 2)).
  - apply tiny_full_ok.
  - split; [vm_compute; split; congruence|]. exists 1. split; [lia|done].
  - split; [vm_compute; split; congruence|]. exists 1. split; [lia|done].
  - reflexivity.
  - vm_compute. congruence.
  - vm_compute. congruence.
  - reflexivity.
Defined.

(** Every preset size yields an arena that can be created, whose capacity
    is the advertised size and which holds a whole number of blocks. *)
Theorem write_buffer_presets p s :
  exists a, Arena_new p (WriteBufferSize_arena_policy s) AllocSystem = Done a /\ arena_ok a /\
    Arena_max_bytes a = WriteBufferSize_as_bytes s /\
    Arena_number_of_blocks a * block_size (policy a) = WriteBufferSize_as_bytes s /\
    Arena_blocks_used a = 1 /\ Arena_memory_used a = 0.
Proof.
  set (pol := WriteBufferSize_arena_policy s).
  assert (Hpol : policy_ok pol) by (destruct s; vm_compute; repeat split; congruence).
  exists (mkArena 0 [Chunk_new (SystemAllocator_allocate p (block_size pol))] (block_size pol) 0 AllocSystem pol).
  split; [|split; [|split; [|split]]].
  - unfold Arena_new. by destruct s.
  - destruct Hpol as (? & ? & ?).
    constructor; cbn [policy chunks current_chunk allocated_bytes allocator]; try done.
    + constructor; [apply new_chunk_ok; lia|constructor].
    + simpl. lia.
    + change (len [_]) with 1. lia.
    + lia.
  - by destruct s.
  - by destruct s.
  - by destruct s.
Qed.
