(* ===== verification/ArenaThreads.v ===== *)
(** * ArenaThreads: allocation by several threads at once

    The interleavings of [Arena::alloc_raw_fallback] ([arena/arena.rs]): one
    transition per atomic operation (load of the current chunk, load of its
    bump, compare-and-exchange, statistics update) and per critical-section
    action of [try_new_chunk] (lock, re-check, reservation against the cap,
    push).  A compare-and-exchange may fail spuriously. *)

From S2P Require Import Prelude Arena.

(** Where a thread is in [alloc_raw_fallback]. *)

Inductive tstate :=
| TIdle
| TStart (l : Layout)
| TChunk (l : Layout) (c : nat)
| TBump (l : Layout) (c : nat) (b : Z)
| TCas (l : Layout) (c : nat) (b aligned next : Z)
| TClaimed (l : Layout) (c : nat) (aligned : Z)
| TLock (l : Layout)
| TLocked (l : Layout)
| TPush (l : Layout)
| TReturn (r : result arena_ptr ArenaError).

(** The shared arena, the owner of its mutex, the threads, and the history of
    the ranges claimed so far. *)

Record cstate := mkC {
  cs_arena : Arena;
  cs_lock : option nat;
  cs_threads : gmap nat tstate;
  cs_grants : list (arena_ptr * Layout)
}.

Definition put_thread (s : cstate) (t : nat) (st : tstate) : cstate :=
  mkC (cs_arena s) (cs_lock s) (<[t := st]> (cs_threads s)) (cs_grants s).

Definition put_lock (s : cstate) (o : option nat) : cstate :=
  mkC (cs_arena s) o (cs_threads s) (cs_grants s).

Definition put_arena (s : cstate) (a : Arena) : cstate :=
  mkC a (cs_lock s) (cs_threads s) (cs_grants s).

Definition put_grant (s : cstate) (g : arena_ptr * Layout) : cstate :=
  mkC (cs_arena s) (cs_lock s) (cs_threads s) (g :: cs_grants s).

Definition add_used (n : Z) (a : Arena) : Arena :=
  mkArena (current_chunk a) (chunks a) (allocated_bytes a) (wrap usize_bits (memory_used a + n))
    (allocator a) (policy a).

Definition add_allocated (n : Z) (a : Arena) : Arena :=
  mkArena (current_chunk a) (chunks a) (wrap usize_bits (allocated_bytes a + n)) (memory_used a)
    (allocator a) (policy a).

Definition push_chunk (heap : memory) (a : Arena) : Arena :=
  mkArena (length (chunks a)) (chunks a ++ [Chunk_new heap]) (allocated_bytes a) (memory_used a)
    (allocator a) (policy a).

(** One step of thread [t]. *)

(* @src crates/engine/src/arena/arena.rs:245-329 Arena::alloc_raw_fallback *)
Inductive cstep (p : profile) (t : nat) (s : cstate) : cstate -> Prop :=
| c_call l :
    cs_threads s !! t = Some TIdle -> layout_ok l -> l_size l <= block_size (policy (cs_arena s)) ->
    cstep p t s (put_thread s t (TStart l))
| c_load_chunk l :
    cs_threads s !! t = Some (TStart l) ->
    cstep p t s (put_thread s t (TChunk l (current_chunk (cs_arena s))))
| c_load_bump l c ch :
    cs_threads s !! t = Some (TChunk l c) -> chunks (cs_arena s) !! c = Some ch ->
    cstep p t s (put_thread s t (TBump l c (ch_bump ch)))
| c_check_ok l c b aligned next :
    cs_threads s !! t = Some (TBump l c b) ->
    Arena_alignment_check p (cs_arena s) b l = Done (Ok (aligned, next)) ->
    cstep p t s (put_thread s t (TCas l c b aligned next))
| c_check_err l c b e :
    cs_threads s !! t = Some (TBump l c b) ->
    Arena_alignment_check p (cs_arena s) b l = Done (Err e) ->
    cstep p t s (put_thread s t (TLock l))
| c_cas_ok l c b aligned next ch :
    cs_threads s !! t = Some (TCas l c b aligned next) ->
    chunks (cs_arena s) !! c = Some ch -> ch_bump ch = b ->
    cstep p t s
      (put_thread
         (put_grant (put_arena s (set_chunks (alter (set_bump next) c) (cs_arena s))) ((c, aligned), l))
         t (TClaimed l c aligned))
| c_cas_fail l c b aligned next :
    cs_threads s !! t = Some (TCas l c b aligned next) ->
    cstep p t s (put_thread s t (TStart l))
| c_stat l c aligned :
    cs_threads s !! t = Some (TClaimed l c aligned) ->
    cstep p t s (put_thread (put_arena s (add_used (l_size l) (cs_arena s))) t (TReturn (Ok (c, aligned))))
| c_lock l :
    cs_threads s !! t = Some (TLock l) -> cs_lock s = None ->
    cstep p t s (put_thread (put_lock s (Some t)) t (TLocked l))
| c_recheck_ok l ch r :
    cs_threads s !! t = Some (TLocked l) -> Arena_get_chunk (cs_arena s) = Done ch ->
    Arena_alignment_check p (cs_arena s) (ch_bump ch) l = Done (Ok r) ->
    cstep p t s (put_thread (put_lock s None) t (TStart l))
| c_full l ch e :
    cs_threads s !! t = Some (TLocked l) -> Arena_get_chunk (cs_arena s) = Done ch ->
    Arena_alignment_check p (cs_arena s) (ch_bump ch) l = Done (Err e) ->
    is_full (cs_arena s) ->
    cstep p t s (put_thread (put_lock s None) t (TReturn (Err ArenaFull)))
| c_reserve l ch e :
    cs_threads s !! t = Some (TLocked l) -> Arena_get_chunk (cs_arena s) = Done ch ->
    Arena_alignment_check p (cs_arena s) (ch_bump ch) l = Done (Err e) ->
    ~ is_full (cs_arena s) ->
    cstep p t s
      (put_thread (put_arena s (add_allocated (block_size (policy (cs_arena s))) (cs_arena s))) t (TPush l))
| c_push l heap :
    cs_threads s !! t = Some (TPush l) ->
    Allocator_allocate p (allocator (cs_arena s)) (block_size (policy (cs_arena s))) = Done heap ->
    cstep p t s (put_thread (put_lock (put_arena s (push_chunk heap (cs_arena s))) None) t (TStart l))
| c_return r :
    cs_threads s !! t = Some (TReturn r) ->
    cstep p t s (put_thread s t TIdle).

Inductive creach (p : profile) (s0 : cstate) : cstate -> Prop :=
| creach_refl : creach p s0 s0
| creach_step s t s' : creach p s0 s -> cstep p t s s' -> creach p s0 s'.

(** [n] threads that share a fresh arena. *)

Definition cinit (a : Arena) (n : nat) : cstate :=
  mkC a None (list_to_map ((fun t => (t, TIdle)) <$> seq 0 n)) [].

(** ** Invariant *)

Definition bsize (s : cstate) : Z := block_size (policy (cs_arena s)).

Definition in_section (st : tstate) : bool :=
  match st with TLocked _ | TPush _ => true | _ => false end.

Definition reserved (s : cstate) : Z :=
  match cs_lock s with
  | Some t => match cs_threads s !! t with Some (TPush _) => bsize s | _ => 0 end
  | None => 0
  end.

(** What a thread knows at each point. *)

Definition thread_ok (bs : Z) (n : nat) (st : tstate) : Prop :=
  match st with
  | TIdle | TReturn _ => True
  | TStart l | TLock l | TLocked l | TPush l => layout_ok l /\ l_size l <= bs
  | TChunk l c => layout_ok l /\ l_size l <= bs /\ (c < n)%nat
  | TBump l c b => layout_ok l /\ l_size l <= bs /\ (c < n)%nat /\ 0 <= b <= bs
  | TCas l c b aligned next =>
      layout_ok l /\ l_size l <= bs /\ (c < n)%nat /\ 0 <= b <= bs /\
      fit bs b l = Ok (aligned, next)
  | TClaimed l c aligned => (c < n)%nat
  end.

Definition grant_ok (a : Arena) (g : arena_ptr * Layout) : Prop :=
  ptr_in a g.1 (l_size g.2) /\ g.1.2 mod l_align g.2 = 0.

Definition grants_disjoint (g1 g2 : arena_ptr * Layout) : Prop :=
  ptr_disjoint g1.1 (l_size g1.2) g2.1 (l_size g2.2).

Record cinv (s : cstate) : Prop := mkCInv {
  ci_policy : policy_ok (policy (cs_arena s));
  ci_system : allocator (cs_arena s) = AllocSystem;
  ci_chunks : Forall (chunk_ok (bsize s)) (chunks (cs_arena s));
  ci_current : (current_chunk (cs_arena s) < length (chunks (cs_arena s)))%nat;
  ci_allocated : allocated_bytes (cs_arena s) = bsize s * len (chunks (cs_arena s)) + reserved s;
  ci_cap : allocated_bytes (cs_arena s) <= cap (policy (cs_arena s));
  ci_threads : map_Forall (fun _ => thread_ok (bsize s) (length (chunks (cs_arena s)))) (cs_threads s);
  ci_lock : forall t st, cs_threads s !! t = Some st -> in_section st = bool_decide (cs_lock s = Some t);
  ci_holder : forall t, cs_lock s = Some t -> is_Some (cs_threads s !! t);
  ci_grants : Forall (grant_ok (cs_arena s)) (cs_grants s);
  ci_disjoint : ForallOrdPairs grants_disjoint (cs_grants s)
}.

(** ** Preservation *)

Lemma thread_ok_mono bs n m st : (n <= m)%nat -> thread_ok bs n st -> thread_ok bs m st.
Proof. intros. destruct st; simpl in *; intuition lia. Qed.

(** The arena with a reservation in flight undone; the checks do not see it. *)

Definition settled (a : Arena) : Arena :=
  mkArena (current_chunk a) (chunks a) (block_size (policy a) * len (chunks a)) (memory_used a)
    (allocator a) (policy a).

Lemma reserved_nonneg s : cinv s -> 0 <= reserved s.
Proof.
  intros H. destruct (ci_policy s H). unfold reserved, bsize.
  destruct (cs_lock s) as [t|]; [|lia]. destruct (cs_threads s !! t) as [[]|]; lia.
Qed.

Lemma settled_ok s : cinv s -> arena_ok (settled (cs_arena s)).
Proof.
  intros H. pose proof (reserved_nonneg s H). destruct H as [H1 H2 H3 H4 H5 H6 _ _ _ _ _].
  constructor; cbn; try done. unfold bsize in *. lia.
Qed.

Lemma cinv_check p s b l :
  cinv s -> layout_ok l -> 0 <= b <= bsize s ->
  Arena_alignment_check p (cs_arena s) b l = Done (fit (bsize s) b l).
Proof. intros H Hl Hb. apply (alignment_check_done p (settled (cs_arena s))); [by apply settled_ok|done..]. Qed.

Lemma cinv_chunk s c ch :
  cinv s -> chunks (cs_arena s) !! c = Some ch -> chunk_ok (bsize s) ch.
Proof. intros H Hc. by apply (proj1 (Forall_lookup _ _) (ci_chunks s H) c). Qed.

Lemma cinv_thread s t st :
  cinv s -> cs_threads s !! t = Some st -> thread_ok (bsize s) (length (chunks (cs_arena s))) st.
Proof. intros H Ht. by apply (ci_threads s H t). Qed.

Lemma cinv_bs s : cinv s -> 0 < bsize s <= isize_max.
Proof. intros H. destruct (ci_policy s H) as (? & ? & ?). unfold bsize. lia. Qed.

(** A thread moves outside the critical section. *)

Lemma put_thread_inv s t st0 st :
  cinv s -> cs_threads s !! t = Some st0 -> in_section st0 = false -> in_section st = false ->
  thread_ok (bsize s) (length (chunks (cs_arena s))) st -> cinv (put_thread s t st).
Proof.
  intros H Ht Hs0 Hs Hok. pose proof (ci_lock s H t st0 Ht) as Hl. rewrite Hs0 in Hl.
  symmetry in Hl. apply bool_decide_eq_false in Hl.
  assert (Hres : reserved (put_thread s t st) = reserved s).
  { unfold reserved, put_thread. cbn [cs_lock cs_threads].
    destruct (cs_lock s) as [t'|]; [|done]. by rewrite lookup_insert_ne by congruence. }
  destruct H as [H1 H2 H3 H4 H5 H6 H7 H8 H9 H10 H11]. constructor; try done.
  - by rewrite Hres.
  - apply map_Forall_insert_2; done.
  - intros t' st'. cbn [cs_threads put_thread]. intros [[<- <-]|[? ?]]%lookup_insert_Some; [|by apply H8].
    rewrite Hs. symmetry. by apply bool_decide_eq_false.
  - intros t' Ht'. cbn [cs_threads put_thread]. apply lookup_insert_is_Some'. right. by apply H9.
Qed.

(** Taking and releasing the mutex. *)

Lemma take_lock_inv s t l :
  cinv s -> cs_threads s !! t = Some (TLock l) -> cs_lock s = None ->
  cinv (put_thread (put_lock s (Some t)) t (TLocked l)).
Proof.
  intros H Ht Hn. assert (Hres : reserved s = 0) by (unfold reserved; by rewrite Hn).
  pose proof (cinv_thread _ _ _ H Ht) as Hok.
  destruct H as [H1 H2 H3 H4 H5 H6 H7 H8 H9 H10 H11].
  constructor; cbn [cs_arena cs_lock cs_threads cs_grants put_thread put_lock]; try done.
  - rewrite H5, Hres. unfold reserved. cbn. by rewrite lookup_insert_eq.
  - apply map_Forall_insert_2; done.
  - intros t' st'. intros [[<- <-]|[? Ht']]%lookup_insert_Some; [by rewrite bool_decide_true|].
    rewrite (H8 _ _ Ht'), Hn. rewrite !bool_decide_false by congruence. done.
  - intros t' [= <-]. rewrite lookup_insert_eq. eauto.
Qed.

Lemma release_lock_inv s t st0 st :
  cinv s -> cs_threads s !! t = Some st0 -> in_section st0 = true -> reserved s = 0 ->
  in_section st = false -> thread_ok (bsize s) (length (chunks (cs_arena s))) st ->
  cinv (put_thread (put_lock s None) t st).
Proof.
  intros H Ht Hs0 Hr Hs Hok. pose proof (ci_lock s H t st0 Ht) as Hl. rewrite Hs0 in Hl.
  symmetry in Hl. apply bool_decide_eq_true in Hl.
  destruct H as [H1 H2 H3 H4 H5 H6 H7 H8 H9 H10 H11].
  constructor; cbn [cs_arena cs_lock cs_threads cs_grants put_thread put_lock]; try done.
  - rewrite H5, Hr. done.
  - apply map_Forall_insert_2; done.
  - intros t' st'. intros [[<- <-]|[? Ht']]%lookup_insert_Some; [by rewrite bool_decide_false|].
    rewrite (H8 _ _ Ht'), Hl. rewrite !bool_decide_false by congruence. done.
Qed.

Lemma holder_reserved s t st :
  cinv s -> cs_threads s !! t = Some st -> in_section st = true ->
  reserved s = match st with TPush _ => bsize s | _ => 0 end.
Proof.
  intros H Ht Hs. pose proof (ci_lock s H t st Ht) as Hl. rewrite Hs in Hl.
  symmetry in Hl. apply bool_decide_eq_true in Hl. unfold reserved. by rewrite Hl, Ht.
Qed.

(** The successful compare-and-exchange. *)

Lemma grant_ok_le a a' g : arena_le a a' -> grant_ok a g -> grant_ok a' g.
Proof. intros Hle [? ?]. split; [by eapply ptr_in_le|done]. Qed.

Lemma set_bump_le a c ch n :
  chunks a !! c = Some ch -> ch_bump ch <= n -> arena_le a (set_chunks (alter (set_bump n) c) a).
Proof.
  intros Hc Hn. split; [done|]. intros i x Hx. cbn [chunks set_chunks].
  destruct (decide (i = c)) as [->|].
  - simplify_eq. rewrite list_lookup_alter_eq, Hc. eexists. split; [done|]. by split.
  - rewrite list_lookup_alter_ne by done. eauto using chunk_le_refl.
Qed.

Lemma cas_inv s l c x n ch :
  cinv s -> layout_ok l -> chunks (cs_arena s) !! c = Some ch ->
  fit (bsize s) (ch_bump ch) l = Ok (x, n) ->
  cinv (put_grant (put_arena s (set_chunks (alter (set_bump n) c) (cs_arena s))) ((c, x), l)).
Proof.
  intros H Hl Hc Hf. destruct (cinv_chunk _ _ _ H Hc) as [Hlen Hb].
  apply fit_ok in Hf as (Hx & -> & Hn & Hal); [|done]. pose proof (proj1 Hl).
  pose proof (set_bump_le (cs_arena s) c ch (x + l_size l) Hc ltac:(lia)) as Hle.
  destruct H as [H1 H2 H3 H4 H5 H6 H7 H8 H9 H10 H11].
  constructor; cbn [cs_arena cs_lock cs_threads cs_grants put_grant put_arena policy allocator chunks
    current_chunk allocated_bytes set_chunks]; try done.
  - apply Forall_alter; [done|]. intros ch' ? [? ?]. split; [done|]. cbn. unfold bsize in *. cbn. lia.
  - by rewrite length_alter.
  - unfold len. rewrite length_alter. done.
  - rewrite length_alter. done.
  - constructor; [|by eapply Forall_impl; [done|]; intros; eapply grant_ok_le].
    split; [|done]. exists (set_bump (x + l_size l) ch). cbn [fst snd chunks set_chunks].
    rewrite list_lookup_alter_eq, Hc. unfold Chunk_len in *. cbn. split_and!; try done; lia.
  - constructor; [|done]. eapply Forall_impl; [done|]. intros [[i off] l'] [(ch' & Hch' & Hin) _].
    unfold grants_disjoint, ptr_disjoint. cbn [fst snd] in *.
    destruct (decide (c = i)) as [->|]; [|by left]. simplify_eq. lia.
Qed.

Lemma stat_inv s n : cinv s -> cinv (put_arena s (add_used n (cs_arena s))).
Proof. intros [H1 H2 H3 H4 H5 H6 H7 H8 H9 H10 H11]. by constructor. Qed.

(** Reserving against the cap, and pushing the chunk reserved. *)

Lemma reserve_inv s t l :
  cinv s -> cs_threads s !! t = Some (TLocked l) -> ~ is_full (cs_arena s) ->
  cinv (put_thread (put_arena s (add_allocated (bsize s) (cs_arena s))) t (TPush l)).
Proof.
  intros H Ht Hf. pose proof (holder_reserved _ _ _ H Ht eq_refl) as Hr.
  pose proof (cinv_thread _ _ _ H Ht) as Hok. pose proof (cinv_bs _ H) as Hbs.
  pose proof (ci_lock s H _ _ Ht) as Hl. symmetry in Hl. apply bool_decide_eq_true in Hl.
  destruct (ci_policy s H) as (_ & _ & Hcap). unfold is_full, isize_max in *.
  destruct H as [H1 H2 H3 H4 H5 H6 H7 H8 H9 H10 H11].
  assert (Ew : wrap usize_bits (allocated_bytes (cs_arena s) + bsize s) = allocated_bytes (cs_arena s) + bsize s).
  { pose proof (len_nonneg (chunks (cs_arena s))). apply wrap_small. width. unfold bsize in *. nia. }
  constructor; cbn [cs_arena cs_lock cs_threads cs_grants put_thread put_arena policy allocator chunks
    current_chunk allocated_bytes add_allocated]; try done.
  - rewrite Ew. unfold reserved. cbn. rewrite Hl, lookup_insert_eq. unfold bsize in *. cbn. lia.
  - rewrite Ew. unfold bsize. lia.
  - by apply map_Forall_insert_2.
  - intros t' st' [[<- <-]|[? Ht']]%lookup_insert_Some; [by rewrite Hl, bool_decide_true|by apply H8].
  - intros t' Ht'. apply lookup_insert_is_Some'. right. by apply H9.
Qed.

Lemma push_le heap a : arena_le a (push_chunk heap a).
Proof.
  split; [done|]. intros i c Hc. exists c. split; [|apply chunk_le_refl].
  cbn [chunks push_chunk]. by apply lookup_app_l_Some.
Qed.

Lemma push_inv p s t l :
  cinv s -> cs_threads s !! t = Some (TPush l) ->
  cinv (put_thread (put_lock (put_arena s (push_chunk (SystemAllocator_allocate p (bsize s)) (cs_arena s))) None)
          t (TStart l)).
Proof.
  intros H Ht. pose proof (holder_reserved _ _ _ H Ht eq_refl) as Hr. cbn in Hr.
  pose proof (cinv_thread _ _ _ H Ht) as Hok. pose proof (cinv_bs _ H) as Hbs.
  pose proof (ci_lock s H _ _ Ht) as Hl. symmetry in Hl. apply bool_decide_eq_true in Hl.
  destruct H as [H1 H2 H3 H4 H5 H6 H7 H8 H9 H10 H11].
  constructor; cbn [cs_arena cs_lock cs_threads cs_grants put_thread put_lock put_arena policy allocator chunks
    current_chunk allocated_bytes push_chunk]; try done.
  - apply Forall_app. split; [done|]. constructor; [|constructor]. apply new_chunk_ok. unfold bsize in *. cbn. lia.
  - rewrite length_app. simpl. lia.
  - rewrite H5, Hr, len_app. change (len [_]) with 1. unfold reserved, bsize. cbn. lia.
  - apply map_Forall_insert_2; [done|]. eapply map_Forall_impl; [done|]. intros k st Hst.
    eapply thread_ok_mono; [|exact Hst]. rewrite length_app. lia.
  - intros t' st' [[<- <-]|[? Ht']]%lookup_insert_Some; [by rewrite bool_decide_false|].
    rewrite (H8 _ _ Ht'), Hl. rewrite !bool_decide_false by congruence. done.
  - eapply Forall_impl; [done|]. intros g Hg. eapply grant_ok_le; [apply push_le|done].
Qed.

Lemma cstep_inv p t s s' : cinv s -> cstep p t s s' -> cinv s'.
Proof.
  intros H Hs. destruct Hs as [l Ht Hl Hsz|l Ht|l c ch Ht Hc|l c b x n Ht Hk|l c b e Ht Hk|
    l c b x n ch Ht Hc Hb|l c b x n Ht|l c x Ht|l Ht Hn|l ch r Ht Hc Hk|l ch e Ht Hc Hk Hf|
    l ch e Ht Hc Hk Hf|l heap Ht Ha|r Ht]; try (pose proof (cinv_thread _ _ _ H Ht) as Hok; simpl in Hok).
  - by eapply put_thread_inv.
  - eapply put_thread_inv; try done. destruct Hok. split_and!; try done. apply H.
  - eapply put_thread_inv; try done. destruct Hok as (? & ? & ?). split_and!; try done; by eapply cinv_chunk.
  - eapply put_thread_inv; try done. destruct Hok as (? & ? & ? & ?). rewrite cinv_check in Hk by done.
    injection Hk as Hk. done.
  - eapply put_thread_inv; try done. by destruct Hok as (? & ? & _).
  - destruct Hok as (? & ? & ? & ? & Hf). subst b. pose proof (cas_inv _ _ _ _ _ _ H ltac:(done) Hc Hf) as Hi.
    eapply put_thread_inv; [exact Hi|exact Ht|done|done|]. cbn. by rewrite length_alter.
  - eapply put_thread_inv; try done. by destruct Hok as (? & ? & _).
  - eapply put_thread_inv; [by apply stat_inv|exact Ht|done..].
  - by apply take_lock_inv.
  - eapply release_lock_inv; try done. by rewrite (holder_reserved _ _ _ H Ht eq_refl).
  - eapply release_lock_inv; try done. by rewrite (holder_reserved _ _ _ H Ht eq_refl).
  - by apply reserve_inv.
  - unfold Allocator_allocate in Ha. rewrite (ci_system s H) in Ha. injection Ha as <-. by apply push_inv.
  - by eapply put_thread_inv.
Qed.

Lemma cinit_inv a n : arena_ok a -> cinv (cinit a n).
Proof.
  intros [H1 H2 H3 H4 H5 H6].
  assert (Hidle : forall t st, cs_threads (cinit a n) !! t = Some st -> st = TIdle).
  { intros t st. cbn. intros Hx%elem_of_list_to_map_2. apply list_elem_of_fmap in Hx as (? & [= _ ->] & _). done. }
  constructor; cbn [cinit cs_arena cs_lock cs_grants]; try done.
  - rewrite H4. unfold reserved, bsize. cbn. lia.
  - intros t st Ht. by rewrite (Hidle t st Ht).
  - intros t st Ht. by rewrite (Hidle t st Ht).
  - constructor.
Qed.

Lemma creach_inv p s0 s : cinv s0 -> creach p s0 s -> cinv s.
Proof. intros H0. induction 1; [done|]. by eapply cstep_inv. Qed.

(** Some step is always possible while a call is in progress. *)

Lemma holder_steps p s t st :
  cinv s -> cs_threads s !! t = Some st -> in_section st = true -> exists s', cstep p t s s'.
Proof.
  intros H Ht Hs. pose proof (cinv_thread _ _ _ H Ht) as Hok. destruct st; try done; simpl in Hok.
  - destruct (lookup_lt_is_Some_2 _ _ (ci_current s H)) as [ch Hch].
    destruct (cinv_chunk _ _ _ H Hch) as [_ Hb].
    assert (Hg : Arena_get_chunk (cs_arena s) = Done ch) by (unfold Arena_get_chunk; by rewrite Hch).
    pose proof (cinv_check p s (ch_bump ch) l H (proj1 Hok) Hb) as Hk.
    destruct (fit (bsize s) (ch_bump ch) l).
    + eexists. by eapply c_recheck_ok.
    + destruct (decide (is_full (cs_arena s))); eexists; [by eapply c_full|by eapply c_reserve].
  - eexists. eapply c_push; [done|]. unfold Allocator_allocate. by rewrite (ci_system s H).
Qed.

Lemma thread_steps p s t st :
  cinv s -> cs_threads s !! t = Some st -> st <> TIdle -> exists t' s', cstep p t' s s'.
Proof.
  intros H Ht Hne. pose proof (cinv_thread _ _ _ H Ht) as Hok.
  destruct st as [|l|l c|l c b|l c b x n|l c x|l|l|l|r]; try done; simpl in Hok.
  - do 2 eexists. by apply c_load_chunk.
  - destruct Hok as (_ & _ & Hc). apply lookup_lt_is_Some_2 in Hc as [ch ?].
    do 2 eexists. by eapply c_load_bump.
  - destruct Hok as (Hl & _ & _ & Hb). pose proof (cinv_check p s b l H Hl Hb) as Hk.
    destruct (fit (bsize s) b l) as [[x n]|e]; do 2 eexists; [by eapply c_check_ok|by eapply c_check_err].
  - do 2 eexists. by eapply c_cas_fail.
  - do 2 eexists. by eapply c_stat.
  - destruct (cs_lock s) as [t'|] eqn:Hl.
    + destruct (ci_holder s H t' Hl) as [st' Ht']. pose proof (ci_lock s H _ _ Ht') as Hs.
      rewrite Hl, bool_decide_true in Hs by done. exists t'. by eapply holder_steps.
    + do 2 eexists. by eapply c_lock.
  - exists t. by eapply holder_steps.
  - exists t. by eapply holder_steps.
  - do 2 eexists. by eapply c_return.
Qed.

(** ** Properties *)

(** C22: however the calls of any number of threads interleave, the ranges
    granted so far begin at aligned offsets, lie within their chunk and below
    its bump, and are pairwise disjoint; the memory of the chunks, with a reservation in
    flight, is what [allocated_bytes] says and never exceeds the cap; at most
    one thread is in the critical section; and while a call is unfinished some
    thread can take a step (no deadlock on the mutex). *)
Theorem arena_threads_safe p a n s :
  arena_ok a -> creach p (cinit a n) s ->
  Forall (grant_ok (cs_arena s)) (cs_grants s) /\
  ForallOrdPairs grants_disjoint (cs_grants s) /\
  (bsize s * len (chunks (cs_arena s)) <= allocated_bytes (cs_arena s) <= cap (policy (cs_arena s))) /\
  (forall t1 t2 st1 st2, cs_threads s !! t1 = Some st1 -> cs_threads s !! t2 = Some st2 ->
     in_section st1 = true -> in_section st2 = true -> t1 = t2) /\
  (forall t st, cs_threads s !! t = Some st -> st <> TIdle -> exists t' s', cstep p t' s s').
Proof.
  intros Ha Hr. pose proof (creach_inv _ _ _ (cinit_inv a n Ha) Hr) as H.
  split; [apply H|]. split; [apply H|]. split; [|split].
  - pose proof (reserved_nonneg s H). pose proof (ci_allocated s H). pose proof (ci_cap s H). lia.
  - intros t1 t2 st1 st2 H1 H2 S1 S2. rewrite (ci_lock s H _ _ H1) in S1. rewrite (ci_lock s H _ _ H2) in S2.
    apply bool_decide_eq_true in S1, S2. congruence.
  - intros t st. by apply thread_steps.
Qed.

Lemma arena_threads_safe_witness :
  let s := put_thread (cinit tiny_arena 2) 0 (TStart (mkLayout 3 2)) in
  Forall (grant_ok (cs_arena s)) (cs_grants s) /\
  ForallOrdPairs grants_disjoint (cs_grants s) /\
  (bsize s * len (chunks (cs_arena s)) <= allocated_bytes (cs_arena s) <= cap (policy (cs_arena s))) /\
  (forall t1 t2 st1 st2, cs_threads s !! t1 = Some st1 -> cs_threads s !! t2 = Some st2 ->
     in_section st1 = true -> in_section st2 = true -> t1 = t2) /\
  (forall t st, cs_threads s !! t = Some st -> st <> TIdle -> exists t' s', cstep Debug t' s s').
Proof.
  apply (arena_threads_safe Debug tiny_arena 2); [apply tiny_arena_ok|].
  eapply creach_step; [apply creach_refl|]. apply c_call; [reflexivity|apply layout_3_2_ok|].
  vm_compute. congruence.
Defined.
