(* ===== verification/SkipList.v ===== *)
(** * SkipList: the arena-backed skip list

    Models [utils/skiplists/mem_skip_list.rs].  A node lives at the arena
    pointer its allocation returned; [nodes] maps those pointers to the nodes
    written there, and a null pointer is [None].  A node's towers are lists of
    next pointers, its key and value are the bytes after the tower.  Every
    atomic operation is performed on this store; the definitions are the code
    run by one thread, in which a strong compare-and-exchange succeeds exactly
    when the slot holds the expected pointer. *)

From S2P Require Import Prelude Key Arena.
Local Open Scope Z_scope.

(* @src crates/engine/src/utils/skiplists/mem_skip_list.rs:74-76 MAX_HEAD_HEIGHT *)
Definition MAX_HEAD_HEIGHT : nat := 8.

(* @src crates/engine/src/utils/skiplists/mem_skip_list.rs:56-60 SkipListError *)
Inductive SkipListError := SlLayoutError | SlArena (e : ArenaError).

(** ** Nodes *)

(* @src crates/engine/src/utils/skiplists/mem_skip_list.rs:97-111 Node *)
Record Node := mkNode {
  n_height : nat;
  n_key_len : Z;
  n_value_len : Z;
  n_tower : list (option arena_ptr);
  n_payload : memory
}.

Abbreviation nodes := (gmap arena_ptr Node).

(** [Layout::array] and [Layout::extend]: sizes, with the error beyond
    [isize::MAX]. *)

Definition Layout_array (elem_size elem_align n : Z) : option Layout :=
  if decide (elem_size * n <= isize_max) then Some (mkLayout (elem_size * n) elem_align) else None.

Definition Layout_extend (l next : Layout) : option Layout :=
  let off := round_up (l_size l) (l_align next) in
  if decide (off + l_size next <= isize_max)
  then Some (mkLayout (off + l_size next) (Z.max (l_align l) (l_align next))) else None.

Definition POINTER_SIZE : Z := 8.

(** [Layout::new::<Node>()]: two u16, one u32, and an empty array of pointers. *)

Definition NODE_LAYOUT : Layout := mkLayout 8 POINTER_SIZE.

(** [offset_of!(Node, tower)]. *)

Definition TOWER_OFFSET : Z := 8.

(* @src crates/engine/src/utils/skiplists/mem_skip_list.rs:116-138 Node::build_layout *)
Definition Node_build_layout (height : nat) (key_len value_len : Z) : result Layout SkipListError :=
  match
    (tower ← Layout_array POINTER_SIZE POINTER_SIZE (Z.of_nat height);
     l ← Layout_extend NODE_LAYOUT tower;
     key ← Layout_array 1 1 key_len;
     l ← Layout_extend l key;
     value ← Layout_array 1 1 value_len;
     Layout_extend l value)
  with
  | Some l => Ok l
  | None => Err SlLayoutError
  end.

(* @src crates/engine/src/utils/skiplists/mem_skip_list.rs:140-171 Node::init_node *)
Definition Node_init_node (height : nat) (key_len value_len : Z) : Node :=
  mkNode height key_len value_len (replicate height None)
    (replicate (Z.to_nat (key_len + value_len)) None).

Definition deref (h : nodes) (node : arena_ptr) : outcome Node :=
  match h !! node with
  | Some n => Done n
  | None => UB "dereference of a pointer to no node"
  end.

(** Offsets from the start of a node. *)

(* @src crates/engine/src/utils/skiplists/mem_skip_list.rs:175-182 Node::tower_ptr *)
Definition Node_tower_ptr (n : Node) : Z := TOWER_OFFSET.

(* @src crates/engine/src/utils/skiplists/mem_skip_list.rs:206-213 Node::key_ptr *)
Definition Node_key_ptr (n : Node) : Z := Node_tower_ptr n + Z.of_nat (n_height n) * POINTER_SIZE.

(* @src crates/engine/src/utils/skiplists/mem_skip_list.rs:215-219 Node::value_ptr *)
Definition Node_value_ptr (n : Node) : Z := Node_key_ptr n + n_key_len n.

(* @src crates/engine/src/utils/skiplists/mem_skip_list.rs:193-204 Node::tower_height *)
Definition Node_tower_height (n : Node) : Z := (Node_key_ptr n - Node_tower_ptr n) / POINTER_SIZE.

(** Bytes of a node from an offset on, read and written; its allocation ends
    with its payload. *)

Definition node_read (n : Node) (off count : Z) : outcome bytes :=
  let i := off - Node_key_ptr n in
  if decide (0 <= i /\ 0 <= count /\ i + count <= len (n_payload n))
  then match mapM id (take (Z.to_nat count) (drop (Z.to_nat i) (n_payload n))) with
       | Some bs => Done bs
       | None => UB "uninitialised memory"
       end
  else UB "read past the node's allocation".

Definition node_write (n : Node) (off : Z) (bs : bytes) : outcome Node :=
  let i := off - Node_key_ptr n in
  if decide (0 <= i /\ i + len bs <= len (n_payload n))
  then Done (mkNode (n_height n) (n_key_len n) (n_value_len n) (n_tower n)
               (splice i (Some <$> bs) (n_payload n)))
  else UB "write past the node's allocation".

(* @src crates/engine/src/utils/skiplists/mem_skip_list.rs:236-238 Node::get_key_bytes *)
Definition Node_get_key_bytes (h : nodes) (node : arena_ptr) : outcome bytes :=
  n ← deref h node; node_read n (Node_key_ptr n) (n_key_len n).

(* @src crates/engine/src/utils/skiplists/mem_skip_list.rs:240-242 Node::get_value_bytes *)
Definition Node_get_value_bytes (h : nodes) (node : arena_ptr) : outcome bytes :=
  n ← deref h node; node_read n (Node_value_ptr n) (n_value_len n).

(** The address of a tower slot. *)

Abbreviation slot := (arena_ptr * nat)%type.

(* @src crates/engine/src/utils/skiplists/mem_skip_list.rs:184-191 Node::node_at_tower_level *)
Definition Node_node_at_tower_level (p : profile) (h : nodes) (node : arena_ptr) (index : nat)
  : outcome slot :=
  match p with
  | Debug => n ← deref h node;
             _ ← rust_assert (index <? n_height n)%nat "index < (*node).height as usize";
             Done (node, index)
  | Release => Done (node, index)
  end.

(* @src crates/engine/src/utils/skiplists/mem_skip_list.rs:249-252 Node::next *)
Definition Node_next (p : profile) (h : nodes) (node : arena_ptr) (level : nat) : outcome slot :=
  _ ← debug_assert p (level <? MAX_HEAD_HEIGHT)%nat "level < MAX_HEAD_HEIGHT";
  Node_node_at_tower_level p h node level.

(** The address of a slot is computed from a non-null node pointer. *)

Definition slot_is_null (s : slot) : bool := false.

Definition slot_load (h : nodes) (s : slot) : outcome (option arena_ptr) :=
  n ← deref h s.1;
  match n_tower n !! s.2 with
  | Some v => Done v
  | None => UB "tower slot out of bounds"
  end.

Definition set_slot (s : slot) (v : option arena_ptr) (h : nodes) : nodes :=
  alter (fun n => mkNode (n_height n) (n_key_len n) (n_value_len n) (<[s.2 := v]> (n_tower n)) (n_payload n)) s.1 h.

Definition slot_store (h : nodes) (s : slot) (v : option arena_ptr) : outcome nodes :=
  _ ← slot_load h s; Done (set_slot s v h).

(** [compare_exchange]: the new store and whether it succeeded. *)

Definition slot_cas (h : nodes) (s : slot) (expected new : option arena_ptr) : outcome (nodes * bool) :=
  cur ← slot_load h s;
  Done (if decide (cur = expected) then (set_slot s new h, true) else (h, false)).

(* @src crates/engine/src/utils/skiplists/mem_skip_list.rs:244-247 Node::load_next *)
Definition Node_load_next (p : profile) (h : nodes) (node : arena_ptr) (level : nat)
  : outcome (option arena_ptr) :=
  _ ← debug_assert p (level <? MAX_HEAD_HEIGHT)%nat "level < MAX_HEAD_HEIGHT";
  s ← Node_next p h node level; slot_load h s.

(** The arena and the nodes written in it. *)

Record SlStore := mkStore { st_arena : Arena; st_nodes : nodes }.

(* @src crates/engine/src/utils/skiplists/mem_skip_list.rs:221-234 Node::alloc *)
Definition Node_alloc (p : profile) (st : SlStore) (height : nat) (key_len value_len : Z)
  : outcome (SlStore * arena_ptr) :=
  _ ← debug_assert p (height <=? MAX_HEAD_HEIGHT)%nat "height as usize <= MAX_HEAD_HEIGHT";
  match Node_build_layout height key_len value_len with
  | Ok layout =>
      '(a, ptr) ← Arena_alloc_raw p (st_arena st) layout;
      Done (mkStore a (<[ptr := Node_init_node height key_len value_len]> (st_nodes st)), ptr)
  | Err _ => Panic "Layout failed"
  end.

(** Writing through a node pointer ([ptr::copy_nonoverlapping]). *)

Definition write_node (st : SlStore) (node : arena_ptr) (off : Node -> Z) (bs : bytes) : outcome SlStore :=
  n ← deref (st_nodes st) node;
  n' ← node_write n (off n) bs;
  Done (mkStore (st_arena st) (<[node := n']> (st_nodes st))).

(** ** The list *)

(* @src crates/engine/src/utils/skiplists/mem_skip_list.rs:300-318 TraversalCtx *)
Record TraversalCtx := mkCtx {
  searched_node : option arena_ptr;
  predecessors : list (option arena_ptr);
  successors : list (option arena_ptr)
}.

(* @src crates/engine/src/utils/skiplists/mem_skip_list.rs:320-324 TraversalCtx::default *)
Definition TraversalCtx_default : TraversalCtx :=
  mkCtx None (replicate MAX_HEAD_HEIGHT None) (replicate MAX_HEAD_HEIGHT None).

(** The list header and the counters ([Header] and [Data]). *)

(* @src crates/engine/src/utils/skiplists/mem_skip_list.rs:326-336 SkipList *)
Record SkipList := mkSkipList {
  sl_sentinel : arena_ptr;
  sl_seed : Z;
  sl_entries : Z;
  sl_max_level : nat
}.

(* @src crates/engine/src/utils/skiplists/mem_skip_list.rs:290-298 Data::default *)
Definition Data_default (sentinel : arena_ptr) : SkipList := mkSkipList sentinel 0 0 MAX_HEAD_HEIGHT.

Definition set_seed (z : Z) (s : SkipList) : SkipList :=
  mkSkipList (sl_sentinel s) z (sl_entries s) (sl_max_level s).
Definition set_entries (z : Z) (s : SkipList) : SkipList :=
  mkSkipList (sl_sentinel s) (sl_seed s) z (sl_max_level s).
Definition set_max_level (z : nat) (s : SkipList) : SkipList :=
  mkSkipList (sl_sentinel s) (sl_seed s) (sl_entries s) z.

(* @src crates/engine/src/utils/skiplists/mem_skip_list.rs:385-395 SkipList::seed_generator *)
Definition seed_generator (seed : Z) : Z :=
  let x := seed in
  let x := wrap 64 (x + 0x9E3779B97F4A7C15) in
  let x := wrap 64 (Z.lxor x (Z.shiftr x 30) * 0xBF58476D1CE4E5B9) in
  let x := wrap 64 (Z.lxor x (Z.shiftr x 27) * 0x94D049BB133111EB) in
  let x := Z.lxor x (Z.shiftr x 31) in
  x.

(* @src crates/engine/src/utils/skiplists/mem_skip_list.rs:83-95 Header::new *)
Definition Header_new (p : profile) (st : SlStore) : outcome (SlStore * arena_ptr) :=
  Node_alloc p st MAX_HEAD_HEIGHT 0 0.

(* @src crates/engine/src/utils/skiplists/mem_skip_list.rs:365-379 SkipList::new *)
Definition SkipList_new (p : profile) (st : SlStore) : outcome (SlStore * SkipList) :=
  '(st, sentinel) ← Header_new p st;
  Done (st, mkSkipList sentinel (seed_generator 1) 0 1).

(* @src crates/engine/src/utils/skiplists/mem_skip_list.rs:381-383 SkipList::head *)
Definition SkipList_head (s : SkipList) : arena_ptr := sl_sentinel s.

Definition xorshift (x : Z) : Z :=
  let x := Z.lxor x (wrap 64 (Z.shiftl x 12)) in
  let x := Z.lxor x (Z.shiftr x 25) in
  let x := Z.lxor x (wrap 64 (Z.shiftl x 27)) in
  x.

(** The height-reduction loop; the height is the decreasing measure. *)

(* @src crates/engine/src/utils/skiplists/mem_skip_list.rs:411-420 SkipList::generate_random_level *)
Fixpoint reduce_height (p : profile) (h : nodes) (sentinel : arena_ptr) (height : nat) : outcome nat :=
  match height with
  | S height' =>
      if (4 <=? height)%nat then
        head ← Node_next p h sentinel (height - 2);
        if slot_is_null head then Done height
        else reduce_height p h sentinel height'
      else Done height
  | O => Done height
  end.

(* @src crates/engine/src/utils/skiplists/mem_skip_list.rs:397-436 SkipList::generate_random_level *)
Definition generate_random_level (p : profile) (h : nodes) (s : SkipList) : outcome (SkipList * nat) :=
  let starting_num := xorshift (sl_seed s) in
  let s := set_seed starting_num s in
  let height := Nat.min MAX_HEAD_HEIGHT (trailing_zeros starting_num + 1) in
  height ← reduce_height p h (sl_sentinel s) height;
  let s := if (sl_max_level s <? height)%nat then set_max_level height s else s in
  Done (s, height).

Section Ordered.
Context {C : Comparator}.

(** ** Search *)

(** Skips the levels without a node. *)

(* @src crates/engine/src/utils/skiplists/mem_skip_list.rs:451-456 SkipList::search *)
Fixpoint skip_empty_levels (p : profile) (h : nodes) (sentinel : arena_ptr) (level : nat) : outcome nat :=
  match level with
  | O => Done O
  | S l =>
      next ← Node_load_next p h sentinel l;
      match next with
      | None => skip_empty_levels p h sentinel l
      | Some _ => Done level
      end
  end.

(** Moves right on one level. *)

(* @src crates/engine/src/utils/skiplists/mem_skip_list.rs:468-490 SkipList::search *)
Fixpoint walk_right (fuel : nat) (p : profile) (h : nodes) (level : nat) (key : bytes)
    (pred : arena_ptr) (curr : option arena_ptr) (found : option arena_ptr)
  : outcome (arena_ptr * option arena_ptr * option arena_ptr) :=
  match fuel with
  | O => NoFuel
  | S fuel =>
      match curr with
      | None => Done (pred, None, found)
      | Some c =>
          node_key ← Node_get_key_bytes h c;
          ord ← compare p node_key key;
          match ord with
          | Lt => next ← Node_load_next p h c level;
                  walk_right fuel p h level key c next found
          | Eq => Done (pred, curr, Some c)
          | Gt => Done (pred, curr, found)
          end
      end
  end.

(** Every node is visited at most once on a level. *)

Definition walk_fuel (h : nodes) : nat := S (size h).

(* @src crates/engine/src/utils/skiplists/mem_skip_list.rs:462-495 SkipList::search *)
Fixpoint descend (p : profile) (h : nodes) (key : bytes) (level : nat) (pred : arena_ptr)
    (t : TraversalCtx) : outcome TraversalCtx :=
  match level with
  | O => Done t
  | S l =>
      curr ← Node_load_next p h pred l;
      '(pred, curr, found) ← walk_right (walk_fuel h) p h l key pred curr (searched_node t);
      descend p h key l pred
        (mkCtx found (<[l := Some pred]> (predecessors t)) (<[l := curr]> (successors t)))
  end.

(* @src crates/engine/src/utils/skiplists/mem_skip_list.rs:438-460 SkipList::search *)
Definition search (p : profile) (h : nodes) (s : SkipList) (key : bytes) : outcome TraversalCtx :=
  let t := TraversalCtx_default in
  let t := mkCtx (searched_node t) (replicate MAX_HEAD_HEIGHT (Some (sl_sentinel s))) (successors t) in
  level ← skip_empty_levels p h (sl_sentinel s) (sl_max_level s);
  descend p h key level (sl_sentinel s) t.

(** [array[i]] on the traversal's arrays. *)

Definition ctx_at (l : list (option arena_ptr)) (i : nat) : outcome (option arena_ptr) :=
  match l !! i with
  | Some v => Done v
  | None => Panic "index out of bounds"
  end.

(* @src crates/engine/src/utils/skiplists/mem_skip_list.rs:498-502 SkipList::search_node *)
Definition search_node (p : profile) (h : nodes) (s : SkipList) (key : bytes) : outcome (option arena_ptr) :=
  t ← search p h s key; ctx_at (successors t) 0.

(* @src crates/engine/src/utils/skiplists/mem_skip_list.rs:504-506 SkipList::load_next *)
Definition SkipList_load_next (p : profile) (h : nodes) (current : arena_ptr) : outcome (option arena_ptr) :=
  Node_load_next p h current 0.

(* @src crates/engine/src/utils/skiplists/mem_skip_list.rs:508-510 SkipList::first_node *)
Definition first_node (p : profile) (h : nodes) (s : SkipList) : outcome (option arena_ptr) :=
  Node_load_next p h (SkipList_head s) 0.

(** ** Insertion *)

Definition non_null (o : option arena_ptr) : outcome arena_ptr :=
  match o with Some x => Done x | None => UB "null pointer" end.

(** One attempt to link [node] at [level] between the neighbours of [t]. *)

(* @src crates/engine/src/utils/skiplists/mem_skip_list.rs:576-598 SkipList::insert *)
Definition link_once (p : profile) (h : nodes) (t : TraversalCtx) (node : arena_ptr) (level : nat)
  : outcome (nodes * bool) :=
  succ ← ctx_at (successors t) level;
  h ← match succ with
      | Some _ => s ← Node_next p h node level; slot_store h s succ
      | None => Done h
      end;
  pr ← ctx_at (predecessors t) level;
  pr ← non_null pr;
  pred ← Node_next p h pr level;
  slot_cas h pred succ (Some node).

(** The base-level loop: links the node, or stops at a node with the same key
    found by the search after a failed exchange. *)

(* @src crates/engine/src/utils/skiplists/mem_skip_list.rs:539-571 SkipList::insert *)
Fixpoint link_base (fuel : nat) (p : profile) (h : nodes) (s : SkipList) (key : bytes)
    (t : TraversalCtx) (node : arena_ptr) : outcome (nodes * (arena_ptr + TraversalCtx)) :=
  match fuel with
  | O => NoFuel
  | S fuel =>
      '(h, ok) ← link_once p h t node 0;
      if (ok : bool) then Done (h, inr t)
      else
        t ← search p h s key;
        match searched_node t with
        | Some other => Done (h, inl other)
        | None => link_base fuel p h s key t node
        end
  end.

(* @src crates/engine/src/utils/skiplists/mem_skip_list.rs:576-603 SkipList::insert *)
Fixpoint link_level (fuel : nat) (p : profile) (h : nodes) (s : SkipList) (key : bytes)
    (t : TraversalCtx) (node : arena_ptr) (level : nat) : outcome (nodes * TraversalCtx) :=
  match fuel with
  | O => NoFuel
  | S fuel =>
      '(h, ok) ← link_once p h t node level;
      if (ok : bool) then Done (h, t)
      else t ← search p h s key; link_level fuel p h s key t node level
  end.

Definition LINK_FUEL : nat := 2.

(** [for level in 1..height]; [count] levels are left. *)

(* @src crates/engine/src/utils/skiplists/mem_skip_list.rs:573-605 SkipList::insert *)
Fixpoint link_levels (count : nat) (p : profile) (h : nodes) (s : SkipList) (key : bytes)
    (t : TraversalCtx) (node : arena_ptr) (level : nat) : outcome nodes :=
  match count with
  | O => Done h
  | S count =>
      '(h, t) ← link_level LINK_FUEL p h s key t node level;
      link_levels count p h s key t node (S level)
  end.

(** From the base-level loop to the end, which both insertions share. *)

(* @src crates/engine/src/utils/skiplists/mem_skip_list.rs:647-713 SkipList::insert_with *)
Definition link_node (p : profile) (st : SlStore) (s : SkipList) (key : bytes) (t : TraversalCtx)
    (node : arena_ptr) (height : nat) : outcome (SlStore * SkipList * arena_ptr) :=
  '(h, r) ← link_base LINK_FUEL p (st_nodes st) s key t node;
  match r with
  | inl other => Done (mkStore (st_arena st) h, s, other)
  | inr t =>
      h ← link_levels (height - 1) p h s key t node 1;
      Done (mkStore (st_arena st) h, s, node)
  end.

(** The counter, the height and the node that both insertions start from. *)

Definition new_node (p : profile) (st : SlStore) (s : SkipList) (key_len value_len : Z)
  : outcome (SlStore * SkipList * arena_ptr * nat) :=
  let s := set_entries (wrap usize_bits (sl_entries s + 1)) s in
  '(s, height) ← generate_random_level p (st_nodes st) s;
  _ ← debug_assert p (height <=? MAX_HEAD_HEIGHT)%nat "height <= MAX_HEAD_HEIGHT";
  _ ← debug_assert p (Z.of_nat height <=? u_max 16) "height <= u16::MAX as usize";
  '(st, node) ← Node_alloc p st height (wrap 16 key_len) (wrap 32 value_len);
  Done (st, s, node, height).

(* @src crates/engine/src/utils/skiplists/mem_skip_list.rs:512-606 SkipList::insert *)
Definition insert (p : profile) (st : SlStore) (s : SkipList) (key value : bytes)
  : outcome (SlStore * SkipList * arena_ptr) :=
  t ← search p (st_nodes st) s key;
  match searched_node t with
  | Some node => Done (st, s, node)
  | None =>
      '(st, s, node, height) ← new_node p st s (len key) (len value);
      st ← write_node st node Node_key_ptr key;
      st ← write_node st node Node_value_ptr value;
      link_node p st s key t node height
  end.

(** [f] writes the key through the pointer to the allocated node. *)

(* @src crates/engine/src/utils/skiplists/mem_skip_list.rs:608-646 SkipList::insert_with *)
Definition insert_with (p : profile) (st : SlStore) (s : SkipList) (key_len : Z) (value : bytes)
    (f : SlStore -> arena_ptr -> outcome SlStore) : outcome (SlStore * SkipList * arena_ptr) :=
  '(st, s, node, height) ← new_node p st s key_len (len value);
  st ← f st node;
  st ← write_node st node Node_value_ptr value;
  key ← Node_get_key_bytes (st_nodes st) node;
  t ← search p (st_nodes st) s key;
  match searched_node t with
  | Some other => Done (st, s, other)
  | None => link_node p st s key t node height
  end.

(** ** Iteration *)

(* @src crates/engine/src/utils/skiplists/mem_skip_list.rs:760-774 Iter *)
Record Iter := mkIter { item : option arena_ptr }.

(* @src crates/engine/src/utils/skiplists/mem_skip_list.rs:776-790 Iter::next *)
Definition Iter_next (p : profile) (h : nodes) (it : Iter) : outcome (Iter * option arena_ptr) :=
  match item it with
  | None => Done (it, None)
  | Some node => next ← Node_load_next p h node 0; Done (mkIter next, Some node)
  end.

(* @src crates/engine/src/utils/skiplists/mem_skip_list.rs:716-719 SkipList::iter *)
Definition SkipList_iter (p : profile) (h : nodes) (s : SkipList) : outcome Iter :=
  first ← Node_load_next p h (SkipList_head s) 0; Done (mkIter first).

(* @src crates/engine/src/utils/skiplists/mem_skip_list.rs:721-735 SkipList::seek *)
Definition SkipList_seek (p : profile) (h : nodes) (s : SkipList) (key : bytes) : outcome Iter :=
  ctx ← search p h s key;
  match searched_node ctx with
  | Some node => Done (mkIter (Some node))
  | None => succ ← ctx_at (successors ctx) 0; Done (mkIter succ)
  end.

(** [std::ops::Bound]. *)

Inductive Bound := Included (k : bytes) | Excluded (k : bytes) | Unbounded.

(* @src crates/engine/src/utils/skiplists/mem_skip_list.rs:792-795 RangeIter *)
Record RangeIter := mkRangeIter { ri_start : option arena_ptr; end_bound : Bound }.

(* @src crates/engine/src/utils/skiplists/mem_skip_list.rs:737-757 SkipList::range *)
Definition SkipList_range (p : profile) (h : nodes) (s : SkipList) (start_bound end_bound : Bound)
  : outcome RangeIter :=
  start ← match start_bound with
          | Excluded k => SkipList_seek p h s k
          | Included k => SkipList_seek p h s k
          | Unbounded => SkipList_iter p h s
          end;
  Done (mkRangeIter (item start) end_bound).

(** [key >= bound] and [key > bound] are comparisons of byte slices. *)

(* @src crates/engine/src/utils/skiplists/mem_skip_list.rs:797-820 RangeIter::next *)
Definition RangeIter_next (p : profile) (h : nodes) (it : RangeIter)
  : outcome (RangeIter * option arena_ptr) :=
  match ri_start it with
  | None => Done (it, None)
  | Some node =>
      key ← Node_get_key_bytes h node;
      let stop := match end_bound it with
                  | Excluded bound => match bytes_cmp key bound with Lt => false | _ => true end
                  | Included bound => match bytes_cmp key bound with Gt => true | _ => false end
                  | Unbounded => false
                  end in
      if stop then Done (it, None)
      else next ← Node_load_next p h node 0; Done (mkRangeIter next (end_bound it), Some node)
  end.

(** Running an iterator to its end. *)

Fixpoint Iter_collect (fuel : nat) (p : profile) (h : nodes) (it : Iter) : outcome (list arena_ptr) :=
  match fuel with
  | O => NoFuel
  | S fuel =>
      '(it, r) ← Iter_next p h it;
      match r with
      | None => Done []
      | Some node => rest ← Iter_collect fuel p h it; Done (node :: rest)
      end
  end.

Fixpoint RangeIter_collect (fuel : nat) (p : profile) (h : nodes) (it : RangeIter)
  : outcome (list arena_ptr) :=
  match fuel with
  | O => NoFuel
  | S fuel =>
      '(it, r) ← RangeIter_next p h it;
      match r with
      | None => Done []
      | Some node => rest ← RangeIter_collect fuel p h it; Done (node :: rest)
      end
  end.

End Ordered.
