(* ===== verification/SkipListSpec.v ===== *)
(** * SkipListSpec: what the skip list guarantees

    The representation invariant of the list ([sl_inv]: on every level the
    chain of next pointers from the sentinel is the sorted list of the nodes
    tall enough for that level), and, against any comparator that satisfies
    its interface, the correctness of search, both insertions, iteration and
    range iteration. *)

From Stdlib Require Import Sorted.
From stdpp Require Import sorting.
From S2P Require Import Prelude Key Arena SkipList.
Local Open Scope Z_scope.

(** ** Nodes and chains *)

Definition nxt (h : nodes) (q : arena_ptr) (l : nat) : option (option arena_ptr) :=
  n ← h !! q; n_tower n !! l.

Definition payload_bytes (n : Node) : bytes := default [] (mapM id (n_payload n)).
Definition node_key (n : Node) : bytes := take (Z.to_nat (n_key_len n)) (payload_bytes n).
Definition node_value (n : Node) : bytes := drop (Z.to_nat (n_key_len n)) (payload_bytes n).

Definition height_of (h : nodes) (q : arena_ptr) : nat := from_option n_height 0%nat (h !! q).
Definition key_of (h : nodes) (q : arena_ptr) : bytes := from_option node_key [] (h !! q).
Definition value_of (h : nodes) (q : arena_ptr) : bytes := from_option node_value [] (h !! q).

(** A node whose key and value have been written. *)

Definition written (n : Node) : Prop :=
  exists k v, n_payload n = Some <$> (k ++ v) /\ n_key_len n = len k /\ n_value_len n = len v.

Definition towers_ok (h : nodes) : Prop :=
  map_Forall (fun _ n => length (n_tower n) = n_height n) h.

Definition readable (h : nodes) (q : arena_ptr) : Prop := exists n, h !! q = Some n /\ written n.

(** The next pointers of level [l] starting at [p] visit exactly [L]. *)

Fixpoint chain (h : nodes) (l : nat) (p : arena_ptr) (L : list arena_ptr) : Prop :=
  match L with
  | [] => nxt h p l = Some None
  | q :: L => nxt h p l = Some (Some q) /\ chain h l q L
  end.


Lemma mapM_id_fmap_Some (bs : bytes) : mapM id (Some <$> bs) = Some bs.
Proof. apply mapM_id_Some_fmap. Qed.

Lemma node_read_written n k v off count bs :
  n_payload n = Some <$> (k ++ v) ->
  (off = Node_key_ptr n /\ bs = k \/ off = Node_key_ptr n + len k /\ bs = v) -> count = len bs ->
  node_read n off count = Done bs.
Proof.
  intros Hp Hoff ->. unfold node_read. rewrite Hp.
  assert (El : len (Some <$> (k ++ v)) = len k + len v) by (by rewrite len_Some_fmap, len_app).
  pose proof (len_nonneg k). pose proof (len_nonneg v). destruct Hoff as [[-> ->]|[-> ->]].
  - rewrite Z.sub_diag, decide_True by lia. change (Z.to_nat 0) with 0%nat.
    rewrite drop_0, fmap_app. unfold len. rewrite Nat2Z.id, take_app_le by (by rewrite length_fmap).
    rewrite take_ge by (by rewrite length_fmap). by rewrite mapM_id_fmap_Some.
  - replace (Node_key_ptr n + len k - Node_key_ptr n) with (len k) by lia. rewrite decide_True by lia.
    rewrite fmap_app. unfold len. rewrite !Nat2Z.id, drop_app_ge by (by rewrite length_fmap).
    rewrite length_fmap, Nat.sub_diag, drop_0, take_ge by (by rewrite length_fmap).
    by rewrite mapM_id_fmap_Some.
Qed.

Lemma payload_bytes_written n bs : n_payload n = Some <$> bs -> payload_bytes n = bs.
Proof. intros H. unfold payload_bytes. by rewrite H, mapM_id_fmap_Some. Qed.

Lemma written_key n k v :
  n_payload n = Some <$> (k ++ v) -> n_key_len n = len k -> node_key n = k /\ node_value n = v.
Proof.
  intros Hp Hk. unfold node_key, node_value. rewrite (payload_bytes_written _ _ Hp), Hk.
  unfold len. by rewrite Nat2Z.id, take_app_length, drop_app_length.
Qed.

Lemma get_key_bytes_done h q : readable h q -> Node_get_key_bytes h q = Done (key_of h q).
Proof.
  intros (n & Hn & k & v & Hp & Hk & Hv). unfold Node_get_key_bytes, deref, key_of. rewrite Hn.
  cbn [mbind outcome_bind from_option]. rewrite (node_read_written _ k v _ _ k); [|done|by left|done].
  by destruct (written_key n k v Hp Hk) as [-> _].
Qed.

Lemma get_value_bytes_done h q : readable h q -> Node_get_value_bytes h q = Done (value_of h q).
Proof.
  intros (n & Hn & k & v & Hp & Hk & Hv). unfold Node_get_value_bytes, deref, value_of. rewrite Hn.
  cbn [mbind outcome_bind from_option]. unfold Node_value_ptr.
  rewrite (node_read_written _ k v _ _ v); [|done|right; by rewrite Hk|done].
  by destruct (written_key n k v Hp Hk) as [_ ->].
Qed.

Lemma nxt_level h q l v : towers_ok h -> nxt h q l = Some v -> exists n, h !! q = Some n /\ (l < n_height n)%nat.
Proof.
  intros Ht H. unfold nxt in H. destruct (h !! q) as [n|] eqn:Hn; [|done]. cbn in H.
  exists n. split; [done|]. rewrite <- (Ht q n Hn). by eapply lookup_lt_Some.
Qed.

Lemma slot_load_done h q l v : nxt h q l = Some v -> slot_load h (q, l) = Done v.
Proof.
  unfold nxt, slot_load, deref. cbn [fst snd]. destruct (h !! q) as [n|]; [|done]. cbn. by intros ->.
Qed.

Lemma Node_next_done p h q l v :
  towers_ok h -> (l < MAX_HEAD_HEIGHT)%nat -> nxt h q l = Some v -> Node_next p h q l = Done (q, l).
Proof.
  intros Ht Hl H. destruct (nxt_level _ _ _ _ Ht H) as (n & Hn & Hlt). unfold Node_next.
  rewrite debug_assert_true by by apply Nat.ltb_lt. cbn [mbind outcome_bind].
  unfold Node_node_at_tower_level, deref. destruct p; [|done]. rewrite Hn. cbn [mbind outcome_bind].
  by rewrite rust_assert_true by by apply Nat.ltb_lt.
Qed.

Lemma load_next_done p h q l v :
  towers_ok h -> (l < MAX_HEAD_HEIGHT)%nat -> nxt h q l = Some v -> Node_load_next p h q l = Done v.
Proof.
  intros Ht Hl H. unfold Node_load_next.
  rewrite debug_assert_true by by apply Nat.ltb_lt. cbn [mbind outcome_bind].
  erewrite Node_next_done by done. cbn [mbind outcome_bind]. by apply slot_load_done.
Qed.

Lemma chain_nxt h l p L : chain h l p L -> nxt h p l = Some (head L).
Proof. destruct L; simpl; [done|]. by intros [? _]. Qed.


(** The chain continues from any node on it. *)

Lemma chain_from h l p X q Y : chain h l p (X ++ q :: Y) -> chain h l q Y.
Proof. revert p. induction X as [|x X IH]; intros p; simpl; [tauto|]. intros [_ H]. eauto. Qed.

Lemma chain_last h l p A B : chain h l p (A ++ B) -> chain h l (last_or p A) B.
Proof.
  induction A as [|x A _] using rev_ind; [done|]. rewrite <- app_assoc. simpl.
  intros H%chain_from. unfold last_or. by rewrite last_snoc.
Qed.

Section Spec.
Context {C : Comparator} {valid : bytes -> Prop} {CO : ComparatorOk C valid}.

Implicit Types (h : nodes) (L : list arena_ptr) (q : arena_ptr) (k : bytes).

(** ** The invariant *)

Definition node_ok (h : nodes) (q : arena_ptr) : Prop :=
  readable h q /\ valid (key_of h q) /\ (1 <= height_of h q <= MAX_HEAD_HEIGHT)%nat.

Definition key_lt (h : nodes) (a b : arena_ptr) : Prop := key_cmp (key_of h a) (key_of h b) = Lt.

(** The nodes of [L] present on level [l]. *)

Definition lvl (h : nodes) (l : nat) (L : list arena_ptr) : list arena_ptr :=
  filter (fun q => (l < height_of h q)%nat) L.

(** The bytes a node occupies. *)

Definition node_size (n : Node) : Z := 8 + 8 * Z.of_nat (n_height n) + len (n_payload n).

Record heap_ok (a : Arena) (h : nodes) : Prop := mkHeapOk {
  ho_arena : arena_ok a;
  ho_towers : towers_ok h;
  ho_ptrs : map_Forall (fun q n => ptr_in a q (node_size n)) h
}.

Record sl_inv (st : SlStore) (s : SkipList) (L : list arena_ptr) : Prop := mkSlInv {
  si_heap : heap_ok (st_arena st) (st_nodes st);
  si_head : height_of (st_nodes st) (sl_sentinel s) = MAX_HEAD_HEIGHT /\ sl_sentinel s ∉ L;
  si_nodes : Forall (node_ok (st_nodes st)) L;
  si_chains : forall l, (l < MAX_HEAD_HEIGHT)%nat -> chain (st_nodes st) l (sl_sentinel s) (lvl (st_nodes st) l L);
  si_sorted : StronglySorted (key_lt (st_nodes st)) L;
  si_max : (1 <= sl_max_level s <= MAX_HEAD_HEIGHT)%nat;
  si_heights : Forall (fun q => (height_of (st_nodes st) q <= sl_max_level s)%nat) L
}.

(** ** Splitting at a key *)

Definition below (h : nodes) (k : bytes) (q : arena_ptr) : Prop := key_cmp (key_of h q) k = Lt.
#[local] Instance below_dec h k q : Decision (below h k q).
Proof. unfold below. apply _. Defined.

Definition lo (h : nodes) (k : bytes) (L : list arena_ptr) : list arena_ptr := filter (below h k) L.
Definition hi (h : nodes) (k : bytes) (L : list arena_ptr) : list arena_ptr := filter (fun q => ~ below h k q) L.

Definition is_key (h : nodes) (k : bytes) (q : arena_ptr) : bool := cmp_eq (key_cmp (key_of h q) k).

(** The node holding [k] exactly, if any. *)

Definition exact (h : nodes) (k : bytes) (L : list arena_ptr) : option arena_ptr :=
  match head (hi h k L) with
  | Some q => if is_key h k q then Some q else None
  | None => None
  end.

Lemma key_lt_below h k a b :
  valid (key_of h a) -> valid (key_of h b) -> valid k ->
  key_lt h a b -> below h k b -> below h k a.
Proof. unfold key_lt, below. intros. by eapply (key_cmp_trans _ (key_of h b)). Qed.

Lemma lo_hi h k L :
  valid k -> Forall (fun q => valid (key_of h q)) L -> StronglySorted (key_lt h) L ->
  L = lo h k L ++ hi h k L.
Proof.
  intros Hk Hv Hs. induction Hs as [|q L Hs IH Hq]; [done|].
  apply Forall_cons in Hv as [Hvq HvL]. unfold lo, hi. rewrite !filter_cons.
  destruct (decide (below h k q)) as [Hb|Hb].
  - rewrite decide_False by tauto. simpl. f_equal. by apply IH.
  - rewrite decide_True by done.
    assert (Hn : Forall (fun x => ~ below h k x) L).
    { apply Forall_forall. intros x Hx Hbx. apply Hb.
      rewrite Forall_forall in Hq, HvL.
      exact (key_lt_below h k q x Hvq (HvL x Hx) Hk (Hq x Hx) Hbx). }
    rewrite list_filter_none, list_filter_all by done. done.
Qed.

Lemma StronglySorted_filter_lt h (P : arena_ptr -> Prop) `{!forall q, Decision (P q)} L :
  StronglySorted (key_lt h) L -> StronglySorted (key_lt h) (filter P L).
Proof.
  induction 1 as [|q L Hs IH Hq]; [constructor|]. rewrite filter_cons. case_decide; [|done].
  constructor; [done|]. apply Forall_forall. intros x Hx. apply list_elem_of_filter in Hx as [_ Hx].
  rewrite Forall_forall in Hq. auto.
Qed.

Lemma exact_spec h k L q :
  valid k -> Forall (fun q => valid (key_of h q)) L -> StronglySorted (key_lt h) L ->
  exact h k L = Some q <-> q ∈ L /\ key_of h q = k.
Proof.
  intros Hk Hv Hs. pose proof (lo_hi h k L Hk Hv Hs) as HL. unfold exact. rewrite Forall_forall in Hv.
  assert (Hin : forall x, x ∈ hi h k L -> x ∈ L) by (intros x Hx; apply list_elem_of_filter in Hx; tauto).
  split.
  - destruct (hi h k L) as [|x B] eqn:E; simpl; [done|]. unfold is_key.
    destruct (key_cmp (key_of h x) k) eqn:Ek; simpl; try done. intros [= <-].
    assert (x ∈ L) by (apply Hin; left). split; [done|]. apply key_cmp_eq in Ek; auto.
  - intros [Hq <-]. assert (Hh : q ∈ hi h (key_of h q) L).
    { apply list_elem_of_filter. split; [|done]. unfold below.
      assert (key_cmp (key_of h q) (key_of h q) = Eq) as -> by (apply key_cmp_eq; auto). done. }
    pose proof (StronglySorted_filter_lt h (fun x => ~ below h (key_of h q) x) L Hs) as Hsf.
    fold (hi h (key_of h q) L) in Hsf. destruct (hi h (key_of h q) L) as [|x B] eqn:E.
    { by apply not_elem_of_nil in Hh. }
    simpl. assert (x = q) as ->.
    { apply elem_of_cons in Hh as [?|Hh]; [done|]. exfalso.
      apply StronglySorted_inv in Hsf as [_ Hall]. rewrite Forall_forall in Hall.
      assert (Hx : x ∈ hi h (key_of h q) L) by (rewrite E; left).
      apply list_elem_of_filter in Hx as [Hx _]. apply Hx, (Hall _ Hh). }
    unfold is_key. assert (key_cmp (key_of h q) (key_of h q) = Eq) as -> by (apply key_cmp_eq; auto). done.
Qed.

Lemma filter_swap (P Q : arena_ptr -> Prop) `{!forall q, Decision (P q)} `{!forall q, Decision (Q q)} L :
  filter P (filter Q L) = filter Q (filter P L).
Proof. rewrite !list_filter_filter. apply list_filter_iff. intros x. tauto. Qed.

Lemma lo_lvl h k l L : lo h k (lvl h l L) = lvl h l (lo h k L).
Proof. apply filter_swap. Qed.

Lemma hi_lvl h k l L : hi h k (lvl h l L) = lvl h l (hi h k L).
Proof. apply filter_swap. Qed.

(** ** Search *)

Lemma walk_right_spec p h l k A : forall fuel pred B found,
  towers_ok h -> (l < MAX_HEAD_HEIGHT)%nat -> valid k ->
  Forall (fun q => readable h q /\ valid (key_of h q)) (A ++ B) ->
  chain h l pred (A ++ B) ->
  Forall (below h k) A -> (forall q, head B = Some q -> ~ below h k q) ->
  (length A < fuel)%nat ->
  walk_right fuel p h l k pred (head (A ++ B)) found =
  Done (last_or pred A, head B,
    match head B with Some q => if is_key h k q then Some q else found | None => found end).
Proof.
  induction A as [|a A IH]; intros [|fuel] pred B found Ht Hl Hk Hg Hc Hb HB Hf; simpl in Hf; try lia.
  - cbn [app]. destruct B as [|b B]; [done|]. cbn [head walk_right].
    apply Forall_cons in Hg as [[Hr Hv] _]. rewrite get_key_bytes_done by done. cbn [mbind outcome_bind].
    rewrite compare_done by done. cbn [mbind outcome_bind]. unfold is_key.
    specialize (HB b eq_refl). unfold below in HB. by destruct (key_cmp (key_of h b) k).
  - cbn [app head walk_right]. apply Forall_cons in Hg as [[Hr Hv] Hg]. destruct Hc as [_ Hc].
    apply Forall_cons in Hb as [Hba Hb].
    rewrite get_key_bytes_done by done. cbn [mbind outcome_bind].
    rewrite compare_done by done. cbn [mbind outcome_bind]. unfold below in Hba. rewrite Hba.
    rewrite (load_next_done _ _ _ _ (head (A ++ B))); [|done|done|by apply chain_nxt].
    cbn [mbind outcome_bind]. rewrite IH by (done || lia). by rewrite last_or_cons.
Qed.

(** A node of the list is on some level; a level never holds more nodes than
    the store. *)

Lemma sorted_NoDup h L :
  Forall (fun q => valid (key_of h q)) L -> StronglySorted (key_lt h) L -> NoDup L.
Proof.
  intros Hv Hs. induction Hs as [|q L Hs IH Hq]; [constructor|].
  apply Forall_cons in Hv as [Hvq HvL]. constructor; [|by apply IH].
  intros Hin. rewrite Forall_forall in Hq. specialize (Hq q Hin). unfold key_lt in Hq.
  rewrite (proj2 (key_cmp_eq (key_of h q) (key_of h q) Hvq Hvq) eq_refl) in Hq. done.
Qed.

Lemma NoDup_length_size h L :
  NoDup L -> Forall (fun q => is_Some (h !! q)) L -> (length L <= size h)%nat.
Proof.
  intros Hn Hs. rewrite <- size_dom.
  rewrite <- (size_list_to_set (C := gset arena_ptr) L) by done.
  apply subseteq_size. intros q Hq. apply elem_of_list_to_set in Hq.
  apply elem_of_dom. rewrite Forall_forall in Hs. by apply Hs.
Qed.

(** The state of the list, for a key, that search computes. *)

Definition pred_at (h : nodes) (s : SkipList) (k : bytes) (L : list arena_ptr) (l : nat) : arena_ptr :=
  last_or (sl_sentinel s) (lvl h l (lo h k L)).
Definition succ_at (h : nodes) (k : bytes) (L : list arena_ptr) (l : nat) : option arena_ptr :=
  head (lvl h l (hi h k L)).

Definition ctx_ok (h : nodes) (s : SkipList) (k : bytes) (L : list arena_ptr) (t : TraversalCtx) : Prop :=
  searched_node t = exact h k L /\
  (forall l, (l < MAX_HEAD_HEIGHT)%nat ->
     predecessors t !! l = Some (Some (pred_at h s k L l)) /\ successors t !! l = Some (succ_at h k L l)).

(** What searching needs of the list; it does not change under linking. *)

Record searchable (h : nodes) (s : SkipList) (L : list arena_ptr) : Prop := mkSearchable {
  se_towers : towers_ok h;
  se_nodes : Forall (node_ok h) L;
  se_chains : forall l, (l < MAX_HEAD_HEIGHT)%nat -> chain h l (sl_sentinel s) (lvl h l L);
  se_sorted : StronglySorted (key_lt h) L;
  se_max : (1 <= sl_max_level s <= MAX_HEAD_HEIGHT)%nat;
  se_heights : Forall (fun q => (height_of h q <= sl_max_level s)%nat) L
}.

Lemma sl_inv_searchable st s L : sl_inv st s L -> searchable (st_nodes st) s L.
Proof. intros [[] ? ? ? ? ? ?]. by constructor. Qed.

Lemma se_valid h s L : searchable h s L -> Forall (fun q => valid (key_of h q)) L.
Proof. intros H. eapply Forall_impl; [apply H|]. by intros q (_ & ? & _). Qed.

Lemma lvl_split h s k L l :
  searchable h s L -> valid k -> lvl h l L = lvl h l (lo h k L) ++ lvl h l (hi h k L).
Proof.
  intros H Hk. unfold lvl. rewrite <- filter_app.
  rewrite <- (lo_hi h k L Hk); [done|by eapply se_valid|by apply H].
Qed.

Lemma head_hi_exact h s k L l q :
  searchable h s L -> valid k -> head (lvl h l (hi h k L)) = Some q -> is_key h k q = true ->
  exact h k L = Some q.
Proof.
  intros H Hk Hq Hkey. apply exact_spec; [done|by eapply se_valid|apply H|].
  apply head_Some in Hq as [B HB].
  assert (Hin : q ∈ lvl h l (hi h k L)) by (rewrite HB; left).
  apply list_elem_of_filter in Hin as [_ Hin]. apply list_elem_of_filter in Hin as [_ Hin].
  split; [done|]. unfold is_key in Hkey.
  destruct (key_cmp (key_of h q) k) eqn:E; try done. apply key_cmp_eq in E; [done| |done].
  pose proof (se_valid _ _ _ H) as Hv. rewrite Forall_forall in Hv. auto.
Qed.

(** The part of a level that lies right of a node below the key. *)

Lemma level_from h s k L l pred :
  searchable h s L -> valid k -> (l < MAX_HEAD_HEIGHT)%nat ->
  pred = sl_sentinel s \/ pred ∈ lvl h l (lo h k L) ->
  exists X A, lvl h l (lo h k L) = X ++ A /\ last_or pred A = pred_at h s k L l /\
    chain h l pred (A ++ lvl h l (hi h k L)).
Proof.
  intros H Hk Hl Hp. pose proof (se_chains h s L H l Hl) as Hc. rewrite (lvl_split h s k) in Hc by done.
  destruct Hp as [->|Hp].
  - exists [], (lvl h l (lo h k L)). done.
  - apply list_elem_of_split in Hp as (X & A & HA). exists (X ++ [pred]), A.
    rewrite <- app_assoc. split; [done|]. split.
    + unfold pred_at. rewrite HA. unfold last_or. rewrite last_app, last_cons. by destruct (last A).
    + rewrite HA, <- app_assoc in Hc. simpl in Hc. by apply chain_from in Hc.
Qed.

Lemma lvl_0 h L : Forall (node_ok h) L -> lvl h 0 L = L.
Proof.
  intros Hn. unfold lvl. apply list_filter_all. eapply Forall_impl; [done|].
  intros q (_ & _ & ?). lia.
Qed.

Lemma node_ok_sub h L L' : (forall q, q ∈ L' -> q ∈ L) -> Forall (node_ok h) L -> Forall (node_ok h) L'.
Proof. rewrite !Forall_forall. auto. Qed.

Lemma hi_sub h k L q : q ∈ hi h k L -> q ∈ L.
Proof. intros [_ ?]%list_elem_of_filter. done. Qed.
Lemma lo_sub h k L q : q ∈ lo h k L -> q ∈ L.
Proof. intros [_ ?]%list_elem_of_filter. done. Qed.
Lemma lvl_sub h l L q : q ∈ lvl h l L -> q ∈ L.
Proof. intros [_ ?]%list_elem_of_filter. done. Qed.

Lemma length_lo_level h s k L l :
  searchable h s L -> (length (lvl h l (lo h k L)) <= size h)%nat.
Proof.
  intros H. trans (length L).
  - etrans; [apply length_filter|apply length_filter].
  - apply NoDup_length_size.
    + eapply sorted_NoDup; [by eapply se_valid|apply H].
    + eapply Forall_impl; [apply H|]. intros q ((n & Hn & _) & _). rewrite Hn. eauto.
Qed.

(** Walking one level, from the sentinel or from any node below the key. *)

Lemma walk_level p h s k L l pred found :
  searchable h s L -> valid k -> (l < MAX_HEAD_HEIGHT)%nat ->
  pred = sl_sentinel s \/ pred ∈ lvl h l (lo h k L) ->
  (found = None \/ found = exact h k L) ->
  exists curr found',
    Node_load_next p h pred l = Done curr /\
    walk_right (walk_fuel h) p h l k pred curr found =
      Done (pred_at h s k L l, succ_at h k L l, found') /\
    (found' = None \/ found' = exact h k L) /\ (l = 0%nat -> found' = exact h k L).
Proof.
  intros H Hk Hl Hp Hf. destruct (level_from h s k L l pred H Hk Hl Hp) as (X & A & HA & Hlast & HcA).
  exists (head (A ++ lvl h l (hi h k L))). eexists.
  split; [apply load_next_done; [apply H|done|by apply chain_nxt]|].
  assert (HAlo : forall q, q ∈ A -> q ∈ lvl h l (lo h k L)).
  { intros q Hq. rewrite HA. apply elem_of_app. by right. }
  assert (Hnodes : Forall (node_ok h) (A ++ lvl h l (hi h k L))).
  { eapply node_ok_sub; [|apply H]. intros q [Hq|Hq]%elem_of_app;
      eauto using lvl_sub, lo_sub, hi_sub. }
  split; [rewrite (walk_right_spec p h l k A); [by rewrite Hlast|apply H|done|done|..] | split].
  - eapply Forall_impl; [done|]. by intros q (? & ? & _).
  - done.
  - apply Forall_forall. intros q Hq%HAlo%lvl_sub. by apply list_elem_of_filter in Hq as [? _].
  - intros q Hq%head_Some_elem_of%lvl_sub. by apply list_elem_of_filter in Hq as [? _].
  - pose proof (length_lo_level h s k L l H) as Hlen. rewrite HA, length_app in Hlen.
    unfold walk_fuel. lia.
  - destruct (head (lvl h l (hi h k L))) as [q|] eqn:E; [|done].
    destruct (is_key h k q) eqn:Ek; [|done]. right. symmetry. by eapply head_hi_exact.
  - intros ->. rewrite lvl_0 by (eapply node_ok_sub; [apply hi_sub|apply H]).
    unfold exact in Hf |- *. destruct (head (hi h k L)) as [q|]; [|by destruct Hf].
    destruct (is_key h k q); [done|by destruct Hf].
Qed.

Lemma lvl_down h l L q : q ∈ lvl h (S l) L -> q ∈ lvl h l L.
Proof. unfold lvl. rewrite !list_elem_of_filter. intros [? ?]. split; [lia|done]. Qed.

Lemma pred_at_down h s k L l :
  pred_at h s k L (S l) = sl_sentinel s \/ pred_at h s k L (S l) ∈ lvl h l (lo h k L).
Proof.
  unfold pred_at. destruct (last_or_in (sl_sentinel s) (lvl h (S l) (lo h k L))) as [|Hin]; [by left|right].
  by apply lvl_down.
Qed.

Lemma descend_spec p h s k L : forall level pred t,
  searchable h s L -> valid k -> (level <= MAX_HEAD_HEIGHT)%nat ->
  (forall l, level = S l -> pred = sl_sentinel s \/ pred ∈ lvl h l (lo h k L)) ->
  length (predecessors t) = MAX_HEAD_HEIGHT -> length (successors t) = MAX_HEAD_HEIGHT ->
  (searched_node t = None \/ searched_node t = exact h k L) ->
  exists t', descend p h k level pred t = Done t' /\
    (searched_node t' = None \/ searched_node t' = exact h k L) /\
    (level <> 0%nat -> searched_node t' = exact h k L) /\
    forall l, (l < MAX_HEAD_HEIGHT)%nat ->
      if (l <? level)%nat
      then predecessors t' !! l = Some (Some (pred_at h s k L l)) /\ successors t' !! l = Some (succ_at h k L l)
      else predecessors t' !! l = predecessors t !! l /\ successors t' !! l = successors t !! l.
Proof.
  induction level as [|l IH]; intros pred t H Hk Hl Hp Hlp Hls Hf.
  { exists t. split_and!; done. }
  destruct (walk_level p h s k L l pred (searched_node t) H Hk ltac:(lia) (Hp l eq_refl) Hf)
    as (curr & found & E1 & E2 & Hf' & Hf0).
  cbn [descend]. rewrite E1. cbn [mbind outcome_bind]. rewrite E2. cbn [mbind outcome_bind].
  edestruct (IH (pred_at h s k L l)
    (mkCtx found (<[l := Some (pred_at h s k L l)]> (predecessors t)) (<[l := succ_at h k L l]> (successors t))))
    as (t' & E & Hft & Hft0 & Hat); try done; try lia.
  { intros m ->. apply pred_at_down. }
  { cbn. by rewrite length_insert. }
  { cbn. by rewrite length_insert. }
  exists t'. split; [exact E|]. split; [done|]. split.
  { intros _. destruct l; [|by apply Hft0]. cbn in E. injection E as <-. cbn. by apply Hf0. }
  intros i Hi. specialize (Hat i Hi). cbn [predecessors successors] in Hat.
  destruct (Nat.ltb_spec i l).
  - destruct (Nat.ltb_spec i (S l)); [done|lia].
  - destruct (Nat.ltb_spec i (S l)).
    + assert (i = l) as -> by lia. rewrite !list_lookup_insert_eq in Hat by lia. done.
    + rewrite !list_lookup_insert_ne in Hat by lia. done.
Qed.

(** The levels skipped are empty. *)

Lemma skip_empty_spec p h s L : forall level,
  searchable h s L -> (level <= MAX_HEAD_HEIGHT)%nat ->
  exists level', skip_empty_levels p h (sl_sentinel s) level = Done level' /\ (level' <= level)%nat /\
    forall l, (level' <= l < level)%nat -> lvl h l L = [].
Proof.
  induction level as [|l IH]; intros H Hl.
  { exists 0%nat. split_and!; [done|lia|intros; lia]. }
  pose proof (se_chains h s L H l ltac:(lia)) as Hc. cbn [skip_empty_levels].
  rewrite (load_next_done _ _ _ _ (head (lvl h l L))); [|apply H|lia|by apply chain_nxt].
  cbn [mbind outcome_bind]. destruct (lvl h l L) as [|q B] eqn:E; simpl.
  - destruct (IH H ltac:(lia)) as (level' & E' & ? & He). exists level'. split_and!; [done|lia|].
    intros i Hi. destruct (decide (i = l)) as [->|]; [done|]. apply He. lia.
  - exists (S l). split_and!; [done|lia|intros; lia].
Qed.

Lemma lvl_above h s L l :
  searchable h s L -> (sl_max_level s <= l)%nat -> lvl h l L = [].
Proof.
  intros H Hl. unfold lvl. apply list_filter_none. eapply Forall_impl; [apply (se_heights h s L H)|].
  intros q ?. cbv beta in *. lia.
Qed.

Lemma lvl_nil_sub h l L L' : (forall q, q ∈ L' -> q ∈ L) -> lvl h l L = [] -> lvl h l L' = [].
Proof.
  intros Hs He. destruct (lvl h l L') as [|q B] eqn:E; [done|]. exfalso.
  assert (q ∈ lvl h l L') as [? ?]%list_elem_of_filter by (rewrite E; left).
  assert (q ∈ lvl h l L) as Hq by (apply list_elem_of_filter; auto). rewrite He in Hq.
  by apply not_elem_of_nil in Hq.
Qed.

Lemma search_spec p h s k L :
  searchable h s L -> valid k -> exists t, search p h s k = Done t /\ ctx_ok h s k L t.
Proof.
  intros H Hk. pose proof (se_max h s L H) as Hmax. unfold search.
  destruct (skip_empty_spec p h s L (sl_max_level s) H ltac:(lia)) as (level & E & Hlv & Hemp).
  rewrite E. cbn [mbind outcome_bind searched_node successors TraversalCtx_default].
  assert (Hempty : forall l, (level <= l < MAX_HEAD_HEIGHT)%nat -> lvl h l L = []).
  { intros l Hl. destruct (decide (l < sl_max_level s)%nat); [apply Hemp; lia|].
    eapply lvl_above; [done|lia]. }
  edestruct (descend_spec p h s k L level (sl_sentinel s)
    (mkCtx None (replicate MAX_HEAD_HEIGHT (Some (sl_sentinel s))) (replicate MAX_HEAD_HEIGHT None)))
    as (t & Et & Hf & Hf0 & Hat); try done; try lia; [by left..|].
  exists t. split; [exact Et|]. split.
  - destruct (decide (level = 0%nat)) as [->|Hne]; [|by apply Hf0].
    destruct Hf as [Hf|Hf]; [|done]. rewrite Hf. unfold exact.
    assert (hi h k L = []) as ->; [|done].
    rewrite <- (lvl_0 h (hi h k L)) by (eapply node_ok_sub; [apply hi_sub|apply H]).
    eapply lvl_nil_sub; [apply hi_sub|]. apply Hempty. unfold MAX_HEAD_HEIGHT. lia.
  - intros l Hl. specialize (Hat l Hl). destruct (Nat.ltb_spec l level); [done|].
    destruct Hat as [-> ->]. cbn [predecessors successors].
    rewrite !lookup_replicate_2 by done. unfold pred_at, succ_at.
    rewrite (lvl_nil_sub h l L (lo h k L)), (lvl_nil_sub h l L (hi h k L));
      eauto using lo_sub, hi_sub; apply Hempty; lia.
Qed.

(** ** Linking a node *)

(** Stores with the same nodes up to their tower pointers. *)

Definition shape (n : Node) : nat * Z * Z * memory * nat :=
  (n_height n, n_key_len n, n_value_len n, n_payload n, length (n_tower n)).

Definition same_nodes (h h' : nodes) : Prop := forall q, shape <$> (h' !! q) = shape <$> (h !! q).

Lemma same_nodes_refl h : same_nodes h h.
Proof. done. Qed.

Lemma same_nodes_trans h1 h2 h3 : same_nodes h1 h2 -> same_nodes h2 h3 -> same_nodes h1 h3.
Proof. intros H1 H2 q. by rewrite H2, H1. Qed.

Lemma same_nodes_set_slot x v h : same_nodes h (set_slot x v h).
Proof.
  intros q. unfold set_slot. destruct (decide (q = x.1)) as [->|].
  - rewrite lookup_alter_eq. destruct (h !! x.1); [|done]. cbn. unfold shape. cbn.
    by rewrite length_insert.
  - by rewrite lookup_alter_ne by done.
Qed.

Lemma same_nodes_inv h h' q n' :
  same_nodes h h' -> h' !! q = Some n' -> exists n, h !! q = Some n /\ shape n = shape n'.
Proof.
  intros H Hn. specialize (H q). rewrite Hn in H. symmetry in H. simpl in H.
  apply fmap_Some in H as (n & ? & ?). eauto.
Qed.

Lemma same_nodes_key h h' q : same_nodes h h' -> key_of h' q = key_of h q.
Proof.
  intros H. specialize (H q). unfold key_of, node_key, payload_bytes.
  destruct (h' !! q), (h !! q); try done. injection H as H1 H2 H3 H4 H5. cbn. by rewrite H2, H4.
Qed.

Lemma same_nodes_value h h' q : same_nodes h h' -> value_of h' q = value_of h q.
Proof.
  intros H. specialize (H q). unfold value_of, node_value, payload_bytes.
  destruct (h' !! q), (h !! q); try done. injection H as H1 H2 H3 H4 H5. cbn. by rewrite H2, H4.
Qed.

Lemma same_nodes_height h h' q : same_nodes h h' -> height_of h' q = height_of h q.
Proof.
  intros H. specialize (H q). unfold height_of. destruct (h' !! q), (h !! q); try done.
  by injection H.
Qed.

Lemma same_nodes_sym h h' : same_nodes h h' -> same_nodes h' h.
Proof. intros H q. by rewrite H. Qed.

Lemma same_nodes_ok h h' q : same_nodes h h' -> node_ok h q -> node_ok h' q.
Proof.
  intros H ((n & Hn & k & v & Hp & Hk & Hv) & Hval & Hh). unfold node_ok.
  rewrite (same_nodes_key h h'), (same_nodes_height h h') by done. split_and!; [|done|apply Hh|apply Hh].
  destruct (same_nodes_inv _ _ _ _ (same_nodes_sym _ _ H) Hn) as (n' & Hn' & E).
  injection E as E1 E2 E3 E4 E5. exists n'. split; [done|]. exists k, v. rewrite E2, E3, E4. done.
Qed.

Lemma same_nodes_lvl h h' l L : same_nodes h h' -> lvl h' l L = lvl h l L.
Proof. intros H. apply list_filter_iff. intros q. by rewrite (same_nodes_height h h'). Qed.

Lemma same_nodes_lo h h' k L : same_nodes h h' -> lo h' k L = lo h k L.
Proof. intros H. apply list_filter_iff. intros q. unfold below. by rewrite (same_nodes_key h h'). Qed.

Lemma same_nodes_hi h h' k L : same_nodes h h' -> hi h' k L = hi h k L.
Proof. intros H. apply list_filter_iff. intros q. unfold below. by rewrite (same_nodes_key h h'). Qed.

Lemma same_nodes_heap a h h' : same_nodes h h' -> heap_ok a h -> heap_ok a h'.
Proof.
  intros H [Ha Ht Hp]. constructor; [done|..]; intros q n' Hn';
    destruct (same_nodes_inv _ _ _ _ H Hn') as (n & Hn & E); injection E as E1 E2 E3 E4 E5.
  - specialize (Ht _ _ Hn). cbn in Ht. congruence.
  - specialize (Hp _ _ Hn). unfold node_size in *. by rewrite <- E1, <- E4.
Qed.

Lemma nxt_set_slot_eq h p l v w : nxt h p l = Some w -> nxt (set_slot (p, l) v h) p l = Some v.
Proof.
  unfold nxt, set_slot. cbn [fst snd]. rewrite lookup_alter_eq. destruct (h !! p); [|done]. cbn.
  intros Hl%lookup_lt_Some. by rewrite list_lookup_insert_eq.
Qed.

Lemma nxt_set_slot_ne h p l v q m : (q, m) <> (p, l) -> nxt (set_slot (p, l) v h) q m = nxt h q m.
Proof.
  intros Hne. unfold nxt, set_slot. cbn [fst snd]. destruct (decide (q = p)) as [->|].
  - rewrite lookup_alter_eq. destruct (h !! p); [|done]. cbn. by rewrite list_lookup_insert_ne by congruence.
  - by rewrite lookup_alter_ne by done.
Qed.

(** Writing what a slot already holds changes nothing. *)

Lemma set_slot_id h p l v : nxt h p l = Some v -> set_slot (p, l) v h = h.
Proof.
  unfold nxt, set_slot. cbn [fst snd]. destruct (h !! p) as [n|] eqn:Hn; [|done]. cbn. intros Hv.
  apply map_eq. intros q. destruct (decide (q = p)) as [->|].
  - rewrite lookup_alter_eq, Hn. cbn. f_equal. destruct n. cbn in *. f_equal. by apply list_insert_id.
  - by rewrite lookup_alter_ne by done.
Qed.

Lemma chain_set_slot_other h l p L x m v :
  m <> l \/ x ∉ p :: L -> chain h l p L -> chain (set_slot (x, m) v h) l p L.
Proof.
  revert p. induction L as [|q L IH]; intros p Hx; simpl.
  - intros <-. apply nxt_set_slot_ne. destruct Hx as [?|Hx]; [congruence|].
    intros [= -> ->]. apply Hx. left.
  - intros [<- Hc]. split.
    + apply nxt_set_slot_ne. destruct Hx as [?|Hx]; [congruence|]. intros [= -> ->]. apply Hx. left.
    + apply IH; [|done]. destruct Hx as [?|Hx]; [by left|right].
      intros Hin. apply Hx. by right.
Qed.

(** The new node placed between the two halves of a level. *)

Lemma chain_link h l p A B node w :
  chain h l p (A ++ B) -> NoDup (p :: A ++ B) -> node ∉ p :: A ++ B -> nxt h node l = Some w ->
  chain (set_slot (last_or p A, l) (Some node) (set_slot (node, l) (head B) h)) l p (A ++ node :: B).
Proof.
  revert p. induction A as [|a A IH]; intros p Hc Hnd Hn Hw; cbn [app] in *.
  - unfold last_or. cbn [last default]. pose proof (chain_nxt _ _ _ _ Hc) as Hp.
    assert (node <> p) by (intros ->; apply Hn; left). simpl. split.
    + eapply nxt_set_slot_eq. rewrite nxt_set_slot_ne by congruence. done.
    + assert (Hnode : nxt (set_slot (p, l) (Some node) (set_slot (node, l) (head B) h)) node l = Some (head B)).
      { rewrite nxt_set_slot_ne by congruence. by eapply nxt_set_slot_eq. }
      destruct B as [|b B]; simpl in *; [done|]. split; [done|].
      apply NoDup_cons in Hnd as [Hp' _].
      apply chain_set_slot_other; [right; done|]. apply chain_set_slot_other; [right|].
      { intros Hin. apply Hn. by right. }
      apply Hc.
  - rewrite last_or_cons. destruct Hc as [Hpa Hc]. split.
    + rewrite nxt_set_slot_ne.
      * rewrite nxt_set_slot_ne; [done|]. intros [= ->]. apply Hn. left.
      * apply NoDup_cons in Hnd as [Hp _]. intros [= Heq]. apply Hp.
        destruct (last_or_in a A) as [E|E]; rewrite <- Heq in E; [rewrite E; left|right].
        apply elem_of_app. by left.
    + apply IH; [done| | |done]; [by apply NoDup_cons in Hnd as [_ ?]|].
      intros Hin. apply Hn. by right.
Qed.

(** What one successful attempt does to the store. *)

Definition link (h : nodes) (pr node : arena_ptr) (succ : option arena_ptr) (l : nat) : nodes :=
  set_slot (pr, l) (Some node) (set_slot (node, l) succ h).

Lemma link_once_done p h t node l pr sc :
  towers_ok h -> (l < MAX_HEAD_HEIGHT)%nat -> pr <> node ->
  predecessors t !! l = Some (Some pr) -> successors t !! l = Some sc ->
  nxt h pr l = Some sc -> nxt h node l = Some None ->
  link_once p h t node l = Done (link h pr node sc l, true).
Proof.
  intros Ht Hl Hne Hp Hs Hpr Hnode. unfold link_once, ctx_at, slot_store. rewrite Hs, Hp. cbn [mbind outcome_bind].
  assert (Hh : (match sc with
     | Some _ => s ← Node_next p h node l; _ ← slot_load h s; Done (set_slot s sc h)
     | None => Done h end) = Done (set_slot (node, l) sc h)).
  { destruct sc.
    - rewrite (Node_next_done _ _ _ _ None) by done. cbn [mbind outcome_bind].
      by rewrite (slot_load_done _ _ _ None).
    - by rewrite set_slot_id. }
  rewrite Hh. cbn [mbind outcome_bind non_null].
  assert (Hpr' : nxt (set_slot (node, l) sc h) pr l = Some sc) by (rewrite nxt_set_slot_ne; congruence).
  assert (Ht' : towers_ok (set_slot (node, l) sc h)).
  { intros q n' Hn'. destruct (same_nodes_inv _ _ _ _ (same_nodes_set_slot (node, l) sc h) Hn') as (n & Hn & E).
    injection E as E1 E2 E3 E4 E5. specialize (Ht _ _ Hn). cbn in Ht. congruence. }
  rewrite (Node_next_done _ _ _ _ sc) by done. cbn [mbind outcome_bind].
  unfold slot_cas. rewrite (slot_load_done _ _ _ sc) by done. cbn [mbind outcome_bind].
  by rewrite decide_True.
Qed.

(** The levels of the list while [node] (for key [k]) is linked below [j]. *)

Definition level_at (h : nodes) (k : bytes) (L : list arena_ptr) (node : arena_ptr) (height j l : nat)
  : list arena_ptr :=
  if ((l <? j) && (l <? height))%nat
  then lvl h l (lo h k L) ++ node :: lvl h l (hi h k L) else lvl h l L.

Record linking (h : nodes) (s : SkipList) (k : bytes) (L : list arena_ptr) (node : arena_ptr)
    (height j : nat) (h' : nodes) : Prop := mkLinking {
  lk_same : same_nodes h h';
  lk_chains : forall l, (l < MAX_HEAD_HEIGHT)%nat -> chain h' l (sl_sentinel s) (level_at h k L node height j l);
  lk_new : forall l, (j <= l < height)%nat -> nxt h' node l = Some None
}.

(** A freshly allocated node, not yet linked anywhere. *)

Record fresh_node (h : nodes) (s : SkipList) (L : list arena_ptr) (node : arena_ptr) (height : nat) : Prop := {
  fn_notin : node ∉ sl_sentinel s :: L;
  fn_height : (height <= MAX_HEAD_HEIGHT)%nat;
  fn_null : forall l, (l < height)%nat -> nxt h node l = Some None
}.

Lemma linking_init h s k L node height :
  searchable h s L -> fresh_node h s L node height -> linking h s k L node height 0 h.
Proof.
  intros H [Hn Hh Hnull]. constructor; [done|..].
  - intros l Hl. unfold level_at. simpl. by apply H.
  - intros l Hl. apply Hnull. lia.
Qed.

Lemma towers_same h h' : same_nodes h h' -> towers_ok h -> towers_ok h'.
Proof.
  intros Hs Ht q n' Hn'. destruct (same_nodes_inv _ _ _ _ Hs Hn') as (n & Hn & E).
  injection E as E1 E2 E3 E4 E5. specialize (Ht _ _ Hn). cbn in Ht. congruence.
Qed.

Lemma NoDup_level h s L l :
  searchable h s L -> sl_sentinel s ∉ L -> NoDup (sl_sentinel s :: lvl h l L).
Proof.
  intros H Hs. constructor; [by intros ?%lvl_sub|].
  apply NoDup_filter. eapply sorted_NoDup; [by eapply se_valid|apply H].
Qed.

(** Linking one more level. *)

Lemma link_step p h s k L node height j t h' :
  searchable h s L -> valid k -> sl_sentinel s ∉ L -> fresh_node h s L node height ->
  ctx_ok h s k L t -> (j < height)%nat -> linking h s k L node height j h' ->
  exists h'', link_once p h' t node j = Done (h'', true) /\ linking h s k L node height (S j) h''.
Proof.
  intros H Hk Hs [Hn Hh Hnull] [_ Hctx] Hj [Hsame Hch Hnew].
  assert (HjM : (j < MAX_HEAD_HEIGHT)%nat) by lia. destruct (Hctx j HjM) as [Hp Hsu].
  pose proof (Hch j HjM) as Hc. unfold level_at in Hc. rewrite Nat.ltb_irrefl in Hc. simpl in Hc.
  rewrite (lvl_split h s k L j H Hk) in Hc.
  assert (Hpr : nxt h' (pred_at h s k L j) j = Some (succ_at h k L j)) by (apply chain_nxt, chain_last, Hc).
  assert (Hin : forall q, q ∈ lvl h j (lo h k L) ++ lvl h j (hi h k L) -> q ∈ L).
  { intros q. rewrite <- (lvl_split h s) by done. apply lvl_sub. }
  assert (Hne : pred_at h s k L j <> node).
  { intros <-. apply Hn. destruct (last_or_in (sl_sentinel s) (lvl h j (lo h k L))) as [E|E];
      unfold pred_at; [rewrite E; left|right]. apply Hin, elem_of_app. by left. }
  exists (link h' (pred_at h s k L j) node (succ_at h k L j) j). split.
  { apply link_once_done; try done; [eapply towers_same; [done|apply H]|by apply Hnew]. }
  constructor.
  - eapply same_nodes_trans; [done|]. eapply same_nodes_trans; apply same_nodes_set_slot.
  - intros l Hl. unfold level_at. destruct (decide (l = j)) as [->|Hlj].
    + assert ((j <? S j)%nat = true) as -> by (apply Nat.ltb_lt; lia).
      assert ((j <? height)%nat = true) as -> by (apply Nat.ltb_lt; lia). cbn [andb].
      unfold link, pred_at, succ_at. eapply chain_link; [done| | |by apply Hnew].
      * rewrite <- (lvl_split h s) by done. by eapply NoDup_level.
      * intros [->|Hx]%elem_of_cons; apply Hn; [left|right; by apply Hin].
    + specialize (Hch l Hl). unfold level_at in Hch.
      assert ((l <? S j)%nat = (l <? j)%nat) as ->.
      { destruct (Nat.ltb_spec l (S j)), (Nat.ltb_spec l j); try done; lia. }
      unfold link. by do 2 (apply chain_set_slot_other; [left; congruence|]).
  - intros l Hl. unfold link. rewrite nxt_set_slot_ne by congruence.
    rewrite nxt_set_slot_ne by (intros E; apply (f_equal snd) in E; cbn in E; lia).
    apply Hnew. lia.
Qed.

Lemma link_levels_spec p h s k L node height t : forall count j h',
  searchable h s L -> valid k -> sl_sentinel s ∉ L -> fresh_node h s L node height ->
  ctx_ok h s k L t -> (j + count = height)%nat -> linking h s k L node height j h' ->
  exists h'', link_levels count p h' s k t node j = Done h'' /\ linking h s k L node height height h''.
Proof.
  induction count as [|count IH]; intros j h' H Hk Hs Hf Ht Hj Hl.
  - exists h'. split; [done|]. assert (j = height) as <- by lia. done.
  - destruct (link_step p h s k L node height j t h' H Hk Hs Hf Ht ltac:(lia) Hl) as (h1 & E & Hl1).
    destruct (IH (S j) h1 H Hk Hs Hf Ht ltac:(lia) Hl1) as (h2 & E2 & Hl2). exists h2. split; [|done].
    cbn [link_levels]. unfold LINK_FUEL. cbn [link_level]. rewrite E. cbn [mbind outcome_bind]. done.
Qed.

(** The list with [node] inserted at its place. *)

Definition insert_at (h : nodes) (k : bytes) (L : list arena_ptr) (node : arena_ptr) : list arena_ptr :=
  lo h k L ++ node :: hi h k L.

Lemma exact_None_above h k L q :
  valid k -> Forall (fun q => valid (key_of h q)) L -> StronglySorted (key_lt h) L ->
  exact h k L = None -> q ∈ hi h k L -> key_cmp k (key_of h q) = Lt.
Proof.
  intros Hk Hv Hs He Hq. pose proof (hi_sub _ _ _ _ Hq) as HqL.
  apply list_elem_of_filter in Hq as [Hnb _]. pose proof Hv as Hv'. rewrite Forall_forall in Hv'.
  rewrite key_cmp_antisym by auto. unfold below in Hnb.
  destruct (key_cmp (key_of h q) k) eqn:E; try done.
  apply key_cmp_eq in E; [|auto..]. assert (exact h k L = Some q) by by apply exact_spec. congruence.
Qed.

Lemma sorted_insert_at h k L node :
  valid k -> Forall (fun q => valid (key_of h q)) L -> StronglySorted (key_lt h) L ->
  exact h k L = None -> key_of h node = k -> StronglySorted (key_lt h) (insert_at h k L node).
Proof.
  intros Hk Hv Hs He Hn. pose proof (lo_hi h k L Hk Hv Hs) as HL. pose proof Hs as Hs'.
  rewrite HL in Hs'. apply StronglySorted_app in Hs' as (Hlt & Hlo & Hhi).
  assert (Habove : forall q, q ∈ hi h k L -> key_lt h node q).
  { intros q Hq. unfold key_lt. rewrite Hn. by eapply exact_None_above. }
  apply StronglySorted_app. split_and!; [|done|].
  - intros x y Hx [->|Hy]%elem_of_cons; [|by apply Hlt].
    unfold key_lt. rewrite Hn. by apply list_elem_of_filter in Hx as [? _].
  - constructor; [done|]. by apply Forall_forall.
Qed.

(** ** Heights and allocation *)

Definition next_height (s : SkipList) : nat :=
  Nat.min 3 (Nat.min MAX_HEAD_HEIGHT (trailing_zeros (xorshift (sl_seed s)) + 1)).

(** The slot address tested is never null, so every height is reduced to at
    most three. *)

Lemma reduce_height_done p h sent : forall height,
  towers_ok h -> (forall l, (l < MAX_HEAD_HEIGHT)%nat -> exists v, nxt h sent l = Some v) ->
  (height <= MAX_HEAD_HEIGHT)%nat -> reduce_height p h sent height = Done (Nat.min 3 height).
Proof.
  induction height as [|height IH]; intros Ht Hs Hh; [done|]. cbn [reduce_height].
  destruct (Nat.leb_spec 4 (S height)).
  - destruct (Hs (S height - 2)%nat ltac:(unfold MAX_HEAD_HEIGHT in *; lia)) as [v Hv].
    rewrite (Node_next_done _ _ _ _ v) by (try done; unfold MAX_HEAD_HEIGHT in *; lia).
    cbn [mbind outcome_bind slot_is_null]. rewrite IH by (done || lia). f_equal. lia.
  - f_equal. lia.
Qed.

Lemma sentinel_slots h s L :
  searchable h s L -> forall l, (l < MAX_HEAD_HEIGHT)%nat -> exists v, nxt h (sl_sentinel s) l = Some v.
Proof. intros H l Hl. eexists. eapply chain_nxt, (se_chains h s L H l Hl). Qed.

Definition with_level (s : SkipList) (height : nat) : SkipList :=
  mkSkipList (sl_sentinel s) (xorshift (sl_seed s)) (sl_entries s) (Nat.max (sl_max_level s) height).

Lemma generate_random_level_done p h s L :
  searchable h s L ->
  generate_random_level p h s = Done (with_level s (next_height s), next_height s).
Proof.
  intros H. unfold generate_random_level. cbn [set_seed sl_sentinel].
  rewrite reduce_height_done; [|apply H|by eapply sentinel_slots|lia]. cbn [mbind outcome_bind].
  fold (next_height s). cbn [sl_max_level]. unfold with_level. do 2 f_equal.
  generalize (next_height s) as m. intros m. cbn [set_seed sl_max_level].
  destruct (Nat.ltb_spec (sl_max_level s) m).
  - by rewrite Nat.max_r by lia.
  - by rewrite Nat.max_l by lia.
Qed.

Lemma next_height_bounds s : (1 <= next_height s <= 3)%nat.
Proof. unfold next_height, MAX_HEAD_HEIGHT. lia. Qed.

Definition node_layout (height : nat) (key_len value_len : Z) : Layout :=
  mkLayout (8 + 8 * Z.of_nat height + key_len + value_len) 8.

Lemma round_up_1 x : round_up x 1 = x.
Proof. unfold round_up. rewrite Z.div_1_r. lia. Qed.

Lemma Layout_array_done es ea n :
  es * n <= isize_max -> Layout_array es ea n = Some (mkLayout (es * n) ea).
Proof. intros. unfold Layout_array. by rewrite decide_True. Qed.

Lemma Layout_extend_done sz al sz2 al2 off :
  round_up sz al2 = off -> off + sz2 <= isize_max ->
  Layout_extend (mkLayout sz al) (mkLayout sz2 al2) = Some (mkLayout (off + sz2) (Z.max al al2)).
Proof. intros <- H. unfold Layout_extend. cbn [l_size l_align]. by rewrite decide_True. Qed.

Lemma build_layout_done height kl vl :
  (height <= MAX_HEAD_HEIGHT)%nat -> in_width 16 kl -> in_width 32 vl ->
  Node_build_layout height kl vl = Ok (node_layout height kl vl).
Proof.
  intros Hh [Hk Hk'] [Hv Hv']. unfold MAX_HEAD_HEIGHT in Hh.
  unfold Node_build_layout, NODE_LAYOUT, POINTER_SIZE.
  assert (Hmax : isize_max = 9223372036854775807) by done.
  rewrite (Layout_array_done 8 8) by lia. cbn [mbind option_bind].
  rewrite (Layout_extend_done _ _ _ _ 8) by (done || lia). cbn [mbind option_bind].
  rewrite (Layout_array_done 1 1 kl) by lia. cbn [mbind option_bind].
  erewrite (Layout_extend_done _ _ (1 * kl)) by (apply round_up_1 || lia). cbn [mbind option_bind].
  rewrite (Layout_array_done 1 1 vl) by lia. cbn [mbind option_bind].
  erewrite (Layout_extend_done _ _ (1 * vl)) by (apply round_up_1 || lia).
  unfold node_layout. do 2 f_equal. lia.
Qed.

Lemma node_layout_ok height kl vl :
  (height <= MAX_HEAD_HEIGHT)%nat -> in_width 16 kl -> in_width 32 vl -> layout_ok (node_layout height kl vl).
Proof.
  intros Hh [Hk Hk'] [Hv Hv']. unfold MAX_HEAD_HEIGHT in Hh. split.
  - unfold isize_max. cbn [l_size node_layout]. lia.
  - exists 3. split; [lia|done].
Qed.

Lemma node_size_init height kl vl :
  0 <= kl -> 0 <= vl -> node_size (Node_init_node height kl vl) = l_size (node_layout height kl vl).
Proof.
  intros. unfold node_size, Node_init_node, node_layout. cbn [n_height n_payload l_size].
  rewrite len_replicate. lia.
Qed.

Lemma Node_alloc_done p st height kl vl a' ptr :
  heap_ok (st_arena st) (st_nodes st) -> (height <= MAX_HEAD_HEIGHT)%nat ->
  in_width 16 kl -> in_width 32 vl ->
  Arena_alloc_raw p (st_arena st) (node_layout height kl vl) = Done (a', ptr) ->
  let n := Node_init_node height kl vl in
  Node_alloc p st height kl vl = Done (mkStore a' (<[ptr := n]> (st_nodes st)), ptr) /\
  st_nodes st !! ptr = None /\ heap_ok a' (<[ptr := n]> (st_nodes st)).
Proof.
  intros [Ha Ht Hp] Hh Hk Hv Hal n. split.
  { unfold Node_alloc. rewrite debug_assert_true by by apply Nat.leb_le. cbn [mbind outcome_bind].
    rewrite build_layout_done by done. by rewrite Hal. }
  pose proof (node_layout_ok height kl vl Hh Hk Hv) as Hl.
  destruct (alloc_raw_outcome p (st_arena st) _ Ha Hl) as (a1 & r & _ & Ha1 & Hr).
  destruct r as [[i off]|e]; [|by destruct Hr as (_ & Hnd & _); rewrite Hal in Hnd].
  destruct Hr as (E & Hle & Hoff & _ & Hbs & Hbump & Hfresh). rewrite Hal in E. injection E as <- ->.
  assert (Hsz : 8 <= l_size (node_layout height kl vl)).
  { unfold node_layout. cbn. destruct Hk, Hv. lia. }
  assert (Hnone : st_nodes st !! (i, off) = None).
  { destruct (st_nodes st !! (i, off)) as [m|] eqn:Hm; [|done]. exfalso.
    destruct (Hp _ _ Hm) as (c & Hc & _ & _ & Hin & _). cbn [fst snd] in *. specialize (Hfresh c Hc).
    pose proof (len_nonneg (n_payload m)). unfold node_size in Hin. lia. }
  split; [done|]. constructor; [done|..].
  - apply map_Forall_insert_2; [|done]. cbn. by rewrite length_replicate.
  - apply map_Forall_insert_2.
    + unfold n. rewrite node_size_init by (destruct Hk, Hv; done).
      destruct (chunks a' !! i) as [c|] eqn:Hc; [|done]. injection Hbump as Hbump. exists c.
      destruct (proj1 (Forall_lookup _ _) (ao_chunks a' Ha1) _ _ Hc) as [Hlen Hb].
      unfold node_layout in *. cbn [fst snd l_size] in *. split_and!; try done; lia.
    + eapply map_Forall_impl; [exact Hp|]. intros q m Hm. by eapply ptr_in_le.
Qed.

Lemma Node_alloc_fail p st height kl vl :
  (height <= MAX_HEAD_HEIGHT)%nat -> in_width 16 kl -> in_width 32 vl ->
  is_done (Arena_alloc_raw p (st_arena st) (node_layout height kl vl)) = false ->
  is_done (Node_alloc p st height kl vl) = false.
Proof.
  intros Hh Hk Hv Hal. unfold Node_alloc. rewrite debug_assert_true by by apply Nat.leb_le.
  cbn [mbind outcome_bind]. rewrite build_layout_done by done.
  by destruct (Arena_alloc_raw p (st_arena st) (node_layout height kl vl)).
Qed.

(** ** Adding a node to the store *)

Definition agree (h h1 : nodes) (qs : list arena_ptr) : Prop := forall q, q ∈ qs -> h1 !! q = h !! q.

Section Agree.
Context {h h1 : nodes} {L : list arena_ptr} (Hag : agree h h1 L).

Lemma agree_sub L' : (forall q, q ∈ L' -> q ∈ L) -> agree h h1 L'.
Proof using Hag. intros H q Hq. auto. Qed.

Lemma agree_key q : q ∈ L -> key_of h1 q = key_of h q.
Proof using Hag. intros Hq. unfold key_of. by rewrite Hag. Qed.

Lemma agree_height q : q ∈ L -> height_of h1 q = height_of h q.
Proof using Hag. intros Hq. unfold height_of. by rewrite Hag. Qed.

Lemma agree_lvl l : lvl h1 l L = lvl h l L.
Proof using Hag.
  apply list_filter_ext_in. intros q Hq. by rewrite agree_height.
Qed.

Lemma agree_lo k : lo h1 k L = lo h k L.
Proof using Hag.
  apply list_filter_ext_in. intros q Hq. unfold below. by rewrite agree_key.
Qed.

Lemma agree_hi k : hi h1 k L = hi h k L.
Proof using Hag.
  apply list_filter_ext_in. intros q Hq. unfold below. by rewrite agree_key.
Qed.

Lemma agree_node_ok q : q ∈ L -> node_ok h q -> node_ok h1 q.
Proof using Hag.
  intros Hq. unfold node_ok, readable. by rewrite agree_key, agree_height, (Hag q Hq).
Qed.

Lemma agree_sorted : StronglySorted (key_lt h) L -> StronglySorted (key_lt h1) L.
Proof using Hag.
  revert Hag. clear. intros Hag Hs. induction Hs as [|q L Hs IH Hq]; [constructor|].
  assert (Hag' : agree h h1 L) by (intros x Hx; apply Hag; by right).
  constructor; [by apply IH|]. apply Forall_forall. intros x Hx. rewrite Forall_forall in Hq.
  specialize (Hq x Hx). unfold key_lt, key_of in *. rewrite (Hag q), (Hag' x Hx) by left. done.
Qed.

End Agree.

Lemma agree_chain h h1 l p L : agree h h1 (p :: L) -> chain h l p L -> chain h1 l p L.
Proof.
  revert p. induction L as [|q L IH]; intros p Hag; simpl.
  - intros <-. unfold nxt. by rewrite (Hag p) by left.
  - intros [<- Hc]. split; [unfold nxt; by rewrite (Hag p) by left|].
    apply IH; [|done]. intros x Hx. apply Hag. by right.
Qed.

Lemma agree_exact h h1 k L : agree h h1 L -> exact h1 k L = exact h k L.
Proof.
  intros Hag. unfold exact. rewrite (agree_hi Hag). destruct (head (hi h k L)) as [q|] eqn:E; [|done].
  apply head_Some_elem_of in E. unfold is_key. by rewrite (agree_key Hag) by by eapply hi_sub.
Qed.

(** The list is searched alike when other nodes are added to the store and
    its counters have advanced. *)

Lemma searchable_agree h h1 s s1 L :
  searchable h s L -> agree h h1 (sl_sentinel s :: L) -> towers_ok h1 ->
  sl_sentinel s1 = sl_sentinel s -> (sl_max_level s <= sl_max_level s1 <= MAX_HEAD_HEIGHT)%nat ->
  searchable h1 s1 L.
Proof.
  intros H Hag Ht Hs Hm. assert (HagL : agree h h1 L) by (intros q Hq; apply Hag; by right).
  destruct H as [H1 H2 H3 H4 H5 H6]. constructor; [done|..].
  - rewrite Forall_forall in H2 |- *. intros q Hq. by eapply agree_node_ok; [done..|apply H2].
  - intros l Hl. rewrite (agree_lvl HagL), Hs. eapply agree_chain; [|by apply H3].
    intros q [->|Hq]%elem_of_cons; apply Hag; [left|right; by eapply lvl_sub].
  - by eapply agree_sorted.
  - lia.
  - rewrite Forall_forall in H6 |- *. intros q Hq. rewrite (agree_height HagL) by done.
    specialize (H6 q Hq). cbv beta in H6. lia.
Qed.

Lemma agree_sub_l h h1 l k L : agree h h1 L -> lvl h1 l (lo h1 k L) = lvl h l (lo h k L).
Proof.
  intros H. rewrite (agree_lo H). apply agree_lvl. intros q Hq. by eapply H, lo_sub.
Qed.

Lemma agree_sub_h h h1 l k L : agree h h1 L -> lvl h1 l (hi h1 k L) = lvl h l (hi h k L).
Proof.
  intros H. rewrite (agree_hi H). apply agree_lvl. intros q Hq. by eapply H, hi_sub.
Qed.

Lemma ctx_ok_agree h h1 s s1 k L t :
  agree h h1 L -> sl_sentinel s1 = sl_sentinel s -> ctx_ok h s k L t -> ctx_ok h1 s1 k L t.
Proof.
  intros Hag Hs [Hf Hc]. split; [by rewrite (agree_exact h)|]. intros l Hl. specialize (Hc l Hl).
  unfold pred_at, succ_at in *. by rewrite (agree_sub_l h), (agree_sub_h h), Hs.
Qed.

(** The node once its key and value are written. *)

Definition kv_node (height : nat) (key value : bytes) : Node :=
  mkNode height (len key) (len value) (replicate height None) (Some <$> (key ++ value)).

(** A node whose key bytes only are written. *)

Definition k_node (height : nat) (key : bytes) (vl : Z) : Node :=
  mkNode height (len key) vl (replicate height None) ((Some <$> key) ++ replicate (Z.to_nat vl) None).

Lemma write_key_done a h node height key vl :
  0 <= vl -> h !! node = Some (Node_init_node height (len key) vl) ->
  write_node (mkStore a h) node Node_key_ptr key = Done (mkStore a (<[node := k_node height key vl]> h)).
Proof.
  intros Hv Hn. unfold write_node, deref. cbn [st_nodes st_arena]. rewrite Hn. cbn [mbind outcome_bind].
  unfold node_write. rewrite Z.sub_diag. cbn [n_payload Node_init_node]. rewrite len_replicate.
  pose proof (len_nonneg key). rewrite decide_True by lia. cbn [mbind outcome_bind].
  unfold k_node. do 4 f_equal. unfold splice. change (Z.to_nat 0) with 0%nat.
  rewrite take_0, app_nil_l. f_equal. rewrite drop_replicate, length_fmap. f_equal. unfold len in *. lia.
Qed.

Lemma write_value_done a h node height key value :
  h !! node = Some (k_node height key (len value)) ->
  write_node (mkStore a h) node Node_value_ptr value = Done (mkStore a (<[node := kv_node height key value]> h)).
Proof.
  intros Hn. unfold write_node, deref. cbn [st_nodes st_arena]. rewrite Hn. cbn [mbind outcome_bind].
  unfold node_write, Node_value_ptr. pose proof (len_nonneg key). pose proof (len_nonneg value).
  replace (Node_key_ptr _ + _ - _) with (len key) by (cbn [n_key_len k_node]; lia).
  cbn [n_payload k_node]. rewrite len_app, len_Some_fmap, len_replicate.
  rewrite decide_True by lia. cbn [mbind outcome_bind].
  unfold kv_node. cbn [n_height n_key_len n_value_len n_tower]. do 4 f_equal.
  rewrite <- (len_Some_fmap key), splice_app, fmap_app. f_equal.
  rewrite drop_ge, app_nil_r; [done|]. rewrite length_replicate, length_fmap. unfold len. lia.
Qed.

Lemma kv_node_written height key value :
  written (kv_node height key value) /\ node_key (kv_node height key value) = key /\
  node_value (kv_node height key value) = value.
Proof. split; [by exists key, value|]. by apply (written_key (kv_node height key value) key value). Qed.

Lemma link_node_spec p a h s k L t node height :
  heap_ok a h -> searchable h s L -> valid k -> sl_sentinel s ∉ L ->
  height_of h (sl_sentinel s) = MAX_HEAD_HEIGHT -> fresh_node h s L node height -> (1 <= height)%nat ->
  ctx_ok h s k L t -> exact h k L = None -> node_ok h node -> key_of h node = k ->
  height_of h node = height -> (height <= sl_max_level s)%nat ->
  exists h', link_node p (mkStore a h) s k t node height = Done (mkStore a h', s, node) /\
    same_nodes h h' /\ sl_inv (mkStore a h') s (insert_at h k L node).
Proof.
  intros Hheap H Hk Hs Hhead Hf Hh Ht He Hok Hkey Hhn Hmax. pose proof (linking_init h s k L node height H Hf) as H0.
  destruct (link_step p h s k L node height 0 t h H Hk Hs Hf Ht ltac:(lia) H0) as (h1 & E1 & H1).
  destruct (link_levels_spec p h s k L node height t (height - 1) 1 h1 H Hk Hs Hf Ht ltac:(lia) H1)
    as (h2 & E2 & [Hsame Hch _]).
  exists h2. split; [|split; [done|]].
  { unfold link_node, LINK_FUEL. cbn [link_base st_nodes]. rewrite E1. cbn [mbind outcome_bind].
    by rewrite E2. }
  assert (Hall : Forall (node_ok h) (insert_at h k L node)).
  { apply Forall_app. split; [eapply node_ok_sub; [apply lo_sub|apply H]|].
    constructor; [done|]. eapply node_ok_sub; [apply hi_sub|apply H]. }
  constructor; cbn [st_arena st_nodes].
  - by eapply same_nodes_heap.
  - rewrite (same_nodes_height h h2) by done. split; [done|].
    intros [Hx%lo_sub|[Hx|Hx%hi_sub]%elem_of_cons]%elem_of_app; [done| |done].
    destruct Hf as [Hn _ _]. apply Hn. rewrite <- Hx. left.
  - eapply Forall_impl; [done|]. intros q. by apply same_nodes_ok.
  - intros l Hl. specialize (Hch l Hl). rewrite (same_nodes_lvl h h2) by done.
    unfold level_at in Hch. unfold insert_at, lvl in *. rewrite filter_app, filter_cons, Hhn.
    rewrite andb_diag in Hch. destruct (Nat.ltb_spec l height).
    + by rewrite decide_True.
    + rewrite decide_False by lia. rewrite <- filter_app, <- (lo_hi h k L Hk); [done|by eapply se_valid|apply H].
  - assert (Hso : StronglySorted (key_lt h) (insert_at h k L node)).
    { apply sorted_insert_at; try done; [by eapply se_valid|apply H]. }
    clear -Hso Hsame. induction Hso as [|q M _ IH Hq]; constructor; [done|].
    eapply Forall_impl; [done|]. intros x. unfold key_lt. by rewrite !(same_nodes_key h h2).
  - apply H.
  - pose proof (se_heights h s L H) as Hhs. rewrite Forall_forall in Hhs |- *.
    intros q Hq. rewrite (same_nodes_height h h2) by done.
    apply elem_of_app in Hq as [Hq%lo_sub|[->|Hq%hi_sub]%elem_of_cons]; [by apply Hhs|lia|by apply Hhs].
Qed.

(** ** Insertion *)

(** The entries of the list, in order, and what insertion means for them. *)

Definition contents (h : nodes) (L : list arena_ptr) : list (bytes * bytes) :=
  (fun q => (key_of h q, value_of h q)) <$> L.

Definition kv_below (k : bytes) (kv : bytes * bytes) : Prop := key_cmp kv.1 k = Lt.
#[export] Instance kv_below_dec k kv : Decision (kv_below k kv).
Proof. unfold kv_below. apply _. Defined.

Definition spec_insert (k v : bytes) (kvs : list (bytes * bytes)) : list (bytes * bytes) :=
  filter (kv_below k) kvs ++ (k, v) :: filter (fun kv => ~ kv_below k kv) kvs.

Lemma contents_lo h k L : contents h (lo h k L) = filter (kv_below k) (contents h L).
Proof.
  unfold contents, lo. induction L as [|q L IH]; [done|]. rewrite fmap_cons, !filter_cons.
  do 2 case_decide; unfold below, kv_below in *; cbn [fst] in *; try tauto.
  rewrite fmap_cons. by f_equal.
Qed.

Lemma contents_hi h k L : contents h (hi h k L) = filter (fun kv => ~ kv_below k kv) (contents h L).
Proof.
  unfold contents, hi. induction L as [|q L IH]; [done|]. rewrite fmap_cons, !filter_cons.
  do 2 case_decide; unfold below, kv_below in *; cbn [fst] in *; try tauto.
  rewrite fmap_cons. by f_equal.
Qed.

Lemma contents_agree h h1 L : agree h h1 L -> contents h1 L = contents h L.
Proof.
  intros H. apply list_fmap_ext. intros i q Hq. unfold key_of, value_of.
  rewrite H by by eapply list_elem_of_lookup_2. done.
Qed.

Lemma contents_same h h' L : same_nodes h h' -> contents h' L = contents h L.
Proof.
  intros H. apply list_fmap_ext. intros i q _. by rewrite (same_nodes_key h h'), (same_nodes_value h h').
Qed.

Lemma contents_app_cons h A q B :
  contents h (A ++ q :: B) = contents h A ++ (key_of h q, value_of h q) :: contents h B.
Proof. unfold contents. by rewrite fmap_app, fmap_cons. Qed.

(** The counters after a node of the next height has been prepared. *)

Definition prepared (s : SkipList) : SkipList :=
  with_level (set_entries (wrap usize_bits (sl_entries s + 1)) s) (next_height s).

Definition alloc_for (p : profile) (st : SlStore) (s : SkipList) (kl vl : Z) : outcome (Arena * arena_ptr) :=
  Arena_alloc_raw p (st_arena st) (node_layout (next_height s) kl vl).

Lemma new_node_done p st s L kl vl :
  sl_inv st s L -> in_width 16 kl -> in_width 32 vl ->
  match alloc_for p st s kl vl with
  | Done (a', node) =>
      let n := Node_init_node (next_height s) kl vl in
      new_node p st s kl vl =
        Done (mkStore a' (<[node := n]> (st_nodes st)), prepared s, node, next_height s) /\
      st_nodes st !! node = None /\ heap_ok a' (<[node := n]> (st_nodes st))
  | _ => is_done (new_node p st s kl vl) = false
  end.
Proof.
  intros H Hk Hv. pose proof (next_height_bounds s) as Hb.
  assert (HM : (next_height s <= MAX_HEAD_HEIGHT)%nat) by (unfold MAX_HEAD_HEIGHT; lia).
  assert (E : forall (r : outcome (SlStore * arena_ptr)),
    Node_alloc p st (next_height s) kl vl = r ->
    new_node p st s kl vl = ('(st, node) ← r; Done (st, prepared s, node, next_height s))).
  { intros r <-. unfold new_node.
    assert (Hs' : searchable (st_nodes st) (set_entries (wrap usize_bits (sl_entries s + 1)) s) L).
    { destruct (sl_inv_searchable _ _ _ H). by constructor. }
    rewrite (generate_random_level_done _ _ _ _ Hs'). cbn [mbind outcome_bind].
    change (next_height (set_entries _ s)) with (next_height s).
    rewrite (debug_assert_true _ (next_height s <=? _)%nat) by by apply Nat.leb_le. cbn [mbind outcome_bind].
    rewrite debug_assert_true by (apply Z.leb_le; change (u_max 16) with 65535; lia). cbn [mbind outcome_bind].
    by rewrite (wrap_small 16), (wrap_small 32) by done. }
  unfold alloc_for. destruct (Arena_alloc_raw p (st_arena st) _) as [[a' node]| | |] eqn:Ea.
  2-4: destruct (Node_alloc p st (next_height s) kl vl) as [[? ?]| | |] eqn:En; rewrite (E _ eq_refl);
    try done; pose proof (Node_alloc_fail p st (next_height s) kl vl HM Hk Hv) as Hf;
    rewrite Ea, En in Hf; by specialize (Hf eq_refl).
  destruct (Node_alloc_done p st (next_height s) kl vl a' node) as (En & Hnone & Hh); try done;
    [apply H|]. split; [|done]. by rewrite (E _ En).
Qed.

(** A store to which the node for [k], [v] has been added still represents
    the list, and the node is new to it. *)

Lemma ready_store st s L k v a' node :
  sl_inv st s L -> st_nodes st !! node = None ->
  heap_ok a' (<[node := Node_init_node (next_height s) (len k) (len v)]> (st_nodes st)) ->
  let h1 := <[node := kv_node (next_height s) k v]> (st_nodes st) in
  agree (st_nodes st) h1 (sl_sentinel s :: L) /\ sl_inv (mkStore a' h1) (prepared s) L /\
  node ∉ sl_sentinel s :: L.
Proof.
  intros H Hnone Hheap h1. pose proof (next_height_bounds s) as Hb.
  pose proof (sl_inv_searchable _ _ _ H) as Hse. destruct (si_head _ _ _ H) as [Hhead Hsn].
  assert (Hnot : node ∉ sl_sentinel s :: L).
  { intros [->|Hin]%elem_of_cons.
    - unfold height_of in Hhead. rewrite Hnone in Hhead. done.
    - pose proof (si_nodes _ _ _ H) as Hn. rewrite Forall_forall in Hn.
      destruct (Hn node Hin) as ((n & Hn' & _) & _). congruence. }
  assert (Hag : agree (st_nodes st) h1 (sl_sentinel s :: L)).
  { intros q Hq. unfold h1. rewrite lookup_insert_ne; [done|]. by intros ->. }
  assert (Hheap1 : heap_ok a' h1).
  { assert (Eh : h1 = <[node := kv_node (next_height s) k v]>
      (<[node := Node_init_node (next_height s) (len k) (len v)]> (st_nodes st)))
      by by rewrite insert_insert_eq.
    destruct Hheap as [Ha Ht Hp]. constructor; [done|..]; rewrite Eh; apply map_Forall_insert_2; try done.
    - cbn. by rewrite length_replicate.
    - specialize (Hp node _ (lookup_insert_eq _ _ _)). cbv beta in Hp.
      pose proof (len_nonneg k). pose proof (len_nonneg v). rewrite node_size_init in Hp by done.
      unfold node_size, kv_node, node_layout in *. cbn [n_height n_payload l_size] in *.
      rewrite len_Some_fmap, len_app. by rewrite Z.add_assoc. }
  assert (Hse1 : searchable h1 (prepared s) L).
  { eapply searchable_agree; [exact Hse|done|apply Hheap1|done|].
    unfold prepared. cbn [sl_max_level with_level set_entries].
    pose proof (si_max _ _ _ H). unfold MAX_HEAD_HEIGHT in *. lia. }
  assert (Hhead1 : height_of h1 (sl_sentinel s) = MAX_HEAD_HEIGHT)
    by (unfold height_of; by rewrite Hag by left).
  split; [done|]. split; [destruct Hse1; by constructor|done].
Qed.

(** Linking it inserts the entry. *)

Lemma ready_link p st s L k v a' node t :
  sl_inv st s L -> valid k -> exact (st_nodes st) k L = None -> st_nodes st !! node = None ->
  heap_ok a' (<[node := Node_init_node (next_height s) (len k) (len v)]> (st_nodes st)) ->
  let h1 := <[node := kv_node (next_height s) k v]> (st_nodes st) in
  ctx_ok h1 (prepared s) k L t ->
  exists h', link_node p (mkStore a' h1) (prepared s) k t node (next_height s) = Done (mkStore a' h', prepared s, node) /\
    sl_inv (mkStore a' h') (prepared s) (insert_at (st_nodes st) k L node) /\
    contents h' (insert_at (st_nodes st) k L node) = spec_insert k v (contents (st_nodes st) L) /\
    node ∉ L.
Proof.
  intros H Hk He Hnone Hheap h1 Ht. pose proof (next_height_bounds s) as Hb.
  destruct (ready_store st s L k v a' node H Hnone Hheap) as (Hag & Hinv1 & Hnot). fold h1 in Hag, Hinv1.
  assert (HagL : agree (st_nodes st) h1 L) by (intros q Hq; apply Hag; by right).
  assert (Hn1 : h1 !! node = Some (kv_node (next_height s) k v)) by apply lookup_insert_eq.
  destruct (kv_node_written (next_height s) k v) as (Hw & Hwk & Hwv).
  assert (HM : (next_height s <= MAX_HEAD_HEIGHT)%nat) by (unfold MAX_HEAD_HEIGHT; lia).
  destruct (si_head _ _ _ Hinv1) as [Hhead1 Hsn].
  destruct (link_node_spec p a' h1 (prepared s) k L t node (next_height s)) as (h' & El & Hsame & Hinv'); try done.
  - apply Hinv1.
  - by apply (sl_inv_searchable _ _ _ Hinv1).
  - constructor; [done|done|]. intros l Hl. unfold nxt. rewrite Hn1. cbn. by apply lookup_replicate_2.
  - lia.
  - by rewrite (agree_exact (st_nodes st)).
  - split; [by exists (kv_node (next_height s) k v)|]. unfold key_of, height_of. rewrite Hn1. cbn [from_option].
    rewrite Hwk. split; [done|]. cbn [n_height kv_node]. lia.
  - unfold key_of. by rewrite Hn1.
  - unfold height_of. by rewrite Hn1.
  - unfold prepared. cbn [sl_max_level with_level]. lia.
  - exists h'. split; [done|]. unfold insert_at in *. rewrite (agree_lo HagL), (agree_hi HagL) in Hinv'.
    split; [done|]. split; [|intros Hx; apply Hnot; by right].
    rewrite (contents_same h1 h') by done. rewrite contents_app_cons. unfold spec_insert.
    rewrite (contents_agree (st_nodes st) h1 (lo _ _ _)) by (intros q Hq; by eapply HagL, (lo_sub (st_nodes st))).
    rewrite (contents_agree (st_nodes st) h1 (hi _ _ _)) by (intros q Hq; by eapply HagL, (hi_sub (st_nodes st))).
    rewrite contents_lo, contents_hi. do 2 f_equal. unfold key_of, value_of. rewrite Hn1.
    cbn [from_option]. by rewrite Hwk, Hwv.
Qed.

Lemma exact_in h k L q :
  valid k -> Forall (node_ok h) L -> StronglySorted (key_lt h) L ->
  exact h k L = Some q <-> q ∈ L /\ key_of h q = k.
Proof.
  intros Hk Hn Hs. apply exact_spec; [done| |done].
  eapply Forall_impl; [done|]. by intros x (_ & ? & _).
Qed.

Lemma insert_outcome p st s L k v :
  sl_inv st s L -> valid k -> in_width 16 (len k) -> in_width 32 (len v) ->
  match exact (st_nodes st) k L with
  | Some q => insert p st s k v = Done (st, s, q)
  | None =>
      match alloc_for p st s (len k) (len v) with
      | Done (a', node) => exists h', insert p st s k v = Done (mkStore a' h', prepared s, node) /\
          sl_inv (mkStore a' h') (prepared s) (insert_at (st_nodes st) k L node) /\
          contents h' (insert_at (st_nodes st) k L node) = spec_insert k v (contents (st_nodes st) L) /\
          node ∉ L
      | _ => is_done (insert p st s k v) = false
      end
  end.
Proof.
  intros H Hk Hlk Hlv. pose proof (sl_inv_searchable _ _ _ H) as Hse.
  destruct (search_spec p (st_nodes st) s k L Hse Hk) as (t & Et & Hctx).
  unfold insert. rewrite Et. cbn [mbind outcome_bind]. pose proof Hctx as [Hf _]. rewrite Hf.
  destruct (exact (st_nodes st) k L) as [q|] eqn:He; [done|].
  pose proof (new_node_done p st s L (len k) (len v) H Hlk Hlv) as Hnew.
  destruct (alloc_for p st s (len k) (len v)) as [[a' node]| | |].
  2-4: by destruct (new_node p st s (len k) (len v)).
  destruct Hnew as (En & Hnone & Hheap). rewrite En. cbn [mbind outcome_bind].
  rewrite (write_key_done _ _ _ (next_height s) _ (len v)); [|apply Hlv|by rewrite lookup_insert_eq].
  cbn [mbind outcome_bind]. rewrite insert_insert_eq.
  rewrite (write_value_done _ _ _ (next_height s) k); [|by rewrite lookup_insert_eq].
  cbn [mbind outcome_bind]. rewrite insert_insert_eq.
  destruct (ready_store st s L k v a' node H Hnone Hheap) as (Hag & _ & _).
  destruct (ready_link p st s L k v a' node t H Hk He Hnone Hheap) as (h' & El & Hinv & Hc & Hn); [|by exists h'].
  eapply ctx_ok_agree; [|done|exact Hctx]. intros q Hq. apply Hag. by right.
Qed.

(** [f] writes exactly the key [k] into the node it is given. *)

Definition writes_key (f : SlStore -> arena_ptr -> outcome SlStore) (k : bytes) (vl : Z) : Prop :=
  forall a h node height, h !! node = Some (Node_init_node height (len k) vl) ->
    f (mkStore a h) node = Done (mkStore a (<[node := k_node height k vl]> h)).

Lemma insert_with_outcome p st s L k v f :
  sl_inv st s L -> valid k -> in_width 16 (len k) -> in_width 32 (len v) -> writes_key f k (len v) ->
  match alloc_for p st s (len k) (len v) with
  | Done (a', node) =>
      match exact (st_nodes st) k L with
      | Some q => exists h', insert_with p st s (len k) v f = Done (mkStore a' h', prepared s, q) /\
          sl_inv (mkStore a' h') (prepared s) L /\ contents h' L = contents (st_nodes st) L
      | None => exists h', insert_with p st s (len k) v f = Done (mkStore a' h', prepared s, node) /\
          sl_inv (mkStore a' h') (prepared s) (insert_at (st_nodes st) k L node) /\
          contents h' (insert_at (st_nodes st) k L node) = spec_insert k v (contents (st_nodes st) L) /\
          node ∉ L
      end
  | _ => is_done (insert_with p st s (len k) v f) = false
  end.
Proof.
  intros H Hk Hlk Hlv Hf. unfold insert_with.
  pose proof (new_node_done p st s L (len k) (len v) H Hlk Hlv) as Hnew.
  destruct (alloc_for p st s (len k) (len v)) as [[a' node]| | |].
  2-4: by destruct (new_node p st s (len k) (len v)).
  destruct Hnew as (En & Hnone & Hheap). rewrite En. cbn [mbind outcome_bind].
  rewrite (Hf _ _ _ (next_height s)); [|by rewrite lookup_insert_eq].
  cbn [mbind outcome_bind]. rewrite insert_insert_eq.
  rewrite (write_value_done _ _ _ (next_height s) k); [|by rewrite lookup_insert_eq].
  cbn [mbind outcome_bind st_nodes]. rewrite insert_insert_eq.
  destruct (ready_store st s L k v a' node H Hnone Hheap) as (Hag & Hinv1 & _).
  set (h1 := <[node := kv_node (next_height s) k v]> (st_nodes st)) in *.
  assert (Hn1 : h1 !! node = Some (kv_node (next_height s) k v)) by apply lookup_insert_eq.
  destruct (kv_node_written (next_height s) k v) as (Hw & Hwk & _).
  rewrite get_key_bytes_done by (by eexists). cbn [mbind outcome_bind].
  assert (Hkey : key_of h1 node = k) by (unfold key_of; by rewrite Hn1). rewrite Hkey.
  destruct (search_spec p h1 (prepared s) k L (sl_inv_searchable _ _ _ Hinv1) Hk) as (t & Et & Hctx).
  rewrite Et. cbn [mbind outcome_bind]. pose proof Hctx as [Hs _]. rewrite Hs.
  assert (HagL : agree (st_nodes st) h1 L) by (intros q Hq; apply Hag; by right).
  rewrite (agree_exact (st_nodes st) h1) by done.
  destruct (exact (st_nodes st) k L) as [q|] eqn:He.
  - exists h1. split; [done|]. split; [done|]. by apply contents_agree.
  - destruct (ready_link p st s L k v a' node t H Hk He Hnone Hheap Hctx) as (h' & El & Hinv & Hc & Hn).
    by exists h'.
Qed.

(** ** Iteration *)

Lemma chain_0 h s L : searchable h s L -> chain h 0 (sl_sentinel s) L.
Proof.
  intros H. pose proof (se_chains h s L H 0%nat ltac:(unfold MAX_HEAD_HEIGHT; lia)) as Hc.
  by rewrite lvl_0 in Hc by apply H.
Qed.

Lemma Iter_collect_spec p h : forall L q0 fuel,
  towers_ok h -> chain h 0 q0 L -> (length L < fuel)%nat -> Iter_collect fuel p h (mkIter (head L)) = Done L.
Proof.
  induction L as [|q L IH]; intros q0 [|fuel] Ht Hc Hf; simpl in Hf; try lia; [done|]. destruct Hc as [_ Hc].
  cbn [Iter_collect head Iter_next item].
  rewrite (load_next_done _ _ _ _ (head L)); [|done|unfold MAX_HEAD_HEIGHT; lia|by apply chain_nxt].
  cbn [mbind outcome_bind]. by rewrite (IH q) by (done || lia).
Qed.

Lemma SkipList_iter_done p h s L :
  searchable h s L -> SkipList_iter p h s = Done (mkIter (head L)).
Proof.
  intros H. unfold SkipList_iter, SkipList_head. pose proof (chain_0 h s L H) as Hc.
  by rewrite (load_next_done _ _ _ _ (head L)); [|apply H|unfold MAX_HEAD_HEIGHT; lia|by apply chain_nxt].
Qed.

Lemma ctx_succ_0 h s k L t :
  searchable h s L -> ctx_ok h s k L t -> ctx_at (successors t) 0 = Done (head (hi h k L)).
Proof.
  intros H [_ Hc]. destruct (Hc 0%nat ltac:(unfold MAX_HEAD_HEIGHT; lia)) as [_ Hs].
  unfold ctx_at. rewrite Hs. unfold succ_at.
  by rewrite lvl_0 by (eapply node_ok_sub; [apply hi_sub|apply H]).
Qed.

Lemma exact_head h k L q : exact h k L = Some q -> head (hi h k L) = Some q.
Proof. unfold exact. destruct (head (hi h k L)); [|done]. case_match; congruence. Qed.

Lemma SkipList_seek_done p h s k L :
  searchable h s L -> valid k -> SkipList_seek p h s k = Done (mkIter (head (hi h k L))).
Proof.
  intros H Hk. destruct (search_spec p h s k L H Hk) as (t & Et & Hctx).
  unfold SkipList_seek. rewrite Et. cbn [mbind outcome_bind]. pose proof Hctx as [Hf _]. rewrite Hf.
  destruct (exact h k L) as [q|] eqn:He; [by rewrite (exact_head _ _ _ _ He)|].
  by rewrite (ctx_succ_0 h s k L).
Qed.

(** Where a range iterator stops. *)

Definition in_end (e : Bound) (key : bytes) : bool :=
  match e with
  | Excluded b => cmp_lt (bytes_cmp key b)
  | Included b => match bytes_cmp key b with Gt => false | _ => true end
  | Unbounded => true
  end.

Lemma RangeIter_collect_spec p h e : forall L q0 fuel,
  towers_ok h -> Forall (readable h) L -> chain h 0 q0 L -> (length L < fuel)%nat ->
  RangeIter_collect fuel p h (mkRangeIter (head L) e) =
  Done (take_while (fun q => in_end e (key_of h q)) L).
Proof.
  induction L as [|q L IH]; intros q0 [|fuel] Ht Hr Hc Hf; simpl in Hf; try lia; [done|].
  destruct Hc as [_ Hc]. apply Forall_cons in Hr as [Hq Hr].
  cbn [RangeIter_collect head take_while]. unfold RangeIter_next at 1. cbn [ri_start end_bound].
  rewrite get_key_bytes_done by done. cbn [mbind outcome_bind].
  assert (Hstop : match e with
     | Included bound => match bytes_cmp (key_of h q) bound with Gt => true | _ => false end
     | Excluded bound => match bytes_cmp (key_of h q) bound with Lt => false | _ => true end
     | Unbounded => false end = negb (in_end e (key_of h q))).
  { unfold in_end, cmp_lt. by destruct e; repeat case_match. }
  rewrite Hstop. destruct (in_end e (key_of h q)); [|done]. cbn [negb].
  rewrite (load_next_done _ _ _ _ (head L)); [|done|unfold MAX_HEAD_HEIGHT; lia|by apply chain_nxt].
  cbn [mbind outcome_bind]. by rewrite (IH q) by (done || lia).
Qed.

Definition from_start (h : nodes) (b : Bound) (L : list arena_ptr) : list arena_ptr :=
  match b with
  | Included k | Excluded k => hi h k L
  | Unbounded => L
  end.

Definition bound_valid (b : Bound) : Prop :=
  match b with Included k | Excluded k => valid k | Unbounded => True end.

Lemma range_collect p h s L b e :
  searchable h s L -> bound_valid b ->
  (r ← SkipList_range p h s b e; RangeIter_collect (S (length L)) p h r) =
  Done (take_while (fun q => in_end e (key_of h q)) (from_start h b L)).
Proof.
  intros H Hb. assert (Hstart : SkipList_range p h s b e = Done (mkRangeIter (head (from_start h b L)) e)).
  { unfold SkipList_range. destruct b; cbn [from_start];
      rewrite ?(SkipList_seek_done p h s k L), ?(SkipList_iter_done p h s L) by done; done. }
  rewrite Hstart. cbn [mbind outcome_bind].
  assert (Hc : exists q0 X, L = X ++ from_start h b L /\ chain h 0 q0 (from_start h b L)).
  { pose proof (chain_0 h s L H) as Hc0. destruct b as [k|k|]; cbn [from_start].
    1-2: pose proof (lo_hi h k L Hb (se_valid _ _ _ H) (se_sorted _ _ _ H)) as E; rewrite E in Hc0 at 1;
      eexists _, _; split; [exact E|by apply chain_last in Hc0].
    by exists (sl_sentinel s), []. }
  destruct Hc as (q0 & X & E & Hc).
  assert (Hr : Forall (readable h) (from_start h b L)).
  { apply Forall_forall. intros q Hq. pose proof (se_nodes h s L H) as Hn. rewrite Forall_forall in Hn.
    destruct (Hn q) as (? & _); [|done]. rewrite E. apply elem_of_app. by right. }
  apply (RangeIter_collect_spec p h e _ q0); [apply H|done|done|].
  apply (f_equal length) in E. rewrite length_app in E. lia.
Qed.

(** ** A new list, and runs of insertions *)

Lemma SkipList_new_done p a :
  arena_ok a ->
  match Arena_alloc_raw p a (node_layout MAX_HEAD_HEIGHT 0 0) with
  | Done (a', ptr) =>
      let st := mkStore a' {[ptr := Node_init_node MAX_HEAD_HEIGHT 0 0]} in
      let s := mkSkipList ptr (seed_generator 1) 0 1 in
      SkipList_new p (mkStore a ∅) = Done (st, s) /\ sl_inv st s []
  | _ => is_done (SkipList_new p (mkStore a ∅)) = false
  end.
Proof.
  intros Ha. assert (Hheap : heap_ok a ∅) by (constructor; [done|apply map_Forall_empty..]).
  assert (H16 : in_width 16 0) by (split; [lia|done]). assert (H32 : in_width 32 0) by (split; [lia|done]).
  unfold SkipList_new, Header_new. destruct (Arena_alloc_raw p a _) as [[a' ptr]| | |] eqn:Ea.
  2-4: pose proof (Node_alloc_fail p (mkStore a ∅) MAX_HEAD_HEIGHT 0 0 ltac:(lia) H16 H32) as Hf;
    cbn [st_arena] in Hf; rewrite Ea in Hf; specialize (Hf eq_refl); by destruct (Node_alloc _ _ _ _ _).
  destruct (Node_alloc_done p (mkStore a ∅) MAX_HEAD_HEIGHT 0 0 a' ptr) as (En & _ & Hh); try done.
  cbn [st_nodes] in *. rewrite En. rewrite insert_empty in *. split; [done|].
  constructor; cbn [st_arena st_nodes sl_sentinel sl_max_level]; try done.
  - unfold height_of. rewrite lookup_singleton_eq. split; [done|]. by intros ?%not_elem_of_nil.
  - intros l Hl. unfold lvl. simpl. unfold nxt. rewrite lookup_singleton_eq. simpl.
    by apply (lookup_replicate_2 MAX_HEAD_HEIGHT).
  - constructor.
  - unfold MAX_HEAD_HEIGHT. lia.
Qed.

Fixpoint inserts (p : profile) (st : SlStore) (s : SkipList) (kvs : list (bytes * bytes))
  : outcome (SlStore * SkipList) :=
  match kvs with
  | [] => Done (st, s)
  | (k, v) :: kvs => '(st, s, _) ← insert p st s k v; inserts p st s kvs
  end.

(** The abstract counterpart: a sorted association list in which the first
    value inserted for a key stays. *)

Definition spec_put (m : list (bytes * bytes)) (kv : bytes * bytes) : list (bytes * bytes) :=
  if decide (kv.1 ∈ m.*1) then m else spec_insert kv.1 kv.2 m.

Definition kv_ok (kv : bytes * bytes) : Prop :=
  valid kv.1 /\ in_width 16 (len kv.1) /\ in_width 32 (len kv.2).

Definition repr (st : SlStore) (s : SkipList) (m : list (bytes * bytes)) : Prop :=
  exists L, sl_inv st s L /\ contents (st_nodes st) L = m.

Lemma exact_None_keys st s L k :
  sl_inv st s L -> valid k ->
  exact (st_nodes st) k L = None <-> k ∉ (contents (st_nodes st) L).*1.
Proof.
  intros H Hk. pose proof (exact_in (st_nodes st) k L) as He. unfold contents.
  rewrite <- list_fmap_compose. unfold compose. cbn [fst]. split.
  - intros Hn (q & -> & Hq)%list_elem_of_fmap.
    assert (exact (st_nodes st) (key_of (st_nodes st) q) L = Some q) as E; [|congruence].
    apply He; [done|apply H|apply H|done].
  - intros Hn. destruct (exact (st_nodes st) k L) as [q|] eqn:E; [|done]. exfalso. apply Hn.
    apply exact_in in E as [Hq <-]; [|done|apply H|apply H]. apply list_elem_of_fmap. eauto.
Qed.

Lemma insert_refines p st s m k v st' s' q :
  repr st s m -> kv_ok (k, v) -> insert p st s k v = Done (st', s', q) -> repr st' s' (spec_put m (k, v)).
Proof.
  intros (L & H & <-) (Hk & H16 & H32) E. cbn [fst snd] in *.
  pose proof (insert_outcome p st s L k v H Hk H16 H32) as Ho.
  pose proof (exact_None_keys st s L k H Hk) as Hkeys. unfold spec_put. cbn [fst snd].
  destruct (exact (st_nodes st) k L) as [q'|] eqn:He.
  - rewrite Ho in E. simplify_eq. rewrite decide_True; [by exists L|].
    destruct (decide (k ∈ (contents (st_nodes st') L).*1)); [done|]. by apply Hkeys in n.
  - rewrite decide_False by by apply Hkeys.
    destruct (alloc_for p st s (len k) (len v)) as [[a' node]| | |]; try by rewrite E in Ho.
    destruct Ho as (h' & Ei & Hinv & Hc & _). rewrite Ei in E. simplify_eq.
    by exists (insert_at (st_nodes st) k L q).
Qed.

Lemma inserts_refine p kvs : forall st s m st' s',
  repr st s m -> Forall kv_ok kvs -> inserts p st s kvs = Done (st', s') ->
  repr st' s' (foldl spec_put m kvs).
Proof.
  induction kvs as [|[k v] kvs IH]; intros st s m st' s' H Hok E; simpl in E; [by simplify_eq|].
  apply Forall_cons in Hok as [Hkv Hok]. apply bind_done in E as ([[st1 s1] q] & E1 & E2).
  simpl. eapply IH; [|done|exact E2]. by eapply insert_refines.
Qed.

Lemma repr_sorted st s m :
  repr st s m -> StronglySorted (fun a b => key_cmp a.1 b.1 = Lt) m.
Proof.
  intros (L & H & <-). pose proof (si_sorted _ _ _ H) as Hs. unfold contents.
  clear H. induction Hs as [|q L _ IH Hq]; [constructor|]. rewrite fmap_cons. constructor; [done|].
  rewrite Forall_fmap. eapply Forall_impl; [done|]. done.
Qed.

(** ** Properties *)

Lemma search_outcome p st s L k :
  sl_inv st s L -> valid k ->
  exists t succ, search p (st_nodes st) s k = Done t /\ search_node p (st_nodes st) s k = Done succ /\
    (forall q, searched_node t = Some q <-> q ∈ L /\ key_of (st_nodes st) q = k) /\
    match succ with
    | Some q => q ∈ L /\ key_cmp (key_of (st_nodes st) q) k <> Lt /\
        forall q', q' ∈ L -> key_cmp (key_of (st_nodes st) q') k <> Lt -> q' = q \/ key_lt (st_nodes st) q q'
    | None => forall q, q ∈ L -> key_cmp (key_of (st_nodes st) q) k = Lt
    end.
Proof.
  intros H Hk. pose proof (sl_inv_searchable _ _ _ H) as Hse.
  destruct (search_spec p (st_nodes st) s k L Hse Hk) as (t & Et & Hctx).
  exists t, (head (hi (st_nodes st) k L)). split; [done|]. split; [|split].
  - unfold search_node. rewrite Et. cbn [mbind outcome_bind]. by apply (ctx_succ_0 _ s).
  - destruct Hctx as [-> _]. intros q. apply exact_in; [done|apply H|apply H].
  - pose proof (StronglySorted_filter_lt (st_nodes st) (fun q => ~ below (st_nodes st) k q) L (si_sorted _ _ _ H)) as Hs.
    fold (hi (st_nodes st) k L) in Hs.
    assert (Hhi : forall q, q ∈ L -> ~ below (st_nodes st) k q -> q ∈ hi (st_nodes st) k L)
      by (intros; by apply list_elem_of_filter).
    destruct (hi (st_nodes st) k L) as [|q B] eqn:E; simpl.
    + intros q Hq. destruct (key_cmp (key_of (st_nodes st) q) k) eqn:Ec; try done;
        exfalso; apply (not_elem_of_nil q), Hhi; [done| |done|]; unfold below; congruence.
    + assert (Hq : q ∈ hi (st_nodes st) k L) by (rewrite E; left).
      split; [by eapply hi_sub|]. split; [by apply list_elem_of_filter in Hq as [? _]|].
      intros q' Hq' Hnb. apply StronglySorted_inv in Hs as [_ Hs]. rewrite Forall_forall in Hs.
      specialize (Hhi q' Hq' Hnb). apply elem_of_cons in Hhi as [->|Hin]; [by left|right; by apply Hs].
Qed.

(** Searching a well-formed list never panics and terminates; it reports
    the node with the key exactly when the list has one, and the base-level
    successor it finds is the first node whose key is not below the key
    searched for (null when all are below). *)
Theorem skiplist_search p st s L k :
  sl_inv st s L -> valid k ->
  exists t succ, search p (st_nodes st) s k = Done t /\ search_node p (st_nodes st) s k = Done succ /\
    (forall q, searched_node t = Some q <-> q ∈ L /\ key_of (st_nodes st) q = k) /\
    match succ with
    | Some q => q ∈ L /\ key_cmp (key_of (st_nodes st) q) k <> Lt /\
        forall q', q' ∈ L -> key_cmp (key_of (st_nodes st) q') k <> Lt -> q' = q \/ key_lt (st_nodes st) q q'
    | None => forall q, q ∈ L -> key_cmp (key_of (st_nodes st) q) k = Lt
    end.
Proof. apply search_outcome. Qed.

(** Inserting a key that is absent places the entry at its position in the
    key order and counts it, keeping the list well-formed on every level;
    inserting a key that is present changes nothing and returns its node; the
    only other outcome is the arena's refusal of the node's layout. *)
Theorem skiplist_insert p st s m k v :
  repr st s m -> kv_ok (k, v) ->
  (k ∈ m.*1 ->
     exists q, insert p st s k v = Done (st, s, q) /\ key_of (st_nodes st) q = k) /\
  (k ∉ m.*1 ->
     match Arena_alloc_raw p (st_arena st) (node_layout (next_height s) (len k) (len v)) with
     | Done (a', q) =>
         exists st' s', insert p st s k v = Done (st', s', q) /\ st_arena st' = a' /\
           repr st' s' (spec_insert k v m) /\ sl_entries s' = wrap usize_bits (sl_entries s + 1) /\
           key_of (st_nodes st') q = k /\ value_of (st_nodes st') q = v
     | _ => is_done (insert p st s k v) = false
     end).
Proof.
  intros (L & H & <-) (Hk & H16 & H32). cbn [fst snd] in *.
  pose proof (insert_outcome p st s L k v H Hk H16 H32) as Ho.
  pose proof (exact_None_keys st s L k H Hk) as Hkeys.
  destruct (exact (st_nodes st) k L) as [q|] eqn:He.
  - split; [|intros Hn; by apply Hkeys in Hn]. intros _. exists q. split; [done|].
    apply exact_in in He; [by destruct He|done|apply H|apply H].
  - split; [intros Hin; by apply Hkeys in Hin|]. intros _. unfold alloc_for in Ho.
    destruct (Arena_alloc_raw p (st_arena st) _) as [[a' node]| | |]; try done.
    destruct Ho as (h' & E & Hinv & Hc & Hn). exists (mkStore a' h'), (prepared s).
    split; [done|]. split; [done|]. split; [by exists (insert_at (st_nodes st) k L node)|]. split; [done|].
    unfold insert_at in Hc. rewrite contents_app_cons in Hc. unfold spec_insert in Hc.
    apply app_inj_1 in Hc as [_ Hc]; [by simplify_eq|].
    rewrite <- contents_lo. unfold contents. by rewrite !length_fmap.
Qed.

(** C2: a list built by any run of insertions that fit the arena is the sorted
    map in which the first value inserted for a key stays: its entries are
    strictly ordered, iteration terminates and yields exactly its nodes. *)
Theorem skiplist_refines_map p a st0 s0 kvs st s :
  arena_ok a -> SkipList_new p (mkStore a ∅) = Done (st0, s0) -> Forall kv_ok kvs ->
  inserts p st0 s0 kvs = Done (st, s) ->
  exists L, sl_inv st s L /\
    contents (st_nodes st) L = foldl spec_put [] kvs /\
    StronglySorted (fun x y => key_cmp x.1 y.1 = Lt) (foldl spec_put [] kvs) /\
    (it ← SkipList_iter p (st_nodes st) s; Iter_collect (S (length L)) p (st_nodes st) it) = Done L.
Proof.
  intros Ha E0 Hok E. pose proof (SkipList_new_done p a Ha) as Hn.
  destruct (Arena_alloc_raw p a _) as [[a' ptr]| | |]; try by rewrite E0 in Hn.
  destruct Hn as [En Hinv]. rewrite En in E0. injection E0 as <- <-.
  assert (Hr : repr st s (foldl spec_put [] kvs)) by (eapply inserts_refine; [by exists []|done|exact E]).
  pose proof (repr_sorted _ _ _ Hr) as Hs. destruct Hr as (L & H & Hc). exists L.
  split; [done|]. split; [done|]. split; [done|]. pose proof (sl_inv_searchable _ _ _ H) as Hse.
  rewrite (SkipList_iter_done p _ s L Hse). cbn [mbind outcome_bind].
  eapply Iter_collect_spec; [apply Hse|by apply (chain_0 _ s)|lia].
Qed.

(** Inserting through a key-writing closure gives the same entries as the
    plain insertion; when the key is already present the existing node is
    returned and the entries stay, but a node has been allocated for nothing
    and the entry counter has advanced. *)
Theorem skiplist_insert_with p st s m k v f :
  repr st s m -> kv_ok (k, v) -> writes_key f k (len v) ->
  match Arena_alloc_raw p (st_arena st) (node_layout (next_height s) (len k) (len v)) with
  | Done (a', node) =>
      exists st' s' q, insert_with p st s (len k) v f = Done (st', s', q) /\ st_arena st' = a' /\
        repr st' s' (spec_put m (k, v)) /\ sl_entries s' = wrap usize_bits (sl_entries s + 1)
  | _ => is_done (insert_with p st s (len k) v f) = false
  end.
Proof.
  intros (L & H & <-) (Hk & H16 & H32) Hf. cbn [fst snd] in *.
  pose proof (insert_with_outcome p st s L k v f H Hk H16 H32 Hf) as Ho.
  pose proof (exact_None_keys st s L k H Hk) as Hkeys. unfold alloc_for in Ho.
  destruct (Arena_alloc_raw p (st_arena st) _) as [[a' node]| | |]; try done.
  unfold spec_put. cbn [fst snd].
  destruct (exact (st_nodes st) k L) as [q|]; destruct Ho as (h' & E & Hinv & Hc);
    exists (mkStore a' h'), (prepared s); eexists; (split; [done|]); (split; [done|]).
  - split; [|done]. rewrite decide_True; [by exists L|].
    destruct (decide (k ∈ (contents (st_nodes st) L).*1)); [done|]. by apply Hkeys in n.
  - split; [|done]. rewrite decide_False by by apply Hkeys. destruct Hc as [Hc _].
    by exists (insert_at (st_nodes st) k L node).
Qed.

(** Every level drawn for a new node lies between one and three, whatever
    the generator's state: the test meant to stop the reduction of tall towers
    looks at the address of a tower slot, which is never null. *)
Theorem random_level_at_most_three p st s L :
  sl_inv st s L ->
  exists s' height, generate_random_level p (st_nodes st) s = Done (s', height) /\ (1 <= height <= 3)%nat /\
    sl_seed s' = xorshift (sl_seed s) /\ sl_max_level s' = Nat.max (sl_max_level s) height.
Proof.
  intros H. exists (with_level s (next_height s)), (next_height s).
  rewrite (generate_random_level_done _ _ _ L); [|by apply sl_inv_searchable].
  pose proof (next_height_bounds s). done.
Qed.

End Spec.

(** ** Ranges under the two comparators *)

Definition after_start (b : Bound) (key : bytes) : bool :=
  match b with
  | Included k | Excluded k => negb (cmp_lt (bytes_cmp key k))
  | Unbounded => true
  end.

Lemma in_end_down e x y : bytes_cmp x y = Lt -> in_end e y = true -> in_end e x = true.
Proof.
  intros Hxy. destruct e as [b|b|]; cbn [in_end]; [| |done].
  - destruct (bytes_cmp y b) eqn:E; try done; intros _.
    + apply bytes_cmp_eq in E as ->. by rewrite Hxy.
    + by rewrite (bytes_cmp_trans _ _ _ Hxy E).
  - destruct (bytes_cmp y b) eqn:E; try done; intros _. by rewrite (bytes_cmp_trans _ _ _ Hxy E).
Qed.

Lemma take_while_filter h e L :
  StronglySorted (key_lt (CO := DefaultComparatorOk) h) L ->
  take_while (fun q => in_end e (key_of h q)) L = filter (fun q => in_end e (key_of h q) = true) L.
Proof.
  induction 1 as [|q L Hs IH Hq]; [done|]. cbn [take_while]. rewrite filter_cons.
  destruct (in_end e (key_of h q)) eqn:E.
  - rewrite decide_True by done. by f_equal.
  - rewrite decide_False by done. symmetry. apply list_filter_none. eapply Forall_impl; [done|].
    intros x Hx Hin. cbv beta in *. rewrite (in_end_down e _ _ Hx Hin) in E. done.
Qed.

(** Under the default comparator a range iterator terminates and yields,
    in order, exactly the nodes from the start key on up to the end bound; an
    excluded start key is treated as included. *)
Theorem skiplist_range_default p st s L b e :
  sl_inv (CO := DefaultComparatorOk) st s L ->
  (r ← SkipList_range (C := DefaultComparator) p (st_nodes st) s b e;
   RangeIter_collect (S (length L)) p (st_nodes st) r) =
  Done (filter (fun q => (after_start b (key_of (st_nodes st) q) && in_end e (key_of (st_nodes st) q)) = true) L).
Proof.
  intros H. pose proof (sl_inv_searchable _ _ _ H) as Hse.
  rewrite (range_collect p _ s L) by (done || by destruct b). f_equal.
  rewrite take_while_filter.
  - destruct b as [k|k|]; cbn [from_start]; unfold hi; rewrite ?list_filter_filter;
      apply list_filter_iff; intros q; unfold below, after_start; cbn [key_cmp DefaultComparatorOk];
      [| |done]; destruct (bytes_cmp (key_of (st_nodes st) q) k), (in_end e (key_of (st_nodes st) q));
      cbn; split; intros; try done; by destruct_and?.
  - destruct b; cbn [from_start]; [apply StronglySorted_filter_lt| apply StronglySorted_filter_lt|]; apply H.
Qed.

(** A small list, built and run by evaluation. *)

Definition demo_policy : ArenaPolicy := mkPolicy 512 1024.

Definition demo (C : Comparator) (kvs : list (bytes * bytes)) : outcome (SlStore * SkipList) :=
  a ← Arena_new Debug demo_policy AllocSystem;
  '(st, s) ← SkipList_new Debug (mkStore a ∅);
  inserts Debug st s kvs.

Definition demo_keys (C : Comparator) (kvs : list (bytes * bytes)) (b e : Bound) : outcome (list bytes) :=
  '(st, s) ← demo C kvs;
  r ← SkipList_range Debug (st_nodes st) s b e;
  qs ← RangeIter_collect (S (length kvs)) Debug (st_nodes st) r;
  Done (map (key_of (st_nodes st)) qs).

(** Over internal keys a range iterator's end bound is compared byte-wise,
    not by the list's comparator: of two versions of one key, the range that
    ends at the older version yields nothing although both versions lie in it. *)
Theorem skiplist_range_internal_end :
  let newer := enc [107] 5 KPut in
  let older := enc [107] 3 KPut in
  demo_keys InternalKeyComparator [(older, [1]); (newer, [2])] Unbounded Unbounded = Done [newer; older] /\
  demo_keys InternalKeyComparator [(older, [1]); (newer, [2])] (Included newer) (Included older) = Done [] /\
  InternalKeyComparator Debug newer older = Done Lt /\ InternalKeyComparator Debug older older = Done Eq.
Proof. vm_compute. done. Qed.

(** ** Witnesses *)

Definition demo_arena : Arena := mkArena 0 [Chunk_new (replicate 512 (Some 1))] 512 0 AllocSystem demo_policy.

Lemma demo_arena_ok : arena_ok demo_arena.
Proof.
  constructor.
  - unfold policy_ok. cbn. split_and!; vm_compute; congruence.
  - constructor; [|constructor]. split; [reflexivity|]. split; vm_compute; congruence.
  - cbn. lia.
  - reflexivity.
  - vm_compute. congruence.
  - reflexivity.
Qed.

Definition demo_st (kvs : list (bytes * bytes)) : SlStore :=
  match demo DefaultComparator kvs with Done (st, _) => st | _ => mkStore demo_arena ∅ end.
Definition demo_s (kvs : list (bytes * bytes)) : SkipList :=
  match demo DefaultComparator kvs with Done (_, s) => s | _ => Data_default (0%nat, 0) end.

Definition demo_kvs : list (bytes * bytes) := [([2], [20]); ([1], [10]); ([2], [99]); ([3], [30])].

Abbreviation kv_ok_default := (kv_ok (valid := fun _ => True)).

Lemma demo_kvs_ok : Forall kv_ok_default demo_kvs.
Proof. repeat constructor; vm_compute; congruence. Qed.

Lemma demo_repr : repr (CO := DefaultComparatorOk) (demo_st demo_kvs) (demo_s demo_kvs) [([1], [10]); ([2], [20]); ([3], [30])].
Proof.
  pose proof (SkipList_new_done (CO := DefaultComparatorOk) Debug demo_arena demo_arena_ok) as Hn.
  destruct (Arena_alloc_raw Debug demo_arena _) as [[a' ptr]| | |] eqn:Ea; [|vm_compute in Ea; done..].
  destruct Hn as [En Hinv].
  assert (Hr : repr (CO := DefaultComparatorOk) (demo_st demo_kvs) (demo_s demo_kvs) (foldl (spec_put (CO := DefaultComparatorOk)) [] demo_kvs)).
  { eapply (inserts_refine Debug demo_kvs); [exists []; split; [exact Hinv|done]|exact demo_kvs_ok|].
    vm_compute in Ea. injection Ea as <- <-. vm_compute. reflexivity. }
  exact Hr.
Qed.

Lemma skiplist_search_witness :
  exists (L : list arena_ptr) t succ, search (C := DefaultComparator) Debug (st_nodes (demo_st demo_kvs)) (demo_s demo_kvs) [2] = Done t /\
    search_node (C := DefaultComparator) Debug (st_nodes (demo_st demo_kvs)) (demo_s demo_kvs) [2] = Done succ /\
    (forall q, searched_node t = Some q <-> q ∈ L /\ key_of (st_nodes (demo_st demo_kvs)) q = [2]).
Proof.
  destruct demo_repr as (L & H & _).
  destruct (skiplist_search (CO := DefaultComparatorOk) Debug (demo_st demo_kvs) (demo_s demo_kvs) L [2] H I)
    as (t & succ & E1 & E2 & E3 & _).
  exists L, t, succ. split; [exact E1|]. split; [exact E2|exact E3].
Defined.

Lemma skiplist_insert_witness :
  exists q, insert (C := DefaultComparator) Debug (demo_st demo_kvs) (demo_s demo_kvs) [3] [31] =
      Done (demo_st demo_kvs, demo_s demo_kvs, q) /\ key_of (st_nodes (demo_st demo_kvs)) q = [3].
Proof.
  refine (proj1 (skiplist_insert (CO := DefaultComparatorOk) Debug (demo_st demo_kvs) (demo_s demo_kvs)
    [([1], [10]); ([2], [20]); ([3], [30])] [3] [31] demo_repr _) _).
  - split; [exact I|]. split; vm_compute; split; congruence.
  - cbn. right; right; left.
Defined.

Lemma skiplist_refines_map_witness :
  exists L : list arena_ptr, sl_inv (CO := DefaultComparatorOk) (demo_st demo_kvs) (demo_s demo_kvs) L /\
    contents (st_nodes (demo_st demo_kvs)) L = [([1], [10]); ([2], [20]); ([3], [30])] /\
    StronglySorted (fun x y => bytes_cmp x.1 y.1 = Lt) [([1], [10]); ([2], [20]); ([3], [30])] /\
    (it ← SkipList_iter Debug (st_nodes (demo_st demo_kvs)) (demo_s demo_kvs);
     Iter_collect (S (length L)) Debug (st_nodes (demo_st demo_kvs)) it) = Done L.
Proof.
  apply (skiplist_refines_map (CO := DefaultComparatorOk) Debug demo_arena (demo_st []) (demo_s []) demo_kvs);
    [exact demo_arena_ok | vm_compute; reflexivity | exact demo_kvs_ok | vm_compute; reflexivity].
Defined.

(** The key written byte by byte through the node's key pointer. *)

Definition write_key_with (k : bytes) (st : SlStore) (node : arena_ptr) : outcome SlStore :=
  write_node st node Node_key_ptr k.

Lemma write_key_with_ok k vl : 0 <= vl -> writes_key (write_key_with k) k vl.
Proof. intros Hv a h node height Hn. by apply write_key_done. Qed.

Lemma skiplist_insert_with_witness :
  match Arena_alloc_raw Debug (st_arena (demo_st demo_kvs)) (node_layout (next_height (demo_s demo_kvs)) 1 1) with
  | Done (a', node) =>
      exists st' s' q, insert_with (C := DefaultComparator) Debug (demo_st demo_kvs) (demo_s demo_kvs) 1 [7]
          (write_key_with [2]) = Done (st', s', q) /\ st_arena st' = a' /\
        repr (CO := DefaultComparatorOk) st' s' [([1], [10]); ([2], [20]); ([3], [30])] /\
        sl_entries s' = wrap usize_bits (sl_entries (demo_s demo_kvs) + 1)
  | _ => is_done (insert_with (C := DefaultComparator) Debug (demo_st demo_kvs) (demo_s demo_kvs) 1 [7]
          (write_key_with [2])) = false
  end.
Proof.
  refine (skiplist_insert_with (CO := DefaultComparatorOk) Debug (demo_st demo_kvs) (demo_s demo_kvs)
    [([1], [10]); ([2], [20]); ([3], [30])] [2] [7] (write_key_with [2]) demo_repr _ _).
  - split; [exact I|]. split; vm_compute; split; congruence.
  - apply write_key_with_ok. vm_compute. congruence.
Defined.

Lemma random_level_at_most_three_witness :
  exists s' height, generate_random_level Debug (st_nodes (demo_st demo_kvs)) (demo_s demo_kvs) = Done (s', height) /\
    (1 <= height <= 3)%nat /\ sl_seed s' = xorshift (sl_seed (demo_s demo_kvs)) /\
    sl_max_level s' = Nat.max (sl_max_level (demo_s demo_kvs)) height.
Proof.
  destruct demo_repr as (L & H & _).
  exact (random_level_at_most_three (CO := DefaultComparatorOk) Debug (demo_st demo_kvs) (demo_s demo_kvs) L H).
Defined.

Lemma skiplist_range_default_witness :
  exists L : list arena_ptr, (r ← SkipList_range (C := DefaultComparator) Debug (st_nodes (demo_st demo_kvs)) (demo_s demo_kvs)
       (Excluded [2]) Unbounded;
   RangeIter_collect (S (length L)) Debug (st_nodes (demo_st demo_kvs)) r) =
  Done (filter (fun q => (negb (cmp_lt (bytes_cmp (key_of (st_nodes (demo_st demo_kvs)) q) [2])) && true) = true) L).
Proof.
  destruct demo_repr as (L & H & _). exists L.
  exact (skiplist_range_default Debug (demo_st demo_kvs) (demo_s demo_kvs) L (Excluded [2]) Unbounded H).
Defined.
