(* ===== verification/SkipListThreads.v ===== *)
(** * SkipListThreads: insertion and scans by several threads at once

    The interleavings of [SkipList::insert] and of iteration
    ([utils/skiplists/mem_skip_list.rs]), at the granularity of the accesses to
    shared memory: one step per load, store or exchange of a tower slot, of the
    seed, of the entry counter and of the height.  Comparing keys of linked
    nodes, which never change, happens in the step of the load that follows.
    Allocation is one step, which [ArenaThreads] justifies.  The steps are a
    function of the thread and of a coin that says whether a weak exchange
    fails spuriously; a run follows a schedule of threads and coins. *)

From Stdlib Require Import Sorted.
From S2P Require Import Prelude Key Arena SkipList SkipListSpec.
Local Open Scope Z_scope.

(** What a search is for: the first one of an insertion, or the one after a
    failed exchange for [node] at the base or at an upper level. *)

Inductive goal :=
| GFirst
| GBase (node : arena_ptr) (height : nat)
| GUpper (node : arena_ptr) (height level : nat).

(** Where a search is: before the load of the height, skipping the levels
    without a node, about to load the first node of level [level - 1] after
    [pred], or at [curr] on level [l]. *)

Inductive spc :=
| SMax
| SSkip (level : nat)
| SDown (level : nat) (pred : arena_ptr)
| SWalk (l : nat) (pred : arena_ptr) (curr : option arena_ptr).

(** Where an insertion is, with the traversal it works with. *)

Inductive ipc :=
| ISearch (g : goal) (pc : spc) (t : TraversalCtx)
| ICount (t : TraversalCtx)
| ISeedLoad (t : TraversalCtx)
| ISeedStore (t : TraversalCtx) (seed : Z)
| IMaxLoad (t : TraversalCtx) (height : nat)
| IMaxCas (t : TraversalCtx) (height max_height : nat)
| IAlloc (t : TraversalCtx) (height : nat)
| IWriteKey (t : TraversalCtx) (node : arena_ptr) (height : nat)
| IWriteValue (t : TraversalCtx) (node : arena_ptr) (height : nat)
| ILink (t : TraversalCtx) (node : arena_ptr) (height level : nat)
| ICas (t : TraversalCtx) (node : arena_ptr) (height level : nat)
| IDone (q : arena_ptr)
| IPanicked.

(** A thread inserts an entry, scans the list with an iterator, or searches a
    key to read what is at its place. *)

Inductive thread :=
| Inserter (k v : bytes) (pc : ipc)
| ScanStart
| Scanning (it : Iter) (acc : list arena_ptr)
| ScanDone (acc : list arena_ptr)
| Reader (k : bytes) (pc : spc) (t : TraversalCtx)
| ReadDone (k : bytes) (t : TraversalCtx).

Record ist := mkIst { is_store : SlStore; is_list : SkipList; is_threads : gmap nat thread }.

(** The arrays of a traversal that starts. *)

Definition ctx_init (s : SkipList) : TraversalCtx :=
  mkCtx None (replicate MAX_HEAD_HEIGHT (Some (sl_sentinel s))) (replicate MAX_HEAD_HEIGHT None).

Definition record (t : TraversalCtx) (found : option arena_ptr) (l : nat) (pred : arena_ptr) (curr : option arena_ptr)
  : TraversalCtx :=
  mkCtx found (<[l := Some pred]> (predecessors t)) (<[l := curr]> (successors t)).

Definition first_pc (s : SkipList) : ipc := ISearch GFirst SMax (ctx_init s).

Section Steps.
Context {C : Comparator} (p : profile).

(** One access of a search; [inr] when it returns. *)

(* @src crates/engine/src/utils/skiplists/mem_skip_list.rs:438-496 SkipList::search *)
Definition search_step (h : nodes) (s : SkipList) (key : bytes) (pc : spc) (t : TraversalCtx)
  : outcome (spc * TraversalCtx + TraversalCtx) :=
  match pc with
  | SMax => Done (inl (SSkip (sl_max_level s), t))
  | SSkip O => Done (inl (SDown O (sl_sentinel s), t))
  | SSkip (S l) =>
      next ← Node_load_next p h (sl_sentinel s) l;
      Done (inl (match next with None => SSkip l | Some _ => SDown (S l) (sl_sentinel s) end, t))
  | SDown O _ => Done (inr t)
  | SDown (S l) pred => curr ← Node_load_next p h pred l; Done (inl (SWalk l pred curr, t))
  | SWalk l pred None => Done (inl (SDown l pred, record t (searched_node t) l pred None))
  | SWalk l pred (Some c) =>
      node_key ← Node_get_key_bytes h c;
      ord ← compare p node_key key;
      match ord with
      | Lt => next ← Node_load_next p h c l; Done (inl (SWalk l c next, t))
      | Eq => Done (inl (SDown l pred, record t (Some c) l pred (Some c)))
      | Gt => Done (inl (SDown l pred, record t (searched_node t) l pred (Some c)))
      end
  end.

(** Where an insertion goes with the result of a search. *)

Definition after_search (g : goal) (t : TraversalCtx) : ipc :=
  match g with
  | GFirst => match searched_node t with Some node => IDone node | None => ICount t end
  | GBase node height => match searched_node t with Some other => IDone other | None => ILink t node height 0 end
  | GUpper node height level => ILink t node height level
  end.

(** The loop that raises the height of the list, at its test. *)

Definition raise_level (t : TraversalCtx) (height max_height : nat) : ipc :=
  if (max_height <? height)%nat then IMaxCas t height max_height else IAlloc t height.

(* @src crates/engine/src/utils/skiplists/mem_skip_list.rs:512-606 SkipList::insert *)
Definition insert_step (coin : bool) (st : SlStore) (s : SkipList) (k v : bytes) (pc : ipc)
  : outcome (SlStore * SkipList * ipc) :=
  let h := st_nodes st in
  match pc with
  | ISearch g pc t =>
      r ← search_step h s k pc t;
      Done (st, s, match r with inl (pc, t) => ISearch g pc t | inr t => after_search g t end)
  | ICount t => Done (st, set_entries (wrap usize_bits (sl_entries s + 1)) s, ISeedLoad t)
  | ISeedLoad t => Done (st, s, ISeedStore t (sl_seed s))
  | ISeedStore t seed =>
      let starting_num := xorshift seed in
      let height := Nat.min MAX_HEAD_HEIGHT (trailing_zeros starting_num + 1) in
      height ← reduce_height p h (sl_sentinel s) height;
      Done (st, set_seed starting_num s, IMaxLoad t height)
  | IMaxLoad t height => Done (st, s, raise_level t height (sl_max_level s))
  | IMaxCas t height max_height =>
      if coin && (sl_max_level s =? max_height)%nat then Done (st, set_max_level height s, IAlloc t height)
      else Done (st, s, raise_level t height (sl_max_level s))
  | IAlloc t height =>
      _ ← debug_assert p (height <=? MAX_HEAD_HEIGHT)%nat "height <= MAX_HEAD_HEIGHT";
      _ ← debug_assert p (Z.of_nat height <=? u_max 16) "height <= u16::MAX as usize";
      match Node_alloc p st height (wrap 16 (len k)) (wrap 32 (len v)) with
      | Done (st, node) => Done (st, s, IWriteKey t node height)
      | Panic _ => Done (st, s, IPanicked)
      | UB why => UB why
      | NoFuel => NoFuel
      end
  | IWriteKey t node height => st ← write_node st node Node_key_ptr k; Done (st, s, IWriteValue t node height)
  | IWriteValue t node height => st ← write_node st node Node_value_ptr v; Done (st, s, ILink t node height 0)
  | ILink t node height level =>
      succ ← ctx_at (successors t) level;
      h ← match succ with
          | Some _ => x ← Node_next p h node level; slot_store h x succ
          | None => Done h
          end;
      Done (mkStore (st_arena st) h, s, ICas t node height level)
  | ICas t node height level =>
      succ ← ctx_at (successors t) level;
      pr ← ctx_at (predecessors t) level;
      pr ← non_null pr;
      pred ← Node_next p h pr level;
      '(h, ok) ← slot_cas h pred succ (Some node);
      let pc := if (ok : bool) then
                  if (S level <? height)%nat then ILink t node height (S level) else IDone node
                else ISearch (match level with O => GBase node height | _ => GUpper node height level end)
                       SMax (ctx_init s) in
      Done (mkStore (st_arena st) h, s, pc)
  | IDone q => Done (st, s, IDone q)
  | IPanicked => Done (st, s, IPanicked)
  end.

(** One step of a thread; a finished thread does nothing. *)

Definition thread_step (coin : bool) (st : SlStore) (s : SkipList) (th : thread)
  : outcome (SlStore * SkipList * thread) :=
  match th with
  | Inserter k v pc => '(st, s, pc) ← insert_step coin st s k v pc; Done (st, s, Inserter k v pc)
  | ScanStart => it ← SkipList_iter p (st_nodes st) s; Done (st, s, Scanning it [])
  | Scanning it acc =>
      '(it, r) ← Iter_next p (st_nodes st) it;
      Done (st, s, match r with Some q => Scanning it (acc ++ [q]) | None => ScanDone acc end)
  | ScanDone acc => Done (st, s, ScanDone acc)
  | Reader k pc t =>
      r ← search_step (st_nodes st) s k pc t;
      Done (st, s, match r with inl (pc, t) => Reader k pc t | inr t => ReadDone k t end)
  | ReadDone k t => Done (st, s, ReadDone k t)
  end.

Definition istep (t : nat) (coin : bool) (x : ist) : outcome ist :=
  match is_threads x !! t with
  | None => Done x
  | Some th =>
      '(st, s, th) ← thread_step coin (is_store x) (is_list x) th;
      Done (mkIst st s (<[t := th]> (is_threads x)))
  end.

Fixpoint irun (sched : list (nat * bool)) (x : ist) : outcome ist :=
  match sched with
  | [] => Done x
  | (t, coin) :: sched => x ← istep t coin x; irun sched x
  end.
End Steps.

(** ** Facts about nodes and chains *)

Lemma shape_key h h' q : shape <$> h' !! q = shape <$> h !! q -> key_of h' q = key_of h q.
Proof.
  intros H. unfold key_of, node_key, payload_bytes. destruct (h' !! q), (h !! q); try done.
  injection H as H1 H2 H3 H4 H5. cbn. by rewrite H2, H4.
Qed.

Lemma shape_value h h' q : shape <$> h' !! q = shape <$> h !! q -> value_of h' q = value_of h q.
Proof.
  intros H. unfold value_of, node_value, payload_bytes. destruct (h' !! q), (h !! q); try done.
  injection H as H1 H2 H3 H4 H5. cbn. by rewrite H2, H4.
Qed.

Lemma shape_height h h' q : shape <$> h' !! q = shape <$> h !! q -> height_of h' q = height_of h q.
Proof. intros H. unfold height_of. destruct (h' !! q), (h !! q); try done. by injection H. Qed.

(** A node is determined by its shape and its tower. *)

Lemma node_eq h h' q :
  shape <$> h' !! q = shape <$> h !! q -> (forall l, nxt h' q l = nxt h q l) -> h' !! q = h !! q.
Proof.
  unfold nxt. intros Hs Hn. destruct (h' !! q) as [n'|], (h !! q) as [n|]; try done. cbn in *.
  injection Hs as H1 H2 H3 H4 H5. f_equal. destruct n, n'. cbn in *. f_equal; try done. by apply list_eq.
Qed.

Lemma chain_split h l p0 L pr sc :
  chain h l p0 L -> pr = p0 \/ pr ∈ L -> nxt h pr l = Some sc ->
  exists A B, L = A ++ B /\ last_or p0 A = pr /\ head B = sc.
Proof.
  intros Hc [-> | Hin] Hn.
  - exists [], L. rewrite (chain_nxt _ _ _ _ Hc) in Hn. by injection Hn.
  - apply list_elem_of_split in Hin as (X & Y & ->). exists (X ++ [pr]), Y.
    pose proof (chain_from _ _ _ _ _ _ Hc) as HY. rewrite (chain_nxt _ _ _ _ HY) in Hn. injection Hn as Hn.
    split; [by rewrite <- app_assoc|]. split; [|done]. unfold last_or. by rewrite last_snoc.
Qed.

Lemma chain_unique h l : forall L L' q, chain h l q L -> chain h l q L' -> L = L'.
Proof.
  induction L as [|x L IH]; intros [|y L'] q H H'; simpl in *; try done.
  - destruct H' as [H' _]. by rewrite H in H'.
  - destruct H as [H _]. by rewrite H in H'.
  - destruct H as [H1 H2], H' as [H1' H2']. rewrite H1 in H1'. injection H1' as <-. f_equal. by eapply IH.
Qed.

Lemma alloc_raw_cases p a l :
  arena_ok a -> layout_ok l ->
  (exists a' ptr, Arena_alloc_raw p a l = Done (a', ptr)) \/ (exists why, Arena_alloc_raw p a l = Panic why).
Proof.
  intros Ha Hl. unfold Arena_alloc_raw. destruct (Z.leb_spec (l_size l) (block_size (policy a))); cbn [rust_assert mbind outcome_bind].
  - rewrite alloc_loop_done by done. destruct (alloc_spec p a l) as [a' [ptr|e]]; cbn; eauto.
  - eauto.
Qed.

Section Spec.
Context {C : Comparator} {valid : bytes -> Prop} {CO : ComparatorOk C valid}.

Implicit Types (h : nodes) (L : list arena_ptr) (Ls : nat -> list arena_ptr) (q n : arena_ptr) (k v : bytes).

#[local] Abbreviation node_ok := (SkipListSpec.node_ok (valid := valid)).

(** ** The shared invariant

    [Ls l] are the nodes linked on level [l], in order. *)

Record lists_ok (st : SlStore) (s : SkipList) (Ls : nat -> list arena_ptr) : Prop := mkListsOk {
  lo_heap : heap_ok (st_arena st) (st_nodes st);
  lo_head : height_of (st_nodes st) (sl_sentinel s) = MAX_HEAD_HEIGHT /\ sl_sentinel s ∉ Ls 0%nat;
  lo_nodes : Forall (node_ok (st_nodes st)) (Ls 0%nat);
  lo_chains : forall l, (l < MAX_HEAD_HEIGHT)%nat -> chain (st_nodes st) l (sl_sentinel s) (Ls l);
  lo_sorted : forall l, StronglySorted (key_lt (st_nodes st)) (Ls l);
  lo_sub : forall l q, q ∈ Ls (S l) -> q ∈ Ls l;
  lo_tall : forall l q, q ∈ Ls l -> (l < height_of (st_nodes st) q)%nat;
  lo_max : (1 <= sl_max_level s <= MAX_HEAD_HEIGHT)%nat;
  lo_heights : Forall (fun q => (height_of (st_nodes st) q <= sl_max_level s)%nat) (Ls 0%nat)
}.

(** ** The invariant of a thread *)

Definition key_below h k q : Prop := key_cmp (key_of h q) k = Lt.
Definition key_above h k q : Prop := key_cmp k (key_of h q) = Lt.

Definition pred_ok h s Ls k l (pr : arena_ptr) : Prop := pr = sl_sentinel s \/ pr ∈ Ls l /\ key_below h k pr.

Definition succ_ok h Ls k l (found sc : option arena_ptr) : Prop :=
  forall q, sc = Some q -> q ∈ Ls l /\ (key_above h k q \/ key_of h q = k /\ found <> None).

Definition ctx_good h s Ls k (t : TraversalCtx) : Prop :=
  (forall l, (l < MAX_HEAD_HEIGHT)%nat -> exists pr sc,
     predecessors t !! l = Some (Some pr) /\ successors t !! l = Some sc /\
     pred_ok h s Ls k l pr /\ succ_ok h Ls k l (searched_node t) sc) /\
  (forall f, searched_node t = Some f -> f ∈ Ls 0%nat /\ key_of h f = k).

(** [n], of height [height], is the thread's own: linked below [lev] only. *)

Definition own_ok h s Ls n height lev : Prop :=
  n <> sl_sentinel s /\ height_of h n = height /\ (lev < height <= sl_max_level s)%nat /\
  (forall l, n ∈ Ls l <-> (l < lev)%nat) /\
  (forall l, (lev < l < height)%nat -> nxt h n l = Some None).

Definition node_good h k v n : Prop := node_ok h n /\ key_of h n = k /\ value_of h n = v.

Definition passed (pc : spc) (lev : nat) : Prop :=
  match pc with
  | SMax => False
  | SSkip level | SDown level _ => (level <= lev)%nat
  | SWalk l _ _ => (l < lev)%nat
  end.

Definition at_null (pc : spc) (lev : nat) : Prop :=
  match pc with SWalk l _ None => l = lev | _ => False end.

(** The slot of an own node about to be linked again after a search: what it
    holds is still above the key, so the search will not find less. *)

Definition resume_ok h s Ls k v n height lev (pc : spc) (t : TraversalCtx) : Prop :=
  own_ok h s Ls n height lev /\ node_good h k v n /\
  exists w, nxt h n lev = Some w /\ (forall q, w = Some q -> q ∈ Ls lev /\ key_above h k q) /\
    (passed pc lev -> successors t !! lev = Some None -> w = None) /\ (at_null pc lev -> w = None).

Definition goal_ok h s Ls k v (g : goal) (pc : spc) (t : TraversalCtx) : Prop :=
  match g with
  | GFirst => True
  | GBase n height => resume_ok h s Ls k v n height 0 pc t
  | GUpper n height lev => (0 < lev)%nat /\ resume_ok h s Ls k v n height lev pc t
  end.

Definition spc_ok h s Ls k (pc : spc) : Prop :=
  match pc with
  | SMax => True
  | SSkip level => (level <= MAX_HEAD_HEIGHT)%nat
  | SDown level pr => (level <= MAX_HEAD_HEIGHT)%nat /\ forall l, level = S l -> pred_ok h s Ls k l pr
  | SWalk l pr curr => (l < MAX_HEAD_HEIGHT)%nat /\ pred_ok h s Ls k l pr /\ (forall q, curr = Some q -> q ∈ Ls l)
  end.

(** The traversal that precedes linking: [None] was found, or the own node is
    already at the base. *)

Definition link_ctx h s Ls k (t : TraversalCtx) lev : Prop :=
  ctx_good h s Ls k t /\ (searched_node t = None \/ (0 < lev)%nat).

Definition pc_ok h s Ls k v (pc : ipc) : Prop :=
  match pc with
  | ISearch g pc t => ctx_good h s Ls k t /\ spc_ok h s Ls k pc /\ goal_ok h s Ls k v g pc t
  | ICount t | ISeedLoad t | ISeedStore t _ => link_ctx h s Ls k t 0
  | IMaxLoad t height => link_ctx h s Ls k t 0 /\ (1 <= height <= MAX_HEAD_HEIGHT)%nat
  | IMaxCas t height m => link_ctx h s Ls k t 0 /\ (1 <= height <= MAX_HEAD_HEIGHT)%nat /\ (m < height)%nat
  | IAlloc t height => link_ctx h s Ls k t 0 /\ (1 <= height <= sl_max_level s)%nat
  | IWriteKey t n height =>
      link_ctx h s Ls k t 0 /\ own_ok h s Ls n height 0 /\ h !! n = Some (Node_init_node height (len k) (len v))
  | IWriteValue t n height =>
      link_ctx h s Ls k t 0 /\ own_ok h s Ls n height 0 /\ h !! n = Some (k_node height k (len v))
  | ILink t n height lev =>
      link_ctx h s Ls k t lev /\ own_ok h s Ls n height lev /\ node_good h k v n /\
      exists w, nxt h n lev = Some w /\ (successors t !! lev = Some None -> w = None)
  | ICas t n height lev =>
      link_ctx h s Ls k t lev /\ own_ok h s Ls n height lev /\ node_good h k v n /\
      exists sc, successors t !! lev = Some sc /\ nxt h n lev = Some sc
  | IDone q => q ∈ Ls 0%nat /\ key_of h q = k
  | IPanicked => True
  end.

Definition cur_list (cur : option arena_ptr) : list arena_ptr := from_option (fun q => [q]) [] cur.

Definition scan_ok h Ls (cur : option arena_ptr) (acc : list arena_ptr) : Prop :=
  Forall (fun q => q ∈ Ls 0%nat) (acc ++ cur_list cur) /\ StronglySorted (key_lt h) (acc ++ cur_list cur).

Definition thread_ok h s Ls (th : thread) : Prop :=
  match th with
  | Inserter k v pc => valid k /\ in_width 16 (len k) /\ in_width 32 (len v) /\ pc_ok h s Ls k v pc
  | ScanStart => True
  | Scanning it acc => scan_ok h Ls (item it) acc
  | ScanDone acc => scan_ok h Ls None acc
  | Reader k pc t => valid k /\ ctx_good h s Ls k t /\ spc_ok h s Ls k pc
  | ReadDone k t => valid k /\ ctx_good h s Ls k t
  end.

Definition own_pc (pc : ipc) : option arena_ptr :=
  match pc with
  | ISearch (GBase n _) _ _ | ISearch (GUpper n _ _) _ _ | IWriteKey _ n _ | IWriteValue _ n _
  | ILink _ n _ _ | ICas _ n _ _ => Some n
  | _ => None
  end.

Definition own_node (th : thread) : option arena_ptr :=
  match th with Inserter _ _ pc => own_pc pc | _ => None end.

(** ** What a step of another thread, whose node is [o], leaves alone *)

Record evolves (o : option arena_ptr) h h' (s s' : SkipList) Ls Ls' : Prop := mkEvolves {
  ev_mono : forall l q, q ∈ Ls l -> q ∈ Ls' l;
  ev_new : forall l q, q ∈ Ls' l -> q ∈ Ls l \/ o = Some q;
  ev_shape : forall q, is_Some (h !! q) -> o <> Some q \/ q ∈ Ls 0%nat -> shape <$> h' !! q = shape <$> h !! q;
  ev_nxt : forall q l, is_Some (h !! q) -> o <> Some q -> q <> sl_sentinel s -> q ∉ Ls l -> nxt h' q l = nxt h q l;
  ev_sent : sl_sentinel s' = sl_sentinel s;
  ev_max : (sl_max_level s <= sl_max_level s')%nat
}.

Lemma lo_base st s Ls l q : lists_ok st s Ls -> q ∈ Ls l -> q ∈ Ls 0%nat.
Proof. intros H. induction l as [|l IH]; [done|]. intros Hq. by apply IH, (lo_sub _ _ _ H). Qed.

Lemma lo_le st s Ls l m q : lists_ok st s Ls -> (l <= m)%nat -> q ∈ Ls m -> q ∈ Ls l.
Proof.
  intros H Hle. induction Hle as [|m Hle IH]; [done|]. intros Hq. by apply IH, (lo_sub _ _ _ H).
Qed.

Lemma node_ok_some h q : node_ok h q -> is_Some (h !! q).
Proof. intros ((n & -> & _) & _). by eexists. Qed.

Lemma lo_node st s Ls q : lists_ok st s Ls -> q ∈ Ls 0%nat -> node_ok (st_nodes st) q.
Proof. intros H Hq. pose proof (lo_nodes _ _ _ H) as Hn. rewrite Forall_forall in Hn. by apply Hn. Qed.

Lemma lo_some st s Ls q : lists_ok st s Ls -> q ∈ Ls 0%nat -> is_Some (st_nodes st !! q).
Proof. intros H Hq. by apply node_ok_some, (lo_node st s Ls). Qed.

Lemma shape_node_ok h h' q : shape <$> h' !! q = shape <$> h !! q -> node_ok h q -> node_ok h' q.
Proof.
  intros Hs ((n & Hn & k & v & Hp & Hk & Hv) & Hval & Hh). unfold SkipListSpec.node_ok.
  rewrite (shape_key h h' q Hs), (shape_height h h' q Hs). split; [|done].
  rewrite Hn in Hs. destruct (h' !! q) as [n'|] eqn:Hn'; [|done]. injection Hs as H1 H2 H3 H4 H5.
  exists n'. split; [done|]. exists k, v. by rewrite H2, H3, H4.
Qed.

Lemma height_some h q m : height_of h q = m -> (0 < m)%nat -> is_Some (h !! q).
Proof. unfold height_of. destruct (h !! q); [by eexists|]. cbn. lia. Qed.

Lemma evolves_refl o h s Ls : evolves o h h s s Ls Ls.
Proof. constructor; auto. Qed.

(** ** Stability of a thread's invariant *)

Section Stable.
Context {o : option arena_ptr} {st st' : SlStore} {s s' : SkipList} {Ls Ls' : nat -> list arena_ptr}.
Context (Hl : lists_ok st s Ls) (Hev : evolves o (st_nodes st) (st_nodes st') s s' Ls Ls').
#[local] Abbreviation h := (st_nodes st).
#[local] Abbreviation h' := (st_nodes st').

Lemma stable_shape q l : q ∈ Ls l -> shape <$> h' !! q = shape <$> h !! q.
Proof using Hl Hev.
  intros Hq. pose proof (lo_base _ _ _ _ _ Hl Hq) as H0. apply (ev_shape _ _ _ _ _ _ _ Hev); [|by right].
  by apply (lo_some st s Ls).
Qed.

Lemma stable_key q l : q ∈ Ls l -> key_of h' q = key_of h q.
Proof using Hl Hev. intros Hq. by eapply shape_key, stable_shape. Qed.

Lemma stable_pred k l pr : pred_ok h s Ls k l pr -> pred_ok h' s' Ls' k l pr.
Proof using Hl Hev.
  unfold pred_ok, key_below. rewrite (ev_sent _ _ _ _ _ _ _ Hev). intros [?|[Hq Hk]]; [by left|right].
  split; [by apply (ev_mono _ _ _ _ _ _ _ Hev)|]. by rewrite (stable_key pr l).
Qed.

Lemma stable_succ k l found sc : succ_ok h Ls k l found sc -> succ_ok h' Ls' k l found sc.
Proof using Hl Hev.
  intros H q Hq. destruct (H q Hq) as [Hin Hk]. split; [by apply (ev_mono _ _ _ _ _ _ _ Hev)|].
  unfold key_above. by rewrite (stable_key q l).
Qed.

Lemma stable_ctx k t : ctx_good h s Ls k t -> ctx_good h' s' Ls' k t.
Proof using Hl Hev.
  intros [H1 H2]. split.
  - intros l Hlt. destruct (H1 l Hlt) as (pr & sc & Hp & Hs & Hpr & Hsc). exists pr, sc.
    split; [done|]. split; [done|]. split; [by apply stable_pred|by apply stable_succ].
  - intros f Hf. destruct (H2 f Hf) as [Hin Hk]. split; [by apply (ev_mono _ _ _ _ _ _ _ Hev)|].
    by rewrite (stable_key f 0).
Qed.

Lemma stable_link_ctx k t lev : link_ctx h s Ls k t lev -> link_ctx h' s' Ls' k t lev.
Proof using Hl Hev. intros [? ?]. split; [by apply stable_ctx|done]. Qed.

Lemma stable_spc k pc : spc_ok h s Ls k pc -> spc_ok h' s' Ls' k pc.
Proof using Hl Hev.
  destruct pc as [|level|level pr|l pr curr]; cbn; [done..| |].
  - intros [? H]. split; [done|]. intros l El. by apply stable_pred, H.
  - intros (? & ? & H). split; [done|]. split; [by apply stable_pred|]. intros q Hq.
    by apply (ev_mono _ _ _ _ _ _ _ Hev), H.
Qed.

Lemma own_some n height lev : own_ok h s Ls n height lev -> is_Some (h !! n).
Proof using. intros (_ & Hh & Hlt & _). apply (height_some h n height Hh). lia. Qed.

Lemma stable_own_shape n height lev :
  o <> Some n -> own_ok h s Ls n height lev -> shape <$> h' !! n = shape <$> h !! n.
Proof using Hev. intros Ho H. apply (ev_shape _ _ _ _ _ _ _ Hev); [by eapply own_some|by left]. Qed.

Lemma stable_own_in n l : o <> Some n -> n ∈ Ls' l <-> n ∈ Ls l.
Proof using Hev.
  intros Ho. split; [|apply (ev_mono _ _ _ _ _ _ _ Hev)].
  intros H. by destruct (ev_new _ _ _ _ _ _ _ Hev _ _ H).
Qed.

Lemma stable_own_nxt n height lev l :
  o <> Some n -> own_ok h s Ls n height lev -> (lev <= l)%nat -> nxt h' n l = nxt h n l.
Proof using Hev.
  intros Ho H Hle. pose proof H as (Hne & _ & _ & Hin & _). apply (ev_nxt _ _ _ _ _ _ _ Hev); [by eapply own_some|done|done|].
  rewrite Hin. lia.
Qed.

Lemma stable_own n height lev : o <> Some n -> own_ok h s Ls n height lev -> own_ok h' s' Ls' n height lev.
Proof using Hev.
  intros Ho H. pose proof H as (Hne & Hh & Hlt & Hin & Hn). split; [by rewrite (ev_sent _ _ _ _ _ _ _ Hev)|].
  split; [by rewrite (shape_height h h' n (stable_own_shape n height lev Ho H))|].
  split; [pose proof (ev_max _ _ _ _ _ _ _ Hev); lia|].
  split; [intros l; by rewrite stable_own_in|]. intros l Hlev. rewrite (stable_own_nxt n height lev l) by (done || lia). auto.
Qed.

Lemma stable_good k v n height lev :
  o <> Some n -> own_ok h s Ls n height lev -> node_good h k v n -> node_good h' k v n.
Proof using Hev.
  intros Ho H (H1 & H2 & H3). pose proof (stable_own_shape n height lev Ho H) as Hs.
  split; [by apply (shape_node_ok h)|]. by rewrite (shape_key h h' n Hs), (shape_value h h' n Hs).
Qed.

Lemma stable_resume k v n height lev pc t :
  o <> Some n -> resume_ok h s Ls k v n height lev pc t -> resume_ok h' s' Ls' k v n height lev pc t.
Proof using Hl Hev.
  intros Ho (H & Hg & w & Hw & Hq & Hp & Hz). split; [by apply stable_own|]. split; [by eapply stable_good|].
  exists w. rewrite (stable_own_nxt n height lev lev) by (done || lia). split; [done|]. split; [|done].
  intros q Eq. destruct (Hq q Eq) as [Hin Hk]. split; [by apply (ev_mono _ _ _ _ _ _ _ Hev)|].
  unfold key_above. by rewrite (stable_key q lev).
Qed.

(** An own node that is not linked at all is left as it is. *)

Lemma stable_fresh n height : o <> Some n -> own_ok h s Ls n height 0 -> h' !! n = h !! n.
Proof using Hev.
  intros Ho H. apply node_eq; [by eapply stable_own_shape|]. intros l. eapply stable_own_nxt; [done|done|lia].
Qed.

Lemma stable_scan cur acc : scan_ok h Ls cur acc -> scan_ok h' Ls' cur acc.
Proof using Hl Hev.
  intros [Hin Hs]. split; [eapply Forall_impl; [done|]; intros q; apply (ev_mono _ _ _ _ _ _ _ Hev)|].
  induction Hs as [|q L Hs IH Hq]; [constructor|]. apply Forall_cons in Hin as [Hq0 Hin]. constructor; [by apply IH|].
  rewrite Forall_forall in Hq, Hin |- *. intros x Hx. specialize (Hq x Hx). unfold key_lt in *.
  by rewrite (stable_key q 0), (stable_key x 0) by auto.
Qed.

Lemma stable_pc k v pc : (forall n, own_pc pc = Some n -> o <> Some n) -> pc_ok h s Ls k v pc -> pc_ok h' s' Ls' k v pc.
Proof using Hl Hev.
  pose proof (ev_max _ _ _ _ _ _ _ Hev) as Hmax.
  intros Ho. destruct pc as [g pc t|t|t|t x|t height|t height m|t height|t n height|t n height|t n height lev|t n height lev|q|]; cbn [pc_ok].
  - intros (H1 & H2 & H3). split; [by apply stable_ctx|]. split; [by apply stable_spc|].
    destruct g as [|n height|n height lev]; cbn in *; [done|by apply stable_resume; auto|].
    destruct H3. split; [done|]. by apply stable_resume; auto.
  - by apply stable_link_ctx.
  - by apply stable_link_ctx.
  - by apply stable_link_ctx.
  - intros [? ?]. split; [by apply stable_link_ctx|done].
  - intros [? [? ?]]. split; [by apply stable_link_ctx|done].
  - intros [? ?]. split; [by apply stable_link_ctx|lia].
  - intros (H1 & H2 & H3). specialize (Ho n eq_refl). split; [by apply stable_link_ctx|].
    split; [by apply stable_own|]. by rewrite (stable_fresh n height).
  - intros (H1 & H2 & H3). specialize (Ho n eq_refl). split; [by apply stable_link_ctx|].
    split; [by apply stable_own|]. by rewrite (stable_fresh n height).
  - intros (H1 & H2 & H3 & w & Hw & H4). specialize (Ho n eq_refl). split; [by apply stable_link_ctx|].
    split; [by apply stable_own|]. split; [by eapply stable_good|]. exists w.
    by rewrite (stable_own_nxt n height lev lev) by (done || lia).
  - intros (H1 & H2 & H3 & w & Hw & H4). specialize (Ho n eq_refl). split; [by apply stable_link_ctx|].
    split; [by apply stable_own|]. split; [by eapply stable_good|]. exists w.
    by rewrite (stable_own_nxt n height lev lev) by (done || lia).
  - intros [? ?]. split; [by apply (ev_mono _ _ _ _ _ _ _ Hev)|]. by rewrite (stable_key q 0).
  - done.
Qed.

Lemma stable_thread th :
  (forall n, own_node th = Some n -> o <> Some n) -> thread_ok h s Ls th -> thread_ok h' s' Ls' th.
Proof using Hl Hev.
  intros Ho. destruct th as [k v pc| |it acc|acc|k pc t|k t]; cbn; [|done|by apply stable_scan|by apply stable_scan| |].
  2: { intros (? & ? & ?). split; [done|]. split; [by apply stable_ctx|by apply stable_spc]. }
  2: { intros (? & ?). split; [done|by apply stable_ctx]. }
  intros (? & ? & ? & ?). do 3 (split; [done|]). by apply stable_pc.
Qed.
End Stable.

(** ** Order lemmas on a level *)

Lemma lo_valid st s Ls l q : lists_ok st s Ls -> q ∈ Ls l -> valid (key_of (st_nodes st) q).
Proof. intros H Hq. by destruct (lo_node st s Ls q H (lo_base st s Ls l q H Hq)) as (_ & ? & _). Qed.

Lemma above_not_below h k q : valid k -> valid (key_of h q) -> key_above h k q -> ~ key_below h k q.
Proof.
  unfold key_above, key_below. intros Hk Hq Ha. rewrite (key_cmp_antisym k (key_of h q)) by done.
  by rewrite Ha.
Qed.

Lemma sorted_app_key h (A B : list arena_ptr) :
  StronglySorted (key_lt h) (A ++ B) <->
  StronglySorted (key_lt h) A /\ StronglySorted (key_lt h) B /\ (forall a b, a ∈ A -> b ∈ B -> key_lt h a b).
Proof.
  induction A as [|x A IH]; cbn.
  - split; [|by intros (_ & ? & _)]. intros H. split; [constructor|]. split; [done|]. by intros a b ?%elem_of_nil.
  - split.
    + intros [H1 H2]%StronglySorted_inv. apply IH in H1 as (HA & HB & HAB). apply Forall_app in H2 as [H2 H3].
      split; [by constructor|]. split; [done|]. intros a b [->|Ha]%elem_of_cons Hb; [|by apply HAB].
      rewrite Forall_forall in H3. by apply H3.
    + intros (H1 & HB & HAB). apply StronglySorted_inv in H1 as [HA HxA]. constructor.
      * apply IH. split; [done|]. split; [done|]. intros a b Ha Hb. apply HAB; [by right|done].
      * apply Forall_app. split; [done|]. apply Forall_forall. intros b Hb. apply HAB; [by left|done].
Qed.

(** The nodes up to one below the key are below it; those from one above it
    on are above it. *)

Lemma below_last h k A pr :
  valid k -> Forall (fun q => valid (key_of h q)) A -> StronglySorted (key_lt h) A -> last A = Some pr -> key_below h k pr ->
  Forall (key_below h k) A.
Proof.
  intros Hk Hv Hs Hl Hb. apply last_Some in Hl as [A' ->]. apply sorted_app_key in Hs as (_ & _ & Hs).
  rewrite Forall_forall in Hv |- *. intros q Hq. apply elem_of_app in Hq as [Hq|Hq%list_elem_of_singleton]; [|by subst].
  eapply (key_cmp_trans _ (key_of h pr)); [..|exact Hb]; [apply Hv, elem_of_app; by left| |done|].
  - apply Hv, elem_of_app. right. by left.
  - apply Hs; [done|by left].
Qed.

Lemma above_head h k B sc :
  valid k -> Forall (fun q => valid (key_of h q)) B -> StronglySorted (key_lt h) B -> head B = sc ->
  (forall q, sc = Some q -> key_above h k q) -> Forall (key_above h k) B.
Proof.
  intros Hk Hv Hs Hl Ha. destruct B as [|b B]; [done|]. cbn in Hl. specialize (Ha b (eq_sym Hl)).
  apply StronglySorted_inv in Hs as [_ Hs]. apply Forall_cons in Hv as [Hvb Hv]. constructor; [done|].
  rewrite Forall_forall in Hs, Hv |- *. intros q Hq. eapply (key_cmp_trans _ (key_of h b)); [done|done|by apply Hv|done|by apply Hs].
Qed.

Section Levels.
Context {st : SlStore} {s : SkipList} {Ls : nat -> list arena_ptr} (Hl : lists_ok st s Ls).
#[local] Abbreviation h := (st_nodes st).

Lemma lvl_valid l : Forall (fun q => valid (key_of h q)) (Ls l).
Proof using Hl. apply Forall_forall. intros q Hq. by apply (lo_valid st s Ls l). Qed.

Lemma sentinel_out l : sl_sentinel s ∉ Ls l.
Proof using Hl. intros H. apply (proj2 (lo_head _ _ _ Hl)). by apply (lo_base st s Ls l). Qed.

(** Between adjacent nodes around the key, everything is placed. *)

Lemma around l k pr sc :
  (l < MAX_HEAD_HEIGHT)%nat -> valid k -> pred_ok h s Ls k l pr -> nxt h pr l = Some sc ->
  exists A B, Ls l = A ++ B /\ last_or (sl_sentinel s) A = pr /\ head B = sc /\ Forall (key_below h k) A.
Proof using Hl.
  intros Hlt Hk Hp Hn.
  destruct (chain_split h l (sl_sentinel s) (Ls l) pr sc (lo_chains _ _ _ Hl l Hlt)) as (A & B & E & Hla & Hh);
    [destruct Hp as [->|[? _]]; [by left|by right]|done|].
  exists A, B. split; [done|]. split; [done|]. split; [done|].
  pose proof (lvl_valid l) as Hv. pose proof (lo_sorted _ _ _ Hl l) as Hs. rewrite E in Hv, Hs.
  apply Forall_app in Hv as [Hv _]. apply sorted_app_key in Hs as (Hs & _ & _).
  destruct (last A) as [x|] eqn:Ex; [|by apply last_None in Ex; subst].
  assert (Hx : x = pr) by (unfold last_or in Hla; by rewrite Ex in Hla). subst x.
  apply (below_last h k A pr Hk Hv Hs Ex). destruct Hp as [->|[_ ?]]; [|done].
  exfalso. apply (sentinel_out l). rewrite E. apply elem_of_app. left. by apply last_Some_elem_of in Ex.
Qed.

Lemma null_next l k pr q :
  (l < MAX_HEAD_HEIGHT)%nat -> valid k -> pred_ok h s Ls k l pr -> nxt h pr l = Some None -> q ∈ Ls l ->
  ~ key_above h k q.
Proof using Hl.
  intros Hlt Hk Hp Hn Hq Ha. destruct (around l k pr None Hlt Hk Hp Hn) as (A & B & E & _ & Hh & Hb).
  destruct B; [|done]. rewrite app_nil_r in E. rewrite E in Hq. rewrite Forall_forall in Hb.
  apply (above_not_below h k q Hk); [apply (lo_valid st s Ls l q Hl); by rewrite E|done|by apply Hb].
Qed.

(** Slots of linked nodes and of the sentinel. *)

Lemma linked_slot l pr :
  (l < MAX_HEAD_HEIGHT)%nat -> pr = sl_sentinel s \/ pr ∈ Ls l ->
  exists sc, nxt h pr l = Some sc /\ (forall q, sc = Some q -> q ∈ Ls l).
Proof using Hl.
  intros Hlt Hp. pose proof (lo_chains _ _ _ Hl l Hlt) as Hc. destruct Hp as [->|Hin].
  - exists (head (Ls l)). split; [by apply chain_nxt|]. intros q. apply head_Some_elem_of.
  - apply list_elem_of_split in Hin as (X & Y & E). rewrite E in Hc. apply chain_from in Hc. exists (head Y).
    split; [by apply chain_nxt|]. intros q Hq%head_Some_elem_of. rewrite E. apply elem_of_app. right. by right.
Qed.

Lemma load_linked p l pr :
  (l < MAX_HEAD_HEIGHT)%nat -> pr = sl_sentinel s \/ pr ∈ Ls l ->
  exists sc, Node_load_next p h pr l = Done sc /\ nxt h pr l = Some sc /\ (forall q, sc = Some q -> q ∈ Ls l).
Proof using Hl.
  intros Hlt Hp. destruct (linked_slot l pr Hlt Hp) as (sc & Hn & Hin). exists sc. split; [|done].
  apply load_next_done; [apply (lo_heap _ _ _ Hl)|done|done].
Qed.
End Levels.

(** ** A step of a search *)

(** What a search step adds to what the search has passed. *)

Definition advances h Ls k (m : nat) (pc : spc) (t : TraversalCtx) (pc' : spc) (t' : TraversalCtx) : Prop :=
  forall lev, (lev < m)%nat ->
    (passed pc' lev -> successors t' !! lev = Some None ->
       passed pc lev /\ successors t !! lev = Some None \/ at_null pc lev \/
       (forall q, q ∈ Ls lev -> ~ key_above h k q)) /\
    (at_null pc' lev -> forall q, q ∈ Ls lev -> ~ key_above h k q).

Lemma resume_advance h s Ls k v n height lev pc t pc' t' :
  advances h Ls k (sl_max_level s) pc t pc' t' ->
  resume_ok h s Ls k v n height lev pc t -> resume_ok h s Ls k v n height lev pc' t'.
Proof.
  intros Ha (Ho & Hg & w & Hw & Hq & Hp & Hz). split; [done|]. split; [done|]. exists w. split; [done|]. split; [done|].
  pose proof Ho as (_ & _ & Hlt & _). destruct (Ha lev ltac:(lia)) as [H1 H2].
  assert (Hno : (forall q, q ∈ Ls lev -> ~ key_above h k q) -> w = None).
  { intros H. destruct w as [q|]; [|done]. destruct (Hq q eq_refl) as [Hin Hk]. by destruct (H q Hin). }
  split; [|intros Hn; by apply Hno, H2].
  intros Hpass Hs. destruct (H1 Hpass Hs) as [[? ?]|[?|?]]; auto.
Qed.

Lemma goal_advance h s Ls k v g pc t pc' t' :
  advances h Ls k (sl_max_level s) pc t pc' t' -> goal_ok h s Ls k v g pc t -> goal_ok h s Ls k v g pc' t'.
Proof.
  intros Ha. destruct g as [|n height|n height lev]; cbn; [done|by apply resume_advance|].
  intros [? ?]. split; [done|]. by eapply resume_advance.
Qed.

Lemma ctx_record h s Ls k t found l pr curr :
  ctx_good h s Ls k t -> pred_ok h s Ls k l pr -> succ_ok h Ls k l found curr ->
  (searched_node t <> None -> found <> None) -> (forall f, found = Some f -> f ∈ Ls 0%nat /\ key_of h f = k) ->
  ctx_good h s Ls k (record t found l pr curr).
Proof.
  intros [H1 H2] Hp Hs Hf Hf'. split; [|done]. intros m Hm. destruct (H1 m Hm) as (pr' & sc' & Ep & Es & Hp' & Hs').
  unfold record. cbn [predecessors successors searched_node]. destruct (decide (m = l)) as [->|Hne].
  - exists pr, curr. rewrite !list_lookup_insert_eq by (by eapply lookup_lt_Some). done.
  - exists pr', sc'. rewrite !list_lookup_insert_ne by done. do 3 (split; [done|]).
    intros q Hq. destruct (Hs' q Hq) as [? [?|[? ?]]]; split; auto.
Qed.

Lemma record_succ (ss : list (option arena_ptr)) l curr lev :
  <[l := curr]> ss !! lev = Some None -> lev = l /\ curr = None \/ lev <> l /\ ss !! lev = Some None.
Proof.
  destruct (decide (lev = l)) as [->|Hne]; [|rewrite list_lookup_insert_ne by done; by right].
  intros H. assert (Hlt : (l < length ss)%nat) by (apply lookup_lt_Some in H; by rewrite length_insert in H).
  rewrite list_lookup_insert_eq in H by done. injection H as ->. by left.
Qed.

(** The result of a search step: the search goes on soundly, or it returns. *)

Definition search_result h s Ls k pc t (r : spc * TraversalCtx + TraversalCtx) : Prop :=
  match r with
  | inl (pc', t') => ctx_good h s Ls k t' /\ spc_ok h s Ls k pc' /\ advances h Ls k (sl_max_level s) pc t pc' t'
  | inr t' => t' = t /\ forall lev, passed pc lev
  end.

Section SearchStep.
Context {st : SlStore} {s : SkipList} {Ls : nat -> list arena_ptr} (Hl : lists_ok st s Ls).
#[local] Abbreviation h := (st_nodes st).

Lemma skip_ok p k t level :
  (S level <= MAX_HEAD_HEIGHT)%nat -> ctx_good h s Ls k t ->
  exists r, search_step p h s k (SSkip (S level)) t = Done r /\ search_result h s Ls k (SSkip (S level)) t r.
Proof using Hl.
  intros Hlev Hc. destruct (load_linked Hl p level (sl_sentinel s) Hlev ltac:(by left)) as (sc & Eld & Hn & Hin).
  cbn [search_step]. rewrite Eld. cbn [mbind outcome_bind]. eexists. split; [done|]. split; [done|].
  destruct sc as [c|].
  - split; [split; [done|]; intros m [= <-]; by left|]. intros lev _. split; [by left|done].
  - split; [cbn; lia|]. intros lev _. split; [|done]. cbn. intros Hle Hs.
    destruct (decide (lev = level)) as [->|]; [|left; split; [lia|done]]. right. right. intros q Hq.
    pose proof (lo_chains _ _ _ Hl level Hlev) as Hch. apply chain_nxt in Hch. rewrite Hch in Hn. injection Hn as Hn.
    destruct (Ls level); [by apply not_elem_of_nil in Hq|done].
Qed.

Lemma walk_null_ok k t l pr :
  (l < MAX_HEAD_HEIGHT)%nat -> pred_ok h s Ls k l pr -> ctx_good h s Ls k t ->
  search_result h s Ls k (SWalk l pr None) t (inl (SDown l pr, record t (searched_node t) l pr None)).
Proof using Hl.
  intros Hlt Hp Hc. split; [apply ctx_record; try done; apply Hc|]. split.
  - split; [lia|]. intros m ->. destruct Hp as [->|[Hin Hk]]; [by left|right]. split; [by apply (lo_sub _ _ _ Hl)|done].
  - intros lev _. split; [|done]. cbn. intros Hle Hs. destruct (record_succ _ _ _ _ Hs) as [[-> _]|[Hne Hs1]]; [right; by left|].
    left. split; [lia|done].
Qed.

Lemma walk_stop_ok k t l pr c found :
  (l < MAX_HEAD_HEIGHT)%nat -> pred_ok h s Ls k l pr -> ctx_good h s Ls k t -> c ∈ Ls l ->
  (found = searched_node t /\ key_above h k c \/ found = Some c /\ key_of h c = k) ->
  search_result h s Ls k (SWalk l pr (Some c)) t (inl (SDown l pr, record t found l pr (Some c))).
Proof using Hl.
  intros Hlt Hp Hc Hin Hf. split; [|split].
  - apply ctx_record; [done|done| | |].
    + intros q [= <-]. split; [done|]. destruct Hf as [[-> ?]|[-> ?]]; [by left|by right].
    + by destruct Hf as [[-> _]|[-> _]].
    + destruct Hf as [[-> _]|[-> ?]]; [apply Hc|]. intros f [= <-]. split; [by apply (lo_base st s Ls l)|done].
  - split; [lia|]. intros m ->. destruct Hp as [->|[Hi Hk]]; [by left|right]. split; [by apply (lo_sub _ _ _ Hl)|done].
  - intros lev _. split; [|done]. cbn. intros Hle Hs. destruct (record_succ _ _ _ _ Hs) as [[_ ?]|[Hne Hs1]]; [done|].
    left. split; [lia|done].
Qed.

(** Loading the next node to the right of [pr] on level [l]. *)

Lemma load_walk_ok k t l pr sc pc :
  (l < MAX_HEAD_HEIGHT)%nat -> valid k -> pred_ok h s Ls k l pr -> ctx_good h s Ls k t ->
  nxt h pr l = Some sc -> (forall q, sc = Some q -> q ∈ Ls l) -> (forall lev, passed pc lev <-> (l < lev)%nat) ->
  search_result h s Ls k pc t (inl (SWalk l pr sc, t)).
Proof using Hl.
  intros Hlt Hk Hp Hc Hn Hin Hpass. split; [done|]. split; [done|]. intros lev _. split.
  - cbn. intros ? ?. left. by rewrite Hpass.
  - destruct sc as [q|]; [done|]. cbn. intros <- q Hq. by apply (null_next Hl l k pr q).
Qed.

Lemma search_step_ok p k pc t :
  valid k -> ctx_good h s Ls k t -> spc_ok h s Ls k pc ->
  exists r, search_step p h s k pc t = Done r /\ search_result h s Ls k pc t r.
Proof using Hl.
  intros Hk Hc Hpc. destruct pc as [|[|level]|[|l] pr|l pr [c|]]; cbn [spc_ok] in Hpc.
  - eexists. split; [done|]. split; [done|]. split; [apply (lo_max _ _ _ Hl)|]. intros lev Hlev. cbn. split; [lia|done].
  - eexists. split; [done|]. split; [done|]. split; [done|]. intros lev _. split; [by left|done].
  - by apply skip_ok.
  - eexists. split; [done|]. split; [done|]. intros lev. cbn. lia.
  - destruct Hpc as [Hlev Hp]. specialize (Hp l eq_refl).
    destruct (load_linked Hl p l pr Hlev) as (sc & Eld & Hn & Hin); [destruct Hp as [?|[? _]]; auto|].
    cbn [search_step]. rewrite Eld. cbn [mbind outcome_bind]. eexists. split; [done|].
    by apply load_walk_ok.
  - destruct Hpc as (Hlt & Hp & Hin). specialize (Hin c eq_refl).
    pose proof (lo_node st s Ls c Hl (lo_base st s Ls l c Hl Hin)) as (Hread & Hv & _).
    cbn [search_step]. rewrite (get_key_bytes_done h c Hread). cbn [mbind outcome_bind].
    rewrite compare_done by done. cbn [mbind outcome_bind].
    destruct (key_cmp (key_of h c) k) eqn:E.
    + eexists. split; [done|]. apply walk_stop_ok; try done. right. split; [done|]. by apply key_cmp_eq in E.
    + destruct (load_linked Hl p l c Hlt) as (sc & Eld & Hn & Hin'); [by right|].
      rewrite Eld. cbn [mbind outcome_bind]. eexists. split; [done|]. apply load_walk_ok; try done. by right.
    + eexists. split; [done|]. apply walk_stop_ok; try done. left. split; [done|]. unfold key_above.
      by rewrite (key_cmp_antisym (key_of h c) k), E.
  - destruct Hpc as (Hlt & Hp & _). eexists. split; [done|]. by apply walk_null_ok.
Qed.
End SearchStep.

(** ** What a step of a thread keeps *)

(** How many levels a thread may still link. *)

Definition pc_links (pc : ipc) : nat :=
  match pc with
  | IDone _ | IPanicked => 0
  | ISearch (GBase _ height) _ _ | IWriteKey _ _ height | IWriteValue _ _ height => height
  | ISearch (GUpper _ height lev) _ _ | ILink _ _ height lev | ICas _ _ height lev => height - lev
  | _ => MAX_HEAD_HEIGHT
  end.

Definition links (th : thread) : nat := match th with Inserter _ _ pc => pc_links pc | _ => 0 end.

Record step_ok (st : SlStore) (s : SkipList) Ls (th : thread) (st' : SlStore) (s' : SkipList) Ls' (th' : thread) : Prop := {
  so_lists : lists_ok st' s' Ls';
  so_thread : thread_ok (st_nodes st') s' Ls' th';
  so_ev : evolves (own_node th) (st_nodes st) (st_nodes st') s s' Ls Ls';
  so_own : forall n, own_node th' = Some n -> own_node th = Some n \/ st_nodes st !! n = None;
  so_new : forall q l, q ∈ Ls' 0%nat -> (l < height_of (st_nodes st') q)%nat -> q ∉ Ls' l ->
    own_node th' = Some q \/ q ∈ Ls 0%nat /\ (q ∉ Ls l) /\ own_node th <> Some q;
  so_entry : forall q, q ∈ Ls' 0%nat -> q ∈ Ls 0%nat \/
    exists k v pc, th' = Inserter k v pc /\ key_of (st_nodes st') q = k /\ value_of (st_nodes st') q = v;
  so_same : Ls' = Ls \/ (links th' < links th)%nat
}.

(** Counters may change; the height of the list only grows. *)

Definition counters (s s' : SkipList) : Prop :=
  sl_sentinel s' = sl_sentinel s /\ (sl_max_level s <= sl_max_level s' <= MAX_HEAD_HEIGHT)%nat.

Lemma lists_counters st s s' Ls : counters s s' -> lists_ok st s Ls -> lists_ok st s' Ls.
Proof.
  intros [Hs Hm] [H1 H2 H3 H4 H5 H6 H7 H8 H9]. constructor; rewrite ?Hs; try done; [lia|].
  eapply Forall_impl; [exact H9|]. cbn. lia.
Qed.

Lemma evolves_counters o h s s' Ls : counters s s' -> evolves o h h s s' Ls Ls.
Proof. intros [Hs Hm]. constructor; auto. lia. Qed.

Lemma step_pure st s s' Ls th th' :
  lists_ok st s Ls -> counters s s' -> thread_ok (st_nodes st) s' Ls th' ->
  (forall n, own_node th' = Some n -> own_node th = Some n) ->
  (forall n, own_node th = Some n -> own_node th' = Some n \/ n ∉ Ls 0%nat) ->
  step_ok st s Ls th st s' Ls th'.
Proof.
  intros Hl Hc Hth Ho1 Ho2. constructor; [by eapply lists_counters|done|by apply evolves_counters|auto| |by left|by left].
  intros q l Hq _ Hn. destruct (decide (own_node th = Some q)) as [E|E]; [|by right].
  destruct (Ho2 q E); [by left|done].
Qed.

(** Nodes outside the list are added or written. *)

Lemma lists_agree st s Ls a' h1 :
  lists_ok st s Ls -> agree (st_nodes st) h1 (sl_sentinel s :: Ls 0%nat) -> heap_ok a' h1 ->
  lists_ok (mkStore a' h1) s Ls.
Proof.
  intros Hl Hag Hh. assert (Hag' : forall l, agree (st_nodes st) h1 (Ls l)).
  { intros l q Hq. apply Hag. right. by apply (lo_base st s Ls l). }
  pose proof Hl as [H1 H2 H3 H4 H5 H6 H7 H8 H9]. constructor; cbn [st_arena st_nodes]; try done.
  - unfold height_of. by rewrite (Hag (sl_sentinel s)) by left.
  - rewrite Forall_forall in H3 |- *. intros q Hq. eapply (agree_node_ok (Hag' 0%nat)); [done|by apply H3].
  - intros l Hlt. eapply agree_chain; [|by apply H4]. intros q [->|Hq]%elem_of_cons; [apply Hag; by left|by apply (Hag' l)].
  - intros l. eapply agree_sorted; [apply Hag'|apply H5].
  - intros l q Hq. rewrite (agree_height (Hag' l)) by done. by apply H7.
  - rewrite Forall_forall in H9 |- *. intros q Hq. rewrite (agree_height (Hag' 0%nat)) by done. by apply (H9 q).
Qed.

Lemma evolves_insert o s Ls h n x :
  n ∉ sl_sentinel s :: Ls 0%nat -> (h !! n = None \/ o = Some n) ->
  evolves o h (<[n := x]> h) s s Ls Ls.
Proof.
  intros Hn Ho. assert (Hne : forall q, is_Some (h !! q) -> o <> Some q \/ q ∈ Ls 0%nat -> q <> n).
  { intros q [y Hy] Hq ->. destruct Ho as [Ho|Ho]; [congruence|]. destruct Hq as [?|?]; [done|]. apply Hn. by right. }
  constructor; [auto|auto| | |done|done].
  - intros q Hs Hq. by rewrite lookup_insert_ne by (apply not_eq_sym; auto).
  - intros q l Hs Hq _ _. unfold nxt. by rewrite lookup_insert_ne by (apply not_eq_sym; auto).
Qed.

Lemma heap_update a h n m m' :
  heap_ok a h -> h !! n = Some m -> length (n_tower m') = n_height m' -> node_size m' = node_size m ->
  heap_ok a (<[n := m']> h).
Proof.
  intros [Ha Ht Hp] Hn Hl Hs. constructor; [done|..]; apply map_Forall_insert_2; try done.
  rewrite Hs. by apply (Hp n).
Qed.

Lemma own_fresh st s Ls n m height :
  lists_ok st s Ls -> st_nodes st !! n = Some m -> n ∉ sl_sentinel s :: Ls 0%nat ->
  n_height m = height -> n_tower m = replicate height None -> (1 <= height <= sl_max_level s)%nat ->
  own_ok (st_nodes st) s Ls n height 0.
Proof.
  intros Hl Hm Hn Hh Ht Hle. split; [intros ->; apply Hn; by left|]. split; [unfold height_of; by rewrite Hm|].
  split; [lia|]. split.
  - intros l. split; [|lia]. intros Hin. destruct Hn. right. by apply (lo_base st s Ls l).
  - intros l Hlt. unfold nxt. rewrite Hm. cbn. rewrite Ht. apply lookup_replicate_2. lia.
Qed.

Lemma own_out h s Ls n height : own_ok h s Ls n height 0 -> n ∉ sl_sentinel s :: Ls 0%nat.
Proof. intros (Hne & _ & _ & Hin & _) [->|H]%elem_of_cons; [done|]. apply Hin in H. lia. Qed.

(** The shared part of the steps that write to a node before it is linked. *)

Lemma step_write st s Ls th th' n height m m' :
  lists_ok st s Ls -> own_node th = Some n -> own_node th' = Some n -> own_ok (st_nodes st) s Ls n height 0 ->
  st_nodes st !! n = Some m -> n_height m' = height -> n_tower m' = replicate height None -> node_size m' = node_size m ->
  (lists_ok (mkStore (st_arena st) (<[n := m']> (st_nodes st))) s Ls ->
   evolves (Some n) (st_nodes st) (<[n := m']> (st_nodes st)) s s Ls Ls ->
   own_ok (<[n := m']> (st_nodes st)) s Ls n height 0 -> thread_ok (<[n := m']> (st_nodes st)) s Ls th') ->
  step_ok st s Ls th (mkStore (st_arena st) (<[n := m']> (st_nodes st))) s Ls th'.
Proof.
  intros Hl Ho Ho' Hown Hm Hh Ht Hs Hth. pose proof (own_out _ _ _ _ _ Hown) as Hout.
  assert (Hl' : lists_ok (mkStore (st_arena st) (<[n := m']> (st_nodes st))) s Ls).
  { apply (lists_agree st); [done| |].
    - intros q Hq. rewrite lookup_insert_ne; [done|]. by intros ->.
    - apply (heap_update _ _ n m m'); [apply (lo_heap _ _ _ Hl)|done|by rewrite Ht, Hh, length_replicate|done]. }
  assert (Hev : evolves (Some n) (st_nodes st) (<[n := m']> (st_nodes st)) s s Ls Ls)
    by (apply evolves_insert; [done|by right]).
  constructor; [done| |by rewrite Ho|intros x; rewrite Ho, Ho'; by left| |by left|by left].
  - apply Hth; [done|done|]. apply (own_fresh _ s Ls n m' height Hl'); [apply lookup_insert_eq|done|done|done|].
    destruct Hown as (_ & _ & ? & _). lia.
  - intros q l Hq _ Hnq. right. split; [done|]. split; [done|]. rewrite Ho. intros [= ->]. apply Hout. by right.
Qed.

(** Tower pointers change. *)

Lemma lists_same st s Ls h1 :
  lists_ok st s Ls -> same_nodes (st_nodes st) h1 ->
  (forall l, (l < MAX_HEAD_HEIGHT)%nat -> chain h1 l (sl_sentinel s) (Ls l)) ->
  lists_ok (mkStore (st_arena st) h1) s Ls.
Proof.
  intros [H1 H2 H3 H4 H5 H6 H7 H8 H9] Hs Hc. constructor; cbn [st_arena st_nodes]; try done.
  - by eapply same_nodes_heap.
  - by rewrite (same_nodes_height _ _ _ Hs).
  - eapply Forall_impl; [exact H3|]. intros q. by apply same_nodes_ok.
  - intros l. specialize (H5 l). induction H5 as [|q L _ IH Hq]; constructor; [done|].
    eapply Forall_impl; [exact Hq|]. intros x. unfold key_lt. by rewrite !(same_nodes_key _ _ _ Hs).
  - intros l q Hq. rewrite (same_nodes_height _ _ _ Hs). by apply H7.
  - eapply Forall_impl; [exact H9|]. intros q. cbn. by rewrite (same_nodes_height _ _ _ Hs).
Qed.

Lemma same_good h h1 k v n : same_nodes h h1 -> node_good h k v n -> node_good h1 k v n.
Proof.
  intros Hs (H1 & H2 & H3). split; [by apply (same_nodes_ok h)|].
  by rewrite (same_nodes_key _ _ _ Hs), (same_nodes_value _ _ _ Hs).
Qed.

(** ** The steps of an insertion *)

Section InsertStep.
Context (p : profile) {st : SlStore} {s : SkipList} {Ls : nat -> list arena_ptr} (Hl : lists_ok st s Ls).
Context {k v : bytes} (Hk : valid k) (Hlk : in_width 16 (len k)) (Hlv : in_width 32 (len v)).
#[local] Abbreviation h := (st_nodes st).
#[local] Abbreviation th := (Inserter k v).

(** The step of a thread at [pc] runs and keeps everything. *)

Definition steps_to (coin : bool) (pc : ipc) : Prop :=
  exists st' s' pc' Ls', insert_step p coin st s k v pc = Done (st', s', pc') /\
    step_ok st s Ls (th pc) st' s' Ls' (th pc').

Lemma pc_thread h0 s0 Ls0 pc : pc_ok h0 s0 Ls0 k v pc -> thread_ok h0 s0 Ls0 (th pc).
Proof using Hk Hlk Hlv. done. Qed.

Lemma ctx_init_good : ctx_good h s Ls k (ctx_init s).
Proof using.
  split; [|done]. intros l Hlt. exists (sl_sentinel s), None. cbn [ctx_init predecessors successors searched_node].
  rewrite !lookup_replicate_2 by done. do 2 (split; [done|]). split; [by left|done].
Qed.

Lemma counters_refl : counters s s.
Proof using Hl. split; [done|]. pose proof (lo_max _ _ _ Hl). lia. Qed.

Lemma not_base n height : own_ok h s Ls n height 0 -> n ∉ Ls 0%nat.
Proof using. intros (_ & _ & _ & H & _) Hin. apply H in Hin. lia. Qed.

(** When the search of an insertion has returned. *)

Lemma after_search_ok g t pc :
  (forall lev, passed pc lev) -> ctx_good h s Ls k t -> goal_ok h s Ls k v g pc t ->
  pc_ok h s Ls k v (after_search g t) /\
  (forall n, own_pc (after_search g t) = Some n -> own_pc (ISearch g pc t) = Some n) /\
  (forall n, own_pc (ISearch g pc t) = Some n -> own_pc (after_search g t) = Some n \/ n ∉ Ls 0%nat).
Proof using.
  intros Hp Hc Hg. destruct g as [|n height|n height lev]; cbn [after_search].
  - destruct (searched_node t) as [f|] eqn:Ef; [split; [by apply Hc|done]|]. split; [split; [done|by left]|done].
  - destruct Hg as (Ho & Hn & w & Hw & _ & Hz & _). destruct (searched_node t) as [f|] eqn:Ef.
    + split; [by apply Hc|]. split; [done|]. intros x [= <-]. right. by eapply not_base.
    + split; [|split; [done|by left]]. split; [split; [done|by left]|]. split; [done|]. split; [done|]. exists w.
      split; [done|]. by apply Hz.
  - destruct Hg as (Hlev & Ho & Hn & w & Hw & _ & Hz & _). split; [|split; [done|by left]].
    split; [split; [done|by right]|]. split; [done|]. split; [done|]. exists w. split; [done|]. by apply Hz.
Qed.

Lemma step_search coin g pc t : pc_ok h s Ls k v (ISearch g pc t) -> steps_to coin (ISearch g pc t).
Proof using Hl Hk Hlk Hlv.
  intros (Hc & Hpc & Hg). destruct (search_step_ok Hl p k pc t Hk Hc Hpc) as (r & E & Hr).
  unfold steps_to. cbn [insert_step]. rewrite E. cbn [mbind outcome_bind]. eexists st, s, _, Ls. split; [done|].
  destruct r as [[pc' t']|t']; cbn in Hr.
  - destruct Hr as (Hc' & Hpc' & Ha). apply step_pure; [done|apply counters_refl| |done|by left].
    apply pc_thread. split; [done|]. split; [done|]. by eapply goal_advance.
  - destruct Hr as [-> Hp]. destruct (after_search_ok g t pc Hp Hc Hg) as (H1 & H2 & H3).
    apply step_pure; [done|apply counters_refl|by apply pc_thread|done|done].
Qed.

Lemma step_count coin t : pc_ok h s Ls k v (ICount t) -> steps_to coin (ICount t).
Proof using Hl Hk Hlk Hlv.
  intros H. eexists st, _, _, Ls. split; [done|]. apply step_pure; [done|apply counters_refl|by apply pc_thread|done|done].
Qed.

Lemma step_seed_load coin t : pc_ok h s Ls k v (ISeedLoad t) -> steps_to coin (ISeedLoad t).
Proof using Hl Hk Hlk Hlv.
  intros H. eexists st, _, _, Ls. split; [done|]. apply step_pure; [done|apply counters_refl|by apply pc_thread|done|done].
Qed.

Lemma step_seed_store coin t x : pc_ok h s Ls k v (ISeedStore t x) -> steps_to coin (ISeedStore t x).
Proof using Hl Hk Hlk Hlv.
  intros H. unfold steps_to. cbn [insert_step]. cbv zeta.
  rewrite reduce_height_done; [|apply (lo_heap _ _ _ Hl)| |lia].
  - cbn [mbind outcome_bind]. eexists st, _, _, Ls. split; [done|].
    apply step_pure; [done|apply counters_refl|apply pc_thread; split; [exact H|unfold MAX_HEAD_HEIGHT; lia]|done|done].
  - intros l Hlt. destruct (linked_slot Hl l (sl_sentinel s) Hlt ltac:(by left)) as (sc & Hn & _). by exists sc.
Qed.

Lemma raise_level_ok t height m :
  link_ctx h s Ls k t 0 -> (1 <= height <= MAX_HEAD_HEIGHT)%nat -> (m <= sl_max_level s)%nat ->
  pc_ok h s Ls k v (raise_level t height m) /\ own_pc (raise_level t height m) = None.
Proof using.
  intros Hc Hh Hm. unfold raise_level. destruct (Nat.ltb_spec m height); split; try done; split; try done; lia.
Qed.

Lemma step_max_load coin t height : pc_ok h s Ls k v (IMaxLoad t height) -> steps_to coin (IMaxLoad t height).
Proof using Hl Hk Hlk Hlv.
  intros [Hc Hh]. destruct (raise_level_ok t height (sl_max_level s) Hc Hh ltac:(lia)) as [Hr Ho].
  eexists st, s, _, Ls. split; [done|]. apply step_pure; [done|apply counters_refl|by apply pc_thread| |done].
  intros n. cbn. by rewrite Ho.
Qed.

Lemma step_max_cas coin t height m : pc_ok h s Ls k v (IMaxCas t height m) -> steps_to coin (IMaxCas t height m).
Proof using Hl Hk Hlk Hlv.
  intros (Hc & Hh & Hm). destruct (raise_level_ok t height (sl_max_level s) Hc Hh ltac:(lia)) as [Hr Ho].
  unfold steps_to. cbn [insert_step]. destruct (coin && (sl_max_level s =? m)%nat) eqn:E.
  - apply andb_prop in E as [_ E%Nat.eqb_eq].
    assert (Hct : counters s (set_max_level height s)) by (split; [done|cbn; lia]).
    eexists st, _, _, Ls. split; [done|]. apply step_pure; [done|done| |done|done].
    apply pc_thread. split; [|cbn; lia].
    apply (stable_link_ctx (o := None) (st' := st) (Ls' := Ls) Hl); [by apply evolves_counters|done].
  - eexists st, s, _, Ls. split; [done|]. apply step_pure; [done|apply counters_refl|by apply pc_thread| |done].
    intros n. cbn. by rewrite Ho.
Qed.

(** Allocation: a fresh node, or the arena refuses and the thread panics. *)

Lemma Node_alloc_cases height :
  (height <= MAX_HEAD_HEIGHT)%nat ->
  (exists a' n, let m := Node_init_node height (len k) (len v) in
     Node_alloc p st height (len k) (len v) = Done (mkStore a' (<[n := m]> h), n) /\ h !! n = None /\
     heap_ok a' (<[n := m]> h)) \/
  (exists why, Node_alloc p st height (len k) (len v) = Panic why).
Proof using Hl Hlk Hlv.
  intros Hh. pose proof (lo_heap _ _ _ Hl) as Hheap.
  destruct (alloc_raw_cases p (st_arena st) (node_layout height (len k) (len v)) (ho_arena _ _ Hheap)) as [(a' & n & E)|[why E]];
    [by apply node_layout_ok| |].
  - left. destruct (Node_alloc_done p st height (len k) (len v) a' n Hheap Hh Hlk Hlv E) as (E' & Hnone & Hok).
    by exists a', n.
  - right. unfold Node_alloc. rewrite debug_assert_true by by apply Nat.leb_le. cbn [mbind outcome_bind].
    rewrite build_layout_done by done. rewrite E. by exists why.
Qed.

Lemma fresh_out n : h !! n = None -> n ∉ sl_sentinel s :: Ls 0%nat.
Proof using Hl.
  intros Hn [->|Hin]%elem_of_cons.
  - destruct (height_some h (sl_sentinel s) _ (proj1 (lo_head _ _ _ Hl)) ltac:(unfold MAX_HEAD_HEIGHT; lia)) as [x Hx].
    congruence.
  - destruct (lo_some st s Ls n Hl Hin) as [x Hx]. congruence.
Qed.

Lemma step_alloc coin t height : pc_ok h s Ls k v (IAlloc t height) -> steps_to coin (IAlloc t height).
Proof using Hl Hk Hlk Hlv.
  intros [Hc Hh]. pose proof (lo_max _ _ _ Hl) as Hmax. unfold steps_to. cbn [insert_step].
  rewrite (debug_assert_true _ (height <=? _)%nat) by (apply Nat.leb_le; lia). cbn [mbind outcome_bind].
  rewrite debug_assert_true by (apply Z.leb_le; change (u_max 16) with 65535; unfold MAX_HEAD_HEIGHT in *; lia).
  cbn [mbind outcome_bind]. rewrite (wrap_small 16), (wrap_small 32) by done.
  destruct (Node_alloc_cases height ltac:(lia)) as [(a' & n & -> & Hnone & Hheap)|[why ->]].
  - pose proof (fresh_out n Hnone) as Hout. eexists _, s, _, Ls. split; [done|].
    set (h1 := <[n := _]> h) in *.
    assert (Hl1 : lists_ok (mkStore a' h1) s Ls).
    { apply (lists_agree st); [done| |done]. intros q Hq. unfold h1. rewrite lookup_insert_ne; [done|]. by intros ->. }
    assert (Hev : evolves None h h1 s s Ls Ls) by (apply evolves_insert; [done|by left]).
    assert (Hn1 : h1 !! n = Some (Node_init_node height (len k) (len v))) by apply lookup_insert_eq.
    constructor; [done| |done| | |by left|by left].
    + apply pc_thread. split; [by apply (stable_link_ctx (st' := mkStore a' h1) Hl Hev)|]. split; [|done].
      by apply (own_fresh _ s Ls n _ height Hl1 Hn1 Hout).
    + cbn. intros x [= <-]. by right.
    + cbn. intros q l Hq _ Hnq. by right.
  - eexists st, s, _, Ls. split; [done|]. apply step_pure; [done|apply counters_refl|by apply pc_thread|done|done].
Qed.

Lemma store_eta x : mkStore (st_arena x) (st_nodes x) = x.
Proof using. by destruct x. Qed.

Lemma step_write_key coin t n height : pc_ok h s Ls k v (IWriteKey t n height) -> steps_to coin (IWriteKey t n height).
Proof using Hl Hk Hlk Hlv.
  intros (Hc & Ho & Hn). unfold steps_to. cbn [insert_step].
  pose proof (write_key_done (st_arena st) h n height k (len v) ltac:(apply Hlv) Hn) as E. rewrite store_eta in E. rewrite E.
  cbn [mbind outcome_bind]. eexists _, s, _, Ls. split; [done|].
  eapply (step_write st s Ls _ _ n height _ _ Hl); [done|done|done|exact Hn|done|done| |].
  - unfold node_size, k_node, Node_init_node. cbn [n_height n_payload]. rewrite len_app, len_Some_fmap, !len_replicate.
    destruct Hlv. pose proof (len_nonneg k). lia.
  - intros Hl' Hev Ho'. apply pc_thread. split; [by apply (stable_link_ctx (st' := mkStore (st_arena st) _) Hl Hev)|].
    split; [done|]. apply lookup_insert_eq.
Qed.

Lemma step_write_value coin t n height :
  pc_ok h s Ls k v (IWriteValue t n height) -> steps_to coin (IWriteValue t n height).
Proof using Hl Hk Hlk Hlv.
  intros (Hc & Ho & Hn). unfold steps_to. cbn [insert_step].
  pose proof (write_value_done (st_arena st) h n height k v Hn) as E. rewrite store_eta in E. rewrite E.
  cbn [mbind outcome_bind]. eexists _, s, _, Ls. split; [done|].
  eapply (step_write st s Ls _ _ n height _ _ Hl); [done|done|done|exact Hn|done|done| |].
  - unfold node_size, k_node, kv_node. cbn [n_height n_payload]. rewrite fmap_app, !len_app, !len_Some_fmap, len_replicate.
    destruct Hlv. lia.
  - intros Hl' Hev Ho'. apply pc_thread. split; [by apply (stable_link_ctx (st' := mkStore (st_arena st) _) Hl Hev)|].
    split; [done|]. destruct (kv_node_written height k v) as (Hw & Hwk & Hwv). destruct Ho as (_ & _ & Hle & _).
    pose proof (lo_max _ _ _ Hl).
    assert (Hx : <[n := kv_node height k v]> h !! n = Some (kv_node height k v)) by apply lookup_insert_eq.
    split; [split; [split|]|].
    + by exists (kv_node height k v).
    + unfold key_of, height_of. rewrite Hx. cbn [from_option]. rewrite Hwk. split; [done|]. cbn. lia.
    + unfold key_of, value_of. by rewrite Hx.
    + exists None. split; [|done]. unfold nxt. cbn [st_nodes]. rewrite Hx. cbn [mbind option_bind kv_node n_tower].
      apply lookup_replicate_2. lia.
Qed.

(** Storing the successor in the own node. *)

Lemma lists_own_slot n height lev x :
  own_ok h s Ls n height lev -> lists_ok (mkStore (st_arena st) (set_slot (n, lev) x h)) s Ls.
Proof using Hl.
  intros (Hne & _ & _ & Hin & _). apply lists_same; [done|apply same_nodes_set_slot|].
  intros l Hlt. apply chain_set_slot_other; [|by apply (lo_chains _ _ _ Hl)].
  destruct (decide (lev = l)) as [->|]; [right|by left]. intros [?|H]%elem_of_cons; [done|]. apply Hin in H. lia.
Qed.

Lemma evolves_own_slot n lev x : evolves (Some n) h (set_slot (n, lev) x h) s s Ls Ls.
Proof using.
  constructor; [auto|auto| | |done|done].
  - intros q _ _. apply same_nodes_set_slot.
  - intros q l _ Hq _ _. apply nxt_set_slot_ne. congruence.
Qed.

Lemma own_own_slot n height lev x :
  own_ok h s Ls n height lev -> own_ok (set_slot (n, lev) x h) s Ls n height lev.
Proof using.
  intros (Hne & Hh & Hle & Hin & Hn). split; [done|]. split; [by rewrite (same_nodes_height _ _ _ (same_nodes_set_slot _ _ _))|].
  split; [done|]. split; [done|]. intros l Hlt. rewrite nxt_set_slot_ne; [by apply Hn|]. intros [= ->]. lia.
Qed.

Lemma link_store n lev w sc :
  (lev < MAX_HEAD_HEIGHT)%nat -> nxt h n lev = Some w -> (sc = None -> w = None) ->
  (match sc with Some _ => x ← Node_next p h n lev; slot_store h x sc | None => Done h end) = Done (set_slot (n, lev) sc h).
Proof using Hl.
  intros Hlt Hw Hsc. destruct sc as [q|].
  - rewrite (Node_next_done p h n lev w) by (try done; apply (lo_heap _ _ _ Hl)). cbn [mbind outcome_bind].
    unfold slot_store. by rewrite (slot_load_done h n lev w Hw).
  - by rewrite set_slot_id by (by rewrite Hw, Hsc).
Qed.

Lemma step_link coin t n height lev : pc_ok h s Ls k v (ILink t n height lev) -> steps_to coin (ILink t n height lev).
Proof using Hl Hk Hlk Hlv.
  intros (Hc & Ho & Hg & w & Hw & Hz). pose proof Ho as (_ & _ & Hle & Hin & _). pose proof (lo_max _ _ _ Hl).
  destruct (proj1 (proj1 Hc) lev ltac:(lia)) as (pr & sc & Ep & Es & _).
  unfold steps_to. cbn [insert_step]. unfold ctx_at at 1. rewrite Es. cbn [mbind outcome_bind].
  rewrite (link_store n lev w sc) by (done || lia || (intros ->; by apply Hz)). cbn [mbind outcome_bind].
  pose proof (evolves_own_slot n lev sc) as Hev. eexists _, s, _, Ls. split; [done|].
  constructor; [by eapply lists_own_slot| |done|by left| |by left|by left].
  - apply pc_thread. split; [by apply (stable_link_ctx (st' := mkStore (st_arena st) _) Hl Hev)|].
    split; [by apply own_own_slot|]. split; [by apply (same_good h); [apply same_nodes_set_slot|]|].
    exists sc. split; [done|]. by eapply nxt_set_slot_eq.
  - intros q l Hq _ Hnq. destruct (decide (n = q)) as [->|Hne]; [by left|]. right. split; [done|]. split; [done|].
    cbn. congruence.
Qed.

(** ** The exchange *)

Lemma key_unique l a b : a ∈ Ls l -> b ∈ Ls l -> key_of h a = key_of h b -> a = b.
Proof using Hl.
  intros Ha Hb E. pose proof (lo_valid st s Ls l a Hl Ha) as Hv.
  apply list_elem_of_split in Ha as (X & Y & EL). pose proof (lo_sorted _ _ _ Hl l) as Hs. rewrite EL in Hs, Hb.
  assert (Hr : key_cmp (key_of h a) (key_of h a) = Eq) by (by apply key_cmp_eq).
  apply sorted_app_key in Hs as (_ & Hs & HX). apply StronglySorted_inv in Hs as [_ HY]. rewrite Forall_forall in HY.
  apply elem_of_app in Hb as [Hb|[Hb|Hb]%elem_of_cons]; [|done|].
  - specialize (HX b a Hb ltac:(by left)). unfold key_lt in HX. by rewrite <- E, Hr in HX.
  - specialize (HY b Hb). unfold key_lt in HY. by rewrite <- E, Hr in HY.
Qed.

Lemma strict_succ t n height lev sc q :
  link_ctx h s Ls k t lev -> own_ok h s Ls n height lev -> node_good h k v n -> successors t !! lev = Some sc ->
  sc = Some q -> q ∈ Ls lev /\ key_above h k q.
Proof using Hl.
  intros [[Hc _] Hf] Ho (_ & Hkey & _) Es ->. pose proof Ho as (_ & _ & Hle & Hin & _). pose proof (lo_max _ _ _ Hl).
  destruct (Hc lev ltac:(lia)) as (pr & sc & _ & Es' & _ & Hsc). rewrite Es in Es'. injection Es' as <-.
  destruct (Hsc q eq_refl) as [Hq [?|[Hkq Hfound]]]; [done|]. destruct Hf as [?|Hlev]; [done|]. exfalso.
  assert (Hn0 : n ∈ Ls 0%nat) by by apply Hin.
  pose proof (key_unique 0 q n (lo_base st s Ls lev q Hl Hq) Hn0 ltac:(congruence)) as ->. apply Hin in Hq. lia.
Qed.

(** The exchange fails: search again. *)

Lemma cas_fails t n height lev :
  pc_ok h s Ls k v (ICas t n height lev) ->
  step_ok st s Ls (th (ICas t n height lev)) st s Ls
    (th (ISearch (match lev with O => GBase n height | _ => GUpper n height lev end) SMax (ctx_init s))).
Proof using Hl Hk Hlk Hlv.
  intros (Hc & Ho & Hg & sc & Es & Hn).
  assert (Hr : resume_ok h s Ls k v n height lev SMax (ctx_init s)).
  { split; [done|]. split; [done|]. exists sc. split; [done|]. split; [|done]. intros q Hq.
    by apply (strict_succ t n height lev sc q). }
  apply step_pure; [done|apply counters_refl| |by destruct lev|intros x Hx; left; by destruct lev].
  apply pc_thread. split; [apply ctx_init_good|]. split; [done|]. destruct lev; [done|]. split; [lia|done].
Qed.

(** The exchange succeeds: [n] is linked between its neighbours. *)

Definition with_level_list (lev : nat) L : nat -> list arena_ptr := fun l => if decide (l = lev) then L else Ls l.

Lemma level_list_eq lev L : with_level_list lev L lev = L.
Proof using. unfold with_level_list. by rewrite decide_True. Qed.

Lemma level_list_ne lev L l : l <> lev -> with_level_list lev L l = Ls l.
Proof using. intros. unfold with_level_list. by rewrite decide_False. Qed.

Section Linked.
Context {n pr : arena_ptr} {height lev : nat} {sc : option arena_ptr} {A B : list arena_ptr}.
Context (Ho : own_ok h s Ls n height lev) (Hg : node_good h k v n) (Hn : nxt h n lev = Some sc).
Context (Hpr : pr = sl_sentinel s \/ pr ∈ Ls lev) (HL : Ls lev = A ++ B) (Hlast : last_or (sl_sentinel s) A = pr).
Context (Hhead : head B = sc) (HA : Forall (key_below h k) A) (HB : Forall (key_above h k) B).
#[local] Abbreviation h1 := (set_slot (pr, lev) (Some n) h).
#[local] Abbreviation Ls1 := (with_level_list lev (A ++ n :: B)).

Lemma linked_in l q : q ∈ Ls1 l <-> q ∈ Ls l \/ q = n /\ l = lev.
Proof using HL.
  clear -HL. destruct (decide (l = lev)) as [->|Hne].
  - rewrite level_list_eq, HL, !elem_of_app, elem_of_cons. tauto.
  - rewrite level_list_ne by done. tauto.
Qed.

Lemma linked_ne : pr <> n.
Proof using Ho Hpr.
  clear -Ho Hpr. destruct Ho as (Hne & _ & _ & Hin & _). intros E. rewrite E in Hpr.
  destruct Hpr as [?|H]; [done|]. apply Hin in H. lia.
Qed.

Lemma linked_chains l : (l < MAX_HEAD_HEIGHT)%nat -> chain h1 l (sl_sentinel s) (Ls1 l).
Proof using Hl Ho Hn HL Hlast Hhead.
  destruct Ho as (Hne & _ & _ & Hin & _).
  intros Hlt. pose proof (lo_chains _ _ _ Hl l Hlt) as Hc. destruct (decide (l = lev)) as [->|Hnl].
  - rewrite level_list_eq. rewrite HL in Hc.
    pose proof (chain_link h lev (sl_sentinel s) A B n sc Hc) as H. rewrite Hhead, (set_slot_id _ _ _ _ Hn), Hlast in H.
    apply H; [| |done]; rewrite <- HL.
    + apply NoDup_cons. split; [apply (sentinel_out Hl)|]. apply (sorted_NoDup h); [apply (lvl_valid Hl)|apply (lo_sorted _ _ _ Hl)].
    + intros [?|Hx]%elem_of_cons; [done|]. apply Hin in Hx. lia.
  - rewrite level_list_ne by done. apply chain_set_slot_other; [by left; congruence|done].
Qed.

Lemma linked_sorted l : StronglySorted (key_lt h) (Ls1 l).
Proof using Hl Hg HL HA HB.
  pose proof (lo_sorted _ _ _ Hl l) as Hs. destruct (decide (l = lev)) as [->|Hnl].
  - rewrite level_list_eq. rewrite HL in Hs. apply sorted_app_key in Hs as (HsA & HsB & HAB). destruct Hg as (_ & Hkey & _).
    rewrite Forall_forall in HA, HB. apply sorted_app_key. split; [done|]. split.
    + constructor; [done|]. apply Forall_forall. intros b Hb. unfold key_lt. rewrite Hkey. by apply HB.
    + intros a b Ha [->|Hb]%elem_of_cons; [|by apply HAB]. unfold key_lt. rewrite Hkey. by apply HA.
  - by rewrite level_list_ne by done.
Qed.

Lemma linked_lists : lists_ok (mkStore (st_arena st) h1) s Ls1.
Proof using Hl Ho Hg Hn Hpr HL Hlast Hhead HA HB.
  pose proof (same_nodes_set_slot (pr, lev) (Some n) h) as Hs. pose proof Ho as (Hne & Hh & Hle & Hin & _).
  pose proof Hl as [H1 H2 H3 H4 H5 H6 H7 H8 H9]. destruct Hg as (Hok & _).
  rewrite Forall_forall in H3, H9.
  constructor; cbn [st_arena st_nodes].
  - by eapply same_nodes_heap.
  - rewrite (same_nodes_height _ _ _ Hs). split; [apply H2|]. rewrite linked_in. intros [?|[? _]]; [by apply H2|congruence].
  - apply Forall_forall. intros q Hq. apply (same_nodes_ok h); [done|]. apply linked_in in Hq as [Hq|[-> _]]; [by apply H3|done].
  - apply linked_chains.
  - intros l. pose proof (linked_sorted l) as Hso. induction Hso as [|q L _ IH Hq]; constructor; [done|].
    eapply Forall_impl; [exact Hq|]. intros x. unfold key_lt. by rewrite !(same_nodes_key _ _ _ Hs).
  - intros l q. rewrite !linked_in. intros [Hq|[-> El]]; [left; by apply H6|]. left. apply Hin. lia.
  - intros l q. rewrite linked_in, (same_nodes_height _ _ _ Hs). intros [Hq|[-> ->]]; [by apply H7|lia].
  - done.
  - apply Forall_forall. intros q Hq. rewrite (same_nodes_height _ _ _ Hs).
    apply linked_in in Hq as [Hq|[-> _]]; [by apply (H9 q)|lia].
Qed.

Lemma linked_evolves : evolves (Some n) h h1 s s Ls Ls1.
Proof using Hl Hpr HL.
  constructor; [| | | |done|done].
  - intros l q Hq. apply linked_in. by left.
  - intros l q Hq. apply linked_in in Hq as [?|[-> _]]; [by left|by right].
  - intros q _ _. apply same_nodes_set_slot.
  - intros q l _ _ Hq Hni. apply nxt_set_slot_ne. intros [= -> ->]. by destruct Hpr.
Qed.

Definition next_pc (t : TraversalCtx) : ipc :=
  if (S lev <? height)%nat then ILink t n height (S lev) else IDone n.

Lemma linked_pc t : link_ctx h s Ls k t lev -> pc_ok h1 s Ls1 k v (next_pc t).
Proof using Hl Ho Hg Hn Hpr HL.
  intros [Hc Hf]. pose proof (same_nodes_set_slot (pr, lev) (Some n) h) as Hs. pose proof Ho as (Hne & Hh & Hle & Hin & Hz).
  unfold next_pc. destruct (Nat.ltb_spec (S lev) height).
  - split; [split; [by apply (stable_ctx (st' := mkStore (st_arena st) h1) Hl linked_evolves)|right; lia]|].
    assert (Hnx : forall l, (lev < l < height)%nat -> nxt h1 n l = Some None).
    { intros l Hlt. rewrite nxt_set_slot_ne; [by apply Hz|]. intros [= E _]. by apply linked_ne. }
    split; [|split; [by apply (same_good h)|exists None; split; [apply Hnx; lia|done]]].
    split; [done|]. split; [by rewrite (same_nodes_height _ _ _ Hs)|]. split; [lia|]. split.
    + intros l. rewrite linked_in, Hin. split; [intros [?|[_ ->]]; lia|]. intros Hlt.
      destruct (decide (l = lev)); [by right|left; lia].
    + intros l Hlt. apply Hnx. lia.
  - split; [|rewrite (same_nodes_key _ _ _ Hs); apply Hg]. apply linked_in.
    destruct lev as [|lev']; [by right|]. left. apply Hin. lia.
Qed.

Lemma cas_succeeds t :
  link_ctx h s Ls k t lev ->
  step_ok st s Ls (th (ICas t n height lev)) (mkStore (st_arena st) h1) s Ls1 (th (next_pc t)).
Proof using Hl Hk Hlk Hlv Ho Hg Hn Hpr HL Hlast Hhead HA HB.
  intros Hc. pose proof (same_nodes_set_slot (pr, lev) (Some n) h) as Hs. pose proof Ho as (Hne & Hh & Hle & Hin & _).
  constructor; cbn [st_nodes].
  - apply linked_lists.
  - apply pc_thread. by apply linked_pc.
  - apply linked_evolves.
  - intros x Hx. left. unfold next_pc in Hx. destruct (S lev <? height)%nat; cbn in *; [done|done].
  - intros q l Hq Hlt Hnq. rewrite (same_nodes_height _ _ _ Hs) in Hlt.
    assert (Hnq' : (q ∉ Ls l) /\ ~ (q = n /\ l = lev)) by (split; intros Hx; apply Hnq, linked_in; auto).
    destruct (decide (q = n)) as [->|Hqn].
    + left. unfold next_pc. destruct (Nat.ltb_spec (S lev) height); [done|]. exfalso.
      destruct Hnq' as [H1 H2]. rewrite Hin in H1. apply H2. split; [done|lia].
    + right. apply linked_in in Hq as [Hq|[? _]]; [|done]. split; [done|]. split; [apply Hnq'|]. cbn. congruence.
  - intros q Hq. apply linked_in in Hq as [Hq|[-> _]]; [by left|right]. exists k, v, (next_pc t).
    split; [done|]. rewrite (same_nodes_key _ _ _ Hs), (same_nodes_value _ _ _ Hs). by destruct Hg as (_ & ? & ?).
  - right. unfold next_pc. destruct (Nat.ltb_spec (S lev) height); cbn; lia.
Qed.
End Linked.

Lemma step_cas coin t n height lev : pc_ok h s Ls k v (ICas t n height lev) -> steps_to coin (ICas t n height lev).
Proof using Hl Hk Hlk Hlv.
  intros H. pose proof H as (Hc & Ho & Hg & sc & Es & Hn). pose proof Ho as (_ & _ & Hle & _). pose proof (lo_max _ _ _ Hl).
  destruct (proj1 (proj1 Hc) lev ltac:(lia)) as (pr & sc' & Ep & Es' & Hpr & _).
  assert (Hpr' : pr = sl_sentinel s \/ pr ∈ Ls lev) by (destruct Hpr as [?|[? _]]; auto).
  destruct (linked_slot Hl lev pr ltac:(lia) Hpr') as (cur & Hcur & _).
  unfold steps_to. cbn [insert_step]. unfold ctx_at. rewrite Es, Ep. cbn [mbind outcome_bind non_null].
  rewrite (Node_next_done p h pr lev cur) by (try done; try lia; apply (lo_heap _ _ _ Hl)). cbn [mbind outcome_bind].
  unfold slot_cas. rewrite (slot_load_done h pr lev cur Hcur). cbn [mbind outcome_bind].
  destruct (decide (cur = sc)) as [->|Hne]; cbn [mbind outcome_bind].
  - destruct (around Hl lev k pr sc ltac:(lia) Hk Hpr Hcur) as (A & B & HL & Hlast & Hhead & HA).
    assert (HB : Forall (key_above h k) B).
    { pose proof (lvl_valid Hl lev) as Hv. pose proof (lo_sorted _ _ _ Hl lev) as Hs. rewrite HL in Hv, Hs.
      apply Forall_app in Hv as [_ Hv]. apply sorted_app_key in Hs as (_ & Hs & _).
      apply (above_head h k B sc Hk Hv Hs Hhead). intros q Hq.
      by destruct (strict_succ t n height lev sc q Hc Ho Hg Es Hq). }
    eexists _, s, _, _. split; [done|]. by apply (cas_succeeds (B := B) (sc := sc) Ho Hg Hn Hpr' HL Hlast Hhead HA HB t).
  - eexists _, s, _, Ls. split; [done|]. rewrite store_eta. by apply cas_fails.
Qed.

(** Every step of an insertion. *)

Lemma insert_step_ok coin pc : pc_ok h s Ls k v pc -> steps_to coin pc.
Proof using Hl Hk Hlk Hlv.
  destruct pc as [g pc t|t|t|t x|t height|t height m|t height|t n height|t n height|t n height lev|t n height lev|q|].
  - apply step_search.
  - apply step_count.
  - apply step_seed_load.
  - apply step_seed_store.
  - apply step_max_load.
  - apply step_max_cas.
  - apply step_alloc.
  - apply step_write_key.
  - apply step_write_value.
  - apply step_link.
  - apply step_cas.
  - intros H. exists st, s, (IDone q), Ls. split; [done|]. apply step_pure; [done|apply counters_refl|by apply pc_thread|done|done].
  - intros H. exists st, s, IPanicked, Ls. split; [done|]. apply step_pure; [done|apply counters_refl|by apply pc_thread|done|done].
Qed.
End InsertStep.

(** ** The steps of a scan *)

Lemma sorted_snoc_next h (A : list arena_ptr) q nx :
  Forall (fun a => valid (key_of h a)) (A ++ q :: cur_list nx) ->
  StronglySorted (key_lt h) (A ++ [q]) -> (forall c, nx = Some c -> key_lt h q c) ->
  StronglySorted (key_lt h) ((A ++ [q]) ++ cur_list nx).
Proof.
  intros Hv Hs Hn. apply sorted_app_key. split; [done|]. destruct nx as [c|]; cbn in *.
  - split; [repeat constructor|]. intros a b Ha ->%list_elem_of_singleton. rewrite Forall_forall in Hv.
    apply elem_of_app in Ha as [Ha| ->%list_elem_of_singleton]; [|by apply Hn].
    apply sorted_app_key in Hs as (_ & _ & Hs). eapply (key_cmp_trans _ (key_of h q));
      [apply Hv, elem_of_app; by left|apply Hv, elem_of_app; right; by left|
       apply Hv, elem_of_app; right; right; by left|apply Hs; [done|by left]|by apply Hn].
  - split; [constructor|]. by intros a b _ ?%elem_of_nil.
Qed.

Definition job (th : thread) : option (bytes * bytes) :=
  match th with Inserter k v _ => Some (k, v) | _ => None end.

Section ThreadStep.
Context (p : profile) {st : SlStore} {s : SkipList} {Ls : nat -> list arena_ptr} (Hl : lists_ok st s Ls).
#[local] Abbreviation h := (st_nodes st).

(** The node after a linked one is its successor at the base. *)

Lemma next_base q :
  q ∈ Ls 0%nat ->
  exists A B nx, Node_load_next p h q 0 = Done nx /\ Ls 0%nat = (A ++ [q]) ++ B /\ head B = nx.
Proof using Hl.
  intros Hq. destruct (load_linked Hl p 0 q ltac:(unfold MAX_HEAD_HEIGHT; lia) ltac:(by right)) as (nx & E & Hn & _).
  pose proof (lo_chains _ _ _ Hl 0%nat ltac:(unfold MAX_HEAD_HEIGHT; lia)) as Hc.
  apply list_elem_of_split in Hq as (A & B & EL). exists A, B, nx. split; [done|]. rewrite <- app_assoc. split; [done|].
  rewrite EL in Hc. apply chain_from, chain_nxt in Hc. rewrite Hc in Hn. by injection Hn.
Qed.

Lemma scan_first : exists nx, SkipList_iter p h s = Done (mkIter nx) /\ head (Ls 0%nat) = nx.
Proof using Hl.
  destruct (load_linked Hl p 0 (sl_sentinel s) ltac:(unfold MAX_HEAD_HEIGHT; lia) ltac:(by left)) as (nx & E & Hn & _).
  exists nx. unfold SkipList_iter. unfold SkipList_head. rewrite E. split; [done|].
  pose proof (lo_chains _ _ _ Hl 0%nat ltac:(unfold MAX_HEAD_HEIGHT; lia)) as Hc. apply chain_nxt in Hc.
  rewrite Hc in Hn. by injection Hn.
Qed.

Lemma scan_next q acc :
  scan_ok h Ls (Some q) acc ->
  exists nx, Iter_next p h (mkIter (Some q)) = Done (mkIter nx, Some q) /\ scan_ok h Ls nx (acc ++ [q]).
Proof using Hl.
  intros [Hin Hs]. assert (Hq : q ∈ Ls 0%nat).
  { rewrite Forall_forall in Hin. apply Hin, elem_of_app. right. by left. }
  destruct (next_base q Hq) as (A & B & nx & E & EL & Hh). exists nx. unfold Iter_next. cbn [item]. rewrite E.
  split; [done|]. cbn [cur_list from_option] in Hin, Hs.
  assert (Hnx : forall c, nx = Some c -> c ∈ Ls 0%nat /\ key_lt h q c).
  { intros c ->. apply head_Some_elem_of in Hh. pose proof (lo_sorted _ _ _ Hl 0%nat) as Hso. rewrite EL in Hso |- *.
    split; [apply elem_of_app; by right|]. apply sorted_app_key in Hso as (_ & _ & Hso). apply Hso; [|done].
    apply elem_of_app. right. by left. }
  assert (Hall : Forall (fun x => x ∈ Ls 0%nat) ((acc ++ [q]) ++ cur_list nx)).
  { apply Forall_app. split; [done|]. destruct nx as [c|]; [|constructor]. repeat constructor. by apply Hnx. }
  split; [done|]. apply sorted_snoc_next; [|done|intros c Hc; by apply Hnx].
  rewrite <- app_assoc in Hall. eapply Forall_impl; [exact Hall|]. intros x Hx. by apply (lo_valid st s Ls 0).
Qed.

Lemma thread_step_ok coin th :
  thread_ok h s Ls th ->
  exists st' s' th' Ls', thread_step p coin st s th = Done (st', s', th') /\ step_ok st s Ls th st' s' Ls' th' /\
    job th' = job th.
Proof using Hl.
  intros H. destruct th as [k v pc| |[[q|]] acc|acc|k pc t|k t]; cbn [thread_step].
  - destruct H as (Hk & Hlk & Hlv & Hpc).
    destruct (insert_step_ok p Hl Hk Hlk Hlv coin pc Hpc) as (st' & s' & pc' & Ls' & -> & Hs).
    cbn [mbind outcome_bind]. by exists st', s', (Inserter k v pc'), Ls'.
  - destruct scan_first as (nx & -> & Hh). cbn [mbind outcome_bind]. eexists st, s, _, Ls. split; [done|]. split; [|done].
    apply step_pure; [done|by apply (counters_refl (Ls := Ls) Hl)| |done|done]. split; cbn.
    + destruct nx; constructor; [by apply head_Some_elem_of|constructor].
    + destruct nx; repeat constructor.
  - destruct (scan_next q acc H) as (nx & -> & Hs). cbn [mbind outcome_bind]. eexists st, s, _, Ls. split; [done|].
    split; [|done]. by apply step_pure; [|apply (counters_refl (Ls := Ls) Hl)| | |].
  - cbn [Iter_next item mbind outcome_bind]. eexists st, s, _, Ls. split; [done|]. split; [|done].
    by apply step_pure; [|apply (counters_refl (Ls := Ls) Hl)| | |].
  - eexists st, s, _, Ls. split; [done|]. split; [|done]. by apply step_pure; [|apply (counters_refl (Ls := Ls) Hl)| | |].
  - destruct H as (Hk & Hc & Hpc). destruct (search_step_ok Hl p k pc t Hk Hc Hpc) as (r & -> & Hr).
    cbn [mbind outcome_bind]. destruct r as [[pc' t']|t']; cbn in Hr; (eexists st, s, _, Ls; split; [done|]; split; [|done]);
      (apply step_pure; [done|by apply (counters_refl (Ls := Ls) Hl)| |done|done]).
    + by destruct Hr as (? & ? & _).
    + by destruct Hr as [-> _].
  - eexists st, s, _, Ls. split; [done|]. split; [|done]. by apply step_pure; [|apply (counters_refl (Ls := Ls) Hl)| | |].
Qed.
End ThreadStep.

(** ** Runs *)

Record run_ok (L0 : list arena_ptr) h0 (ths : gmap nat thread) (x : ist) Ls : Prop := {
  ro_lists : lists_ok (is_store x) (is_list x) Ls;
  ro_threads : map_Forall (fun _ => thread_ok (st_nodes (is_store x)) (is_list x) Ls) (is_threads x);
  ro_owners : forall t1 t2 th1 th2 n, is_threads x !! t1 = Some th1 -> is_threads x !! t2 = Some th2 ->
    own_node th1 = Some n -> own_node th2 = Some n -> t1 = t2;
  ro_new : forall q l, q ∈ Ls 0%nat -> (l < height_of (st_nodes (is_store x)) q)%nat -> q ∉ Ls l ->
    exists t th, is_threads x !! t = Some th /\ own_node th = Some q;
  ro_jobs : job <$> is_threads x = job <$> ths;
  ro_entry : forall q, q ∈ Ls 0%nat -> q ∈ L0 \/ exists t th,
    is_threads x !! t = Some th /\ job th = Some (key_of (st_nodes (is_store x)) q, value_of (st_nodes (is_store x)) q);
  ro_init : forall q, q ∈ L0 -> q ∈ Ls 0%nat /\ key_of (st_nodes (is_store x)) q = key_of h0 q /\
    value_of (st_nodes (is_store x)) q = value_of h0 q
}.

Lemma thread_own_some h s Ls th n : thread_ok h s Ls th -> own_node th = Some n -> is_Some (h !! n).
Proof.
  destruct th as [k v pc| | | | |]; try done. intros (_ & _ & _ & Hpc).
  assert (H : forall height lev, own_ok h s Ls n height lev -> is_Some (h !! n)).
  { intros height lev (_ & Hh & Hlt & _). apply (height_some h n height Hh). lia. }
  destruct pc as [[|m height|m height lev] pc t|t|t|t x|t height|t height m|t height|t m height|t m height|t m height lev|t m height lev|q|];
    cbn; try done; intros [= ->].
  - destruct Hpc as (_ & _ & Ho & _). by apply (H height 0%nat).
  - destruct Hpc as (_ & _ & _ & Ho & _). by apply (H height lev).
  - destruct Hpc as (_ & Ho & _). by apply (H height 0%nat).
  - destruct Hpc as (_ & Ho & _). by apply (H height 0%nat).
  - destruct Hpc as (_ & Ho & _). by apply (H height lev).
  - destruct Hpc as (_ & Ho & _). by apply (H height lev).
Qed.

Lemma istep_ok p t coin L0 h0 ths x Ls :
  run_ok L0 h0 ths x Ls ->
  exists x' Ls', istep p t coin x = Done x' /\ run_ok L0 h0 ths x' Ls' /\
    (exists o, evolves o (st_nodes (is_store x)) (st_nodes (is_store x')) (is_list x) (is_list x') Ls Ls') /\
    (forall t', t' <> t -> is_threads x' !! t' = is_threads x !! t') /\
    match is_threads x !! t with
    | Some th => exists th', is_threads x' = <[t := th']> (is_threads x) /\
        thread_step p coin (is_store x) (is_list x) th = Done (is_store x', is_list x', th') /\
        step_ok (is_store x) (is_list x) Ls th (is_store x') (is_list x') Ls' th'
    | None => x' = x
    end.
Proof.
  intros [Hl Ht Ho Hn Hj He Hi]. unfold istep. destruct (is_threads x !! t) as [th|] eqn:Et.
  2: { exists x, Ls. split; [done|]. split; [by constructor|]. split; [|done]. exists None. by apply evolves_refl. }
  destruct (thread_step_ok p Hl coin th (Ht t th Et)) as (st' & s' & th' & Ls' & Est & Hso & Hjob). rewrite Est.
  pose proof Hso as [Hl' Hth' Hev Hown Hnew Hent _].
  cbn [mbind outcome_bind]. eexists _, Ls'. split; [done|].
  assert (Hne : forall t2 th2 n, t2 <> t -> is_threads x !! t2 = Some th2 -> own_node th2 = Some n -> own_node th <> Some n).
  { intros t2 th2 n Hne E2 O2 O1. apply Hne. by apply (Ho t2 t th2 th n). }
  assert (Hne' : forall t2 th2 n, t2 <> t -> is_threads x !! t2 = Some th2 -> own_node th2 = Some n -> own_node th' <> Some n).
  { intros t2 th2 n H2 E2 O2 O1. destruct (Hown n O1) as [O|Hnone]; [by apply (Hne t2 th2 n)|].
    destruct (thread_own_some _ _ _ _ n (Ht t2 th2 E2) O2) as [y Hy]. congruence. }
  split; [|split; [by exists (own_node th)|split; [intros t' Hne2; cbn; by apply lookup_insert_ne, not_eq_sym|by exists th']]].
  constructor; cbn [is_store is_list is_threads]; [done|..].
  - intros t2 th2 E2. destruct (decide (t2 = t)) as [->|H2].
    + rewrite lookup_insert_eq in E2. by injection E2 as <-.
    + rewrite lookup_insert_ne in E2 by done. apply (stable_thread Hl Hev); [|by apply (Ht t2)].
      intros n O2. by apply (Hne t2 th2 n).
  - intros t1 t2 th1 th2 n E1 E2 O1 O2. destruct (decide (t1 = t)) as [->|H1], (decide (t2 = t)) as [->|H2]; [done| | |].
    + rewrite lookup_insert_eq in E1. rewrite lookup_insert_ne in E2 by done. injection E1 as <-.
      by destruct (Hne' t2 th2 n H2 E2 O2).
    + rewrite lookup_insert_eq in E2. rewrite lookup_insert_ne in E1 by done. injection E2 as <-.
      by destruct (Hne' t1 th1 n H1 E1 O1).
    + rewrite lookup_insert_ne in E1, E2 by done. by apply (Ho t1 t2 th1 th2 n).
  - intros q l Hq Hlt Hnq. destruct (Hnew q l Hq Hlt Hnq) as [O|(Hq0 & Hnq0 & Hoq)].
    + exists t, th'. by rewrite lookup_insert_eq.
    + rewrite (shape_height _ _ _ (stable_shape Hl Hev q 0 Hq0)) in Hlt.
      destruct (Hn q l Hq0 Hlt Hnq0) as (t2 & th2 & E2 & O2). exists t2, th2. split; [|done].
      rewrite lookup_insert_ne; [done|]. intros <-. congruence.
  - rewrite fmap_insert, Hjob, <- Hj. apply insert_id. by rewrite lookup_fmap, Et.
  - intros q Hq. destruct (Hent q Hq) as [Hq0|(k & v & pc & -> & <- & <-)].
    + destruct (He q Hq0) as [?|(t2 & th2 & E2 & J2)]; [by left|right].
      pose proof (stable_shape Hl Hev q 0 Hq0) as Hs. rewrite (shape_key _ _ _ Hs), (shape_value _ _ _ Hs).
      destruct (decide (t2 = t)) as [->|H2].
      * exists t, th'. rewrite lookup_insert_eq. split; [done|]. rewrite Hjob. congruence.
      * exists t2, th2. by rewrite lookup_insert_ne.
    + right. exists t, (Inserter (key_of (st_nodes st') q) (value_of (st_nodes st') q) pc). by rewrite lookup_insert_eq.
  - intros q Hq. destruct (Hi q Hq) as (Hq0 & Hk & Hv). pose proof (stable_shape Hl Hev q 0 Hq0) as Hs.
    split; [by apply (ev_mono _ _ _ _ _ _ _ Hev)|]. by rewrite (shape_key _ _ _ Hs), (shape_value _ _ _ Hs).
Qed.

Lemma irun_ok p L0 h0 ths sched : forall x Ls,
  run_ok L0 h0 ths x Ls -> exists x' Ls', irun p sched x = Done x' /\ run_ok L0 h0 ths x' Ls'.
Proof.
  induction sched as [|[t coin] sched IH]; intros x Ls H; [by exists x, Ls|]. cbn [irun].
  destruct (istep_ok p t coin L0 h0 ths x Ls H) as (x1 & Ls1 & -> & H1 & _). cbn [mbind outcome_bind]. by apply (IH x1 Ls1).
Qed.

(** ** Threads that start, and that have finished *)

Definition entry_ok (kv : bytes * bytes) : Prop := valid kv.1 /\ in_width 16 (len kv.1) /\ in_width 32 (len kv.2).

Definition starts (s : SkipList) (th : thread) : Prop :=
  match th with
  | Inserter k v pc => entry_ok (k, v) /\ pc = first_pc s
  | ScanStart => True
  | Reader k pc t => valid k /\ pc = SMax /\ t = ctx_init s
  | _ => False
  end.

Definition finished (th : thread) : Prop :=
  match th with Inserter _ _ (IDone _) | Inserter _ _ IPanicked | ScanDone _ | ReadDone _ _ => True | _ => False end.

Lemma sl_inv_lists st s L :
  sl_inv st s L -> lists_ok st s (fun l => lvl (st_nodes st) l L).
Proof.
  intros [H1 H2 H3 H4 H5 H6 H7]. pose proof (lvl_0 _ _ H3) as E0. constructor; rewrite ?E0; try done.
  - intros l. by apply StronglySorted_filter_lt.
  - intros l q. apply lvl_down.
  - intros l q Hq. apply list_elem_of_filter in Hq as [Hq _]. exact Hq.
Qed.

Lemma start_run_ok st s L ths :
  sl_inv st s L -> map_Forall (fun _ => starts s) ths ->
  run_ok L (st_nodes st) ths (mkIst st s ths) (fun l => lvl (st_nodes st) l L).
Proof.
  intros H Hs. pose proof (sl_inv_lists st s L H) as Hl. pose proof (lvl_0 _ _ (si_nodes _ _ _ H)) as E0.
  assert (Hown : forall t th, ths !! t = Some th -> own_node th = None).
  { intros t th Et. specialize (Hs t th Et). destruct th as [k v pc| | | | |]; try done. by destruct Hs as [_ ->]. }
  constructor; cbn [is_store is_list is_threads]; rewrite ?E0; try done.
  - intros t th Et. specialize (Hs t th Et). destruct th as [k v pc| |it acc|acc|k pc t0|k t0]; try done.
    2: { destruct Hs as (Hk & -> & ->). split; [done|]. split; [by apply ctx_init_good|done]. }
    destruct Hs as [(Hk & Hlk & Hlv) ->]. do 3 (split; [done|]). split; [by apply ctx_init_good|done].
  - intros t1 t2 th1 th2 n E1 _ O1. rewrite (Hown t1 th1 E1) in O1. done.
  - intros q l Hq Hlt Hnq. destruct Hnq. by apply list_elem_of_filter.
  - intros q Hq. by left.
Qed.

(** Two sorted levels with the same nodes are the same. *)

Lemma sorted_same h : forall L L',
  Forall (fun q => valid (key_of h q)) L -> StronglySorted (key_lt h) L -> StronglySorted (key_lt h) L' ->
  (forall q, q ∈ L <-> q ∈ L') -> L = L'.
Proof.
  assert (Hirr : forall a b, valid (key_of h a) -> valid (key_of h b) -> key_lt h a b -> key_lt h b a -> False).
  { unfold key_lt. intros a b Ha Hb H1 H2. rewrite (key_cmp_antisym (key_of h a)) in H2 by done. by rewrite H1 in H2. }
  induction L as [|x L IH]; intros [|y L'] Hv Hs Hs' Hin; [done| | |].
  - exfalso. apply (not_elem_of_nil y), Hin. by left.
  - exfalso. apply (not_elem_of_nil x), Hin. by left.
  - apply Forall_cons in Hv as [Hvx Hv]. apply StronglySorted_inv in Hs as [Hs Hx], Hs' as [Hs' Hy].
    rewrite Forall_forall in Hv, Hx, Hy. assert (Hxy : x = y).
    { destruct (proj1 (elem_of_cons L' x y) (proj1 (Hin x) ltac:(by left))) as [?|Hx']; [done|].
      destruct (proj1 (elem_of_cons L y x) (proj2 (Hin y) ltac:(by left))) as [?|Hy']; [done|].
      destruct (Hirr x y Hvx (Hv y Hy') (Hx y Hy') (Hy x Hx')). }
    subst y. f_equal. apply IH; [by apply Forall_forall|done|done|]. intros q. split; intros Hq.
    + destruct (proj1 (elem_of_cons L' q x) (proj1 (Hin q) ltac:(by right))) as [->|?]; [|done].
      by destruct (Hirr x x Hvx Hvx (Hx x Hq) (Hx x Hq)).
    + destruct (proj1 (elem_of_cons L q x) (proj2 (Hin q) ltac:(by right))) as [->|?]; [|done].
      by destruct (Hirr x x Hvx Hvx (Hy x Hq) (Hy x Hq)).
Qed.

(** When all threads have finished, every node is on all its levels. *)

Lemma finished_sl_inv L0 h0 ths x Ls :
  run_ok L0 h0 ths x Ls -> map_Forall (fun _ => finished) (is_threads x) -> sl_inv (is_store x) (is_list x) (Ls 0%nat).
Proof.
  intros [Hl _ _ Hn _ _ _] Hf. pose proof Hl as [H1 H2 H3 H4 H5 H6 H7 H8 H9]. constructor; try done.
  intros l Hlt. assert (El : Ls l = lvl (st_nodes (is_store x)) l (Ls 0%nat)).
  { apply (sorted_same (st_nodes (is_store x))); [apply (lvl_valid Hl)|apply H5|by apply StronglySorted_filter_lt|].
    intros q. unfold lvl. rewrite list_elem_of_filter. split.
    - intros Hq. split; [by apply H7|by apply (lo_base _ _ _ _ _ Hl Hq)].
    - intros [Hh Hq]. destruct (decide (q ∈ Ls l)) as [|Hnq]; [done|]. exfalso.
      destruct (Hn q l Hq Hh Hnq) as (t & th & Et & O). specialize (Hf t th Et).
      by destruct th as [k v [| | | | | | | | | | | |]| | | | |]; cbn in *. }
  rewrite <- El. by apply H4.
Qed.

(** ** What a scan sees *)

(** The nodes of [L1] are behind the scan or still before it. *)

Definition covers h (L1 : list arena_ptr) (th : thread) : Prop :=
  match th with
  | Inserter _ _ _ | Reader _ _ _ | ReadDone _ _ => False
  | ScanStart => True
  | Scanning it acc => forall q, q ∈ L1 -> q ∈ acc \/ exists c, item it = Some c /\ (q = c \/ key_lt h c q)
  | ScanDone acc => forall q, q ∈ L1 -> q ∈ acc
  end.

Lemma sorted_head_le h L c q : StronglySorted (key_lt h) L -> head L = Some c -> q ∈ L -> q = c \/ key_lt h c q.
Proof.
  intros Hs Hh Hq. destruct L as [|y L]; [done|]. injection Hh as ->. apply StronglySorted_inv in Hs as [_ Hs].
  rewrite Forall_forall in Hs. apply elem_of_cons in Hq as [?|Hq]; [by left|right; by apply Hs].
Qed.

Lemma scan_step_covers p coin st s Ls L1 th :
  lists_ok st s Ls -> (forall q, q ∈ L1 -> q ∈ Ls 0%nat) -> thread_ok (st_nodes st) s Ls th -> covers (st_nodes st) L1 th ->
  exists th', thread_step p coin st s th = Done (st, s, th') /\ covers (st_nodes st) L1 th'.
Proof.
  intros Hl HL Ht Hc. destruct th as [k v pc| |[[c|]] acc|acc|k pc t|k t]; cbn [thread_step covers] in *; try done.
  - destruct (scan_first p Hl) as (nx & -> & Hh). cbn [mbind outcome_bind]. eexists. split; [done|].
    intros q Hq. right. cbn. apply HL in Hq. destruct nx as [c|].
    + exists c. split; [done|]. by apply (sorted_head_le _ (Ls 0%nat)); [apply (lo_sorted _ _ _ Hl)| |].
    + destruct (Ls 0%nat); [by apply not_elem_of_nil in Hq|done].
  - destruct Ht as [Hin _]. rewrite Forall_forall in Hin.
    destruct (next_base p Hl c) as (A & B & nx & E & EL & Hh); [apply Hin, elem_of_app; right; by left|].
    unfold Iter_next. cbn [item]. rewrite E. cbn [mbind outcome_bind]. eexists. split; [done|].
    intros q Hq. pose proof (lo_sorted _ _ _ Hl 0%nat) as Hs. pose proof (lvl_valid Hl 0) as Hv. rewrite EL in Hs, Hv.
    destruct (Hc q Hq) as [?|(c' & [= <-] & [->|Hlt])]; [left; apply elem_of_app; by left|left; apply elem_of_app; right; by left|].
    right. cbn. apply HL in Hq. rewrite EL in Hq. apply sorted_app_key in Hs as (HsA & HsB & _).
    assert (HB : q ∈ B).
    { apply elem_of_app in Hq as [Hq|]; [|done]. exfalso. apply Forall_app in Hv as [Hv _]. rewrite Forall_forall in Hv.
      assert (Hvq : valid (key_of (st_nodes st) q)) by by apply Hv.
      assert (Hvc : valid (key_of (st_nodes st) c)) by (apply Hv, elem_of_app; right; by left).
      unfold key_lt in Hlt. apply elem_of_app in Hq as [Hq| ->%list_elem_of_singleton].
      - apply sorted_app_key in HsA as (_ & _ & HsA). specialize (HsA q c Hq ltac:(by left)). unfold key_lt in HsA.
        rewrite (key_cmp_antisym (key_of (st_nodes st) q)) in Hlt by done. by rewrite HsA in Hlt.
      - by rewrite (proj2 (key_cmp_eq (key_of (st_nodes st) c) (key_of (st_nodes st) c) Hvc Hvc) eq_refl) in Hlt. }
    destruct nx as [c'|]; [|destruct B; [by apply not_elem_of_nil in HB|done]].
    exists c'. split; [done|]. by apply (sorted_head_le _ B).
  - cbn. eexists. split; [done|]. intros q Hq. by destruct (Hc q Hq) as [?|(c & ? & _)].
  - by eexists.
Qed.

Lemma covers_evolves o st st' s s' Ls Ls' L1 th :
  lists_ok st s Ls -> evolves o (st_nodes st) (st_nodes st') s s' Ls Ls' -> (forall q, q ∈ L1 -> q ∈ Ls 0%nat) ->
  thread_ok (st_nodes st) s Ls th -> covers (st_nodes st) L1 th -> covers (st_nodes st') L1 th.
Proof.
  intros Hl Hev HL Ht Hc. destruct th as [k v pc| |[[c|]] acc|acc|k pc t|k t]; cbn in *; try done.
  2: { intros q Hq. by destruct (Hc q Hq) as [?|(c & ? & _)]; [left|]. }
  intros q Hq. destruct (Hc q Hq) as [?|(c' & [= <-] & Hlt)]; [by left|right]. exists c. split; [done|].
  destruct Ht as [Hin _]. rewrite Forall_forall in Hin.
  assert (Hc0 : c ∈ Ls 0%nat) by (apply Hin, elem_of_app; right; by left).
  unfold key_lt in *. by rewrite (stable_key Hl Hev c 0), (stable_key Hl Hev q 0) by auto.
Qed.

Lemma scan_run p t L1 L0 h0 ths sched : forall x Ls th x',
  run_ok L0 h0 ths x Ls -> (forall q, q ∈ L1 -> q ∈ Ls 0%nat) -> is_threads x !! t = Some th ->
  covers (st_nodes (is_store x)) L1 th -> irun p sched x = Done x' ->
  exists Ls' th', run_ok L0 h0 ths x' Ls' /\ is_threads x' !! t = Some th' /\ covers (st_nodes (is_store x')) L1 th'.
Proof.
  induction sched as [|[t1 coin] sched IH]; intros x Ls th x' H HL Et Hc; cbn [irun].
  - intros [= <-]. by exists Ls, th.
  - destruct (istep_ok p t1 coin L0 h0 ths x Ls H) as (x1 & Ls1 & E1 & H1 & [o Hev] & Hoth & _). rewrite E1.
    cbn [mbind outcome_bind]. pose proof (ro_lists _ _ _ _ _ H) as Hl. pose proof (ro_threads _ _ _ _ _ H t th Et) as Ht.
    assert (HL1 : forall q, q ∈ L1 -> q ∈ Ls1 0%nat) by (intros q Hq; by apply (ev_mono _ _ _ _ _ _ _ Hev), HL).
    destruct (decide (t = t1)) as [->|Hne].
    + destruct (scan_step_covers p coin _ _ Ls L1 th Hl HL Ht Hc) as (th' & Es & Hc').
      unfold istep in E1. rewrite Et, Es in E1. cbn [mbind outcome_bind] in E1. injection E1 as <-.
      apply (IH _ Ls1 th'); [done|done|cbn; apply lookup_insert_eq|done].
    + apply (IH x1 Ls1 th); [done|done|by rewrite Hoth|]. by apply (covers_evolves o _ _ _ _ Ls Ls1 L1 th Hl Hev HL Ht Hc).
Qed.

(** ** Properties *)

(** The nodes linked at the base, in order. *)

Definition base_list (x : ist) (L : list arena_ptr) : Prop :=
  chain (st_nodes (is_store x)) 0 (sl_sentinel (is_list x)) L.

Definition key_in (x : ist) q : bytes := key_of (st_nodes (is_store x)) q.
Definition value_in (x : ist) q : bytes := value_of (st_nodes (is_store x)) q.

Lemma run_base L0 h0 ths x Ls : run_ok L0 h0 ths x Ls -> base_list x (Ls 0%nat).
Proof. intros H. apply (lo_chains _ _ _ (ro_lists _ _ _ _ _ H)). unfold MAX_HEAD_HEIGHT. lia. Qed.

(** C3: insertion is safe under every interleaving.  Any number of threads
    insert entries into (and scan) a list, following any schedule, with
    spurious failures of the weak exchange: no step panics outside the arena's
    refusal, faults or reads uninitialised memory; the base level stays
    strictly sorted, keeps every entry it had and holds beyond them only
    entries of the inserting threads, one per key; an insertion that has
    returned has returned a linked node with its key; and once all threads
    have finished the list is valid again on every level, for the sequential
    operations. *)
Theorem skiplist_threads_safe p st s L0 ths sched :
  sl_inv st s L0 -> map_Forall (fun _ => starts s) ths ->
  exists x L, irun p sched (mkIst st s ths) = Done x /\ base_list x L /\
    StronglySorted (fun a b => key_cmp (key_in x a) (key_in x b) = Lt) L /\
    (forall q, q ∈ L0 -> q ∈ L /\ key_in x q = key_of (st_nodes st) q /\ value_in x q = value_of (st_nodes st) q) /\
    (forall q, q ∈ L -> q ∈ L0 \/ exists t th, ths !! t = Some th /\ job th = Some (key_in x q, value_in x q)) /\
    (forall t k v q, is_threads x !! t = Some (Inserter k v (IDone q)) -> q ∈ L /\ key_in x q = k) /\
    (map_Forall (fun _ => finished) (is_threads x) -> sl_inv (is_store x) (is_list x) L).
Proof.
  intros H Hs. destruct (irun_ok p L0 (st_nodes st) ths sched _ _ (start_run_ok st s L0 ths H Hs)) as (x & Ls & E & Hr).
  exists x, (Ls 0%nat). split; [done|]. split; [by apply (run_base _ _ _ _ _ Hr)|]. split; [apply (lo_sorted _ _ _ (ro_lists _ _ _ _ _ Hr))|].
  split; [by apply (ro_init _ _ _ _ _ Hr)|]. split.
  - intros q Hq. destruct (ro_entry _ _ _ _ _ Hr q Hq) as [?|(t & th & Et & J)]; [by left|right].
    pose proof (f_equal (fun m => m !! t) (ro_jobs _ _ _ _ _ Hr)) as Hj. cbv beta in Hj. rewrite !lookup_fmap, Et in Hj.
    destruct (ths !! t) as [th0|] eqn:E0; [|done]. injection Hj as Hj. exists t, th0. by rewrite <- Hj.
  - split; [|by apply (finished_sl_inv L0 (st_nodes st) ths)]. intros t k v q Et. by destruct (ro_threads _ _ _ _ _ Hr t _ Et) as (_ & _ & _ & ?).
Qed.

(** C8: a scan that runs concurrently with insertions yields strictly
    ascending keys, every entry that was in the list when it started, and only
    entries that are in the list when it ends. *)
Theorem skiplist_scan_threads p st s L0 ths t sched1 sched2 x1 x2 acc L1 L2 :
  sl_inv st s L0 -> map_Forall (fun _ => starts s) ths ->
  irun p sched1 (mkIst st s ths) = Done x1 -> base_list x1 L1 -> is_threads x1 !! t = Some ScanStart ->
  irun p sched2 x1 = Done x2 -> base_list x2 L2 -> is_threads x2 !! t = Some (ScanDone acc) ->
  StronglySorted (fun a b => key_cmp (key_in x2 a) (key_in x2 b) = Lt) acc /\
  (forall q, q ∈ L1 -> q ∈ acc) /\ (forall q, q ∈ acc -> q ∈ L2).
Proof.
  intros H Hs E1 HL1 Et1 E2 HL2 Et2.
  destruct (irun_ok p L0 (st_nodes st) ths sched1 _ _ (start_run_ok st s L0 ths H Hs)) as (x & Ls & E & Hr).
  rewrite E1 in E. injection E as <-.
  pose proof (chain_unique _ _ _ _ _ HL1 (run_base _ _ _ _ _ Hr)) as ->.
  destruct (scan_run p t (Ls 0%nat) L0 (st_nodes st) ths sched2 x1 Ls ScanStart x2 Hr ltac:(done) Et1 I E2)
    as (Ls2 & th2 & Hr2 & Et & Hc).
  rewrite Et2 in Et. injection Et as <-. pose proof (chain_unique _ _ _ _ _ HL2 (run_base _ _ _ _ _ Hr2)) as ->.
  destruct (ro_threads _ _ _ _ _ Hr2 t _ Et2) as [Hin Hso]. cbn in Hin, Hso. rewrite app_nil_r in Hin, Hso.
  split; [exact Hso|]. split; [exact Hc|]. by apply Forall_forall.
Qed.
End Spec.

(** ** Witnesses *)

Definition demo_thread (k v : Z) : thread := Inserter [k] [v] (first_pc (demo_s demo_kvs)).

(** Two threads insert the same absent key and a third scans. *)

Definition demo_threads : gmap nat thread :=
  <[1%nat := demo_thread 4 41]> (<[2%nat := demo_thread 4 42]> {[3%nat := ScanStart]}).

(** Rounds in which each thread makes a step. *)

Definition rounds (n : nat) : list (nat * bool) :=
  mjoin (replicate n [(1%nat, true); (2%nat, true)]).

Definition scan_rounds (n : nat) : list (nat * bool) := replicate n (3%nat, true).

Lemma demo_starts : map_Forall (fun _ => starts (valid := fun _ => True) (demo_s demo_kvs)) demo_threads.
Proof.
  assert (H : forall k v, starts (valid := fun _ => True) (demo_s demo_kvs) (demo_thread k v)).
  { intros k v. split; [|done]. split; [done|]. split; vm_compute; split; congruence. }
  apply map_Forall_insert_2; [apply H|]. apply map_Forall_insert_2; [apply H|]. by apply map_Forall_singleton.
Qed.

Definition demo_start : ist := mkIst (demo_st demo_kvs) (demo_s demo_kvs) demo_threads.

Definition demo_run (sched : list (nat * bool)) (x : ist) : ist :=
  match irun (C := DefaultComparator) Debug sched x with Done x => x | _ => x end.

Lemma skiplist_threads_safe_witness :
  exists L0, sl_inv (CO := DefaultComparatorOk) (demo_st demo_kvs) (demo_s demo_kvs) L0 /\
  exists x L, irun (C := DefaultComparator) Debug (rounds 60 ++ scan_rounds 8) demo_start = Done x /\ base_list x L /\
    StronglySorted (fun a b => key_cmp (ComparatorOk := DefaultComparatorOk) (key_in x a) (key_in x b) = Lt) L /\
    (forall q, q ∈ L0 -> q ∈ L /\ key_in x q = key_of (st_nodes (demo_st demo_kvs)) q /\
       value_in x q = value_of (st_nodes (demo_st demo_kvs)) q) /\
    (forall q, q ∈ L -> q ∈ L0 \/ exists t th, demo_threads !! t = Some th /\ job th = Some (key_in x q, value_in x q)) /\
    (forall t k v q, is_threads x !! t = Some (Inserter k v (IDone q)) -> q ∈ L /\ key_in x q = k) /\
    (map_Forall (fun _ => finished) (is_threads x) -> sl_inv (CO := DefaultComparatorOk) (is_store x) (is_list x) L).
Proof.
  destruct demo_repr as (L0 & H & _). exists L0. split; [exact H|].
  exact (skiplist_threads_safe (CO := DefaultComparatorOk) Debug _ _ L0 demo_threads (rounds 60 ++ scan_rounds 8) H demo_starts).
Defined.

(** The scan starts before the insertions and ends after them. *)

Lemma skiplist_scan_threads_witness :
  let x1 := demo_run (rounds 5) demo_start in
  let x2 := demo_run (scan_rounds 2 ++ rounds 60 ++ scan_rounds 8) x1 in
  exists L1 L2 acc, base_list x1 L1 /\ base_list x2 L2 /\ is_threads x2 !! 3%nat = Some (ScanDone acc) /\
    length L1 = 3%nat /\ length L2 = 4%nat /\
    StronglySorted (fun a b => key_cmp (ComparatorOk := DefaultComparatorOk) (key_in x2 a) (key_in x2 b) = Lt) acc /\
    (forall q, q ∈ L1 -> q ∈ acc) /\ (forall q, q ∈ acc -> q ∈ L2).
Proof.
  intros x1 x2. destruct demo_repr as (L0 & H & _).
  exists [(0%nat, 96); (0%nat, 72); (0%nat, 120)], [(0%nat, 96); (0%nat, 72); (0%nat, 120); (0%nat, 160)],
    [(0%nat, 96); (0%nat, 72); (0%nat, 120); (0%nat, 160)].
  assert (H1 : base_list x1 [(0%nat, 96); (0%nat, 72); (0%nat, 120)]) by (vm_compute; repeat split; reflexivity).
  assert (H2 : base_list x2 [(0%nat, 96); (0%nat, 72); (0%nat, 120); (0%nat, 160)]) by (vm_compute; repeat split; reflexivity).
  assert (H3 : is_threads x2 !! 3%nat = Some (ScanDone [(0%nat, 96); (0%nat, 72); (0%nat, 120); (0%nat, 160)]))
    by (vm_compute; reflexivity).
  split; [exact H1|]. split; [exact H2|]. split; [exact H3|]. split; [reflexivity|]. split; [reflexivity|].
  apply (skiplist_scan_threads (CO := DefaultComparatorOk) Debug _ _ L0 demo_threads 3 (rounds 5)
    (scan_rounds 2 ++ rounds 60 ++ scan_rounds 8) x1 x2 _ _ _ H demo_starts); [vm_compute; reflexivity|exact H1|
    vm_compute; reflexivity|vm_compute; reflexivity|exact H2|exact H3].
Defined.
