(* ===== verification/SkipListProgress.v ===== *)
(** * SkipListProgress: insertions and scans end

    Every thread of a [SkipListThreads] run finishes within a number of its own
    steps that depends only on the number of nodes and of threads, whatever the
    schedule does with the other threads.  A thread repeats work only because
    another one has linked a node or raised the list, and there are finitely
    many such events: the proof counts those that remain, and between two of
    them gives every thread a cost that its steps decrease. *)

From Stdlib Require Import Sorted.
From S2P Require Import Prelude Key Arena SkipList SkipListSpec SkipListThreads.
Local Open Scope Z_scope.

(** ** Counting *)

Lemma filter_length_lt {A} (P Q : A -> Prop) `{!forall x, Decision (P x)} `{!forall x, Decision (Q x)} (l : list A) x :
  (forall y, y ∈ l -> P y -> Q y) -> x ∈ l -> Q x -> ~ P x -> (length (filter P l) < length (filter Q l))%nat.
Proof.
  intros Himp Hx HQ HP. apply list_elem_of_split in Hx as (l1 & l2 & ->).
  assert (Hle : forall l', (forall y, y ∈ l' -> P y -> Q y) -> (length (filter P l') <= length (filter Q l'))%nat).
  { induction l' as [|y l' IH]; [done|]. intros Hl. rewrite !filter_cons. pose proof (Hl y ltac:(by left)) as Hy.
    specialize (IH (fun z Hz => Hl z ltac:(by right))).
    destruct (decide (P y)), (decide (Q y)); cbn; try lia. tauto. }
  rewrite !filter_app, !length_app, !filter_cons. rewrite decide_False, decide_True by done. cbn.
  pose proof (Hle l1 ltac:(intros; apply Himp; [apply elem_of_app; by left|done])).
  pose proof (Hle l2 ltac:(intros; apply Himp; [apply elem_of_app; right; by right|done])). lia.
Qed.

Section Progress.
Context {C : Comparator} {valid : bytes -> Prop} {CO : ComparatorOk C valid}.

Implicit Types (h : nodes) (L : list arena_ptr) (Ls : nat -> list arena_ptr) (q n : arena_ptr) (k v : bytes).

#[local] Abbreviation starts := (SkipListThreads.starts (valid := valid)).

#[local] Instance key_lt_dec h a b : Decision (key_lt h a b).
Proof. unfold key_lt. apply _. Defined.

(** ** The nodes before a walk *)

Definition beyond h L q : nat := length (filter (fun x => key_lt h q x) L).

Definition rest h L (cur : option arena_ptr) : nat := match cur with None => 0 | Some q => S (beyond h L q) end.

Lemma rest_le h L cur : (rest h L cur <= S (length L))%nat.
Proof. destruct cur as [q|]; cbn; [|lia]. unfold beyond. pose proof (length_filter (fun x => key_lt h q x) L). lia. Qed.

Lemma rest_next st s Ls l q nx :
  lists_ok st s Ls -> (l < MAX_HEAD_HEIGHT)%nat -> q ∈ Ls l -> nxt (st_nodes st) q l = Some nx ->
  (rest (st_nodes st) (Ls l) nx < rest (st_nodes st) (Ls l) (Some q))%nat.
Proof.
  intros Hl Hlt Hq Hn. destruct nx as [c|]; cbn; [|lia].
  destruct (chain_split _ l (sl_sentinel s) (Ls l) q (Some c) (lo_chains _ _ _ Hl l Hlt) ltac:(by right) Hn) as (A & B & E & Hla & Hb).
  pose proof (lo_sorted _ _ _ Hl l) as Hs. pose proof (lvl_valid Hl l) as Hv. rewrite Forall_forall in Hv.
  assert (Hc : c ∈ Ls l) by (rewrite E; apply elem_of_app; right; by apply head_Some_elem_of).
  assert (Hqc : key_lt (st_nodes st) q c).
  { rewrite E in Hs. apply sorted_app_key in Hs as (_ & _ & Hs). apply Hs; [|by apply head_Some_elem_of].
    destruct (last_or_in (sl_sentinel s) A) as [E1|Hin]; [|by rewrite Hla in Hin].
    rewrite E1 in Hla. subst q. by destruct (sentinel_out Hl l). }
  unfold beyond. apply le_n_S. apply (filter_length_lt _ _ _ c); [|done|done|].
  - intros y Hy Hcy. unfold key_lt in *. apply (key_cmp_trans _ (key_of (st_nodes st) c)); [by apply Hv..|done|done].
  - unfold key_lt. rewrite (proj2 (key_cmp_eq (key_of (st_nodes st) c) (key_of (st_nodes st) c) (Hv c Hc) (Hv c Hc))); [done|done].
Qed.

(** ** The cost of a search

    [M] bounds the number of nodes of a level.  The last clause of each state
    leaves room for what the next one may cost. *)

Definition search_bound (M : nat) : nat := MAX_HEAD_HEIGHT * (M + 3) + MAX_HEAD_HEIGHT + 2.

Definition search_cost (M : nat) h Ls (pc : spc) : nat :=
  match pc with
  | SMax => search_bound M
  | SSkip level => MAX_HEAD_HEIGHT * (M + 3) + 1 + level
  | SDown level _ => level * (M + 3)
  | SWalk l _ cur => l * (M + 3) + 1 + rest h (Ls l) cur
  end.

(** Whether what a traversal has for a level is what memory holds: then the
    exchange there succeeds.  During a search, whether it will be so if nothing
    changes. *)

Definition current h (t : TraversalCtx) (lev : nat) : bool :=
  match predecessors t !! lev, successors t !! lev with
  | Some (Some pr), Some sc => bool_decide (nxt h pr lev = Some sc)
  | _, _ => false
  end.

Definition pristine (s : SkipList) (t : TraversalCtx) (lev : nat) : bool :=
  bool_decide (predecessors t !! lev = Some (Some (sl_sentinel s)) /\ successors t !! lev = Some None).

Definition fresh h (s : SkipList) (pc : spc) (t : TraversalCtx) (lev : nat) : bool :=
  match pc with
  | SMax => pristine s t lev
  | SSkip level => if decide (level <= lev)%nat then current h t lev else pristine s t lev
  | SDown level _ => if decide (level <= lev)%nat then current h t lev else true
  | SWalk l pr cur =>
      if decide (l = lev) then bool_decide (nxt h pr lev = Some cur)
      else if decide (l < lev)%nat then current h t lev else true
  end.

Lemma current_record h t found l pr cur lev :
  (l < length (predecessors t))%nat -> (l < length (successors t))%nat -> nxt h pr l = Some cur \/ l <> lev ->
  (l <> lev -> current h t lev = true) -> current h (record t found l pr cur) lev = true.
Proof.
  intros Hp Hs Hn Hc. unfold current, record. cbn [predecessors successors]. destruct (decide (l = lev)) as [<-|Hne].
  - rewrite !list_lookup_insert_eq by done. apply bool_decide_true. by destruct Hn.
  - rewrite !list_lookup_insert_ne by done. by apply Hc.
Qed.

Lemma ctx_length h s Ls k t l : (l < MAX_HEAD_HEIGHT)%nat -> ctx_good h s Ls k t ->
  (l < length (predecessors t))%nat /\ (l < length (successors t))%nat.
Proof.
  intros Hl [H _]. destruct (H l Hl) as (pr & sc & Hp & Hs & _). split; by eapply lookup_lt_Some.
Qed.

Section Search.
Context {st : SlStore} {s : SkipList} {Ls : nat -> list arena_ptr} (Hl : lists_ok st s Ls).
Context (M : nat) (HM : forall l, (length (Ls l) <= M)%nat).
#[local] Abbreviation h := (st_nodes st).

Definition cheaper (pc : spc) (t : TraversalCtx) (r : spc * TraversalCtx + TraversalCtx) : Prop :=
  match r with
  | inl (pc', t') => (search_cost M h Ls pc' < search_cost M h Ls pc)%nat /\
      forall lev, (lev < sl_max_level s)%nat -> fresh h s pc t lev = true -> fresh h s pc' t' lev = true
  | inr t' => t' = t /\ forall lev, fresh h s pc t lev = true -> current h t lev = true
  end.

Lemma load_nxt p l pr sc : (l < MAX_HEAD_HEIGHT)%nat -> pr = sl_sentinel s \/ pr ∈ Ls l ->
  Node_load_next p h pr l = Done sc -> nxt h pr l = Some sc.
Proof using Hl.
  intros Hlt Hp E. destruct (load_linked Hl p l pr Hlt Hp) as (sc' & E' & Hn & _). rewrite E in E'. by injection E' as ->.
Qed.

Lemma skip_cheaper t l next : (S l <= MAX_HEAD_HEIGHT)%nat -> nxt h (sl_sentinel s) l = Some next ->
  cheaper (SSkip (S l)) t (inl (match next with None => SSkip l | Some _ => SDown (S l) (sl_sentinel s) end, t)).
Proof using.
  intros Hlt Hn. split.
  - pose proof (Nat.mul_le_mono_r (S l) MAX_HEAD_HEIGHT (M + 3) Hlt). destruct next; unfold search_cost; lia.
  - intros lev _. destruct next as [c|]; cbn.
    + destruct (decide (S l <= lev)%nat); done.
    + destruct (decide (S l <= lev)%nat), (decide (l <= lev)%nat); try (done || lia).
      intros [Hp Hs]%bool_decide_eq_true. assert (lev = l) as -> by lia. unfold current. rewrite Hp, Hs. by apply bool_decide_true.
Qed.

Lemma walk_cheaper t l pr next pc : (search_cost M h Ls (SWalk l pr next) < search_cost M h Ls pc)%nat ->
  nxt h pr l = Some next -> (forall lev, (l < lev)%nat -> fresh h s pc t lev = true -> current h t lev = true) ->
  cheaper pc t (inl (SWalk l pr next, t)).
Proof using.
  intros Hc Hn Hf. split; [done|]. intros lev _ Hfr. cbn. destruct (decide (l = lev)) as [<-|]; [by apply bool_decide_true|].
  destruct (decide (l < lev)%nat); [by apply Hf|done].
Qed.

Lemma record_cheaper k t found l pr cur : (l < MAX_HEAD_HEIGHT)%nat -> ctx_good h s Ls k t ->
  cheaper (SWalk l pr cur) t (inl (SDown l pr, record t found l pr cur)).
Proof using.
  intros Hlt Hc. destruct (ctx_length _ _ _ _ _ l Hlt Hc) as [Hp Hs]. split; [cbn; lia|]. intros lev _. cbn.
  destruct (decide (l = lev)) as [<-|Hne].
  - intros Hn%bool_decide_eq_true. rewrite decide_True by done. apply current_record; [done|done|by left|done].
  - destruct (decide (l < lev)%nat).
    + intros Hn. rewrite decide_True by lia. apply current_record; [done|done|by right|done].
    + intros _. by rewrite decide_False by lia.
Qed.

Lemma search_step_cheaper p k pc t r : valid k -> ctx_good h s Ls k t -> spc_ok h s Ls k pc ->
  search_step p h s k pc t = Done r -> cheaper pc t r.
Proof using Hl HM.
  intros Hk Hc Hpc E. pose proof (lo_max _ _ _ Hl) as Hmax. destruct pc as [|[|level]|[|l] pr|l pr [c|]]; cbn [search_step spc_ok] in *.
  - injection E as <-. split; [cbn; unfold search_bound; lia|]. intros lev Hlev. cbn. by rewrite decide_False by lia.
  - injection E as <-. split; [cbn; lia|]. intros lev _. cbn. done.
  - destruct (Node_load_next p h (sl_sentinel s) level) as [next| | |] eqn:El; cbn [mbind outcome_bind] in E; try done.
    injection E as <-. apply skip_cheaper; [done|]. by apply (load_nxt p); [|left|].
  - injection E as <-. split; [done|]. intros lev. cbn. done.
  - destruct Hpc as [Hlt Hp]. specialize (Hp l eq_refl).
    destruct (Node_load_next p h pr l) as [next| | |] eqn:El; cbn [mbind outcome_bind] in E; try done. injection E as <-.
    apply (load_nxt p l) in El; [|done|destruct Hp as [?|[? _]]; auto]. apply walk_cheaper; [|done|].
    + cbn. pose proof (rest_le h (Ls l) next). specialize (HM l). lia.
    + intros lev Hlev. cbn. by rewrite decide_True by lia.
  - destruct Hpc as (Hlt & Hp & Hin). specialize (Hin c eq_refl).
    destruct (Node_get_key_bytes h c) as [nk| | |]; cbn [mbind outcome_bind] in E; try done.
    destruct (compare p nk k) as [[]| | |]; cbn [mbind outcome_bind] in E; try done.
    + injection E as <-. by apply (record_cheaper k).
    + destruct (Node_load_next p h c l) as [next| | |] eqn:El; cbn [mbind outcome_bind] in E; try done. injection E as <-.
      apply (load_nxt p l) in El; [|done|by right]. apply walk_cheaper; [|done|].
      * cbn. pose proof (rest_next st s Ls l c next Hl Hlt Hin El) as Hr. cbn in Hr. lia.
      * intros lev Hlev. cbn. by rewrite decide_False, decide_True by lia.
    + injection E as <-. by apply (record_cheaper k).
  - destruct Hpc as (Hlt & _). injection E as <-. by apply (record_cheaper k).
Qed.
End Search.

(** ** The cost of a thread

    A stale traversal costs one more search. *)

Definition retry_cost (M : nat) : nat := search_bound M + 10.

Definition stale (M : nat) (b : bool) : nat := if b then 0 else retry_cost M.

Definition pc_cost (M : nat) h (s : SkipList) Ls (pc : ipc) : nat :=
  match pc with
  | ISearch GFirst pc _ => retry_cost M + 20 + search_cost M h Ls pc
  | ISearch (GBase _ _) pc t => 3 + search_cost M h Ls pc + stale M (fresh h s pc t 0)
  | ISearch (GUpper _ _ lev) pc t => 3 + search_cost M h Ls pc + stale M (fresh h s pc t lev)
  | ICount _ => retry_cost M + 15
  | ISeedLoad _ => retry_cost M + 14
  | ISeedStore _ _ => retry_cost M + 13
  | IMaxLoad _ _ => retry_cost M + 12
  | IMaxCas _ _ m => retry_cost M + 9 + (if decide (m = sl_max_level s) then 1 else 2)
  | IAlloc _ _ => retry_cost M + 8
  | IWriteKey _ _ _ => retry_cost M + 7
  | IWriteValue _ _ _ => retry_cost M + 6
  | ILink t _ _ lev => 2 + stale M (current h t lev)
  | ICas t _ _ lev => 1 + stale M (current h t lev)
  | IDone _ | IPanicked => 0
  end.

Definition cost (M : nat) h (s : SkipList) Ls (th : thread) : nat :=
  match th with
  | Inserter _ _ pc => pc_cost M h s Ls pc
  | ScanStart => M + 4
  | Scanning it _ => 2 + rest h (Ls 0%nat) (item it)
  | ScanDone _ | ReadDone _ _ => 0
  | Reader _ pc _ => 1 + search_cost M h Ls pc
  end.

(** ** What a step that links nothing leaves *)

Record same_view h h' (s s' : SkipList) Ls : Prop := mkSameView {
  sv_sent : sl_sentinel s' = sl_sentinel s;
  sv_max : sl_max_level s' = sl_max_level s;
  sv_nxt : forall l q, (l < MAX_HEAD_HEIGHT)%nat -> q = sl_sentinel s \/ q ∈ Ls l -> nxt h' q l = nxt h q l;
  sv_key : forall l q, q ∈ Ls l -> key_of h' q = key_of h q
}.

Lemma chain_same_nxt h h' l L : forall p, chain h l p L -> chain h' l p L ->
  forall q, q = p \/ q ∈ L -> nxt h' q l = nxt h q l.
Proof.
  induction L as [|x L IH]; intros p Hc Hc' q Hq.
  - destruct Hq as [->|Hq%elem_of_nil]; [|done]. cbn in *. congruence.
  - destruct Hc as [H1 H2], Hc' as [H1' H2']. destruct Hq as [->|Hq]; [congruence|].
    apply (IH x); [done|done|]. by apply elem_of_cons in Hq.
Qed.

Lemma view_of_step st st' s s' Ls o :
  lists_ok st s Ls -> lists_ok st' s' Ls -> evolves o (st_nodes st) (st_nodes st') s s' Ls Ls ->
  sl_max_level s' = sl_max_level s -> same_view (st_nodes st) (st_nodes st') s s' Ls.
Proof.
  intros Hl Hl' Hev Hm. constructor; [apply Hev|done| |intros l q Hq; by apply (stable_key Hl Hev q l)].
  intros l q Hlt Hq. apply (chain_same_nxt _ _ l (Ls l) (sl_sentinel s)); [by apply (lo_chains _ _ _ Hl)| |done].
  rewrite <- (ev_sent _ _ _ _ _ _ _ Hev). by apply (lo_chains _ _ _ Hl').
Qed.

Section Same.
Context {h h' : nodes} {s s' : SkipList} {Ls : nat -> list arena_ptr} (Hv : same_view h h' s s' Ls).

Lemma rest_same l cur : (forall q, cur = Some q -> q ∈ Ls l) -> rest h' (Ls l) cur = rest h (Ls l) cur.
Proof using Hv.
  intros Hc. destruct cur as [q|]; [|done]. cbn. f_equal. unfold beyond. f_equal. apply list_filter_ext_in.
  intros x Hx. unfold key_lt. by rewrite (sv_key _ _ _ _ _ Hv l x Hx), (sv_key _ _ _ _ _ Hv l q (Hc q eq_refl)).
Qed.

Lemma search_cost_same M k pc : spc_ok h s Ls k pc -> search_cost M h' Ls pc = search_cost M h Ls pc.
Proof using Hv.
  destruct pc as [| | |l pr cur]; try done. intros (_ & _ & Hc). cbn. by rewrite (rest_same l cur Hc).
Qed.

Lemma current_same k t lev : (lev < MAX_HEAD_HEIGHT)%nat -> ctx_good h s Ls k t -> current h' t lev = current h t lev.
Proof using Hv.
  intros Hlt [Hc _]. destruct (Hc lev Hlt) as (pr & sc & Hp & Hs & Hpr & _). unfold current. rewrite Hp, Hs.
  rewrite (sv_nxt _ _ _ _ _ Hv lev pr Hlt); [done|]. destruct Hpr as [?|[? _]]; auto.
Qed.

Lemma fresh_same k pc t lev : (lev < MAX_HEAD_HEIGHT)%nat -> ctx_good h s Ls k t -> spc_ok h s Ls k pc ->
  fresh h' s' pc t lev = fresh h s pc t lev.
Proof using Hv.
  intros Hlt Hc Hpc. pose proof (current_same k t lev Hlt Hc) as E.
  assert (Ep : pristine s' t lev = pristine s t lev) by (unfold pristine; by rewrite (sv_sent _ _ _ _ _ Hv)).
  destruct pc as [|level|level pr|l pr cur]; cbn [fresh]; rewrite ?E, ?Ep; try done.
  destruct (decide (l = lev)) as [<-|]; [|done]. destruct Hpc as (_ & Hp & _).
  rewrite (sv_nxt _ _ _ _ _ Hv l pr Hlt); [done|]. destruct Hp as [?|[? _]]; auto.
Qed.

Lemma cost_same M th st : h = st_nodes st -> lists_ok st s Ls -> thread_ok h s Ls th -> cost M h' s' Ls th = cost M h s Ls th.
Proof using Hv.
  intros Eh Hl Hth. pose proof (lo_max _ _ _ Hl) as Hmax. pose proof (sv_max _ _ _ _ _ Hv) as Em.
  assert (Ho : forall n height lev, own_ok h s Ls n height lev -> (lev < MAX_HEAD_HEIGHT)%nat).
  { intros n height lev (_ & _ & Hle & _). lia. }
  destruct th as [k v pc| |it acc|acc|k pc t|k t]; cbn [cost]; try done.
  3: { destruct Hth as (_ & _ & Hpc). by rewrite (search_cost_same M k pc Hpc). }
  - destruct Hth as (_ & _ & _ & Hpc).
    destruct pc as [[|n height|n height lev] pc t|t|t|t x|t height|t height m|t height|t n height|t n height|t n height lev|t n height lev|q|];
      cbn [pc_cost pc_ok goal_ok] in *; try done.
    + destruct Hpc as (_ & Hpc & _). by rewrite (search_cost_same M k pc Hpc).
    + destruct Hpc as (Hc & Hpc & Hown & _). by rewrite (search_cost_same M k pc Hpc), (fresh_same k pc t 0 (Ho _ _ _ Hown) Hc Hpc).
    + destruct Hpc as (Hc & Hpc & _ & Hown & _). by rewrite (search_cost_same M k pc Hpc), (fresh_same k pc t lev (Ho _ _ _ Hown) Hc Hpc).
    + by rewrite Em.
    + destruct Hpc as ([Hc _] & Hown & _). by rewrite (current_same k t lev (Ho _ _ _ Hown) Hc).
    + destruct Hpc as ([Hc _] & Hown & _). by rewrite (current_same k t lev (Ho _ _ _ Hown) Hc).
  - destruct it as [cur], Hth as [Hin _]. cbn in *. rewrite (rest_same 0); [done|]. intros q ->. rewrite Forall_forall in Hin.
    apply Hin, elem_of_app. right. by left.
Qed.
End Same.

(** ** What a step of a thread gains

    It links a node or raises the list, or its cost goes down. *)

Definition ended (th : thread) : bool :=
  match th with Inserter _ _ (IDone _) | Inserter _ _ IPanicked | ScanDone _ | ReadDone _ _ => true | _ => false end.

Definition gains (M : nat) (coin : bool) h (s s' : SkipList) Ls (th th' : thread) : Prop :=
  (links th' <= links th)%nat /\
  ((links th' < links th)%nat \/ (sl_max_level s < sl_max_level s')%nat \/
   (cost M h s Ls th' <= cost M h s Ls th)%nat /\
   (coin = true -> ended th = false -> (cost M h s Ls th' < cost M h s Ls th)%nat)).

Lemma gains_cheaper M coin h s s' Ls th th' :
  (links th' <= links th)%nat -> (cost M h s Ls th' < cost M h s Ls th)%nat -> gains M coin h s s' Ls th th'.
Proof. intros Hk Hc. split; [done|]. right. right. lia. Qed.

Section Gains.
Context (p : profile) {st : SlStore} {s : SkipList} {Ls : nat -> list arena_ptr} (Hl : lists_ok st s Ls).
Context (M : nat) (HM : forall l, (length (Ls l) <= M)%nat).
Context {k v : bytes} (Hk : valid k).
#[local] Abbreviation h := (st_nodes st).
#[local] Abbreviation th := (Inserter k v).

Lemma stale_mono (a b : bool) : (a = true -> b = true) -> (stale M b <= stale M a)%nat.
Proof using. destruct a, b; cbn; lia. Qed.

Lemma stale_le b : (stale M b <= retry_cost M)%nat.
Proof using. destruct b; cbn; lia. Qed.

Lemma search_gains coin g pc t r : pc_ok h s Ls k v (ISearch g pc t) -> search_step p h s k pc t = Done r ->
  gains M coin h s s Ls (th (ISearch g pc t)) (th match r with inl (pc, t) => ISearch g pc t | inr t => after_search g t end).
Proof using Hl HM Hk.
  intros (Hc & Hpc & Hg) E. pose proof (search_step_cheaper Hl M HM p k pc t r Hk Hc Hpc E) as Hr.
  destruct r as [[pc' t']|t']; cbn [cheaper] in Hr.
  - destruct Hr as [Hlt Hf]. assert (Hs : forall n height lev, own_ok h s Ls n height lev ->
      (stale M (fresh h s pc' t' lev) <= stale M (fresh h s pc t lev))%nat).
    { intros n height lev (_ & _ & Hle & _). apply stale_mono, Hf. lia. }
    destruct g as [|n height|n height lev]; (apply gains_cheaper; [done|]); cbn [cost pc_cost]; [lia| |].
    + destruct Hg as [Hown _]. specialize (Hs _ _ _ Hown). lia.
    + destruct Hg as (_ & Hown & _). specialize (Hs _ _ _ Hown). lia.
  - destruct Hr as [-> Hf]. destruct g as [|n height|n height lev]; cbn [after_search].
    + destruct (searched_node t) as [f|]; [|apply gains_cheaper; [done|cbn [cost pc_cost]; lia]].
      split; [cbn; lia|left; cbn; unfold MAX_HEAD_HEIGHT; lia].
    + pose proof (stale_mono _ _ (Hf 0%nat)). destruct Hg as [(_ & _ & Hle & _) _]. destruct (searched_node t) as [f|].
      * split; [cbn; lia|left; cbn; lia].
      * apply gains_cheaper; [cbn; lia|cbn [cost pc_cost]; lia].
    + pose proof (stale_mono _ _ (Hf lev)). apply gains_cheaper; [done|cbn [cost pc_cost]; lia].
Qed.

Lemma raise_gains (coin : bool) t height m : coin = false \/ m <> sl_max_level s ->
  gains M coin h s s Ls (th (IMaxCas t height m)) (th (raise_level t height (sl_max_level s))).
Proof using.
  intros Hm. unfold gains, raise_level. destruct (Nat.ltb_spec (sl_max_level s) height); cbn [links pc_links cost pc_cost].
  - rewrite (decide_True (P := sl_max_level s = sl_max_level s)) by done. split; [done|]. right. right.
    destruct (decide (m = sl_max_level s)) as [?|]; [|lia]. split; [lia|]. intros ->. by destruct Hm.
  - split; [done|]. right. right. case_decide; lia.
Qed.

Lemma retry_gains coin t n height lev :
  pc_ok h s Ls k v (ICas t n height lev) -> current h t lev = false ->
  gains M coin h s s Ls (th (ICas t n height lev))
    (th (ISearch (match lev with O => GBase n height | _ => GUpper n height lev end) SMax (ctx_init s))).
Proof using Hl.
  intros (_ & (_ & _ & Hle & _) & _) Hs. pose proof (lo_max _ _ _ Hl) as Hmax.
  assert (Hf : fresh h s SMax (ctx_init s) lev = true).
  { apply bool_decide_true. cbn [ctx_init predecessors successors]. by rewrite !lookup_replicate_2 by lia. }
  apply gains_cheaper; [destruct lev; cbn; lia|]. cbn [cost pc_cost]. rewrite Hs.
  assert (Hlt : (3 + search_cost M h Ls SMax + stale M true < 1 + stale M false)%nat) by (cbn [search_cost stale]; unfold retry_cost; lia).
  destruct lev; cbn [pc_cost]; by rewrite Hf.
Qed.

Lemma current_cas t n height lev sc pr :
  pc_ok h s Ls k v (ICas t n height lev) -> successors t !! lev = Some sc -> predecessors t !! lev = Some (Some pr) ->
  nxt h pr lev <> Some sc -> current h t lev = false.
Proof using. intros _ Hs Hp Hn. unfold current. rewrite Hp, Hs. by apply bool_decide_false. Qed.

Lemma cas_gains coin t n height lev st' s' pc' :
  pc_ok h s Ls k v (ICas t n height lev) -> insert_step p coin st s k v (ICas t n height lev) = Done (st', s', pc') ->
  gains M coin h s s' Ls (th (ICas t n height lev)) (th pc').
Proof using Hl.
  intros H. pose proof H as ((Hc & _) & (_ & _ & Hle & _) & _ & sc & Es & _). pose proof (lo_max _ _ _ Hl) as Hmax.
  destruct (proj1 Hc lev ltac:(lia)) as (pr & sc' & Ep & Es' & Hpr & _).
  assert (Hpr' : pr = sl_sentinel s \/ pr ∈ Ls lev) by (destruct Hpr as [?|[? _]]; auto).
  destruct (linked_slot Hl lev pr ltac:(lia) Hpr') as (cur & Hcur & _).
  cbn [insert_step]. unfold ctx_at. rewrite Es, Ep. cbn [mbind outcome_bind non_null].
  rewrite (Node_next_done p h pr lev cur) by (try done; try lia; apply (lo_heap _ _ _ Hl)). cbn [mbind outcome_bind].
  unfold slot_cas. rewrite (slot_load_done h pr lev cur Hcur). cbn [mbind outcome_bind].
  destruct (decide (cur = sc)) as [->|Hne]; cbn [mbind outcome_bind]; intros [= <- <- <-].
  - split; [|left]; destruct (Nat.ltb_spec (S lev) height); cbn; lia.
  - apply retry_gains; [done|]. apply (current_cas t n height lev sc pr H Es Ep). rewrite Hcur. by intros [= ->].
Qed.

Lemma insert_gains coin pc st' s' pc' : pc_ok h s Ls k v pc -> insert_step p coin st s k v pc = Done (st', s', pc') ->
  gains M coin h s s' Ls (th pc) (th pc').
Proof using Hl HM Hk.
  intros Hpc E. pose proof (lo_max _ _ _ Hl) as Hmax.
  destruct pc as [g pc t|t|t|t x|t height|t height m|t height|t n height|t n height|t n height lev|t n height lev|q|];
    try (by apply (cas_gains _ _ _ _ _ st')); cbn [insert_step] in E.
  - destruct (search_step p h s k pc t) as [r| | |] eqn:Er; cbn [mbind outcome_bind] in E; try done.
    injection E as <- <- <-. by apply search_gains.
  - injection E as <- <- <-. apply gains_cheaper; [done|cbn [cost pc_cost]; lia].
  - injection E as <- <- <-. apply gains_cheaper; [done|cbn [cost pc_cost]; lia].
  - cbv zeta in E. destruct (reduce_height p h (sl_sentinel s) _) as [height| | |]; cbn [mbind outcome_bind] in E; try done.
    injection E as <- <- <-. apply gains_cheaper; [done|cbn [cost pc_cost]; lia].
  - injection E as <- <- <-. unfold raise_level. destruct (Nat.ltb_spec (sl_max_level s) height).
    + apply gains_cheaper; [done|cbn [cost pc_cost]]. case_decide; lia.
    + apply gains_cheaper; [done|cbn [cost pc_cost]; lia].
  - destruct Hpc as (_ & Hh & Hm). destruct (coin && (sl_max_level s =? m)%nat) eqn:Ec; injection E as <- <- <-.
    + apply andb_prop in Ec as [_ Ec%Nat.eqb_eq]. split; [done|]. right. left. cbn. lia.
    + apply raise_gains. apply andb_false_iff in Ec as [?|Ec%Nat.eqb_neq]; [by left|right; congruence].
  - destruct Hpc as (_ & Hh). destruct (debug_assert p (height <=? MAX_HEAD_HEIGHT)%nat _); cbn [mbind outcome_bind] in E; try done.
    destruct (debug_assert _ _ _); cbn [mbind outcome_bind] in E; try done.
    destruct (Node_alloc p st height _ _) as [[st1 n]| | |]; try done; injection E as <- <- <-.
    + apply gains_cheaper; [cbn; lia|cbn [cost pc_cost]; lia].
    + apply gains_cheaper; [cbn; lia|cbn [cost pc_cost]; lia].
  - destruct (write_node st n Node_key_ptr k); cbn [mbind outcome_bind] in E; try done. injection E as <- <- <-.
    apply gains_cheaper; [done|cbn [cost pc_cost]; lia].
  - destruct (write_node st n Node_value_ptr v); cbn [mbind outcome_bind] in E; try done. injection E as <- <- <-.
    apply gains_cheaper; [cbn; lia|]. cbn [cost pc_cost]. pose proof (stale_le (current h t 0)). lia.
  - destruct (ctx_at (successors t) lev) as [sc| | |]; cbn [mbind outcome_bind] in E; try done.
    destruct (match sc with Some _ => _ | None => _ end) as [h1| | |]; cbn [mbind outcome_bind] in E; try done.
    injection E as <- <- <-. apply gains_cheaper; [done|cbn [cost pc_cost]; lia].
  - injection E as <- <- <-. split; [done|]. right. right. by split.
  - injection E as <- <- <-. split; [done|]. right. right. by split.
Qed.
End Gains.

Lemma thread_gains p coin st s Ls M th st' s' th' :
  lists_ok st s Ls -> (forall l, (length (Ls l) <= M)%nat) -> thread_ok (st_nodes st) s Ls th ->
  thread_step p coin st s th = Done (st', s', th') -> gains M coin (st_nodes st) s s' Ls th th'.
Proof.
  intros Hl HM Hth E. destruct th as [k v pc| |[[q|]] acc|acc|k pc t|k t]; cbn [thread_step] in E.
  - destruct Hth as (Hk & _ & _ & Hpc).
    destruct (insert_step p coin st s k v pc) as [[[st1 s1] pc1]| | |] eqn:Ei; cbn [mbind outcome_bind] in E; try done.
    injection E as <- <- <-. by apply (insert_gains p Hl M HM Hk coin pc st1).
  - destruct (scan_first p Hl) as (nx & Ei & _). rewrite Ei in E. cbn [mbind outcome_bind] in E. injection E as <- <- <-.
    apply gains_cheaper; [done|]. cbn [cost item]. pose proof (rest_le (st_nodes st) (Ls 0%nat) nx). specialize (HM 0%nat). lia.
  - assert (Hq : q ∈ Ls 0%nat).
    { destruct Hth as [Hin _]. rewrite Forall_forall in Hin. apply Hin, elem_of_app. right. by left. }
    cbn [Iter_next item] in E. destruct (Node_load_next p (st_nodes st) q 0) as [nx| | |] eqn:El; cbn [mbind outcome_bind] in E; try done.
    injection E as <- <- <-. apply (load_nxt Hl) in El; [|unfold MAX_HEAD_HEIGHT; lia|by right].
    apply gains_cheaper; [done|]. cbn [cost item].
    pose proof (rest_next st s Ls 0 q nx Hl ltac:(unfold MAX_HEAD_HEIGHT; lia) Hq El). lia.
  - cbn [Iter_next item mbind outcome_bind] in E. injection E as <- <- <-. apply gains_cheaper; [done|]. cbn. lia.
  - injection E as <- <- <-. split; [done|]. right. right. by split.
  - destruct Hth as (Hk & Hc & Hpc). destruct (search_step p (st_nodes st) s k pc t) as [r| | |] eqn:Er; cbn [mbind outcome_bind] in E; try done.
    pose proof (search_step_cheaper Hl M HM p k pc t r Hk Hc Hpc Er) as Hr. injection E as <- <- <-.
    destruct r as [[pc' t']|t']; cbn [cheaper] in Hr; (apply gains_cheaper; [done|]); cbn [cost]; [|lia].
    destruct Hr as [Hlt _]. lia.
  - injection E as <- <- <-. split; [done|]. right. right. by split.
Qed.

(** ** How much there is *)

Lemma NoDup_keys h L : Forall (fun q => valid (key_of h q)) L -> StronglySorted (key_lt h) L -> NoDup (key_of h <$> L).
Proof.
  intros Hv Hs. induction Hs as [|q L Hs IH Hq]; [constructor|]. apply Forall_cons in Hv as [Hvq Hv]. constructor; [|by apply IH].
  intros (x & Hx & Hin)%list_elem_of_fmap. rewrite Forall_forall in Hq, Hv. specialize (Hq x Hin). unfold key_lt in Hq.
  rewrite <- Hx in Hq. by rewrite (proj2 (key_cmp_eq _ _ Hvq Hvq) eq_refl) in Hq.
Qed.

Lemma nodes_bounded L0 h0 ths x Ls l : run_ok L0 h0 ths x Ls -> (length (Ls l) <= length L0 + size ths)%nat.
Proof.
  intros H. pose proof (ro_lists _ _ _ _ _ H) as Hl. set (h := st_nodes (is_store x)) in *.
  set (jobs := (fun e : nat * thread => default [] (fst <$> job e.2)) <$> map_to_list (is_threads x)).
  assert (Hsize : length jobs = size ths).
  { unfold jobs. rewrite length_fmap, length_map_to_list, <- (map_size_fmap job), (ro_jobs _ _ _ _ _ H). apply map_size_fmap. }
  rewrite <- Hsize, <- (length_fmap (key_of h) L0), <- length_app, <- (length_fmap (key_of h) (Ls l)).
  apply submseteq_length, NoDup_submseteq; [apply NoDup_keys; [apply (lvl_valid Hl)|apply (lo_sorted _ _ _ Hl)]|].
  intros y (q & -> & Hq%(lo_base _ _ _ _ _ Hl))%list_elem_of_fmap. apply elem_of_app.
  destruct (ro_entry _ _ _ _ _ H q Hq) as [?|(t & th & Et & Ej)]; [left; by apply list_elem_of_fmap_2|right].
  apply list_elem_of_fmap. exists (t, th). cbn [snd]. rewrite Ej. split; [done|]. by apply elem_of_map_to_list.
Qed.

Definition thread_bound (M : nat) : nat := retry_cost M + 20 + search_bound M.

Lemma search_cost_le M st s Ls k pc : lists_ok st s Ls -> (forall l, (length (Ls l) <= M)%nat) -> spc_ok (st_nodes st) s Ls k pc ->
  (search_cost M (st_nodes st) Ls pc <= search_bound M)%nat.
Proof.
  intros Hl HM Hpc. destruct pc as [|level|level pr|l pr cur]; cbn [search_cost spc_ok] in *; unfold search_bound; [lia|lia| |].
  - destruct Hpc as [Hle _]. pose proof (Nat.mul_le_mono_r _ _ (M + 3) Hle). lia.
  - destruct Hpc as [Hle _]. pose proof (rest_le (st_nodes st) (Ls l) cur). specialize (HM l).
    pose proof (Nat.mul_le_mono_r _ _ (M + 3) Hle). lia.
Qed.

Lemma cost_le M st s Ls th : lists_ok st s Ls -> (forall l, (length (Ls l) <= M)%nat) -> thread_ok (st_nodes st) s Ls th ->
  (cost M (st_nodes st) s Ls th <= thread_bound M)%nat.
Proof.
  intros Hl HM Hth. assert (Hs : forall b, (stale M b <= retry_cost M)%nat) by apply stale_le.
  assert (HM0 : (M + 4 <= thread_bound M)%nat) by (unfold thread_bound, search_bound, MAX_HEAD_HEIGHT; lia).
  destruct th as [k v pc| |it acc|acc|k pc t|k t]; cbn [cost]; [|done| |lia| |lia].
  3: { destruct Hth as (_ & _ & Hpc). pose proof (search_cost_le M st s Ls k pc Hl HM Hpc). unfold thread_bound. lia. }
  - destruct Hth as (_ & _ & _ & Hpc). unfold thread_bound.
    destruct pc as [g pc t|t|t|t x|t height|t height m|t height|t n height|t n height|t n height lev|t n height lev|q|];
      cbn [pc_cost]; try lia; try (case_decide; lia).
    + destruct Hpc as (_ & Hpc & _). pose proof (search_cost_le M st s Ls k pc Hl HM Hpc).
      destruct g as [| |? ? lev]; [lia|specialize (Hs (fresh (st_nodes st) s pc t 0)); lia|
        specialize (Hs (fresh (st_nodes st) s pc t lev)); lia].
    + specialize (Hs (current (st_nodes st) t lev)). lia.
    + specialize (Hs (current (st_nodes st) t lev)). lia.
  - pose proof (rest_le (st_nodes st) (Ls 0%nat) (item it)). specialize (HM 0%nat). lia.
Qed.

(** ** The potential of a state

    First the links and raises that remain, then what the threads cost until
    the next of them. *)

Definition events (x : ist) : nat := total links (is_threads x) + (MAX_HEAD_HEIGHT - sl_max_level (is_list x)).

Definition potential (M m : nat) (x : ist) Ls : nat :=
  (m * thread_bound M + 1) * events x + total (cost M (st_nodes (is_store x)) (is_list x) Ls) (is_threads x).

Lemma same_view_sym h h' s s' Ls : same_view h h' s s' Ls -> same_view h' h s' s Ls.
Proof.
  intros [Hs Hm Hn Hk]. constructor; [done|done| |intros l q Hq; symmetry; by apply (Hk l)].
  intros l q Hlt Hq. symmetry. apply Hn; [done|]. by rewrite <- Hs.
Qed.

Section Run.
Context (p : profile) (L0 : list arena_ptr) (h0 : nodes) (ths : gmap nat thread).
#[local] Abbreviation M := (length L0 + size ths)%nat.
#[local] Abbreviation run := (run_ok L0 h0 ths).
#[local] Abbreviation pot := (potential M (size ths)).

Lemma run_size x Ls : run x Ls -> size (is_threads x) = size ths.
Proof using. intros H. rewrite <- (map_size_fmap job), (ro_jobs _ _ _ _ _ H). apply map_size_fmap. Qed.

Lemma costs_le x Ls : run x Ls ->
  (total (cost M (st_nodes (is_store x)) (is_list x) Ls) (is_threads x) <= size ths * thread_bound M)%nat.
Proof using.
  intros H. etransitivity; [apply (total_le _ (thread_bound M))|by rewrite (run_size x Ls H)]. intros t th Et.
  apply cost_le; [apply H|intros l; by apply (nodes_bounded L0 h0 ths x)|by apply (ro_threads _ _ _ _ _ H t)].
Qed.

Lemma costs_view x x' Ls t th th' : run x Ls -> run x' Ls -> is_threads x !! t = Some th ->
  is_threads x' = <[t := th']> (is_threads x) ->
  same_view (st_nodes (is_store x)) (st_nodes (is_store x')) (is_list x) (is_list x') Ls ->
  let c := cost M (st_nodes (is_store x)) (is_list x) Ls in
  (total (cost M (st_nodes (is_store x')) (is_list x') Ls) (is_threads x') + c th = total c (is_threads x) + c th')%nat.
Proof using.
  intros H H' Et Ex Hv c. rewrite (total_ext _ c).
  - rewrite Ex. by apply total_insert.
  - intros t2 th2 E2. unfold c. destruct (decide (t2 = t)) as [->|Hne].
    + symmetry. apply (cost_same (same_view_sym _ _ _ _ _ Hv) M th2 (is_store x')); [done|apply H'|by apply (ro_threads _ _ _ _ _ H' t)].
    + rewrite Ex, lookup_insert_ne in E2 by done.
      apply (cost_same Hv M th2 (is_store x)); [done|apply H|by apply (ro_threads _ _ _ _ _ H t2)].
Qed.

Lemma step_potential t coin x x' Ls Ls' th th' : run x Ls -> run x' Ls' -> is_threads x !! t = Some th ->
  is_threads x' = <[t := th']> (is_threads x) ->
  thread_step p coin (is_store x) (is_list x) th = Done (is_store x', is_list x', th') ->
  step_ok (is_store x) (is_list x) Ls th (is_store x') (is_list x') Ls' th' ->
  (pot x' Ls' <= pot x Ls)%nat /\ (coin = true -> ended th = false -> (pot x' Ls' < pot x Ls)%nat).
Proof using.
  intros H H' Et Ex Est Hso. pose proof (ro_lists _ _ _ _ _ H) as Hl. pose proof (ro_lists _ _ _ _ _ H') as Hl'.
  destruct (thread_gains p coin _ _ Ls M th _ _ th' Hl (fun l => nodes_bounded L0 h0 ths x Ls l H)
    (ro_threads _ _ _ _ _ H t th Et) Est) as [Hk Hgain].
  pose proof (total_insert links _ t th th' Et) as Hlk. rewrite <- Ex in Hlk.
  pose proof (ev_max _ _ _ _ _ _ _ (so_ev _ _ _ _ _ _ _ _ Hso)) as Hmax. pose proof (lo_max _ _ _ Hl'). pose proof (lo_max _ _ _ Hl).
  pose proof (costs_le x' Ls' H') as Hc'. unfold potential. set (B := (size ths * thread_bound M)%nat) in *.
  destruct (decide (events x' < events x)%nat) as [Hev|Hev].
  - pose proof (Nat.mul_le_mono_l _ _ (B + 1) Hev). rewrite Nat.mul_succ_r in *. lia.
  - unfold events in Hev. assert (Hsame : links th' = links th /\ sl_max_level (is_list x') = sl_max_level (is_list x)) by lia.
    destruct Hsame as [Hk' Hm]. assert (Hevs : events x' = events x) by (unfold events; lia). rewrite Hevs.
    destruct (so_same _ _ _ _ _ _ _ _ Hso) as [->|?]; [|lia].
    pose proof (costs_view x x' Ls t th th' H H' Et Ex (view_of_step _ _ _ _ _ _ Hl Hl' (so_ev _ _ _ _ _ _ _ _ Hso) Hm)) as Hcv.
    cbv zeta in Hcv. destruct Hgain as [?|[?|[Hle Hlt]]]; [lia|lia|]. split; [lia|]. intros Hcoin Hend. specialize (Hlt Hcoin Hend). lia.
Qed.

(** A thread that has ended stays as it is. *)

Lemma ended_step coin st s th : ended th = true -> thread_step p coin st s th = Done (st, s, th).
Proof using. by destruct th as [k v []| | | | |]. Qed.

Lemma ended_run sched : forall x x' t th, irun p sched x = Done x' -> is_threads x !! t = Some th -> ended th = true ->
  is_threads x' !! t = Some th.
Proof using.
  induction sched as [|[t1 coin] sched IH]; intros x x' t th; cbn [irun]; [by intros [= ->]|].
  destruct (istep p t1 coin x) as [x1| | |] eqn:E1; cbn [mbind outcome_bind]; try done. intros E Et Hend.
  apply (IH x1); [done| |done]. unfold istep in E1. destruct (is_threads x !! t1) as [th1|] eqn:Et1; [|by injection E1 as <-].
  destruct (decide (t1 = t)) as [->|Hne].
  - assert (th1 = th) as -> by congruence. rewrite (ended_step _ _ _ _ Hend) in E1. cbn [mbind outcome_bind] in E1. injection E1 as <-.
    apply lookup_insert_eq.
  - destruct (thread_step _ _ _ _ _) as [[[st' s'] th']| | |]; cbn [mbind outcome_bind] in E1; try done. injection E1 as <-.
    cbn. by rewrite lookup_insert_ne.
Qed.

(** The steps a schedule gives to a thread, its exchanges not failing
    spuriously. *)

Definition steps_of (t : nat) (sched : list (nat * bool)) : nat := length (filter (fun e => e = (t, true)) sched).

Lemma run_potential sched : forall x Ls x' t th, run x Ls -> irun p sched x = Done x' -> is_threads x' !! t = Some th ->
  ended th = false -> (steps_of t sched <= pot x Ls)%nat.
Proof using.
  induction sched as [|[t1 coin] sched IH]; intros x Ls x' t th H E Et Hend; [cbn; lia|].
  destruct (istep_ok p t1 coin L0 h0 ths x Ls H) as (x1 & Ls1 & E1 & H1 & _ & _ & Hstep).
  destruct (irun_ok p L0 h0 ths ((t1, coin) :: sched) x Ls H) as (x2 & Ls2 & E2 & H2). rewrite E in E2. injection E2 as <-.
  pose proof E as E0. cbn [irun] in E. rewrite E1 in E. cbn [mbind outcome_bind] in E.
  unfold steps_of in *. rewrite filter_cons. destruct (is_threads x !! t1) as [th1|] eqn:Et1.
  - specialize (IH x1 Ls1 x' t th H1 E Et Hend). destruct Hstep as (th1' & Ex & Est & Hso).
    destruct (step_potential t1 coin x x1 Ls Ls1 th1 th1' H H1 Et1 Ex Est Hso) as [Hle Hlt].
    case_decide as Hd; [|lia]. injection Hd as -> ->. cbn. destruct (ended th1) eqn:Hend1.
    + rewrite (ended_run _ x x' t th1 E0 Et1 Hend1) in Et. congruence.
    + specialize (Hlt eq_refl eq_refl). lia.
  - subst x1. rewrite decide_False; [by apply (IH x Ls x' t th)|]. intros [= -> _].
    pose proof (f_equal (fun m => m !! t) (ro_jobs _ _ _ _ _ H)) as Hj. pose proof (f_equal (fun m => m !! t) (ro_jobs _ _ _ _ _ H2)) as Hj2.
    cbv beta in Hj, Hj2. by rewrite <- Hj, !lookup_fmap, Et1, Et in Hj2.
Qed.
End Run.

Definition step_bound (nodes threads : nat) : nat :=
  (threads * thread_bound (nodes + threads) + 1) * (threads * MAX_HEAD_HEIGHT + MAX_HEAD_HEIGHT) +
  threads * thread_bound (nodes + threads).

Lemma start_potential st s L0 ths : sl_inv st s L0 -> map_Forall (fun _ => starts s) ths ->
  (potential (length L0 + size ths) (size ths) (mkIst st s ths) (fun l => lvl (st_nodes st) l L0) <= step_bound (length L0) (size ths))%nat.
Proof.
  intros H Hs. pose proof (costs_le L0 (st_nodes st) ths _ _ (start_run_ok st s L0 ths H Hs)) as Hc.
  assert (Hk : (total links ths <= size ths * MAX_HEAD_HEIGHT)%nat).
  { apply total_le. intros t th Et. specialize (Hs t th Et). destruct th as [k v pc| | | | |]; cbn; try lia.
    destruct Hs as [_ ->]. done. }
  unfold potential, step_bound, events. cbn [is_threads is_list is_store] in *. apply Nat.add_le_mono; [|done].
  apply Nat.mul_le_mono_l. lia.
Qed.

Lemma ended_finished th : ended th = false \/ finished th.
Proof. destruct th as [k v []| | | | |]; cbn; auto. Qed.

(** ** Property *)

(** C4: every insertion, scan and search ends, whatever the other threads do.
    Under any schedule, a thread that has been given more than [step_bound]
    steps, not counting those in which a weak exchange fails spuriously, has
    returned.  The bound depends only on the number of nodes in the list and
    of threads: exchanges are lost and searches repeated only as often as other
    threads link nodes, and no fairness between the threads is needed. *)
Theorem skiplist_threads_terminate p st s L0 ths sched :
  sl_inv st s L0 -> map_Forall (fun _ => starts s) ths ->
  exists x, irun p sched (mkIst st s ths) = Done x /\
    forall t th, is_threads x !! t = Some th -> (step_bound (length L0) (size ths) < steps_of t sched)%nat -> finished th.
Proof.
  intros H Hs. pose proof (start_run_ok st s L0 ths H Hs) as Hr.
  destruct (irun_ok p L0 (st_nodes st) ths sched _ _ Hr) as (x & Ls & E & Hx). exists x. split; [done|]. intros t th Et Hn.
  destruct (ended_finished th) as [Hend|?]; [|done]. exfalso.
  pose proof (run_potential p L0 (st_nodes st) ths sched _ _ x t th Hr E Et Hend). pose proof (start_potential st s L0 ths H Hs). lia.
Qed.
End Progress.

(** Rounds in which every thread of [ts] makes a step. *)

Definition turns (ts : list nat) (n : nat) : list (nat * bool) := mjoin (replicate n ((fun t => (t, true)) <$> ts)).

Lemma steps_of_app t a b : steps_of t (a ++ b) = (steps_of t a + steps_of t b)%nat.
Proof. unfold steps_of. by rewrite filter_app, length_app. Qed.

Lemma steps_of_round t ts : NoDup ts -> t ∈ ts -> steps_of t ((fun t => (t, true)) <$> ts) = 1%nat.
Proof.
  intros Hn Ht. apply list_elem_of_split in Ht as (l1 & l2 & ->). apply NoDup_app in Hn as (_ & Hd & Hn).
  apply NoDup_cons in Hn as [Hn _]. rewrite fmap_app, fmap_cons, steps_of_app.
  assert (H0 : forall l, t ∉ l -> steps_of t ((fun t => (t, true)) <$> l) = 0%nat).
  { intros l Hl. unfold steps_of. rewrite list_filter_none; [done|]. apply Forall_forall.
    intros e (x & -> & Hx)%list_elem_of_fmap [= ->]. done. }
  change ((t, true) :: ?l) with ([(t, true)] ++ l). rewrite steps_of_app, !H0; [|done|intros Ht; by apply (Hd t Ht); left].
  unfold steps_of. rewrite filter_cons, decide_True by done. done.
Qed.

Lemma steps_of_turns t ts n : NoDup ts -> t ∈ ts -> steps_of t (turns ts n) = n.
Proof.
  intros Hn Ht. induction n as [|n IH]; [done|].
  change (turns ts (S n)) with (((fun t => (t, true)) <$> ts) ++ turns ts n).
  by rewrite steps_of_app, IH, steps_of_round.
Qed.

(** Two threads insert the same key and a third scans. *)

Lemma skiplist_threads_terminate_witness :
  let sched := turns [1%nat; 2%nat; 3%nat] (S (step_bound 3 3)) in
  exists x, irun (C := DefaultComparator) Debug sched demo_start = Done x /\
    forall t th, t ∈ [1%nat; 2%nat; 3%nat] -> is_threads x !! t = Some th -> finished th.
Proof.
  intros sched. destruct demo_repr as (L0 & H & HL).
  assert (Hn : length L0 = 3%nat) by (apply (f_equal length) in HL; unfold contents in HL; by rewrite length_fmap in HL).
  assert (Hnd : NoDup [1%nat; 2%nat; 3%nat]) by (apply (bool_decide_unpack _); exact I).
  destruct (skiplist_threads_terminate (CO := DefaultComparatorOk) Debug _ _ L0 demo_threads sched H demo_starts)
    as (x & E & Hx). exists x. split; [exact E|]. intros t th Ht Et. apply (Hx t th Et).
  change (size demo_threads) with 3%nat. unfold sched. rewrite Hn, (steps_of_turns t _ _ Hnd Ht). apply Nat.lt_succ_diag_r.
Defined.
