(* ===== verification/SkipListReads.v ===== *)
(** * SkipListReads: a search while other threads insert

    A search of [SkipListThreads] that overlaps insertions answers for one
    moment between its first and its last step: the node it ends at is the
    first one at or after the key in the list of that moment.  The moment is
    that of the last load on the base level. *)

From Stdlib Require Import Sorted.
From S2P Require Import Prelude Key Arena SkipList SkipListSpec SkipListThreads.
Local Open Scope Z_scope.

Section Reads.
Context {C : Comparator} {valid : bytes -> Prop} {CO : ComparatorOk C valid}.

Implicit Types (h : nodes) (L : list arena_ptr) (Ls : nat -> list arena_ptr) (q n : arena_ptr) (k v : bytes).

#[local] Abbreviation starts := (SkipListThreads.starts (valid := valid)).
#[local] Abbreviation heap x := (st_nodes (is_store x)).

(** [r] is the first node of [L] at or after [k]. *)

Definition first_at_least h L k (r : option arena_ptr) : Prop :=
  match r with
  | Some q => q ∈ L /\ key_cmp (key_of h q) k <> Lt /\
      forall q', q' ∈ L -> key_cmp (key_of h q') k <> Lt -> q' = q \/ key_lt h q q'
  | None => forall q, q ∈ L -> key_cmp (key_of h q) k = Lt
  end.

Lemma adjacent_first st s Ls k pr cur :
  lists_ok st s Ls -> valid k -> pred_ok (st_nodes st) s Ls k 0 pr -> nxt (st_nodes st) pr 0 = Some cur ->
  (forall c, cur = Some c -> key_cmp (key_of (st_nodes st) c) k <> Lt) -> first_at_least (st_nodes st) (Ls 0%nat) k cur.
Proof.
  intros Hl Hk Hp Hn Hc. destruct (around Hl 0 k pr cur ltac:(unfold MAX_HEAD_HEIGHT; lia) Hk Hp Hn) as (A & B & E & _ & Hh & HA).
  rewrite Forall_forall in HA. pose proof (lo_sorted _ _ _ Hl 0%nat) as Hs. rewrite E in Hs |- *.
  apply sorted_app_key in Hs as (_ & Hs & _). destruct cur as [c|]; cbn.
  - split; [apply elem_of_app; right; by apply head_Some_elem_of|]. split; [by apply Hc|]. intros q' Hq' Hge.
    apply elem_of_app in Hq' as [Hq'|Hq']; [by destruct Hge; apply HA|]. by apply (sorted_head_le _ B).
  - intros q Hq. apply elem_of_app in Hq as [Hq|Hq]; [by apply HA|]. destruct B; [by apply not_elem_of_nil in Hq|done].
Qed.

(** ** Moments of a run *)

Section Run.
Context (p : profile) (L0 : list arena_ptr) (h0 : nodes) (ths : gmap nat thread) (x1 : ist).
#[local] Abbreviation run := (run_ok L0 h0 ths).

Definition moment (pre : list (nat * bool)) (P : ist -> Prop) : Prop :=
  exists sa sb xm, pre = sa ++ sb /\ irun p sa x1 = Done xm /\ P xm.

(** At [xm], [cur] was the node after [pr], which is before [k]; or [r] was the
    first node at or after [k].  The node has not changed since. *)

Definition same_node (x xm : ist) (cur : option arena_ptr) : Prop :=
  forall q, cur = Some q -> shape <$> heap x !! q = shape <$> heap xm !! q.

Definition adjacent k pr cur (xm : ist) : Prop :=
  exists Ls, run xm Ls /\ pred_ok (heap xm) (is_list xm) Ls k 0 pr /\ nxt (heap xm) pr 0 = Some cur.

Definition found k r (xm : ist) : Prop := exists Ls, run xm Ls /\ first_at_least (heap xm) (Ls 0%nat) k r.

Definition answered (x : ist) pre k (t : TraversalCtx) : Prop :=
  exists r, successors t !! 0%nat = Some r /\ moment pre (fun xm => found k r xm /\ same_node x xm r).

Definition linear (x : ist) pre k (pc : spc) (t : TraversalCtx) : Prop :=
  match pc with
  | SMax | SSkip (S _) => successors t !! 0%nat = Some None
  | SSkip O | SDown O _ => answered x pre k t
  | SDown (S _) _ | SWalk (S _) _ _ => True
  | SWalk O pr cur => moment pre (fun xm => adjacent k pr cur xm /\ same_node x xm cur)
  end.

Definition read_ok (x : ist) pre (th : thread) : Prop :=
  match th with Reader k pc t => linear x pre k pc t | ReadDone k t => answered x pre k t | _ => False end.

Lemma moment_now x pre (P : ist -> Prop) : irun p pre x1 = Done x -> P x -> moment pre P.
Proof. intros E HP. exists pre, [], x. by rewrite app_nil_r. Qed.

Lemma moment_later pre sb (P Q : ist -> Prop) : (forall xm, P xm -> Q xm) -> moment pre P -> moment (pre ++ sb) Q.
Proof. intros H (sa & sb' & xm & -> & E & HP). exists sa, (sb' ++ sb), xm. rewrite app_assoc. auto. Qed.

Lemma same_node_refl x cur : same_node x x cur.
Proof. by intros q _. Qed.

(** ** A step of the reader *)

Section Own.
Context {x : ist} {Ls : nat -> list arena_ptr} (H : run x Ls) {pre : list (nat * bool)} (E1 : irun p pre x1 = Done x).
Context {k : bytes} (Hk : valid k).
#[local] Abbreviation hx := (heap x).
#[local] Abbreviation sx := (is_list x).

Lemma walk_linear l pr cur t : (l < MAX_HEAD_HEIGHT)%nat -> pred_ok hx sx Ls k l pr -> nxt hx pr l = Some cur ->
  linear x pre k (SWalk l pr cur) t.
Proof using H E1.
  intros Hlt Hp Hn. destruct l as [|l]; [|done]. apply (moment_now x pre); [done|]. split; [by exists Ls|apply same_node_refl].
Qed.

Lemma stop_linear l pr cur found t : (l < MAX_HEAD_HEIGHT)%nat -> ctx_good hx sx Ls k t -> linear x pre k (SWalk l pr cur) t ->
  (forall c, cur = Some c -> key_cmp (key_of hx c) k <> Lt) -> linear x pre k (SDown l pr) (record t found l pr cur).
Proof using Hk.
  intros Hlt [Hc _] Hlin Hge. destruct l as [|l]; [|done]. exists cur. unfold record. cbn [successors].
  destruct (Hc 0%nat Hlt) as (? & ? & _ & Hs & _). rewrite list_lookup_insert_eq by (by eapply lookup_lt_Some). split; [done|].
  rewrite <- (app_nil_r pre). revert Hlin. apply moment_later. intros xm ((Lm & Hm & Hp & Hn) & Hsame). split; [|done].
  exists Lm. split; [done|]. apply (adjacent_first _ (is_list xm) _ _ pr); [apply Hm|done..|].
  intros c ->. rewrite <- (shape_key _ _ _ (Hsame c eq_refl)). by apply Hge.
Qed.

Lemma search_linear pc t r : ctx_good hx sx Ls k t -> spc_ok hx sx Ls k pc -> linear x pre k pc t ->
  search_step p hx sx k pc t = Done r -> match r with inl (pc', t') => linear x pre k pc' t' | inr t' => answered x pre k t' end.
Proof using H E1 Hk.
  pose proof (ro_lists _ _ _ _ _ H) as Hl. pose proof (lo_max _ _ _ Hl) as Hmax. intros Hc Hpc Hlin E.
  assert (Hld : forall l q nx, (l < MAX_HEAD_HEIGHT)%nat -> q = sl_sentinel sx \/ q ∈ Ls l ->
    Node_load_next p hx q l = Done nx -> nxt hx q l = Some nx).
  { intros l q nx Hlt Hq En. destruct (load_linked Hl p l q Hlt Hq) as (nx' & En' & Hn & _). rewrite En in En'. by injection En' as ->. }
  destruct pc as [|[|level]|[|l] pr|l pr [c|]]; cbn [search_step spc_ok] in *.
  - injection E as <-. destruct (sl_max_level sx); [lia|done].
  - injection E as <-. done.
  - destruct (Node_load_next p hx (sl_sentinel sx) level) as [nx| | |] eqn:En; cbn [mbind outcome_bind] in E; try done.
    injection E as <-. apply Hld in En; [|done|by left]. destruct nx as [q|]; [done|]. destruct level as [|level]; [|done].
    exists None. split; [done|]. apply (moment_now x pre); [done|]. split; [|apply same_node_refl]. exists Ls. split; [done|].
    pose proof (lo_chains _ _ _ Hl 0%nat Hpc) as Hch. apply chain_nxt in Hch. rewrite Hch in En. injection En as En.
    intros q Hq. destruct (Ls 0%nat); [by apply not_elem_of_nil in Hq|done].
  - injection E as <-. done.
  - destruct Hpc as [Hlt Hp]. specialize (Hp l eq_refl).
    destruct (Node_load_next p hx pr l) as [nx| | |] eqn:En; cbn [mbind outcome_bind] in E; try done. injection E as <-.
    apply walk_linear; [done|done|]. apply Hld; [done|destruct Hp as [?|[? _]]; auto|done].
  - destruct Hpc as (Hlt & Hp & Hin). specialize (Hin c eq_refl).
    pose proof (lo_node _ _ _ c Hl (lo_base _ _ _ _ _ Hl Hin)) as (Hread & Hv & _).
    rewrite (get_key_bytes_done hx c Hread) in E. cbn [mbind outcome_bind] in E. rewrite compare_done in E by done.
    cbn [mbind outcome_bind] in E. destruct (key_cmp (key_of hx c) k) eqn:Ek; cbn in E.
    + injection E as <-. apply stop_linear; [done|done|done|]. intros ? [= <-]. by rewrite Ek.
    + destruct (Node_load_next p hx c l) as [nx| | |] eqn:En; cbn [mbind outcome_bind] in E; try done. injection E as <-.
      apply walk_linear; [done|by right|]. apply Hld; [done|by right|done].
    + injection E as <-. apply stop_linear; [done|done|done|]. intros ? [= <-]. by rewrite Ek.
  - destruct Hpc as (Hlt & _). injection E as <-. by apply stop_linear.
Qed.
End Own.

(** ** The steps of others *)

Lemma moment_step pre e x x' cur (P : ist -> Prop) :
  (forall q, cur = Some q -> shape <$> heap x' !! q = shape <$> heap x !! q) ->
  moment pre (fun xm => P xm /\ same_node x xm cur) -> moment (pre ++ [e]) (fun xm => P xm /\ same_node x' xm cur).
Proof.
  intros Hs. apply moment_later. intros xm [HP Hn]. split; [done|]. intros q Hq. by rewrite (Hs q Hq), (Hn q Hq).
Qed.

Lemma read_ok_step pre e x x' o Ls Ls' th : run x Ls -> evolves o (heap x) (heap x') (is_list x) (is_list x') Ls Ls' ->
  thread_ok (heap x) (is_list x) Ls th -> read_ok x pre th -> read_ok x' (pre ++ [e]) th.
Proof.
  intros H Hev Hth Hr. pose proof (ro_lists _ _ _ _ _ H) as Hl.
  assert (Ha : forall k t, ctx_good (heap x) (is_list x) Ls k t -> answered x pre k t -> answered x' (pre ++ [e]) k t).
  { intros k t [Hc _] (r & Hs & Hm). exists r. split; [done|]. revert Hm. apply moment_step. intros q ->.
    destruct (Hc 0%nat ltac:(unfold MAX_HEAD_HEIGHT; lia)) as (? & sc & _ & Hs' & _ & Hsc). rewrite Hs in Hs'. injection Hs' as <-.
    destruct (Hsc q eq_refl) as [Hq _]. by apply (stable_shape Hl Hev q 0). }
  destruct th as [| | | |k pc t|k t]; try done; cbn in *.
  - destruct Hth as (_ & Hc & Hpc). destruct pc as [|[|]|[|]|[|l] pr cur]; cbn in *; try done; try by apply Ha.
    revert Hr. apply moment_step. intros q Hq. destruct Hpc as (_ & _ & Hin). by apply (stable_shape Hl Hev q 0), Hin.
  - destruct Hth as [_ Hc]. by apply Ha.
Qed.

Lemma read_ok_same pre e x x' th : is_store x' = is_store x -> read_ok x pre th -> read_ok x' (pre ++ [e]) th.
Proof.
  intros Es. assert (Hs : forall cur q, cur = Some q -> shape <$> heap x' !! q = shape <$> heap x !! q) by (intros; by rewrite Es).
  assert (Ha : forall k t, answered x pre k t -> answered x' (pre ++ [e]) k t).
  { intros k t (r & Hr & Hm). exists r. split; [done|]. by apply (moment_step _ _ x _ r _ (Hs r)). }
  destruct th as [| | | |k pc t|k t]; try done; cbn; [|by apply Ha].
  destruct pc as [|[|]|[|]|[|l] pr cur]; cbn; try done; try by apply Ha. by apply (moment_step _ _ x _ cur _ (Hs cur)).
Qed.

Lemma irun_snoc pre e x x' : irun p pre x1 = Done x -> istep p e.1 e.2 x = Done x' -> irun p (pre ++ [e]) x1 = Done x'.
Proof.
  revert x1. induction pre as [|[t coin] pre IH]; intros x0; cbn [irun app].
  - intros [= ->] E. destruct e as [t coin]. cbn in *. by rewrite E.
  - destruct (istep p t coin x0) as [x2| | |]; cbn [mbind outcome_bind]; try done. apply IH.
Qed.

Lemma reader_run t sched : forall pre x Ls th x', run x Ls -> irun p pre x1 = Done x -> is_threads x !! t = Some th ->
  read_ok x pre th -> irun p sched x = Done x' ->
  exists Ls' th', run x' Ls' /\ is_threads x' !! t = Some th' /\ read_ok x' (pre ++ sched) th'.
Proof.
  induction sched as [|[t1 coin] sched IH]; intros pre x Ls th x' H E1 Et Hr.
  - intros [= <-]. exists Ls, th. by rewrite app_nil_r.
  - cbn [irun]. destruct (istep_ok p t1 coin L0 h0 ths x Ls H) as (x2 & Ls2 & E2 & H2 & [o Hev] & Hoth & Hstep). rewrite E2.
    cbn [mbind outcome_bind]. pose proof (ro_threads _ _ _ _ _ H t th Et) as Hth. intros E.
    change (pre ++ (t1, coin) :: sched) with (pre ++ [(t1, coin)] ++ sched). rewrite app_assoc.
    pose proof (irun_snoc pre (t1, coin) x x2 E1 E2) as E12.
    destruct (decide (t = t1)) as [->|Hne].
    + rewrite Et in Hstep. destruct Hstep as (th' & Ex & Est & _). destruct th as [| | | |k pc c|k c]; try done; cbn [thread_step] in Est.
      * destruct Hth as (Hk & Hc & Hpc). destruct (search_step p (heap x) (is_list x) k pc c) as [r| | |] eqn:Er; try done.
        pose proof (search_linear H E1 Hk pc c r Hc Hpc Hr Er) as Hlin. cbn [mbind outcome_bind] in Est.
        injection Est as Es _ <-. apply (IH _ x2 Ls2 (match r with inl (pc, t) => Reader k pc t | inr t => ReadDone k t end)); [done|done| | |done].
        { by rewrite Ex, lookup_insert_eq. }
        apply (read_ok_same _ _ x); [done|]. by destruct r as [[? ?]|?].
      * injection Est as Es _ <-. apply (IH _ x2 Ls2 (ReadDone k c)); [done|done| | |done].
        { by rewrite Ex, lookup_insert_eq. }
        by apply (read_ok_same _ _ x).
    + apply (IH _ x2 Ls2 th); [done|done|by rewrite Hoth| |done]. by apply (read_ok_step pre (t1, coin) x x2 o Ls Ls2).
Qed.

Lemma read_moment t k c sched x2 Ls : run x1 Ls -> is_threads x1 !! t = Some (Reader k SMax (ctx_init (is_list x1))) ->
  irun p sched x1 = Done x2 -> is_threads x2 !! t = Some (ReadDone k c) ->
  exists sa sb xm Lm r, sched = sa ++ sb /\ irun p sa x1 = Done xm /\ run xm Lm /\ successors c !! 0%nat = Some r /\
    first_at_least (heap xm) (Lm 0%nat) k r /\ same_node x2 xm r.
Proof.
  intros H Et1 E2 Et2.
  destruct (reader_run t sched [] x1 Ls _ x2 H eq_refl Et1 ltac:(done) E2) as (Ls2 & th2 & H2 & Et & Hok).
  rewrite Et2 in Et. injection Et as <-. destruct Hok as (r & Hsucc & sa & sb & xm & Esp & Em & (Lm & Hm & Hf) & Hsame).
  by exists sa, sb, xm, Lm, r.
Qed.
End Run.

(** A run keeps the nodes it has linked. *)

Lemma irun_mono p L0 h0 ths sched : forall x Ls x', run_ok L0 h0 ths x Ls -> irun p sched x = Done x' ->
  exists Ls', run_ok L0 h0 ths x' Ls' /\ sl_sentinel (is_list x') = sl_sentinel (is_list x) /\
    forall q, q ∈ Ls 0%nat -> q ∈ Ls' 0%nat /\ key_of (heap x') q = key_of (heap x) q /\ value_of (heap x') q = value_of (heap x) q.
Proof.
  induction sched as [|[t coin] sched IH]; intros x Ls x' H; cbn [irun]; [intros [= <-]; by exists Ls|].
  destruct (istep_ok p t coin L0 h0 ths x Ls H) as (x2 & Ls2 & -> & H2 & [o Hev] & _). cbn [mbind outcome_bind]. intros E.
  destruct (IH x2 Ls2 x' H2 E) as (Ls' & H' & Hse & Hm). exists Ls'. split; [done|].
  split; [rewrite Hse; by apply (ev_sent _ _ _ _ _ _ _ Hev)|]. intros q Hq.
  pose proof (stable_shape (ro_lists _ _ _ _ _ H) Hev q 0 Hq) as Hs.
  destruct (Hm q (ev_mono _ _ _ _ _ _ _ Hev _ _ Hq)) as (Hin & Hk & Hv). split; [done|].
  by rewrite Hk, Hv, (shape_key _ _ _ Hs), (shape_value _ _ _ Hs).
Qed.

(** ** Property *)

(** C7: a search that overlaps insertions is linearizable.  Whatever the other
    threads do between its first step and its last, there is a moment in
    between at which the node it returns was the first one of the list at or
    after the key, or at which there was none; and the node still has the same
    key and value at the end. *)
Theorem skiplist_read_linearizes p st s L0 ths t k c sched1 sched2 x1 x2 :
  sl_inv st s L0 -> map_Forall (fun _ => starts s) ths -> irun p sched1 (mkIst st s ths) = Done x1 ->
  is_threads x1 !! t = Some (Reader k SMax (ctx_init (is_list x1))) ->
  irun p sched2 x1 = Done x2 -> is_threads x2 !! t = Some (ReadDone k c) ->
  exists sa sb xm Lm r, sched2 = sa ++ sb /\ irun p sa x1 = Done xm /\ base_list xm Lm /\ successors c !! 0%nat = Some r /\
    first_at_least (heap xm) Lm k r /\
    (forall q, r = Some q -> key_in x2 q = key_in xm q /\ value_in x2 q = value_in xm q).
Proof.
  intros H Hs E1 Et1 E2 Et2.
  destruct (irun_ok p L0 (st_nodes st) ths sched1 _ _ (start_run_ok st s L0 ths H Hs)) as (x & Ls & E & Hr).
  rewrite E1 in E. injection E as <-.
  destruct (read_moment p L0 (st_nodes st) ths x1 t k c sched2 x2 Ls Hr Et1 E2 Et2) as (sa & sb & xm & Lm & r & Esp & Em & Hm & Hsucc & Hf & Hsame).
  exists sa, sb, xm, (Lm 0%nat), r. split; [done|]. split; [done|]. split; [by apply (run_base L0 (st_nodes st) ths)|].
  split; [done|]. split; [done|]. intros q Hq. specialize (Hsame q Hq). split; [by apply shape_key|by apply shape_value].
Qed.
End Reads.

(** ** Witness

    A search for the key 4 starts before two threads insert it and ends after
    them. *)

Definition read_start : ist :=
  mkIst (demo_st demo_kvs) (demo_s demo_kvs)
    (<[1%nat := demo_thread 4 41]> (<[2%nat := demo_thread 4 42]> {[3%nat := Reader [4] SMax (ctx_init (demo_s demo_kvs))]})).

Definition read_sched : list (nat * bool) := replicate 2 (3%nat, true) ++ rounds 60 ++ replicate 40 (3%nat, true).

Lemma skiplist_read_linearizes_witness :
  let x2 := demo_run read_sched read_start in
  exists c, is_threads x2 !! 3%nat = Some (ReadDone [4] c) /\
  exists sa sb xm Lm r, read_sched = sa ++ sb /\ irun (C := DefaultComparator) Debug sa read_start = Done xm /\ base_list xm Lm /\
    successors c !! 0%nat = Some r /\ first_at_least (CO := DefaultComparatorOk) (st_nodes (is_store xm)) Lm [4] r /\
    (forall q, r = Some q -> key_in x2 q = key_in xm q /\ value_in x2 q = value_in xm q).
Proof.
  destruct demo_repr as (L0 & H & _). intros x2.
  assert (Hs : map_Forall (fun _ => starts (valid := fun _ => True) (demo_s demo_kvs)) (is_threads read_start)).
  { apply map_Forall_insert_2; [by apply (demo_starts 1%nat)|]. apply map_Forall_insert_2; [by apply (demo_starts 2%nat)|].
    by apply map_Forall_singleton. }
  eexists. split; [vm_compute; reflexivity|].
  apply (skiplist_read_linearizes (CO := DefaultComparatorOk) Debug (demo_st demo_kvs) (demo_s demo_kvs) L0 (is_threads read_start) 3
    [4] _ [] read_sched read_start x2);
    [exact H|exact Hs|reflexivity|reflexivity|vm_compute; reflexivity|vm_compute; reflexivity].
Defined.
