(* ===== verification/SkipListPublish.v ===== *)
(** * SkipListPublish: memory orders of the skip list

    The interleavings of [SkipListThreads] with the order of each access
    ([utils/skiplists/mem_skip_list.rs]) and the happens-before relation the
    orders give.  A node is written by plain writes before the exchange that
    publishes it, so another thread may touch it only when those writes happen
    before: a touch without that is a data race, which is undefined behaviour
    whatever value is read.  Values are those of the interleaving; what is
    added is which nodes' initialisation happens before each thread's next
    step, carried by releasing exchanges to acquiring loads. *)

From S2P Require Import Prelude Key Arena SkipList SkipListSpec SkipListThreads.
Local Open Scope Z_scope.

(** ** Happens-before *)

(** An access to shared memory.  [ATouch] is a plain access to a node, or an
    access to a slot of its tower, which its initialisation wrote. *)

Inductive mem_access :=
| ATouch (q : arena_ptr)
| ALoad (acquire : bool) (q : arena_ptr) (l : nat)
| AStoreRelaxed (q : arena_ptr) (l : nat)
| AExchange (q : arena_ptr) (l : nat)
| AMaxLoad (acquire : bool)
| AMaxRelease
| AAllocate
| AInitialised (q : arena_ptr).

(** [vw_start] are the nodes that exist before the threads; [vw_seen] those
    whose initialisation happens before a thread's next step; [vw_slot],
    [vw_max] and [vw_arena] what an acquiring access to a slot, to the height
    and to the arena's chunk adds. *)

Record views := mkViews {
  vw_start : gset arena_ptr;
  vw_seen : gmap nat (gset arena_ptr);
  vw_slot : gmap (arena_ptr * nat) (gset arena_ptr);
  vw_max : gset arena_ptr;
  vw_arena : gset arena_ptr
}.

Definition views_start (d : gset arena_ptr) : views := mkViews d ∅ ∅ ∅ ∅.

Definition seen (b : views) (t : nat) : gset arena_ptr := vw_start b ∪ default ∅ (vw_seen b !! t).
Definition slot_view (b : views) (q : arena_ptr) (l : nat) : gset arena_ptr := default ∅ (vw_slot b !! (q, l)).

Definition see (b : views) (t : nat) (v : gset arena_ptr) : views :=
  mkViews (vw_start b) (<[t := seen b t ∪ v]> (vw_seen b)) (vw_slot b) (vw_max b) (vw_arena b).
Definition set_slot_view (b : views) (q : arena_ptr) (l : nat) (v : gset arena_ptr) : views :=
  mkViews (vw_start b) (vw_seen b) (<[(q, l) := v]> (vw_slot b)) (vw_max b) (vw_arena b).

Definition touch (b : views) (t : nat) (q : arena_ptr) : outcome unit :=
  if decide (q ∈ seen b t) then Done tt else UB "data race".

(** The orders of the loads that walk on from a node, and of those of an
    iterator, and whether two allocations synchronise, as they do in one chunk
    of the arena. *)

Record orders := mkOrders { walk_acquires : bool; iter_acquires : bool; allocation_syncs : bool }.

(** A relaxed store starts no release sequence; an exchange with [AcqRel]
    acquires what the slot had and releases all the thread has seen; the
    releasing exchange of the height goes on with its release sequence. *)

Definition perform (o : orders) (b : views) (t : nat) (a : mem_access) : outcome views :=
  match a with
  | ATouch q => _ ← touch b t q; Done b
  | ALoad acquire q l => _ ← touch b t q; Done (if acquire : bool then see b t (slot_view b q l) else b)
  | AStoreRelaxed q l => _ ← touch b t q; Done (set_slot_view b q l ∅)
  | AExchange q l =>
      _ ← touch b t q;
      let b := see b t (slot_view b q l) in Done (set_slot_view b q l (seen b t))
  | AMaxLoad acquire => Done (if acquire : bool then see b t (vw_max b) else b)
  | AMaxRelease => Done (mkViews (vw_start b) (vw_seen b) (vw_slot b) (vw_max b ∪ seen b t) (vw_arena b))
  | AAllocate =>
      Done (if allocation_syncs o then
              let b := see b t (vw_arena b) in mkViews (vw_start b) (vw_seen b) (vw_slot b) (vw_max b) (seen b t)
            else b)
  | AInitialised q => Done (see b t {[q]})
  end.

Fixpoint perform_all (o : orders) (b : views) (t : nat) (acc : list mem_access) : outcome views :=
  match acc with [] => Done b | a :: acc => b ← perform o b t a; perform_all o b t acc end.

(** ** The orders of the source *)

(** What the step of a search from [pc] accesses; [moved] says that it walked
    on from the node it compared. *)

(* @src crates/engine/src/utils/skiplists/mem_skip_list.rs:438-496 SkipList::search *)
Definition search_accesses (o : orders) (s : SkipList) (pc : spc) (moved : bool) : list mem_access :=
  match pc with
  | SMax => [AMaxLoad true]
  | SSkip O => []
  | SSkip (S l) => [ALoad true (sl_sentinel s) l]
  | SDown O _ => []
  | SDown (S l) pred => [ALoad true pred l]
  | SWalk _ _ None => []
  | SWalk l _ (Some c) => ATouch c :: (if moved then [ALoad (walk_acquires o) c l] else [])
  end.

Definition walks (pc : spc) : bool := match pc with SWalk _ _ _ => true | _ => false end.

(** The step of an insertion from [pc] to [pc']. *)

(* @src crates/engine/src/utils/skiplists/mem_skip_list.rs:402-606 SkipList::insert *)
Definition insert_accesses (o : orders) (s : SkipList) (coin : bool) (pc pc' : ipc) : list mem_access :=
  match pc with
  | ISearch _ pc _ => search_accesses o s pc (match pc' with ISearch _ pc' _ => walks pc' | _ => false end)
  | IMaxLoad _ _ => [AMaxLoad false]
  | IMaxCas _ _ max_height => if coin && (sl_max_level s =? max_height)%nat then [AMaxRelease] else []
  | IAlloc _ _ => [AAllocate]
  | IWriteValue _ node _ => [AInitialised node]
  | ILink t node _ level => match successors t !! level with Some (Some _) => [AStoreRelaxed node level] | _ => [] end
  | ICas t node _ level =>
      match predecessors t !! level with
      | Some (Some pr) => match pc' with ISearch _ _ _ => [ATouch pr] | _ => [AExchange pr level] end
      | _ => []
      end
  | ICount _ | ISeedLoad _ | ISeedStore _ _ | IWriteKey _ _ _ | IDone _ | IPanicked => []
  end.

(* @src crates/engine/src/utils/skiplists/mem_skip_list.rs:716-789 Iter::next *)
Definition iter_accesses (o : orders) (s : SkipList) (th : thread) : list mem_access :=
  match th with
  | ScanStart => [ALoad (iter_acquires o) (sl_sentinel s) 0]
  | Scanning it _ => match item it with Some q => [ALoad (iter_acquires o) q 0] | None => [] end
  | _ => []
  end.

Definition thread_accesses (o : orders) (s : SkipList) (coin : bool) (th th' : thread) : list mem_access :=
  match th, th' with
  | Inserter _ _ pc, Inserter _ _ pc' => insert_accesses o s coin pc pc'
  | Reader _ pc _, Reader _ pc' _ => search_accesses o s pc (walks pc')
  | Reader _ pc _, _ => search_accesses o s pc false
  | _, _ => iter_accesses o s th
  end.

Definition source_orders : orders := mkOrders false false true.

Section Steps.
Context {C : Comparator} (p : profile) (o : orders).

Definition hb_step (t : nat) (coin : bool) (x : ist) (b : views) : outcome (ist * views) :=
  x' ← istep p t coin x;
  match is_threads x !! t, is_threads x' !! t with
  | Some th, Some th' => b ← perform_all o b t (thread_accesses o (is_list x) coin th th'); Done (x', b)
  | _, _ => Done (x', b)
  end.

Fixpoint hb_run (sched : list (nat * bool)) (x : ist) (b : views) : outcome (ist * views) :=
  match sched with
  | [] => Done (x, b)
  | (t, coin) :: sched => '(x, b) ← hb_step t coin x b; hb_run sched x b
  end.
End Steps.

(** ** Acquiring loads are free of races

    [wl q l] is what the thread that linked node [q] on level [l] had seen when
    it did; [None] when [q] is not linked there. *)

Definition linked_views : Type := arena_ptr -> nat -> option (gset arena_ptr).

Definition knows (wl : linked_views) (v : gset arena_ptr) (q : arena_ptr) (l : nat) : Prop :=
  exists w, wl q l = Some w /\ w ⊆ v.

(** A linked slot that leads to a node also leads to what the linking of that
    node had seen, through the slot or through its own node's linking. *)

Record world_ok (wl : linked_views) (h : nodes) (s : SkipList) (b : views) : Prop := {
  wo_slots : forall q l w n, wl q l = Some w -> nxt h q l = Some (Some n) ->
    exists w', wl n l = Some w' /\ w' ⊆ slot_view b q l ∪ w;
  wo_in : forall q l w, wl q l = Some w -> q ∈ w /\ is_Some (h !! q);
  wo_down : forall q l w, wl q (S l) = Some w -> exists w', wl q l = Some w' /\ w' ⊆ w;
  wo_head : forall l, (l < MAX_HEAD_HEIGHT)%nat -> wl (sl_sentinel s) l = Some (vw_start b)
}.

Definition ctx_hb (wl : linked_views) (v : gset arena_ptr) (t : TraversalCtx) : Prop :=
  (forall l q, predecessors t !! l = Some (Some q) -> knows wl v q l) /\
  (forall l q, successors t !! l = Some (Some q) -> knows wl v q l).

Definition spc_hb (wl : linked_views) (v : gset arena_ptr) (pc : spc) : Prop :=
  match pc with
  | SMax => True
  | SSkip level => (level <= MAX_HEAD_HEIGHT)%nat
  | SDown O _ => True
  | SDown (S l) pred => knows wl v pred l
  | SWalk l pred curr => knows wl v pred l /\ forall c, curr = Some c -> knows wl v c l
  end.

(** [n] is the thread's own, linked below [lev] only, and what its other slots
    hold is known. *)

Definition own_hb (wl : linked_views) (v : gset arena_ptr) (h : nodes) (n : arena_ptr) (lev : nat) : Prop :=
  n ∈ v /\ (forall l, (lev <= l)%nat -> wl n l = None) /\ (forall l, (l < lev)%nat -> knows wl v n l) /\
  forall l q, (lev <= l)%nat -> nxt h n l = Some (Some q) -> knows wl v q l.

Definition blank (wl : linked_views) (h : nodes) (n : arena_ptr) : Prop :=
  forall l, wl n l = None /\ forall q, nxt h n l <> Some (Some q).

Definition goal_hb (wl : linked_views) (v : gset arena_ptr) (h : nodes) (g : goal) : Prop :=
  match g with GFirst => True | GBase n _ => own_hb wl v h n 0 | GUpper n _ lev => own_hb wl v h n lev end.

Definition pc_hb (wl : linked_views) (v : gset arena_ptr) (h : nodes) (pc : ipc) : Prop :=
  match pc with
  | ISearch g pc t => spc_hb wl v pc /\ ctx_hb wl v t /\ goal_hb wl v h g
  | ICount t | ISeedLoad t | ISeedStore t _ | IMaxLoad t _ | IMaxCas t _ _ | IAlloc t _ => ctx_hb wl v t
  | IWriteKey t n _ | IWriteValue t n _ => ctx_hb wl v t /\ blank wl h n
  | ILink t n _ lev | ICas t n _ lev => ctx_hb wl v t /\ own_hb wl v h n lev
  | IDone _ | IPanicked => True
  end.

Definition thread_hb (wl : linked_views) (v : gset arena_ptr) (h : nodes) (th : thread) : Prop :=
  match th with
  | Inserter _ _ pc => pc_hb wl v h pc
  | Scanning it _ => forall q, item it = Some q -> knows wl v q 0
  | Reader _ pc t => spc_hb wl v pc /\ ctx_hb wl v t
  | _ => True
  end.

Definition hb_inv (x : ist) (b : views) : Prop :=
  exists wl, world_ok wl (st_nodes (is_store x)) (is_list x) b /\
    forall t th, is_threads x !! t = Some th -> thread_hb wl (seen b t) (st_nodes (is_store x)) th.

(** ** Growth *)

Lemma knows_mono wl v v' q l : knows wl v q l -> v ⊆ v' -> knows wl v' q l.
Proof. intros (w & Hw & Hs) Hv. exists w. split; [done|set_solver]. Qed.

Lemma knows_in wl h s b v q l : world_ok wl h s b -> knows wl v q l -> q ∈ v.
Proof. intros H (w & Hw & Hs). apply (wo_in _ _ _ _ H) in Hw as [Hq _]. set_solver. Qed.

(** What a step may change for the threads that do not own node [o]. *)

Record moves (o : option arena_ptr) (wl wl' : linked_views) (h h' : nodes) : Prop := {
  mv_links : forall q l w, wl q l = Some w -> wl' q l = Some w;
  mv_own : forall m l, o <> Some m -> is_Some (h !! m) -> wl m l = None -> wl' m l = None /\ nxt h' m l = nxt h m l
}.

Lemma moves_refl o wl h : moves o wl wl h h.
Proof. by constructor. Qed.

Lemma knows_moves o wl wl' h h' v v' q l : moves o wl wl' h h' -> v ⊆ v' -> knows wl v q l -> knows wl' v' q l.
Proof. intros H Hv (w & Hw & Hs). exists w. split; [by apply (mv_links _ _ _ _ _ H)|set_solver]. Qed.

Lemma ctx_hb_moves o wl wl' h h' v v' t : moves o wl wl' h h' -> v ⊆ v' -> ctx_hb wl v t -> ctx_hb wl' v' t.
Proof. intros H Hv [H1 H2]. split; intros l q E; (eapply knows_moves; [done|done|]); auto. Qed.

Lemma spc_hb_moves o wl wl' h h' v v' pc : moves o wl wl' h h' -> v ⊆ v' -> spc_hb wl v pc -> spc_hb wl' v' pc.
Proof.
  intros H Hv. destruct pc as [|level|[|l] pred|l pred curr]; cbn; try done.
  - by eapply knows_moves.
  - intros [H1 H2]. split; [by eapply knows_moves|]. intros c E. eapply knows_moves; [done|done|by apply H2].
Qed.

Lemma own_hb_moves o wl wl' h h' v v' n lev :
  moves o wl wl' h h' -> v ⊆ v' -> o <> Some n -> is_Some (h !! n) -> own_hb wl v h n lev -> own_hb wl' v' h' n lev.
Proof.
  intros H Hv Ho Hn (H1 & H2 & H3 & H4). split; [set_solver|]. split; [|split].
  - intros l Hl. by apply (mv_own _ _ _ _ _ H n l Ho Hn), H2.
  - intros l Hl. eapply knows_moves; [done|done|by apply H3].
  - intros l q Hl. rewrite (proj2 (mv_own _ _ _ _ _ H n l Ho Hn (H2 l Hl))). intros Hq. eapply knows_moves; [done|done|by eapply H4].
Qed.

Lemma blank_moves o wl wl' h h' n : moves o wl wl' h h' -> o <> Some n -> is_Some (h !! n) -> blank wl h n -> blank wl' h' n.
Proof.
  intros H Ho Hn Hb l. destruct (Hb l) as [H1 H2]. destruct (mv_own _ _ _ _ _ H n l Ho Hn H1) as [H3 H4]. by rewrite H4.
Qed.

Lemma thread_hb_moves o wl wl' h h' v v' th :
  moves o wl wl' h h' -> v ⊆ v' -> (forall n, own_node th = Some n -> o <> Some n /\ is_Some (h !! n)) ->
  thread_hb wl v h th -> thread_hb wl' v' h' th.
Proof.
  intros H Hv Hown. assert (Hctx : forall t, ctx_hb wl v t -> ctx_hb wl' v' t) by (intros t; by eapply ctx_hb_moves).
  assert (Hspc : forall pc, spc_hb wl v pc -> spc_hb wl' v' pc) by (intros pc; by eapply spc_hb_moves).
  destruct th as [k w pc| |it acc|acc|k pc t|k t]; cbn in *; try done.
  - destruct pc as [g pc t|t|t|t sd|t ht|t ht mx|t ht|t n ht|t n ht|t n ht lev|t n ht lev|q|]; cbn in *; try done; eauto.
    + intros (H1 & H2 & H3). split; [by eauto|]. split; [by eauto|].
      destruct g as [|n ht|n ht lev]; cbn in *; [done| |]; destruct (Hown n eq_refl); by eapply own_hb_moves.
    + intros [H1 H2]. split; [by eauto|]. destruct (Hown n eq_refl). by eapply blank_moves.
    + intros [H1 H2]. split; [by eauto|]. destruct (Hown n eq_refl). by eapply blank_moves.
    + intros [H1 H2]. split; [by eauto|]. destruct (Hown n eq_refl). by eapply own_hb_moves.
    + intros [H1 H2]. split; [by eauto|]. destruct (Hown n eq_refl). by eapply own_hb_moves.
  - intros H1 q E. eapply knows_moves; [done|done|by apply H1].
  - intros [H1 H2]. split; by eauto.
Qed.

Record grows (t : nat) (b b' : views) : Prop := {
  gr_start : vw_start b' = vw_start b;
  gr_seen : seen b t ⊆ seen b' t;
  gr_others : forall u, u <> t -> seen b' u = seen b u
}.

Lemma grows_refl t b : grows t b b.
Proof. by constructor. Qed.

Lemma grows_trans t b1 b2 b3 : grows t b1 b2 -> grows t b2 b3 -> grows t b1 b3.
Proof. intros [H1 H2 H3] [H4 H5 H6]. constructor; [congruence|by etrans|]. intros u Hu. by rewrite H6, H3. Qed.

Lemma see_grows b t v : grows t b (see b t v).
Proof.
  constructor; [done| |]; unfold seen, see; cbn.
  - rewrite lookup_insert_eq. cbn. unfold seen. intros x. rewrite !elem_of_union. tauto.
  - intros u Hu. by rewrite lookup_insert_ne.
Qed.

Lemma see_sees b t v : v ⊆ seen (see b t v) t.
Proof. unfold seen, see. cbn. rewrite lookup_insert_eq. cbn. set_solver. Qed.

Lemma set_slot_view_grows b t q l v : grows t b (set_slot_view b q l v).
Proof. by constructor. Qed.

Lemma slot_view_set b q l v q' l' :
  slot_view (set_slot_view b q l v) q' l' = if decide ((q', l') = (q, l)) then v else slot_view b q' l'.
Proof.
  unfold slot_view, set_slot_view. cbn. case_decide as E; [by rewrite E, lookup_insert_eq|by rewrite lookup_insert_ne by congruence].
Qed.

Lemma touch_done b t q : q ∈ seen b t -> touch b t q = Done tt.
Proof. intros H. unfold touch. by rewrite decide_True. Qed.

Lemma world_see wl h s b t v : world_ok wl h s b -> world_ok wl h s (see b t v).
Proof. by intros []. Qed.

(** What an acquiring load of a known node's slot leads to is known then. *)

Lemma acquire_next wl h s b t q l n :
  world_ok wl h s b -> knows wl (seen b t) q l -> nxt h q l = Some (Some n) -> knows wl (seen (see b t (slot_view b q l)) t) n l.
Proof.
  intros H (w & Hw & Hs) Hn. destruct (wo_slots _ _ _ _ H _ _ _ _ Hw Hn) as (w' & Hw' & Hs'). exists w'. split; [done|].
  intros x [Hx|Hx]%Hs'%elem_of_union; [by apply see_sees|]. by apply (see_grows b t), Hs.
Qed.

Lemma knows_down wl h s b v q l : world_ok wl h s b -> knows wl v q (S l) -> knows wl v q l.
Proof. intros H (w & Hw & Hs). destruct (wo_down _ _ _ _ H _ _ _ Hw) as (w' & Hw' & Hs'). exists w'. split; [done|set_solver]. Qed.

Lemma knows_head wl h s b t l : world_ok wl h s b -> (l < MAX_HEAD_HEIGHT)%nat -> knows wl (seen b t) (sl_sentinel s) l.
Proof. intros H Hl. exists (vw_start b). split; [by apply (wo_head _ _ _ _ H)|]. unfold seen. set_solver. Qed.

Lemma load_next_nxt p h q l v : Node_load_next p h q l = Done v -> nxt h q l = Some v.
Proof.
  intros (_ & _ & (x & E1 & E2)%bind_done)%bind_done. assert (x = (q, l)) as ->.
  { unfold Node_next in E1. apply bind_done in E1 as (_ & _ & E1). unfold Node_node_at_tower_level in E1.
    destruct p; [|by injection E1]. apply bind_done in E1 as (n & _ & (_ & _ & E1)%bind_done). by injection E1. }
  unfold slot_load, deref in E2. cbn [fst snd] in E2. unfold nxt. destruct (h !! q) as [n|]; [|done]. cbn in *.
  by destruct (n_tower n !! l); simplify_eq.
Qed.

(** ** Searches *)

Section Safe.
Context {C : Comparator} {valid : bytes -> Prop} {CO : ComparatorOk C valid} (p : profile) (syncs : bool).

Definition acquiring : orders := mkOrders true true syncs.

Lemma perform_load wl h s b t q l n rest :
  world_ok wl h s b -> knows wl (seen b t) q l -> nxt h q l = Some n ->
  perform_all acquiring b t (ALoad true q l :: rest) = perform_all acquiring (see b t (slot_view b q l)) t rest /\
  (forall c, n = Some c -> knows wl (seen (see b t (slot_view b q l)) t) c l).
Proof.
  intros H Hk Hn. cbn [perform_all perform]. rewrite touch_done by by eapply knows_in. split; [done|].
  intros c ->. by eapply acquire_next.
Qed.

Lemma ctx_record_hb wl v t found l pred curr :
  ctx_hb wl v t -> knows wl v pred l -> (forall c, curr = Some c -> knows wl v c l) -> ctx_hb wl v (record t found l pred curr).
Proof.
  intros [H1 H2] Hp Hc. split; cbn; intros i q E.
  - destruct (decide (l = i)) as [->|Hne]; [|rewrite list_lookup_insert_ne in E by done; by apply H1].
    apply list_lookup_insert_Some in E as [(_ & [= <-] & _)|(? & _)]; done.
  - destruct (decide (l = i)) as [->|Hne]; [|rewrite list_lookup_insert_ne in E by done; by apply H2].
    apply list_lookup_insert_Some in E as [(_ & -> & _)|(? & _)]; [by apply Hc|done].
Qed.

Lemma spc_down wl h s b v l pred : world_ok wl h s b -> knows wl v pred l -> spc_hb wl v (SDown l pred).
Proof. intros H Hk. destruct l as [|l]; [done|]. by eapply knows_down. Qed.

Definition search_result (wl : linked_views) (v : gset arena_ptr) (r : spc * TraversalCtx + TraversalCtx) : Prop :=
  match r with inl (pc, t) => spc_hb wl v pc /\ ctx_hb wl v t | inr t => ctx_hb wl v t end.

Definition result_walks (r : spc * TraversalCtx + TraversalCtx) : bool := match r with inl (pc, _) => walks pc | inr _ => false end.

Lemma search_hb wl h s b tid key pc t r :
  world_ok wl h s b -> (sl_max_level s <= MAX_HEAD_HEIGHT)%nat -> spc_hb wl (seen b tid) pc -> ctx_hb wl (seen b tid) t ->
  search_step p h s key pc t = Done r ->
  exists b', perform_all acquiring b tid (search_accesses acquiring s pc (result_walks r)) = Done b' /\
    grows tid b b' /\ world_ok wl h s b' /\ search_result wl (seen b' tid) r.
Proof.
  intros H Hmax Hpc Ht E. pose proof (grows_refl tid b) as Hrefl.
  assert (Hmono : forall v, ctx_hb wl (seen (see b tid v) tid) t).
  { intros v. eapply ctx_hb_moves; [by apply moves_refl with (o := None) (h := h)|apply (see_grows b tid v)|done]. }
  assert (Hk : forall v q l, knows wl (seen b tid) q l -> knows wl (seen (see b tid v) tid) q l).
  { intros v q l Hq. eapply knows_mono; [done|]. apply (see_grows b tid v). }
  destruct pc as [|[|l]|[|l] pred|l pred [c|]]; cbn [search_step search_accesses] in *.
  - injection E as <-. eexists. split; [done|]. split; [apply see_grows|]. split; [by apply world_see|]. split; [done|apply Hmono].
  - injection E as <-. eexists. split; [done|]. split; [done|]. split; [done|]. by split.
  - apply bind_done in E as (next & E%load_next_nxt & [= <-]).
    assert (Hhead : knows wl (seen b tid) (sl_sentinel s) l) by (eapply knows_head; [done|cbn in Hpc; lia]).
    destruct (perform_load wl h s b tid _ l next [] H Hhead E) as [-> _]. eexists. split; [done|].
    split; [apply see_grows|]. split; [by apply world_see|]. split; [|apply Hmono]. destruct next; cbn; [by apply Hk|cbn in Hpc; lia].
  - injection E as <-. eexists. split; [done|]. split; [done|]. by split.
  - apply bind_done in E as (curr & E%load_next_nxt & [= <-]).
    destruct (perform_load wl h s b tid pred l curr [] H Hpc E) as [-> Hc]. eexists. split; [done|].
    split; [apply see_grows|]. split; [by apply world_see|]. split; [|apply Hmono]. split; [by apply Hk|done].
  - destruct Hpc as [Hp Hc]. specialize (Hc c eq_refl). cbn [perform_all perform]. rewrite touch_done by by eapply knows_in.
    cbn [mbind outcome_bind]. apply bind_done in E as (node_key & _ & (ord & _ & E)%bind_done). destruct ord.
    + injection E as <-. eexists. split; [done|]. split; [done|]. split; [done|]. split; [by eapply spc_down|].
      apply ctx_record_hb; [done|done|]. by intros ? [= <-].
    + apply bind_done in E as (next & E%load_next_nxt & [= <-]).
      destruct (perform_load wl h s b tid c l next [] H Hc E) as [Ep Hn]. cbn [result_walks walks walk_acquires acquiring]. rewrite Ep.
      eexists. split; [done|]. split; [apply see_grows|]. split; [by apply world_see|]. split; [|apply Hmono].
      split; [by apply Hk|done].
    + injection E as <-. eexists. split; [done|]. split; [done|]. split; [done|]. split; [by eapply spc_down|].
      apply ctx_record_hb; [done|done|]. by intros ? [= <-].
  - injection E as <-. destruct Hpc as [Hp _]. eexists. split; [done|]. split; [done|]. split; [done|]. split; [by eapply spc_down|].
    by apply ctx_record_hb.
Qed.

(** ** Insertions *)

Lemma Node_next_slot h q l x : Node_next p h q l = Done x -> x = (q, l).
Proof.
  unfold Node_next, Node_node_at_tower_level. intros (_ & _ & E)%bind_done. destruct p; [|by injection E].
  apply bind_done in E as (n & _ & (_ & _ & E)%bind_done). by injection E.
Qed.

Lemma slot_load_nxt h x v : slot_load h x = Done v -> nxt h x.1 x.2 = Some v.
Proof.
  unfold slot_load, deref, nxt. destruct (h !! x.1) as [n|]; [|done]. cbn. destruct (n_tower n !! x.2); [|done]. by intros [= ->].
Qed.

(** What an insertion's step establishes. *)

Definition step_hb (wl : linked_views) (h h' : nodes) (s' : SkipList) (b : views) (tid : nat) (o : option arena_ptr)
    (acc : list mem_access) (pc' : ipc) : Prop :=
  exists wl' b', perform_all acquiring b tid acc = Done b' /\ grows tid b b' /\ world_ok wl' h' s' b' /\
    pc_hb wl' (seen b' tid) h' pc' /\ moves o wl wl' h h'.

Lemma step_hb_same wl h s s' b tid o pc' :
  world_ok wl h s b -> sl_sentinel s' = sl_sentinel s -> pc_hb wl (seen b tid) h pc' -> step_hb wl h h s' b tid o [] pc'.
Proof.
  intros [H1 H2 H3 H4] Es Hpc. exists wl, b. split; [done|]. split; [apply grows_refl|]. split; [constructor; by rewrite ?Es|].
  split; [done|apply moves_refl].
Qed.

Lemma ctx_hb_grows wl b b' tid t : grows tid b b' -> ctx_hb wl (seen b tid) t -> ctx_hb wl (seen b' tid) t.
Proof. intros Hg Ht. eapply ctx_hb_moves; [apply (moves_refl None wl (∅ : nodes))|apply (gr_seen _ _ _ Hg)|done]. Qed.

Lemma own_hb_grows wl b b' tid h n lev : grows tid b b' -> own_hb wl (seen b tid) h n lev -> own_hb wl (seen b' tid) h n lev.
Proof.
  intros Hg (H1 & H2 & H3 & H4). pose proof (gr_seen _ _ _ Hg) as Hs. split; [by apply Hs|]. split; [done|].
  split; [intros l Hl; eapply knows_mono; [by apply H3|done]|intros l q Hl Hq; eapply knows_mono; [by eapply H4|done]].
Qed.

Lemma search_case wl h s b tid st k v g pc t st' s' pc' coin :
  world_ok wl h s b -> (sl_max_level s <= MAX_HEAD_HEIGHT)%nat -> st_nodes st = h -> pc_hb wl (seen b tid) h (ISearch g pc t) ->
  insert_step p coin st s k v (ISearch g pc t) = Done (st', s', pc') ->
  step_hb wl h (st_nodes st') s' b tid None (insert_accesses acquiring s coin (ISearch g pc t) pc') pc'.
Proof.
  intros H Hmax Eh (Hpc & Ht & Hgoal) E. cbn [insert_step] in E. rewrite Eh in E. apply bind_done in E as (r & Er & [= <- <- <-]).
  destruct (search_hb wl h s b tid k pc t r H Hmax Hpc Ht Er) as (b' & Ep & Hg & Hw & Hr). exists wl, b'. rewrite Eh.
  assert (Eacc : insert_accesses acquiring s coin (ISearch g pc t) (match r with inl (pc, t) => ISearch g pc t | inr t => after_search g t end)
    = search_accesses acquiring s pc (result_walks r)).
  { cbn [insert_accesses]. destruct r as [[pc1 t1]|t1]; [done|]. destruct g; cbn; by try destruct (searched_node t1). }
  rewrite Eacc. split; [done|]. split; [done|]. split; [done|]. split; [|apply moves_refl].
  destruct r as [[pc1 t1]|t1]; cbn in Hr.
  - destruct Hr as [H1 H2]. split; [done|]. split; [done|]. destruct g; cbn in *; [done| |]; by eapply own_hb_grows.
  - destruct g as [|n ht|n ht lev]; cbn in *.
    + by destruct (searched_node t1).
    + destruct (searched_node t1); [done|]. split; [done|by eapply own_hb_grows].
    + split; [done|by eapply own_hb_grows].
Qed.

(** The fresh node of an allocation. *)

Lemma allocate_done b tid : exists b', perform_all acquiring b tid [AAllocate] = Done b' /\ grows tid b b' /\ vw_slot b' = vw_slot b.
Proof.
  cbn [perform_all perform acquiring allocation_syncs]. destruct syncs; cbn [mbind outcome_bind]; eexists; (split; [done|]); (split; [|done]).
  - destruct (see_grows b tid (vw_arena b)) as [G1 G2 G3]. by constructor.
  - apply grows_refl.
Qed.

Lemma world_slot wl h s b b' tid : world_ok wl h s b -> grows tid b b' -> vw_slot b' = vw_slot b -> world_ok wl h s b'.
Proof.
  intros [H1 H2 H3 H4] Hg E. constructor; try done.
  - intros q l w n. unfold slot_view. rewrite E. apply H1.
  - by rewrite (gr_start _ _ _ Hg).
Qed.

Lemma alloc_case wl h s b tid o t node height h' n :
  world_ok wl h s b -> ctx_hb wl (seen b tid) t -> h !! node = None ->
  h' = <[node := n]> h -> n_tower n = replicate (n_height n) None ->
  step_hb wl h h' s b tid o [AAllocate] (IWriteKey t node height).
Proof.
  intros H Ht Hnone -> En.
  assert (Hwl : forall l, wl node l = None).
  { intros l. destruct (wl node l) as [w|] eqn:E; [|done]. apply (wo_in _ _ _ _ H) in E as [_ [? E]]. congruence. }
  assert (Hnxt : forall q l, q <> node -> nxt (<[node := n]> h) q l = nxt h q l) by (intros q l Hq; unfold nxt; by rewrite lookup_insert_ne).
  destruct (allocate_done b tid) as (b' & Ep & Hg & Eslot). exists wl, b'. split; [done|]. split; [done|]. split; [|split].
  - destruct H as [H1 H2 H3 H4]. constructor; try done.
    + intros q l w m Hw. rewrite Hnxt by (intros ->; by rewrite Hwl in Hw). unfold slot_view. rewrite Eslot. by apply H1.
    + intros q l w Hw. split; [by eapply H2|]. rewrite lookup_insert_ne by (intros <-; by rewrite Hwl in Hw). by apply H2 in Hw as [_ ?].
    + by rewrite (gr_start _ _ _ Hg).
  - split; [by eapply ctx_hb_grows|]. intros l. split; [done|]. unfold nxt. rewrite lookup_insert_eq. cbn. rewrite En.
    intros q Hq. by apply lookup_replicate in Hq as [[=] _].
  - constructor; [done|]. intros m l _ Hm Hl. split; [done|]. apply Hnxt. intros ->. rewrite Hnone in Hm. by destruct Hm.
Qed.

(** Writing the key and the value leaves towers alone. *)

Lemma write_node_nxt st n off bs st' :
  write_node st n off bs = Done st' ->
  (forall q l, nxt (st_nodes st') q l = nxt (st_nodes st) q l) /\ (forall q, is_Some (st_nodes st !! q) -> is_Some (st_nodes st' !! q)).
Proof.
  unfold write_node, deref. destruct (st_nodes st !! n) as [m|] eqn:En; [|done]. cbn [mbind outcome_bind].
  intros (m' & Em & [= <-])%bind_done. unfold node_write in Em. case_decide; [|done]. injection Em as <-. cbn. split.
  - intros q l. unfold nxt. destruct (decide (n = q)) as [<-|Hne]; [by rewrite lookup_insert_eq, En|by rewrite lookup_insert_ne].
  - intros q Hq. destruct (decide (n = q)) as [<-|Hne]; [by rewrite lookup_insert_eq|by rewrite lookup_insert_ne].
Qed.

Lemma world_nxt wl h h' s b :
  world_ok wl h s b -> (forall q l, nxt h' q l = nxt h q l) -> (forall q, is_Some (h !! q) -> is_Some (h' !! q)) -> world_ok wl h' s b.
Proof.
  intros [H1 H2 H3 H4] Hn Hd. constructor; try done.
  - intros q l w n Hw. rewrite Hn. by apply H1.
  - intros q l w Hw. destruct (H2 _ _ _ Hw). auto.
Qed.

Lemma write_case wl h s b tid o t node st off bs st' :
  world_ok wl h s b -> st_nodes st = h -> write_node st node off bs = Done st' -> ctx_hb wl (seen b tid) t /\ blank wl h node ->
  world_ok wl (st_nodes st') s b /\ blank wl (st_nodes st') node /\ moves o wl wl h (st_nodes st').
Proof.
  intros H Eh [Hn Hd]%write_node_nxt [Ht Hb]. rewrite Eh in Hn, Hd. split; [by eapply world_nxt|]. split.
  - intros l. destruct (Hb l) as [H1 H2]. split; [done|]. by rewrite Hn.
  - constructor; [done|]. intros m l _ _ Hm. by split.
Qed.

(** The relaxed store to an own slot. *)

Lemma link_case wl h s b tid t n height lev h' o :
  world_ok wl h s b -> ctx_hb wl (seen b tid) t -> own_hb wl (seen b tid) h n lev -> o = Some n ->
  (successors t !! lev = Some None /\ h' = h \/
   exists sc, successors t !! lev = Some (Some sc) /\ h' = set_slot (n, lev) (Some sc) h) ->
  step_hb wl h h' s b tid o
    (match successors t !! lev with Some (Some _) => [AStoreRelaxed n lev] | _ => [] end) (ICas t n height lev).
Proof.
  intros H Ht (O1 & O2 & O3 & O4) -> [[-> ->]|(sc & Esc & ->)].
  { apply (step_hb_same wl h s); [done|done|by split]. }
  rewrite Esc. exists wl, (set_slot_view b n lev ∅). cbn [perform_all perform]. rewrite touch_done by done. split; [done|].
  split; [apply set_slot_view_grows|].
  assert (Hnone : wl n lev = None) by (apply O2; lia).
  assert (Hne : forall q l, (q, l) <> (n, lev) -> nxt (set_slot (n, lev) (Some sc) h) q l = nxt h q l) by (intros q l; apply nxt_set_slot_ne).
  split; [|split].
  - destruct H as [H1 H2 H3 H4]. constructor; try done.
    + intros q l w m Hw. assert ((q, l) <> (n, lev)) by (intros [= -> ->]; congruence). rewrite Hne by done.
      rewrite slot_view_set, decide_False by done. by apply H1.
    + intros q l w Hw. destruct (H2 _ _ _ Hw) as [? Hq]. split; [done|]. unfold set_slot. cbn.
      destruct (decide (n = q)) as [<-|]; [by rewrite lookup_alter_eq, fmap_is_Some|by rewrite lookup_alter_ne].
  - split; [done|]. split; [done|]. split; [done|]. split; [done|]. intros l q Hl Hq.
    destruct (decide (l = lev)) as [->|Hll].
    + destruct (nxt h n lev) as [w|] eqn:Ew.
      * rewrite (nxt_set_slot_eq _ _ _ _ _ Ew) in Hq. injection Hq as <-. by apply (proj2 Ht).
      * exfalso. unfold nxt, set_slot in Hq, Ew. cbn in Hq. rewrite lookup_alter_eq in Hq. destruct (h !! n); [|done]. cbn in *.
        apply list_lookup_insert_Some in Hq as [(_ & _ & Hlt)|(? & _)]; [|done]. apply lookup_ge_None in Ew. lia.
    + rewrite Hne in Hq by congruence. by eapply O4.
  - constructor; [done|]. intros m l Hm _ Hwl. split; [done|]. apply Hne. congruence.
Qed.

(** The exchange that publishes the own node on a level. *)

Definition link_view (wl : linked_views) (n : arena_ptr) (lev : nat) (v : gset arena_ptr) : linked_views :=
  fun q l => if decide ((q, l) = (n, lev)) then Some v else wl q l.

Lemma publish_world wl h s b tid n lev pr v b' :
  world_ok wl h s b -> own_hb wl (seen b tid) h n lev -> knows wl (seen b tid) pr lev -> is_Some (h !! n) ->
  v = seen (see b tid (slot_view b pr lev)) tid -> b' = set_slot_view (see b tid (slot_view b pr lev)) pr lev v ->
  is_Some (nxt h pr lev) ->
  world_ok (link_view wl n lev v) (set_slot (pr, lev) (Some n) h) s b'.
Proof.
  intros H (O1 & O2 & O3 & O4) (wp & Hwp & Hsp) Hn Ev Eb [cur Hcur]. assert (Hnone : wl n lev = None) by (apply O2; lia).
  assert (Hpn : pr <> n) by (intros ->; congruence). pose proof (see_grows b tid (slot_view b pr lev)) as Hg.
  assert (Hv : seen b tid ⊆ v) by (rewrite Ev; apply Hg). assert (Hsv : slot_view b pr lev ⊆ v) by (rewrite Ev; apply see_sees).
  assert (Hold : forall q l w, link_view wl n lev v q l = Some w -> (q, l) = (n, lev) /\ w = v \/ (q, l) <> (n, lev) /\ wl q l = Some w).
  { intros q l w. unfold link_view. case_decide; [intros [= <-]; by left|by right]. }
  assert (Hkeep : forall q l w, wl q l = Some w -> link_view wl n lev v q l = Some w).
  { intros q l w Hw. unfold link_view. rewrite decide_False; [done|]. intros [= -> ->]. congruence. }
  assert (Hslot : forall q l, slot_view b' q l = if decide ((q, l) = (pr, lev)) then v else slot_view b q l) by (intros q l; by rewrite Eb, slot_view_set).
  constructor.
  - intros q l w m Hw Hm. destruct (decide ((q, l) = (pr, lev))) as [[= -> ->]|Hqp].
    + rewrite (nxt_set_slot_eq _ _ _ _ _ Hcur) in Hm. injection Hm as <-. exists v. split; [by unfold link_view; rewrite decide_True|].
      rewrite Hslot, decide_True by done. apply union_subseteq_l.
    + rewrite nxt_set_slot_ne in Hm by done. rewrite Hslot, decide_False by done. destruct (Hold _ _ _ Hw) as [[[= -> ->] ->]|[_ Hw0]].
      * destruct (O4 lev m (Nat.le_refl _) Hm) as (w' & Hw' & Hs'). exists w'. split; [by apply Hkeep|]. intros y Hy%Hs'%Hv.
        apply elem_of_union. by right.
      * destruct (wo_slots _ _ _ _ H _ _ _ _ Hw0 Hm) as (w' & Hw' & Hs'). exists w'. split; [by apply Hkeep|done].
  - intros q l w Hw.
    assert (Hd : forall y, is_Some (h !! y) -> is_Some (set_slot (pr, lev) (Some n) h !! y)).
    { intros y Hy. unfold set_slot. cbn. destruct (decide (pr = y)) as [<-|]; [by rewrite lookup_alter_eq, fmap_is_Some|by rewrite lookup_alter_ne]. }
    destruct (Hold _ _ _ Hw) as [[[= -> ->] ->]|[_ Hw0]]; [split; [by apply Hv|by apply Hd]|].
    destruct (wo_in _ _ _ _ H _ _ _ Hw0). auto.
  - intros q l w Hw. destruct (Hold _ _ _ Hw) as [[[= -> El] ->]|[_ Hw0]].
    + destruct (O3 l ltac:(lia)) as (w' & Hw' & Hs'). exists w'. split; [by apply Hkeep|by etrans].
    + destruct (wo_down _ _ _ _ H _ _ _ Hw0) as (w' & Hw' & Hs'). exists w'. split; [by apply Hkeep|done].
  - intros l Hl. rewrite (Hkeep _ _ (vw_start b)) by by apply (wo_head _ _ _ _ H). by rewrite Eb.
Qed.

Lemma publish_case wl h s b tid o t n height lev pr h' pc' :
  world_ok wl h s b -> ctx_hb wl (seen b tid) t -> own_hb wl (seen b tid) h n lev -> o = Some n -> is_Some (h !! n) ->
  knows wl (seen b tid) pr lev -> is_Some (nxt h pr lev) ->
  h' = set_slot (pr, lev) (Some n) h -> (pc' = ILink t n height (S lev) \/ pc' = IDone n) ->
  step_hb wl h h' s b tid o [AExchange pr lev] pc'.
Proof.
  intros H Ht Hown -> Hn Hpr Hcur -> Hpc. cbn [perform_all perform].
  set (b1 := see b tid (slot_view b pr lev)). set (v := seen b1 tid). exists (link_view wl n lev v), (set_slot_view b1 pr lev v).
  cbn [perform_all perform]. rewrite touch_done by by eapply knows_in. split; [done|].
  pose proof (see_grows b tid (slot_view b pr lev)) as Hg. fold b1 in Hg. pose proof Hown as (O1 & O2 & O3 & O4).
  assert (Hnone : wl n lev = None) by (apply O2; lia).
  assert (Hmoves : moves (Some n) wl (link_view wl n lev v) h (set_slot (pr, lev) (Some n) h)).
  { destruct Hpr as (wp & Hwp & _). constructor.
    - intros q l w Hw. unfold link_view. rewrite decide_False; [done|]. intros [= -> ->]. congruence.
    - intros m l Hm _ Hwl. split; [unfold link_view; rewrite decide_False; [done|congruence]|].
      apply nxt_set_slot_ne. intros [= -> ->]. congruence. }
  assert (Hv : seen b tid ⊆ v) by apply Hg.
  split; [by eapply grows_trans; [exact Hg|apply set_slot_view_grows]|]. split; [by eapply publish_world|]. split; [|done].
  change (seen (set_slot_view b1 pr lev v) tid) with v.
  destruct Hpc as [-> | ->]; [|done]. split; [by eapply ctx_hb_moves|]. split; [by apply Hv|]. split; [|split].
  - intros l Hl. unfold link_view. rewrite decide_False by (intros [= ->]; lia). apply O2. lia.
  - intros l Hl. destruct (decide (l = lev)) as [->|Hll].
    + exists v. unfold link_view. by rewrite decide_True.
    + eapply knows_moves; [done|done|]. apply O3. lia.
  - intros l q Hl Hq. destruct Hpr as (wp & Hwp & _). rewrite nxt_set_slot_ne in Hq by (intros [= -> ->]; congruence).
    eapply knows_moves; [done|done|]. eapply O4; [|done]. lia.
Qed.

Lemma moves_any o wl wl' h h' : moves None wl wl' h h' -> moves o wl wl' h h'.
Proof. intros [H1 H2]. constructor; [done|]. intros m l _. by apply H2. Qed.

Lemma step_hb_any o wl h h' s' b tid acc pc' : step_hb wl h h' s' b tid None acc pc' -> step_hb wl h h' s' b tid o acc pc'.
Proof. intros (wl' & b' & H1 & H2 & H3 & H4 & H5). exists wl', b'. do 4 (split; [done|]). by apply moves_any. Qed.

Lemma ctx_init_hb wl h s b tid : world_ok wl h s b -> ctx_hb wl (seen b tid) (ctx_init s).
Proof.
  intros H. split; cbn [ctx_init predecessors successors]; intros l q Hq; apply lookup_replicate in Hq as [Eq Hl]; [|done].
  injection Eq as ->. by eapply knows_head.
Qed.

Lemma raise_level_hb wl v h t height mx : ctx_hb wl v t -> pc_hb wl v h (raise_level t height mx).
Proof. intros Ht. unfold raise_level. by case_match. Qed.

Lemma cas_case wl h s b tid st k v t n height lev st' s' pc' coin :
  world_ok wl h s b -> st_nodes st = h -> is_Some (h !! n) -> pc_hb wl (seen b tid) h (ICas t n height lev) ->
  insert_step p coin st s k v (ICas t n height lev) = Done (st', s', pc') ->
  step_hb wl h (st_nodes st') s' b tid (Some n) (insert_accesses acquiring s coin (ICas t n height lev) pc') pc'.
Proof.
  intros H Eh Hn [Ht Hown] E. cbn [insert_step] in E. rewrite Eh in E.
  apply bind_done in E as (sc & Esc & (pr & Epr & (q & Eq & (x & Ex%Node_next_slot & (r & Er & E)%bind_done)%bind_done)%bind_done)%bind_done).
  subst x. destruct pr as [pr|]; [|done]. injection Eq as <-. unfold ctx_at in Epr.
  destruct (predecessors t !! lev) as [[pr'|]|] eqn:Ep; [|done|done]. injection Epr as ->.
  pose proof (proj1 Ht _ _ Ep) as Hpr. unfold slot_cas in Er. apply bind_done in Er as (cur & Ecur%slot_load_nxt & [= <-]). cbn [fst snd] in Ecur.
  cbn [insert_accesses]. rewrite Ep. case_decide as Hc.
  - injection E as <- <- <-. cbn [st_nodes].
    destruct (S lev <? height)%nat; (apply (publish_case wl h s b tid _ t n height lev pr); [done|done|done|done|done|done|by exists cur|done|]); [by left|by right].
  - injection E as <- <- <-. cbn [st_nodes]. exists wl, b. cbn [perform_all perform]. rewrite touch_done by by eapply knows_in.
    split; [done|]. split; [apply grows_refl|]. split; [done|]. split; [|apply moves_refl].
    split; [done|]. split; [by eapply ctx_init_hb|]. by destruct lev.
Qed.

#[local] Abbreviation pc_ok := (SkipListThreads.pc_ok (valid := valid)).

Lemma insert_hb wl st s Ls b tid k v pc st' s' pc' coin :
  lists_ok (valid := valid) st s Ls -> in_width 16 (len k) -> in_width 32 (len v) -> pc_ok (st_nodes st) s Ls k v pc ->
  world_ok wl (st_nodes st) s b -> (forall n, own_pc pc = Some n -> is_Some (st_nodes st !! n)) ->
  pc_hb wl (seen b tid) (st_nodes st) pc -> insert_step p coin st s k v pc = Done (st', s', pc') ->
  step_hb wl (st_nodes st) (st_nodes st') s' b tid (own_pc pc) (insert_accesses acquiring s coin pc pc') pc'.
Proof.
  intros Hl Hlk Hlv Hok H Hsome Hpc E. pose proof (lo_max _ _ _ Hl) as Hmax.
  destruct pc as [g pc t|t|t|t sd|t ht|t ht mx|t ht|t n ht|t n ht|t n ht lev|t n ht lev|q|].
  - assert (s' = s) as -> by (cbn in E; apply bind_done in E as (r & _ & [= _ <- _]); done).
    apply step_hb_any. eapply search_case; [done|lia|done|done|exact E].
  - injection E as <- <- <-. by apply (step_hb_same wl _ s).
  - injection E as <- <- <-. by apply (step_hb_same wl _ s).
  - cbn [insert_step] in E. apply bind_done in E as (h0 & _ & [= <- <- <-]). by apply (step_hb_same wl _ s).
  - injection E as <- <- <-. cbn [insert_accesses]. exists wl, b. split; [done|]. split; [apply grows_refl|]. split; [done|].
    split; [by apply raise_level_hb|apply moves_refl].
  - cbn [insert_step insert_accesses] in *. destruct (coin && (sl_max_level s =? mx)%nat); injection E as <- <- <-.
    + exists wl, (mkViews (vw_start b) (vw_seen b) (vw_slot b) (vw_max b ∪ seen b tid) (vw_arena b)). split; [done|].
      split; [by constructor|]. split; [by destruct H|]. split; [exact Hpc|apply moves_refl].
    + apply (step_hb_same wl _ s); [done|done|by apply raise_level_hb].
  - cbn [insert_step insert_accesses] in *. apply bind_done in E as (_ & _ & (_ & _ & E)%bind_done). rewrite (wrap_small 16), (wrap_small 32) in E by done.
    destruct Hok as [_ Hht]. destruct (Node_alloc_cases p Hl Hlk Hlv ht ltac:(lia)) as [(a' & n & En & Hnone & _)|[why En]];
      rewrite En in E; injection E as <- <- <-.
    + by eapply alloc_case.
    + destruct (allocate_done b tid) as (b' & Ep & Hg & Eslot). exists wl, b'. do 2 (split; [done|]). split; [by eapply world_slot|]. split; [done|apply moves_refl].
  - cbn [insert_step insert_accesses] in *. apply bind_done in E as (st1 & Ew & [= <- <- <-]).
    destruct (write_case wl _ s b tid (Some n) t n st _ _ st1 H eq_refl Ew Hpc) as (Hw & Hb & Hm).
    exists wl, b. split; [done|]. split; [apply grows_refl|]. split; [done|]. split; [split; [by destruct Hpc|done]|done].
  - cbn [insert_step insert_accesses] in *. apply bind_done in E as (st1 & Ew & [= <- <- <-]).
    destruct (write_case wl _ s b tid (Some n) t n st _ _ st1 H eq_refl Ew Hpc) as (Hw & Hb & Hm).
    exists wl, (see b tid {[n]}). split; [done|]. split; [apply see_grows|]. split; [by apply world_see|]. split; [|done].
    destruct Hpc as [Ht _]. split; [eapply ctx_hb_grows; [apply see_grows|done]|].
    split; [apply see_sees; set_solver|]. split; [intros l _; apply Hb|]. split; [intros l Hl'; lia|].
    intros l q _ Hq. by apply Hb in Hq.
  - cbn [insert_step insert_accesses] in *. destruct Hpc as [Ht Hown]. apply bind_done in E as (sc & Esc & (h1 & Eh & [= <- <- <-])%bind_done).
    unfold ctx_at in Esc. destruct (successors t !! lev) as [sc'|] eqn:Es; [|done]. injection Esc as ->.
    pose proof (link_case wl _ s b tid t n ht lev h1 (Some n) H Ht Hown eq_refl) as Hlink. rewrite Es in Hlink. apply Hlink.
    destruct sc as [sc|]; [right; exists sc|left; by injection Eh as <-].
    split; [done|]. apply bind_done in Eh as (x & Ex%Node_next_slot & (_ & _ & [= <-])%bind_done). by subst x.
  - assert (s' = s) as ->.
    { cbn [insert_step] in E. apply bind_done in E as (? & _ & (? & _ & (? & _ & (? & _ & ([? ?] & _ & [= _ <- _])%bind_done)%bind_done)%bind_done)%bind_done). done. }
    eapply cas_case; [done|done|by apply Hsome|done|exact E].
  - injection E as <- <- <-. by apply (step_hb_same wl _ s).
  - injection E as <- <- <-. by apply (step_hb_same wl _ s).
Qed.

(** ** Threads and schedules *)

#[local] Abbreviation thread_ok := (SkipListThreads.thread_ok (valid := valid)).
#[local] Abbreviation run_ok := (SkipListThreads.run_ok (valid := valid)).

Definition thread_step_hb (wl : linked_views) (h h' : nodes) (s s' : SkipList) (b : views) (tid : nat) (coin : bool) (th th' : thread) : Prop :=
  exists wl' b', perform_all acquiring b tid (thread_accesses acquiring s coin th th') = Done b' /\ grows tid b b' /\
    world_ok wl' h' s' b' /\ thread_hb wl' (seen b' tid) h' th' /\ moves (own_node th) wl wl' h h'.

Lemma scan_load wl st s b tid coin th q first rest :
  world_ok wl (st_nodes st) s b -> knows wl (seen b tid) q 0 -> Node_load_next p (st_nodes st) q 0 = Done first ->
  thread_accesses acquiring s coin th (Scanning (mkIter first) rest) = [ALoad true q 0] ->
  thread_step_hb wl (st_nodes st) (st_nodes st) s s b tid coin th (Scanning (mkIter first) rest).
Proof.
  intros H Hk E%load_next_nxt Eacc. unfold thread_step_hb. rewrite Eacc.
  destruct (perform_load wl _ s b tid q 0 first [] H Hk E) as [-> Hc]. eexists wl, _. split; [done|].
  split; [apply see_grows|]. split; [by apply world_see|]. split; [|apply moves_refl]. cbn. intros c ->. by apply Hc.
Qed.

Lemma thread_hb_step wl st s Ls b tid th st' s' th' coin :
  lists_ok (valid := valid) st s Ls -> thread_ok (st_nodes st) s Ls th -> world_ok wl (st_nodes st) s b ->
  thread_hb wl (seen b tid) (st_nodes st) th -> thread_step p coin st s th = Done (st', s', th') ->
  thread_step_hb wl (st_nodes st) (st_nodes st') s s' b tid coin th th'.
Proof.
  intros Hl Hok H Hth E. pose proof (lo_max _ _ _ Hl) as Hmax.
  assert (Hstay : forall th', thread_accesses acquiring s coin th th' = [] -> thread_hb wl (seen b tid) (st_nodes st) th' ->
    thread_step_hb wl (st_nodes st) (st_nodes st) s s b tid coin th th').
  { intros th1 Ea H1. exists wl, b. rewrite Ea. split; [done|]. split; [apply grows_refl|]. split; [done|]. split; [done|apply moves_refl]. }
  destruct th as [k v pc| |it acc|acc|k pc t|k t]; cbn [thread_step] in E.
  - apply bind_done in E as ([[st1 s1] pc'] & E & [= <- <- <-]). assert (Hsome : forall n, own_pc pc = Some n -> is_Some (st_nodes st !! n)) by (intros n; by apply (thread_own_some _ _ _ _ n Hok)).
    destruct Hok as (_ & Hlk & Hlv & Hok). by apply (insert_hb wl st s Ls b tid k v pc st1 s1 pc' coin).
  - apply bind_done in E as (it & (first & E & [= <-])%bind_done & [= <- <- <-]). eapply scan_load; [done| |exact E|done].
    eapply knows_head; [done|unfold MAX_HEAD_HEIGHT; lia].
  - apply bind_done in E as ([it' r] & E & [= <- <- <-]). unfold Iter_next in E. destruct (item it) as [q|] eqn:Eq.
    + apply bind_done in E as (next & E & [= <- <-]). eapply scan_load; [done|by apply Hth|exact E|]. cbn. by rewrite Eq.
    + injection E as <- <-. apply Hstay; [cbn; by rewrite Eq|done].
  - injection E as <- <- <-. by apply Hstay.
  - apply bind_done in E as (r & E & [= <- <- <-]). destruct Hth as [Hpc Ht].
    destruct (search_hb wl _ s b tid k pc t r H ltac:(lia) Hpc Ht E) as (b' & Ep & Hg & Hw & Hr). exists wl, b'.
    assert (Ea : thread_accesses acquiring s coin (Reader k pc t) (match r with inl (pc, t) => Reader k pc t | inr t => ReadDone k t end)
      = search_accesses acquiring s pc (result_walks r)) by (by destruct r as [[? ?]|?]).
    rewrite Ea. split; [done|]. split; [done|]. split; [done|]. split; [|apply moves_refl]. by destruct r as [[? ?]|?].
  - injection E as <- <- <-. by apply Hstay.
Qed.

Lemma hb_step_ok L0 h0 ths x Ls b t coin :
  run_ok L0 h0 ths x Ls -> hb_inv x b ->
  exists x' b' Ls', hb_step p acquiring t coin x b = Done (x', b') /\ run_ok L0 h0 ths x' Ls' /\ hb_inv x' b'.
Proof.
  intros Hr (wl & H & Hth). destruct (istep_ok p t coin L0 h0 ths x Ls Hr) as (x' & Ls' & E & Hr' & _ & Hothers & Hmine).
  unfold hb_step. rewrite E. cbn [mbind outcome_bind]. destruct (is_threads x !! t) as [th|] eqn:Et; cycle 1.
  { subst x'. exists x, b, Ls. split; [done|]. split; [done|]. by exists wl. }
  destruct Hmine as (th' & Ex & Est & _). rewrite Ex, lookup_insert_eq.
  pose proof (ro_threads _ _ _ _ _ Hr t th Et) as Hok.
  destruct (thread_hb_step wl _ _ Ls b t th _ _ th' coin (ro_lists _ _ _ _ _ Hr) Hok H (Hth t th Et) Est) as (wl' & b' & Ep & Hg & Hw & Hth' & Hm).
  rewrite Ep. cbn [mbind outcome_bind]. exists x', b', Ls'. split; [done|]. split; [done|]. exists wl'. split; [done|].
  intros u thu Eu. destruct (decide (u = t)) as [->|Hu].
  - rewrite Ex, lookup_insert_eq in Eu. by injection Eu as <-.
  - rewrite Hothers in Eu by done. rewrite (gr_others _ _ _ Hg) by done. eapply thread_hb_moves; [exact Hm|done| |by apply Hth].
    intros n Hn. pose proof (ro_threads _ _ _ _ _ Hr u thu Eu) as Hoku.
    split; [|by apply (thread_own_some _ _ _ _ n Hoku)]. intros Ho. by apply Hu, (ro_owners _ _ _ _ _ Hr u t thu th n).
Qed.

Lemma hb_run_ok L0 h0 ths sched : forall x Ls b, run_ok L0 h0 ths x Ls -> hb_inv x b ->
  exists x' b', hb_run p acquiring sched x b = Done (x', b').
Proof.
  induction sched as [|[t coin] sched IH]; intros x Ls b Hr H; [by exists x, b|]. cbn [hb_run].
  destruct (hb_step_ok L0 h0 ths x Ls b t coin Hr H) as (x1 & b1 & Ls1 & -> & Hr1 & H1). cbn [mbind outcome_bind]. by apply (IH x1 Ls1 b1).
Qed.

(** Threads start with all that is in the list. *)

Lemma start_hb st s L0 ths :
  sl_inv (valid := valid) st s L0 -> map_Forall (fun _ => starts (valid := valid) s) ths ->
  hb_inv (mkIst st s ths) (views_start (dom (st_nodes st))).
Proof.
  intros H Hs. pose proof (sl_inv_lists st s L0 H) as Hl. set (Ls := fun l => lvl (st_nodes st) l L0) in Hl.
  set (D := dom (st_nodes st)). exists (fun (q : arena_ptr) (l : nat) => if decide (q ∈ sl_sentinel s :: Ls l /\ (l < MAX_HEAD_HEIGHT)%nat) then Some D else None).
  assert (Hseen : forall t, seen (views_start D) t = D) by (intros t; unfold seen; cbn; rewrite lookup_empty; apply (right_id_L ∅ (∪))).
  assert (Hin : forall q l, q ∈ sl_sentinel s :: Ls l -> is_Some (st_nodes st !! q)).
  { intros q l [->|Hq]%elem_of_cons.
    - by apply (height_some _ _ _ (proj1 (lo_head _ _ _ Hl))); unfold MAX_HEAD_HEIGHT; lia.
    - eapply lo_some; [exact Hl|by eapply lo_base]. }
  set (wl := fun q l => _). assert (H0 : world_ok wl (st_nodes st) s (views_start D)); [|split; [done|]; cbn [is_threads]].
  - subst wl. constructor; cbv beta.
    + intros q l w n Hw Hn. case_decide as Hc; [|done]. injection Hw as <-. destruct Hc as [Hq Hlt]. exists D.
      split; [|apply union_subseteq_r]. apply decide_True. split; [|done]. right.
      destruct (chain_split _ _ _ _ q (Some n) (lo_chains _ _ _ Hl l Hlt)) as (A & B & E & _ & Ehd);
        [by apply elem_of_cons in Hq|done|]. rewrite E. apply elem_of_app. right. destruct B; [done|]. injection Ehd as ->. by left.
    + intros q l w Hw. case_decide as Hc; [|done]. injection Hw as <-. destruct Hc as [Hq%Hin _]. split; [|done]. by apply elem_of_dom.
    + intros q l w Hw. case_decide as Hc; [|done]. injection Hw as <-. exists D. split; [|done]. apply decide_True.
      destruct Hc as [[->|Hq]%elem_of_cons Hlt]; (split; [|lia]); [by left|right; by apply (lo_sub _ _ _ Hl)].
    + intros l Hlt. apply decide_True. split; [by left|done].
  - intros t th Et. specialize (Hs t th Et). destruct th as [k v pc| |it acc|acc|k pc t0|k t0]; try done.
    + destruct Hs as [_ ->]. split; [done|]. split; [by eapply ctx_init_hb|done].
    + destruct Hs as (_ & -> & ->). split; [done|]. by eapply ctx_init_hb.
Qed.

Lemma hb_run_irun o sched : forall x b x' b', hb_run p o sched x b = Done (x', b') -> irun p sched x = Done x'.
Proof.
  induction sched as [|[t coin] sched IH]; intros x b x' b'; cbn [hb_run irun]; [by intros [= -> _]|].
  intros ([x1 b1] & E & E')%bind_done. unfold hb_step in E. apply bind_done in E as (x2 & E & E2). rewrite E. cbn [mbind outcome_bind].
  assert (x1 = x2) as -> by (repeat case_match; [apply bind_done in E2 as (? & _ & [= -> _])|injection E2 as -> _|injection E2 as -> _]; done).
  by eapply IH.
Qed.

(** C10: if the walk of a search and the iterators loaded with [Acquire], then
    under every schedule of inserting, scanning and searching threads each
    touch of a node would come after its initialisation: no data race, whether
    or not allocations synchronise, and the run is one of the interleavings
    that [SkipListThreads] is about. *)
Theorem skiplist_acquire_race_free st s L0 ths sched :
  sl_inv (valid := valid) st s L0 -> map_Forall (fun _ => starts (valid := valid) s) ths ->
  exists x b, hb_run p (mkOrders true true syncs) sched (mkIst st s ths) (views_start (dom (st_nodes st))) = Done (x, b) /\
    irun p sched (mkIst st s ths) = Done x.
Proof.
  intros H Hs. destruct (hb_run_ok L0 (st_nodes st) ths sched _ _ _ (start_run_ok st s L0 ths H Hs) (start_hb st s L0 ths H Hs)) as (x & b & E).
  exists x, b. split; [done|]. by eapply hb_run_irun.
Qed.
End Safe.

(** ** Races *)

(** Threads 1 and 2 insert next to each other, thread 3 scans, thread 4 searches
    and thread 5 inserts. *)

Definition race_threads : gmap nat thread :=
  <[1%nat := demo_thread 4 41]> (<[2%nat := demo_thread 5 42]> (<[3%nat := ScanStart]>
    (<[4%nat := Reader [9] SMax (ctx_init (demo_s demo_kvs))]> {[5%nat := demo_thread 9 43]}))).

Definition steps (t n : nat) : list (nat * bool) := replicate n (t, true).

Definition race_run (o : orders) (sched : list (nat * bool)) : outcome (ist * views) :=
  hb_run (C := DefaultComparator) Debug o sched (mkIst (demo_st demo_kvs) (demo_s demo_kvs) race_threads)
    (views_start (dom (st_nodes (demo_st demo_kvs)))).

Definition race_inserts : list (nat * bool) := steps 1 80 ++ steps 2 80.

(** C9: with the orders of the source a node another thread has inserted is
    read without a happens-before edge from its initialisation: by a scan,
    whose loads are relaxed, whatever the walk of a search does, and by a search
    or another insertion, which walk on with a relaxed load, whatever the
    iterators do; synchronising allocations do not help. *)
Theorem skiplist_relaxed_races walk iter syncs :
  race_run (mkOrders walk false syncs) (race_inserts ++ steps 3 20) = UB "data race" /\
  race_run (mkOrders false iter syncs) (race_inserts ++ steps 4 80) = UB "data race" /\
  race_run (mkOrders false iter syncs) (race_inserts ++ steps 5 80) = UB "data race".
Proof. destruct walk, iter, syncs; vm_compute; done. Qed.

Lemma race_starts : map_Forall (fun _ => starts (valid := fun _ => True) (demo_s demo_kvs)) race_threads.
Proof.
  assert (H : forall k v, starts (valid := fun _ => True) (demo_s demo_kvs) (demo_thread k v)).
  { intros k v. split; [|done]. split; [done|]. split; vm_compute; split; congruence. }
  assert (Hr : starts (valid := fun _ => True) (demo_s demo_kvs) (Reader [9] SMax (ctx_init (demo_s demo_kvs)))) by done.
  intros t th. unfold race_threads. rewrite !lookup_insert_Some, lookup_singleton_Some.
  intros [[_ <-]|[_ [[_ <-]|[_ [[_ <-]|[_ [[_ <-]|[_ [_ <-]]]]]]]]]; first [exact I|exact Hr|exact (H _ _)].
Qed.

Lemma skiplist_acquire_race_free_witness :
  exists L0, sl_inv (CO := DefaultComparatorOk) (demo_st demo_kvs) (demo_s demo_kvs) L0 /\
  exists x b, race_run (mkOrders true true false) (race_inserts ++ steps 3 20 ++ steps 4 80 ++ steps 5 80) = Done (x, b).
Proof.
  destruct demo_repr as (L0 & H & _). exists L0. split; [exact H|].
  destruct (skiplist_acquire_race_free (CO := DefaultComparatorOk) Debug false _ _ L0 race_threads
    (race_inserts ++ steps 3 20 ++ steps 4 80 ++ steps 5 80) H race_starts) as (x & b & E & _). exists x, b. exact E.
Defined.
