(* ===== verification/Memtable.v ===== *)
(** * Memtable: versioned entries in a skip list

    Models [memtable/memtable.rs] and the iterator contract of
    [iterator/internal_iterator.rs].  A memtable owns an arena and a skip list
    of internal keys ordered by the comparator it is created with; point reads
    decode the first entry at or after the lookup key. *)

From stdpp Require Import sorting.
From S2P Require Import Prelude Key Arena SkipList SkipListSpec.
Local Open Scope Z_scope.

(* @src crates/engine/src/memtable/memtable.rs:21-27 MemReturn *)
Inductive MemReturn := MNotFound | MMerge | MDeleted | MValue (v : bytes).

(* @src crates/engine/src/memtable/memtable.rs:29-36 MemLifeCycle *)
Inductive MemLifeCycle := LcActive | LcFreezing | LcFrozen | LcFlushing | LcFlushed.

Definition MemLifeCycle_as_u8 (l : MemLifeCycle) : Z :=
  match l with LcActive => 1 | LcFreezing => 2 | LcFrozen => 3 | LcFlushing => 4 | LcFlushed => 5 end.

(* @src crates/engine/src/memtable/memtable.rs:38-48 MemLifeCycle::fmt *)
Definition MemLifeCycle_fmt (l : MemLifeCycle) : string :=
  match l with
  | LcActive => "Active" | LcFreezing => "Freezing" | LcFrozen => "Frozen"
  | LcFlushing => "Flushing" | LcFlushed => "Flushed"
  end.

(* @src crates/engine/src/memtable/memtable.rs:50-61 MemLifeCycle::from *)
Definition MemLifeCycle_from (value : Z) : outcome MemLifeCycle :=
  if decide (value = 1) then Done LcActive
  else if decide (value = 2) then Done LcFreezing
  else if decide (value = 3) then Done LcFrozen
  else if decide (value = 4) then Done LcFlushing
  else if decide (value = 5) then Done LcFlushed
  else Panic "Invalid MemLifeCycle value".

(* @src crates/engine/src/memtable/memtable.rs:63-83 MemtableState *)
Inductive MemtableState := StMutable | StImmutable | StFlushed.

(* @src crates/engine/src/memtable/memtable.rs:63-83 MemtableState::NAME *)
Definition MemtableState_NAME (s : MemtableState) : string :=
  match s with StMutable => "Mutable" | StImmutable => "Immutable" | StFlushed => "Flushed" end.

(** The store holds the arena and the nodes written in it. *)

(* @src crates/engine/src/memtable/memtable.rs:189-198 MemtableInner *)
Record MemtableInner := mkMemtable {
  mt_id : Z;
  highest_seqno : Z;
  mt_size : Z;
  requested_rotation : bool;
  lifecycle : Z;
  mt_store : SlStore;
  skiplist : SkipList
}.

Definition set_list (m : MemtableInner) (st : SlStore) (s : SkipList) : MemtableInner :=
  mkMemtable (mt_id m) (highest_seqno m) (mt_size m) (requested_rotation m) (lifecycle m) st s.

(** The nodes of the memtable. *)

Definition mt_nodes (m : MemtableInner) : nodes := st_nodes (mt_store m).

(* @src crates/engine/src/memtable/memtable.rs:211-220 MemtableInner::fmt *)
Definition MemtableInner_fmt (m : MemtableInner) : outcome string :=
  l ← MemLifeCycle_from (lifecycle m);
  Done ("{ lifecycle: " +:+ MemLifeCycle_fmt l +:+ " }").

(* @src crates/engine/src/memtable/memtable.rs:98-103 Memtable::fmt *)
Definition Memtable_fmt (s : MemtableState) (m : MemtableInner) : outcome string :=
  inner ← MemtableInner_fmt m;
  Done ("Memtable<" +:+ MemtableState_NAME s +:+ "> { " +:+ inner +:+ " } ").

Section Ops.
Context {C : Comparator}.

(* @src crates/engine/src/memtable/memtable.rs:223-240 MemtableInner::new *)
Definition MemtableInner_new (p : profile) (id : Z) (arena_size : ArenaPolicy) (allocator : Allocator)
  : outcome MemtableInner :=
  arena ← Arena_new p arena_size allocator;
  '(st, skiplist) ← SkipList_new p (mkStore arena ∅);
  Done (mkMemtable id 0 0 false (MemLifeCycle_as_u8 LcActive) st skiplist).

(* @src crates/engine/src/memtable/memtable.rs:138-148 Memtable::new *)
Definition Memtable_new := MemtableInner_new.

(** The entry a search has ended at. *)

(* @src crates/engine/src/memtable/memtable.rs:244-250 MemtableInner::first_ge *)
Definition entry_at (h : nodes) (t : TraversalCtx) : outcome (option (bytes * bytes)) :=
  node ← ctx_at (successors t) 0;
  match node with
  | Some node =>
      k ← Node_get_key_bytes h node;
      v ← Node_get_value_bytes h node;
      Done (Some (k, v))
  | None => Done None
  end.

(* @src crates/engine/src/memtable/memtable.rs:242-251 MemtableInner::first_ge *)
Definition first_ge (p : profile) (m : MemtableInner) (key : bytes) : outcome (option (bytes * bytes)) :=
  t ← search p (mt_nodes m) (skiplist m) key;
  entry_at (mt_nodes m) t.

(* @src crates/engine/src/memtable/memtable.rs:253-255 MemtableInner::insert *)
Definition MemtableInner_insert (p : profile) (m : MemtableInner) (key value : bytes) : outcome MemtableInner :=
  '(st, s, _) ← insert p (mt_store m) (skiplist m) key value;
  Done (set_list m st s).

(* @src crates/engine/src/memtable/memtable.rs:156-158 Memtable::insert *)
Definition Memtable_insert := MemtableInner_insert.

(** Copying bytes to an offset of the node. *)

Definition copy_to_node (st : SlStore) (node : arena_ptr) (off : Z) (bs : bytes) : outcome SlStore :=
  write_node st node (fun n => Node_key_ptr n + off) bs.

(** The closure of [insert_direct]: [encode_trailer(..).as_ptr()] points into
    a temporary that is dropped at the end of its statement, so the copy of
    the trailer reads through a dangling pointer. *)

(* @src crates/engine/src/memtable/memtable.rs:265-276 MemtableInner::insert_direct *)
Definition direct_writer (p : profile) (user_key : bytes) (seq_no : Z) (op_type : InternalKeyKind)
    (st : SlStore) (node_ptr : arena_ptr) : outcome SlStore :=
  st ← copy_to_node st node_ptr 0 user_key;
  _ ← encode_trailer p seq_no op_type;
  UB "read through a pointer to a dropped temporary".

(* @src crates/engine/src/memtable/memtable.rs:257-278 MemtableInner::insert_direct *)
Definition insert_direct (p : profile) (m : MemtableInner) (user_key : bytes) (seq_no : Z)
    (op_type : InternalKeyKind) (value : bytes) : outcome MemtableInner :=
  let user_key_len := len user_key in
  '(st, s, _) ← insert_with p (mt_store m) (skiplist m) (wrap 16 (user_key_len + 8)) value
                  (direct_writer p user_key seq_no op_type);
  Done (set_list m st s).

(** What a read makes of the entry it has found. *)

(* @src crates/engine/src/memtable/memtable.rs:162-181 Memtable::get *)
Definition get_entry (p : profile) (key : bytes) (r : option (bytes * bytes)) : outcome MemReturn :=
  match r with
  | Some (skip_key, v) =>
      sk ← InternalKeyRef_from p skip_key;
      lookup ← InternalKeyRef_from p key;
      if decide (user_key sk <> user_key lookup) then Done MNotFound
      else
        match InternalKeyKind_try_from (op sk) with
        | Err _ => Panic "memtable entry contains an invalid internal-key kind"
        | Ok KPut => Done (MValue v)
        | Ok KDelete => Done MDeleted
        | Ok KMerge => Done MMerge
        | Ok _ => Panic "internal error: entered unreachable code"
        end
  | None => Done MNotFound
  end.

(* @src crates/engine/src/memtable/memtable.rs:160-182 Memtable::get *)
Definition Memtable_get (p : profile) (m : MemtableInner) (key : bytes) : outcome MemReturn :=
  r ← first_ge p m key; get_entry p key r.

(** ** The iterator *)

(* @src crates/engine/src/memtable/memtable.rs:297-301 MemtableIterator *)
Record MemtableIterator := mkMemIter { mi_item : option arena_ptr; mi_current : option arena_ptr }.

(* @src crates/engine/src/memtable/memtable.rs:280-286 MemtableInner::iter *)
Definition MemtableInner_iter (p : profile) (m : MemtableInner) : outcome MemtableIterator :=
  item ← Node_load_next p (mt_nodes m) (SkipList_head (skiplist m)) 0;
  Done (mkMemIter item None).

(* @src crates/engine/src/memtable/memtable.rs:288-294 MemtableInner::iter_from *)
Definition MemtableInner_iter_from (p : profile) (m : MemtableInner) (key : bytes) : outcome MemtableIterator :=
  item ← search_node p (mt_nodes m) (skiplist m) key;
  Done (mkMemIter item None).

(* @src crates/engine/src/memtable/memtable.rs:311-313 MemtableIterator::valid *)
Definition mem_iter_valid (it : MemtableIterator) : bool :=
  match mi_current it with Some _ => true | None => false end.

(* @src crates/engine/src/memtable/memtable.rs:315-318 MemtableIterator::seek_to_first *)
Definition mem_iter_seek_to_first (p : profile) (m : MemtableInner) (it : MemtableIterator)
  : outcome MemtableIterator :=
  item ← Node_load_next p (mt_nodes m) (SkipList_head (skiplist m)) 0;
  Done (mkMemIter item item).

(* @src crates/engine/src/memtable/memtable.rs:320-323 MemtableIterator::seek *)
Definition mem_iter_seek (p : profile) (m : MemtableInner) (it : MemtableIterator) (key : bytes)
  : outcome MemtableIterator :=
  item ← search_node p (mt_nodes m) (skiplist m) key;
  Done (mkMemIter item item).

(* @src crates/engine/src/memtable/memtable.rs:325-331 MemtableIterator::next *)
Definition mem_iter_next (p : profile) (m : MemtableInner) (it : MemtableIterator)
  : outcome MemtableIterator :=
  match mi_current it with
  | Some curr => next ← Node_load_next p (mt_nodes m) curr 0; Done (mkMemIter (mi_item it) next)
  | None => Done (mkMemIter (mi_item it) None)
  end.

(* @src crates/engine/src/memtable/memtable.rs:333-337 MemtableIterator::key *)
Definition mem_iter_key (p : profile) (m : MemtableInner) (it : MemtableIterator) : outcome bytes :=
  _ ← debug_assert p (mem_iter_valid it) "self.valid()";
  match mi_current it with
  | Some curr => Node_get_key_bytes (mt_nodes m) curr
  | None => Panic "called Option::unwrap on a None value"
  end.

(* @src crates/engine/src/memtable/memtable.rs:339-343 MemtableIterator::value *)
Definition mem_iter_value (p : profile) (m : MemtableInner) (it : MemtableIterator) : outcome bytes :=
  _ ← debug_assert p (mem_iter_valid it) "self.valid()";
  match mi_current it with
  | Some curr => Node_get_value_bytes (mt_nodes m) curr
  | None => Panic "called Option::unwrap on a None value"
  end.

(* @src crates/engine/src/memtable/memtable.rs:303-308 MemtableIterator::internal_key *)
Definition mem_iter_internal_key (p : profile) (m : MemtableInner) (it : MemtableIterator)
  : outcome (option InternalKeyRef) :=
  match mi_current it with
  | Some curr => k ← Node_get_key_bytes (mt_nodes m) curr; r ← InternalKeyRef_from p k; Done (Some r)
  | None => Done None
  end.

(** How a reader uses the iterator: while it is valid, take the entry and
    advance. *)

Fixpoint mem_iter_scan (fuel : nat) (p : profile) (m : MemtableInner) (it : MemtableIterator)
  : outcome (list (bytes * bytes)) :=
  match fuel with
  | O => NoFuel
  | S fuel =>
      if mem_iter_valid it then
        k ← mem_iter_key p m it;
        v ← mem_iter_value p m it;
        it ← mem_iter_next p m it;
        rest ← mem_iter_scan fuel p m it;
        Done ((k, v) :: rest)
      else Done []
  end.

(** Advancing [n] times. *)

Fixpoint mem_iter_nexts (n : nat) (p : profile) (m : MemtableInner) (it : MemtableIterator) : outcome MemtableIterator :=
  match n with
  | O => Done it
  | S n => it ← mem_iter_next p m it; mem_iter_nexts n p m it
  end.

End Ops.

(** ** Contents of a memtable over internal keys *)

#[local] Existing Instance InternalKeyComparator.

Abbreviation irepr := (repr (CO := InternalKeyComparatorOk)).

Definition mem_repr (m : MemtableInner) (kvs : list (bytes * bytes)) : Prop :=
  irepr (mt_store m) (skiplist m) kvs.

(** A versioned entry. *)

Record entry := mkEntry { e_user : bytes; e_seq : Z; e_kind : InternalKeyKind; e_value : bytes }.

Definition e_key (e : entry) : bytes := enc (e_user e) (e_seq e) (e_kind e).
Definition e_kv (e : entry) : bytes * bytes := (e_key e, e_value e).

(** Entries a batch can apply: a point kind, sizes within their fields. *)

Definition entry_ok (e : entry) : Prop :=
  seq_ok (e_seq e) /\ (e_kind e = KPut \/ e_kind e = KDelete \/ e_kind e = KMerge) /\
  len (e_user e) + 8 <= u_max 16 /\ in_width 32 (len (e_value e)).

Definition e_return (e : entry) : MemReturn :=
  match e_kind e with KPut => MValue (e_value e) | KDelete => MDeleted | _ => MMerge end.

Fixpoint Memtable_inserts (p : profile) (m : MemtableInner) (es : list entry) : outcome MemtableInner :=
  match es with
  | [] => Done m
  | e :: es => m ← Memtable_insert p m (e_key e) (e_value e); Memtable_inserts p m es
  end.

Lemma e_kv_ok e : entry_ok e -> kv_ok (valid := ikey_valid) (e_kv e).
Proof.
  intros (Hs & _ & Hl & Hv). unfold kv_ok, e_kv, e_key. cbn [fst snd].
  split; [apply enc_valid|]. split; [|done]. rewrite len_enc. pose proof (len_nonneg (e_user e)).
  unfold u_max in Hl. split; lia.
Qed.

Lemma Memtable_inserts_refine p es : forall m kvs m',
  mem_repr m kvs -> Forall entry_ok es -> Memtable_inserts p m es = Done m' ->
  mem_repr m' (foldl (spec_put (CO := InternalKeyComparatorOk)) kvs (e_kv <$> es)).
Proof.
  induction es as [|e es IH]; intros m kvs m' H Hok E; cbn [Memtable_inserts] in E; [by simplify_eq|].
  apply Forall_cons in Hok as [He Hok]. apply bind_done in E as (m1 & E1 & E2).
  unfold Memtable_insert, MemtableInner_insert in E1. apply bind_done in E1 as ([[st s] q] & E1 & E3).
  injection E3 as <-. rewrite fmap_cons. cbn [foldl]. eapply IH; [|done|exact E2].
  unfold mem_repr. cbn [mt_store skiplist set_list]. eapply insert_refines; [exact H|by apply e_kv_ok|exact E1].
Qed.

Lemma elem_of_spec_insert k v kvs kv :
  kv ∈ spec_insert (CO := InternalKeyComparatorOk) k v kvs <-> kv = (k, v) \/ kv ∈ kvs.
Proof.
  unfold spec_insert. rewrite elem_of_app, elem_of_cons, !list_elem_of_filter. split; [tauto|].
  intros [->|H]; [tauto|]. destruct (decide (kv_below (CO := InternalKeyComparatorOk) k kv)); tauto.
Qed.

(** What a run of insertions leaves: only entries inserted, and a value for
    every key inserted. *)

Lemma foldl_spec_put_elem kvs : forall m kv,
  kv ∈ foldl (spec_put (CO := InternalKeyComparatorOk)) m kvs -> kv ∈ m \/ kv ∈ kvs.
Proof.
  induction kvs as [|kv0 kvs IH]; intros m kv H; simpl in H; [by left|].
  apply IH in H as [H|H]; [|right; by right]. unfold spec_put in H. case_decide; [by left|].
  apply elem_of_spec_insert in H as [->|H]; [right; destruct kv0; left|by left].
Qed.

Lemma foldl_spec_put_keys kvs : forall m k,
  k ∈ m.*1 \/ k ∈ kvs.*1 -> k ∈ (foldl (spec_put (CO := InternalKeyComparatorOk)) m kvs).*1.
Proof.
  induction kvs as [|kv0 kvs IH]; intros m k H; simpl.
  - destruct H as [H|H]; [done|]. by apply not_elem_of_nil in H.
  - apply IH. rewrite fmap_cons, elem_of_cons in H.
    assert (Hm : k ∈ m.*1 -> k ∈ (spec_put (CO := InternalKeyComparatorOk) m kv0).*1).
    { intros (kv & -> & Hkv)%list_elem_of_fmap. unfold spec_put. case_decide; apply list_elem_of_fmap; exists kv;
        (split; [done|]); [done|]. apply elem_of_spec_insert. by right. }
    destruct H as [H|[->|H]]; [left; by apply Hm| |by right].
    left. unfold spec_put. case_decide; [done|]. apply list_elem_of_fmap. exists kv0. split; [done|].
    apply elem_of_spec_insert. left. by destruct kv0.
Qed.

(** ** Point reads *)

(** [r] is the first of [kvs] at or after [k]. *)

Definition least_from (kvs : list (bytes * bytes)) (k : bytes) (r : option (bytes * bytes)) : Prop :=
  match r with
  | Some kv => kv ∈ kvs /\ ikey_cmp kv.1 k <> Lt /\
      forall kv', kv' ∈ kvs -> ikey_cmp kv'.1 k <> Lt -> kv'.1 = kv.1 \/ ikey_cmp kv.1 kv'.1 = Lt
  | None => forall kv, kv ∈ kvs -> ikey_cmp kv.1 k = Lt
  end.

Lemma first_ge_done p m kvs k :
  mem_repr m kvs -> ikey_valid k -> exists r, first_ge p m k = Done r /\ least_from kvs k r.
Proof.
  intros (L & H & <-) Hk. unfold first_ge, entry_at, mt_nodes.
  destruct (search_outcome (CO := InternalKeyComparatorOk) p _ _ L k H Hk) as (t & succ & Et & Es & _ & Hsucc).
  unfold search_node in Es. rewrite Et in Es |- *. cbn [mbind outcome_bind] in Es |- *. rewrite Es.
  cbn [mbind outcome_bind].
  assert (Hel : forall kv, kv ∈ contents (st_nodes (mt_store m)) L ->
    exists q, q ∈ L /\ kv = (key_of (st_nodes (mt_store m)) q, value_of (st_nodes (mt_store m)) q)).
  { intros kv (q & -> & Hq)%list_elem_of_fmap. eauto. }
  destruct succ as [q|].
  - destruct Hsucc as (Hq & Hge & Hmin). pose proof (si_nodes _ _ _ H) as Hn. rewrite Forall_forall in Hn.
    destruct (Hn q Hq) as (Hr & _). rewrite get_key_bytes_done by done. cbn [mbind outcome_bind].
    rewrite get_value_bytes_done by done. cbn [mbind outcome_bind]. eexists. split; [done|].
    cbn [fst snd]. split; [apply list_elem_of_fmap; eauto|]. split; [exact Hge|].
    intros kv' Hkv' Hge'. destruct (Hel kv' Hkv') as (q' & Hq' & ->). cbn [fst] in *.
    destruct (Hmin q' Hq' Hge') as [->|Hlt]; [by left|by right].
  - exists None. split; [done|]. intros kv Hkv. destruct (Hel kv Hkv) as (q & Hq & ->). by apply Hsucc.
Qed.

Definition point_kind (k : InternalKeyKind) : Prop := k = KPut \/ k = KDelete \/ k = KMerge.

(** How an entry compares with the lookup key of a snapshot. *)

Lemma lookup_cmp e u q :
  entry_ok e -> seq_ok q ->
  ikey_cmp (e_key e) (enc u q KMax) =
  match bytes_cmp (e_user e) u with
  | Eq => if decide (e_seq e <= q) then Gt else Lt
  | c => c
  end.
Proof.
  intros (Hs & Hk & _) Hq. unfold e_key. rewrite ikey_cmp_enc by done.
  destruct (bytes_cmp (e_user e) u); try done. unfold newer_first. case_decide.
  - destruct (Z.compare_spec q (e_seq e)); try lia; [|done].
    by destruct Hk as [-> | [-> | ->]].
  - destruct (Z.compare_spec q (e_seq e)); try lia. done.
Qed.

(** The first entry at or after the lookup key of [u] at [q] is the newest
    visible version of [u], if there is one. *)

Lemma first_is_newest es e u q :
  Forall entry_ok es -> seq_ok q -> e ∈ es ->
  ikey_cmp (e_key e) (enc u q KMax) <> Lt ->
  (forall e', e' ∈ es -> ikey_cmp (e_key e') (enc u q KMax) <> Lt ->
     e_key e' = e_key e \/ ikey_cmp (e_key e) (e_key e') = Lt) ->
  if decide (e_user e = u)
  then e_seq e <= q /\
    forall e', e' ∈ es -> e_user e' = u -> e_seq e' <= q ->
      newer_first (e_seq e) (e_kind e) (e_seq e') (e_kind e') <> Gt
  else forall e', e' ∈ es -> e_user e' = u -> q < e_seq e'.
Proof.
  intros Hok Hq He Hge Hmin. rewrite Forall_forall in Hok. pose proof (Hok e He) as Heok.
  rewrite lookup_cmp in Hge by done.
  assert (Hvis : forall e', e' ∈ es -> e_user e' = u -> e_seq e' <= q ->
    e_key e' = e_key e \/ ikey_cmp (e_key e) (e_key e') = Lt).
  { intros e' He' Hu Hs. apply Hmin; [done|]. rewrite lookup_cmp by auto. rewrite Hu, bytes_cmp_refl.
    by rewrite decide_True. }
  assert (Hinj : forall e', e' ∈ es -> e_key e' = e_key e -> e_user e' = e_user e /\ e_seq e' = e_seq e /\ e_kind e' = e_kind e).
  { intros e' He' E. apply enc_inj in E; [done| |apply Heok]. by apply (Hok e' He'). }
  destruct (decide (e_user e = u)) as [Hu|Hu].
  - subst u. rewrite bytes_cmp_refl in Hge. case_decide as Hs; [|done]. split; [done|].
    intros e' He' Hu' Hs'. destruct (Hvis e' He' Hu' Hs') as [E|Hlt].
    + destruct (Hinj e' He' E) as (_ & -> & ->). unfold newer_first. by rewrite !Z.compare_refl.
    + unfold e_key in Hlt. rewrite ikey_cmp_enc in Hlt; [|apply Heok|apply (Hok e' He')].
      rewrite Hu', bytes_cmp_refl in Hlt. congruence.
  - intros e' He' Hu'. destruct (Z.lt_ge_cases q (e_seq e')) as [|Hs']; [done|]. exfalso. apply Hu.
    destruct (Hvis e' He' Hu' Hs') as [E|Hlt].
    + destruct (Hinj e' He' E) as (Eu & _). congruence.
    + unfold e_key in Hlt. rewrite ikey_cmp_enc in Hlt; [|apply Heok|apply (Hok e' He')].
      rewrite Hu' in Hlt. apply bytes_cmp_eq. destruct (bytes_cmp (e_user e) u); try done.
Qed.

Lemma Memtable_new_done p id pol m :
  Memtable_new p id pol AllocSystem = Done m -> policy_ok pol -> mem_repr m [] /\ lifecycle m = 1.
Proof.
  intros E Hpol. unfold Memtable_new, MemtableInner_new in E.
  apply bind_done in E as (a & Ea & E). apply bind_done in E as ([st s] & Es & E). injection E as <-.
  split; [|done]. assert (Ha : arena_ok a).
  { pose proof Hpol as ([Hb1 Hb2] & Hmod & Hcap). unfold Arena_new in Ea.
    do 4 (apply bind_done in Ea as ([] & _ & Ea)).
    apply bind_done in Ea as (heap & Eh & Ea). injection Eh as <-. injection Ea as <-.
    constructor; cbn [policy chunks current_chunk allocated_bytes allocator]; try done.
    - constructor; [apply new_chunk_ok; lia|constructor].
    - simpl. lia.
    - change (len [_]) with 1. lia. }
  pose proof (SkipList_new_done (CO := InternalKeyComparatorOk) p a Ha) as Hn.
  destruct (Arena_alloc_raw p a _) as [[a' ptr]| | |]; try by rewrite Es in Hn.
  destruct Hn as [En Hinv]. rewrite En in Es. injection Es as <- <-. by exists [].
Qed.

(** The decoded form of a stored key. *)

Lemma entry_kind_return e :
  entry_ok e ->
  (match InternalKeyKind_try_from (InternalKeyKind_as_u8 (e_kind e)) with
   | Err _ => Panic "memtable entry contains an invalid internal-key kind"
   | Ok KPut => Done (MValue (e_value e))
   | Ok KDelete => Done MDeleted
   | Ok KMerge => Done MMerge
   | Ok _ => Panic "internal error: entered unreachable code"
   end) = Done (e_return e).
Proof. intros (_ & Hk & _). unfold e_return. by destruct Hk as [-> | [-> | ->]]. Qed.

(** What a read of [u] at snapshot [q] may answer when [es] were inserted: the
    newest entry of [u] that the snapshot sees, or that there is none. *)

Definition answers (es : list entry) (u : bytes) (q : Z) (r : MemReturn) : Prop :=
  match r with
  | MNotFound => forall e, e ∈ es -> e_user e = u -> q < e_seq e
  | _ => exists e, e ∈ es /\ e_user e = u /\ e_seq e <= q /\ r = e_return e /\
      forall e', e' ∈ es -> e_user e' = u -> e_seq e' <= q ->
        newer_first (e_seq e) (e_kind e) (e_seq e') (e_kind e') <> Gt
  end.

Lemma get_entry_answers p kvs es u q r :
  least_from kvs (enc u q KMax) r -> Forall entry_ok es -> seq_ok q ->
  (forall kv, kv ∈ kvs -> exists e, e ∈ es /\ kv = e_kv e) ->
  (forall e, e ∈ es -> exists kv, kv ∈ kvs /\ kv.1 = e_key e) ->
  exists a, get_entry p (enc u q KMax) r = Done a /\ answers es u q a.
Proof.
  intros Hr Hok Hq Hfrom Hkeys. pose proof Hok as Hok'. rewrite Forall_forall in Hok'.
  destruct r as [kv|]; cbn [get_entry].
  - destruct Hr as (Hkv & Hge & Hmin). destruct (Hfrom kv Hkv) as (e & He & ->). cbn [e_kv fst] in *.
    pose proof (Hok' e He) as Heok. unfold e_key at 1. rewrite (InternalKeyRef_from_enc p (e_user e)) by apply Heok.
    cbn [mbind outcome_bind]. rewrite InternalKeyRef_from_enc by done. cbn [mbind outcome_bind user_key op].
    assert (Hmin' : forall e', e' ∈ es -> ikey_cmp (e_key e') (enc u q KMax) <> Lt ->
      e_key e' = e_key e \/ ikey_cmp (e_key e) (e_key e') = Lt).
    { intros e' He' Hge'. destruct (Hkeys e' He') as (kv' & Hkv' & E). rewrite <- E in Hge' |- *. auto. }
    pose proof (first_is_newest es e u q Hok Hq He Hge Hmin') as Hnew.
    destruct (decide (e_user e = u)) as [Hu|Hu].
    + rewrite decide_False by tauto. destruct Hnew as [Hs Hbest].
      exists (e_return e). split; [by apply entry_kind_return|].
      assert (Hex : exists e0, e0 ∈ es /\ e_user e0 = u /\ e_seq e0 <= q /\ e_return e = e_return e0 /\
        forall e', e' ∈ es -> e_user e' = u -> e_seq e' <= q ->
          newer_first (e_seq e0) (e_kind e0) (e_seq e') (e_kind e') <> Gt) by (exists e; auto).
      unfold answers, e_return in *. by destruct (e_kind e).
    + rewrite decide_True by done. by exists MNotFound.
  - exists MNotFound. split; [done|]. intros e He Hu. destruct (Hkeys e He) as (kv & Hkv & E).
    specialize (Hr kv Hkv). rewrite E, lookup_cmp in Hr by auto. rewrite Hu, bytes_cmp_refl in Hr.
    case_decide; [done|lia].
Qed.

Lemma get_answers p m kvs es u q :
  mem_repr m kvs -> Forall entry_ok es -> seq_ok q ->
  (forall kv, kv ∈ kvs -> exists e, e ∈ es /\ kv = e_kv e) ->
  (forall e, e ∈ es -> exists kv, kv ∈ kvs /\ kv.1 = e_key e) ->
  exists r, Memtable_get p m (enc u q KMax) = Done r /\ answers es u q r.
Proof.
  intros H Hok Hq Hfrom Hkeys. destruct (first_ge_done p m kvs (enc u q KMax) H (enc_valid _ _ _)) as (r & Er & Hr).
  unfold Memtable_get. rewrite Er. by apply (get_entry_answers p kvs).
Qed.

(** C1: reading a key at a snapshot returns the newest entry of that key, among
    all those inserted in any order, whose sequence number does not exceed the
    snapshot: its value, or the deletion or merge it records; and it reports
    the key missing exactly when every entry of the key is newer.  The read
    never panics on a memtable filled with point entries. *)
Theorem memtable_get_newest p id pol es m0 m u q :
  policy_ok pol -> Memtable_new p id pol AllocSystem = Done m0 -> Forall entry_ok es ->
  Memtable_inserts p m0 es = Done m -> seq_ok q ->
  exists r, Memtable_get p m (enc u q KMax) = Done r /\ answers es u q r.
Proof.
  intros Hpol Enew Hok Eins Hq. destruct (Memtable_new_done p id pol m0 Enew Hpol) as [H0 _].
  apply (get_answers p m _ es u q (Memtable_inserts_refine p es m0 [] m H0 Hok Eins) Hok Hq).
  - intros kv Hkv. apply foldl_spec_put_elem in Hkv as [Hkv|Hkv]; [by apply not_elem_of_nil in Hkv|].
    apply list_elem_of_fmap in Hkv as (e & -> & He). eauto.
  - intros e He. assert (Hk : e_key e ∈ (foldl (spec_put (CO := InternalKeyComparatorOk)) [] (e_kv <$> es)).*1).
    { apply foldl_spec_put_keys. right. rewrite <- list_fmap_compose. apply list_elem_of_fmap. by exists e. }
    apply list_elem_of_fmap in Hk as (kv & -> & Hkv). eauto.
Qed.

Lemma memtable_scan_from p m : forall L q0 item fuel,
  towers_ok (mt_nodes m) -> Forall (readable (mt_nodes m)) L -> chain (mt_nodes m) 0 q0 L ->
  (length L < fuel)%nat ->
  mem_iter_scan fuel p m (mkMemIter item (head L)) = Done (contents (mt_nodes m) L).
Proof.
  induction L as [|q L IH]; intros q0 item [|fuel] Ht Hr Hc Hf; simpl in Hf; try lia; [done|].
  apply Forall_cons in Hr as [Hq Hr]. destruct Hc as [_ Hc].
  cbn [mem_iter_scan head]. unfold mem_iter_key, mem_iter_value, mem_iter_next.
  cbn [mem_iter_valid mi_current mi_item]. rewrite !debug_assert_true by done. cbn [mbind outcome_bind].
  rewrite get_key_bytes_done, get_value_bytes_done by done. cbn [mbind outcome_bind].
  rewrite (load_next_done _ _ _ _ (head L)); [|done|unfold MAX_HEAD_HEIGHT; lia|by apply chain_nxt].
  cbn [mbind outcome_bind]. by rewrite (IH q) by (done || lia).
Qed.

(** An iterator at no entry. *)

Definition mem_iter_unusable (p : profile) (m : MemtableInner) (o : outcome MemtableIterator) : Prop :=
  exists it, o = Done it /\ mem_iter_valid it = false /\
    (exists why, mem_iter_key p m it = Panic why) /\ (exists why, mem_iter_value p m it = Panic why).

Lemma mem_iter_at_end p m item n : mem_iter_unusable p m (mem_iter_nexts n p m (mkMemIter item None)).
Proof.
  induction n as [|n IH]; [|exact IH]. exists (mkMemIter item None). split; [done|]. split; [done|].
  by split; destruct p; eexists.
Qed.

Lemma mem_iter_passes p m : forall L q0 item n,
  towers_ok (mt_nodes m) -> chain (mt_nodes m) 0 q0 L -> (length L <= n)%nat ->
  mem_iter_nexts n p m (mkMemIter item (head L)) = mem_iter_nexts (n - length L) p m (mkMemIter item None).
Proof.
  induction L as [|q L IH]; intros q0 item n Ht Hc Hn; [by rewrite Nat.sub_0_r|].
  destruct n as [|n]; [cbn in Hn; lia|]. destruct Hc as [_ Hc]. cbn [mem_iter_nexts head length]. unfold mem_iter_next at 1. cbn [mi_current mi_item].
  rewrite (load_next_done _ _ _ _ (head L)); [|done|unfold MAX_HEAD_HEIGHT; lia|by apply chain_nxt].
  cbn [mbind outcome_bind]. rewrite (IH q) by (done || (cbn in Hn; lia)). done.
Qed.

(** C30: an iterator positioned at the first entry scans all entries in the
    comparator's order, one positioned by [seek] scans exactly those not below
    the key sought, both terminate without panicking; an iterator that has not
    been positioned is invalid and stays invalid however often it is advanced,
    as is one that has been advanced past the last entry, and neither yields a
    key or a value: asking for one panics. *)
Theorem memtable_scan p m kvs k it :
  mem_repr m kvs -> ikey_valid k ->
  (it ← mem_iter_seek_to_first p m it; mem_iter_scan (S (length kvs)) p m it) = Done kvs /\
  (it ← mem_iter_seek p m it k; mem_iter_scan (S (length kvs)) p m it) =
    Done (filter (fun kv => ikey_cmp kv.1 k <> Lt) kvs) /\
  exists it0, MemtableInner_iter p m = Done it0 /\
    (forall n, mem_iter_unusable p m (mem_iter_nexts n p m it0)) /\
    (forall n, (length kvs <= n)%nat -> mem_iter_unusable p m (it ← mem_iter_seek_to_first p m it; mem_iter_nexts n p m it)).
Proof.
  intros (L & H & <-) Hk. pose proof (sl_inv_searchable _ _ _ H) as Hse.
  pose proof (chain_0 _ _ _ Hse) as Hc. fold (mt_nodes m) in *.
  assert (Hr : Forall (readable (mt_nodes m)) L).
  { eapply Forall_impl; [apply Hse|]. by intros q (? & _). }
  assert (Hlen : length (contents (mt_nodes m) L) = length L) by (unfold contents; by rewrite length_fmap).
  assert (Hfirst : Node_load_next p (mt_nodes m) (SkipList_head (skiplist m)) 0 = Done (head L)).
  { apply load_next_done; [apply Hse|unfold MAX_HEAD_HEIGHT; lia|by apply chain_nxt]. }
  rewrite Hlen. split; [|split].
  - unfold mem_iter_seek_to_first. rewrite Hfirst. cbn [mbind outcome_bind].
    eapply memtable_scan_from; [apply Hse|done|exact Hc|lia].
  - unfold mem_iter_seek, search_node.
    destruct (search_spec p (mt_nodes m) (skiplist m) k L Hse Hk) as (t & Et & Hctx).
    rewrite Et. cbn [mbind outcome_bind]. rewrite (ctx_succ_0 (mt_nodes m) (skiplist m) k L) by done.
    cbn [mbind outcome_bind].
    rewrite (lo_hi (mt_nodes m) k L Hk (se_valid _ _ _ Hse) (se_sorted _ _ _ Hse)) in Hc.
    rewrite (memtable_scan_from p m (hi (mt_nodes m) k L) (last_or (sl_sentinel (skiplist m)) (lo (mt_nodes m) k L)));
      [by rewrite contents_hi|apply Hse| |by apply chain_last| ].
    + apply Forall_forall. intros q Hq%hi_sub. rewrite Forall_forall in Hr. auto.
    + apply Nat.lt_succ_r. apply length_filter.
  - unfold MemtableInner_iter. rewrite Hfirst. cbn [mbind outcome_bind].
    exists (mkMemIter (head L) None). split; [done|]. split.
    + intros n. by apply mem_iter_at_end.
    + intros n Hn. unfold mem_iter_seek_to_first. rewrite Hfirst. cbn [mbind outcome_bind].
      rewrite (mem_iter_passes p m L (sl_sentinel (skiplist m)) (head L) n); [by apply mem_iter_at_end|apply Hse|exact Hc|lia].
Qed.

(** The direct insertion path never completes: once the node is allocated
    and the user key copied, it reads the trailer through a pointer into a
    temporary that no longer exists. *)
Theorem insert_direct_never_returns p m user_key seq op value :
  is_done (insert_direct p m user_key seq op value) = false.
Proof.
  unfold insert_direct, insert_with.
  destruct (new_node p (mt_store m) (skiplist m) _ _) as [[[[st s] node] height]| | |]; try done.
  cbn [mbind outcome_bind]. unfold direct_writer.
  destruct (copy_to_node st node 0 user_key); [|done..]. cbn [mbind outcome_bind].
  by destruct (encode_trailer p seq op).
Qed.

(** A key longer than what the node was allocated for. *)

Lemma write_key_past a h node height key kl vl :
  0 <= kl + vl < len key -> h !! node = Some (Node_init_node height kl vl) ->
  write_node (mkStore a h) node Node_key_ptr key = UB "write past the node's allocation".
Proof.
  intros Hl Hn. unfold write_node, deref. cbn [st_nodes]. rewrite Hn. cbn [mbind outcome_bind].
  unfold node_write. rewrite Z.sub_diag. cbn [n_payload Node_init_node].
  rewrite len_replicate, decide_False by lia. done.
Qed.

(** The node's key-length field has 16 bits while the key it stores is the
    user key plus an 8-byte trailer, so an absent user key of 65528 to 65535
    bytes, within the documented limit, is copied past the end of the node
    allocated for it. *)
Theorem memtable_long_key p m kvs u s op v a' q :
  mem_repr m kvs -> seq_ok s -> MAX_USER_KEY_BYTES - 8 < len u <= MAX_USER_KEY_BYTES ->
  len v < 2 ^ 16 -> enc u s op ∉ kvs.*1 ->
  Arena_alloc_raw p (st_arena (mt_store m)) (node_layout (next_height (skiplist m)) (len u + 8 - 2 ^ 16) (len v))
    = Done (a', q) ->
  Memtable_insert p m (enc u s op) v = UB "write past the node's allocation".
Proof.
  intros (L & H & <-) Hs Hu Hv Habs Hal. pose proof (enc_valid u s op) as Hval.
  change (MAX_USER_KEY_BYTES) with 65535 in Hu. pose proof (len_nonneg v).
  assert (Hw16 : wrap 16 (len (enc u s op)) = len u + 8 - 2 ^ 16).
  { rewrite len_enc. unfold wrap. Z.to_euclidean_division_equations. lia. }
  assert (Hw32 : wrap 32 (len v) = len v) by (apply wrap_small; split; lia).
  assert (E : insert p (mt_store m) (skiplist m) (enc u s op) v = UB "write past the node's allocation").
  { unfold insert. destruct (search_spec p (st_nodes (mt_store m)) (skiplist m) (enc u s op) L) as (t & Et & [Hf _]);
      [by apply sl_inv_searchable|done|]. rewrite Et. cbn [mbind outcome_bind]. rewrite Hf.
    rewrite (proj2 (exact_None_keys (mt_store m) (skiplist m) L (enc u s op) H Hval) Habs).
    assert (En : new_node p (mt_store m) (skiplist m) (len (enc u s op)) (len v) =
                 new_node p (mt_store m) (skiplist m) (len u + 8 - 2 ^ 16) (len v)).
    { unfold new_node. rewrite Hw16. rewrite (wrap_small 16 (len u + 8 - 2 ^ 16)); [done|]. split; lia. }
    rewrite En. pose proof (new_node_done p (mt_store m) (skiplist m) L (len u + 8 - 2 ^ 16) (len v) H) as Hn.
    unfold alloc_for in Hn. rewrite Hal in Hn. destruct Hn as (-> & _ & _); [split; lia|split; lia|].
    cbn [mbind outcome_bind]. rewrite (write_key_past _ _ q (next_height (skiplist m)) _ (len u + 8 - 2 ^ 16) (len v));
      [done| |by rewrite lookup_insert_eq]. rewrite len_enc. lia. }
  unfold Memtable_insert, MemtableInner_insert. by rewrite E.
Qed.

(** ** Witnesses *)

Definition demo_entries : list entry :=
  [mkEntry [107] 3 KPut [30]; mkEntry [107] 4 KDelete []; mkEntry [107] 2 KPut [20]; mkEntry [108] 9 KPut [9]].

Definition demo_mem (es : list entry) : MemtableInner :=
  match (m ← Memtable_new Debug 7 demo_policy AllocSystem; Memtable_inserts Debug m es) with
  | Done m => m
  | _ => mkMemtable 0 0 0 false 1 (mkStore demo_arena ∅) (Data_default (0%nat, 0))
  end.

Lemma demo_policy_ok : policy_ok demo_policy.
Proof. unfold policy_ok. cbn. split_and!; vm_compute; congruence. Qed.

Lemma demo_entries_ok : Forall entry_ok demo_entries.
Proof.
  repeat constructor; vm_compute; try congruence; tauto.
Qed.

Lemma demo_mem_repr : mem_repr (demo_mem []) [].
Proof. apply (Memtable_new_done Debug 7 demo_policy); [vm_compute; reflexivity|exact demo_policy_ok]. Qed.

Lemma memtable_get_newest_witness :
  exists r, Memtable_get Debug (demo_mem demo_entries) (enc [107] 3 KMax) = Done r /\ answers demo_entries [107] 3 r.
Proof.
  apply (memtable_get_newest Debug 7 demo_policy demo_entries (demo_mem []) (demo_mem demo_entries) [107] 3);
    [exact demo_policy_ok | vm_compute; reflexivity | exact demo_entries_ok | vm_compute; reflexivity |
     split; vm_compute; congruence].
Defined.

(** The entries of [demo_entries] as they are stored. *)

Definition demo_kvs : list (bytes * bytes) :=
  [(enc [107] 4 KDelete, []); (enc [107] 3 KPut, [30]); (enc [107] 2 KPut, [20]); (enc [108] 9 KPut, [9])].

Lemma demo_entries_repr : mem_repr (demo_mem demo_entries) demo_kvs.
Proof.
  pose proof (Memtable_inserts_refine Debug demo_entries (demo_mem []) [] (demo_mem demo_entries) demo_mem_repr demo_entries_ok) as H.
  change demo_kvs with (foldl (spec_put (CO := InternalKeyComparatorOk)) [] (e_kv <$> demo_entries)). apply H. vm_compute. reflexivity.
Qed.

Lemma memtable_scan_witness :
  (it ← mem_iter_seek_to_first Debug (demo_mem demo_entries) (mkMemIter None None);
   mem_iter_scan 5 Debug (demo_mem demo_entries) it) = Done demo_kvs /\
  (it ← mem_iter_seek Debug (demo_mem demo_entries) (mkMemIter None None) (enc [107] 2 KMax);
   mem_iter_scan 5 Debug (demo_mem demo_entries) it) = Done [(enc [107] 2 KPut, [20]); (enc [108] 9 KPut, [9])] /\
  exists it0, MemtableInner_iter Debug (demo_mem demo_entries) = Done it0 /\
    mem_iter_unusable Debug (demo_mem demo_entries) (mem_iter_nexts 3 Debug (demo_mem demo_entries) it0).
Proof.
  destruct (memtable_scan Debug (demo_mem demo_entries) demo_kvs (enc [107] 2 KMax) (mkMemIter None None) demo_entries_repr (enc_valid _ _ _))
    as (Hall & Hfrom & it0 & Ei & Hn & _).
  split; [exact Hall|]. split; [|exists it0; exact (conj Ei (Hn 3%nat))].
  etransitivity; [exact Hfrom|vm_compute; reflexivity].
Defined.

Definition long_user_key : bytes := replicate (Z.to_nat 65530) 7.

Lemma memtable_long_key_witness :
  Memtable_insert Debug (demo_mem []) (enc long_user_key 1 KPut) [5] = UB "write past the node's allocation".
Proof.
  destruct (Arena_alloc_raw Debug (st_arena (mt_store (demo_mem [])))
    (node_layout (next_height (skiplist (demo_mem []))) (len long_user_key + 8 - 2 ^ 16) (len [5])))
    as [[a' q]| | |] eqn:E; [|vm_compute in E; discriminate E..].
  apply (memtable_long_key Debug (demo_mem []) [] long_user_key 1 KPut [5] a' q demo_mem_repr).
  - split; vm_compute; congruence.
  - split; vm_compute; congruence.
  - reflexivity.
  - apply not_elem_of_nil.
  - exact E.
Defined.
