(* ===== verification/MemtableThreads.v ===== *)
(** * MemtableThreads: many writers, then a read

    Composes [Memtable], [SkipListThreads] and [SkipListProgress]: threads
    insert versioned entries into one memtable at once, and a point read
    follows.  [Memtable::insert] ([memtable/memtable.rs]) is the insertion into
    the memtable's skip list, so a writer is an inserting thread of
    [SkipListThreads] over encoded internal keys. *)

From Stdlib Require Import Sorted.
From S2P Require Import Prelude Key Arena SkipList SkipListSpec SkipListThreads SkipListProgress SkipListReads Memtable.
Local Open Scope Z_scope.

#[local] Existing Instance InternalKeyComparator.

#[local] Abbreviation run := (run_ok (CO := InternalKeyComparatorOk)).

(** One writer for each entry, numbered in the entries' order. *)

Definition writer (m : MemtableInner) (e : entry) : thread := Inserter (e_key e) (e_value e) (first_pc (skiplist m)).

Definition writers (m : MemtableInner) (es : list entry) : gmap nat thread := map_seq 0 (writer m <$> es).

Lemma writers_lookup m es i : writers m es !! i = writer m <$> es !! i.
Proof. unfold writers. by rewrite lookup_map_seq_0, list_lookup_fmap. Qed.

Lemma writers_size m es : size (writers m es) = length es.
Proof.
  unfold writers. rewrite <- (length_fmap (writer m) es). generalize (writer m <$> es). clear es. intros l.
  induction l as [|th l IH] using rev_ind; [done|]. rewrite map_seq_snoc, map_size_insert_None, length_app, IH.
  - cbn. lia.
  - apply lookup_map_seq_None. right. lia.
Qed.

Lemma writers_start m es : Forall entry_ok es ->
  map_Forall (fun _ => starts (valid := ikey_valid) (skiplist m)) (writers m es).
Proof.
  intros Hok i th Et. rewrite writers_lookup in Et. apply fmap_Some in Et as (e & He & ->). split; [|done].
  rewrite Forall_forall in Hok. apply (e_kv_ok e). apply Hok. by eapply list_elem_of_lookup_2.
Qed.

(** The memtable as the threads have left it. *)

Definition memtable_at (m : MemtableInner) (x : ist) : MemtableInner := set_list m (is_store x) (is_list x).

Definition refused (th : thread) : bool := match th with Inserter _ _ IPanicked => true | _ => false end.

(** Each thread of a run works for its entry. *)

Section Run.
Context {m : MemtableInner} {es : list entry} {x : ist} {Ls : nat -> list arena_ptr}.
Context (Hok : Forall entry_ok es) (H : run [] (mt_nodes m) (writers m es) x Ls).

Lemma job_writer i th : is_threads x !! i = Some th -> exists e, es !! i = Some e /\ job th = Some (e_kv e).
Proof using H.
  intros Et. pose proof (f_equal (fun f => f !! i) (ro_jobs _ _ _ _ _ H)) as Hj. cbv beta in Hj.
  rewrite !lookup_fmap, Et, writers_lookup in Hj. destruct (es !! i) as [e|]; [|done]. exists e. cbn in Hj. by injection Hj.
Qed.

Lemma writer_job i e : es !! i = Some e -> exists pc, is_threads x !! i = Some (Inserter (e_key e) (e_value e) pc).
Proof using H.
  intros He. pose proof (f_equal (fun f => f !! i) (ro_jobs _ _ _ _ _ H)) as Hj. cbv beta in Hj.
  rewrite !lookup_fmap, writers_lookup, He in Hj. destruct (is_threads x !! i) as [[k v pc| | | | |]|]; try done.
  exists pc. injection Hj as -> ->. done.
Qed.

(** When all writers have returned, the memtable holds an entry for each of
    their keys, and nothing but their entries. *)

Lemma writers_contents :
  map_Forall (fun _ th => finished th /\ refused th = false) (is_threads x) ->
  exists kvs, mem_repr (memtable_at m x) kvs /\ (forall kv, kv ∈ kvs -> exists e, e ∈ es /\ kv = e_kv e) /\
    (forall e, e ∈ es -> exists kv, kv ∈ kvs /\ kv.1 = e_key e).
Proof using H.
  intros Hf. set (h := st_nodes (is_store x)). exists (contents h (Ls 0%nat)). split; [|split].
  - exists (Ls 0%nat). split; [|done]. apply (finished_sl_inv [] (mt_nodes m) (writers m es)); [done|].
    intros i th Et. by destruct (Hf i th Et).
  - intros kv (q & -> & Hq)%list_elem_of_fmap. destruct (ro_entry _ _ _ _ _ H q Hq) as [?%elem_of_nil|(i & th & Et & Hj)]; [done|].
    destruct (job_writer i th Et) as (e & He & Hj'). exists e. split; [by eapply list_elem_of_lookup_2|].
    rewrite Hj' in Hj. injection Hj as E1 E2. unfold e_kv. by rewrite E1, E2.
  - intros e (i & He)%list_elem_of_lookup. destruct (writer_job i e He) as (pc & Et). destruct (Hf i _ Et) as [Hfin Href].
    destruct (ro_threads _ _ _ _ _ H i _ Et) as (_ & _ & _ & Hpc). destruct pc; try done. destruct Hpc as [Hq Hk].
    exists (key_of h q, value_of h q). split; [|done]. apply list_elem_of_fmap. by exists q.
Qed.
End Run.

(** ** A read among the writers

    The reader is one more thread, with its own number. *)

Definition reader (m : MemtableInner) (u : bytes) (q : Z) : thread := Reader (enc u q KMax) SMax (ctx_init (skiplist m)).

(** What [Memtable::get] makes of a search that has returned. *)

Definition read_result (p : profile) (x : ist) (key : bytes) (c : TraversalCtx) : outcome MemReturn :=
  r ← entry_at (st_nodes (is_store x)) c; get_entry p key r.

Section Read.
Context {m : MemtableInner} {es : list entry} {t : nat} {rd : thread} {x : ist} {Ls : nat -> list arena_ptr}.
Context (Hrd : job rd = None) (H : run [] (mt_nodes m) (<[t := rd]> (writers m es)) x Ls).

Lemma linked_entry n : n ∈ Ls 0%nat -> exists e, e ∈ es /\ e_kv e = (key_in x n, value_in x n).
Proof using H Hrd.
  intros Hn. destruct (ro_entry _ _ _ _ _ H n Hn) as [?%elem_of_nil|(i & th & Et & Hj)]; [done|].
  pose proof (f_equal (fun f => f !! i) (ro_jobs _ _ _ _ _ H)) as Hjs. cbv beta in Hjs. rewrite !lookup_fmap, Et in Hjs.
  destruct (decide (i = t)) as [->|Hne]; [rewrite lookup_insert_eq in Hjs; cbn in Hjs; congruence|].
  rewrite lookup_insert_ne, writers_lookup in Hjs by done. destruct (es !! i) as [e|] eqn:He; [|done].
  exists e. split; [by eapply list_elem_of_lookup_2|]. cbn in Hjs. injection Hjs as Hjs. rewrite Hj in Hjs.
  injection Hjs as Ek Ev. unfold e_kv, key_in, value_in. by rewrite <- Ek, <- Ev.
Qed.

(** The entries of a list of linked nodes. *)

Lemma linked_entries L : (forall n, n ∈ L -> n ∈ Ls 0%nat) ->
  exists es', e_kv <$> es' = contents (st_nodes (is_store x)) L /\ (forall e, e ∈ es' -> e ∈ es).
Proof using H Hrd.
  induction L as [|n L IH]; intros HL; [exists []; split; [done|]; by intros e ?%elem_of_nil|].
  destruct IH as (es' & E & Hin); [intros n' Hn'; apply HL; by right|]. destruct (linked_entry n (HL n ltac:(by left))) as (e & He & Ekv).
  exists (e :: es'). cbn. split; [by rewrite E, Ekv|]. intros e' [->|?]%elem_of_cons; auto.
Qed.

Lemma entry_at_done k c r : is_threads x !! t = Some (ReadDone k c) -> successors c !! 0%nat = Some r ->
  entry_at (st_nodes (is_store x)) c = Done ((fun n => (key_in x n, value_in x n)) <$> r).
Proof using H.
  intros Et Hs. destruct (ro_threads _ _ _ _ _ H t _ Et) as [_ [Hc _]]. unfold entry_at, ctx_at. rewrite Hs. cbn [mbind outcome_bind].
  destruct r as [n|]; [|done]. destruct (Hc 0%nat ltac:(unfold MAX_HEAD_HEIGHT; lia)) as (? & ? & _ & Hs' & _ & Hsc).
  rewrite Hs in Hs'. injection Hs' as <-. destruct (Hsc n eq_refl) as [Hn _].
  destruct (lo_node _ _ _ n (ro_lists _ _ _ _ _ H) Hn) as (Hread & _).
  rewrite get_key_bytes_done by done. cbn [mbind outcome_bind]. by rewrite get_value_bytes_done by done.
Qed.
End Read.

Lemma first_least h L k r :
  first_at_least (CO := InternalKeyComparatorOk) h L k r -> least_from (contents h L) k ((fun n => (key_of h n, value_of h n)) <$> r).
Proof.
  destruct r as [n|]; cbn.
  - intros (Hn & Hge & Hmin). split; [apply list_elem_of_fmap; by exists n|]. split; [exact Hge|].
    intros kv (n' & -> & Hn')%list_elem_of_fmap Hge'. destruct (Hmin n' Hn' Hge') as [->|?]; [by left|by right].
  - intros Hb kv (n & -> & Hn)%list_elem_of_fmap. by apply Hb.
Qed.

(** ** Properties *)

(** C5: writers to one memtable do not disturb each other, and a read that
    follows sees the newest version.  One thread inserts each of [es], the
    threads interleaved by any schedule that gives each of them enough steps,
    over the internal-key order.  Then no step faults, every thread has
    returned, and either the arena has refused a node to one of them or a read
    of any user key at any snapshot returns the newest of the inserted entries
    that the snapshot sees, or that there is none. *)
Theorem memtable_threads_get p id pol es m sched u q :
  policy_ok pol -> Memtable_new p id pol AllocSystem = Done m -> Forall entry_ok es -> seq_ok q ->
  (forall i, (i < length es)%nat -> (step_bound 0 (length es) < steps_of i sched)%nat) ->
  exists x, irun p sched (mkIst (mt_store m) (skiplist m) (writers m es)) = Done x /\
    map_Forall (fun _ => finished) (is_threads x) /\
    (map_Exists (fun _ th => refused th = true) (is_threads x) \/
     exists r, Memtable_get p (memtable_at m x) (enc u q KMax) = Done r /\ answers es u q r).
Proof.
  intros Hpol Enew Hok Hq Hsched. destruct (Memtable_new_done p id pol m Enew Hpol) as [(L0 & Hinv & HL) _].
  apply fmap_nil_inv in HL as ->. pose proof (writers_start m es Hok) as Hst.
  pose proof (start_run_ok _ _ _ _ Hinv Hst) as Hr.
  destruct (irun_ok p [] _ (writers m es) sched _ _ Hr) as (x & Ls & E & Hx). exists x. split; [done|].
  assert (Hfin : map_Forall (fun _ => finished) (is_threads x)).
  { intros i th Et. destruct (ended_finished th) as [Hend|?]; [|done]. exfalso.
    destruct (job_writer Hx i th Et) as (e & He & _). apply lookup_lt_Some in He. specialize (Hsched i He).
    pose proof (run_potential p [] _ (writers m es) sched _ _ x i th Hr E Et Hend).
    pose proof (start_potential _ _ _ _ Hinv Hst) as Hp. rewrite writers_size in *. cbn [length] in *. lia. }
  split; [done|]. destruct (decide (map_Exists (fun _ th => refused th = true) (is_threads x))) as [|Hno]; [by left|right].
  destruct (writers_contents Hx) as (kvs & Hm & Hfrom & Hkeys); [|by apply (get_answers p _ kvs)].
  intros i th Et. split; [by apply (Hfin i)|]. destruct (refused th) eqn:Er; [|done]. exfalso. apply Hno. by exists i, th.
Qed.

(** C6: a read that overlaps writers answers for one moment.  Threads insert
    [es] and one more reads user key [u] at snapshot [q], under any schedule.
    Once the read has returned, its result is the newest entry the snapshot
    sees among some of [es], or that there is none among them, and these
    include every version whose writer had returned before the read made its
    first step. *)
Theorem memtable_read_during_writes p id pol es m t u q sched1 sched2 x1 x2 c :
  policy_ok pol -> Memtable_new p id pol AllocSystem = Done m -> Forall entry_ok es -> seq_ok q ->
  irun p sched1 (mkIst (mt_store m) (skiplist m) (<[t := reader m u q]> (writers m es))) = Done x1 ->
  is_threads x1 !! t = Some (reader m u q) ->
  irun p sched2 x1 = Done x2 -> is_threads x2 !! t = Some (ReadDone (enc u q KMax) c) ->
  exists a es', read_result p x2 (enc u q KMax) c = Done a /\ answers es' u q a /\ (forall e, e ∈ es' -> e ∈ es) /\
    (forall i k v n, is_threads x1 !! i = Some (Inserter k v (IDone n)) -> exists e, e ∈ es' /\ e_key e = k).
Proof.
  intros Hpol Enew Hok Hq E1 Et1 E2 Et2. destruct (Memtable_new_done p id pol m Enew Hpol) as [(L0 & Hinv & HL) _].
  apply fmap_nil_inv in HL as ->. set (ths := <[t := reader m u q]> (writers m es)) in *.
  assert (Hst : map_Forall (fun _ => starts (valid := ikey_valid) (skiplist m)) ths).
  { apply map_Forall_insert_2; [|by apply writers_start]. split; [apply enc_valid|done]. }
  destruct (irun_mono p [] _ ths sched1 _ _ x1 (start_run_ok _ _ _ _ Hinv Hst) E1) as (Ls & H1 & Hse & _).
  assert (Et1' : is_threads x1 !! t = Some (Reader (enc u q KMax) SMax (ctx_init (is_list x1)))).
  { rewrite Et1. unfold reader, ctx_init. by rewrite Hse. }
  destruct (read_moment p [] _ ths x1 t _ c sched2 x2 Ls H1 Et1' E2 Et2) as (sa & sb & xm & Lm & r & _ & Em & Hm & Hsucc & Hf & Hsame).
  destruct (linked_entries (rd := reader m u q) (t := t) eq_refl Hm (Lm 0%nat)) as (es' & Ekv & Hin); [done|].
  destruct (irun_mono p [] _ ths sched2 x1 Ls x2 H1 E2) as (Ls2 & H2 & _).
  unfold read_result. rewrite (entry_at_done (rd := reader m u q) (t := t) H2 _ c r Et2 Hsucc). cbn [mbind outcome_bind].
  replace ((fun n => (key_in x2 n, value_in x2 n)) <$> r)
    with ((fun n => (key_of (st_nodes (is_store xm)) n, value_of (st_nodes (is_store xm)) n)) <$> r).
  2: { destruct r as [n|]; [|done]. cbn. unfold key_in, value_in.
    by rewrite (shape_key _ _ _ (Hsame n eq_refl)), (shape_value _ _ _ (Hsame n eq_refl)). }
  destruct (get_entry_answers p _ es' u q _ (first_least _ _ _ _ Hf)) as (a & Ea & Ha).
  - rewrite Forall_forall in Hok |- *. intros e He. by apply Hok, Hin.
  - done.
  - intros kv Hkv. rewrite <- Ekv in Hkv. apply list_elem_of_fmap in Hkv as (e & -> & He). by exists e.
  - intros e He. exists (e_kv e). split; [|done]. rewrite <- Ekv. by apply list_elem_of_fmap_2.
  - exists a, es'. do 3 (split; [done|]). intros i k v n Ei. destruct (ro_threads _ _ _ _ _ H1 i _ Ei) as (_ & _ & _ & Hn & Hk).
    destruct (irun_mono p [] _ ths sa x1 Ls xm H1 Em) as (Lm' & Hm' & _ & Hmono). destruct (Hmono n Hn) as (Hn' & Hk' & _).
    rewrite (chain_unique _ _ _ _ _ (run_base _ _ _ _ _ Hm') (run_base _ _ _ _ _ Hm)) in Hn'.
    assert (Hkv : (key_of (st_nodes (is_store xm)) n, value_of (st_nodes (is_store xm)) n) ∈ e_kv <$> es').
    { rewrite Ekv. apply list_elem_of_fmap. by exists n. }
    apply list_elem_of_fmap in Hkv as (e & Ee & He). exists e. split; [done|]. injection Ee as Ee _. congruence.
Qed.

Lemma memtable_threads_get_witness :
  let sched := turns [0%nat; 1%nat; 2%nat; 3%nat] (S (step_bound 0 4)) in
  exists x, irun Debug sched (mkIst (mt_store (demo_mem [])) (skiplist (demo_mem [])) (writers (demo_mem []) demo_entries)) = Done x /\
    map_Forall (fun _ => finished) (is_threads x) /\
    (map_Exists (fun _ th => refused th = true) (is_threads x) \/
     exists r, Memtable_get Debug (memtable_at (demo_mem []) x) (enc [107] 3 KMax) = Done r /\ answers demo_entries [107] 3 r).
Proof.
  intros sched. assert (Hnd : NoDup [0%nat; 1%nat; 2%nat; 3%nat]) by (apply (bool_decide_unpack _); exact I).
  apply (memtable_threads_get Debug 7 demo_policy demo_entries (demo_mem []) sched [107] 3);
    [exact demo_policy_ok|vm_compute; reflexivity|exact demo_entries_ok|split; vm_compute; congruence|].
  intros i Hi. change (length demo_entries) with 4%nat in *. unfold sched. rewrite (steps_of_turns i _ _ Hnd).
  - apply Nat.lt_succ_diag_r.
  - destruct i as [|[|[|[|i]]]]; [set_solver..|]. exfalso. lia.
Defined.

(** The writer of version 4 is done before the read begins, the other two
    writers of the key run while it searches: the read at snapshot 3 finds
    version 3. *)

Definition demo_reading (sched : list (nat * bool)) : ist :=
  let m := demo_mem [] in
  let x := mkIst (mt_store m) (skiplist m) (<[4%nat := reader m [107] 3]> (writers m demo_entries)) in
  match irun (C := InternalKeyComparator) Debug sched x with Done x => x | _ => x end.

Definition before_read : list (nat * bool) := turns [1%nat; 3%nat] 60.

Definition during_read : list (nat * bool) := replicate 2 (4%nat, true) ++ turns [0%nat; 2%nat] 60 ++ replicate 60 (4%nat, true).

Lemma memtable_read_during_writes_witness :
  let x1 := demo_reading before_read in
  let x2 := demo_reading (before_read ++ during_read) in
  exists c, is_threads x2 !! 4%nat = Some (ReadDone (enc [107] 3 KMax) c) /\
  exists a es', read_result Debug x2 (enc [107] 3 KMax) c = Done a /\ answers es' [107] 3 a /\ (forall e, e ∈ es' -> e ∈ demo_entries) /\
    (forall i k v n, is_threads x1 !! i = Some (Inserter k v (IDone n)) -> exists e, e ∈ es' /\ e_key e = k).
Proof.
  intros x1 x2. eexists. split; [vm_compute; reflexivity|].
  apply (memtable_read_during_writes Debug 7 demo_policy demo_entries (demo_mem []) 4 [107] 3 before_read during_read x1 x2);
    [exact demo_policy_ok|vm_compute; reflexivity|exact demo_entries_ok|split; vm_compute; congruence|
     vm_compute; reflexivity|reflexivity|vm_compute; reflexivity|vm_compute; reflexivity].
Defined.
