(* ===== verification/Wal.v ===== *)
(** * Wal: sync completion and chunk headers

    Models [wal/mod.rs] (the per-batch completion signal on which batch owners
    wait) and [log_records/mod.rs] (the table of chunk encodings).  The waiter
    is given as sequential operations for the code that calls them, and as a
    step relation for the interleaving of waiting and signalling threads on its
    atomic, mutex and condition variable. *)

From S2P Require Import Prelude.

(** The semaphore of the log: created and handed to the pipeline, which does
    not use it yet; its lock and condition variable have no content of their
    own. *)

(* @src crates/engine/src/wal/mod.rs:63-67 SyncSem *)
Record SyncSem := mkSyncSem { sync_occupancy : Z }.

(* @src crates/engine/src/wal/mod.rs:69-77 SyncSem::default *)
Definition SyncSem_default : SyncSem := mkSyncSem 0.

(* @src crates/engine/src/wal/mod.rs:137-145 WalSyncResultState *)
Inductive WalSyncResultState := SyInit | SyPrimed | SySyncDone | SyIoError | SyWalError.

#[export] Instance WalSyncResultState_eq_dec : EqDecision WalSyncResultState.
Proof. solve_decision. Defined.

(* @src crates/engine/src/wal/mod.rs:147-157 WalSyncResultState::fmt *)
Definition WalSyncResultState_fmt (s : WalSyncResultState) : string :=
  match s with
  | SyInit => "Init" | SyPrimed => "Primed" | SySyncDone => "SyncDone"
  | SyIoError => "IoError" | SyWalError => "WalError"
  end.

(* @src crates/engine/src/wal/mod.rs:159-163 u8::from *)
Definition WalSyncResultState_as_u8 (s : WalSyncResultState) : Z :=
  match s with SyInit => 0 | SyPrimed => 1 | SySyncDone => 2 | SyIoError => 3 | SyWalError => 4 end.

(* @src crates/engine/src/wal/mod.rs:165-176 WalSyncResultState::from *)
Definition WalSyncResultState_from (value : Z) : outcome WalSyncResultState :=
  if decide (value = 0) then Done SyInit
  else if decide (value = 1) then Done SyPrimed
  else if decide (value = 2) then Done SySyncDone
  else if decide (value = 3) then Done SyIoError
  else if decide (value = 4) then Done SyWalError
  else Panic "internal error: entered unreachable code: invalid WAL sync state".

Lemma WalSyncResultState_from_as s : WalSyncResultState_from (WalSyncResultState_as_u8 s) = Done s.
Proof. by destruct s. Qed.

(** ** The waiter, run by one thread *)

(** The atomic byte; the mutex and condition variable appear below. *)

(* @src crates/engine/src/wal/mod.rs:190-195 SyncLogWaiter *)
Record SyncLogWaiter := mkWaiter { wt_state : Z }.

(* @src crates/engine/src/wal/mod.rs:197-207 SyncLogWaiter::default *)
Definition SyncLogWaiter_default : SyncLogWaiter := mkWaiter (WalSyncResultState_as_u8 SyInit).

(* @src crates/engine/src/wal/mod.rs:212-220 SyncLogWaiter::is_terminal *)
Definition is_terminal (s : WalSyncResultState) : bool :=
  match s with SySyncDone | SyIoError | SyWalError => true | _ => false end.

(* @src crates/engine/src/wal/mod.rs:222-230 SyncLogWaiter::to_result *)
Definition to_result (s : WalSyncResultState) : option (result unit WalSyncResultState) :=
  match s with
  | SySyncDone => Some (Ok tt)
  | SyIoError => Some (Err SyIoError)
  | SyWalError => Some (Err SyWalError)
  | _ => None
  end.

(* @src crates/engine/src/wal/mod.rs:232-235 SyncLogWaiter::state *)
Definition SyncLogWaiter_state (w : SyncLogWaiter) : outcome WalSyncResultState :=
  WalSyncResultState_from (wt_state w).

(* @src crates/engine/src/wal/mod.rs:237-251 SyncLogWaiter::prime *)
Definition SyncLogWaiter_prime (p : profile) (w : SyncLogWaiter) : outcome SyncLogWaiter :=
  state ← WalSyncResultState_from (wt_state w);
  if decide (state = SyPrimed) then Done w
  else
    _ ← debug_assert p (bool_decide (state = SyInit)) "state == WalSyncResultState::Init";
    Done (mkWaiter (WalSyncResultState_as_u8 SyPrimed)).

(* @src crates/engine/src/wal/mod.rs:304-314 SyncLogWaiter::signal *)
Definition SyncLogWaiter_signal (w : SyncLogWaiter) (state : WalSyncResultState) : outcome SyncLogWaiter :=
  _ ← rust_assert (bool_decide (state <> SyPrimed)) "state != WalSyncResultState::Primed";
  Done (mkWaiter (WalSyncResultState_as_u8 state)).

(** [wait] when no other thread runs: it spins through a primed state and then
    sleeps for ever, which has no outcome. *)

(* @src crates/engine/src/wal/mod.rs:253-300 SyncLogWaiter::wait *)
Definition SyncLogWaiter_wait (w : SyncLogWaiter) : outcome (result unit WalSyncResultState) :=
  state ← WalSyncResultState_from (wt_state w);
  if decide (state = SyPrimed) then NoFuel
  else match to_result state with
       | Some r => Done r
       | None => Panic "internal error: entered unreachable code: invalid terminal WAL sync state"
       end.

(** ** The waiter, shared by threads *)

Definition SPIN_LIMIT : nat := 200.

(** Where a thread is in [wait] or in [signal]. *)

Inductive wpc :=
| WSpin (left : nat)
| WLock
| WCheck
| WPrimedSeen
| WSleep
| WWoken
| WFinal
| WDone (r : result unit WalSyncResultState)
| WPanicked
| SLock (state : WalSyncResultState)
| SStore (state : WalSyncResultState)
| SNotify
| SDone.

Record wstate := mkW {
  w_state : WalSyncResultState;
  w_mu : option nat;
  w_threads : gmap nat wpc
}.

Definition wput (s : wstate) (t : nat) (pc : wpc) : wstate :=
  mkW (w_state s) (w_mu s) (<[t := pc]> (w_threads s)).
Definition wput_mu (s : wstate) (o : option nat) : wstate := mkW (w_state s) o (w_threads s).
Definition wput_state (s : wstate) (st : WalSyncResultState) : wstate := mkW st (w_mu s) (w_threads s).

(** [notify_all] wakes every sleeper. *)

Definition wake (pc : wpc) : wpc := match pc with WSleep => WWoken | _ => pc end.
Definition wake_all (s : wstate) : wstate := mkW (w_state s) (w_mu s) (wake <$> w_threads s).

(* @src crates/engine/src/wal/mod.rs:254-314 SyncLogWaiter::wait *)
Inductive wstep (t : nat) (s : wstate) : wstate -> Prop :=
| w_spin_primed n :
    w_threads s !! t = Some (WSpin (S n)) -> w_state s = SyPrimed -> wstep t s (wput s t (WSpin n))
| w_spin_done n r :
    w_threads s !! t = Some (WSpin (S n)) -> to_result (w_state s) = Some r -> wstep t s (wput s t (WDone r))
| w_spin_invalid n :
    w_threads s !! t = Some (WSpin (S n)) -> w_state s = SyInit -> wstep t s (wput s t WPanicked)
| w_spin_end :
    w_threads s !! t = Some (WSpin 0) -> wstep t s (wput s t WLock)
| w_lock :
    w_threads s !! t = Some WLock -> w_mu s = None -> wstep t s (wput (wput_mu s (Some t)) t WCheck)
| w_check_primed :
    w_threads s !! t = Some WCheck -> w_state s = SyPrimed -> wstep t s (wput s t WPrimedSeen)
| w_check_other :
    w_threads s !! t = Some WCheck -> w_state s <> SyPrimed -> wstep t s (wput s t WFinal)
| w_sleep :
    w_threads s !! t = Some WPrimedSeen -> wstep t s (wput (wput_mu s None) t WSleep)
| w_spurious :
    w_threads s !! t = Some WSleep -> wstep t s (wput s t WWoken)
| w_relock :
    w_threads s !! t = Some WWoken -> w_mu s = None -> wstep t s (wput (wput_mu s (Some t)) t WCheck)
| w_final r :
    w_threads s !! t = Some WFinal -> to_result (w_state s) = Some r ->
    wstep t s (wput (wput_mu s None) t (WDone r))
| w_final_none :
    w_threads s !! t = Some WFinal -> to_result (w_state s) = None ->
    wstep t s (wput (wput_mu s None) t (WDone (Err SyWalError)))
| s_lock st :
    w_threads s !! t = Some (SLock st) -> w_mu s = None -> wstep t s (wput (wput_mu s (Some t)) t (SStore st))
| s_store st :
    w_threads s !! t = Some (SStore st) -> wstep t s (wput (wput_state s st) t SNotify)
| s_notify :
    w_threads s !! t = Some SNotify -> wstep t s (wput (wput_mu (wake_all s) None) t SDone).

Inductive wreach (s0 : wstate) : wstate -> Prop :=
| wreach_refl : wreach s0 s0
| wreach_step s t s' : wreach s0 s -> wstep t s s' -> wreach s0 s'.

(** A primed waiter: some threads about to wait, others about to signal [r]. *)

Definition initial_pc (r : WalSyncResultState) (pc : wpc) : Prop := pc = WSpin SPIN_LIMIT \/ pc = SLock r.

Definition initial (r : WalSyncResultState) (s : wstate) : Prop :=
  w_state s = SyPrimed /\ w_mu s = None /\ map_Forall (fun _ => initial_pc r) (w_threads s).

Definition holds_mu (pc : wpc) : bool :=
  match pc with WCheck | WPrimedSeen | WFinal | SStore _ | SNotify => true | _ => false end.

Definition signaller (pc : wpc) : bool :=
  match pc with SLock _ | SStore _ | SNotify | SDone => true | _ => false end.

Definition pc_ok (r : WalSyncResultState) (s : wstate) (pc : wpc) : Prop :=
  match pc with
  | WPanicked => False
  | WPrimedSeen => w_state s = SyPrimed
  | WFinal => w_state s = r
  | WDone res => to_result r = Some res
  | WSleep => w_state s = SyPrimed \/ exists t, w_threads s !! t = Some SNotify
  | SLock st | SStore st => st = r
  | SNotify | SDone => w_state s = r
  | _ => True
  end.

Record winv (r : WalSyncResultState) (s : wstate) : Prop := mkWInv {
  wi_state : w_state s = SyPrimed \/ w_state s = r;
  wi_pcs : map_Forall (fun _ => pc_ok r s) (w_threads s);
  wi_mu : forall t pc, w_threads s !! t = Some pc -> holds_mu pc = bool_decide (w_mu s = Some t);
  wi_holder : forall t, w_mu s = Some t -> is_Some (w_threads s !! t)
}.

(** ** Preservation *)

Lemma winv_holder r s t pc :
  winv r s -> w_threads s !! t = Some pc -> holds_mu pc = true -> w_mu s = Some t.
Proof. intros H Ht Hh. rewrite (wi_mu r s H _ _ Ht) in Hh. by apply bool_decide_eq_true in Hh. Qed.

Lemma winv_not_holder r s t pc :
  winv r s -> w_threads s !! t = Some pc -> holds_mu pc = false -> w_mu s <> Some t.
Proof. intros H Ht Hh. rewrite (wi_mu r s H _ _ Ht) in Hh. by apply bool_decide_eq_false in Hh. Qed.

(** One thread moves; the mutex is its own before or after, or untouched. *)

Lemma winv_move r s t pc0 pc o st :
  winv r s -> w_threads s !! t = Some pc0 -> st = SyPrimed \/ st = r ->
  let s' := mkW st o (<[t := pc]> (w_threads s)) in
  pc_ok r s' pc ->
  (forall t' pc', t' <> t -> w_threads s !! t' = Some pc' -> pc_ok r s pc' -> pc_ok r s' pc') ->
  holds_mu pc = bool_decide (o = Some t) ->
  (forall t', t' <> t -> o = Some t' <-> w_mu s = Some t') -> winv r s'.
Proof.
  intros H Ht Hst s' Hpc Hothers Hh Hmu. constructor; cbn [w_state w_mu w_threads s']; [done|..].
  - intros t' pc' [[<- <-]|[Hne Ht']]%lookup_insert_Some; [done|]. apply (Hothers t'); [done|done|].
    by apply (wi_pcs r s H t').
  - intros t' pc' [[<- <-]|[Hne Ht']]%lookup_insert_Some; [done|]. rewrite (wi_mu r s H _ _ Ht').
    apply bool_decide_ext. symmetry. by apply Hmu.
  - intros t' Ho. apply lookup_insert_is_Some'. destruct (decide (t = t')) as [->|Hne]; [by left|right].
    apply (wi_holder r s H). by apply Hmu.
Qed.

(** The common case: the shared state stays and no notifier moves. *)

Lemma winv_step r s t pc0 pc o :
  winv r s -> w_threads s !! t = Some pc0 -> pc0 <> SNotify ->
  pc_ok r (mkW (w_state s) o (<[t := pc]> (w_threads s))) pc ->
  holds_mu pc = bool_decide (o = Some t) ->
  (forall t', t' <> t -> o = Some t' <-> w_mu s = Some t') ->
  winv r (mkW (w_state s) o (<[t := pc]> (w_threads s))).
Proof.
  intros H Ht Hn Hpc Hh Hmu. eapply winv_move; try done; [apply H|].
  intros t' pc' Hne Ht' Hok. destruct pc'; try done. destruct Hok as [?|[t0 Ht0]]; [by left|right].
  exists t0. cbn [w_threads]. rewrite lookup_insert_ne; [done|]. intros ->. congruence.
Qed.

Lemma keep_mu r s t pc0 pc :
  winv r s -> w_threads s !! t = Some pc0 -> holds_mu pc = holds_mu pc0 ->
  holds_mu pc = bool_decide (w_mu s = Some t).
Proof. intros H Ht ->. by apply (wi_mu r s H). Qed.

Lemma others_not_holding r s t pc0 t' :
  winv r s -> w_threads s !! t = Some pc0 -> holds_mu pc0 = true -> t' <> t -> (None = Some t' <-> w_mu s = Some t').
Proof. intros H Ht Hh Hne. rewrite (winv_holder r s t pc0 H Ht Hh). split; congruence. Qed.

Ltac step o :=
  match goal with
  | H : winv ?r ?s, Ht : w_threads ?s !! ?t = Some _ |- _ =>
      eapply (winv_step r s t _ _ o); [exact H|exact Ht|done| | |try done]; cbn [pc_ok w_state]
  end.

Lemma wstep_inv r t s s' : to_result r <> None -> winv r s -> wstep t s s' -> winv r s'.
Proof.
  intros Hr H Hs. assert (Hrp : r <> SyPrimed) by (by intros ->).
  destruct Hs as [n Ht E|n res Ht E|n Ht E|Ht|Ht E|Ht E|Ht E|Ht|Ht|Ht E|res Ht E|Ht E|st Ht E|st Ht|Ht];
    pose proof (wi_pcs r s H _ _ Ht) as Hok; simpl in Hok.
  - step (w_mu s). 1: done. by eapply keep_mu.
  - step (w_mu s); [|by eapply keep_mu].
    destruct (wi_state r s H) as [Hp|Hp]; rewrite Hp in E; done.
  - destruct (wi_state r s H) as [Hp|Hp]; [congruence|]. by rewrite <- Hp, E in Hr.
  - step (w_mu s). 1: done. by eapply keep_mu.
  - step (Some t); [done|by rewrite bool_decide_true|]. intros t' Hne. rewrite E. split; congruence.
  - step (w_mu s). 1: done. by eapply keep_mu.
  - step (w_mu s); [|by eapply keep_mu]. by destruct (wi_state r s H).
  - step (None (A := nat)); [by left|done|]. intros. by eapply others_not_holding.
  - step (w_mu s). 1: done. by eapply keep_mu.
  - step (Some t); [done|by rewrite bool_decide_true|]. intros t' Hne. rewrite E. split; congruence.
  - step (None (A := nat)); [by rewrite <- Hok|done|]. intros. by eapply others_not_holding.
  - by rewrite Hok in E.
  - step (Some t); [done|by rewrite bool_decide_true|]. intros t' Hne. rewrite E. split; congruence.
  - pose proof (winv_holder r s t _ H Ht eq_refl) as Hm.
    apply (winv_move r s t (SStore st) SNotify (w_mu s) st H Ht); [by right|done| |by eapply keep_mu|done].
    intros t' pc' Hne Ht' Hok'. destruct pc'; try done.
    + pose proof (winv_holder r s t' _ H Ht' eq_refl). congruence.
    + right. exists t. cbn. by rewrite lookup_insert_eq.
  - pose proof (winv_holder r s t _ H Ht eq_refl) as Hm.
    assert (Hwake : forall t' pc', (wake <$> w_threads s) !! t' = Some pc' ->
      exists pc0, w_threads s !! t' = Some pc0 /\ pc' = wake pc0).
    { intros t' pc'. rewrite lookup_fmap. intros (pc0 & -> & ?)%fmap_Some. eauto. }
    constructor; cbn [w_state w_mu w_threads wput wput_mu wake_all].
    + by right.
    + intros t' pc' [[<- <-]|[Hne Ht']]%lookup_insert_Some; [done|].
      destruct (Hwake _ _ Ht') as (pc0 & Ht0 & ->). pose proof (wi_pcs r s H _ _ Ht0) as Hok0.
      by destruct pc0.
    + intros t' pc' [[<- <-]|[Hne Ht']]%lookup_insert_Some; [by rewrite bool_decide_false|].
      destruct (Hwake _ _ Ht') as (pc0 & Ht0 & ->). rewrite bool_decide_false by done.
      assert (holds_mu (wake pc0) = holds_mu pc0) as -> by (by destruct pc0).
      rewrite (wi_mu r s H _ _ Ht0). apply bool_decide_eq_false. congruence.
    + done.
Qed.

Lemma initial_winv r s : initial r s -> winv r s.
Proof.
  intros (Hs & Hm & Hp). constructor; [by left|..].
  - intros t pc Ht. specialize (Hp t pc Ht). simpl in Hp. by destruct Hp as [-> | ->].
  - intros t pc Ht. specialize (Hp t pc Ht). rewrite Hm, bool_decide_false by done.
    simpl in Hp. by destruct Hp as [-> | ->].
  - intros t. by rewrite Hm.
Qed.

(** Signallers stay signallers. *)

Lemma wstep_signaller t s s' u pc :
  wstep t s s' -> w_threads s !! u = Some pc -> signaller pc = true ->
  exists pc', w_threads s' !! u = Some pc' /\ signaller pc' = true.
Proof.
  intros Hs Hu Hsig. destruct (decide (u = t)) as [->|Hne].
  - destruct Hs as [n Ht E|n res Ht E|n Ht E|Ht|Ht E|Ht E|Ht E|Ht|Ht|Ht E|res Ht E|Ht E|st Ht E|st Ht|Ht];
      rewrite Ht in Hu; simplify_eq; eexists; (split; [apply lookup_insert_eq|done]).
  - destruct Hs; cbn [w_threads wput wput_mu wput_state wake_all]; rewrite lookup_insert_ne by done;
      try (by eexists). rewrite lookup_fmap, Hu. exists (wake pc). split; [done|]. by destruct pc.
Qed.

Lemma wreach_inv r s0 s : to_result r <> None -> initial r s0 -> wreach s0 s -> winv r s.
Proof. intros Hr H0. induction 1; [by apply initial_winv|]. by eapply wstep_inv. Qed.

Lemma wreach_signaller s0 s u pc :
  wreach s0 s -> w_threads s0 !! u = Some pc -> signaller pc = true ->
  exists pc', w_threads s !! u = Some pc' /\ signaller pc' = true.
Proof.
  intros Hr Hu Hsig. induction Hr as [|s t s' _ IH Hs]; [by eexists|].
  destruct IH as (pc1 & H1 & H2). by eapply wstep_signaller.
Qed.

Definition finished (pc : wpc) : bool := match pc with WDone _ | SDone => true | _ => false end.

(** The thread in the critical section can always step. *)

Lemma holder_wstep r s t :
  to_result r <> None -> winv r s -> w_mu s = Some t -> exists s', wstep t s s'.
Proof.
  intros Hr H Hm. destruct (wi_holder r s H t Hm) as [pc Ht]. pose proof (wi_mu r s H _ _ Ht) as Hh.
  rewrite bool_decide_true in Hh by done. pose proof (wi_pcs r s H _ _ Ht) as Hok.
  destruct pc; try done; simpl in Hok.
  - destruct (decide (w_state s = SyPrimed)); eexists; [by apply w_check_primed|by apply w_check_other].
  - eexists. by apply w_sleep.
  - destruct (to_result r) as [res|] eqn:E; [|done]. eexists. eapply w_final; [done|]. by rewrite Hok.
  - eexists. by eapply s_store.
  - eexists. by apply s_notify.
Qed.

Lemma winv_progress r s u pcu t pc :
  to_result r <> None -> winv r s -> w_threads s !! u = Some pcu -> signaller pcu = true ->
  w_threads s !! t = Some pc -> finished pc = false ->
  exists t' s', wstep t' s s' /\ (forall x, w_threads s !! t' = Some x -> x <> WSleep).
Proof.
  intros Hr H Hu Hsig Ht Hf. destruct (w_mu s) as [m|] eqn:Hm.
  { destruct (holder_wstep r s m Hr H Hm) as [s' Hs']. exists m, s'. split; [done|].
    intros x Hx ->. pose proof (wi_mu r s H _ _ Hx) as Hh. by rewrite Hm, bool_decide_true in Hh. }
  assert (Hno : forall v pcv, w_threads s !! v = Some pcv -> holds_mu pcv = false).
  { intros v pcv Hv. rewrite (wi_mu r s H _ _ Hv), Hm. by apply bool_decide_eq_false. }
  pose proof (wi_pcs r s H _ _ Ht) as Hok.
  destruct pc as [[|n]| | | | | | | | |st|st| |]; try done; try (by specialize (Hno _ _ Ht)).
  - exists t. eexists. split; [by apply w_spin_end|]. congruence.
  - exists t. destruct (wi_state r s H) as [E|E].
    + eexists. split; [by eapply w_spin_primed|]. congruence.
    + destruct (to_result r) as [res|] eqn:Er; [|done]. eexists. split; [eapply w_spin_done; [done|by rewrite E]|congruence].
  - exists t. eexists. split; [by apply w_lock|]. congruence.
  - simpl in Hok. destruct Hok as [E|[v Hv]]; [|by specialize (Hno _ _ Hv)].
    pose proof (wi_pcs r s H _ _ Hu) as Hoku. destruct pcu; try done; try (by specialize (Hno _ _ Hu)).
    + exists u. eexists. split; [by eapply s_lock|]. congruence.
    + simpl in Hoku. rewrite Hoku in E. by rewrite E in Hr.
  - exists t. eexists. split; [by apply w_relock|]. congruence.
  - exists t. eexists. split; [by eapply s_lock|]. congruence.
Qed.

(** ** Properties *)

(** C33: no wake-up is missed.  From a primed waiter, whatever threads wait and
    signal the terminal state [r], and however they interleave with spurious
    wake-ups allowed: a waiter that returns returns [r]'s result and none
    panics; nobody sleeps once the state is terminal unless a notification is
    on its way; and as long as some thread has not finished, some thread that
    is not asleep can take a step. *)
Theorem sync_waiter_no_missed_wakeup r s0 s u :
  to_result r <> None -> initial r s0 -> w_threads s0 !! u = Some (SLock r) -> wreach s0 s ->
  (forall t pc, w_threads s !! t = Some pc ->
     pc <> WPanicked /\ (forall res, pc = WDone res -> to_result r = Some res) /\
     (pc = WSleep -> w_state s = SyPrimed \/ exists t', w_threads s !! t' = Some SNotify)) /\
  (forall t pc, w_threads s !! t = Some pc -> finished pc = false ->
     exists t' s', wstep t' s s' /\ (forall x, w_threads s !! t' = Some x -> x <> WSleep)).
Proof.
  intros Hr H0 Hu Hre. pose proof (wreach_inv r s0 s Hr H0 Hre) as H. split.
  - intros t pc Ht. pose proof (wi_pcs r s H _ _ Ht) as Hok. split; [by intros ->|].
    split; [by intros res ->|by intros ->].
  - intros t pc Ht Hf. destruct (wreach_signaller s0 s u _ Hre Hu eq_refl) as (pcu & Hpu & Hsig).
    by apply (winv_progress r s u pcu t pc).
Qed.

(** A waiter that spins in vain and falls asleep, and a signaller that has
    stored the result and is about to notify it. *)

Definition demo_wait : wstate := mkW SyPrimed None {[ 0%nat := WSpin SPIN_LIMIT; 1%nat := SLock SyIoError ]}.

Definition demo_notify : wstate := mkW SyIoError (Some 1%nat) {[ 0%nat := WSleep; 1%nat := SNotify ]}.

Lemma demo_wait_initial : initial SyIoError demo_wait.
Proof.
  split; [done|]. split; [done|]. unfold demo_wait. cbn [w_threads].
  apply map_Forall_insert_2; [by left|]. apply map_Forall_singleton. by right.
Qed.

Lemma spin_fails s0 t n : forall th, wreach s0 (mkW SyPrimed None th) -> th !! t = Some (WSpin n) ->
  wreach s0 (mkW SyPrimed None (<[t := WLock]> th)).
Proof.
  induction n as [|n IH]; intros th Hr Ht.
  - eapply wreach_step; [exact Hr|]. by apply (w_spin_end t (mkW SyPrimed None th)).
  - assert (Hr' : wreach s0 (mkW SyPrimed None (<[t := WSpin n]> th))).
    { eapply wreach_step; [exact Hr|]. by apply (w_spin_primed t (mkW SyPrimed None th) n). }
    apply IH in Hr'; [by rewrite insert_insert_eq in Hr'|]. apply lookup_insert_eq.
Qed.

Lemma demo_notify_reached : wreach demo_wait demo_notify.
Proof.
  pose proof (spin_fails demo_wait 0 SPIN_LIMIT (w_threads demo_wait) (wreach_refl _) eq_refl) as H.
  eapply wreach_step in H; [|by apply (w_lock 0)].
  eapply wreach_step in H; [|by apply (w_check_primed 0)].
  eapply wreach_step in H; [|by apply (w_sleep 0)].
  eapply wreach_step in H; [|by apply (s_lock 1 _ SyIoError)].
  eapply wreach_step in H; [|by apply (s_store 1 _ SyIoError)].
  exact H.
Qed.

Lemma sync_waiter_no_missed_wakeup_witness :
  (forall t pc, w_threads demo_notify !! t = Some pc ->
     pc <> WPanicked /\ (forall res, pc = WDone res -> Some (Err SyIoError) = Some res) /\
     (pc = WSleep -> w_state demo_notify = SyPrimed \/ exists t', w_threads demo_notify !! t' = Some SNotify)) /\
  (forall t pc, w_threads demo_notify !! t = Some pc -> finished pc = false ->
     exists t' s', wstep t' demo_notify s' /\ (forall x, w_threads demo_notify !! t' = Some x -> x <> WSleep)).
Proof.
  apply (sync_waiter_no_missed_wakeup SyIoError demo_wait demo_notify 1);
    [discriminate | exact demo_wait_initial | reflexivity | exact demo_notify_reached].
Defined.

(** ** Chunk headers of log records *)

(* @src crates/engine/src/log_records/mod.rs:52-56 BlockSize *)
Record log_constants := mkLogConstants {
  BlockSize : Z;
  BlockSizeMask : Z;
  LegacyHeaderSize : Z;
  RecyclableHeaderSize : Z;
  WALSyncRecyclableHeaderSize : Z
}.

(* @src crates/engine/src/log_records/mod.rs:52-56 WALSyncRecyclableHeaderSize *)
Definition log_sizes : log_constants :=
  let block := 32 * 1024 in
  let legacy := 7 in
  let recyclable := legacy + 4 in
  mkLogConstants block (block - 1) legacy recyclable (recyclable + 8).

(* @src crates/engine/src/log_records/mod.rs:58-73 FullChunkEncoding *)
Inductive ChunkEncoding :=
| InvalidChunkEncoding
| FullChunkEncoding | FirstChunkEncoding | MiddleChunkEncoding | LastChunkEncoding
| RecyclableFullChunkEncoding | RecyclableFirstChunkEncoding
| RecyclableMiddleChunkEncoding | RecyclableLastChunkEncoding
| WALSyncFullChunkEncoding | WALSyncFirstChunkEncoding
| WALSyncMiddleChunkEncoding | WALSyncLastChunkEncoding.

(* @src crates/engine/src/log_records/mod.rs:58-73 InvalidChunkEncoding *)
Definition ChunkEncoding_value (c : ChunkEncoding) : Z :=
  match c with
  | InvalidChunkEncoding => 0
  | FullChunkEncoding => 1
  | FirstChunkEncoding => 2
  | MiddleChunkEncoding => 3
  | LastChunkEncoding => 4
  | RecyclableFullChunkEncoding => 5
  | RecyclableFirstChunkEncoding => 6
  | RecyclableMiddleChunkEncoding => 7
  | RecyclableLastChunkEncoding => 8
  | WALSyncFullChunkEncoding => 9
  | WALSyncFirstChunkEncoding => 10
  | WALSyncMiddleChunkEncoding => 11
  | WALSyncLastChunkEncoding => 12
  end.

(* @src crates/engine/src/log_records/mod.rs:75-83 ChunkPosition *)
Inductive ChunkPosition := CpInvalidType | CpFullType | CpFirstType | CpMiddleType | CpLastType.

(* @src crates/engine/src/log_records/mod.rs:87-94 WireFormat *)
Inductive WireFormat := WfInvalidFormat | WfLegacy | WfRecyclable | WfWALSync.

(* @src crates/engine/src/log_records/mod.rs:100-119 HeaderFormat *)
Record HeaderFormat := mkHeaderFormat {
  chunk_position : ChunkPosition;
  wire_format : WireFormat;
  header_size : Z
}.

#[export] Instance HeaderFormat_eq_dec : EqDecision HeaderFormat.
Proof. unfold EqDecision, Decision. repeat decide equality. Defined.

(* @src crates/engine/src/log_records/mod.rs:123-124 INVALID_HEADER_FORMAT *)
Definition INVALID_HEADER_FORMAT : HeaderFormat := mkHeaderFormat CpInvalidType WfInvalidFormat 0.

(* @src crates/engine/src/log_records/mod.rs:121-121 HEADER_FORMAT_MAP_ARRAY_SIZE *)
Definition HEADER_FORMAT_MAP_ARRAY_SIZE : Z := 13.

(** [formats[i] = HeaderFormat { .. }]. *)

Definition set_format (i : ChunkEncoding) (pos : ChunkPosition) (f : WireFormat) (size : Z)
    (formats : list HeaderFormat) : outcome (list HeaderFormat) :=
  store_at formats (ChunkEncoding_value i) (mkHeaderFormat pos f size).

(* @src crates/engine/src/log_records/mod.rs:126-209 make_header_format_map_array *)
Definition make_header_format_map_array : outcome (list HeaderFormat) :=
  let formats := replicate (Z.to_nat HEADER_FORMAT_MAP_ARRAY_SIZE) INVALID_HEADER_FORMAT in
  let legacy := LegacyHeaderSize log_sizes in
  let recyclable := RecyclableHeaderSize log_sizes in
  let walsync := WALSyncRecyclableHeaderSize log_sizes in
  formats ← set_format FullChunkEncoding CpFullType WfLegacy legacy formats;
  formats ← set_format FirstChunkEncoding CpFirstType WfLegacy legacy formats;
  formats ← set_format MiddleChunkEncoding CpMiddleType WfLegacy legacy formats;
  formats ← set_format LastChunkEncoding CpLastType WfLegacy legacy formats;
  formats ← set_format RecyclableFullChunkEncoding CpFullType WfRecyclable recyclable formats;
  formats ← set_format RecyclableFirstChunkEncoding CpFirstType WfRecyclable recyclable formats;
  formats ← set_format RecyclableMiddleChunkEncoding CpMiddleType WfRecyclable recyclable formats;
  formats ← set_format RecyclableLastChunkEncoding CpLastType WfRecyclable recyclable formats;
  formats ← set_format WALSyncFullChunkEncoding CpFullType WfWALSync walsync formats;
  formats ← set_format WALSyncFirstChunkEncoding CpFirstType WfWALSync walsync formats;
  formats ← set_format WALSyncMiddleChunkEncoding CpMiddleType WfWALSync walsync formats;
  formats ← set_format WALSyncLastChunkEncoding CpLastType WfWALSync walsync formats;
  Done formats.

(** What the three formats add in front of the payload, from the layouts drawn
    in the module comment: check sum, size and type, then the log number, then
    the sync offset. *)

Definition layout_size (f : WireFormat) : Z :=
  match f with
  | WfInvalidFormat => 0
  | WfLegacy => 4 + 2 + 1
  | WfRecyclable => 4 + 2 + 1 + 4
  | WfWALSync => 4 + 2 + 1 + 4 + 8
  end.

Definition format_valid (h : HeaderFormat) : Prop :=
  chunk_position h <> CpInvalidType /\ wire_format h <> WfInvalidFormat.

(** The table of chunk formats is built without panicking, has one row per
    encoding, and is a bijection: only encoding 0 is the invalid format, every
    valid pair of position and wire format has exactly one encoding, and each
    header size is that of the drawn layout. *)
Theorem header_format_bijection :
  exists formats, make_header_format_map_array = Done formats /\ length formats = 13%nat /\
    (forall (i : nat) h, formats !! i = Some h ->
       header_size h = layout_size (wire_format h) /\ (format_valid h \/ i = 0%nat /\ h = INVALID_HEADER_FORMAT)) /\
    (forall pos f, pos <> CpInvalidType -> f <> WfInvalidFormat ->
       exists i : nat, formats !! i = Some (mkHeaderFormat pos f (layout_size f)) /\
         forall (j : nat) h, formats !! j = Some h -> chunk_position h = pos -> wire_format h = f -> j = i).
Proof.
  eexists. split; [vm_compute; reflexivity|]. split; [done|]. split.
  - intros i h Hi.
    do 13 (destruct i as [|i]; [simpl in Hi; injection Hi as <-; split; [done|];
      first [by right | by left]|]). done.
  - intros pos f Hp Hf.
    assert (exists i : nat, (i < 13)%nat /\ [1;5;9;2;6;10;3;7;11;4;8;12]%nat !!
      (3 * match pos with CpFirstType => 1 | CpMiddleType => 2 | CpLastType => 3 | _ => 0 end +
       match f with WfRecyclable => 1 | WfWALSync => 2 | _ => 0 end)%nat = Some i) as (i & _ & Hi)
      by (destruct pos; try done; destruct f; try done; simpl; eexists; (split; [|reflexivity]); lia).
    exists i. destruct pos; try done; destruct f; try done; simpl in Hi; injection Hi as <-; (split; [done|]);
      intros j h Hj; do 13 (destruct j as [|j]; [simpl in Hj; by injection Hj as <-|]); done.
Qed.
