(* ===== verification/Batch.v ===== *)
(** * Batch: atomic groups of operations and their encoding

    Models [db/batch.rs]: the encoded buffer of a batch ([BatchInner]) with its
    reservation and error logic, the deferred writer ([DeferredOp]) with its
    rollback, the run-time states, and the life of a [BatchObject] from
    acquisition to reset.  The buffer is kept as its bytes together with its
    capacity; the batch is a value that the operations take and return. *)

From S2P Require Import Prelude Codec Records Key Wal.

(** ** Limits and run-time states *)

(* @src crates/engine/src/db/options.rs:8-8 DEFAULT_MAX_WRITE_BATCH_BYTES *)
Definition DEFAULT_MAX_WRITE_BATCH_BYTES : Z := 1024 * 1024.
(* @src crates/engine/src/db/batch.rs:84-84 MAX_BATCH_SIZE *)
Definition MAX_BATCH_SIZE : Z := DEFAULT_MAX_WRITE_BATCH_BYTES.
(* @src crates/engine/src/db/batch.rs:85-85 DEFAULT_BATCH_INIT_SIZE *)
Definition DEFAULT_BATCH_INIT_SIZE : Z := Z.shiftl 1 10.
(* @src crates/engine/src/db/mod.rs:15-15 DEFAULT_CF_ID *)
Definition DEFAULT_CF_ID : Z := 0.
(* @src crates/engine/src/db/batch.rs:1189-1189 BatchInner::SEQ_NO_OFFSET *)
Definition SEQ_NO_OFFSET : Z := 0.
(* @src crates/engine/src/db/batch.rs:1190-1190 BatchInner::BATCH_COUNT_OFFSET *)
Definition BATCH_COUNT_OFFSET : Z := 8.
(* @src crates/engine/src/db/batch.rs:1191-1191 BatchInner::HEADER_SIZE *)
Definition HEADER_SIZE : Z := 8 + 4.

(* @src crates/engine/src/db/batch.rs:245-253 BatchRuntimeState *)
Inductive BatchRuntimeState := StIdle | StAcquired | StInQueue | StWaitingSync | StApplied.

#[export] Instance BatchRuntimeState_eq_dec : EqDecision BatchRuntimeState.
Proof. solve_decision. Defined.

(* @src crates/engine/src/db/batch.rs:255-265 BatchRuntimeState::fmt *)
Definition BatchRuntimeState_fmt (s : BatchRuntimeState) : string :=
  match s with
  | StIdle => "Idle" | StAcquired => "Acquired" | StInQueue => "InQueue"
  | StWaitingSync => "WaitingSync" | StApplied => "Applied"
  end.

(** [state as u8]. *)

Definition BatchRuntimeState_as_u8 (s : BatchRuntimeState) : Z :=
  match s with StIdle => 0 | StAcquired => 1 | StInQueue => 2 | StWaitingSync => 3 | StApplied => 4 end.

(* @src crates/engine/src/db/batch.rs:267-278 BatchRuntimeState::from *)
Definition BatchRuntimeState_from (value : Z) : outcome BatchRuntimeState :=
  if decide (value = 0) then Done StIdle
  else if decide (value = 1) then Done StAcquired
  else if decide (value = 2) then Done StInQueue
  else if decide (value = 3) then Done StWaitingSync
  else if decide (value = 4) then Done StApplied
  else Panic "internal error: entered unreachable code".

(* @src crates/engine/src/db/batch.rs:281-281 BatchRuntimeState::RESET_SAFE_STATES *)
Definition RESET_SAFE_STATES : list BatchRuntimeState := [StAcquired; StApplied].

(* @src crates/engine/src/db/batch.rs:283-285 BatchRuntimeState::is_reset_safe *)
Definition is_reset_safe (s : BatchRuntimeState) : bool := bool_decide (s ∈ RESET_SAFE_STATES).

(** ** Data *)

(* @src crates/engine/src/db/batch.rs:97-101 BatchMeta *)
Record BatchMeta := mkBatchMeta { first_seen_cf_id : Z; multiple_cf_ids : bool }.

(* @src crates/engine/src/db/batch.rs:104-107 BatchMeta::clear *)
Definition BatchMeta_clear (m : BatchMeta) : BatchMeta := mkBatchMeta 0 false.

(** An entry is a column-family id and the address of its memtable. *)

(* @src crates/engine/src/db/batch.rs:122-129 CFTable *)
Record CFTable := mkCFTable { cft_len : Z; cft_vec : list (Z * Z) }.

(* @src crates/engine/src/db/batch.rs:132-137 CFTable::new *)
Definition CFTable_new : CFTable := mkCFTable 0 [].

(* @src crates/engine/src/db/batch.rs:139-142 CFTable::clear *)
Definition CFTable_clear (t : CFTable) : CFTable := mkCFTable 0 [].

(** [bi_cap] is the capacity of [data]; [bi_waiter] is the state behind the
    shared [sync_waiter] and [bi_waiter_refs] its reference count. *)

(* @src crates/engine/src/db/batch.rs:1138-1186 BatchInner *)
Record BatchInner := mkBatchInner {
  bi_data : bytes;
  bi_cap : Z;
  bi_max_batch_size : Z;
  bi_count : Z;
  bi_state : Z;
  bi_meta : BatchMeta;
  bi_cf_table : CFTable;
  bi_waiter : SyncLogWaiter;
  bi_waiter_refs : Z
}.

Definition set_data (b : BatchInner) (d : bytes) : BatchInner :=
  mkBatchInner d (bi_cap b) (bi_max_batch_size b) (bi_count b) (bi_state b) (bi_meta b)
    (bi_cf_table b) (bi_waiter b) (bi_waiter_refs b).
Definition set_cap (b : BatchInner) (c : Z) : BatchInner :=
  mkBatchInner (bi_data b) c (bi_max_batch_size b) (bi_count b) (bi_state b) (bi_meta b)
    (bi_cf_table b) (bi_waiter b) (bi_waiter_refs b).
Definition set_count (b : BatchInner) (n : Z) : BatchInner :=
  mkBatchInner (bi_data b) (bi_cap b) (bi_max_batch_size b) n (bi_state b) (bi_meta b)
    (bi_cf_table b) (bi_waiter b) (bi_waiter_refs b).
Definition set_state_byte (b : BatchInner) (s : Z) : BatchInner :=
  mkBatchInner (bi_data b) (bi_cap b) (bi_max_batch_size b) (bi_count b) s (bi_meta b)
    (bi_cf_table b) (bi_waiter b) (bi_waiter_refs b).
Definition set_waiter (b : BatchInner) (w : SyncLogWaiter) (refs : Z) : BatchInner :=
  mkBatchInner (bi_data b) (bi_cap b) (bi_max_batch_size b) (bi_count b) (bi_state b) (bi_meta b)
    (bi_cf_table b) w refs.

(** ** The growable buffer

    [Vec::reserve] for a vector of [length] bytes and capacity [cap]: at least
    [additional] spare bytes, and at least twice the capacity when it grows. *)

Definition reserve_cap (cap length additional : Z) : Z :=
  if decide (additional <= cap - length) then cap
  else Z.max (Z.max (cap * 2) (length + additional)) 8.

Definition data_reserve (b : BatchInner) (additional : Z) : BatchInner :=
  set_cap b (reserve_cap (bi_cap b) (len (bi_data b)) additional).

(** [Vec::resize] with zero bytes, which reserves what it needs. *)

Definition data_resize (b : BatchInner) (n : Z) : BatchInner :=
  let b := data_reserve b (n - len (bi_data b)) in
  set_data b (vec_resize (bi_data b) n 0).

(** [Vec::shrink_to]: down to the larger of the bound and the length. *)

Definition data_shrink_to (b : BatchInner) (n : Z) : BatchInner :=
  if decide (n < bi_cap b) then set_cap b (Z.max n (len (bi_data b))) else b.

(** [self.data[i..i + n].copy_from_slice(xs)] and [self.data[i] = x]. *)

Definition data_write (b : BatchInner) (i n : Z) (xs : bytes) : outcome BatchInner :=
  d ← copy_into (bi_data b) i (i + n) xs; Done (set_data b d).

Definition data_store (b : BatchInner) (i x : Z) : outcome BatchInner :=
  d ← store_at (bi_data b) i x; Done (set_data b d).

(** ** Construction and accessors *)

(* @src crates/engine/src/db/batch.rs:1193-1208 BatchInner::new *)
Definition BatchInner_new : BatchInner :=
  data_resize
    (mkBatchInner [] DEFAULT_BATCH_INIT_SIZE MAX_BATCH_SIZE 0 (BatchRuntimeState_as_u8 StAcquired)
       (mkBatchMeta 0 false) CFTable_new SyncLogWaiter_default 1) HEADER_SIZE.

(* @src crates/engine/src/db/batch.rs:1210-1230 BatchInner::new_with_capacity *)
Definition BatchInner_new_with_capacity (cap : Z) : outcome BatchInner :=
  match checked_add usize_bits cap HEADER_SIZE with
  | None => Panic "batch initial capacity overflow"
  | Some capacity =>
      _ ← rust_assert (bool_decide (capacity <= MAX_BATCH_SIZE)) "capacity <= MAX_BATCH_SIZE";
      Done (data_resize
        (mkBatchInner [] capacity MAX_BATCH_SIZE 0 (BatchRuntimeState_as_u8 StAcquired)
           (mkBatchMeta 0 false) CFTable_new SyncLogWaiter_default 1) HEADER_SIZE)
  end.

(* @src crates/engine/src/db/batch.rs:1232-1242 BatchInner::init_buffer *)
Definition init_buffer (p : profile) (b : BatchInner) (capacity_hint : Z) : outcome BatchInner :=
  _ ← debug_assert p (bool_decide (len (bi_data b) = 0)) "self.data.len() == 0";
  desired_capacity ← add_w p usize_bits HEADER_SIZE capacity_hint;
  _ ← debug_assert p (bool_decide (desired_capacity <= bi_max_batch_size b))
        "desired_capacity <= self.max_batch_size";
  Done (data_resize (data_reserve b desired_capacity) HEADER_SIZE).

(** The pointer is to the first byte of the eight-byte slice. *)

(* @src crates/engine/src/db/batch.rs:1244-1253 BatchInner::seq_num *)
Definition seq_num (p : profile) (t : endian) (b : BatchInner) : outcome Z :=
  _ ← debug_assert p (bool_decide (len (bi_data b) > BATCH_COUNT_OFFSET))
        "self.data.len() > Self::BATCH_COUNT_OFFSET";
  ptr ← slice_range (bi_data b) 0 BATCH_COUNT_OFFSET;
  read_u64_unsafe t ptr 0.

(* @src crates/engine/src/db/batch.rs:1276-1286 BatchInner::assign_seq_num_once *)
Definition assign_seq_num_once (p : profile) (b : BatchInner) (seq_num : Z) : outcome BatchInner :=
  _ ← debug_assert p (bool_decide (len (bi_data b) > BATCH_COUNT_OFFSET))
        "self.data.len() > Self::BATCH_COUNT_OFFSET";
  b_ptr ← slice_range (bi_data b) 0 BATCH_COUNT_OFFSET;
  written ← write_u64_unsafe b_ptr 0 seq_num;
  Done (set_data b (splice 0 written (bi_data b))).

(* @src crates/engine/src/db/batch.rs:1293-1295 BatchInner::set_runtime_state *)
Definition set_runtime_state (b : BatchInner) (s : BatchRuntimeState) : BatchInner :=
  set_state_byte b (BatchRuntimeState_as_u8 s).

(* @src crates/engine/src/db/batch.rs:1297-1300 BatchInner::is_applied *)
Definition is_applied (b : BatchInner) : outcome bool :=
  s ← BatchRuntimeState_from (bi_state b); Done (bool_decide (s = StApplied)).

(* @src crates/engine/src/db/batch.rs:1302-1308 BatchInner::mark_applied *)
Definition mark_applied (b : BatchInner) : BatchInner := set_runtime_state b StApplied.

(* @src crates/engine/src/db/batch.rs:1310-1312 BatchInner::get_batch_count *)
Definition get_batch_count (b : BatchInner) : Z := bi_count b.

(* @src crates/engine/src/db/batch.rs:1314-1316 BatchInner::get_batch_size *)
Definition get_batch_size (b : BatchInner) : Z := len (bi_data b).

(* @src crates/engine/src/db/batch.rs:1318-1321 BatchInner::shrink_batch_to *)
Definition shrink_batch_to (b : BatchInner) (new_size : Z) : BatchInner := data_shrink_to b new_size.

(* @src crates/engine/src/db/batch.rs:1324-1326 BatchInner::estimate_entry_size *)
Definition estimate_entry_size (b : BatchInner) (key_len value : Z) : Z := 0.

(* @src crates/engine/src/db/batch.rs:1386-1393 BatchInner::send_sync_waiter *)
Definition send_sync_waiter (p : profile) (b : BatchInner) : outcome BatchInner :=
  _ ← debug_assert p (bool_decide (bi_waiter_refs b = 1)) "Arc::strong_count(&self.sync_waiter) == 1";
  Done (set_waiter b (bi_waiter b) (bi_waiter_refs b + 1)).

(* @src crates/engine/src/db/batch.rs:1395-1397 BatchInner::prime_sync_waiter *)
Definition prime_sync_waiter (p : profile) (b : BatchInner) : outcome BatchInner :=
  w ← SyncLogWaiter_prime p (bi_waiter b); Done (set_waiter b w (bi_waiter_refs b)).

(* @src crates/engine/src/db/batch.rs:1399-1401 BatchInner::sync_waiter_state *)
Definition sync_waiter_state (b : BatchInner) : outcome WalSyncResultState :=
  SyncLogWaiter_state (bi_waiter b).

(** ** Reservation *)

(* @src crates/engine/src/db/batch.rs:1328-1384 BatchInner::reserve_operation *)
Definition reserve_operation (p : profile) (b : BatchInner) (record_size : Z)
  : outcome (BatchInner * result (Z * Z) Error) :=
  match checked_add usize_bits HEADER_SIZE record_size with
  | None => Done (b, Err (RecordTooLarge usize_max (bi_max_batch_size b)))
  | Some empty_batch_size =>
      if decide (empty_batch_size > bi_max_batch_size b)
      then Done (b, Err (RecordTooLarge empty_batch_size (bi_max_batch_size b)))
      else
        '(b, current_size) ←
          (if decide (bi_data b = []) then
             b ← init_buffer p b record_size; Done (b, HEADER_SIZE)
           else Done (b, len (bi_data b)));
        match checked_add usize_bits current_size record_size with
        | None => Done (b, Err (BatchFull record_size current_size (bi_max_batch_size b)))
        | Some e =>
            if decide (e > bi_max_batch_size b)
            then Done (b, Err (BatchFull record_size current_size (bi_max_batch_size b)))
            else
              let start := len (bi_data b) in
              Done (data_resize b e, Ok (start, e))
        end
  end.

(* @src crates/engine/src/db/batch.rs:1405-1422 BatchInner::adjust_count_in_header *)
Definition adjust_count_in_header (b : BatchInner) (count : Z) : outcome (BatchInner * Z) :=
  _ ← rust_assert (bool_decide (HEADER_SIZE <= len (bi_data b))) "batch header must be initialised";
  count_bytes ← slice_range (bi_data b) BATCH_COUNT_OFFSET HEADER_SIZE;
  let old := from_le_bytes count_bytes in
  b ← data_write b BATCH_COUNT_OFFSET 4 (to_le_bytes 4 count);
  Done (b, old).

(** [u32::try_from] on a [usize]. *)

Definition u32_try_from (n : Z) : option Z := if decide (n < 2 ^ 32) then Some n else None.

(** The chain of [checked_add]s. *)

Fixpoint checked_sum (w acc : Z) (ns : list Z) : option Z :=
  match ns with
  | [] => Some acc
  | n :: ns => match checked_add w acc n with Some a => checked_sum w a ns | None => None end
  end.

(* @src crates/engine/src/db/batch.rs:1426-1468 BatchInner::key_value_record_layout *)
Definition key_value_record_layout (b : BatchInner) (key_len value_len : Z)
  : outcome (result (VarInt * VarInt * Z) Error) :=
  if decide (key_len > MAX_USER_KEY_BYTES) then Done (Err (KeyTooLarge key_len MAX_USER_KEY_BYTES))
  else match u32_try_from key_len with
  | None => Done (Err (KeyTooLarge key_len (u_max 32)))
  | Some encoded_key_len =>
      key_varint ← VarInt_new encoded_key_len;
      match u32_try_from value_len with
      | None => Done (Err (ValueTooLarge value_len (u_max 32)))
      | Some encoded_value_len =>
          value_varint ← VarInt_new encoded_value_len;
          match checked_sum usize_bits 1
                  [8; VarInt_size key_varint; key_len; VarInt_size value_varint; value_len] with
          | None => Done (Err (RecordTooLarge usize_max (bi_max_batch_size b)))
          | Some record_size => Done (Ok (key_varint, value_varint, record_size))
          end
      end
  end.

(** ** Writing *)

(* @src crates/engine/src/db/batch.rs:1526-1566 BatchInner::put *)
Definition BatchInner_put (p : profile) (b : BatchInner) (cf_id : Z) (key value : bytes)
  : outcome (BatchInner * result unit Error) :=
  let k_len := len key in
  let v_len := len value in
  layout ← key_value_record_layout b k_len v_len;
  match layout with
  | Err e => Done (b, Err e)
  | Ok (key_varint, value_varint, record_size) =>
      let k_varint_size := VarInt_size key_varint in
      let v_varint_size := VarInt_size value_varint in
      '(b, reserved) ← reserve_operation p b record_size;
      match reserved with
      | Err e => Done (b, Err e)
      | Ok (start, e) =>
          let index := start in
          b ← data_store b index (RecordKind_as_u8 RPut);
          let index := index + 1 in
          b ← data_write b index 8 (to_le_bytes 8 cf_id);
          let index := index + 8 in
          kv ← VarInt_as_slice key_varint;
          b ← data_write b index k_varint_size kv;
          let index := index + k_varint_size in
          b ← data_write b index k_len key;
          let index := index + k_len in
          vv ← VarInt_as_slice value_varint;
          b ← data_write b index v_varint_size vv;
          let index := index + v_varint_size in
          b ← data_write b index v_len value;
          let index := index + v_len in
          _ ← debug_assert p (bool_decide (index = e)) "index == end";
          count ← add_w p 32 (bi_count b) 1;
          let b := set_count b count in
          '(b, _) ← adjust_count_in_header b (bi_count b);
          Done (b, Ok tt)
      end
  end.

(** ** Deferred writing

    [d_batch] is the batch borrowed by the operation and [d_live] whether the
    [Option] that holds the borrow is still [Some]. *)

(* @src crates/engine/src/db/batch.rs:1017-1026 DeferredOp *)
Record DeferredOp := mkDeferredOp {
  d_batch : BatchInner;
  d_live : bool;
  d_reservation_start : Z;
  d_reservation_end : Z;
  d_key_offset : Z;
  d_key_len : Z;
  d_value_offset : Z;
  d_value_len : Z
}.

Definition d_set_batch (d : DeferredOp) (b : BatchInner) : DeferredOp :=
  mkDeferredOp b (d_live d) (d_reservation_start d) (d_reservation_end d) (d_key_offset d)
    (d_key_len d) (d_value_offset d) (d_value_len d).

(* @src crates/engine/src/db/batch.rs:1029-1050 DeferredOp::new *)
Definition DeferredOp_new (p : profile) (b : BatchInner)
    (reservation_start reservation_end key_offset key_len value_offset value_len : Z)
  : outcome DeferredOp :=
  _ ← debug_assert p (bool_decide (reservation_start <= reservation_end))
        "reservation_start <= reservation_end";
  Done (mkDeferredOp b true reservation_start reservation_end key_offset key_len value_offset value_len).

(** A mutable slice of the buffer is given as its range in it. *)

Definition slice_mut (b : BatchInner) (from to : Z) : outcome (Z * Z) :=
  _ ← slice_range (bi_data b) from to; Done (from, to).

(* @src crates/engine/src/db/batch.rs:1052-1057 DeferredOp::key_mut *)
Definition key_mut (p : profile) (d : DeferredOp) : outcome (Z * Z) :=
  _ ← debug_assert p (d_live d) "self.batch.is_some()";
  if d_live d then slice_mut (d_batch d) (d_key_offset d) (d_key_offset d + d_key_len d)
  else Panic "explicit panic".

(* @src crates/engine/src/db/batch.rs:1059-1064 DeferredOp::value_mut *)
Definition value_mut (p : profile) (d : DeferredOp) : outcome (Z * Z) :=
  _ ← debug_assert p (d_live d) "self.batch.is_some()";
  if d_live d then slice_mut (d_batch d) (d_value_offset d) (d_value_offset d + d_value_len d)
  else Panic "explicit panic".

(** [split_at_mut] on a range. *)

Definition split_range (r : Z * Z) (n : Z) : outcome ((Z * Z) * (Z * Z)) :=
  if decide (0 <= n <= r.2 - r.1) then Done ((r.1, r.1 + n), (r.1 + n, r.2))
  else Panic "mid > len".

(* @src crates/engine/src/db/batch.rs:1066-1086 DeferredOp::key_value_mut *)
Definition key_value_mut (p : profile) (d : DeferredOp) : outcome ((Z * Z) * (Z * Z)) :=
  if d_live d then
    region ← slice_mut (d_batch d) (d_key_offset d) (d_value_offset d + d_value_len d);
    '(key, remainder) ← split_range region (d_key_len d);
    value_varint_len ← sub_w p usize_bits (d_value_offset d) (d_key_offset d + d_key_len d);
    '(_, value) ← split_range remainder value_varint_len;
    '(value, _) ← split_range value (d_value_len d);
    Done (key, value)
  else Panic "missing deferred batch".

(* @src crates/engine/src/db/batch.rs:1089-1091 DeferredOp::finish *)
Definition DeferredOp_finish (d : DeferredOp) : DeferredOp :=
  mkDeferredOp (d_batch d) false (d_reservation_start d) (d_reservation_end d) (d_key_offset d)
    (d_key_len d) (d_value_offset d) (d_value_len d).

(* @src crates/engine/src/db/batch.rs:1093-1108 DeferredOp::rollback *)
Definition DeferredOp_rollback (p : profile) (d : DeferredOp) : outcome DeferredOp :=
  _ ← debug_assert p (d_live d) "self.batch.is_some()";
  if d_live d then
    let b := data_resize (d_batch d) (d_reservation_start d) in
    _ ← debug_assert p (bool_decide (len (bi_data b) = d_reservation_start d))
          "data.len() == self.reservation_start";
    Done (mkDeferredOp b true (d_reservation_start d) (d_reservation_start d) (d_key_offset d)
            (d_key_len d) (d_value_offset d) (d_value_len d))
  else Panic "found None for Batch when trying to Rollback".

(* @src crates/engine/src/db/batch.rs:1111-1119 DeferredOp::drop *)
Definition DeferredOp_drop (p : profile) (d : DeferredOp) : outcome BatchInner :=
  if d_live d then d_batch <$> DeferredOp_rollback p d else Done (d_batch d).

(* @src crates/engine/src/db/batch.rs:1470-1522 BatchInner::prepare_with_key_value_impl *)
Definition prepare_with_key_value_impl (p : profile) (b : BatchInner) (cf_id key_len value_len : Z)
    (kind : RecordKind) : outcome (BatchInner * result DeferredOp Error) :=
  _ ← debug_assert p (bool_decide (bi_state b <> BatchRuntimeState_as_u8 StInQueue))
        "runtime_commit_state != InQueue";
  layout ← key_value_record_layout b key_len value_len;
  match layout with
  | Err e => Done (b, Err e)
  | Ok (key_varint, value_varint, record_size) =>
      let k_varint_size := VarInt_size key_varint in
      let v_varint_size := VarInt_size value_varint in
      '(b, reserved) ← reserve_operation p b record_size;
      match reserved with
      | Err e => Done (b, Err e)
      | Ok (reservation_start, reservation_end) =>
          let index := reservation_start in
          b ← data_store b index (RecordKind_as_u8 kind);
          let index := index + 1 in
          b ← data_write b index 8 (to_le_bytes 8 cf_id);
          let index := index + 8 in
          kv ← VarInt_as_slice key_varint;
          b ← data_write b index k_varint_size kv;
          let index := index + k_varint_size in
          let key_offset := index in
          let index := index + key_len in
          vv ← VarInt_as_slice value_varint;
          b ← data_write b index v_varint_size vv;
          let index := index + v_varint_size in
          let value_offset := index in
          _ ← debug_assert p (bool_decide (reservation_end = index + value_len))
                "reservation_end == index + value_len";
          d ← DeferredOp_new p b reservation_start reservation_end key_offset key_len
                value_offset value_len;
          Done (b, Ok d)
      end
  end.

(** What a closure can do with the operation it is given: copy bytes into the
    slices the accessors return, finish it, or panic. *)

Inductive deferred_act :=
| KeyMut (xs : bytes)
| ValueMut (xs : bytes)
| KeyValueMut (ks vs : bytes)
| FinishOp
| PanicNow (why : string).

Definition write_range (d : DeferredOp) (r : Z * Z) (xs : bytes) : outcome DeferredOp :=
  data ← copy_into (bi_data (d_batch d)) (r.1) (r.2) xs;
  Done (d_set_batch d (set_data (d_batch d) data)).

(** The operation afterwards, and the panic that stopped the closure if any. *)

Definition attempt (m : outcome DeferredOp) (d : DeferredOp) : DeferredOp * option string :=
  match m with
  | Done d' => (d', None)
  | Panic w | UB w => (d, Some w)
  | NoFuel => (d, None)
  end.

Definition closure_act (p : profile) (a : deferred_act) (d : DeferredOp) : DeferredOp * option string :=
  match a with
  | KeyMut xs => attempt (r ← key_mut p d; write_range d r xs) d
  | ValueMut xs => attempt (r ← value_mut p d; write_range d r xs) d
  | KeyValueMut ks vs =>
      match key_value_mut p d with
      | Done (kr, vr) =>
          match attempt (write_range d kr ks) d with
          | (d, None) => attempt (write_range d vr vs) d
          | stopped => stopped
          end
      | m => attempt (_ ← m; Done d) d
      end
  | FinishOp => (DeferredOp_finish d, None)
  | PanicNow why => (d, Some why)
  end.

Fixpoint run_closure (p : profile) (f : list deferred_act) (d : DeferredOp) : DeferredOp * option string :=
  match f with
  | [] => (d, None)
  | a :: f =>
      match closure_act p a d with
      | (d, None) => run_closure p f d
      | stopped => stopped
      end
  end.

(** How a call that runs a closure ends: it returns, or unwinds with the
    closure's panic after dropping the operation. *)

Inductive unwind (A : Type) := Returned (a : A) | Unwound (why : string).
#[global] Arguments Returned {A} a.
#[global] Arguments Unwound {A} why.

(* @src crates/engine/src/db/batch.rs:1582-1606 BatchInner::put_with *)
Definition put_with (p : profile) (b : BatchInner) (cf_id key_len value_len : Z) (kind : RecordKind)
    (f : list deferred_act) : outcome (BatchInner * unwind (result unit Error)) :=
  '(b, prepared) ← prepare_with_key_value_impl p b cf_id key_len value_len kind;
  match prepared with
  | Err err => Done (b, Returned (Err err))
  | Ok def =>
      match run_closure p f def with
      | (def, None) =>
          b ← DeferredOp_drop p (DeferredOp_finish def);
          Done (b, Returned (Ok tt))
      | (def, Some why) =>
          b ← DeferredOp_drop p def;
          Done (b, Unwound why)
      end
  end.

(* @src crates/engine/src/db/batch.rs:1608-1631 BatchInner::clear *)
Definition BatchInner_clear (p : profile) (b : BatchInner) : outcome BatchInner :=
  s ← (match p with Debug => BatchRuntimeState_from (bi_state b) | Release => Done StAcquired end);
  _ ← debug_assert p (is_reset_safe s) "is_reset_safe()";
  Done (mkBatchInner [] (bi_cap b) (bi_max_batch_size b) 0 (bi_state b) (BatchMeta_clear (bi_meta b))
          (CFTable_clear (bi_cf_table b)) (bi_waiter b) (bi_waiter_refs b)).

(** ** Batch objects

    The commit-state parameter has no run-time content; the object is its
    batch. *)

(* @src crates/engine/src/db/batch.rs:783-789 BatchObject::state *)
Definition BatchObject_state (b : BatchInner) : outcome BatchRuntimeState :=
  BatchRuntimeState_from (bi_state b).

(* @src crates/engine/src/db/batch.rs:791-800 BatchObject::is_state *)
Definition BatchObject_is_state (b : BatchInner) (s : BatchRuntimeState) : bool :=
  bool_decide (bi_state b = BatchRuntimeState_as_u8 s).

(* @src crates/engine/src/db/batch.rs:802-827 BatchObject::wait_until_reusable *)
Definition wait_until_reusable (b : BatchInner) : outcome (result unit Error) :=
  s ← SyncLogWaiter_state (bi_waiter b);
  match s with
  | SyInit => Done (Ok tt)
  | SyPrimed =>
      r ← SyncLogWaiter_wait (bi_waiter b);
      Done match r with Ok tt => Ok tt | Err _ => Err WalErr end
  | SySyncDone => Done (Ok tt)
  | SyIoError | SyWalError => Done (Err WalErr)
  end.

(* @src crates/engine/src/db/batch.rs:829-836 BatchObject::can_reset *)
Definition can_reset (b : BatchInner) : outcome bool :=
  s ← BatchObject_state b; Done (is_reset_safe s).

(* @src crates/engine/src/db/batch.rs:840-847 BatchObject::reset_batch *)
Definition reset_batch (p : profile) (b : BatchInner) : outcome BatchInner :=
  s ← BatchObject_state b;
  _ ← rust_assert (is_reset_safe s) "self.state(Ordering::Acquire).is_reset_safe()";
  b ← BatchInner_clear p b;
  Done (set_runtime_state b StAcquired).

(* @src crates/engine/src/db/batch.rs:880-895 BatchObject::put_cf *)
Definition BatchObject_put_cf (p : profile) (b : BatchInner) (cf_id : Z) (key value : bytes)
  : outcome BatchInner :=
  '(b, _) ← BatchInner_put p b cf_id key value; Done b.

(* @src crates/engine/src/db/batch.rs:871-878 BatchObject::put *)
Definition BatchObject_put (p : profile) (b : BatchInner) (key value : bytes) : outcome BatchInner :=
  BatchObject_put_cf p b DEFAULT_CF_ID key value.

(* @src crates/engine/src/db/batch.rs:936-944 BatchObject::acquire *)
Definition BatchObject_acquire (b : BatchInner) : BatchInner := set_runtime_state b StAcquired.

(* @src crates/engine/src/db/batch.rs:950-956 BatchObject::set_acquired_state *)
Definition set_acquired_state (b : BatchInner) : BatchInner := set_runtime_state b StAcquired.

(* @src crates/engine/src/db/batch.rs:965-970 BatchObject::resize_to *)
Definition BatchObject_resize_to (b : BatchInner) (new_size : Z) : BatchInner := data_reserve b new_size.

(* @src crates/engine/src/db/batch.rs:972-976 BatchObject::shrink_to *)
Definition BatchObject_shrink_to (b : BatchInner) (new_size : Z) : BatchInner := shrink_batch_to b new_size.

(* @src crates/engine/src/db/batch.rs:566-579 Batch::reset *)
Definition Batch_reset (p : profile) (b : BatchInner) : outcome BatchInner :=
  c ← (match p with Debug => can_reset b | Release => Done true end);
  _ ← debug_assert p c "batch cannot be reset while the pipeline still owns access";
  r ← wait_until_reusable b;
  match r with
  | Err _ => Panic "batch wait failed before reset"
  | Ok tt => reset_batch p b
  end.

(** ** The encoding, as a specification *)

Record rec := mkRec { r_kind : RecordKind; r_cf : Z; r_key : bytes; r_value : bytes }.

Definition enc_rec (r : rec) : bytes :=
  [RecordKind_as_u8 (r_kind r)] ++ to_le_bytes 8 (r_cf r) ++ varint (len (r_key r)) ++ r_key r ++
  varint (len (r_value r)) ++ r_value r.

Definition header (seq count : Z) : bytes := to_le_bytes 8 seq ++ to_le_bytes 4 count.

Definition encode_batch (seq : Z) (rs : list rec) : bytes :=
  header seq (Z.of_nat (length rs)) ++ concat (enc_rec <$> rs).

(** What a closure does to the operation, as a specification: a key and a
    value, zeroed at first, and whether the operation is still open.  Bytes of
    another length than the slice, an accessor on a finished operation and the
    closure's own panics stop it. *)

Record filling := mkFilling { fl_open : bool; fl_key : bytes; fl_value : bytes }.

Definition MISFIT : string := "source slice length does not match destination slice length".

Definition FINISHED (p : profile) : string :=
  match p with Debug => "self.batch.is_some()" | Release => "explicit panic" end.

Definition fill_key (s : filling) (xs : bytes) : filling * option string :=
  if decide (len xs = len (fl_key s)) then (mkFilling (fl_open s) xs (fl_value s), None) else (s, Some MISFIT).

Definition fill_value (s : filling) (xs : bytes) : filling * option string :=
  if decide (len xs = len (fl_value s)) then (mkFilling (fl_open s) (fl_key s) xs, None) else (s, Some MISFIT).

Definition fill_act (p : profile) (a : deferred_act) (s : filling) : filling * option string :=
  match a with
  | KeyMut xs => if fl_open s then fill_key s xs else (s, Some (FINISHED p))
  | ValueMut xs => if fl_open s then fill_value s xs else (s, Some (FINISHED p))
  | KeyValueMut ks vs =>
      if fl_open s then match fill_key s ks with (s, None) => fill_value s vs | stopped => stopped end
      else (s, Some "missing deferred batch")
  | FinishOp => (mkFilling false (fl_key s) (fl_value s), None)
  | PanicNow why => (s, Some why)
  end.

Fixpoint fill (p : profile) (f : list deferred_act) (s : filling) : filling * option string :=
  match f with
  | [] => (s, None)
  | a :: f => match fill_act p a s with (s, None) => fill p f s | stopped => stopped end
  end.

(** The closure is given slices of zeros. *)

Definition fill_new (kl vl : Z) : filling := mkFilling true (replicate (Z.to_nat kl) 0) (replicate (Z.to_nat vl) 0).

Definition kind_of_byte (z : Z) : option RecordKind :=
  match filter (fun k => RecordKind_as_u8 k = z) [RPut; RDelete; RMerge; RRangeDel; RLogData] with
  | [k] => Some k
  | _ => None
  end.

(** A reader of one record, on the decoder the program has for lengths. *)

Definition parse_block (d : bytes) : option (bytes * bytes) :=
  match VarInt_decode Release d with
  | Done (n, used) =>
      let rest := drop (Z.to_nat used) d in
      if decide (n <= len rest) then Some (take (Z.to_nat n) rest, drop (Z.to_nat n) rest) else None
  | _ => None
  end.

Definition parse_rec (d : bytes) : option (rec * bytes) :=
  match d with
  | [] => None
  | k :: d =>
      kind ← kind_of_byte k;
      '(key, d') ← parse_block (drop 8 d);
      '(value, d') ← parse_block d';
      Some (mkRec kind (from_le_bytes (take 8 d)) key value, d')
  end.

Fixpoint parse_recs (n : nat) (d : bytes) : option (list rec) :=
  match n with
  | O => match d with [] => Some [] | _ => None end
  | S n => '(r, d) ← parse_rec d; (r ::.) <$> parse_recs n d
  end.

(** The whole buffer: as many records as the header counts. *)

Definition parse_batch (d : bytes) : option (Z * list rec) :=
  if decide (len d < HEADER_SIZE) then None
  else
    let seq := from_le_bytes (take 8 d) in
    let count := from_le_bytes (take 4 (drop 8 d)) in
    (seq ,.) <$> parse_recs (Z.to_nat count) (drop 12 d).

(** ** Reservation and encoding lemmas *)

Definition rec_size (kl vl : Z) : Z := 1 + 8 + len (varint kl) + kl + len (varint vl) + vl.

Lemma len_enc_rec r : len (enc_rec r) = rec_size (len (r_key r)) (len (r_value r)).
Proof. unfold enc_rec, rec_size. autorewrite with lens. lia. Qed.

Lemma varint_len_bounds v : in_width 32 v -> 1 <= len (varint v) <= 5.
Proof. intros H. rewrite varint_len by done. unfold varint_size. repeat case_decide; lia. Qed.

Lemma reserve_cap_ge cap l n : l <= cap -> l + n <= reserve_cap cap l n.
Proof. unfold reserve_cap. case_decide; lia. Qed.

Lemma reserve_cap_mono cap l n : 0 <= cap -> cap <= reserve_cap cap l n.
Proof. unfold reserve_cap. case_decide; lia. Qed.

Definition layout_error (kl vl : Z) : option Error :=
  if decide (kl > MAX_USER_KEY_BYTES) then Some (KeyTooLarge kl MAX_USER_KEY_BYTES)
  else if decide (2 ^ 32 <= vl) then Some (ValueTooLarge vl (u_max 32))
  else None.

Lemma layout_spec b kl vl :
  0 <= kl -> 0 <= vl ->
  match layout_error kl vl with
  | Some e => key_value_record_layout b kl vl = Done (Err e)
  | None => exists kv vv, VarInt_ok kl kv /\ VarInt_ok vl vv /\ in_width 32 kl /\ in_width 32 vl /\
              key_value_record_layout b kl vl = Done (Ok (kv, vv, rec_size kl vl))
  end.
Proof.
  intros Hk Hv. unfold layout_error, key_value_record_layout.
  change MAX_USER_KEY_BYTES with 65535. case_decide as Hbig; [done|].
  assert (Hk32 : in_width 32 kl) by (unfold in_width; lia).
  destruct (VarInt_new_spec kl Hk32) as (kv & Hkv & Hkok).
  unfold u32_try_from. rewrite (decide_True (P := kl < 2 ^ 32)) by lia. rewrite Hkv. cbn [mbind outcome_bind].
  destruct (decide (2 ^ 32 <= vl)) as [Hge|Hlt]; [by rewrite decide_False by lia|].
  rewrite decide_True by lia. assert (Hv32 : in_width 32 vl) by (unfold in_width; lia).
  destruct (VarInt_new_spec vl Hv32) as (vv & Hvv & Hvok). rewrite Hvv. cbn [mbind outcome_bind].
  exists kv, vv. split_and!; try done.
  pose proof (varint_len_bounds kl Hk32). pose proof (varint_len_bounds vl Hv32).
  destruct Hkok as (_ & -> & _). destruct Hvok as (_ & -> & _).
  unfold rec_size, checked_sum, checked_add, usize_bits.
  rewrite !decide_True by lia. done.
Qed.

(** The data a reservation starts from: an empty buffer gets a zeroed header. *)

Definition started (b : BatchInner) : bytes :=
  if decide (bi_data b = []) then replicate 12 0 else bi_data b.

Definition room (b : BatchInner) : Prop := 0 <= bi_max_batch_size b <= MAX_BATCH_SIZE.

Definition reserve_error (b : BatchInner) (n : Z) : option Error :=
  if decide (HEADER_SIZE + n > bi_max_batch_size b)
  then Some (RecordTooLarge (HEADER_SIZE + n) (bi_max_batch_size b))
  else if decide (len (started b) + n > bi_max_batch_size b)
  then Some (BatchFull n (len (started b)) (bi_max_batch_size b))
  else None.

Lemma len_nil_iff {A} (l : list A) : len l = 0 <-> l = [].
Proof. destruct l; unfold len; simpl; split; (done || lia). Qed.

Lemma data_resize_grow b n :
  len (bi_data b) <= n -> len (bi_data b) <= bi_cap b ->
  exists c, n <= c /\ bi_cap b <= c /\
    data_resize b n = set_cap (set_data b (bi_data b ++ replicate (Z.to_nat (n - len (bi_data b))) 0)) c.
Proof.
  intros Hn Hc. exists (reserve_cap (bi_cap b) (len (bi_data b)) (n - len (bi_data b))).
  split; [|split; [|unfold data_resize, data_reserve, set_data; cbn; by rewrite vec_resize_grow]].
  - pose proof (reserve_cap_ge (bi_cap b) (len (bi_data b)) (n - len (bi_data b)) Hc). lia.
  - apply reserve_cap_mono. pose proof (len_nonneg (bi_data b)). lia.
Qed.

Lemma init_buffer_done p b n :
  bi_data b = [] -> 0 <= bi_cap b -> 0 < n -> HEADER_SIZE + n <= bi_max_batch_size b -> room b ->
  exists c, HEADER_SIZE + n <= c /\ init_buffer p b n = Done (set_cap (set_data b (replicate 12 0)) c).
Proof.
  unfold room, MAX_BATCH_SIZE, DEFAULT_MAX_WRITE_BATCH_BYTES, HEADER_SIZE. intros E Hc Hn Hfit Hroom.
  unfold init_buffer, HEADER_SIZE, usize_bits.
  rewrite debug_assert_true by (apply bool_decide_true; by rewrite E).
  rewrite add_w_small by lia. cbn [mbind outcome_bind].
  rewrite debug_assert_true by (by apply bool_decide_true). cbn [mbind outcome_bind].
  destruct (data_resize_grow (data_reserve b (8 + 4 + n)) (8 + 4)) as (c & H1 & H2 & ->);
    cbn [data_reserve set_cap bi_data bi_cap] in *; rewrite E in *; change (len (@nil Z)) with 0 in *.
  - lia.
  - pose proof (reserve_cap_mono (bi_cap b) 0 (8 + 4 + n) Hc). lia.
  - exists c. split; [|done]. pose proof (reserve_cap_ge (bi_cap b) 0 (8 + 4 + n) Hc). lia.
Qed.

Lemma reserve_operation_spec p b n :
  room b -> 0 < n < 2 ^ 40 -> len (bi_data b) <= bi_cap b ->
  match reserve_error b n with
  | Some e => reserve_operation p b n = Done (b, Err e)
  | None => exists c, len (started b) + n <= c /\
      reserve_operation p b n =
        Done (set_cap (set_data b (started b ++ replicate (Z.to_nat n) 0)) c,
              Ok (len (started b), len (started b) + n))
  end.
Proof.
  intros Hm Hn Hc. pose proof (len_nonneg (bi_data b)) as Hl.
  assert (Hm' : bi_max_batch_size b <= 2 ^ 20) by apply Hm.
  assert (E0 : checked_add usize_bits HEADER_SIZE n = Some (HEADER_SIZE + n))
    by (apply checked_add_Some; split; [done|unfold HEADER_SIZE, usize_bits; lia]).
  unfold reserve_error, reserve_operation, started. rewrite E0.
  case_decide as Hbig; [done|]. destruct (decide (bi_data b = [])) as [E|E].
  - destruct (init_buffer_done p b n E ltac:(lia) ltac:(lia) ltac:(lia) Hm) as (c0 & Hc0 & ->).
    cbn [mbind outcome_bind]. change (len (replicate 12 0)) with HEADER_SIZE. rewrite E0.
    rewrite (decide_False (P := HEADER_SIZE + n > _)) by done.
    cbn [bi_max_batch_size set_cap set_data bi_data]. rewrite decide_False by done.
    change (len (replicate 12 0)) with HEADER_SIZE.
    destruct (data_resize_grow (set_cap (set_data b (replicate 12 0)) c0) (HEADER_SIZE + n)) as (c & H1 & H2 & ->);
      cbn [bi_data bi_cap set_cap set_data] in *; change (len (replicate 12 0)) with HEADER_SIZE in *; [lia|lia|].
    exists c. split; [done|]. by replace (HEADER_SIZE + n - HEADER_SIZE) with n by lia.
  - cbn [mbind outcome_bind]. unfold checked_add.
    destruct (decide (len (bi_data b) + n < 2 ^ usize_bits)) as [Hs|Hs];
      [|by rewrite decide_True by (unfold usize_bits in Hs; lia)].
    case_decide as Hfull; [done|].
    destruct (data_resize_grow b (len (bi_data b) + n)) as (c & H1 & H2 & ->); [lia|done|].
    exists c. split; [done|]. by replace (len (bi_data b) + n - len (bi_data b)) with n by lia.
Qed.

(** ** Writing into a reservation *)

Definition zeros (n : Z) : bytes := replicate (Z.to_nat n) 0.

Lemma len_zeros n : 0 <= n -> len (zeros n) = n.
Proof. intros. unfold zeros. rewrite len_replicate. lia. Qed.

Lemma zeros_split a n : 0 <= a <= n -> zeros n = zeros a ++ zeros (n - a).
Proof. intros. unfold zeros. rewrite <- replicate_add. f_equal. lia. Qed.

Lemma drop_zeros (xs : bytes) n : drop (length xs) (zeros n) = zeros (n - len xs).
Proof. unfold zeros, len. rewrite drop_replicate. f_equal. lia. Qed.

(** A batch that differs from [b] in its data and capacity only. *)

Abbreviation with_data b d c := (set_cap (set_data b d) c).

Lemma data_write_zeros b c l n i m xs :
  i = len l -> m = len xs -> len xs <= n ->
  data_write (with_data b (l ++ zeros n) c) i m xs
  = Done (with_data b ((l ++ xs) ++ zeros (n - len xs)) c).
Proof.
  intros -> -> Hn. unfold data_write. cbn [bi_data set_cap set_data].
  pose proof (len_nonneg xs). pose proof (len_nonneg l).
  rewrite copy_into_done by (rewrite ?len_app, ?len_zeros by lia; lia). cbn [mbind outcome_bind].
  by rewrite splice_app, drop_zeros, app_assoc.
Qed.

Lemma data_store_zeros b c l n i x :
  i = len l -> 1 <= n ->
  data_store (with_data b (l ++ zeros n) c) i x = Done (with_data b ((l ++ [x]) ++ zeros (n - 1)) c).
Proof.
  intros -> Hn. unfold data_store. cbn [bi_data set_cap set_data]. pose proof (len_nonneg l).
  rewrite store_at_done by (rewrite len_app, len_zeros by lia; lia). cbn [mbind outcome_bind].
  by rewrite splice_app, drop_zeros, app_assoc.
Qed.

(** The fixed part of a record, as both writing paths lay it down. *)

Definition rec_head (k : RecordKind) (cf kl : Z) : bytes :=
  [RecordKind_as_u8 k] ++ to_le_bytes 8 cf ++ varint kl.

Lemma enc_rec_parts r :
  enc_rec r = rec_head (r_kind r) (r_cf r) (len (r_key r)) ++ r_key r ++ varint (len (r_value r)) ++ r_value r.
Proof. unfold enc_rec, rec_head. by rewrite <- !app_assoc. Qed.

Lemma len_rec_head k cf kl : len (rec_head k cf kl) = 9 + len (varint kl).
Proof. unfold rec_head. autorewrite with lens. lia. Qed.

(** The index bookkeeping of the writers. *)

Ltac lens := autorewrite with lens; unfold rec_size in *; try lia.

Lemma write_head {A} b c D n k cf kl kv (K : BatchInner -> Z -> outcome A) :
  VarInt_ok kl kv -> 9 + len (varint kl) <= n ->
  (b' ← data_store (with_data b (D ++ zeros n) c) (len D) (RecordKind_as_u8 k);
   b' ← data_write b' (len D + 1) 8 (to_le_bytes 8 cf);
   kb ← VarInt_as_slice kv;
   b' ← data_write b' (len D + 1 + 8) (VarInt_size kv) kb;
   K b' (len D + 1 + 8 + VarInt_size kv))
  = K (with_data b ((D ++ rec_head k cf kl) ++ zeros (n - (9 + len (varint kl)))) c)
      (len (D ++ rec_head k cf kl)).
Proof.
  intros (Hs & Hz & _) Hn. pose proof (len_nonneg (varint kl)). rewrite Hs, Hz.
  rewrite data_store_zeros by lia. cbn [mbind outcome_bind].
  rewrite data_write_zeros by lens. cbn [mbind outcome_bind].
  rewrite data_write_zeros by lens. cbn [mbind outcome_bind].
  rewrite len_app, len_rec_head, len_to_le_bytes. unfold rec_head. rewrite <- !app_assoc. f_equal; [|lia].
  do 2 f_equal. do 5 f_equal. lia.
Qed.

(** ** The header *)

Lemma adjust_count_done b s c rest n :
  bi_data b = s ++ c ++ rest -> length s = 8%nat -> length c = 4%nat ->
  adjust_count_in_header b n = Done (set_data b (s ++ to_le_bytes 4 n ++ rest), from_le_bytes c).
Proof.
  intros E Hs Hc. unfold adjust_count_in_header. rewrite E.
  assert (Ls : len s = 8) by (unfold len; lia). assert (Lc : len c = 4) by (unfold len; lia).
  pose proof (len_nonneg rest).
  rewrite rust_assert_true by (apply bool_decide_true; unfold HEADER_SIZE; lens). cbn [mbind outcome_bind].
  unfold BATCH_COUNT_OFFSET, HEADER_SIZE. rewrite slice_range_app by lia. cbn [mbind outcome_bind].
  unfold data_write. rewrite E, copy_into_done by lens. cbn [mbind outcome_bind].
  rewrite splice_app_at by done. rewrite to_le_bytes_length, <- Hc, drop_app_length. done.
Qed.

(** ** Well-formed batches

    [batch_ok b seq n rs]: the buffer of [b], once its header is there, is the
    encoding of a header with sequence number [seq] and count [n] and of the
    records [rs]. *)

Definition rec_ok (r : rec) : Prop :=
  in_width 64 (r_cf r) /\ len (r_key r) <= MAX_USER_KEY_BYTES /\ len (r_value r) < 2 ^ 32.

Record batch_ok (b : BatchInner) (seq n : Z) (rs : list rec) : Prop := mkBatchOk {
  bo_room : room b;
  bo_cap : len (bi_data b) <= bi_cap b;
  bo_fits : len (bi_data b) <= bi_max_batch_size b;
  bo_count : bi_count b = n;
  bo_le : 0 <= n <= Z.of_nat (length rs);
  bo_data : started b = header seq n ++ concat (enc_rec <$> rs);
  bo_recs : Forall rec_ok rs
}.

Lemma len_header s n : len (header s n) = HEADER_SIZE.
Proof. unfold header, HEADER_SIZE. lens. Qed.

Lemma rec_size_bounds kl vl :
  in_width 32 kl -> in_width 32 vl -> 11 <= rec_size kl vl < 2 ^ 40.
Proof.
  intros Hk Hv. pose proof (varint_len_bounds kl Hk). pose proof (varint_len_bounds vl Hv).
  unfold rec_size, in_width in *. lia.
Qed.

Lemma rec_ok_widths r : rec_ok r -> in_width 32 (len (r_key r)) /\ in_width 32 (len (r_value r)).
Proof.
  intros (_ & Hk & Hv). change MAX_USER_KEY_BYTES with 65535 in Hk.
  pose proof (len_nonneg (r_key r)). pose proof (len_nonneg (r_value r)). unfold in_width. lia.
Qed.

Lemma enc_recs_len rs : Forall rec_ok rs -> Z.of_nat (length rs) * 11 <= len (concat (enc_rec <$> rs)).
Proof.
  induction 1 as [|r rs Hr _ IH]; [done|]. cbn [fmap list_fmap concat length].
  rewrite len_app, len_enc_rec. destruct (rec_ok_widths r Hr) as [Hk Hv].
  pose proof (rec_size_bounds _ _ Hk Hv). lia.
Qed.

Lemma started_nonempty b : started b <> [].
Proof. unfold started. case_decide; [done|done]. Qed.

Lemma len_started b : len (bi_data b) <= len (started b).
Proof.
  unfold started. case_decide as E; [|lia]. rewrite E.
  change (len (@nil Z)) with 0. apply len_nonneg.
Qed.

Lemma started_with_data b d c : d <> [] -> started (with_data b d c) = d.
Proof. intros. unfold started. cbn. by rewrite decide_False. Qed.

Lemma app_started_nonempty b d : started b ++ d <> [].
Proof. pose proof (started_nonempty b). by destruct (started b). Qed.

Lemma batch_ok_count_bound b seq n rs : batch_ok b seq n rs -> n + 1 < 2 ^ 32.
Proof.
  intros H. pose proof (bo_le _ _ _ _ H). pose proof (enc_recs_len rs (bo_recs _ _ _ _ H)).
  pose proof (f_equal len (bo_data _ _ _ _ H)) as E. rewrite len_app, len_header in E.
  destruct (bo_room _ _ _ _ H) as [_ Hm]. pose proof (bo_fits _ _ _ _ H) as Hf.
  assert (len (started b) <= Z.max 12 (len (bi_data b))).
  { unfold started. case_decide; [|lia]. change (len (replicate 12 0)) with 12. lia. }
  unfold HEADER_SIZE in *. change MAX_BATCH_SIZE with 1048576 in Hm. lia.
Qed.

(** ** Put *)

(** The error the checks report for a record, if any, in the order they run. *)

Definition put_error (b : BatchInner) (kl vl : Z) : option Error :=
  match layout_error kl vl with
  | Some e => Some e
  | None => reserve_error b (rec_size kl vl)
  end.

Lemma put_reserved p b cf key value c n seq rs :
  batch_ok b seq n rs -> 
  let b' := with_data b (started b ++ enc_rec (mkRec RPut cf key value)) c in
  (count ← add_w p 32 (bi_count b') 1;
   '(b', _) ← adjust_count_in_header (set_count b' count) count; Done (b', Ok (E := Error) tt))
  = Done (set_count (with_data b (header seq (n + 1) ++ concat (enc_rec <$> (rs ++ [mkRec RPut cf key value]))) c) (n + 1),
          Ok tt).
Proof.
  intros H b'. subst b'. cbn [bi_count set_cap set_data]. rewrite (bo_count _ _ _ _ H).
  rewrite add_w_small by (apply (batch_ok_count_bound _ _ _ _ H)). cbn [mbind outcome_bind].
  rewrite (adjust_count_done _ (to_le_bytes 8 seq) (to_le_bytes 4 n)
             (concat (enc_rec <$> (rs ++ [mkRec RPut cf key value]))));
    [| |apply to_le_bytes_length|apply to_le_bytes_length].
  - cbn [mbind outcome_bind]. unfold header. by rewrite <- app_assoc.
  - cbn [bi_data set_count set_cap set_data]. rewrite (bo_data _ _ _ _ H). unfold header.
    rewrite fmap_app, concat_app. cbn [fmap list_fmap concat]. by rewrite app_nil_r, <- !app_assoc.
Qed.

(** The writes of [put], once the space is reserved. *)

Lemma put_writes p b c D cf key value kv vv n (K : BatchInner -> outcome (BatchInner * result unit Error)) :
  VarInt_ok (len key) kv -> VarInt_ok (len value) vv -> n = rec_size (len key) (len value) ->
  (b' ← data_store (with_data b (D ++ zeros n) c) (len D) (RecordKind_as_u8 RPut);
   b' ← data_write b' (len D + 1) 8 (to_le_bytes 8 cf);
   kb ← VarInt_as_slice kv;
   b' ← data_write b' (len D + 1 + 8) (VarInt_size kv) kb;
   b' ← data_write b' (len D + 1 + 8 + VarInt_size kv) (len key) key;
   vb ← VarInt_as_slice vv;
   b' ← data_write b' (len D + 1 + 8 + VarInt_size kv + len key) (VarInt_size vv) vb;
   b' ← data_write b' (len D + 1 + 8 + VarInt_size kv + len key + VarInt_size vv) (len value) value;
   _ ← debug_assert p (bool_decide
         (len D + 1 + 8 + VarInt_size kv + len key + VarInt_size vv + len value = len D + n)) "index == end";
   K b')
  = K (with_data b (D ++ enc_rec (mkRec RPut cf key value)) c).
Proof.
  intros Hk Hv ->. pose proof (len_nonneg key). pose proof (len_nonneg value).
  pose proof (len_nonneg (varint (len key))). pose proof (len_nonneg (varint (len value))).
  pose (K' := fun b' (i : Z) =>
    b' ← data_write b' i (len key) key;
    vb ← VarInt_as_slice vv;
    b' ← data_write b' (i + len key) (VarInt_size vv) vb;
    b' ← data_write b' (i + len key + VarInt_size vv) (len value) value;
    _ ← debug_assert p (bool_decide (i + len key + VarInt_size vv + len value =
          len D + rec_size (len key) (len value))) "index == end";
    K b').
  etransitivity; [apply (write_head b c D _ RPut cf (len key) kv K'); [done|lens]|]. unfold K'.
  destruct Hv as (-> & -> & _).
  rewrite data_write_zeros by lens. cbn [mbind outcome_bind].
  rewrite data_write_zeros by lens. cbn [mbind outcome_bind].
  rewrite data_write_zeros by lens. cbn [mbind outcome_bind].
  rewrite debug_assert_true by (apply bool_decide_true; rewrite !len_app, len_rec_head; lens).
  cbn [mbind outcome_bind]. f_equal. do 2 f_equal.
  rewrite enc_rec_parts. cbn [r_kind r_cf r_key r_value]. rewrite <- !app_assoc. do 4 f_equal.
  unfold rec_size, zeros. replace (Z.to_nat _) with 0%nat by lia. apply app_nil_r.
Qed.

Lemma put_outcome p b cf key value seq n rs :
  batch_ok b seq n rs -> in_width 64 cf ->
  let r := mkRec RPut cf key value in
  match put_error b (len key) (len value) with
  | Some e => BatchInner_put p b cf key value = Done (b, Err e)
  | None => exists b', BatchInner_put p b cf key value = Done (b', Ok tt) /\
      batch_ok b' seq (n + 1) (rs ++ [r]) /\ bi_data b' <> [] /\
      exists d c, b' = set_count (with_data b d c) (n + 1)
  end.
Proof.
  intros H Hcf r. pose proof (len_nonneg key). pose proof (len_nonneg value).
  pose proof (layout_spec b (len key) (len value) ltac:(done) ltac:(done)) as Hlay.
  unfold put_error, BatchInner_put. destruct (layout_error (len key) (len value)) as [e|] eqn:El;
    [by rewrite Hlay|]. destruct Hlay as (kv & vv & Hkv & Hvv & Hk & Hv & ->). cbn [mbind outcome_bind].
  pose proof (rec_size_bounds _ _ Hk Hv) as Hsz.
  pose proof (reserve_operation_spec p b (rec_size (len key) (len value)) (bo_room _ _ _ _ H)
                ltac:(lia) (bo_cap _ _ _ _ H)) as Hres.
  destruct (reserve_error b (rec_size (len key) (len value))) as [e|] eqn:Er; [by rewrite Hres|].
  destruct Hres as (c & Hc & ->). cbn [mbind outcome_bind].
  fold (zeros (rec_size (len key) (len value))).
  eexists. split.
  { etransitivity; [apply (put_writes p b c (started b) cf key value kv vv _ (fun b' =>
      count ← add_w p 32 (bi_count b') 1;
      '(b', _) ← adjust_count_in_header (set_count b' count) count; Done (b', Ok tt))); done|].
    apply (put_reserved p b cf key value c n seq rs H). }
  subst r.
  set (data := header seq (n + 1) ++ concat (enc_rec <$> rs ++ [mkRec RPut cf key value])).
  assert (Elen : len data
                 = len (started b) + rec_size (len key) (len value)).
  { subst data. rewrite (bo_data _ _ _ _ H), !len_app, !len_header, fmap_app, concat_app, len_app.
    cbn [fmap list_fmap concat]. rewrite app_nil_r, len_enc_rec. cbn [r_key r_value]. lia. }
  assert (Hne : data <> []) by done.
  split; [|split; [done|by eexists _, _]].
  constructor; cbn [bi_data bi_cap bi_max_batch_size bi_count set_count set_cap set_data].
  - apply H.
  - by rewrite Elen.
  - rewrite Elen. unfold reserve_error in Er. repeat case_decide; by (done || lia).
  - done.
  - rewrite length_app. pose proof (bo_le _ _ _ _ H). simpl. lia.
  - unfold started. cbn [bi_data set_count set_cap set_data]. by rewrite decide_False.
  - apply Forall_app_2; [apply H|]. constructor; [|done]. unfold layout_error in El.
    repeat case_decide; try done. unfold rec_ok. cbn [r_cf r_key r_value]. split; [done|lia].
Qed.

(** ** The sequence number *)

Lemma assign_seq_num_once_done p b s rest seq :
  bi_data b = s ++ rest -> length s = 8%nat -> rest <> [] ->
  assign_seq_num_once p b seq = Done (set_data b (to_le_bytes 8 seq ++ rest)).
Proof.
  intros E Hs Hr. assert (Ls : len s = 8) by (unfold len; lia).
  assert (0 < len rest) by (destruct rest; [done|unfold len; simpl; lia]).
  unfold assign_seq_num_once, BATCH_COUNT_OFFSET. rewrite E.
  rewrite debug_assert_true by (apply bool_decide_true; lens). cbn [mbind outcome_bind].
  rewrite (slice_range_app [] s rest) by (autorewrite with lens; lia). cbn [mbind outcome_bind].
  unfold write_u64_unsafe. rewrite copy_nonoverlapping_done by lens. cbn [mbind outcome_bind].
  assert (Hsp : forall l, splice 0 (to_le_bytes 8 seq) (s ++ l) = to_le_bytes 8 seq ++ l).
  { intros l. etransitivity; [apply (splice_app_at 0 [] (to_le_bytes 8 seq) (s ++ l)); done|].
    by rewrite app_nil_l, to_le_bytes_length, <- Hs, drop_app_length. }
  pose proof (Hsp []) as Hs0. rewrite !app_nil_r in Hs0. rewrite Hs0.
  by rewrite Hsp.
Qed.

Lemma seq_num_done p t b seq rest :
  bi_data b = to_le_bytes 8 seq ++ rest -> rest <> [] -> in_width 64 seq -> seq_num p t b = Done seq.
Proof.
  intros E Hr Hs. assert (0 < len rest) by (destruct rest; [done|unfold len; simpl; lia]).
  unfold seq_num, BATCH_COUNT_OFFSET. rewrite E.
  rewrite debug_assert_true by (apply bool_decide_true; lens). cbn [mbind outcome_bind].
  rewrite (slice_range_app [] (to_le_bytes 8 seq) rest) by (autorewrite with lens; lia). cbn [mbind outcome_bind].
  unfold read_u64_unsafe, read_unaligned. rewrite decide_True by (autorewrite with lens; lia).
  rewrite drop_0, take_ge by (rewrite to_le_bytes_length; lia). cbn [fmap outcome_fmap].
  by rewrite int_to_le_roundtrip.
Qed.

(** ** Decoding *)

Lemma parse_block_enc xs rest :
  in_width 32 (len xs) -> parse_block (varint (len xs) ++ xs ++ rest) = Some (xs, rest).
Proof.
  intros H. unfold parse_block. rewrite VarInt_decode_spec by done.
  replace (Z.to_nat (len (varint (len xs)))) with (length (varint (len xs))) by (unfold len; lia).
  rewrite drop_app_length. pose proof (len_nonneg rest). rewrite decide_True by (autorewrite with lens; lia).
  replace (Z.to_nat (len xs)) with (length xs) by (unfold len; lia).
  by rewrite take_app_length, drop_app_length.
Qed.

Lemma parse_rec_enc r rest : rec_ok r -> parse_rec (enc_rec r ++ rest) = Some (r, rest).
Proof.
  intros Hr. destruct (rec_ok_widths r Hr) as [Hk Hv]. destruct Hr as (Hcf & _ & _).
  unfold enc_rec. rewrite <- !app_assoc. cbn [app parse_rec].
  assert (kind_of_byte (RecordKind_as_u8 (r_kind r)) = Some (r_kind r)) as -> by (by destruct (r_kind r)).
  cbn [mbind option_bind]. set (d := to_le_bytes 8 (r_cf r)).
  assert (Hd : length d = 8%nat) by apply to_le_bytes_length.
  rewrite <- Hd at 1. rewrite drop_app_length, parse_block_enc by done. cbn [mbind option_bind].
  rewrite parse_block_enc by done. cbn [mbind option_bind]. do 2 f_equal.
  rewrite <- Hd at 1. rewrite take_app_length. unfold d. rewrite from_to_le_bytes.
  destruct r; cbn in *. f_equal. by apply wrap_small.
Qed.

Lemma parse_recs_enc rs : Forall rec_ok rs -> parse_recs (length rs) (concat (enc_rec <$> rs)) = Some rs.
Proof.
  induction 1 as [|r rs Hr _ IH]; [done|]. cbn [length parse_recs fmap list_fmap concat].
  rewrite parse_rec_enc by done. cbn [mbind option_bind]. by rewrite IH.
Qed.

Lemma parse_batch_enc seq rs :
  Forall rec_ok rs -> in_width 64 seq -> Z.of_nat (length rs) < 2 ^ 32 ->
  parse_batch (encode_batch seq rs) = Some (seq, rs).
Proof.
  intros Hr Hs Hn. unfold parse_batch, encode_batch, header. pose proof (len_nonneg (concat (enc_rec <$> rs))).
  rewrite decide_False by (unfold HEADER_SIZE; lens). rewrite <- app_assoc.
  set (a := to_le_bytes 8 seq). set (c := to_le_bytes 4 (Z.of_nat (length rs))).
  assert (Ha : length a = 8%nat) by apply to_le_bytes_length.
  assert (Hc : length c = 4%nat) by apply to_le_bytes_length.
  rewrite take_app_length' by done. rewrite (drop_app_length' a) by done. rewrite take_app_length' by done.
  rewrite (app_assoc a c), drop_app_length' by (rewrite length_app; lia).
  unfold a, c. rewrite !from_to_le_bytes, !wrap_small by (done || (unfold in_width; lia)).
  by rewrite Nat2Z.id, parse_recs_enc.
Qed.

(** ** Runs of [put] *)

Definition put_op : Type := Z * bytes * bytes.

Definition op_rec (o : put_op) : rec := mkRec RPut o.1.1 o.1.2 o.2.

Fixpoint batch_puts (p : profile) (b : BatchInner) (ops : list put_op)
  : outcome (BatchInner * list (result unit Error)) :=
  match ops with
  | [] => Done (b, [])
  | (cf, key, value) :: ops =>
      '(b, r) ← BatchInner_put p b cf key value;
      '(b, rs) ← batch_puts p b ops;
      Done (b, r :: rs)
  end.

Fixpoint accepted (ops : list put_op) (results : list (result unit Error)) : list rec :=
  match ops, results with
  | o :: ops, r :: rs => if is_ok r then op_rec o :: accepted ops rs else accepted ops rs
  | _, _ => []
  end.

Lemma batch_puts_outcome p ops b seq n rs :
  batch_ok b seq n rs -> Forall (fun o => in_width 64 o.1.1) ops -> bi_data b <> [] ->
  exists b' results, batch_puts p b ops = Done (b', results) /\ length results = length ops /\
    batch_ok b' seq (n + Z.of_nat (length (accepted ops results))) (rs ++ accepted ops results) /\
    bi_data b' <> [].
Proof.
  intros H Hops. revert b n rs H. induction Hops as [|[[cf key] value] ops Hcf _ IH]; intros b n rs H Hne.
  - exists b, []. cbn. by rewrite Z.add_0_r, app_nil_r.
  - pose proof (put_outcome p b cf key value seq n rs H Hcf) as Hput. cbn [batch_puts].
    destruct (put_error b (len key) (len value)) as [e|].
    + rewrite Hput. cbn [mbind outcome_bind]. destruct (IH b n rs H Hne) as (b' & res & -> & Hl & H' & Hne').
      exists b', (Err e :: res). cbn. by rewrite Hl.
    + destruct Hput as (b1 & -> & H1 & Hne1 & _). cbn [mbind outcome_bind].
      destruct (IH b1 (n + 1) _ H1 Hne1) as (b' & res & -> & Hl & H' & Hne').
      exists b', (Ok tt :: res). cbn. rewrite Hl. split_and!; [done|done| |done].
      rewrite <- app_assoc in H'. cbn in H'.
      replace (n + Z.of_nat (S (length (accepted ops res)))) with (n + 1 + Z.of_nat (length (accepted ops res))) by lia.
      exact H'.
Qed.

Lemma BatchInner_new_ok : batch_ok BatchInner_new 0 0 [] /\ bi_data BatchInner_new <> [].
Proof. split; [|done]. by constructor. Qed.

Lemma started_data b : bi_data b <> [] -> started b = bi_data b.
Proof. intros. unfold started. by rewrite decide_False. Qed.

(** ** Deferred operations *)

(** The operation over a reservation that starts after [D], with the key and
    value bytes written so far. *)

Definition dop (b : BatchInner) (D : bytes) (kind : RecordKind) (cf c : Z) (k v : bytes) (live : bool)
  : DeferredOp :=
  let ko := len D + len (rec_head kind cf (len k)) in
  let vo := ko + len k + len (varint (len v)) in
  mkDeferredOp (with_data b (D ++ enc_rec (mkRec kind cf k v)) c) live
    (len D) (len D + rec_size (len k) (len v)) ko (len k) vo (len v).

Lemma prepare_writes p b c D kind cf kl vl kv vv :
  VarInt_ok kl kv -> VarInt_ok vl vv -> 0 <= kl -> 0 <= vl ->
  let n := rec_size kl vl in
  let D' := D ++ enc_rec (mkRec kind cf (zeros kl) (zeros vl)) in
  (b' ← data_store (with_data b (D ++ zeros n) c) (len D) (RecordKind_as_u8 kind);
   b' ← data_write b' (len D + 1) 8 (to_le_bytes 8 cf);
   kb ← VarInt_as_slice kv;
   b' ← data_write b' (len D + 1 + 8) (VarInt_size kv) kb;
   vb ← VarInt_as_slice vv;
   b' ← data_write b' (len D + 1 + 8 + VarInt_size kv + kl) (VarInt_size vv) vb;
   _ ← debug_assert p (bool_decide
         (len D + n = len D + 1 + 8 + VarInt_size kv + kl + VarInt_size vv + vl))
         "reservation_end == index + value_len";
   d ← DeferredOp_new p b' (len D) (len D + n) (len D + 1 + 8 + VarInt_size kv) kl
         (len D + 1 + 8 + VarInt_size kv + kl + VarInt_size vv) vl;
   Done (b', Ok (E := Error) d))
  = Done (with_data b D' c, Ok (dop b D kind cf c (zeros kl) (zeros vl) true)).
Proof.
  intros Hk Hv Hkl Hvl n D'. pose proof (len_nonneg (varint kl)). pose proof (len_nonneg (varint vl)).
  pose (K' := fun b' (i : Z) =>
    vb ← VarInt_as_slice vv;
    b' ← data_write b' (i + kl) (VarInt_size vv) vb;
    _ ← debug_assert p (bool_decide (len D + n = i + kl + VarInt_size vv + vl))
          "reservation_end == index + value_len";
    d ← DeferredOp_new p b' (len D) (len D + n) i kl (i + kl + VarInt_size vv) vl;
    Done (b', Ok (E := Error) d)).
  etransitivity; [apply (write_head b c D n kind cf kl kv K'); [done|subst n; lens]|]. unfold K'.
  destruct Hv as (-> & -> & _). cbn [mbind outcome_bind]. pose proof (len_rec_head kind cf kl) as Hh.
  rewrite (zeros_split kl (n - (9 + len (varint kl)))) by (subst n; lens). rewrite app_assoc.
  rewrite data_write_zeros by (subst n; rewrite ?len_app, ?len_zeros by lia; lens). cbn [mbind outcome_bind].
  rewrite debug_assert_true by (apply bool_decide_true; subst n; rewrite len_app; lens).
  cbn [mbind outcome_bind]. unfold DeferredOp_new.
  rewrite debug_assert_true by (apply bool_decide_true; subst n; lens). cbn [mbind outcome_bind].
  assert (Edata : (((D ++ rec_head kind cf kl) ++ zeros kl) ++ varint vl) ++
            zeros (n - (9 + len (varint kl)) - kl - len (varint vl)) = D').
  { subst D'. rewrite enc_rec_parts. cbn [r_kind r_cf r_key r_value]. rewrite !len_zeros by lia.
    rewrite <- !app_assoc. do 4 f_equal. f_equal. subst n. lens. }
  rewrite Edata. do 3 f_equal. unfold dop. rewrite !len_zeros by lia. fold D'. by rewrite len_app.
Qed.

Lemma prepare_outcome p b cf kl vl kind seq n rs :
  batch_ok b seq n rs -> 0 <= kl -> 0 <= vl -> bi_state b <> BatchRuntimeState_as_u8 StInQueue ->
  match put_error b kl vl with
  | Some e => prepare_with_key_value_impl p b cf kl vl kind = Done (b, Err e)
  | None => exists c,
      len (started b) + rec_size kl vl <= c /\
      len (started b) + rec_size kl vl <= bi_max_batch_size b /\
      prepare_with_key_value_impl p b cf kl vl kind
      = Done (with_data b (started b ++ enc_rec (mkRec kind cf (zeros kl) (zeros vl))) c,
              Ok (dop b (started b) kind cf c (zeros kl) (zeros vl) true))
  end.
Proof.
  intros H Hkl Hvl Hst. pose proof (layout_spec b kl vl Hkl Hvl) as Hlay.
  unfold put_error, prepare_with_key_value_impl.
  rewrite debug_assert_true by (by apply bool_decide_true). cbn [mbind outcome_bind].
  destruct (layout_error kl vl) as [e|] eqn:El; [by rewrite Hlay|].
  destruct Hlay as (kv & vv & Hkv & Hvv & Hk & Hv & ->). cbn [mbind outcome_bind].
  pose proof (rec_size_bounds _ _ Hk Hv) as Hsz.
  pose proof (reserve_operation_spec p b (rec_size kl vl) (bo_room _ _ _ _ H) ltac:(lia) (bo_cap _ _ _ _ H)) as Hres.
  destruct (reserve_error b (rec_size kl vl)) as [e|] eqn:Er; [by rewrite Hres|].
  destruct Hres as (c & Hc & ->). exists c. split; [done|]. split.
  - unfold reserve_error in Er. repeat case_decide; try done; lia.
  - cbn [mbind outcome_bind]. fold (zeros (rec_size kl vl)).
    apply (prepare_writes p b c (started b) kind cf kl vl kv vv Hkv Hvv Hkl Hvl).
Qed.

Section deferred.
Context (p : profile) (b : BatchInner) (D : bytes) (kind : RecordKind) (cf c : Z).

Abbreviation op k v live := (dop b D kind cf c k v live).
Definition key_start (k : bytes) : Z := len D + len (rec_head kind cf (len k)).
Definition value_start (k v : bytes) : Z := key_start k + len k + len (varint (len v)).

Lemma op_data k v :
  bi_data (d_batch (op k v true)) = (D ++ rec_head kind cf (len k)) ++ k ++ varint (len v) ++ v.
Proof.
  cbn [d_batch dop bi_data set_cap set_data]. rewrite enc_rec_parts. cbn [r_kind r_cf r_key r_value].
  by rewrite <- !app_assoc.
Qed.

Lemma op_len k v :
  len (D ++ enc_rec (mkRec kind cf k v)) = value_start k v + len v.
Proof. rewrite len_app, enc_rec_parts. unfold value_start, key_start. cbn [r_kind r_cf r_key r_value]. lens. Qed.

Lemma op_slice_mut k v from to :
  0 <= from <= to -> to <= value_start k v + len v ->
  slice_mut (d_batch (op k v true)) from to = Done (from, to).
Proof.
  intros H1 H2. unfold slice_mut. cbn [d_batch dop bi_data set_cap set_data].
  rewrite slice_range_done by (rewrite ?op_len; lia). done.
Qed.

Lemma starts_bound k v : 0 <= key_start k /\ key_start k + len k <= value_start k v.
Proof.
  unfold value_start, key_start. pose proof (len_nonneg D). pose proof (len_nonneg (varint (len v))).
  pose proof (len_nonneg (rec_head kind cf (len k))). lia.
Qed.

Lemma key_mut_op k v : key_mut p (op k v true) = Done (key_start k, key_start k + len k).
Proof.
  pose proof (starts_bound k v). pose proof (len_nonneg k). pose proof (len_nonneg v).
  unfold key_mut. rewrite debug_assert_true by done. cbn [mbind outcome_bind d_live dop].
  fold (op k v true). change (d_key_offset (op k v true)) with (key_start k).
  change (d_key_len (op k v true)) with (len k). apply op_slice_mut; lia.
Qed.

Lemma value_mut_op k v : value_mut p (op k v true) = Done (value_start k v, value_start k v + len v).
Proof.
  pose proof (starts_bound k v). pose proof (len_nonneg k). pose proof (len_nonneg v).
  unfold value_mut. rewrite debug_assert_true by done. cbn [mbind outcome_bind d_live dop].
  fold (op k v true). change (d_value_offset (op k v true)) with (value_start k v).
  change (d_value_len (op k v true)) with (len v). apply op_slice_mut; lia.
Qed.

Lemma split_range_done r n : 0 <= n <= r.2 - r.1 -> split_range r n = Done ((r.1, r.1 + n), (r.1 + n, r.2)).
Proof. intros. unfold split_range. by rewrite decide_True. Qed.

Lemma key_value_mut_op k v :
  key_value_mut p (op k v true)
  = Done ((key_start k, key_start k + len k), (value_start k v, value_start k v + len v)).
Proof.
  pose proof (starts_bound k v). pose proof (len_nonneg k). pose proof (len_nonneg v).
  unfold key_value_mut. change (d_live (op k v true)) with true. cbv iota.
  change (d_key_offset (op k v true)) with (key_start k).
  change (d_key_len (op k v true)) with (len k).
  change (d_value_offset (op k v true)) with (value_start k v).
  change (d_value_len (op k v true)) with (len v).
  rewrite op_slice_mut by lia. cbn [mbind outcome_bind].
  rewrite split_range_done by (cbn; lia). cbn [mbind outcome_bind fst snd].
  rewrite sub_w_small by lia. cbn [mbind outcome_bind].
  rewrite split_range_done by (cbn; lia). cbn [mbind outcome_bind fst snd].
  rewrite split_range_done by (cbn; lia). cbn [mbind outcome_bind fst snd].
  do 2 f_equal. f_equal; lia.
Qed.

Lemma op_replace k v k' v' X :
  len k' = len k -> len v' = len v -> X = D ++ enc_rec (mkRec kind cf k' v') ->
  d_set_batch (op k v true) (set_data (d_batch (op k v true)) X) = op k' v' true.
Proof.
  intros E1 E2 ->. unfold dop, d_set_batch.
  cbn [d_batch d_live d_reservation_start d_reservation_end d_key_offset d_key_len d_value_offset d_value_len].
  by rewrite E1, E2.
Qed.

Lemma write_key_op k v xs :
  len xs = len k -> write_range (op k v true) (key_start k, key_start k + len k) xs = Done (op xs v true).
Proof.
  intros E. pose proof (starts_bound k v). pose proof (len_nonneg v). pose proof (op_len k v).
  unfold write_range. cbn [fst snd].
  rewrite copy_into_done by (cbn [bi_data d_batch dop set_cap set_data]; lia).
  cbn [mbind outcome_bind]. rewrite op_data, splice_app_at by (unfold key_start; by rewrite len_app).
  replace (length xs) with (length k) by (unfold len in E; lia). rewrite drop_app_length.
  f_equal. apply op_replace; [done|done|]. rewrite enc_rec_parts. cbn [r_kind r_cf r_key r_value].
  by rewrite E, <- !app_assoc.
Qed.

Lemma write_value_op k v xs :
  len xs = len v ->
  write_range (op k v true) (value_start k v, value_start k v + len v) xs = Done (op k xs true).
Proof.
  intros E. pose proof (starts_bound k v). pose proof (len_nonneg v). pose proof (op_len k v).
  pose proof (len_nonneg k).
  unfold write_range. cbn [fst snd].
  rewrite copy_into_done by (cbn [bi_data d_batch dop set_cap set_data]; lia).
  cbn [mbind outcome_bind]. rewrite op_data.
  replace ((D ++ rec_head kind cf (len k)) ++ k ++ varint (len v) ++ v)
    with (((D ++ rec_head kind cf (len k)) ++ k ++ varint (len v)) ++ v ++ []) by (by rewrite app_nil_r, <- !app_assoc).
  rewrite splice_app_at by (unfold value_start, key_start; lens).
  replace (length xs) with (length v) by (unfold len in E; lia). rewrite drop_app_length, app_nil_r.
  f_equal. apply op_replace; [done|done|]. rewrite enc_rec_parts. cbn [r_kind r_cf r_key r_value].
  by rewrite E, <- !app_assoc.
Qed.

Lemma write_range_misfit d r xs : 0 <= r.1 <= r.2 -> r.2 <= len (bi_data (d_batch d)) -> len xs <> r.2 - r.1 ->
  write_range d r xs = Panic MISFIT.
Proof. intros H1 H2 H3. unfold write_range, copy_into. by rewrite decide_True, decide_False by lia. Qed.

(** Writing a slice: it is filled, or the copy panics and nothing changes. *)

Definition op_of (s : filling) : DeferredOp := op (fl_key s) (fl_value s) (fl_open s).

Definition op_result (r : filling * option string) : DeferredOp * option string := (op_of r.1, r.2).

Lemma attempt_key k v xs :
  attempt (write_range (op k v true) (key_start k, key_start k + len k) xs) (op k v true) = op_result (fill_key (mkFilling true k v) xs).
Proof.
  pose proof (starts_bound k v). pose proof (len_nonneg k). pose proof (len_nonneg v). pose proof (op_len k v).
  unfold fill_key. cbn [fl_open fl_key fl_value]. case_decide as E.
  - by rewrite write_key_op.
  - rewrite write_range_misfit; [done|cbn; lia| |cbn; lia]. cbn [fst snd bi_data d_batch dop set_cap set_data]. lia.
Qed.

Lemma attempt_value k v xs :
  attempt (write_range (op k v true) (value_start k v, value_start k v + len v) xs) (op k v true) =
  op_result (fill_value (mkFilling true k v) xs).
Proof.
  pose proof (starts_bound k v). pose proof (len_nonneg k). pose proof (len_nonneg v). pose proof (op_len k v).
  unfold fill_value. cbn [fl_open fl_key fl_value]. case_decide as E.
  - by rewrite write_value_op.
  - rewrite write_range_misfit; [done|cbn; lia| |cbn; lia]. cbn [fst snd bi_data d_batch dop set_cap set_data]. lia.
Qed.
End deferred.

Section closures.
Context (p : profile) (b : BatchInner) (D : bytes) (kind : RecordKind) (cf c : Z).

Abbreviation op k v live := (dop b D kind cf c k v live).
Abbreviation result_of := (op_result b D kind cf c).

(** The closure does to the operation what the specification says. *)

Lemma closure_act_fill a s : closure_act p a (op_of b D kind cf c s) = result_of (fill_act p a s).
Proof.
  destruct s as [[|] k v]; unfold op_of; cbn [fl_open fl_key fl_value]; destruct a as [xs|xs|ks vs| |why]; cbn [closure_act fill_act fl_open]; try done.
  - rewrite key_mut_op. apply attempt_key.
  - rewrite value_mut_op. apply attempt_value.
  - rewrite key_value_mut_op, attempt_key. unfold fill_key. cbn [fl_open fl_key fl_value]. case_decide as E; [|done].
    unfold op_result, op_of. cbn [fst snd fl_open fl_key fl_value].
    replace (value_start D kind cf k v) with (value_start D kind cf ks v) by (unfold value_start, key_start; by rewrite E).
    apply attempt_value.
  - unfold key_mut. by destruct p.
  - unfold value_mut. by destruct p.
Qed.

Lemma run_closure_fill f : forall s, run_closure p f (op_of b D kind cf c s) = result_of (fill p f s).
Proof.
  induction f as [|a f IH]; intros s; [done|]. cbn [run_closure fill]. rewrite closure_act_fill. unfold op_result at 1.
  destruct (fill_act p a s) as [s1 [w|]]; cbn [fst snd]; [done|]. apply IH.
Qed.

Lemma fill_len f : forall s, len (fl_key (fill p f s).1) = len (fl_key s) /\ len (fl_value (fill p f s).1) = len (fl_value s).
Proof.
  induction f as [|a f IH]; intros s; [done|]. cbn [fill].
  assert (Ha : len (fl_key (fill_act p a s).1) = len (fl_key s) /\ len (fl_value (fill_act p a s).1) = len (fl_value s)).
  { unfold fill_act, fill_key, fill_value. destruct a; repeat (case_match; cbn in * ); simplify_eq; cbn in *; try done; by repeat case_decide; simplify_eq. }
  destruct (fill_act p a s) as [s1 [w|]]; [done|]. cbn [fst] in Ha. destruct (IH s1) as [-> ->]. done.
Qed.

Lemma finish_drop k v : DeferredOp_drop p (DeferredOp_finish (op k v true)) = Done (with_data b (D ++ enc_rec (mkRec kind cf k v)) c).
Proof. done. Qed.

Lemma rollback_drop k v : len D <= c -> DeferredOp_drop p (op k v true) = Done (with_data b D c).
Proof.
  intros Hc. unfold DeferredOp_drop, DeferredOp_rollback. change (d_live (op k v true)) with true. cbv iota.
  rewrite (debug_assert_true p true) by done. cbn [mbind outcome_bind].
  assert (E : data_resize (d_batch (op k v true)) (d_reservation_start (op k v true)) = with_data b D c).
  { unfold data_resize, data_reserve, reserve_cap, set_data.
    cbn [d_batch d_reservation_start dop bi_data bi_cap set_cap set_data].
    rewrite decide_True by lia. cbn. by rewrite vec_resize_shrink. }
  rewrite E. rewrite debug_assert_true by (apply bool_decide_true; reflexivity). reflexivity.
Qed.
End closures.

(** Decoding sees the surplus of an uncounted record. *)

Lemma parse_recs_surplus rs x : Forall rec_ok rs -> x <> [] ->
  parse_recs (length rs) (concat (enc_rec <$> rs) ++ x) = None.
Proof.
  intros Hr Hx. induction Hr as [|r rs Hr _ IH]; [by destruct x|].
  cbn [length parse_recs fmap list_fmap concat]. rewrite <- app_assoc, parse_rec_enc by done.
  cbn [mbind option_bind]. by rewrite IH.
Qed.

Lemma parse_batch_surplus seq rs x :
  Forall rec_ok rs -> x <> [] -> Z.of_nat (length rs) < 2 ^ 32 ->
  parse_batch (encode_batch seq rs ++ x) = None.
Proof.
  intros Hr Hx Hn. unfold parse_batch, encode_batch, header. pose proof (len_nonneg (concat (enc_rec <$> rs))).
  pose proof (len_nonneg x). rewrite decide_False by (unfold HEADER_SIZE; lens). rewrite <- !app_assoc.
  set (a := to_le_bytes 8 seq). set (n := to_le_bytes 4 (Z.of_nat (length rs))).
  assert (Ha : length a = 8%nat) by apply to_le_bytes_length.
  assert (Hc : length n = 4%nat) by apply to_le_bytes_length.
  rewrite take_app_length' by done. rewrite (drop_app_length' a) by done. rewrite take_app_length' by done.
  rewrite (app_assoc a n), drop_app_length' by (rewrite length_app; lia).
  unfold n. rewrite from_to_le_bytes, wrap_small by (unfold in_width; lia).
  by rewrite Nat2Z.id, parse_recs_surplus.
Qed.

(** ** Life cycle lemmas *)

Lemma state_from_as s : BatchRuntimeState_from (BatchRuntimeState_as_u8 s) = Done s.
Proof. by destruct s. Qed.

Lemma state_from_inv v s : BatchRuntimeState_from v = Done s -> v = BatchRuntimeState_as_u8 s.
Proof. unfold BatchRuntimeState_from. repeat case_decide; intros [=]; by subst. Qed.

Lemma reset_batch_done p b s :
  bi_state b = BatchRuntimeState_as_u8 s -> is_reset_safe s = true ->
  reset_batch p b = Done (mkBatchInner [] (bi_cap b) (bi_max_batch_size b) 0 (BatchRuntimeState_as_u8 StAcquired)
    (mkBatchMeta 0 false) CFTable_new (bi_waiter b) (bi_waiter_refs b)).
Proof.
  intros Hs Hr. unfold reset_batch, BatchObject_state, BatchInner_clear. rewrite Hs, state_from_as.
  cbn [mbind outcome_bind]. rewrite Hr. cbn [rust_assert mbind outcome_bind].
  destruct p; cbn [mbind outcome_bind debug_assert]; [by rewrite Hr|done].
Qed.

Lemma reset_batch_unsafe p b s :
  bi_state b = BatchRuntimeState_as_u8 s -> is_reset_safe s = false ->
  reset_batch p b = Panic "self.state(Ordering::Acquire).is_reset_safe()".
Proof.
  intros Hs Hr. unfold reset_batch, BatchObject_state. rewrite Hs, state_from_as.
  cbn [mbind outcome_bind]. by rewrite Hr.
Qed.

(** ** Properties *)

(** C28: [put] on a well-formed batch never panics.  It reports exactly the
    first of the four limits that is exceeded (key length, value length, a
    record that fits no batch, a batch without room), leaving the batch
    untouched, and otherwise appends the record's encoding and advances the
    count in the batch and in the header by one, within the size limit. *)
Theorem batch_put p b cf key value seq n rs :
  batch_ok b seq n rs -> in_width 64 cf ->
  match put_error b (len key) (len value) with
  | Some e => BatchInner_put p b cf key value = Done (b, Err e)
  | None => exists b', BatchInner_put p b cf key value = Done (b', Ok tt) /\
      batch_ok b' seq (n + 1) (rs ++ [mkRec RPut cf key value]) /\
      bi_data b' = header seq (n + 1) ++ concat (enc_rec <$> (rs ++ [mkRec RPut cf key value])) /\
      bi_state b' = bi_state b /\ bi_waiter b' = bi_waiter b
  end.
Proof.
  intros H Hcf. pose proof (put_outcome p b cf key value seq n rs H Hcf) as Hp. cbv zeta in Hp.
  destruct (put_error b (len key) (len value)) as [e|]; [done|].
  destruct Hp as (b' & E & Hok & Hne & d & c & ->). eexists. split; [exact E|]. split; [exact Hok|].
  split; [|done]. rewrite <- (bo_data _ _ _ _ Hok). by rewrite started_data.
Qed.

Lemma batch_put_witness :
  match put_error BatchInner_new (len [104; 105]) (len [1; 2; 3]) with
  | Some e => BatchInner_put Debug BatchInner_new 7 [104; 105] [1; 2; 3] = Done (BatchInner_new, Err e)
  | None => exists b', BatchInner_put Debug BatchInner_new 7 [104; 105] [1; 2; 3] = Done (b', Ok tt) /\
      batch_ok b' 0 (0 + 1) ([] ++ [mkRec RPut 7 [104; 105] [1; 2; 3]]) /\
      bi_data b' = header 0 (0 + 1) ++ concat (enc_rec <$> ([] ++ [mkRec RPut 7 [104; 105] [1; 2; 3]])) /\
      bi_state b' = bi_state BatchInner_new /\ bi_waiter b' = bi_waiter BatchInner_new
  end.
Proof.
  apply (batch_put Debug BatchInner_new 7 [104; 105] [1; 2; 3] 0 0 []);
    [exact (proj1 BatchInner_new_ok)|unfold in_width; lia].
Defined.

(** C18: the bytes of a batch say what was put into it.  After any run of puts
    on a new batch, whatever errors some of them report, and after the commit
    stamps the sequence number, decoding the buffer gives that number and
    exactly the accepted records in order, the count is their number, and the
    buffer is within the batch limit. *)
Theorem batch_bytes_decode p t ops seq :
  Forall (fun o => in_width 64 o.1.1) ops -> in_width 64 seq ->
  exists b results b', batch_puts p BatchInner_new ops = Done (b, results) /\ length results = length ops /\
    assign_seq_num_once p b seq = Done b' /\
    parse_batch (bi_data b) = Some (0, accepted ops results) /\
    parse_batch (bi_data b') = Some (seq, accepted ops results) /\
    seq_num p t b' = Done seq /\
    get_batch_count b' = Z.of_nat (length (accepted ops results)) /\
    HEADER_SIZE <= get_batch_size b' <= MAX_BATCH_SIZE.
Proof.
  intros Hops Hseq. destruct BatchInner_new_ok as [H0 Hne0].
  destruct (batch_puts_outcome p ops BatchInner_new 0 0 [] H0 Hops Hne0) as (b & res & Hrun & Hl & H & Hne).
  cbn [app] in H. set (rs := accepted ops res) in *.
  pose proof (bo_data _ _ _ _ H) as Hd. rewrite started_data, Z.add_0_l in Hd by done.
  assert (Hbound : Z.of_nat (length rs) < 2 ^ 32) by (pose proof (batch_ok_count_bound _ _ _ _ H); lia).
  pose proof Hd as Hd'. unfold header in Hd'. rewrite <- app_assoc in Hd'.
  set (rest := to_le_bytes 4 (Z.of_nat (length rs)) ++ concat (enc_rec <$> rs)) in *.
  assert (Hrest : rest <> []) by done.
  exists b, res. eexists. split; [done|]. split; [done|].
  split; [by apply (assign_seq_num_once_done p b (to_le_bytes 8 0) rest)|].
  cbn [bi_data bi_count set_data]. split_and!.
  - rewrite Hd. apply parse_batch_enc; [apply H|unfold in_width; lia|done].
  - subst rest. rewrite app_assoc. apply parse_batch_enc; [apply H|done|done].
  - by apply (seq_num_done p t _ seq rest).
  - unfold get_batch_count. cbn [bi_count set_data]. by rewrite (bo_count _ _ _ _ H), Z.add_0_l.
  - unfold get_batch_size. cbn [bi_data set_data]. subst rest. unfold HEADER_SIZE.
    pose proof (len_nonneg (concat (enc_rec <$> rs))). lens.
  - unfold get_batch_size. cbn [bi_data set_data].
    assert (len (to_le_bytes 8 seq ++ rest) = len (bi_data b)) as -> by (rewrite Hd'; lens).
    pose proof (bo_fits _ _ _ _ H). destruct (bo_room _ _ _ _ H). lia.
Qed.

Lemma batch_bytes_decode_witness :
  let ops := [(0, [1], [2]); (3, [], [9; 9])] in
  exists b results b', batch_puts Release BatchInner_new ops = Done (b, results) /\ length results = length ops /\
    assign_seq_num_once Release b 77 = Done b' /\
    parse_batch (bi_data b) = Some (0, accepted ops results) /\
    parse_batch (bi_data b') = Some (77, accepted ops results) /\
    seq_num Release BigEndian b' = Done 77 /\
    get_batch_count b' = Z.of_nat (length (accepted ops results)) /\
    HEADER_SIZE <= get_batch_size b' <= MAX_BATCH_SIZE.
Proof.
  apply (batch_bytes_decode Release BigEndian [(0, [1], [2]); (3, [], [9; 9])] 77);
    [repeat constructor; unfold in_width; cbn; lia|unfold in_width; lia].
Defined.

(** C34: [put_with] on a well-formed batch that is not in the queue, for any
    closure that fills the slices it is given, finishes the operation or
    panics, as [fill] says.  The errors are those of [put] and leave the batch
    untouched.  If the closure panics before the operation is finished, the
    panic goes on to the caller and the buffer is as it was before the
    reservation.  Otherwise the call returns, or goes on with a panic raised
    after the operation was finished, and the record with the bytes the closure
    wrote is at the end of the buffer.  But the count is not advanced, so a
    batch whose records were all counted no longer decodes. *)
Theorem batch_put_with p b cf kl vl kind f seq rs :
  batch_ok b seq (Z.of_nat (length rs)) rs -> 0 <= kl -> 0 <= vl ->
  bi_state b <> BatchRuntimeState_as_u8 StInQueue ->
  match put_error b kl vl with
  | Some e => put_with p b cf kl vl kind f = Done (b, Returned (Err e))
  | None => exists b', let '(s, stopped) := fill p f (fill_new kl vl) in
      put_with p b cf kl vl kind f = Done (b', match stopped with None => Returned (Ok tt) | Some why => Unwound why end) /\
      bi_count b' = bi_count b /\ bi_state b' = bi_state b /\ len (fl_key s) = kl /\ len (fl_value s) = vl /\
      if bool_decide (is_Some stopped) && fl_open s then bi_data b' = started b
      else bi_data b' = started b ++ enc_rec (mkRec kind cf (fl_key s) (fl_value s)) /\ parse_batch (bi_data b') = None
  end.
Proof.
  intros H Hkl Hvl Hst. pose proof (prepare_outcome p b cf kl vl kind seq _ rs H Hkl Hvl Hst) as Hprep.
  unfold put_with. destruct (put_error b kl vl) as [e|]; [by rewrite Hprep|].
  destruct Hprep as (c & Hc & Hfit & ->). cbn [mbind outcome_bind]. set (D := started b) in *.
  change (dop b D kind cf c (zeros kl) (zeros vl) true) with (op_of b D kind cf c (fill_new kl vl)).
  rewrite run_closure_fill. pose proof (fill_len p f (fill_new kl vl)) as [Hk Hv]. cbn [fill_new fl_key fl_value] in Hk, Hv.
  fold (zeros kl) (zeros vl) in Hk, Hv. rewrite len_zeros in Hk, Hv by lia. unfold op_result.
  destruct (fill p f (fill_new kl vl)) as [[o k v] stopped]. unfold op_of. cbn [fst snd fl_open fl_key fl_value] in *.
  assert (Hdec : parse_batch (D ++ enc_rec (mkRec kind cf k v)) = None).
  { subst D. rewrite (bo_data _ _ _ _ H). apply parse_batch_surplus; [apply H|done|]. pose proof (batch_ok_count_bound _ _ _ _ H). lia. }
  assert (Hsize : len D <= c).
  { assert (0 <= rec_size kl vl); [|lia]. unfold rec_size. pose proof (len_nonneg (varint kl)). pose proof (len_nonneg (varint vl)). lia. }
  destruct stopped as [why|]; [destruct o|].
  - exists (with_data b D c). rewrite rollback_drop by done. by split_and!.
  - exists (with_data b (D ++ enc_rec (mkRec kind cf k v)) c). by split_and!.
  - exists (with_data b (D ++ enc_rec (mkRec kind cf k v)) c).
    by split_and!.
Qed.

(** The closure fills the value and then the key. *)

Lemma batch_put_with_witness :
  put_error BatchInner_new 1 2 = None /\
  exists b', put_with Debug BatchInner_new 0 1 2 RMerge [ValueMut [6; 7]; KeyMut [5]] = Done (b', Returned (Ok tt)) /\
    bi_count b' = 0 /\ bi_data b' = started BatchInner_new ++ enc_rec (mkRec RMerge 0 [5] [6; 7]) /\ parse_batch (bi_data b') = None.
Proof.
  split; [vm_compute; reflexivity|].
  pose proof (batch_put_with Debug BatchInner_new 0 1 2 RMerge [ValueMut [6; 7]; KeyMut [5]] 0 []
    (proj1 BatchInner_new_ok) ltac:(lia) ltac:(lia) ltac:(discriminate)) as H.
  assert (E : put_error BatchInner_new 1 2 = None) by (vm_compute; reflexivity). rewrite E in H.
  destruct H as (b' & Hp & Hc & _ & _ & _ & Hd & Hn). exists b'. exact (conj Hp (conj Hc (conj Hd Hn))).
Defined.

Example put_with_unwinds :
  (fun r => (bi_data r.1, r.2)) <$> put_with Debug BatchInner_new 0 1 2 RMerge [KeyMut [5]; ValueMut [6]] =
  Done (started BatchInner_new, Unwound MISFIT).
Proof. vm_compute. reflexivity. Qed.

(** Resetting a batch for reuse.  Only an acquired or applied batch can be
    reset; any other state panics.  The reset batch is empty, keeps its
    capacity and is acquired, and accepts puts again; but its buffer has no
    header until then, so reading or stamping its sequence number panics.  Its
    completion signal is left as it was: a batch committed with a sync once
    panics in a debug build when it is primed again. *)
Theorem batch_reset_reuse p t b seq n rs s w :
  batch_ok b seq n rs -> bi_state b = BatchRuntimeState_as_u8 s ->
  bi_waiter b = mkWaiter (WalSyncResultState_as_u8 w) -> is_terminal w = true ->
  if is_reset_safe s then
    exists b', reset_batch p b = Done b' /\ batch_ok b' 0 0 [] /\ bi_data b' = [] /\ bi_cap b' = bi_cap b /\
      BatchObject_is_state b' StAcquired = true /\
      is_done (seq_num p t b') = false /\ (forall q, is_done (assign_seq_num_once p b' q) = false) /\
      is_done (prime_sync_waiter p b') = bool_decide (p = Release) /\
      (forall cf key value, in_width 64 cf -> put_error b' (len key) (len value) = None ->
         exists b'', BatchInner_put p b' cf key value = Done (b'', Ok tt) /\ batch_ok b'' 0 1 [mkRec RPut cf key value])
  else is_done (reset_batch p b) = false.
Proof.
  intros H Hs Hw Ht. destruct (is_reset_safe s) eqn:Hr; [|by rewrite (reset_batch_unsafe p b s)].
  rewrite (reset_batch_done p b s Hs Hr). eexists. split; [done|].
  match goal with |- batch_ok ?x _ _ _ /\ _ => set (b' := x) end.
  assert (H' : batch_ok b' 0 0 []).
  { pose proof (bo_cap _ _ _ _ H). pose proof (len_nonneg (bi_data b)). pose proof (bo_room _ _ _ _ H) as [Hm0 Hm].
    constructor; cbn; try done. all: change (len (@nil Z)) with 0; lia. }
  split; [done|]. split; [done|]. split; [done|]. split; [done|].
  split; [by destruct p|]. split; [intros q; by destruct p|]. split.
  - unfold prime_sync_waiter, SyncLogWaiter_prime. cbn [bi_waiter b']. rewrite Hw. cbn [wt_state].
    rewrite WalSyncResultState_from_as. cbn [mbind outcome_bind]. by destruct w, p.
  - intros cf key value Hcf Hfit. pose proof (put_outcome p b' cf key value 0 0 [] H' Hcf) as Hp.
    cbv zeta in Hp. rewrite Hfit in Hp. destruct Hp as (b'' & E & Hok & _). by exists b''.
Qed.

Lemma batch_reset_reuse_witness :
  let b := set_waiter BatchInner_new (mkWaiter 2) 1 in
  exists b', reset_batch Debug b = Done b' /\ batch_ok b' 0 0 [] /\ bi_data b' = [] /\ bi_cap b' = bi_cap b /\
    BatchObject_is_state b' StAcquired = true /\
    is_done (seq_num Debug LittleEndian b') = false /\ (forall q, is_done (assign_seq_num_once Debug b' q) = false) /\
    is_done (prime_sync_waiter Debug b') = bool_decide (Debug = Release) /\
    (forall cf key value, in_width 64 cf -> put_error b' (len key) (len value) = None ->
       exists b'', BatchInner_put Debug b' cf key value = Done (b'', Ok tt) /\ batch_ok b'' 0 1 [mkRec RPut cf key value]).
Proof.
  apply (batch_reset_reuse Debug LittleEndian (set_waiter BatchInner_new (mkWaiter 2) 1) 0 0 [] StAcquired SySyncDone);
    [|reflexivity|reflexivity|reflexivity].
  constructor; try reflexivity; try done; vm_compute; split; discriminate.
Defined.
