(* ===== verification/WriteBatch.v ===== *)
(** * WriteBatch: the first batch format

    Models [db/write_batch.rs]: a growable buffer with the twelve-byte header
    and records whose column-family id is four bytes wide.  It is the ancestor
    of the batches of [Batch.v], with which it shares the header layout. *)

From S2P Require Import Prelude Codec Batch.

(* @src crates/engine/src/db/write_batch.rs:99-106 BatchOpType *)
Inductive BatchOpType := OpPut | OpDelete | OpMerge.

(* @src crates/engine/src/db/write_batch.rs:108-122 BatchOpType::fmt *)
Definition BatchOpType_fmt (o : BatchOpType) : string :=
  match o with OpPut => "Put" | OpDelete => "Delete" | OpMerge => "Merge" end.

(* @src crates/engine/src/db/write_batch.rs:124-132 BatchOpType::into *)
Definition BatchOpType_into (o : BatchOpType) : Z :=
  match o with OpPut => 1 | OpDelete => 2 | OpMerge => 3 end.

(* @src crates/engine/src/db/write_batch.rs:95-97 HEADER_SIZE *)
Definition WB_HEADER_SIZE : Z := 8 + 4.

(* @src crates/engine/src/db/write_batch.rs:96-96 BATCH_COUNT_OFFSET *)
Definition WB_COUNT_OFFSET : Z := 8.

(* @src crates/engine/src/db/write_batch.rs:158-158 WBatch::MAX_BATCH_SIZE *)
Definition WB_MAX_BATCH_SIZE : Z := Z.shiftl 1 20.

(* @src crates/engine/src/db/write_batch.rs:134-142 WBatch *)
Record WBatch := mkWBatch { wb_data : bytes; wb_max_bytes : Z }.

(* @src crates/engine/src/db/write_batch.rs:179-186 WBatch::new *)
Definition WBatch_new : WBatch :=
  mkWBatch (replicate (Z.to_nat WB_HEADER_SIZE) 0) WB_MAX_BATCH_SIZE.

(* @src crates/engine/src/db/write_batch.rs:188-198 WBatch::new_with_capacity *)
Definition WBatch_new_with_capacity (cap : Z) : outcome WBatch :=
  _ ← rust_assert (bool_decide (cap <= WB_MAX_BATCH_SIZE)) "cap <= Self::MAX_BATCH_SIZE";
  Done WBatch_new.

(** The count is read and written through a pointer to its four bytes. *)

(* @src crates/engine/src/db/write_batch.rs:211-232 WBatch::put_bytes *)
Definition put_bytes (p : profile) (t : endian) (w : WBatch) (key value : bytes) : outcome WBatch :=
  let data := wb_data w ++ [BatchOpType_into OpPut] in
  let data := data ++ to_le_bytes 4 0 in
  kv ← VarInt_new (wrap 32 (len key)); kv ← VarInt_as_slice kv;
  let data := data ++ kv in
  let data := data ++ key in
  vv ← VarInt_new (wrap 32 (len value)); vv ← VarInt_as_slice vv;
  let data := data ++ vv in
  let data := data ++ value in
  count_slice ← slice_range data WB_COUNT_OFFSET (WB_COUNT_OFFSET + 4);
  n ← read_u32_le_unsafe t count_slice 0;
  n ← add_w p 32 n 1;
  written ← write_u32_le_unsafe count_slice 0 n;
  Done (mkWBatch (splice WB_COUNT_OFFSET written data) (wb_max_bytes w)).

(* @src crates/engine/src/db/write_batch.rs:201-209 WBatch::put *)
Definition WBatch_put (p : profile) (t : endian) (w : WBatch) (key value : bytes) : outcome WBatch :=
  put_bytes p t w key value.

(* @src crates/engine/src/db/write_batch.rs:234-240 WBatch::batch_count *)
Definition batch_count (t : endian) (w : WBatch) : outcome Z :=
  s ← slice_range (wb_data w) WB_COUNT_OFFSET (WB_COUNT_OFFSET + 4);
  read_u32_le_unsafe t s 0.

(* @src crates/engine/src/db/write_batch.rs:242-244 WBatch::batch_size *)
Definition batch_size (w : WBatch) : Z := len (wb_data w).

(* @src crates/engine/src/db/write_batch.rs:246-248 WBatch::is_empty *)
Definition WBatch_is_empty (w : WBatch) : bool := bool_decide (len (wb_data w) = 0).

(** ** The format *)

Definition wb_enc (kv : bytes * bytes) : bytes :=
  [1] ++ to_le_bytes 4 0 ++ varint (len kv.1) ++ kv.1 ++ varint (len kv.2) ++ kv.2.

Definition wb_encode (kvs : list (bytes * bytes)) : bytes :=
  header 0 (Z.of_nat (length kvs)) ++ concat (wb_enc <$> kvs).

Fixpoint wb_puts (p : profile) (t : endian) (w : WBatch) (kvs : list (bytes * bytes)) : outcome WBatch :=
  match kvs with
  | [] => Done w
  | (k, v) :: kvs => w ← WBatch_put p t w k v; wb_puts p t w kvs
  end.

(** A reader of the format that knows nothing of the writer. *)

Definition wb_parse_rec (d : bytes) : option (bytes * bytes * bytes) :=
  match d with
  | op :: d =>
      if decide (op = 1) then
        '(k, d) ← parse_block (drop 4 d);
        '(v, d) ← parse_block d;
        Some (k, v, d)
      else None
  | [] => None
  end.

Fixpoint wb_parse_recs (n : nat) (d : bytes) : option (list (bytes * bytes)) :=
  match n with
  | O => match d with [] => Some [] | _ => None end
  | S n => '(k, v, d) ← wb_parse_rec d; ((k, v) ::.) <$> wb_parse_recs n d
  end.

Definition wb_op_ok (kv : bytes * bytes) : Prop := in_width 32 (len kv.1) /\ in_width 32 (len kv.2).

Lemma wb_parse_rec_enc kv rest : wb_op_ok kv -> wb_parse_rec (wb_enc kv ++ rest) = Some (kv.1, kv.2, rest).
Proof.
  intros [Hk Hv]. unfold wb_enc. rewrite <- !app_assoc. unfold wb_parse_rec. cbn [app].
  rewrite decide_True by done. rewrite (drop_app_length' (to_le_bytes 4 0)) by done.
  rewrite parse_block_enc by done. cbn [mbind option_bind]. by rewrite parse_block_enc.
Qed.

Lemma wb_parse_recs_enc kvs :
  Forall wb_op_ok kvs -> wb_parse_recs (length kvs) (concat (wb_enc <$> kvs)) = Some kvs.
Proof.
  induction 1 as [|[k v] kvs Hr _ IH]; [done|]. cbn [length wb_parse_recs fmap list_fmap concat].
  rewrite wb_parse_rec_enc by done. cbn [mbind option_bind fst snd]. by rewrite IH.
Qed.

Lemma count_slice_done seq n rest :
  slice_range (header seq n ++ rest) WB_COUNT_OFFSET (WB_COUNT_OFFSET + 4) = Done (to_le_bytes 4 n).
Proof.
  unfold header, WB_COUNT_OFFSET. rewrite <- app_assoc. by apply slice_range_app.
Qed.

Lemma read_count_done t n : in_width 32 n -> read_u32_le_unsafe t (to_le_bytes 4 n) 0 = Done n.
Proof.
  intros Hn. unfold read_u32_le_unsafe, read_unaligned.
  rewrite decide_True by (autorewrite with lens; lia). rewrite drop_0, take_ge by done. cbn [fmap outcome_fmap].
  by rewrite int_to_le_roundtrip.
Qed.

Lemma put_bytes_done p t kvs m k v :
  wb_op_ok (k, v) -> Z.of_nat (length kvs) + 1 < 2 ^ 32 ->
  put_bytes p t (mkWBatch (wb_encode kvs) m) k v = Done (mkWBatch (wb_encode (kvs ++ [(k, v)])) m).
Proof.
  intros [Hk Hv] Hn. cbn [fst snd] in *. unfold put_bytes. cbn [wb_data wb_max_bytes].
  rewrite !wrap_small by done.
  destruct (VarInt_new_spec _ Hk) as (kr & -> & Hks & _). cbn [mbind outcome_bind]. rewrite Hks.
  destruct (VarInt_new_spec _ Hv) as (vr & Hvr & Hvs & _). cbn [mbind outcome_bind].
  rewrite Hvr. cbn [mbind outcome_bind]. rewrite Hvs. cbn [mbind outcome_bind].
  unfold wb_encode. rewrite <- !app_assoc. rewrite count_slice_done. cbn [mbind outcome_bind].
  rewrite read_count_done by (unfold in_width; lia). cbn [mbind outcome_bind].
  rewrite add_w_small by done. cbn [mbind outcome_bind].
  unfold write_u32_le_unsafe. rewrite copy_nonoverlapping_done by done. cbn [mbind outcome_bind].
  unfold header. rewrite <- !app_assoc. unfold WB_COUNT_OFFSET. do 2 f_equal.
  rewrite (splice_app_at 8) by done. f_equal.
  rewrite length_app, Nat2Z.inj_add. change (Z.of_nat (length [(k, v)])) with 1.
  set (n := Z.of_nat (length kvs)).
  assert (splice 0 (to_le_bytes 4 (n + 1)) (to_le_bytes 4 n) = to_le_bytes 4 (n + 1)) as -> by done.
  rewrite to_le_bytes_length, (drop_app_length' (to_le_bytes 4 n)) by done. f_equal.
  rewrite fmap_app, concat_app. cbn [fmap list_fmap concat]. unfold wb_enc. cbn [fst snd].
  by rewrite app_nil_r.
Qed.

Lemma wb_puts_done p t kvs' kvs m :
  Forall wb_op_ok kvs' -> Z.of_nat (length kvs + length kvs') < 2 ^ 32 ->
  wb_puts p t (mkWBatch (wb_encode kvs) m) kvs' = Done (mkWBatch (wb_encode (kvs ++ kvs')) m).
Proof.
  intros H. revert kvs. induction H as [|[k v] kvs' Hr _ IH]; intros kvs Hn; cbn [wb_puts].
  - by rewrite app_nil_r.
  - unfold WBatch_put. rewrite put_bytes_done by (cbn in *; done || lia). cbn [mbind outcome_bind].
    rewrite IH by (rewrite length_app; cbn in *; lia). by rewrite <- app_assoc.
Qed.

(** A run of puts on a new batch never panics; the buffer then decodes to
    exactly those pairs in order, and the header counts them.  Nothing bounds
    the buffer, although the batch stores a maximum, and a batch that holds no
    record is not reported empty. *)
Theorem write_batch_roundtrip p t kvs :
  Forall wb_op_ok kvs -> Z.of_nat (length kvs) < 2 ^ 32 ->
  exists w, wb_puts p t WBatch_new kvs = Done w /\ batch_count t w = Done (Z.of_nat (length kvs)) /\
    wb_parse_recs (length kvs) (drop 12 (wb_data w)) = Some kvs /\
    batch_size w = WB_HEADER_SIZE + len (concat (wb_enc <$> kvs)) /\ WBatch_is_empty w = false.
Proof.
  intros H Hn. change WBatch_new with (mkWBatch (wb_encode []) WB_MAX_BATCH_SIZE).
  rewrite wb_puts_done by done. eexists. split; [done|]. cbn [app]. unfold wb_encode.
  set (n := Z.of_nat (length kvs)) in *. split_and!.
  - unfold batch_count. cbn [wb_data]. rewrite count_slice_done. cbn [mbind outcome_bind].
    apply read_count_done. unfold in_width. lia.
  - cbn [wb_data]. rewrite (drop_app_length' (header 0 n)) by done. by apply wb_parse_recs_enc.
  - unfold batch_size. cbn [wb_data]. by rewrite len_app, len_header.
  - unfold WBatch_is_empty. cbn [wb_data]. apply bool_decide_eq_false. rewrite len_app, len_header.
    unfold HEADER_SIZE. pose proof (len_nonneg (concat (wb_enc <$> kvs))). lia.
Qed.

Lemma write_batch_roundtrip_witness :
  exists w, wb_puts Debug LittleEndian WBatch_new [([119; 111], [])] = Done w /\ batch_count LittleEndian w = Done 1 /\
    wb_parse_recs 1 (drop 12 (wb_data w)) = Some [([119; 111], [])] /\
    batch_size w = WB_HEADER_SIZE + len (concat (wb_enc <$> [([119; 111], [])])) /\ WBatch_is_empty w = false.
Proof.
  apply (write_batch_roundtrip Debug LittleEndian [([119; 111], [])]);
    [repeat constructor; vm_compute; (split; [discriminate|reflexivity]) || discriminate|reflexivity].
Defined.
