(* ===== verification/Pipeline.v ===== *)
(** * Pipeline: the commit queue, admission and sequence assignment

    Models [db/write_pipeline.rs] with what it uses of [version/mod.rs] and
    [db/db_impl.rs], run by one thread at a time: the ring buffer of batches
    behind its packed head and tail, the counting semaphore, and the commit
    steps of the pipeline.  [PipelineThreads.v] interleaves the queue and
    [Admission.v] the semaphore. *)

From S2P Require Import Prelude Codec Records Wal Batch.

(** ** Packed positions *)

(* @src crates/engine/src/db/write_pipeline.rs:40-40 HeadTail::DEQUEUE_BITS *)
Definition DEQUEUE_BITS : Z := 32.

(* @src crates/engine/src/db/write_pipeline.rs:41-41 HeadTail::MASK *)
Definition HT_MASK : Z := Z.shiftl 1 DEQUEUE_BITS - 1.

(* @src crates/engine/src/db/write_pipeline.rs:43-46 HeadTail::pack *)
Definition HeadTail_pack (head tail : Z) : Z :=
  Z.lor (wrap 64 (Z.shiftl head DEQUEUE_BITS)) (Z.land tail HT_MASK).

(* @src crates/engine/src/db/write_pipeline.rs:48-62 HeadTail::unpack_unchecked *)
Definition HeadTail_unpack (packed : Z) : Z * Z :=
  (wrap 32 (Z.land (Z.shiftr packed DEQUEUE_BITS) HT_MASK), wrap 32 (Z.land packed HT_MASK)).

(** ** The queue

    A slot holds the address of a batch, or null; [heap] gives the batches. *)

(* @src crates/engine/src/db/write_pipeline.rs:121-126 BatchQueue *)
Record BatchQueue := mkBatchQueue { q_head_tail : Z; q_slots : list (option nat) }.

Abbreviation heap := (gmap nat BatchInner).

(* @src crates/engine/src/db/write_pipeline.rs:134-141 BatchQueue::new *)
Definition BatchQueue_new (N : Z) : outcome BatchQueue :=
  _ ← rust_assert (is_power_of_two N) "N.is_power_of_two()";
  _ ← rust_assert (bool_decide (N <= 1024)) "N <= 1024";
  Done (mkBatchQueue 0 (replicate (Z.to_nat N) None)).

(* @src crates/engine/src/db/write_pipeline.rs:130-132 BatchQueue::size *)
Definition BatchQueue_size (N : Z) (q : BatchQueue) : Z := N.

(** [&self.slots[i]]. *)

Definition slot_load (q : BatchQueue) (i : Z) : outcome (option nat) :=
  match q_slots q !! Z.to_nat i with
  | Some s => Done s
  | None => Panic "index out of bounds"
  end.

Definition slot_store (q : BatchQueue) (i : Z) (s : option nat) : BatchQueue :=
  mkBatchQueue (q_head_tail q) (<[Z.to_nat i := s]> (q_slots q)).

(** A slot that is not null only makes the producer spin once. *)

(* @src crates/engine/src/db/write_pipeline.rs:144-167 BatchQueue::enqueue *)
Definition BatchQueue_enqueue (N : Z) (q : BatchQueue) (batch : nat) : outcome BatchQueue :=
  let '(head, tail) := HeadTail_unpack (q_head_tail q) in
  if decide (wrap 32 (tail + wrap 32 N) = head) then Panic "Queue full - reservation failed"
  else
    let i := Z.land head (wrap 32 N - 1) in
    _ ← slot_load q i;
    let q := slot_store q i (Some batch) in
    Done (mkBatchQueue (wrap 64 (q_head_tail q + Z.shiftl 1 DEQUEUE_BITS)) (q_slots q)).

(* @src crates/engine/src/db/write_pipeline.rs:176-206 BatchQueue::try_dequeue *)
Fixpoint try_dequeue_loop (fuel : nat) (N : Z) (hp : heap) (q : BatchQueue) (ht : Z)
  : outcome (BatchQueue * option nat) :=
  match fuel with
  | O => NoFuel
  | S fuel =>
      let '(head, tail) := HeadTail_unpack ht in
      if decide (tail = head) then Done (q, None)
      else
        let i := Z.land tail (wrap 32 N - 1) in
        slot ← slot_load q i;
        match slot with
        | None => Done (q, None)
        | Some batch =>
            match hp !! batch with
            | None => UB "dereference of a freed batch"
            | Some b =>
                is_applied b ≫= fun applied : bool =>
                if applied then
                  let new_ht := HeadTail_pack head (wrap 32 (tail + 1)) in
                  if decide (q_head_tail q = ht)
                  then Done (slot_store (mkBatchQueue new_ht (q_slots q)) i None, Some batch)
                  else try_dequeue_loop fuel N hp q (q_head_tail q)
                else Done (q, None)
            end
        end
  end.

(* @src crates/engine/src/db/write_pipeline.rs:172-207 BatchQueue::try_dequeue *)
Definition BatchQueue_try_dequeue (N : Z) (hp : heap) (q : BatchQueue) : outcome (BatchQueue * option nat) :=
  try_dequeue_loop 1 N hp q (q_head_tail q).

(** ** Admission *)

(* @src crates/engine/src/db/write_pipeline.rs:245-249 PipelineAdmission *)
Record PipelineAdmission := mkAdmission { adm_count : Z }.

(* @src crates/engine/src/db/write_pipeline.rs:252-259 PipelineAdmission::new *)
Definition PipelineAdmission_new (p : profile) (LIMIT : Z) : outcome PipelineAdmission :=
  _ ← debug_assert p (bool_decide (LIMIT <= u_max 16)) "COUNTING_SEM_LIMIT <= u16::MAX as usize";
  Done (mkAdmission (wrap 16 LIMIT)).

(** Alone, the exchange succeeds at the first attempt. *)

(* @src crates/engine/src/db/write_pipeline.rs:261-277 PipelineAdmission::try_acquire *)
Definition try_acquire (a : PipelineAdmission) : PipelineAdmission * bool :=
  if decide (adm_count a = 0) then (a, false) else (mkAdmission (adm_count a - 1), true).

(** Without a permit and without another thread the caller sleeps for ever. *)

(* @src crates/engine/src/db/write_pipeline.rs:279-297 PipelineAdmission::acquire *)
Definition acquire (a : PipelineAdmission) : outcome PipelineAdmission :=
  match try_acquire a with
  | (a, true) => Done a
  | (_, false) => NoFuel
  end.

(* @src crates/engine/src/db/write_pipeline.rs:299-309 PipelineAdmission::release *)
Definition release (LIMIT : Z) (a : PipelineAdmission) : outcome PipelineAdmission :=
  let prev := adm_count a in
  let a := mkAdmission (wrap 16 (prev + 1)) in
  _ ← rust_assert (bool_decide (prev < LIMIT)) "Semaphore released at count limit";
  Done a.

(** ** Sequence numbers *)

(* @src crates/engine/src/version/mod.rs:10-17 SeqNumState *)
Record SeqNumState := mkSeqNumState { visible_seq_num : Z; log_seq_num : Z }.

(* @src crates/engine/src/version/mod.rs:26-32 SeqNumState::new *)
Definition SeqNumState_new : SeqNumState := mkSeqNumState 0 0.

(* @src crates/engine/src/version/mod.rs:20-22 SeqNumState::default *)
Definition SeqNumState_default : SeqNumState := SeqNumState_new.

(* @src crates/engine/src/version/mod.rs:34-36 SeqNumState::load_log_seq_num *)
Definition load_log_seq_num (s : SeqNumState) : Z := log_seq_num s.

(** [log_seq_num.fetch_add(n)]: the old value; atomic addition wraps. *)

Definition fetch_add_log (s : SeqNumState) (n : Z) : SeqNumState * Z :=
  (mkSeqNumState (visible_seq_num s) (wrap 64 (log_seq_num s + n)), log_seq_num s).

(** ** The pipeline

    The environment a pipeline writes through. *)

(* @src crates/engine/src/db/write_pipeline.rs:234-241 WriterEnv *)
Class WriterEnv (E : Type) := {
  prepare_commit : E -> BatchInner -> outcome (result unit Error);
  apply_commit : E -> BatchInner -> outcome (result unit Error)
}.

(* @src crates/engine/src/db/write_pipeline.rs:331-356 WritePipeline *)
Record WritePipeline (E : Type) := mkPipeline {
  wp_queue : BatchQueue;
  wp_sem : PipelineAdmission;
  wp_sync : SyncSem;
  wp_env : E;
  wp_seq : SeqNumState
}.

#[global] Arguments mkPipeline {E} _ _ _ _ _.
#[global] Arguments wp_queue {E} _.
#[global] Arguments wp_sem {E} _.
#[global] Arguments wp_sync {E} _.
#[global] Arguments wp_env {E} _.
#[global] Arguments wp_seq {E} _.

Section pipeline.
  Context {E : Type} `{!WriterEnv E} (N : Z).

(* @src crates/engine/src/db/write_pipeline.rs:372-390 WritePipeline::new_with_size *)
Definition WritePipeline_new_with_size (p : profile) (env : E) (seq_state : SeqNumState) (sync_sem : SyncSem)
  : outcome (WritePipeline E) :=
  q ← BatchQueue_new N;
  a ← PipelineAdmission_new p N;
  Done (mkPipeline q a sync_sem env seq_state).

(* @src crates/engine/src/db/write_pipeline.rs:413-415 WritePipeline::try_reserve_space *)
Definition try_reserve_space (w : WritePipeline E) : WritePipeline E * bool :=
  let '(a, ok) := try_acquire (wp_sem w) in
  (mkPipeline (wp_queue w) a (wp_sync w) (wp_env w) (wp_seq w), ok).

(* @src crates/engine/src/db/write_pipeline.rs:400-405 WritePipeline::reserve_space *)
Fixpoint reserve_spin (n : nat) (w : WritePipeline E) : WritePipeline E * bool :=
  match n with
  | O => (w, false)
  | S n => match try_reserve_space w with (w, true) => (w, true) | (w, false) => reserve_spin n w end
  end.

(* @src crates/engine/src/db/write_pipeline.rs:392-411 WritePipeline::reserve_space *)
Definition reserve_space (w : WritePipeline E) : outcome (WritePipeline E) :=
  match reserve_spin 200 w with
  | (w, true) => Done w
  | (w, false) => a ← acquire (wp_sem w); Done (mkPipeline (wp_queue w) a (wp_sync w) (wp_env w) (wp_seq w))
  end.

(* @src crates/engine/src/db/write_pipeline.rs:417-419 WritePipeline::release_queue_space *)
Definition release_queue_space (w : WritePipeline E) : outcome (WritePipeline E) :=
  a ← release N (wp_sem w); Done (mkPipeline (wp_queue w) a (wp_sync w) (wp_env w) (wp_seq w)).

(* @src crates/engine/src/db/write_pipeline.rs:435-454 WritePipeline::commit_sync *)
Definition commit_sync (w : WritePipeline E) (batch : nat) : outcome (WritePipeline E * result unit Error) :=
  Done (w, Ok tt).

(* @src crates/engine/src/db/write_pipeline.rs:469-510 WritePipeline::commit *)
Definition commit (w : WritePipeline E) (hp : heap) (batch : nat)
  : outcome (WritePipeline E * heap * result unit Error) :=
  match hp !! batch with
  | None => UB "dereference of a freed batch"
  | Some b =>
      w ← reserve_space w;
      waiter ← SyncLogWaiter_signal (bi_waiter b) SySyncDone;
      Done (w, <[batch := set_waiter b waiter (bi_waiter_refs b)]> hp, Ok tt)
  end.

(** The state byte is stored, and the sequence number stamped, through a
    shared reference to the enqueued batch. *)

(* @src crates/engine/src/db/write_pipeline.rs:513-541 WritePipeline::prepare *)
Definition prepare (p : profile) (w : WritePipeline E) (hp : heap) (batch : nat)
  : outcome (WritePipeline E * heap * result unit Error) :=
  match hp !! batch with
  | None => UB "dereference of a freed batch"
  | Some b =>
      q ← BatchQueue_enqueue N (wp_queue w) batch;
      let b := set_runtime_state b StInQueue in
      let '(seq, old) := fetch_add_log (wp_seq w) (get_batch_count b) in
      s ← sub_w p 64 old (get_batch_count b);
      b ← assign_seq_num_once p b s;
      r ← prepare_commit (wp_env w) b;
      Done (mkPipeline q (wp_sem w) (wp_sync w) (wp_env w) seq, <[batch := b]> hp, r)
  end.
End pipeline.

(* @src crates/engine/src/db/options.rs:7-7 DEFAULT_WRITE_PIPELINE_CAPACITY_SIZE *)
Definition DEFAULT_WRITE_PIPELINE_CAPACITY_SIZE : Z := 64.

(* @src crates/engine/src/db/write_pipeline.rs:358-366 WritePipeline::new *)
Definition WritePipeline_new {E} (p : profile) (env : E) (seq_state : SeqNumState) (sync_sem : SyncSem)
  : outcome (WritePipeline E) :=
  WritePipeline_new_with_size DEFAULT_WRITE_PIPELINE_CAPACITY_SIZE p env seq_state sync_sem.

(** ** The database as environment *)

(* @src crates/engine/src/db/db_impl.rs:19-26 DbImpl *)
Record DbImpl := mkDbImpl { dbi_version_set : unit; dbi_batch_pool : unit }.

(* @src crates/engine/src/db/db_impl.rs:44-55 DbImpl *)
#[export] Instance DbImpl_env : WriterEnv DbImpl := {
  prepare_commit := fun _ _ => Done (Ok tt);
  apply_commit := fun _ _ => Done (Ok tt)
}.

(** [seq_state] clones the result of calling itself. *)

(* @src crates/engine/src/db/db_impl.rs:37-39 DbImpl::seq_state *)
Fixpoint DbImpl_seq_state (fuel : nat) (d : DbImpl) : outcome SeqNumState :=
  match fuel with
  | O => NoFuel
  | S fuel => DbImpl_seq_state fuel d
  end.

(** A [const] atomic is a fresh one at every use. *)

(* @src crates/engine/src/db/db.rs:32-36 DB::next_id *)
Definition DB_next_id : Z := let DB_ID := 0 in DB_ID.

(* @src crates/engine/src/db/db.rs:45-60 DB::new *)
Definition DB_new (fuel : nat) (p : profile) : outcome (Z * WritePipeline DbImpl) :=
  let id := DB_next_id in
  let db_impl := mkDbImpl tt tt in
  seq ← DbImpl_seq_state fuel db_impl;
  w ← WritePipeline_new p db_impl seq SyncSem_default;
  Done (id, w).

(* @src crates/engine/src/db/db.rs:38-43 DB::open *)
Definition DB_open (fuel : nat) (p : profile) : outcome (Z * WritePipeline DbImpl) := DB_new fuel p.

(** ** Packing lemmas *)

Lemma wrap32_width z : in_width 32 (wrap 32 z).
Proof. by apply wrap_in_width. Qed.

Lemma mask_is_mod z : Z.land z HT_MASK = z mod 2 ^ 32.
Proof. unfold HT_MASK, DEQUEUE_BITS. rewrite Z.shiftl_mul_pow2 by lia. rewrite Z.mul_1_l. by apply land_mask. Qed.

Lemma pack_value h t : in_width 32 h -> in_width 32 t -> HeadTail_pack h t = h * 2 ^ 32 + t.
Proof.
  unfold in_width. intros Hh Ht. unfold HeadTail_pack, DEQUEUE_BITS. rewrite mask_is_mod, Z.mod_small by done.
  rewrite wrap_small.
  - by apply lor_shiftl_add.
  - unfold in_width. rewrite Z.shiftl_mul_pow2 by lia. lia.
Qed.

Lemma pack_in_width h t : in_width 32 h -> in_width 32 t -> in_width 64 (HeadTail_pack h t).
Proof. intros Hh Ht. rewrite pack_value by done. unfold in_width in *. lia. Qed.

Lemma unpack_pack h t : in_width 32 h -> in_width 32 t -> HeadTail_unpack (HeadTail_pack h t) = (h, t).
Proof.
  intros Hh Ht. rewrite pack_value by done. unfold HeadTail_unpack, DEQUEUE_BITS.
  rewrite !mask_is_mod, Z.shiftr_div_pow2 by lia. unfold in_width in *.
  rewrite Z.div_add_l by lia. rewrite (Z.div_small t) by lia. rewrite Z.add_0_r.
  rewrite (Z.add_comm (h * 2 ^ 32)), Z.mod_add by lia. rewrite !Z.mod_small by lia.
  by rewrite !wrap_small.
Qed.

Lemma pack_inj h t h' t' :
  in_width 32 h -> in_width 32 t -> in_width 32 h' -> in_width 32 t' ->
  HeadTail_pack h t = HeadTail_pack h' t' -> h = h' /\ t = t'.
Proof. intros. rewrite !pack_value in * by done. unfold in_width in *. lia. Qed.

(** Advancing the head is one addition to the packed word, carry and all. *)

Lemma pack_head_succ h t :
  in_width 32 h -> in_width 32 t ->
  wrap 64 (HeadTail_pack h t + Z.shiftl 1 DEQUEUE_BITS) = HeadTail_pack (wrap 32 (h + 1)) t.
Proof.
  intros Hh Ht. rewrite !pack_value by (done || apply wrap32_width). unfold DEQUEUE_BITS.
  rewrite Z.shiftl_mul_pow2 by lia. unfold wrap, in_width in *.
  change (2 ^ 64) with (2 ^ 32 * 2 ^ 32). destruct (decide (h + 1 < 2 ^ 32)).
  - rewrite (Z.mod_small (h + 1)) by lia. rewrite Z.mod_small by lia. lia.
  - assert (h + 1 = 2 ^ 32) by lia. assert (Eh : h = 2 ^ 32 - 1) by lia. rewrite Eh.
    replace (2 ^ 32 - 1 + 1) with (2 ^ 32) by lia. rewrite Z_mod_same_full.
    replace ((2 ^ 32 - 1) * 2 ^ 32 + t + 1 * 2 ^ 32) with (t + 1 * (2 ^ 32 * 2 ^ 32)) by lia.
    rewrite Z.mod_add by lia. apply Z.mod_small. lia.
Qed.

Lemma wrap32_mod x k : 0 <= k <= 10 -> wrap 32 x mod 2 ^ k = x mod 2 ^ k.
Proof.
  intros Hk. unfold wrap. apply Z.mod_mod_divide. exists (2 ^ (32 - k)). rewrite <- Z.pow_add_r by lia. f_equal. lia.
Qed.

Lemma size_small k : 0 <= k <= 10 -> 1 <= 2 ^ k <= 1024.
Proof.
  intros Hk. split; [pose proof (Z.pow_pos_nonneg 2 k); lia|].
  change 1024 with (2 ^ 10). apply Z.pow_le_mono_r; lia.
Qed.

(** The slot index is the position modulo the size. *)

Lemma slot_index x k : 0 <= k <= 10 -> Z.land x (wrap 32 (2 ^ k) - 1) = x mod 2 ^ k.
Proof.
  intros Hk. pose proof (size_small k Hk). rewrite wrap_small by (unfold in_width; lia). apply land_mask; lia.
Qed.

Lemma mod_shift_inj t i j n : 0 <= i < n -> 0 <= j < n -> (t + i) mod n = (t + j) mod n -> i = j.
Proof.
  intros Hi Hj E. pose proof (Z.div_mod (t + i) n ltac:(lia)). pose proof (Z.div_mod (t + j) n ltac:(lia)).
  assert ((t + i) / n = (t + j) / n) by nia. nia.
Qed.

Lemma wrap32_eq t a b : 0 <= a <= 1024 -> 0 <= b <= 1024 -> wrap 32 (t + a) = wrap 32 (t + b) <-> a = b.
Proof.
  intros Ha Hb. unfold wrap. split; [|by intros ->]. intros E.
  apply (mod_shift_inj t a b (2 ^ 32)); [lia|lia|done].
Qed.

(** ** The queue as a sequence *)

(** [queue_repr k q t xs]: the queue of size [2 ^ k] holds the batches [xs],
    oldest first, from position [t] on; every other slot is null. *)

Record queue_repr (k : Z) (q : BatchQueue) (t : Z) (xs : list nat) : Prop := mkQueueRepr {
  qr_size : 0 <= k <= 10;
  qr_tail : in_width 32 t;
  qr_fits : len xs <= 2 ^ k;
  qr_ht : q_head_tail q = HeadTail_pack (wrap 32 (t + len xs)) t;
  qr_slots : len (q_slots q) = 2 ^ k;
  qr_at : forall i : nat, Z.of_nat i < 2 ^ k -> q_slots q !! Z.to_nat ((t + Z.of_nat i) mod 2 ^ k) = Some (xs !! i)
}.

Lemma queue_new_repr k : 0 <= k <= 10 ->
  exists q, BatchQueue_new (2 ^ k) = Done q /\ queue_repr k q 0 [].
Proof.
  intros Hk. pose proof (size_small k Hk). unfold BatchQueue_new.
  rewrite (rust_assert_true (is_power_of_two (2 ^ k))) by (apply power_of_two_pow2; lia).
  cbn [mbind outcome_bind]. rewrite rust_assert_true by (apply bool_decide_true; lia). eexists. split; [done|].
  constructor; try done; cbn [q_slots].
  - unfold len. simpl. lia.
  - rewrite len_replicate, Z2Nat.id by lia. done.
  - intros i Hi. rewrite lookup_nil. apply lookup_replicate_2.
    pose proof (Z.mod_pos_bound (0 + Z.of_nat i) (2 ^ k) ltac:(lia)). lia.
Qed.

Lemma slot_load_at k q t xs i :
  queue_repr k q t xs -> Z.of_nat i < 2 ^ k ->
  slot_load q ((t + Z.of_nat i) mod 2 ^ k) = Done (xs !! i).
Proof. intros H Hi. unfold slot_load. by rewrite (qr_at _ _ _ _ H i Hi). Qed.

Lemma enqueue_outcome k q t xs b :
  queue_repr k q t xs ->
  if decide (len xs = 2 ^ k) then BatchQueue_enqueue (2 ^ k) q b = Panic "Queue full - reservation failed"
  else exists q', BatchQueue_enqueue (2 ^ k) q b = Done q' /\ queue_repr k q' t (xs ++ [b]).
Proof.
  intros H. pose proof (qr_size _ _ _ _ H) as Hk. pose proof (size_small k Hk) as Hn. pose proof (len_nonneg xs) as Hl.
  pose proof (qr_fits _ _ _ _ H) as Hf. pose proof (qr_tail _ _ _ _ H) as Ht.
  unfold BatchQueue_enqueue. rewrite (qr_ht _ _ _ _ H).
  rewrite unpack_pack by (done || apply wrap32_width).
  rewrite (wrap_small 32 (2 ^ k)) by (unfold in_width; lia).
  destruct (decide (len xs = 2 ^ k)) as [E|E].
  - rewrite decide_True by (by rewrite E). done.
  - rewrite decide_False by (rewrite wrap32_eq by lia; lia).
    rewrite land_mask by lia. rewrite wrap32_mod by apply H.
    replace (len xs) with (Z.of_nat (length xs)) by done.
    rewrite (slot_load_at k q t xs) by (done || (unfold len in *; lia)). cbn [mbind outcome_bind].
    eexists. split; [done|]. constructor; cbn [q_slots q_head_tail slot_store].
    + apply H.
    + done.
    + autorewrite with lens. lia.
    + rewrite (qr_ht _ _ _ _ H), pack_head_succ by (done || apply wrap32_width). f_equal.
      autorewrite with lens. unfold wrap. rewrite Zplus_mod_idemp_l. f_equal. lia.
    + unfold len. rewrite length_insert. apply H.
    + intros i Hi. destruct (decide (i = length xs)) as [->|Hne].
      * rewrite list_lookup_insert_eq; [by rewrite lookup_app_r, Nat.sub_diag by lia|].
        apply lookup_lt_is_Some. rewrite (qr_at _ _ _ _ H) by done. done.
      * rewrite list_lookup_insert_ne.
        { rewrite (qr_at _ _ _ _ H) by done. f_equal. destruct (decide (i < length xs)%nat).
          - by rewrite lookup_app_l.
          - rewrite !lookup_ge_None_2; [done|rewrite length_app; simpl; lia|lia]. }
        intros Heq. apply Z2Nat.inj in Heq; [|apply Z.mod_pos_bound; lia|apply Z.mod_pos_bound; lia].
        apply mod_shift_inj in Heq; [lia| |lia]. unfold len in *. lia.
Qed.

Definition applied_in (hp : heap) (b : nat) : Prop :=
  exists x, hp !! b = Some x /\ bi_state x = BatchRuntimeState_as_u8 StApplied.

Definition not_applied_in (hp : heap) (b : nat) : Prop :=
  exists x s, hp !! b = Some x /\ bi_state x = BatchRuntimeState_as_u8 s /\ s <> StApplied.

Lemma try_dequeue_empty k hp q t :
  queue_repr k q t [] -> BatchQueue_try_dequeue (2 ^ k) hp q = Done (q, None).
Proof.
  intros H. unfold BatchQueue_try_dequeue, try_dequeue_loop. pose proof (qr_tail _ _ _ _ H) as Ht.
  rewrite (qr_ht _ _ _ _ H). rewrite unpack_pack by (done || apply wrap32_width).
  rewrite decide_True; [done|]. change (len (@nil nat)) with 0. by rewrite Z.add_0_r, wrap_small.
Qed.

Lemma try_dequeue_front k hp q t x xs (o : bool) :
  queue_repr k q t (x :: xs) -> (if o then applied_in hp x else not_applied_in hp x) ->
  if o then exists q', BatchQueue_try_dequeue (2 ^ k) hp q = Done (q', Some x) /\ queue_repr k q' (wrap 32 (t + 1)) xs
  else BatchQueue_try_dequeue (2 ^ k) hp q = Done (q, None).
Proof.
  intros H Ho. pose proof (qr_size _ _ _ _ H) as Hk. pose proof (size_small k Hk) as Hn. pose proof (len_nonneg xs) as Hl.
  pose proof (qr_fits _ _ _ _ H) as Hf. rewrite len_cons in Hf. pose proof (qr_tail _ _ _ _ H) as Ht.
  unfold BatchQueue_try_dequeue, try_dequeue_loop. rewrite (qr_ht _ _ _ _ H).
  rewrite unpack_pack by (done || apply wrap32_width).
  rewrite decide_False.
  2: { rewrite <- (wrap_small 32 t Ht) at 1. rewrite <- (Z.add_0_r t) at 1. rewrite len_cons, wrap32_eq by lia. lia. }
  rewrite slot_index by apply H. replace (t mod 2 ^ k) with ((t + Z.of_nat 0) mod 2 ^ k) by (f_equal; lia).
  rewrite (slot_load_at k q t (x :: xs)) by (done || lia). cbn [mbind outcome_bind lookup list_lookup].
  destruct o.
  - destruct Ho as (y & -> & Hy). unfold is_applied. rewrite Hy, state_from_as. cbn [mbind outcome_bind].
    rewrite bool_decide_true by done. rewrite decide_True by done. eexists. split; [done|].
    constructor; cbn [q_slots q_head_tail slot_store].
    + apply H.
    + apply wrap32_width.
    + lia.
    + f_equal. rewrite len_cons. unfold wrap. rewrite Zplus_mod_idemp_l. f_equal. lia.
    + unfold len. rewrite length_insert. apply H.
    + intros i Hi. rewrite <- Zplus_mod_idemp_l, wrap32_mod, Zplus_mod_idemp_l by apply H.
      destruct (decide (Z.of_nat i + 1 = 2 ^ k)) as [E|E].
      * replace (t + 1 + Z.of_nat i) with (t + Z.of_nat 0 + 1 * 2 ^ k) by lia. rewrite Z.mod_add by lia.
        rewrite list_lookup_insert_eq.
        -- rewrite lookup_ge_None_2; [done|]. unfold len in *. lia.
        -- apply lookup_lt_is_Some. rewrite (qr_at _ _ _ _ H) by lia. done.
      * replace (t + 1 + Z.of_nat i) with (t + Z.of_nat (S i)) by lia.
        rewrite list_lookup_insert_ne; [by rewrite (qr_at _ _ _ _ H) by lia|].
        intros Heq. apply Z2Nat.inj in Heq; [|apply Z.mod_pos_bound; lia|apply Z.mod_pos_bound; lia].
        apply mod_shift_inj in Heq; lia.
  - destruct Ho as (y & s & -> & Hy & Hs). unfold is_applied. rewrite Hy, state_from_as. cbn [mbind outcome_bind].
    by rewrite bool_decide_false.
Qed.

(** ** Pipeline lemmas *)

Section pipeline_lemmas.
Context {E : Type} `{!WriterEnv E} (N : Z).

Lemma reserve_space_done (w : WritePipeline E) :
  reserve_space w =
    if decide (adm_count (wp_sem w) = 0) then NoFuel
    else Done (mkPipeline (wp_queue w) (mkAdmission (adm_count (wp_sem w) - 1)) (wp_sync w) (wp_env w) (wp_seq w)).
Proof.
  unfold reserve_space. destruct (decide (adm_count (wp_sem w) = 0)) as [H|H].
  - assert (Hspin : forall n, reserve_spin n w = (w, false)).
    { induction n as [|n IH]; [done|]. cbn [reserve_spin]. unfold try_reserve_space, try_acquire.
      rewrite decide_True by done. by destruct w. }
    rewrite Hspin. unfold acquire, try_acquire. by rewrite decide_True.
  - cbn [reserve_spin]. unfold try_reserve_space, try_acquire. by rewrite decide_False.
Qed.

(** A batch that has its header. *)

Definition has_header (b : BatchInner) : Prop := HEADER_SIZE <= len (bi_data b).

Lemma has_header_split b : has_header b ->
  exists s rest, bi_data b = s ++ rest /\ length s = 8%nat /\ rest <> [].
Proof.
  unfold has_header, HEADER_SIZE, len. intros H. exists (take 8 (bi_data b)), (drop 8 (bi_data b)).
  rewrite take_drop, length_take. split; [done|]. split; [lia|]. intros Hd.
  apply (f_equal length) in Hd. rewrite length_drop in Hd. simpl in Hd. lia.
Qed.

(** The batch as [prepare] leaves it. *)

Definition stamped (b : BatchInner) (seq : Z) : BatchInner :=
  set_data (set_runtime_state b StInQueue) (to_le_bytes 8 seq ++ drop 8 (bi_data b)).

Lemma prepare_enqueued p (w : WritePipeline E) hp b x q :
  BatchQueue_enqueue N (wp_queue w) b = Done q -> hp !! b = Some x -> has_header x ->
  in_width 64 (log_seq_num (wp_seq w)) -> 0 <= bi_count x ->
  let n := bi_count x in
  let old := log_seq_num (wp_seq w) in
  prepare N p w hp b =
    (if decide (p = Debug /\ old < n) then Panic "attempt to subtract with overflow"
     else
       let x' := stamped x (wrap 64 (old - n)) in
       r ← prepare_commit (wp_env w) x';
       Done (mkPipeline q (wp_sem w) (wp_sync w) (wp_env w) (fst (fetch_add_log (wp_seq w) n)), <[b := x']> hp, r)).
Proof.
  intros Eq Hb Hh Hold Hn n old. unfold prepare. rewrite Hb, Eq. cbn [mbind outcome_bind].
  destruct (has_header_split x Hh) as (s & rest & Ed & Hs & Hr).
  unfold fetch_add_log, get_batch_count. cbn [bi_count set_runtime_state set_state_byte fst]. fold n old.
  change (0 <= n) in Hn. change (in_width 64 old) in Hold.
  assert (Hdrop : drop 8 (bi_data x) = rest) by (rewrite Ed; by apply drop_app_length').
  assert (Hassign : forall v, assign_seq_num_once p (set_runtime_state x StInQueue) v = Done (stamped x v)).
  { intros v. unfold stamped. rewrite Hdrop. apply (assign_seq_num_once_done p _ s rest); done. }
  unfold sub_w. destruct (decide (n <= old)) as [Hle|Hgt].
  - rewrite decide_False by lia. cbn [mbind outcome_bind]. rewrite Hassign. cbn [mbind outcome_bind].
    rewrite (wrap_small 64 (old - n)) by (unfold in_width in *; lia). done.
  - destruct p; [by rewrite decide_True by (split; [done|lia])|]. rewrite decide_False by (by intros [? _]).
    cbn [mbind outcome_bind]. by rewrite Hassign.
Qed.

Lemma stamped_seq p t b v : has_header b -> in_width 64 v -> seq_num p t (stamped b v) = Done v.
Proof.
  intros Hh Hv. destruct (has_header_split b Hh) as (s & rest & Ed & Hs & Hr).
  apply (seq_num_done p t _ v (drop 8 (bi_data b))); [done| |done].
  rewrite Ed. by rewrite drop_app_length'.
Qed.

Fixpoint commits (w : WritePipeline E) (hp : heap) (batch : nat) (n : nat) : outcome (WritePipeline E * heap) :=
  match n with
  | O => Done (w, hp)
  | S n => '(w, hp, _) ← commit w hp batch; commits w hp batch n
  end.

Lemma commits_S (w : WritePipeline E) hp b n :
  commits w hp b (S n) = ('(w, hp, _) ← commit w hp b; commits w hp b n).
Proof. done. Qed.

Lemma commits_done n (w : WritePipeline E) hp b x :
  hp !! b = Some x -> Z.of_nat n <= adm_count (wp_sem w) ->
  exists hp' x', commits w hp b n =
      Done (mkPipeline (wp_queue w) (mkAdmission (adm_count (wp_sem w) - Z.of_nat n)) (wp_sync w) (wp_env w) (wp_seq w), hp') /\
    hp' !! b = Some x' /\ (n <> 0%nat -> sync_waiter_state x' = Done SySyncDone).
Proof.
  revert w hp x. induction n as [|n IH]; intros w hp x Hb Hn.
  - exists hp, x. cbn. rewrite Z.sub_0_r. by destruct w as [? [] ? ?].
  - cbn [commits]. unfold commit. rewrite Hb, reserve_space_done, decide_False by lia. cbn [mbind outcome_bind].
    unfold SyncLogWaiter_signal. rewrite rust_assert_true by done. cbn [mbind outcome_bind].
    set (w' := mkPipeline _ _ _ _ _). set (x1 := set_waiter _ _ _).
    destruct (IH w' (<[b := x1]> hp) x1) as (hp' & x' & Hrun & Hb' & Hx');
      [apply lookup_insert_eq|cbn [wp_sem adm_count w']; lia|].
    exists hp', x'. rewrite Hrun. cbn [wp_sem adm_count wp_queue wp_env wp_seq w'].
    split; [do 4 f_equal; lia|]. split; [done|]. intros _.
    destruct n as [|n]; [|by apply Hx'].
    assert (hp' = <[b := x1]> hp) as -> by (cbn in Hrun; congruence).
    rewrite lookup_insert_eq in Hb'. by injection Hb' as <-.
Qed.
End pipeline_lemmas.

(** ** Properties *)

(** The ring buffer, with its wrapping 32-bit positions packed in one
    word, is a bounded queue.  Enqueueing panics exactly when [2 ^ k] batches
    are inside and otherwise appends; dequeueing takes the oldest batch when it
    has been applied, and nothing otherwise, even if younger ones have been. *)
Theorem queue_fifo k q t xs b hp :
  queue_repr k q t xs -> Forall (fun x => applied_in hp x \/ not_applied_in hp x) xs ->
  (if decide (len xs = 2 ^ k) then BatchQueue_enqueue (2 ^ k) q b = Panic "Queue full - reservation failed"
   else exists q', BatchQueue_enqueue (2 ^ k) q b = Done q' /\ queue_repr k q' t (xs ++ [b])) /\
  match xs with
  | [] => BatchQueue_try_dequeue (2 ^ k) hp q = Done (q, None)
  | x :: xs' =>
      (applied_in hp x -> exists q', BatchQueue_try_dequeue (2 ^ k) hp q = Done (q', Some x) /\
         queue_repr k q' (wrap 32 (t + 1)) xs') /\
      (not_applied_in hp x -> BatchQueue_try_dequeue (2 ^ k) hp q = Done (q, None))
  end.
Proof.
  intros H Hxs. split; [by apply enqueue_outcome|]. destruct xs as [|x xs]; [by apply (try_dequeue_empty k hp q t)|].
  split; intros Hx; [by apply (try_dequeue_front k hp q t x xs true)|by apply (try_dequeue_front k hp q t x xs false)].
Qed.

(** A queue of four about to wrap its 32-bit positions, with two batches. *)

Definition demo_queue : BatchQueue := mkBatchQueue (HeadTail_pack 1 (2 ^ 32 - 1)) [Some 8%nat; None; None; Some 7%nat].

Lemma demo_queue_repr : queue_repr 2 demo_queue (2 ^ 32 - 1) [7%nat; 8%nat].
Proof.
  constructor; [lia|unfold in_width; lia|vm_compute; discriminate|vm_compute; reflexivity|vm_compute; reflexivity|].
  change (2 ^ 2) with 4. intros i Hi. do 4 (destruct i as [|i]; [vm_compute; reflexivity|]). lia.
Qed.

Definition demo_heap : heap := {[ 7%nat := mark_applied BatchInner_new; 8%nat := BatchInner_new ]}.

Lemma queue_fifo_witness :
  (exists q', BatchQueue_enqueue (2 ^ 2) demo_queue 9 = Done q' /\
     queue_repr 2 q' (2 ^ 32 - 1) ([7%nat; 8%nat] ++ [9%nat])) /\
  (applied_in demo_heap 7 -> exists q', BatchQueue_try_dequeue (2 ^ 2) demo_heap demo_queue = Done (q', Some 7%nat) /\
     queue_repr 2 q' (wrap 32 (2 ^ 32 - 1 + 1)) [8%nat]) /\
  (not_applied_in demo_heap 7 -> BatchQueue_try_dequeue (2 ^ 2) demo_heap demo_queue = Done (demo_queue, None)).
Proof.
  apply (queue_fifo 2 demo_queue (2 ^ 32 - 1) [7%nat; 8%nat] 9 demo_heap); [exact demo_queue_repr|].
  constructor; [left|constructor; [right|constructor]].
  - by exists (mark_applied BatchInner_new).
  - by exists BatchInner_new, StAcquired.
Defined.

(** What [prepare] does with a batch of [n] operations when the log
    position is [s]: a full queue panics; otherwise the batch is enqueued,
    marked in the queue and stamped with [s - n], and the position advances to
    [s + n], whatever the environment then answers.  The stamp lies below the
    position reserved, so a debug build panics when [n > s], as it does for the
    first batch of a new database, and a release build wraps. *)
Theorem prepare_assigns {E} `{!WriterEnv E} p tgt k (w : WritePipeline E) hp b x t xs :
  queue_repr k (wp_queue w) t xs -> hp !! b = Some x -> has_header x ->
  in_width 64 (log_seq_num (wp_seq w)) -> 0 <= bi_count x ->
  let n := bi_count x in
  let s := log_seq_num (wp_seq w) in
  if decide (len xs = 2 ^ k) then prepare (2 ^ k) p w hp b = Panic "Queue full - reservation failed"
  else if decide (p = Debug /\ s < n) then prepare (2 ^ k) p w hp b = Panic "attempt to subtract with overflow"
  else exists q' x', queue_repr k q' t (xs ++ [b]) /\ BatchObject_is_state x' StInQueue = true /\
    seq_num p tgt x' = Done (wrap 64 (s - n)) /\ bi_count x' = n /\
    prepare (2 ^ k) p w hp b =
      (r ← prepare_commit (wp_env w) x';
       Done (mkPipeline q' (wp_sem w) (wp_sync w) (wp_env w) (mkSeqNumState (visible_seq_num (wp_seq w)) (wrap 64 (s + n))),
             <[b := x']> hp, r)).
Proof.
  intros H Hb Hh Hs Hn n s. pose proof (enqueue_outcome k (wp_queue w) t xs b H) as He.
  destruct (decide (len xs = 2 ^ k)) as [Hf|Hf].
  - unfold prepare. by rewrite Hb, He.
  - destruct He as (q' & Eq & Hq'). rewrite (prepare_enqueued (2 ^ k) p w hp b x q' Eq Hb Hh Hs Hn). fold n s.
    case_decide as Hd; [done|]. exists q', (stamped x (wrap 64 (s - n))). split; [done|].
    split; [by apply bool_decide_true|]. split; [|done]. apply stamped_seq; [done|]. by apply wrap_in_width.
Qed.

Definition demo_pipeline (s : Z) : WritePipeline DbImpl :=
  mkPipeline (mkBatchQueue 0 [None; None]) (mkAdmission 2) SyncSem_default (mkDbImpl tt tt) (mkSeqNumState 0 s).

Lemma demo_pipeline_repr s : queue_repr 1 (wp_queue (demo_pipeline s)) 0 [].
Proof.
  constructor; [lia|unfold in_width; lia|vm_compute; discriminate|vm_compute; reflexivity|vm_compute; reflexivity|].
  change (2 ^ 1) with 2. intros i Hi. do 2 (destruct i as [|i]; [vm_compute; reflexivity|]). lia.
Qed.

Lemma prepare_assigns_witness :
  let x := set_count BatchInner_new 3 in
  let w := demo_pipeline 5 in
  exists q' x', queue_repr 1 q' 0 ([] ++ [4%nat]) /\ BatchObject_is_state x' StInQueue = true /\
    seq_num Debug LittleEndian x' = Done (wrap 64 (5 - 3)) /\ bi_count x' = 3 /\
    prepare (2 ^ 1) Debug w {[ 4%nat := x ]} 4 =
      (r ← prepare_commit (wp_env w) x';
       Done (mkPipeline q' (wp_sem w) (wp_sync w) (wp_env w) (mkSeqNumState (visible_seq_num (wp_seq w)) (wrap 64 (5 + 3))),
             <[4%nat := x']> {[ 4%nat := x ]}, r)).
Proof.
  apply (prepare_assigns Debug LittleEndian 1 (demo_pipeline 5) {[ 4%nat := set_count BatchInner_new 3 ]} 4
           (set_count BatchInner_new 3) 0 []);
    [apply demo_pipeline_repr|reflexivity|vm_compute; discriminate|vm_compute; split; [discriminate|reflexivity]|discriminate].
Defined.

(** Two batches prepared one after the other share a sequence number as
    soon as the second holds more operations than the first.  [r1] and [r2] are
    the ranges from the stamps on, as long as the counts. *)
Theorem prepare_overlap {E} `{!WriterEnv E} p tgt k (w w1 w2 : WritePipeline E) hp hp1 hp2 b1 b2 x1 x2 t xs r1 r2 :
  queue_repr k (wp_queue w) t xs -> len xs + 2 <= 2 ^ k -> b1 <> b2 ->
  hp !! b1 = Some x1 -> hp !! b2 = Some x2 -> has_header x1 -> has_header x2 ->
  0 < bi_count x1 < bi_count x2 -> bi_count x2 <= log_seq_num (wp_seq w) < 2 ^ 63 -> bi_count x2 < 2 ^ 32 ->
  prepare (2 ^ k) p w hp b1 = Done (w1, hp1, r1) -> prepare (2 ^ k) p w1 hp1 b2 = Done (w2, hp2, r2) ->
  exists y1 y2 s1 s2, hp2 !! b1 = Some y1 /\ hp2 !! b2 = Some y2 /\
    seq_num p tgt y1 = Done s1 /\ seq_num p tgt y2 = Done s2 /\ bi_count y1 = bi_count x1 /\ bi_count y2 = bi_count x2 /\
    s1 < s2 + bi_count x2 /\ s2 < s1 + bi_count x1.
Proof.
  intros H Hroom Hne Hb1 Hb2 Hh1 Hh2 Hc Hlog Hc2 H1 H2.
  pose proof (enqueue_outcome k (wp_queue w) t xs b1 H) as He1. rewrite decide_False in He1 by lia.
  destruct He1 as (q1 & Eq1 & Hq1).
  rewrite (prepare_enqueued (2 ^ k) p w hp b1 x1 q1 Eq1 Hb1 Hh1) in H1 by (unfold in_width; lia).
  rewrite decide_False in H1 by lia. cbv zeta in H1. inv_bind H1.
  set (s := log_seq_num (wp_seq w)) in *. set (w1 := mkPipeline q1 _ _ _ _) in *.
  assert (Hs1 : log_seq_num (wp_seq w1) = s + bi_count x1) by (apply wrap_small; unfold in_width; lia).
  pose proof (enqueue_outcome k (wp_queue w1) t _ b2 Hq1) as He2.
  rewrite decide_False in He2 by (autorewrite with lens; lia). destruct He2 as (q2 & Eq2 & Hq2).
  rewrite (prepare_enqueued (2 ^ k) p w1 _ b2 x2 q2 Eq2) in H2;
    [|by rewrite lookup_insert_ne|done|rewrite Hs1; unfold in_width; lia|lia].
  rewrite Hs1, decide_False in H2 by lia. cbv zeta in H2. inv_bind H2.
  eexists _, _, _, _. split; [by rewrite lookup_insert_ne, lookup_insert_eq|]. split; [by rewrite lookup_insert_eq|].
  split; [apply stamped_seq; [done|by apply wrap_in_width]|].
  split; [apply stamped_seq; [done|by apply wrap_in_width]|]. split; [done|]. split; [done|].
  rewrite !wrap_small by (unfold in_width; lia). lia.
Qed.

Lemma prepare_overlap_witness :
  let x1 := set_count BatchInner_new 1 in
  let x2 := set_count BatchInner_new 3 in
  exists w1 hp1 w2 hp2, 
    prepare (2 ^ 1) Debug (demo_pipeline 9) {[ 4%nat := x1; 5%nat := x2 ]} 4 = Done (w1, hp1, Ok tt) /\
    prepare (2 ^ 1) Debug w1 hp1 5 = Done (w2, hp2, Ok tt) /\
    exists y1 y2 s1 s2, hp2 !! 4%nat = Some y1 /\ hp2 !! 5%nat = Some y2 /\
      seq_num Debug BigEndian y1 = Done s1 /\ seq_num Debug BigEndian y2 = Done s2 /\
      bi_count y1 = 1 /\ bi_count y2 = 3 /\ s1 < s2 + 3 /\ s2 < s1 + 1.
Proof.
  eexists _, _, _, _. split; [reflexivity|]. split; [reflexivity|].
  refine (prepare_overlap Debug BigEndian 1 (demo_pipeline 9) _ _ {[ 4%nat := set_count BatchInner_new 1; 5%nat := set_count BatchInner_new 3 ]}
    _ _ 4 5 (set_count BatchInner_new 1) (set_count BatchInner_new 3) 0 [] _ _ (demo_pipeline_repr 9) _ _ _ _ _ _ _ _ _ _ _);
    (reflexivity || discriminate || (vm_compute; repeat split; (discriminate || reflexivity))).
Defined.

(** Committing takes an admission permit that nothing gives back, reports
    the batch as synced at once, and touches neither the queue nor the
    sequence numbers: from [c] permits, [c] commits succeed and the next one
    never returns. *)
Theorem commit_exhausts_permits {E} `{!WriterEnv E} (w : WritePipeline E) hp b x n :
  hp !! b = Some x -> 0 <= adm_count (wp_sem w) ->
  (Z.of_nat n <= adm_count (wp_sem w) ->
   exists hp' x', commits w hp b n =
       Done (mkPipeline (wp_queue w) (mkAdmission (adm_count (wp_sem w) - Z.of_nat n)) (wp_sync w) (wp_env w) (wp_seq w), hp') /\
     hp' !! b = Some x' /\ (n <> 0%nat -> sync_waiter_state x' = Done SySyncDone)) /\
  commits w hp b (S (Z.to_nat (adm_count (wp_sem w)))) = NoFuel.
Proof.
  intros Hb Hc. split; [by apply (commits_done n w hp b x)|]. remember (Z.to_nat (adm_count (wp_sem w))) as m eqn:Hm.
  revert w hp x Hb Hc Hm. induction m as [|m IH]; intros w hp x Hb Hc Hm.
  - cbn [commits]. unfold commit. rewrite Hb, reserve_space_done. by rewrite decide_True by lia.
  - rewrite commits_S. unfold commit. rewrite Hb, reserve_space_done. rewrite decide_False by lia. cbn [mbind outcome_bind].
    unfold SyncLogWaiter_signal. rewrite rust_assert_true by done. cbn [mbind outcome_bind].
    refine (IH _ _ _ (lookup_insert_eq _ _ _) _ _); cbn [wp_sem adm_count]; lia.
Qed.

Lemma commit_exhausts_permits_witness :
  (Z.of_nat 1 <= 2 -> exists hp' x', commits (demo_pipeline 0) demo_heap 7 1 =
       Done (mkPipeline (mkBatchQueue 0 [None; None]) (mkAdmission 1) SyncSem_default (mkDbImpl tt tt) (mkSeqNumState 0 0), hp') /\
     hp' !! 7%nat = Some x' /\ (1%nat <> 0%nat -> sync_waiter_state x' = Done SySyncDone)) /\
  commits (demo_pipeline 0) demo_heap 7 3 = NoFuel.
Proof.
  apply (commit_exhausts_permits (demo_pipeline 0) demo_heap 7 (mark_applied BatchInner_new) 1);
    [reflexivity|discriminate].
Defined.

(** Opening a database never returns, whatever stack it is given. *)

Lemma DB_open_never_returns fuel p : DB_open fuel p = NoFuel.
Proof.
  unfold DB_open, DB_new. assert (DbImpl_seq_state fuel (mkDbImpl tt tt) = NoFuel) as ->; [|done].
  induction fuel as [|fuel IH]; [done|exact IH].
Qed.
