(* ===== verification/PipelineThreads.v ===== *)
(** * PipelineThreads: the commit queue, shared

    The interleavings of the batch queue of [db/write_pipeline.rs]: producers
    that enqueue under the pipeline's mutex, and consumers that dequeue without
    it.  A step is one access to an atomic or the mutex.  The sequential
    operations are in [Pipeline.v]. *)

From S2P Require Import Prelude Codec Records Wal Batch Pipeline.

(** ** The queue *)

(** Where a thread is: enqueueing [b] with the mutex, or in [try_dequeue] with
    the packed word [ht] it loaded. *)

Inductive qpc :=
| PLock (b : nat)
| PLoad (b : nat)
| PSlot (b : nat) (head : Z)
| PStore (b : nat) (head : Z)
| PPublish (b : nat)
| PUnlock
| PDone
| PPanicked
| CLoad
| CLoop (ht : Z)
| CSlot (ht : Z)
| CCheck (ht : Z) (b : nat)
| CCas (ht : Z) (b : nat)
| CClear (b : nat) (tail : Z)
| CDone (r : option (nat * Z)).

(** [qs_stored], [qs_enq] and [qs_deq] record the batches stored in a slot,
    published by advancing the head and claimed by advancing the tail, in
    order; the program does not keep them. *)

Record qstate := mkQS {
  qs_ht : Z;
  qs_slots : list (option nat);
  qs_applied : gset nat;
  qs_mu : option nat;
  qs_poisoned : bool;
  qs_threads : gmap nat qpc;
  qs_stored : list nat;
  qs_enq : list nat;
  qs_deq : list nat
}.

Definition qs_pc (s : qstate) (t : nat) (pc : qpc) : qstate :=
  mkQS (qs_ht s) (qs_slots s) (qs_applied s) (qs_mu s) (qs_poisoned s) (<[t := pc]> (qs_threads s))
    (qs_stored s) (qs_enq s) (qs_deq s).

Definition qs_set_mu (s : qstate) (o : option nat) : qstate :=
  mkQS (qs_ht s) (qs_slots s) (qs_applied s) o (qs_poisoned s) (qs_threads s)
    (qs_stored s) (qs_enq s) (qs_deq s).

Definition qs_poison (s : qstate) : qstate :=
  mkQS (qs_ht s) (qs_slots s) (qs_applied s) None true (qs_threads s) (qs_stored s) (qs_enq s) (qs_deq s).

Definition qs_set_applied (s : qstate) (a : gset nat) : qstate :=
  mkQS (qs_ht s) (qs_slots s) a (qs_mu s) (qs_poisoned s) (qs_threads s) (qs_stored s) (qs_enq s) (qs_deq s).

Definition qs_store (s : qstate) (i : Z) (b : nat) : qstate :=
  mkQS (qs_ht s) (<[Z.to_nat i := Some b]> (qs_slots s)) (qs_applied s) (qs_mu s) (qs_poisoned s) (qs_threads s)
    (qs_stored s ++ [b]) (qs_enq s) (qs_deq s).

Definition qs_clear (s : qstate) (i : Z) : qstate :=
  mkQS (qs_ht s) (<[Z.to_nat i := None]> (qs_slots s)) (qs_applied s) (qs_mu s) (qs_poisoned s) (qs_threads s)
    (qs_stored s) (qs_enq s) (qs_deq s).

Definition qs_publish (s : qstate) (b : nat) : qstate :=
  mkQS (wrap 64 (qs_ht s + Z.shiftl 1 DEQUEUE_BITS)) (qs_slots s) (qs_applied s) (qs_mu s) (qs_poisoned s)
    (qs_threads s) (qs_stored s) (qs_enq s ++ [b]) (qs_deq s).

Definition qs_claim (s : qstate) (ht : Z) (b : nat) : qstate :=
  mkQS ht (qs_slots s) (qs_applied s) (qs_mu s) (qs_poisoned s) (qs_threads s)
    (qs_stored s) (qs_enq s) (qs_deq s ++ [b]).

Definition full (N ht : Z) : bool :=
  let '(head, tail) := HeadTail_unpack ht in bool_decide (wrap 32 (tail + wrap 32 N) = head).

Definition slot_of (N pos : Z) : Z := Z.land pos (wrap 32 N - 1).

(* @src crates/engine/src/db/write_pipeline.rs:144-207 BatchQueue::enqueue *)
Inductive qstep (N : Z) (t : nat) (s : qstate) : qstate -> Prop :=
| q_lock b :
    qs_threads s !! t = Some (PLock b) -> qs_mu s = None -> qs_poisoned s = false ->
    qstep N t s (qs_pc (qs_set_mu s (Some t)) t (PLoad b))
| q_lock_poisoned b :
    qs_threads s !! t = Some (PLock b) -> qs_mu s = None -> qs_poisoned s = true ->
    qstep N t s (qs_pc s t PPanicked)
| q_load b :
    qs_threads s !! t = Some (PLoad b) -> full N (qs_ht s) = false ->
    qstep N t s (qs_pc s t (PSlot b (fst (HeadTail_unpack (qs_ht s)))))
| q_load_full b :
    qs_threads s !! t = Some (PLoad b) -> full N (qs_ht s) = true ->
    qstep N t s (qs_pc (qs_poison s) t PPanicked)
| q_slot b head :
    qs_threads s !! t = Some (PSlot b head) -> qstep N t s (qs_pc s t (PStore b head))
| q_store b head :
    qs_threads s !! t = Some (PStore b head) ->
    qstep N t s (qs_pc (qs_store s (slot_of N head) b) t (PPublish b))
| q_publish b :
    qs_threads s !! t = Some (PPublish b) -> qstep N t s (qs_pc (qs_publish s b) t PUnlock)
| q_unlock :
    qs_threads s !! t = Some PUnlock -> qstep N t s (qs_pc (qs_set_mu s None) t PDone)
| q_start :
    qs_threads s !! t = Some CLoad -> qstep N t s (qs_pc s t (CLoop (qs_ht s)))
| q_empty ht :
    qs_threads s !! t = Some (CLoop ht) -> snd (HeadTail_unpack ht) = fst (HeadTail_unpack ht) ->
    qstep N t s (qs_pc s t (CDone None))
| q_nonempty ht :
    qs_threads s !! t = Some (CLoop ht) -> snd (HeadTail_unpack ht) <> fst (HeadTail_unpack ht) ->
    qstep N t s (qs_pc s t (CSlot ht))
| q_null ht :
    qs_threads s !! t = Some (CSlot ht) ->
    qs_slots s !! Z.to_nat (slot_of N (snd (HeadTail_unpack ht))) = Some None ->
    qstep N t s (qs_pc s t (CDone None))
| q_found ht b :
    qs_threads s !! t = Some (CSlot ht) ->
    qs_slots s !! Z.to_nat (slot_of N (snd (HeadTail_unpack ht))) = Some (Some b) ->
    qstep N t s (qs_pc s t (CCheck ht b))
| q_unapplied ht b :
    qs_threads s !! t = Some (CCheck ht b) -> b ∉ qs_applied s -> qstep N t s (qs_pc s t (CDone None))
| q_applied ht b :
    qs_threads s !! t = Some (CCheck ht b) -> b ∈ qs_applied s -> qstep N t s (qs_pc s t (CCas ht b))
| q_cas_fail ht b :
    qs_threads s !! t = Some (CCas ht b) -> qs_ht s <> ht -> qstep N t s (qs_pc s t (CLoop (qs_ht s)))
| q_cas ht b :
    qs_threads s !! t = Some (CCas ht b) -> qs_ht s = ht ->
    let '(head, tail) := HeadTail_unpack ht in
    qstep N t s (qs_pc (qs_claim s (HeadTail_pack head (wrap 32 (tail + 1))) b) t (CClear b tail))
| q_clear b tail :
    qs_threads s !! t = Some (CClear b tail) ->
    qstep N t s (qs_pc (qs_clear s (slot_of N tail)) t (CDone (Some (b, tail))))
| q_flags a : qstep N t s (qs_set_applied s a).

Inductive qreach (N : Z) (s0 : qstate) : qstate -> Prop :=
| qreach_refl : qreach N s0 s0
| qreach_step s t s' : qreach N s0 s -> qstep N t s s' -> qreach N s0 s'.

(** A new queue, some threads about to enqueue and some about to dequeue. *)

Definition q_initial (N : Z) (s : qstate) : Prop :=
  qs_ht s = 0 /\ qs_slots s = replicate (Z.to_nat N) None /\ qs_mu s = None /\ qs_poisoned s = false /\
  map_Forall (fun _ pc => (exists b, pc = PLock b) \/ pc = CLoad) (qs_threads s) /\
  qs_stored s = [] /\ qs_enq s = [] /\ qs_deq s = [].

(** ** The invariant *)

Definition in_crit (pc : qpc) : bool :=
  match pc with PLoad _ | PSlot _ _ | PStore _ _ | PPublish _ | PUnlock => true | _ => false end.

(** The position a thread has claimed. *)

Definition won (pc : qpc) : option Z :=
  match pc with CClear _ tail => Some tail | CDone (Some (_, tail)) => Some tail | _ => None end.

(** A packed word some thread may have loaded: positions not ahead of the
    current ones. *)

Definition seen (s : qstate) (ht : Z) (h t : nat) : Prop :=
  ht = HeadTail_pack (Z.of_nat h) (Z.of_nat t) /\ (h <= length (qs_enq s))%nat /\ (t <= length (qs_deq s))%nat /\
  (t <= h)%nat.

Definition qpc_ok (N : Z) (s : qstate) (pc : qpc) : Prop :=
  match pc with
  | PLoad _ | PUnlock => qs_stored s = qs_enq s
  | PSlot _ head | PStore _ head =>
      qs_stored s = qs_enq s /\ head = len (qs_enq s) /\ len (qs_enq s) < len (qs_deq s) + N
  | PPublish b => qs_stored s = qs_enq s ++ [b]
  | CLoop ht => exists h t, seen s ht h t
  | CSlot ht => exists h t, seen s ht h t /\ (t < h)%nat
  | CCheck ht b | CCas ht b =>
      exists h t, seen s ht h t /\ (t < h)%nat /\ (t = length (qs_deq s) -> qs_enq s !! t = Some b)
  | CClear b tail | CDone (Some (b, tail)) => exists t : nat, tail = Z.of_nat t /\ qs_deq s !! t = Some b
  | _ => True
  end.

(** Each occupied slot holds the batch stored last at a position that maps to
    it; the stored positions span at most the size of the ring. *)

Record shared_ok (N : Z) (s : qstate) : Prop := mkSharedOk {
  so_len : len (qs_slots s) = N;
  so_ht : qs_ht s = HeadTail_pack (len (qs_enq s)) (len (qs_deq s));
  so_prefix : qs_deq s `prefix_of` qs_enq s;
  so_pub : qs_enq s `prefix_of` qs_stored s;
  so_room : len (qs_stored s) <= len (qs_deq s) + N;
  so_slot : forall (i b : nat), qs_slots s !! i = Some (Some b) ->
    exists pos : nat, Z.of_nat i = Z.of_nat pos mod N /\ qs_stored s !! pos = Some b /\
      len (qs_stored s) <= Z.of_nat pos + N
}.

Record qinv (N : Z) (s : qstate) : Prop := mkQInv {
  qi_shared : shared_ok N s;
  qi_free : qs_mu s = None -> qs_stored s = qs_enq s;
  qi_pcs : map_Forall (fun _ => qpc_ok N s) (qs_threads s);
  qi_mu : forall t pc, qs_threads s !! t = Some pc -> in_crit pc = bool_decide (qs_mu s = Some t);
  qi_won : forall t1 t2 pc1 pc2 p, qs_threads s !! t1 = Some pc1 -> qs_threads s !! t2 = Some pc2 ->
    won pc1 = Some p -> won pc2 = Some p -> t1 = t2
}.

Definition small (s : qstate) : Prop := len (qs_enq s) + 2048 < 2 ^ 32.

Section queue.
Context (k : Z) (Hk : 0 <= k <= 10).
Abbreviation N := (2 ^ k).

Lemma N_bounds : 1 <= N <= 1024.
Proof using Hk. by apply size_small. Qed.

Lemma shared_threads s t pc : shared_ok N s -> shared_ok N (qs_pc s t pc).
Proof. intros []. by constructor. Qed.

Lemma qpc_ok_pc s t pc pc' : qpc_ok N (qs_pc s t pc) pc' <-> qpc_ok N s pc'.
Proof. done. Qed.

Lemma q_move s s1 t pc0 pc :
  qinv N s -> qs_threads s !! t = Some pc0 -> qs_threads s1 = qs_threads s -> shared_ok N s1 ->
  (qs_mu s1 = None -> qs_stored s1 = qs_enq s1) -> qpc_ok N s1 pc ->
  (forall t' pc', t' <> t -> qs_threads s !! t' = Some pc' -> qpc_ok N s pc' -> qpc_ok N s1 pc') ->
  in_crit pc = bool_decide (qs_mu s1 = Some t) ->
  (forall t', t' <> t -> qs_mu s1 = Some t' <-> qs_mu s = Some t') ->
  (forall p t' pc', t' <> t -> won pc = Some p -> qs_threads s !! t' = Some pc' -> won pc' <> Some p) ->
  qinv N (qs_pc s1 t pc).
Proof.
  intros H Ht Hth Hsh Hfree Hpc Hothers Hcrit Hmu Hwon. constructor.
  - by apply shared_threads.
  - done.
  - cbn [qs_threads qs_pc]. rewrite Hth. intros t' pc' [[<- <-]|[Hne Ht']]%lookup_insert_Some; [done|].
    apply (Hothers t'); [done|done|]. by apply (qi_pcs N s H t').
  - cbn [qs_threads qs_pc qs_mu]. rewrite Hth. intros t' pc' [[<- <-]|[Hne Ht']]%lookup_insert_Some; [done|].
    rewrite (qi_mu N s H _ _ Ht'). apply bool_decide_ext. symmetry. by apply Hmu.
  - cbn [qs_threads qs_pc]. rewrite Hth. intros t1 t2 pc1 pc2 p.
    intros [[<- <-]|[Hne1 Ht1]]%lookup_insert_Some [[<- <-]|[Hne2 Ht2]]%lookup_insert_Some; [done|..].
    + intros H1 H2. destruct (Hwon p t2 pc2 ltac:(congruence) H1 Ht2 H2).
    + intros H1 H2. destruct (Hwon p t1 pc1 ltac:(congruence) H2 Ht1 H1).
    + intros H1 H2. by apply (qi_won N s H t1 t2 pc1 pc2 p).
Qed.

(** A thread that changes nothing shared. *)

Lemma q_local s t pc0 pc :
  qinv N s -> qs_threads s !! t = Some pc0 -> qpc_ok N s pc -> in_crit pc = in_crit pc0 ->
  (won pc = None \/ won pc = won pc0) -> qinv N (qs_pc s t pc).
Proof.
  intros H Ht Hpc Hc Hw. apply (q_move s s t pc0 pc); try done; [apply H|apply H| |].
  - rewrite Hc. by apply (qi_mu N s H).
  - intros p t' pc' Hne Hp Ht' Hp'. apply Hne. destruct Hw as [Hw|Hw]; [congruence|].
    apply (qi_won N s H t' t pc' pc0 p); congruence.
Qed.

Lemma q_holder s t pc : qinv N s -> qs_threads s !! t = Some pc -> in_crit pc = true -> qs_mu s = Some t.
Proof. intros H Ht Hc. rewrite (qi_mu N s H _ _ Ht) in Hc. by apply bool_decide_eq_true in Hc. Qed.

Lemma q_other s t t' pc pc' :
  qinv N s -> qs_threads s !! t = Some pc -> in_crit pc = true -> t' <> t ->
  qs_threads s !! t' = Some pc' -> in_crit pc' = false.
Proof.
  intros H Ht Hc Hne Ht'. rewrite (qi_mu N s H _ _ Ht'). apply bool_decide_eq_false.
  rewrite (q_holder s t pc H Ht Hc). congruence.
Qed.

(** Outside the critical section nothing depends on what is stored. *)

Lemma qpc_ok_outside s s1 pc :
  in_crit pc = false -> qs_enq s `prefix_of` qs_enq s1 -> qs_deq s `prefix_of` qs_deq s1 ->
  length (qs_deq s1) = length (qs_deq s) \/ length (qs_deq s1) = S (length (qs_deq s)) ->
  qpc_ok N s pc -> qpc_ok N s1 pc.
Proof.
  intros Hc He Hd Hl. pose proof (prefix_length _ _ He). pose proof (prefix_length _ _ Hd).
  assert (Hseen : forall ht h t, seen s ht h t -> seen s1 ht h t) by (intros ht h t (? & ? & ? & ?); repeat split; (done || lia)).
  destruct pc as [| | | | | | | | |ht|ht|ht b|ht b|b tl|[[b tl]|]]; try done; cbn [qpc_ok].
  - intros (h & t & Hs). exists h, t. by apply Hseen.
  - intros (h & t & Hs & Hlt). exists h, t. split; [by apply Hseen|done].
  - intros (h & t & Hs & Hlt & Hb). exists h, t. split; [by apply Hseen|]. split; [done|].
    intros E. destruct Hs as (_ & _ & Ht & _). apply (prefix_lookup_Some _ _ _ _ (Hb ltac:(lia)) He).
  - intros (h & t & Hs & Hlt & Hb). exists h, t. split; [by apply Hseen|]. split; [done|].
    intros E. destruct Hs as (_ & _ & Ht & _). apply (prefix_lookup_Some _ _ _ _ (Hb ltac:(lia)) He).
  - intros (t & -> & Ht). exists t. split; [done|]. by apply (prefix_lookup_Some _ _ _ _ Ht Hd).
  - intros (t & -> & Ht). exists t. split; [done|]. by apply (prefix_lookup_Some _ _ _ _ Ht Hd).
Qed.

(** ** Positions *)

Lemma small_widths s : shared_ok N s -> small s -> in_width 32 (len (qs_enq s)) /\ in_width 32 (len (qs_deq s)).
Proof.
  intros H Hs. pose proof (prefix_length _ _ (so_prefix _ _ H)). unfold small, in_width, len in *. lia.
Qed.

Lemma ht_unpack s : shared_ok N s -> small s -> HeadTail_unpack (qs_ht s) = (len (qs_enq s), len (qs_deq s)).
Proof. intros H Hs. rewrite (so_ht _ _ H). destruct (small_widths s H Hs). by apply unpack_pack. Qed.

Lemma seen_unpack s ht h t : small s -> seen s ht h t ->
  (length (qs_deq s) <= length (qs_enq s))%nat -> HeadTail_unpack ht = (Z.of_nat h, Z.of_nat t).
Proof.
  intros Hs (-> & Hh & Ht & _) Hl. unfold small, len in Hs. apply unpack_pack; unfold in_width; lia.
Qed.

Lemma full_spec s : shared_ok N s -> small s -> full N (qs_ht s) = bool_decide (len (qs_deq s) + N = len (qs_enq s)).
Proof using Hk.
  intros H Hs. pose proof N_bounds as HN. unfold full. rewrite ht_unpack by done.
  rewrite (wrap_small 32 N) by (unfold in_width; lia).
  pose proof (prefix_length _ _ (so_prefix _ _ H)). unfold small, len in *.
  rewrite wrap_small by (unfold in_width; lia). done.
Qed.

Lemma slot_of_mod pos : slot_of N pos = pos mod N.
Proof using Hk. by apply slot_index. Qed.

Lemma mod_nat (pos : nat) : Z.of_nat (Z.to_nat (Z.of_nat pos mod N)) = Z.of_nat pos mod N.
Proof using Hk. pose proof N_bounds. pose proof (Z.mod_pos_bound (Z.of_nat pos) N ltac:(lia)). lia. Qed.

(** Two stored positions a ring apart at most do not share a slot. *)

Lemma same_slot (a b : nat) : Z.of_nat a mod N = Z.of_nat b mod N -> Z.of_nat a < Z.of_nat b + N -> Z.of_nat b < Z.of_nat a + N -> a = b.
Proof using Hk.
  intros E H1 H2. pose proof N_bounds. pose proof (Z.div_mod (Z.of_nat a) N ltac:(lia)).
  pose proof (Z.div_mod (Z.of_nat b) N ltac:(lia)).
  assert (Z.of_nat a / N = Z.of_nat b / N) by nia. nia.
Qed.

(** What a consumer finds in the slot of the oldest position is the batch
    published there. *)

Lemma slot_at_tail s (b : nat) :
  shared_ok N s -> (length (qs_deq s) < length (qs_enq s))%nat ->
  qs_slots s !! Z.to_nat (len (qs_deq s) mod N) = Some (Some b) -> qs_enq s !! length (qs_deq s) = Some b.
Proof using Hk.
  intros H Hlt Hb. destruct (so_slot _ _ H _ _ Hb) as (pos & Hpos & Hst & Hspan).
  unfold len in Hpos. rewrite mod_nat in Hpos. pose proof (so_room _ _ H) as Hroom.
  pose proof (prefix_length _ _ (so_pub _ _ H)) as Hpl. pose proof (lookup_lt_Some _ _ _ Hst) as Hp.
  assert (pos = length (qs_deq s)) as -> by (symmetry; apply same_slot; unfold len in *; [done|lia|lia]).
  destruct (so_pub _ _ H) as [x Hx]. rewrite Hx in Hst. by rewrite lookup_app_l in Hst.
Qed.
(** ** Shared state, step by step *)

Lemma lookup_insert_slot {A} (l : list A) (i j : nat) x y :
  <[i := x]> l !! j = Some y -> (i = j /\ y = x) \/ (i <> j /\ l !! j = Some y).
Proof.
  destruct (decide (i = j)) as [->|Hne].
  - intros H. left. split; [done|]. pose proof (lookup_lt_Some _ _ _ H) as Hl. rewrite length_insert in Hl.
    rewrite list_lookup_insert_eq in H by done. congruence.
  - rewrite list_lookup_insert_ne by done. by right.
Qed.

Lemma shared_store s b :
  shared_ok N s -> qs_stored s = qs_enq s -> len (qs_enq s) < len (qs_deq s) + N ->
  shared_ok N (qs_store s (slot_of N (len (qs_enq s))) b).
Proof using Hk.
  intros H He Hroom. pose proof N_bounds as HN. constructor; cbn [qs_store qs_slots qs_ht qs_enq qs_deq qs_stored].
  - unfold len. rewrite length_insert. apply H.
  - apply H.
  - apply H.
  - rewrite He. by apply prefix_app_r.
  - rewrite He. autorewrite with lens. lia.
  - intros i b'. rewrite slot_of_mod. intros [[<- E]|[Hne E]]%lookup_insert_slot.
    + injection E as ->. exists (length (qs_enq s)). rewrite He. split; [apply mod_nat|].
      split; [by apply list_lookup_middle|]. autorewrite with lens. unfold len. lia.
    + destruct (so_slot _ _ H _ _ E) as (pos & Hpos & Hst & Hspan). exists pos. split; [done|].
      split; [by apply lookup_app_l_Some|]. autorewrite with lens.
      destruct (decide (len (qs_stored s) = Z.of_nat pos + N)) as [Heq|]; [|lia]. exfalso. apply Hne.
      rewrite <- He, Heq. replace (Z.of_nat pos + N) with (Z.of_nat pos + 1 * N) by lia.
      rewrite Z.mod_add by lia. lia.
Qed.

Lemma shared_clear s i : shared_ok N s -> shared_ok N (qs_clear s i).
Proof.
  intros H. constructor; cbn [qs_clear qs_slots qs_ht qs_enq qs_deq qs_stored]; try apply H.
  - unfold len. rewrite length_insert. apply H.
  - intros j b [[_ E]|[_ E]]%lookup_insert_slot; [done|]. by apply (so_slot _ _ H).
Qed.

Lemma shared_publish s b : shared_ok N s -> small s -> qs_stored s = qs_enq s ++ [b] -> shared_ok N (qs_publish s b).
Proof.
  intros H Hs Hst. constructor; cbn [qs_publish qs_slots qs_ht qs_enq qs_deq qs_stored]; try apply H.
  - destruct (small_widths s H Hs) as [Hw1 Hw2]. rewrite (so_ht _ _ H), pack_head_succ by done. autorewrite with lens.
    rewrite wrap_small; [f_equal; lia|]. unfold small, in_width in *. pose proof (len_nonneg (qs_enq s)). lia.
  - apply prefix_app_r, H.
  - by rewrite Hst.
Qed.

Lemma shared_claim s b :
  shared_ok N s -> small s -> qs_enq s !! length (qs_deq s) = Some b ->
  shared_ok N (qs_claim s (HeadTail_pack (len (qs_enq s)) (wrap 32 (len (qs_deq s) + 1))) b).
Proof.
  intros H Hs Hb. destruct (small_widths s H Hs) as [Hw1 Hw2].
  pose proof (lookup_lt_Some _ _ _ Hb) as Hlt.
  constructor; cbn [qs_claim qs_slots qs_ht qs_enq qs_deq qs_stored]; try apply H.
  - autorewrite with lens. rewrite wrap_small; [f_equal; lia|]. unfold small, in_width, len in *. lia.
  - destruct (so_prefix _ _ H) as [x Hx]. rewrite Hx in Hb |- *. rewrite lookup_app_r, Nat.sub_diag in Hb by lia.
    destruct x as [|y x]; [done|]. injection Hb as ->. by exists x; rewrite <- app_assoc.
  - autorewrite with lens. pose proof (so_room _ _ H). lia.
Qed.

(** ** Preservation *)

Lemma enq_grows t s s' : qstep N t s s' -> (length (qs_enq s) <= length (qs_enq s'))%nat.
Proof.
  intros Hs. destruct Hs; cbn; rewrite ?length_app; try lia. all: try (case_match; cbn; lia).
Qed.

Lemma now_seen s : shared_ok N s -> seen s (qs_ht s) (length (qs_enq s)) (length (qs_deq s)).
Proof.
  intros H. pose proof (prefix_length _ _ (so_prefix _ _ H)). split; [apply H|]. lia.
Qed.

Lemma qstep_store t s b :
  qinv N s -> small s -> qs_threads s !! t = Some (PStore b (len (qs_enq s))) ->
  qinv N (qs_pc (qs_store s (slot_of N (len (qs_enq s))) b) t (PPublish b)).
Proof using Hk.
  intros H Hs Ht. pose proof (qi_pcs N s H _ _ Ht) as (He & _ & Hroom).
  pose proof (q_holder s t _ H Ht eq_refl) as Hmu.
  apply (q_move s _ t (PStore b (len (qs_enq s)))); try done.
  - apply shared_store; [apply H|done|done].
  - cbn. congruence.
  - cbn. by rewrite He.
  - intros t' pc' Hne Ht' Hok. pose proof (q_other s t t' _ _ H Ht eq_refl Hne Ht').
    apply (qpc_ok_outside s); [done|done|done|by left|done].
  - cbn. by rewrite Hmu, bool_decide_true.
Qed.

(** A change of the mutex by its holder or to a free mutex. *)

Lemma q_mutex s t pc0 pc s1 :
  qinv N s -> qs_threads s !! t = Some pc0 -> qs_threads s1 = qs_threads s -> shared_ok N s1 ->
  qs_enq s1 = qs_enq s -> qs_deq s1 = qs_deq s -> qs_stored s1 = qs_stored s ->
  (qs_mu s = None \/ in_crit pc0 = true) -> qs_mu s1 = (if in_crit pc then Some t else None) ->
  qs_stored s = qs_enq s -> qpc_ok N s1 pc -> won pc = None -> qinv N (qs_pc s1 t pc).
Proof.
  intros H Ht Hth Hsh He Hd Hst Hmu Hmu1 Hse Hpc Hw.
  assert (Hothers : forall t', t' <> t -> qs_mu s <> Some t').
  { intros t' Hne Hm. destruct Hmu as [Hmu|Hmu]; [congruence|]. pose proof (q_holder s t pc0 H Ht Hmu). congruence. }
  apply (q_move s s1 t pc0 pc); try done.
  - by rewrite Hst, He.
  - intros t' pc' Hne Ht' Hok. apply (qpc_ok_outside s); rewrite ?He, ?Hd; try done; [|by left].
    rewrite (qi_mu N s H _ _ Ht'). apply bool_decide_eq_false. by apply Hothers.
  - rewrite Hmu1. destruct (in_crit pc); [by rewrite bool_decide_true|done].
  - intros t' Hne. rewrite Hmu1. split; [|intros Hm; by destruct (Hothers t' Hne)]. destruct (in_crit pc); congruence.
  - intros p t' pc' _ Hp. congruence.
Qed.

Lemma qstep_publish t s b :
  qinv N s -> small s -> qs_threads s !! t = Some (PPublish b) -> qinv N (qs_pc (qs_publish s b) t PUnlock).
Proof.
  intros H Hs Ht. pose proof (qi_pcs N s H _ _ Ht) as Hst. cbn in Hst. pose proof (q_holder s t _ H Ht eq_refl) as Hmu.
  apply (q_move s _ t (PPublish b)); try done.
  - apply shared_publish; [apply H|done|done].
  - intros t' pc' Hne Ht' Hok. pose proof (q_other s t t' _ _ H Ht eq_refl Hne Ht').
    apply (qpc_ok_outside s); [done|by apply prefix_app_r|done|by left|done].
  - cbn. by rewrite Hmu, bool_decide_true.
Qed.

Lemma qstep_cas t s ht b :
  qinv N s -> small s -> qs_threads s !! t = Some (CCas ht b) -> qs_ht s = ht ->
  let '(head, tail) := HeadTail_unpack ht in
  qinv N (qs_pc (qs_claim s (HeadTail_pack head (wrap 32 (tail + 1))) b) t (CClear b tail)).
Proof.
  intros H Hs Ht <-. pose proof (qi_shared N s H) as Hsh. rewrite ht_unpack by done.
  pose proof (qi_pcs N s H _ _ Ht) as (h & tl & Hseen & Hlt & Hb).
  pose proof (prefix_length _ _ (so_prefix _ _ Hsh)) as Hl.
  pose proof (seen_unpack s _ h tl Hs Hseen Hl) as Hu. rewrite ht_unpack in Hu by done. injection Hu as Hh Htl.
  unfold len in Htl. assert (tl = length (qs_deq s)) as -> by lia. specialize (Hb eq_refl).
  apply (q_move s _ t (CCas (qs_ht s) b)); try done.
  - by apply shared_claim.
  - apply H.
  - cbn. exists (length (qs_deq s)). split; [done|]. by apply list_lookup_middle.
  - intros t' pc' Hne Ht' Hok. destruct (in_crit pc') eqn:Hc.
    + destruct pc'; try done; cbn in Hok |- *; autorewrite with lens; destruct Hok as (? & ? & ?); split_and!; (done || lia).
    + apply (qpc_ok_outside s); [done|done|by apply prefix_app_r|right; cbn; rewrite length_app; simpl; lia|done].
  - cbn. by rewrite <- (qi_mu N s H _ _ Ht).
  - cbn [won]. intros p t' pc' Hne [= <-] Ht' Hw.
    pose proof (qi_pcs N s H _ _ Ht') as Hok. destruct pc' as [| | | | | | | | | | | | |b' tl'|[[b' tl']|]]; try done;
      cbn in Hw, Hok; injection Hw as ->; destruct Hok as (t0 & Et & Hd); apply lookup_lt_Some in Hd;
      unfold len in Et; lia.
Qed.

Lemma qstep_clear t s b tail :
  qinv N s -> qs_threads s !! t = Some (CClear b tail) ->
  qinv N (qs_pc (qs_clear s (slot_of N tail)) t (CDone (Some (b, tail)))).
Proof.
  intros H Ht. apply (q_move s _ t (CClear b tail)); try done.
  - apply shared_clear, H.
  - apply H.
  - by apply (qi_pcs N s H _ _ Ht).
  - cbn. by rewrite <- (qi_mu N s H _ _ Ht).
  - intros p t' pc' Hne Hp Ht' Hp'. apply Hne. by apply (qi_won N s H t' t pc' (CClear b tail) p).
Qed.

Lemma qstep_found t s ht b :
  qinv N s -> small s -> qs_threads s !! t = Some (CSlot ht) ->
  qs_slots s !! Z.to_nat (slot_of N (snd (HeadTail_unpack ht))) = Some (Some b) ->
  qinv N (qs_pc s t (CCheck ht b)).
Proof using Hk.
  intros H Hs Ht Hb. pose proof (qi_shared N s H) as Hsh. pose proof (qi_pcs N s H _ _ Ht) as (h & tl & Hseen & Hlt).
  pose proof (prefix_length _ _ (so_prefix _ _ Hsh)) as Hl.
  rewrite (seen_unpack s _ h tl) in Hb by done. cbn [snd] in Hb. rewrite slot_of_mod in Hb.
  apply (q_local s t (CSlot ht)); [done|done| |done|by left].
  exists h, tl. split; [done|]. split; [done|]. intros ->. apply slot_at_tail; [done| |done].
  destruct Hseen as (_ & Hh & _). lia.
Qed.

Lemma qstep_inv t s s' : qinv N s -> small s -> qstep N t s s' -> qinv N s'.
Proof using Hk.
  intros H Hs Hstep. pose proof (qi_shared N s H) as Hsh.
  pose proof (prefix_length _ _ (so_prefix _ _ Hsh)) as Hl.
  destruct Hstep as [b Ht Hm _|b Ht Hm _|b Ht Hf|b Ht Hf|b head Ht|b head Ht|b Ht|Ht|Ht|ht Ht E|ht Ht E|ht Ht E
                    |ht b Ht E|ht b Ht E|ht b Ht E|ht b Ht E|ht b Ht E|b tail Ht|a].
  - pose proof (qi_free N s H Hm) as Hse. apply (q_mutex s t (PLock b)); try done; [by destruct Hsh|by left].
  - apply (q_local s t (PLock b)); try done. by left.
  - pose proof (qi_pcs N s H _ _ Ht) as Hse. rewrite ht_unpack by done. cbn [fst].
    rewrite full_spec in Hf by done. apply bool_decide_eq_false in Hf.
    apply (q_local s t (PLoad b)); try done; [|by left]. split; [done|]. split; [done|].
    pose proof (so_room _ _ Hsh) as Hr. rewrite Hse in Hr. lia.
  - pose proof (qi_pcs N s H _ _ Ht) as Hse. apply (q_mutex s t (PLoad b)); try done; [by destruct Hsh|by right].
  - apply (q_local s t (PSlot b head)); try done; [|by left]. apply (qi_pcs N s H _ _ Ht).
  - pose proof (qi_pcs N s H _ _ Ht) as (_ & -> & _). by apply qstep_store.
  - by apply qstep_publish.
  - pose proof (qi_pcs N s H _ _ Ht) as Hse. apply (q_mutex s t PUnlock); try done; [by destruct Hsh|by right].
  - apply (q_local s t CLoad); try done; [|by left]. eexists _, _. by apply now_seen.
  - apply (q_local s t (CLoop ht)); try done. by left.
  - pose proof (qi_pcs N s H _ _ Ht) as (h & tl & Hseen). rewrite (seen_unpack s _ h tl) in E by done. cbn in E.
    apply (q_local s t (CLoop ht)); try done; [|by left]. exists h, tl. split; [done|].
    destruct Hseen as (_ & _ & _ & Hle). assert (tl <> h) by congruence. lia.
  - apply (q_local s t (CSlot ht)); try done. by left.
  - by apply qstep_found.
  - apply (q_local s t (CCheck ht b)); try done. by left.
  - apply (q_local s t (CCheck ht b)); try done; [|by left]. apply (qi_pcs N s H _ _ Ht).
  - apply (q_local s t (CCas ht b)); try done; [|by left]. eexists _, _. by apply now_seen.
  - by apply (qstep_cas t s ht b).
  - by apply qstep_clear.
  - destruct H. constructor; try done. by destruct qi_shared0.
Qed.

Lemma q_initial_inv s : q_initial N s -> qinv N s.
Proof using Hk.
  intros (Hht & Hsl & Hmu & Hp & Hth & Hst & He & Hd). pose proof N_bounds as HN. constructor.
  - constructor; rewrite ?Hht, ?Hst, ?He, ?Hd; try done.
    + rewrite Hsl, len_replicate, Z2Nat.id by lia. done.
    + change (len (@nil nat)) with 0. lia.
    + intros i b. rewrite Hsl. intros Hl. apply lookup_replicate in Hl. by destruct Hl.
  - intros _. congruence.
  - intros t pc Ht. destruct (Hth t pc Ht) as [[b ->]| ->]; done.
  - intros t pc Ht. rewrite Hmu. destruct (Hth t pc Ht) as [[b ->]| ->]; done.
  - intros t1 t2 pc1 pc2 p H1 _ Hw _. by destruct (Hth t1 pc1 H1) as [[b ->]| ->].
Qed.

Lemma qreach_inv s0 s : q_initial N s0 -> qreach N s0 s -> small s -> qinv N s.
Proof using Hk.
  intros H0 Hr. induction Hr as [|s t s' Hr IH Hstep]; intros Hs; [by apply q_initial_inv|].
  pose proof (enq_grows _ _ _ Hstep). assert (Hs' : small s) by (unfold small, len in *; lia).
  eapply qstep_inv; [by apply IH|done|done].
Qed.
End queue.

(** ** Running an interleaving

    The step a thread takes is determined by the state, so a schedule can be
    executed. *)

Definition qnext (N : Z) (s : qstate) (t : nat) : option qstate :=
  pc ← qs_threads s !! t;
  match pc with
  | PLock b =>
      match qs_mu s with
      | None => Some (if qs_poisoned s then qs_pc s t PPanicked else qs_pc (qs_set_mu s (Some t)) t (PLoad b))
      | Some _ => None
      end
  | PLoad b =>
      Some (if full N (qs_ht s) then qs_pc (qs_poison s) t PPanicked
            else qs_pc s t (PSlot b (fst (HeadTail_unpack (qs_ht s)))))
  | PSlot b head => Some (qs_pc s t (PStore b head))
  | PStore b head => Some (qs_pc (qs_store s (slot_of N head) b) t (PPublish b))
  | PPublish b => Some (qs_pc (qs_publish s b) t PUnlock)
  | PUnlock => Some (qs_pc (qs_set_mu s None) t PDone)
  | CLoad => Some (qs_pc s t (CLoop (qs_ht s)))
  | CLoop ht =>
      Some (qs_pc s t (if decide (snd (HeadTail_unpack ht) = fst (HeadTail_unpack ht)) then CDone None else CSlot ht))
  | CSlot ht =>
      slot ← qs_slots s !! Z.to_nat (slot_of N (snd (HeadTail_unpack ht)));
      Some (qs_pc s t match slot with None => CDone None | Some b => CCheck ht b end)
  | CCheck ht b => Some (qs_pc s t (if decide (b ∈ qs_applied s) then CCas ht b else CDone None))
  | CCas ht b =>
      if decide (qs_ht s = ht) then
        let '(head, tail) := HeadTail_unpack ht in
        Some (qs_pc (qs_claim s (HeadTail_pack head (wrap 32 (tail + 1))) b) t (CClear b tail))
      else Some (qs_pc s t (CLoop (qs_ht s)))
  | CClear b tail => Some (qs_pc (qs_clear s (slot_of N tail)) t (CDone (Some (b, tail))))
  | PDone | PPanicked | CDone _ => None
  end.

Fixpoint qrun (N : Z) (s : qstate) (schedule : list nat) : option qstate :=
  match schedule with
  | [] => Some s
  | t :: schedule => s ← qnext N s t; qrun N s schedule
  end.

Lemma qnext_sound N s t s' : qnext N s t = Some s' -> qstep N t s s'.
Proof.
  unfold qnext. destruct (qs_threads s !! t) as [pc|] eqn:Ht; [|done]. cbn [mbind option_bind].
  destruct pc as [b|b|b head|b head|b| | | | |ht|ht|ht b|ht b|b tail|r]; try done.
  - destruct (qs_mu s) eqn:Hm; [done|]. destruct (qs_poisoned s) eqn:Hp; intros [= <-];
      [by apply q_lock_poisoned with b|by apply q_lock].
  - destruct (full N (qs_ht s)) eqn:Hf; intros [= <-]; [by apply q_load_full with b|by apply q_load].
  - intros [= <-]. by apply q_slot.
  - intros [= <-]. by apply q_store.
  - intros [= <-]. by apply q_publish.
  - intros [= <-]. by apply q_unlock.
  - intros [= <-]. by apply q_start.
  - intros [= <-]. case_decide; [by apply q_empty with ht|by apply q_nonempty].
  - destruct (qs_slots s !! _) as [[b|]|] eqn:E; cbn; [..|done]; intros [= <-];
      [by apply q_found|by apply q_null with ht].
  - intros [= <-]. case_decide; [by apply q_applied|by apply q_unapplied with ht b].
  - case_decide as E; [|intros [= <-]; by apply q_cas_fail with ht b].
    pose proof (q_cas N t s ht b Ht E) as Hc. destruct (HeadTail_unpack ht). by intros [= <-].
  - intros [= <-]. by apply q_clear.
Qed.

Lemma qrun_reach N s0 s schedule s' : qreach N s0 s -> qrun N s schedule = Some s' -> qreach N s0 s'.
Proof.
  revert s. induction schedule as [|t schedule IH]; intros s Hr; cbn; [by intros [= <-]|].
  destruct (qnext N s t) as [s1|] eqn:E; [|done]. cbn. apply IH.
  eapply qreach_step; [done|by apply qnext_sound].
Qed.

(** ** Properties of the queue *)

(** C20: under every interleaving of enqueueing and dequeueing threads, for as
    long as fewer than [2 ^ 32 - 2048] batches have gone through: batches leave
    in the order in which they were published; the packed word counts both, at
    most the size of the ring apart; and each dequeue that returns a batch got
    the one published at a position that no other dequeue got. *)
Theorem queue_threads_fifo k s0 s :
  0 <= k <= 10 -> q_initial (2 ^ k) s0 -> qreach (2 ^ k) s0 s -> small s ->
  qs_deq s `prefix_of` qs_enq s /\
  HeadTail_unpack (qs_ht s) = (len (qs_enq s), len (qs_deq s)) /\ len (qs_enq s) <= len (qs_deq s) + 2 ^ k /\
  (forall t b pos, qs_threads s !! t = Some (CDone (Some (b, pos))) -> qs_enq s !! Z.to_nat pos = Some b) /\
  (forall t1 t2 b1 b2 pos, qs_threads s !! t1 = Some (CDone (Some (b1, pos))) ->
     qs_threads s !! t2 = Some (CDone (Some (b2, pos))) -> t1 = t2).
Proof.
  intros Hk H0 Hr Hs. pose proof (qreach_inv k Hk s0 s H0 Hr Hs) as H. pose proof (qi_shared _ _ H) as Hsh.
  pose proof (so_prefix _ _ Hsh) as Hpre. split; [done|]. split; [by apply (ht_unpack k)|].
  split; [|split].
  - pose proof (so_room _ _ Hsh). pose proof (prefix_length _ _ (so_pub _ _ Hsh)). unfold len in *. lia.
  - intros t b pos Ht. destruct (qi_pcs _ _ H _ _ Ht) as (n & -> & Hn). rewrite Nat2Z.id.
    by apply (prefix_lookup_Some _ _ _ _ Hn).
  - intros t1 t2 b1 b2 pos H1 H2. by apply (qi_won _ _ H t1 t2 _ _ pos H1 H2).
Qed.

(** Three producers and two consumers over a queue of two. *)

Definition demo_q : qstate :=
  mkQS 0 [None; None] {[ 20; 21; 22 ]}%nat None false
    (list_to_map [(0, PLock 20); (1, PLock 21); (2, PLock 22); (3, CLoad); (4, CLoad)]%nat) [] [] [].

Lemma demo_q_initial : q_initial (2 ^ 1) demo_q.
Proof.
  split_and!; try reflexivity. intros t pc Ht. unfold demo_q in Ht. cbn [qs_threads] in Ht.
  apply elem_of_list_to_map_2 in Ht.
  repeat (apply elem_of_cons in Ht as [[= -> ->]|Ht]; [first [by (left; eexists)|by right]|]). by apply elem_of_nil in Ht.
Qed.

(** Both batches are enqueued; a consumer claims the first but has not cleared
    its slot when another dequeues the second, whose permit then goes to the
    third: it is enqueued into the slot that is cleared last. *)

Definition demo_schedule : list nat :=
  (repeat 0 6 ++ repeat 1 6 ++ repeat 3 5 ++ repeat 4 6 ++ repeat 2 6 ++ [3])%nat.

Definition demo_q_end : qstate := default demo_q (qrun (2 ^ 1) demo_q demo_schedule).

Lemma demo_q_reach : qreach (2 ^ 1) demo_q demo_q_end.
Proof.
  apply (qrun_reach _ demo_q demo_q demo_schedule); [apply qreach_refl|]. unfold demo_q_end.
  assert (Hsome : is_Some (qrun (2 ^ 1) demo_q demo_schedule)) by (vm_compute; by eexists).
  by destruct Hsome as [s ->].
Qed.

Lemma queue_threads_fifo_witness :
  qs_deq demo_q_end `prefix_of` qs_enq demo_q_end /\
  HeadTail_unpack (qs_ht demo_q_end) = (len (qs_enq demo_q_end), len (qs_deq demo_q_end)) /\
  len (qs_enq demo_q_end) <= len (qs_deq demo_q_end) + 2 ^ 1 /\
  (forall t b pos, qs_threads demo_q_end !! t = Some (CDone (Some (b, pos))) -> qs_enq demo_q_end !! Z.to_nat pos = Some b) /\
  (forall t1 t2 b1 b2 pos, qs_threads demo_q_end !! t1 = Some (CDone (Some (b1, pos))) ->
     qs_threads demo_q_end !! t2 = Some (CDone (Some (b2, pos))) -> t1 = t2).
Proof.
  apply (queue_threads_fifo 1 demo_q demo_q_end); [lia|exact demo_q_initial|exact demo_q_reach|vm_compute; reflexivity].
Defined.

Definition returned (pc : qpc) : bool := match pc with PDone | CDone _ => true | _ => false end.

(** The batches that are enqueued, or being enqueued, and not yet returned by a
    dequeue: the permits in use, if the writer of a batch takes one before it
    enqueues and one is given back by each dequeue that returns a batch, after
    it has cleared the slot. *)

Definition enqueueing (pc : qpc) : bool :=
  match pc with PLoad _ | PSlot _ _ | PStore _ _ | PPublish _ | PUnlock | PDone => true | _ => false end.

Definition dequeued (pc : qpc) : bool := match pc with CDone (Some _) => true | _ => false end.

Definition permits_used (s : qstate) : Z :=
  let pcs := map snd (map_to_list (qs_threads s)) in
  len (List.filter enqueueing pcs) - len (List.filter dequeued pcs).

(** The runs with [N] permits. *)

Inductive permit_reach (N : Z) (s0 : qstate) : qstate -> Prop :=
| permit_refl : permit_reach N s0 s0
| permit_step s t s' : permit_reach N s0 s -> qstep N t s s' -> permits_used s' <= N -> permit_reach N s0 s'.

Fixpoint permit_run (N : Z) (s : qstate) (schedule : list nat) : option qstate :=
  match schedule with
  | [] => Some s
  | t :: schedule => s ← qnext N s t; if decide (permits_used s <= N) then permit_run N s schedule else None
  end.

Lemma permit_run_reach N s0 s schedule s' :
  permit_reach N s0 s -> permit_run N s schedule = Some s' -> permit_reach N s0 s'.
Proof.
  revert s. induction schedule as [|t schedule IH]; intros s Hr; cbn; [by intros [= <-]|].
  destruct (qnext N s t) as [s1|] eqn:E; [|done]. cbn. case_decide as Hp; [|done]. apply IH.
  eapply permit_step; [done|by apply qnext_sound|done].
Qed.

(** C37: the queue can lose a batch.  The producer only spins once on a slot
    that is not null, so it may store into a slot whose previous batch has been
    claimed but not yet cleared, and the late clearing then erases the new
    batch: there is an interleaving, never with more batches under way than
    there are permits, in which every call has returned, the oldest batch was
    published and has been applied, and no dequeue will ever return it. *)
Theorem queue_threads_lose_batch :
  exists s0 s b, q_initial (2 ^ 1) s0 /\ permit_reach (2 ^ 1) s0 s /\
    map_Forall (fun _ pc => returned pc = true) (qs_threads s) /\
    qs_enq s = qs_deq s ++ [b] /\ b ∈ qs_applied s /\
    forall hp, BatchQueue_try_dequeue (2 ^ 1) hp (mkBatchQueue (qs_ht s) (qs_slots s))
      = Done (mkBatchQueue (qs_ht s) (qs_slots s), None).
Proof.
  exists demo_q, demo_q_end, 22%nat. split; [exact demo_q_initial|].
  split; [apply (permit_run_reach _ _ demo_q demo_schedule); [apply permit_refl|by vm_compute]|].
  split; [|split; [vm_compute; reflexivity|split; [|intros hp; vm_compute; reflexivity]]].
  - apply (bool_decide_unpack _). vm_compute. exact I.
  - replace (qs_applied demo_q_end) with (qs_applied demo_q) by (vm_compute; reflexivity). cbn [qs_applied demo_q]. set_solver.
Qed.

(** A consumer may use a batch that is no longer in the queue.  Between its
    load of the slot and its look at the state of the batch another consumer
    can have dequeued it and returned it to the writer, who may drop it. *)
Theorem queue_threads_stale_batch :
  exists s0 s t u ht b pos, q_initial (2 ^ 1) s0 /\ permit_reach (2 ^ 1) s0 s /\
    qs_threads s !! t = Some (CCheck ht b) /\ qs_threads s !! u = Some (CDone (Some (b, pos))).
Proof.
  exists demo_q, (default demo_q (permit_run (2 ^ 1) demo_q (repeat 0 6 ++ repeat 3 3 ++ repeat 4 6)%nat)), 3%nat, 4%nat, (2 ^ 32), 20%nat, 0.
  split; [exact demo_q_initial|]. split; [|split; vm_compute; reflexivity].
  apply (permit_run_reach _ _ demo_q (repeat 0 6 ++ repeat 3 3 ++ repeat 4 6)%nat); [apply permit_refl|by vm_compute].
Qed.
