(* ===== verification/QueueSlots.v ===== *)
(** * QueueSlots: what keeps a batch in the commit queue

    A producer of [BatchQueue::enqueue] ([db/write_pipeline.rs]) does not wait
    for its slot to become empty ([queue_threads_lose_batch]).  Here: in a run
    in which every producer happens to find it empty no batch is lost, and the
    shared queue is the sequential one of [Pipeline] whenever nobody is between
    claiming a slot and clearing it.  The state and the steps are those of
    [PipelineThreads]; the invariant says which slot each position has. *)

From S2P Require Import Prelude Codec Records Wal Batch Pipeline PipelineThreads.

Definition finds_empty (N : Z) (s : qstate) (t : nat) : Prop :=
  forall b head, qs_threads s !! t = Some (PStore b head) -> qs_slots s !! Z.to_nat (slot_of N head) = Some None.

#[export] Instance finds_empty_dec N s t : Decision (finds_empty N s t).
Proof.
  destruct (qs_threads s !! t) as [pc|] eqn:E; [|left; congruence].
  destruct pc as [b|b|b head|b head|b| | | | |ht|ht|ht b|ht b|b tl|r];
    try (left; unfold finds_empty; rewrite E; congruence).
  destruct (decide (qs_slots s !! Z.to_nat (slot_of N head) = Some None)) as [H|H].
  - left. intros b' head'. rewrite E. by intros [= <- <-].
  - right. intros H'. apply H. by eapply H'.
Defined.

(** The runs in which each store finds its slot empty. *)

Inductive clean_reach (N : Z) (s0 : qstate) : qstate -> Prop :=
| clean_refl : clean_reach N s0 s0
| clean_step s t s' : clean_reach N s0 s -> finds_empty N s t -> qstep N t s s' -> clean_reach N s0 s'.

Lemma clean_is_reach N s0 s : clean_reach N s0 s -> qreach N s0 s.
Proof. induction 1; [apply qreach_refl|by eapply qreach_step]. Qed.

(** ** The invariant *)

Definition clearing (pc : qpc) : option (nat * Z) := match pc with CClear b tail => Some (b, tail) | _ => None end.

Definition clears (s : qstate) (b : nat) (tail : Z) : Prop := exists t, qs_threads s !! t = Some (CClear b tail).

Definition slot_at (N : Z) (pos : nat) : nat := Z.to_nat (Z.of_nat pos mod N).

(** A stored position that is not claimed has its batch in its slot; a claimed
    one that is not cleared too, and nobody stored there since; no other slot
    is occupied. *)

Record slots_ok (N : Z) (s : qstate) : Prop := mkSlotsOk {
  sk_held : forall pos : nat, (length (qs_deq s) <= pos < length (qs_stored s))%nat ->
    qs_slots s !! slot_at N pos = Some (qs_stored s !! pos);
  sk_late : forall b (pos : nat), clears s b (Z.of_nat pos) ->
    qs_slots s !! slot_at N pos = Some (Some b) /\ len (qs_stored s) <= Z.of_nat pos + N;
  sk_only : forall i b, qs_slots s !! i = Some (Some b) -> exists pos : nat,
    i = slot_at N pos /\ (pos < length (qs_stored s))%nat /\
    ((length (qs_deq s) <= pos)%nat \/ clears s b (Z.of_nat pos))
}.

Section slots.
Context (k : Z) (Hk : 0 <= k <= 10).
Abbreviation N := (2 ^ k).

Lemma slot_at_mod pos : Z.of_nat (slot_at N pos) = Z.of_nat pos mod N.
Proof using Hk. by apply mod_nat. Qed.

Lemma slot_at_inj (a b : nat) :
  slot_at N a = slot_at N b -> Z.of_nat a < Z.of_nat b + N -> Z.of_nat b < Z.of_nat a + N -> a = b.
Proof using Hk. intros E. apply (same_slot k Hk). rewrite <- !slot_at_mod. by rewrite E. Qed.

Lemma slot_at_ring (a b : nat) : Z.of_nat a = Z.of_nat b + N -> slot_at N a = slot_at N b.
Proof using Hk.
  intros E. unfold slot_at. rewrite E. replace (Z.of_nat b + N) with (Z.of_nat b + 1 * N) by lia.
  rewrite Z.mod_add; [done|]. pose proof (N_bounds k Hk). lia.
Qed.

(** Steps that leave slots, stored and claimed positions alone, and neither
    begin nor end a clearing. *)

Lemma clears_pc s s1 t pc0 pc b tail :
  qs_threads s !! t = Some pc0 -> qs_threads s1 = qs_threads s -> clearing pc0 = None -> clearing pc = None ->
  clears (qs_pc s1 t pc) b tail <-> clears s b tail.
Proof.
  intros Ht Hth H0 H1. unfold clears. cbn [qs_threads qs_pc]. rewrite Hth. split; intros [u Hu]; exists u.
  - apply lookup_insert_Some in Hu as [[-> ->]|[_ Hu]]; [done|exact Hu].
  - rewrite lookup_insert_ne; [done|]. intros ->. rewrite Ht in Hu. by injection Hu as ->.
Qed.

Lemma slots_same s s1 t pc0 pc :
  slots_ok N s -> qs_threads s !! t = Some pc0 -> qs_threads s1 = qs_threads s -> qs_slots s1 = qs_slots s ->
  qs_stored s1 = qs_stored s -> qs_deq s1 = qs_deq s -> clearing pc0 = None -> clearing pc = None ->
  slots_ok N (qs_pc s1 t pc).
Proof.
  intros [H1 H2 H3] Ht Hth Hsl Hst Hd Hc0 Hc. pose proof (fun b tail => clears_pc s s1 t pc0 pc b tail Ht Hth Hc0 Hc) as Hcl.
  constructor; cbn [qs_slots qs_stored qs_deq qs_pc]; rewrite ?Hsl, ?Hst, ?Hd.
  - done.
  - intros b pos Hb%Hcl. by apply H2.
  - intros i b Hi. destruct (H3 i b Hi) as (pos & ? & ? & [?|?%Hcl]); exists pos; auto.
Qed.

Lemma slots_store s t b :
  qinv N s -> slots_ok N s -> qs_threads s !! t = Some (PStore b (len (qs_enq s))) -> finds_empty N s t ->
  slots_ok N (qs_pc (qs_store s (slot_of N (len (qs_enq s))) b) t (PPublish b)).
Proof using Hk.
  intros H [H1 H2 H3] Ht He. pose proof (qi_pcs N s H _ _ Ht) as (Hse & _ & Hroom). pose proof (N_bounds k Hk) as HN.
  specialize (He _ _ Ht). pose proof (prefix_length _ _ (so_prefix _ _ (qi_shared N s H))) as Hdl. rewrite <- Hse in Hroom, Hdl.
  assert (Hslot : Z.to_nat (slot_of N (len (qs_enq s))) = slot_at N (length (qs_stored s))).
  { rewrite slot_of_mod by done. by rewrite Hse. }
  set (p := length (qs_stored s)) in *. set (s' := qs_pc _ t _).
  assert (Hcl : forall b' tail, clears s' b' tail <-> clears s b' tail) by (intros b' tail; by eapply (clears_pc s _ t)).
  assert (Hlt : (slot_at N p < length (qs_slots s))%nat) by (rewrite Hslot in He; by eapply lookup_lt_Some).
  rewrite Hslot in He. constructor; subst s'; cbn [qs_slots qs_stored qs_deq qs_pc qs_store]; rewrite Hslot.
  - intros pos Hpos. rewrite length_app in Hpos. cbn in Hpos. destruct (decide (pos = p)) as [->|Hne].
    + rewrite list_lookup_insert_eq by done. f_equal. symmetry. by apply list_lookup_middle.
    + rewrite lookup_app_l by lia. rewrite list_lookup_insert_ne; [apply H1; lia|]. intros E.
      apply slot_at_inj in E; unfold len in *; lia.
  - intros b' pos Hb%Hcl. destruct (H2 _ _ Hb) as [Hs Hl].
    assert (Hn : slot_at N pos <> slot_at N p) by (intros E; congruence).
    rewrite list_lookup_insert_ne by done. split; [done|]. autorewrite with lens.
    destruct (decide (len (qs_stored s) = Z.of_nat pos + N)) as [E|]; [|lia]. exfalso. apply Hn. symmetry. by apply slot_at_ring.
  - intros i b' [[<- E]|[Hne E]]%lookup_insert_slot.
    + injection E as ->. exists p. rewrite length_app. cbn. split; [done|]. split; [lia|]. by left.
    + destruct (H3 _ _ E) as (pos & -> & Hp & Hor). exists pos. rewrite length_app. split; [done|]. split; [lia|].
      destruct Hor as [?|?%Hcl]; auto.
Qed.

Lemma slots_claim s t b :
  qinv N s -> small s -> slots_ok N s -> qs_threads s !! t = Some (CCas (qs_ht s) b) ->
  let '(head, tail) := HeadTail_unpack (qs_ht s) in
  slots_ok N (qs_pc (qs_claim s (HeadTail_pack head (wrap 32 (tail + 1))) b) t (CClear b tail)).
Proof using Hk.
  intros H Hs [H1 H2 H3] Ht. pose proof (qi_shared N s H) as Hsh. pose proof (ht_unpack k Hk s Hsh Hs) as Hu. rewrite Hu.
  pose proof (qi_pcs N s H _ _ Ht) as (h & tl & Hseen & Hlt & Hb).
  pose proof (prefix_length _ _ (so_prefix _ _ Hsh)) as Hl. pose proof (prefix_length _ _ (so_pub _ _ Hsh)) as Hp.
  pose proof (seen_unpack s _ h tl Hs Hseen Hl) as Hu'. rewrite Hu in Hu'. injection Hu' as Hh Htl.
  unfold len in Hh, Htl. assert (tl = length (qs_deq s)) as -> by lia. specialize (Hb eq_refl).
  pose proof (prefix_lookup_Some _ _ _ _ Hb (so_pub _ _ Hsh)) as Hst.
  set (s' := qs_pc _ t _).
  assert (Hcl : forall b' tail, clears s' b' tail <-> (b' = b /\ tail = len (qs_deq s)) \/ clears s b' tail).
  { intros b' tail. unfold clears. subst s'. cbn [qs_threads qs_pc qs_claim]. split.
    - intros [u [[-> E]|[_ Hu0]]%lookup_insert_Some]; [left; by injection E|right; by exists u].
    - intros [[-> ->]|[u Hu0]]; [exists t; by rewrite lookup_insert_eq|]. exists u. rewrite lookup_insert_ne; [done|]. intros ->. congruence. }
  constructor; subst s'; cbn [qs_slots qs_stored qs_deq qs_pc qs_claim].
  - intros pos. rewrite length_app. cbn. intros Hpos. apply H1. lia.
  - intros b' pos [[-> E]|Hb']%Hcl; [|by apply H2]. unfold len in E. assert (pos = length (qs_deq s)) as -> by lia.
    split; [rewrite H1 by lia; by rewrite Hst|]. pose proof (so_room _ _ Hsh). unfold len in *. lia.
  - intros i b' Hi. destruct (H3 _ _ Hi) as (pos & -> & Hpos & Hor). exists pos. split; [done|]. split; [done|].
    rewrite length_app. cbn. destruct Hor as [Hge|Hc]; [|right; apply Hcl; by right].
    destruct (decide (pos = length (qs_deq s))) as [->|]; [|left; lia]. right. apply Hcl. left. split; [|done].
    rewrite H1 in Hi by lia. congruence.
Qed.

Lemma slots_clear s t b tail :
  qinv N s -> slots_ok N s -> qs_threads s !! t = Some (CClear b tail) ->
  slots_ok N (qs_pc (qs_clear s (slot_of N tail)) t (CDone (Some (b, tail)))).
Proof using Hk.
  intros H [H1 H2 H3] Ht. pose proof (qi_shared N s H) as Hsh. pose proof (N_bounds k Hk) as HN.
  pose proof (qi_pcs N s H _ _ Ht) as (n & -> & Hn). pose proof (lookup_lt_Some _ _ _ Hn) as Hlt.
  assert (Hslot : Z.to_nat (slot_of N (Z.of_nat n)) = slot_at N n) by by rewrite slot_of_mod.
  destruct (H2 b n) as [Hsb Hln]; [by exists t|].
  pose proof (prefix_length _ _ (so_prefix _ _ Hsh)) as Hl. pose proof (prefix_length _ _ (so_pub _ _ Hsh)) as Hp.
  set (s' := qs_pc _ t _).
  assert (Hcl : forall b' (pos : nat), clears s' b' (Z.of_nat pos) <-> pos <> n /\ clears s b' (Z.of_nat pos)).
  { intros b' pos. unfold clears. subst s'. cbn [qs_threads qs_pc qs_clear]. split.
    - intros [u [[_ ?]|[Hne Hu]]%lookup_insert_Some]; [done|]. split; [|by exists u]. intros ->.
      apply Hne. by apply (qi_won N s H t u _ _ (Z.of_nat n) Ht Hu).
    - intros [Hne [u Hu]]. exists u. rewrite lookup_insert_ne; [done|]. intros ->. rewrite Ht in Hu. injection Hu as _ E. lia. }
  constructor; subst s'; cbn [qs_slots qs_stored qs_deq qs_pc qs_clear]; rewrite Hslot.
  - intros pos Hpos. rewrite list_lookup_insert_ne; [by apply H1|]. intros E%slot_at_inj; unfold len in *; lia.
  - intros b' pos [Hne Hc]%Hcl. destruct (H2 _ _ Hc) as [Hs' Hl']. split; [|done].
    rewrite list_lookup_insert_ne; [done|]. destruct Hc as [u Hu]. pose proof (qi_pcs N s H _ _ Hu) as (m & Em & Hm).
    apply lookup_lt_Some in Hm. intros E%slot_at_inj; unfold len in *; lia.
  - intros i b' [[_ ?]|[Hne E]]%lookup_insert_slot; [done|]. destruct (H3 _ _ E) as (pos & -> & Hpos & Hor).
    exists pos. split; [done|]. split; [done|]. destruct Hor as [?|Hc]; [by left|right]. apply Hcl. split; [|done]. by intros ->.
Qed.

Lemma slots_step t s s' : qinv N s -> small s -> slots_ok N s -> finds_empty N s t -> qstep N t s s' -> slots_ok N s'.
Proof using Hk.
  intros H Hs Hsl He Hstep.
  destruct Hstep as [b Ht Hm _|b Ht Hm _|b Ht Hf|b Ht Hf|b head Ht|b head Ht|b Ht|Ht|Ht|ht Ht E|ht Ht E|ht Ht E
                    |ht b Ht E|ht b Ht E|ht b Ht E|ht b Ht E|ht b Ht E|b tail Ht|a];
    try by (eapply (slots_same s _ t); [done|exact Ht|done..]).
  - pose proof (qi_pcs N s H _ _ Ht) as (_ & -> & _). by apply slots_store.
  - subst ht. by apply slots_claim.
  - by apply slots_clear.
  - by destruct Hsl.
Qed.

Lemma slots_initial s : q_initial N s -> slots_ok N s.
Proof using Hk.
  intros (_ & Hsl & _ & _ & Hth & Hst & _ & Hd). constructor.
  - rewrite Hst. cbn. lia.
  - intros b pos [t Ht]. destruct (Hth _ _ Ht) as [[? ?]|?]; done.
  - intros i b. rewrite Hsl. intros Hl. apply lookup_replicate in Hl. by destruct Hl.
Qed.

Lemma clean_inv s0 s : q_initial N s0 -> clean_reach N s0 s -> small s -> qinv N s /\ slots_ok N s.
Proof using Hk.
  intros H0 Hr. induction Hr as [|s t s' Hr IH He Hstep]; intros Hs; [split; [by apply q_initial_inv|by apply slots_initial]|].
  pose proof (enq_grows _ _ _ _ Hstep). assert (Hs' : small s) by (unfold small, len in *; lia).
  destruct (IH Hs') as [IH1 IH2]. split; [by eapply qstep_inv|by eapply slots_step].
Qed.

(** With nobody inside an operation the queue is the sequential one. *)

Lemma quiet_repr s rest :
  qinv N s -> small s -> slots_ok N s -> (forall b tail, ~ clears s b tail) -> qs_stored s = qs_enq s ->
  qs_enq s = qs_deq s ++ rest -> queue_repr k (mkBatchQueue (qs_ht s) (qs_slots s)) (len (qs_deq s)) rest.
Proof using Hk.
  intros H Hs [H1 H2 H3] Hq Hst Er. pose proof (qi_shared N s H) as Hsh. pose proof (N_bounds k Hk) as HN.
  destruct (small_widths k Hk s Hsh Hs) as [Hw1 Hw2]. pose proof (so_room _ _ Hsh) as Hroom. rewrite Hst in *.
  assert (Hlen : len (qs_enq s) = len (qs_deq s) + len rest) by (rewrite Er; by autorewrite with lens).
  constructor; cbn [q_slots q_head_tail].
  - done.
  - done.
  - lia.
  - rewrite <- Hlen, wrap_small by done. apply Hsh.
  - apply Hsh.
  - intros i Hi. set (pos := (length (qs_deq s) + i)%nat).
    replace ((len (qs_deq s) + Z.of_nat i) mod N) with (Z.of_nat pos mod N) by (f_equal; unfold len, pos; lia).
    change (Z.to_nat (Z.of_nat pos mod N)) with (slot_at N pos).
    assert (Hat : qs_enq s !! pos = rest !! i) by (rewrite Er, lookup_app_r by (unfold pos; lia); f_equal; unfold pos; lia).
    destruct (decide (pos < length (qs_enq s))%nat) as [Hlt|Hge].
    + rewrite H1 by (unfold pos in *; lia). by rewrite Hat.
    + rewrite <- Hat, (lookup_ge_None_2 (qs_enq s)) by lia.
      assert (Hlt : (slot_at N pos < length (qs_slots s))%nat).
      { pose proof (so_len _ _ Hsh) as Hsl. pose proof (slot_at_mod pos). pose proof (Z.mod_pos_bound (Z.of_nat pos) N ltac:(lia)).
        unfold len in *. lia. }
      apply lookup_lt_is_Some in Hlt as [[b|] Hb]; [|done]. exfalso.
      destruct (H3 _ _ Hb) as (p' & E & Hp' & [Hge'|Hc]); [|by destruct (Hq b (Z.of_nat p'))].
      apply slot_at_inj in E; unfold len, pos in *; lia.
Qed.
End slots.

(** ** Properties *)

(** C21: in a run in which each producer finds its slot empty, for as long as
    fewer than [2 ^ 32 - 2048] batches have gone through: every batch published
    and not yet claimed is in the slot of its position, and at any moment when
    the mutex is free and nobody has claimed a slot without clearing it yet,
    the shared queue is the sequential one with exactly those batches, so that
    a dequeue then returns the oldest as soon as it is applied. *)
Theorem queue_threads_refine k s0 s :
  0 <= k <= 10 -> q_initial (2 ^ k) s0 -> clean_reach (2 ^ k) s0 s -> small s ->
  (forall pos : nat, (length (qs_deq s) <= pos < length (qs_enq s))%nat ->
     qs_slots s !! slot_at (2 ^ k) pos = Some (qs_enq s !! pos)) /\
  (qs_mu s = None -> (forall b tail, ~ clears s b tail) -> exists rest, qs_enq s = qs_deq s ++ rest /\
     queue_repr k (mkBatchQueue (qs_ht s) (qs_slots s)) (len (qs_deq s)) rest /\
     forall hp b, head rest = Some b -> applied_in hp b ->
       exists q', BatchQueue_try_dequeue (2 ^ k) hp (mkBatchQueue (qs_ht s) (qs_slots s)) = Done (q', Some b)).
Proof.
  intros Hk H0 Hr Hs. destruct (clean_inv k Hk s0 s H0 Hr Hs) as [H Hsl]. pose proof (qi_shared _ _ H) as Hsh. split.
  - intros pos Hpos. destruct (so_pub _ _ Hsh) as [x Hx]. rewrite (sk_held _ _ Hsl) by (rewrite Hx, length_app; lia).
    rewrite Hx. f_equal. apply lookup_app_l. lia.
  - intros Hmu Hc. destruct (so_prefix _ _ Hsh) as [rest Er]. exists rest. split; [done|].
    pose proof (quiet_repr k Hk s rest H Hs Hsl Hc (qi_free _ _ H Hmu) Er) as Hq. split; [done|].
    intros hp b Hb Ha. destruct rest as [|x rest]; [done|]. injection Hb as ->.
    destruct (try_dequeue_front k hp _ _ b rest true Hq Ha) as (q' & E & _). by exists q'.
Qed.

Fixpoint clean_run (N : Z) (s : qstate) (schedule : list nat) : option qstate :=
  match schedule with
  | [] => Some s
  | t :: schedule => if decide (finds_empty N s t) then s ← qnext N s t; clean_run N s schedule else None
  end.

Lemma clean_run_reach N s0 s schedule s' :
  clean_reach N s0 s -> clean_run N s schedule = Some s' -> clean_reach N s0 s'.
Proof.
  revert s. induction schedule as [|t schedule IH]; intros s Hr; cbn; [by intros [= <-]|].
  case_decide as He; [|done]. destruct (qnext N s t) as [s1|] eqn:E; [|done]. cbn. apply IH.
  eapply clean_step; [done|done|by apply qnext_sound].
Qed.

(** The same threads as in [queue_threads_lose_batch]; the third batch is
    enqueued after the first slot is cleared. *)

Definition clean_schedule : list nat := (repeat 0 6 ++ repeat 1 3 ++ repeat 3 4 ++ repeat 1 3 ++ repeat 4 6 ++ repeat 2 6)%nat.

Definition clean_end : qstate := default demo_q (clean_run (2 ^ 1) demo_q clean_schedule).

Lemma queue_threads_refine_witness : exists rest, qs_enq clean_end = qs_deq clean_end ++ rest /\ rest = [21; 22]%nat /\
  queue_repr 1 (mkBatchQueue (qs_ht clean_end) (qs_slots clean_end)) (len (qs_deq clean_end)) rest.
Proof.
  destruct (queue_threads_refine 1 demo_q clean_end) as [_ H].
  - lia.
  - exact demo_q_initial.
  - apply (clean_run_reach _ demo_q demo_q clean_schedule); [apply clean_refl|by vm_compute].
  - vm_compute. reflexivity.
  - destruct H as (rest & E & Hq & _).
    + vm_compute. reflexivity.
    + intros b tail [t Ht].
      assert (Hn : map_Forall (fun _ pc => clearing pc = None) (qs_threads clean_end)) by (apply (bool_decide_unpack _); vm_compute; exact I).
      specialize (Hn t _ Ht). cbn in Hn. congruence.
    + exists rest. split; [exact E|]. split; [|exact Hq].
      assert (E2 : qs_enq clean_end = qs_deq clean_end ++ [21; 22]%nat) by (vm_compute; reflexivity).
      rewrite E2 in E. by apply app_inv_head in E.
Defined.
