(* ===== verification/PrepareThreads.v ===== *)
(** * PrepareThreads: many writers in [prepare]

    Composes [Pipeline] and [PipelineThreads]: several threads run
    [WritePipeline::prepare] ([db/write_pipeline.rs]) while others dequeue.
    Inside the pipeline's mutex a writer publishes its batch, marks it,
    reserves sequence numbers, stamps the batch and hands it to the environment;
    each of these is a step, the ones on the queue those of [PipelineThreads]. *)

From S2P Require Import Prelude Codec Records Wal Batch Pipeline PipelineThreads.
Local Open Scope Z_scope.

(** ** State

    Where a thread is: in the queue's [enqueue] (its place there is in
    [ps_q]), or at a later access of [prepare]; or it is a consumer. *)

Inductive ppc :=
| PrEnqueue (b : nat)
| PrSeq (b : nat)
| PrAssign (b : nat) (old : Z)
| PrEnv (b : nat)
| PrUnlock (r : result unit Error)
| PrReturned (r : result unit Error)
| PrPanicked
| PrConsumer.

(** [ps_reserved] and [ps_calls] record the batches that have had sequence
    numbers reserved, and those handed to the environment as they were then, in
    order; the program does not keep them. *)

Record pstate := mkPS {
  ps_q : qstate;
  ps_seq : SeqNumState;
  ps_heap : heap;
  ps_stages : gmap nat ppc;
  ps_reserved : list nat;
  ps_calls : list (nat * BatchInner)
}.

(** What the queue's consumers see of the batches. *)

Definition applied_batches (hp : heap) : gset nat :=
  dom (filter (fun bx => bi_state bx.2 = BatchRuntimeState_as_u8 StApplied) hp).

Definition ps_set_q (s : pstate) (q : qstate) : pstate :=
  mkPS q (ps_seq s) (ps_heap s) (ps_stages s) (ps_reserved s) (ps_calls s).

Definition ps_set_heap (s : pstate) (hp : heap) : pstate :=
  mkPS (qs_set_applied (ps_q s) (applied_batches hp)) (ps_seq s) hp (ps_stages s) (ps_reserved s) (ps_calls s).

Definition ps_stage (s : pstate) (t : nat) (pc : ppc) : pstate :=
  mkPS (ps_q s) (ps_seq s) (ps_heap s) (<[t := pc]> (ps_stages s)) (ps_reserved s) (ps_calls s).

Definition ps_reserve (s : pstate) (seq : SeqNumState) (b : nat) : pstate :=
  mkPS (ps_q s) seq (ps_heap s) (ps_stages s) (ps_reserved s ++ [b]) (ps_calls s).

Definition ps_call (s : pstate) (b : nat) (x : BatchInner) : pstate :=
  mkPS (ps_q s) (ps_seq s) (ps_heap s) (ps_stages s) (ps_reserved s) (ps_calls s ++ [(b, x)]).

(** Unwinding out of [prepare] drops the guard, which poisons the mutex. *)

Definition ps_panic (s : pstate) (t : nat) : pstate :=
  ps_stage (ps_set_q s (qs_pc (qs_poison (ps_q s)) t PPanicked)) t PrPanicked.

(** ** Steps *)

Section Steps.
Context {E : Type} `{!WriterEnv E} (p : profile) (N : Z) (env : E).

(* @src crates/engine/src/db/write_pipeline.rs:513-541 WritePipeline::prepare *)
Definition pnext (t : nat) (s : pstate) : option pstate :=
  st ← ps_stages s !! t;
  match st with
  | PrEnqueue b =>
      match qs_threads (ps_q s) !! t with
      | Some PUnlock =>
          x ← ps_heap s !! b;
          Some (ps_stage (ps_set_heap s (<[b := set_runtime_state x StInQueue]> (ps_heap s))) t (PrSeq b))
      | _ => q ← qnext N (ps_q s) t; Some (ps_set_q s q)
      end
  | PrSeq b =>
      x ← ps_heap s !! b;
      let '(seq, old) := fetch_add_log (ps_seq s) (get_batch_count x) in
      Some (ps_stage (ps_reserve s seq b) t (PrAssign b old))
  | PrAssign b old =>
      x ← ps_heap s !! b;
      match (v ← sub_w p 64 old (get_batch_count x); assign_seq_num_once p x v) with
      | Done x => Some (ps_stage (ps_set_heap s (<[b := x]> (ps_heap s))) t (PrEnv b))
      | Panic _ => Some (ps_panic s t)
      | _ => None
      end
  | PrEnv b =>
      x ← ps_heap s !! b;
      let s := ps_call s b x in
      match prepare_commit env x with
      | Done r => Some (ps_stage s t (PrUnlock r))
      | Panic _ => Some (ps_panic s t)
      | _ => None
      end
  | PrUnlock r => q ← qnext N (ps_q s) t; Some (ps_stage (ps_set_q s q) t (PrReturned r))
  | PrConsumer => q ← qnext N (ps_q s) t; Some (ps_set_q s q)
  | PrReturned _ | PrPanicked => None
  end.

(** Besides, whoever applies the batches changes their run-time state. *)

Inductive pevent :=
| Run (t : nat)
| SetState (b : nat) (st : BatchRuntimeState).

Definition pstep (e : pevent) (s : pstate) : option pstate :=
  match e with
  | Run t => pnext t s
  | SetState b st => x ← ps_heap s !! b; Some (ps_set_heap s (<[b := set_runtime_state x st]> (ps_heap s)))
  end.

Fixpoint prun (es : list pevent) (s : pstate) : option pstate :=
  match es with
  | [] => Some s
  | e :: es => s ← pstep e s; prun es s
  end.
End Steps.

(** A new queue, writers about to prepare their batches, and consumers. *)

Definition p_start (N : Z) (seq : SeqNumState) (hp : heap) (jobs : gmap nat nat) (consumers : gset nat) : pstate :=
  mkPS (mkQS 0 (replicate (Z.to_nat N) None) (applied_batches hp) None false
          ((PLock <$> jobs) ∪ gset_to_gmap CLoad consumers) [] [] [])
    seq hp ((PrEnqueue <$> jobs) ∪ gset_to_gmap PrConsumer consumers) [] [].

Lemma start_threads N seq hp jobs consumers t pc :
  qs_threads (ps_q (p_start N seq hp jobs consumers)) !! t = Some pc -> (exists b, pc = PLock b) \/ pc = CLoad.
Proof.
  cbn. intros [Ht|[_ Ht]]%lookup_union_Some_raw.
  - rewrite lookup_fmap in Ht. apply fmap_Some in Ht as (b & _ & ->). left. by exists b.
  - apply lookup_gset_to_gmap_Some in Ht as [_ <-]. by right.
Qed.

(** ** What the stamps are *)

Definition count_in (hp : heap) (b : nat) : Z := from_option bi_count 0 (hp !! b).

Definition count_total (hp : heap) (bs : list nat) : Z := foldr (fun b n => count_in hp b + n) 0 bs.

(** The stamp of batch [b] prepared after the batches [bs], from log position
    [s0]. *)

Definition stamp (hp : heap) (s0 : Z) (bs : list nat) (b : nat) : Z :=
  wrap 64 (wrap 64 (s0 + count_total hp bs) - count_in hp b).

Definition carries (x : BatchInner) (v : Z) : Prop :=
  exists rest, bi_data x = to_le_bytes 8 v ++ rest /\ rest <> [].

Lemma carries_seq p tgt x v : in_width 64 v -> carries x v -> seq_num p tgt x = Done v.
Proof. intros Hv (rest & E & Hr). by apply (seq_num_done p tgt x v rest). Qed.

Lemma assign_carries p x v : has_header x -> exists x', assign_seq_num_once p x v = Done x' /\ carries x' v /\
  has_header x' /\ bi_count x' = bi_count x.
Proof.
  intros Hh. destruct (has_header_split x Hh) as (s & rest & Ed & Hs & Hr).
  rewrite (assign_seq_num_once_done p x s rest v) by done. eexists. split; [done|]. split; [by exists rest|].
  split; [|done]. unfold has_header in *. cbn [bi_data set_data]. rewrite Ed in Hh. autorewrite with lens in *.
  unfold len in *. rewrite Hs in Hh. lia.
Qed.

Lemma total_app hp l k : count_total hp (l ++ k) = count_total hp l + count_total hp k.
Proof. unfold count_total. induction l as [|b l IH]; cbn [app foldr]; [lia|]. rewrite IH. lia. Qed.

(** ** Steps on the queue *)

#[local] Instance qpc_eq_dec : EqDecision qpc.
Proof. solve_decision. Defined.

Definition enqueueing (pc : qpc) : option nat :=
  match pc with PLock b | PLoad b | PSlot b _ | PStore b _ | PPublish b => Some b | _ => None end.

Definition consuming (pc : qpc) : bool :=
  match pc with CLoad | CLoop _ | CSlot _ | CCheck _ _ | CCas _ _ | CClear _ _ | CDone _ => true | _ => false end.

(** What a step of an enqueueing thread does, apart from the ring itself. *)

Definition enqueue_step (q q' : qstate) (b : nat) (pc pc' : qpc) : Prop :=
  (pc' = PPanicked /\ qs_enq q' = qs_enq q) \/
  (enqueueing pc' = Some b /\ in_crit pc' = true /\ qs_enq q' = qs_enq q /\
     (in_crit pc = true \/ qs_mu q = None /\ qs_poisoned q = false)) \/
  (pc' = PUnlock /\ in_crit pc = true /\ qs_enq q' = qs_enq q ++ [b]).

#[local] Ltac frame := intros [= <-]; eexists; (split; [done|]); split_and!; cbn; naive_solver.

Lemma qnext_frame N q t q' pc : qs_threads q !! t = Some pc -> qnext N q t = Some q' ->
  exists pc', qs_threads q' = <[t := pc']> (qs_threads q) /\
    (qs_mu q' = None -> qs_poisoned q' = false -> pc = PUnlock \/ qs_mu q = None /\ qs_poisoned q = false) /\
    (forall b, enqueueing pc = Some b -> enqueue_step q q' b pc pc') /\
    (consuming pc = true -> consuming pc' = true /\ qs_enq q' = qs_enq q) /\
    (pc = PUnlock -> pc' = PDone /\ qs_enq q' = qs_enq q) /\
    (forall u, qs_mu q' = Some u -> u = t \/ qs_mu q = Some u).
Proof.
  intros Ht. unfold qnext. rewrite Ht. cbn [mbind option_bind]. unfold enqueue_step.
  destruct pc as [b|b|b head|b head|b| | | | |ht|ht|ht b|ht b|b tail|r]; try done; try frame.
  - destruct (qs_mu q) eqn:Hm; [done|]. destruct (qs_poisoned q) eqn:Hp; frame.
  - destruct (full N (qs_ht q)); frame.
  - case_decide; frame.
  - destruct (qs_slots q !! _) as [[b|]|]; cbn [mbind option_bind]; frame.
  - case_decide; frame.
  - case_decide; [destruct (HeadTail_unpack ht)|]; frame.
Qed.

(** ** The invariant *)

Section Prepare.
Context (jobs : gmap nat nat) (h0 : heap) (s0 : Z).

(** Nobody is between publishing a batch and handing it over. *)

Definition handed_over (s : pstate) : Prop := qs_enq (ps_q s) = ps_reserved s /\ ps_reserved s = (ps_calls s).*1.

Definition stage_ok (s : pstate) (t : nat) (st : ppc) (pc : qpc) : Prop :=
  let enq := qs_enq (ps_q s) in
  let called := (ps_calls s).*1 in
  match st with
  | PrEnqueue b => jobs !! t = Some b /\
      (enqueueing pc = Some b /\ (in_crit pc = true -> handed_over s) \/
       pc = PUnlock /\ enq = ps_reserved s ++ [b] /\ ps_reserved s = called \/ pc = PPanicked)
  | PrSeq b => jobs !! t = Some b /\ pc = PUnlock /\ enq = ps_reserved s ++ [b] /\ ps_reserved s = called
  | PrAssign b old => jobs !! t = Some b /\ pc = PUnlock /\ enq = ps_reserved s /\ ps_reserved s = called ++ [b] /\
      old = wrap 64 (s0 + count_total h0 called)
  | PrEnv b => jobs !! t = Some b /\ pc = PUnlock /\ enq = ps_reserved s /\ ps_reserved s = called ++ [b] /\
      exists x, ps_heap s !! b = Some x /\ carries x (stamp h0 s0 called b)
  | PrUnlock _ => pc = PUnlock /\ handed_over s
  | PrReturned _ => pc = PDone
  | PrPanicked => pc = PPanicked
  | PrConsumer => consuming pc = true
  end.

(** The batches, the log position and the record of both. *)

Record pdata (s : pstate) : Prop := mkPData {
  pd_called : (ps_calls s).*1 `prefix_of` ps_reserved s;
  pd_reserved : ps_reserved s `prefix_of` qs_enq (ps_q s);
  pd_late : (length (qs_enq (ps_q s)) <= S (length (ps_calls s)))%nat;
  pd_seq : log_seq_num (ps_seq s) = wrap 64 (s0 + count_total h0 (ps_reserved s));
  pd_heap : forall t b, jobs !! t = Some b ->
    exists x, ps_heap s !! b = Some x /\ has_header x /\ bi_count x = count_in h0 b;
  pd_calls : forall i b x, ps_calls s !! i = Some (b, x) ->
    carries x (stamp h0 s0 (take i (ps_calls s).*1) b) /\ exists y, ps_heap s !! b = Some y /\ bi_data y = bi_data x
}.

Record pinv (k : Z) (s : pstate) : Prop := mkPInv {
  pv_queue : qinv (2 ^ k) (ps_q s);
  pv_dom : forall t, is_Some (ps_stages s !! t) <-> is_Some (qs_threads (ps_q s) !! t);
  pv_stage : forall t st pc, ps_stages s !! t = Some st -> qs_threads (ps_q s) !! t = Some pc -> stage_ok s t st pc;
  pv_free : qs_mu (ps_q s) = None -> qs_poisoned (ps_q s) = false -> handed_over s;
  pv_holder : forall t, qs_mu (ps_q s) = Some t -> is_Some (qs_threads (ps_q s) !! t);
  pv_nodup : NoDup (qs_enq (ps_q s));
  pv_owner : forall b, b ∈ qs_enq (ps_q s) ->
    exists t pc, jobs !! t = Some b /\ qs_threads (ps_q s) !! t = Some pc /\ enqueueing pc = None;
  pv_data : pdata s
}.

Context (Hjobs : forall t1 t2 b, jobs !! t1 = Some b -> jobs !! t2 = Some b -> t1 = t2).

(** A thread outside the critical section expects nothing of the rest. *)

Lemma stage_outside s s' t st pc : in_crit pc = false -> stage_ok s t st pc -> stage_ok s' t st pc.
Proof.
  intros Hc. destruct st; cbn [stage_ok]; intros H; try done.
  - destruct H as [? [[? ?]|[[-> _]| ->]]]; [|done|by auto]. split; [done|left; split; [done|congruence]].
  - by destruct H as (_ & -> & _).
  - by destruct H as (_ & -> & _).
  - by destruct H as (_ & -> & _).
  - by destruct H as [-> _].
Qed.

Lemma others_outside k s t pc t' pc' : pinv k s -> qs_threads (ps_q s) !! t = Some pc -> in_crit pc = true -> t' <> t ->
  qs_threads (ps_q s) !! t' = Some pc' -> in_crit pc' = false.
Proof. intros H Ht Hc Hne Ht'. by apply (q_other k (ps_q s) t t' pc pc' (pv_queue _ _ H)). Qed.

Lemma owner_fresh k s t b pc : pinv k s -> jobs !! t = Some b -> qs_threads (ps_q s) !! t = Some pc ->
  enqueueing pc = Some b -> b ∉ qs_enq (ps_q s).
Proof using Hjobs.
  intros H Hj Ht He Hb. destruct (pv_owner _ _ H b Hb) as (t' & pc' & Hj' & Ht' & He').
  rewrite (Hjobs _ _ _ Hj' Hj) in Ht'. congruence.
Qed.

Lemma stage_same s s' t st pc : qs_enq (ps_q s') = qs_enq (ps_q s) -> ps_reserved s' = ps_reserved s ->
  ps_calls s' = ps_calls s -> ps_heap s' = ps_heap s -> stage_ok s t st pc -> stage_ok s' t st pc.
Proof. unfold stage_ok, handed_over. by intros -> -> -> ->. Qed.

Lemma insert_dom {A} (m : gmap nat A) t x y t' : m !! t = Some x -> is_Some (<[t := y]> m !! t') <-> is_Some (m !! t').
Proof.
  intros Ht. destruct (decide (t' = t)) as [->|Hne]; [rewrite lookup_insert_eq, Ht|by rewrite lookup_insert_ne].
  split; intros _; by eexists.
Qed.

Lemma owner_kept s t pc pc' b : qs_threads (ps_q s) !! t = Some pc -> (enqueueing pc = None -> enqueueing pc' = None) ->
  (exists u pcu, jobs !! u = Some b /\ qs_threads (ps_q s) !! u = Some pcu /\ enqueueing pcu = None) ->
  exists u pcu, jobs !! u = Some b /\ <[t := pc']> (qs_threads (ps_q s)) !! u = Some pcu /\ enqueueing pcu = None.
Proof.
  intros Ht He (u & pcu & Hj & Hu & Hn). destruct (decide (u = t)) as [->|Hne].
  - exists t, pc'. rewrite lookup_insert_eq. split; [done|]. split; [done|]. apply He. congruence.
  - exists u, pcu. by rewrite lookup_insert_ne.
Qed.

(** What a thread finds of the shared state when it holds the mutex before
    publishing. *)

Lemma crit_settled k s t b pc : pinv k s -> ps_stages s !! t = Some (PrEnqueue b) -> qs_threads (ps_q s) !! t = Some pc ->
  enqueueing pc = Some b -> (in_crit pc = true \/ qs_mu (ps_q s) = None /\ qs_poisoned (ps_q s) = false) -> handed_over s.
Proof.
  intros H Hst Ht He Hc. destruct (pv_stage _ _ H t _ pc Hst Ht) as [_ [[_ Hs]|[[-> _]| ->]]]; [|done..].
  destruct Hc as [Hc|[Hm Hp]]; [by apply Hs|by apply (pv_free _ _ H)].
Qed.

(** A step on the queue before [prepare] has published its batch, or by a
    consumer. *)

Definition queue_case (s : pstate) (q' : qstate) (t : nat) (pc pc' : qpc) : Prop :=
  qs_enq q' = qs_enq (ps_q s) \/
  in_crit pc = true /\ handed_over s /\ pc' = PUnlock /\
    exists b, qs_enq q' = qs_enq (ps_q s) ++ [b] /\ jobs !! t = Some b /\ b ∉ qs_enq (ps_q s).

Lemma queue_cases k s t st pc q' : pinv k s ->
  ps_stages s !! t = Some st -> qs_threads (ps_q s) !! t = Some pc -> qnext (2 ^ k) (ps_q s) t = Some q' ->
  (exists b, st = PrEnqueue b /\ enqueueing pc = Some b) \/ st = PrConsumer ->
  exists pc', qs_threads q' = <[t := pc']> (qs_threads (ps_q s)) /\ queue_case s q' t pc pc' /\
    (qs_mu q' = None -> qs_poisoned q' = false -> qs_mu (ps_q s) = None /\ qs_poisoned (ps_q s) = false) /\
    (enqueueing pc = None -> enqueueing pc' = None) /\ stage_ok (ps_set_q s q') t st pc' /\
    (forall u, qs_mu q' = Some u -> u = t \/ qs_mu (ps_q s) = Some u).
Proof using Hjobs.
  intros H Hst Ht Hn Hkind. destruct (qnext_frame _ _ _ _ _ Ht Hn) as (pc' & Hth & Hfree & Henq & Hcon & _ & Hhold).
  exists pc'. split; [done|]. pose proof (pv_stage _ _ H _ _ _ Hst Ht) as Hok.
  assert (Hu : pc <> PUnlock) by (destruct Hkind as [(b & -> & He)| ->]; [by intros ->|intros ->; done]).
  cut (queue_case s q' t pc pc' /\ (enqueueing pc = None -> enqueueing pc' = None) /\ stage_ok (ps_set_q s q') t st pc').
  { intros (? & ? & ?). split_and!; try done. intros Hm Hp. by destruct (Hfree Hm Hp). }
  unfold queue_case. destruct Hkind as [(b & -> & He)| ->].
  - pose proof Hok as [Hj _]. specialize (Henq b He). destruct Henq as [[-> E]|[(E1 & Ec & E & Hc)|(-> & Hc & E)]].
    + split; [by left|]. split; [congruence|]. split; [done|]. by right; right.
    + split; [by left|]. split; [congruence|]. split; [done|]. left. split; [done|]. intros _.
      pose proof (crit_settled k s t b pc H Hst Ht He Hc) as [? ?]. unfold handed_over. cbn [ps_set_q ps_q ps_reserved ps_calls].
      by rewrite E.
    + pose proof (crit_settled k s t b pc H Hst Ht He (or_introl Hc)) as Hs. split; [right|].
      * split_and!; try done. exists b. split; [done|]. split; [done|]. by apply (owner_fresh k s t b pc).
      * split; [congruence|]. split; [done|]. right; left. split; [done|]. cbn [ps_set_q ps_q ps_reserved ps_calls].
        destruct Hs as [Hs1 Hs2]. by rewrite E, Hs1.
  - destruct (Hcon Hok) as [Hc' E]. split; [by left|]. split; [intros _; by destruct pc'|done].
Qed.

Lemma queue_move k s t st pc q' : 0 <= k <= 10 -> pinv k s -> small (ps_q s) ->
  ps_stages s !! t = Some st -> qs_threads (ps_q s) !! t = Some pc -> qnext (2 ^ k) (ps_q s) t = Some q' ->
  (exists b, st = PrEnqueue b /\ enqueueing pc = Some b) \/ st = PrConsumer -> pinv k (ps_set_q s q').
Proof using Hjobs.
  intros Hk H Hsm Hst Ht Hn Hkind.
  destruct (queue_cases k s t st pc q' H Hst Ht Hn Hkind) as (pc' & Hth & He & Hfree & Hown & Hok' & Hhold).
  constructor; cbn [ps_set_q ps_q ps_stages].
  - by apply (qstep_inv k Hk t _ _ (pv_queue _ _ H) Hsm), qnext_sound.
  - intros t'. rewrite (pv_dom _ _ H t'), Hth. symmetry. by apply (insert_dom _ _ pc).
  - intros t' st' pc1 Hst'. rewrite Hth. intros [[<- <-]|[Hne Ht']]%lookup_insert_Some; [congruence|].
    pose proof (pv_stage _ _ H _ _ _ Hst' Ht') as Hok1. destruct He as [He|(Hc & _)]; [by apply (stage_same s)|].
    apply (stage_outside s); [|done]. by apply (others_outside k s t pc t').
  - intros Hm Hp. destruct (Hfree Hm Hp) as [Hm0 Hp0]. destruct He as [He|(Hc & _)].
    + pose proof (pv_free _ _ H Hm0 Hp0) as [? ?]. unfold handed_over. cbn. by rewrite He.
    + pose proof (q_holder k _ _ _ (pv_queue _ _ H) Ht Hc). congruence.
  - rewrite Hth. intros u Hu. apply (insert_dom _ _ pc); [done|]. destruct (Hhold u Hu) as [->|?]; [by eexists|].
    by apply (pv_holder _ _ H).
  - destruct He as [->|(_ & _ & _ & b & -> & _ & Hb)]; [apply H|]. apply NoDup_app. split; [apply H|].
    split; [|apply NoDup_singleton]. intros b' Hb' ->%list_elem_of_singleton. done.
  - rewrite Hth. intros b Hb. destruct He as [He|(_ & _ & -> & b' & He & Hj & _)]; rewrite He in Hb.
    + apply (owner_kept s t pc); [done|done|]. by apply (pv_owner _ _ H).
    + apply elem_of_app in Hb as [Hb| ->%list_elem_of_singleton].
      * apply (owner_kept s t pc); [done|done|]. by apply (pv_owner _ _ H).
      * exists t, PUnlock. by rewrite lookup_insert_eq.
  - destruct (pv_data _ _ H) as [Hc Hr Hl]. constructor; cbn; try done.
    + destruct He as [->|(_ & _ & _ & b & -> & _)]; [done|]. by apply prefix_app_r.
    + destruct He as [->|(_ & [Hs1 Hs2] & _ & b & -> & _)]; [done|].
      rewrite length_app, Hs1, Hs2, length_fmap. cbn [length]. lia.
Qed.

(** ** Steps after publishing *)

Lemma qinv_flags k q a : qinv (2 ^ k) q -> qinv (2 ^ k) (qs_set_applied q a).
Proof. intros [Hs ? ? ? ?]. constructor; try done. by destruct Hs. Qed.

Lemma qs_flags_id q : q = qs_set_applied q (qs_applied q).
Proof. by destruct q. Qed.

(** The holder of the mutex changes the batches, the log position and the
    records, and moves on. *)

Lemma inner_move k s s1 t st' a : pinv k s -> qs_threads (ps_q s) !! t = Some PUnlock ->
  ps_q s1 = qs_set_applied (ps_q s) a -> ps_stages s1 = ps_stages s -> stage_ok s1 t st' PUnlock -> pdata s1 ->
  pinv k (ps_stage s1 t st').
Proof.
  intros H Ht Eq Est Hok Hd. assert (Hs : exists st, ps_stages s !! t = Some st) by (apply (pv_dom _ _ H); by eexists).
  destruct Hs as [st Hst]. pose proof (q_holder k _ _ _ (pv_queue _ _ H) Ht eq_refl) as Hmu.
  constructor; cbn [ps_stage ps_q ps_stages]; rewrite ?Eq, ?Est; cbn [qs_set_applied qs_threads qs_mu qs_enq].
  - apply qinv_flags, H.
  - intros t'. rewrite <- (pv_dom _ _ H t'). by apply (insert_dom _ _ st).
  - intros t' st1 pc1. intros [[<- <-]|[Hne Hst1]]%lookup_insert_Some Ht1.
    + assert (pc1 = PUnlock) as -> by congruence. revert Hok. by apply stage_same.
    + apply (stage_outside s); [by apply (others_outside k s t PUnlock t')|]. by apply (pv_stage _ _ H).
  - congruence.
  - apply H.
  - apply H.
  - apply H.
  - destruct Hd. by constructor.
Qed.

(** The mutex is poisoned by a panic of its holder. *)

Lemma panic_move k s s1 t : pinv k s -> qs_threads (ps_q s) !! t = Some PUnlock ->
  ps_q s1 = ps_q s -> ps_stages s1 = ps_stages s -> pdata s1 -> pinv k (ps_panic s1 t).
Proof.
  intros H Ht Eq Est Hd. assert (Hs : exists st, ps_stages s !! t = Some st) by (apply (pv_dom _ _ H); by eexists).
  destruct Hs as [st Hst]. pose proof (pv_queue _ _ H) as Hq. pose proof (qi_pcs _ _ Hq _ _ Ht) as Hse.
  constructor; cbn [ps_panic ps_stage ps_set_q ps_q ps_stages]; rewrite ?Eq, ?Est; cbn [qs_pc qs_poison qs_threads qs_mu qs_enq qs_poisoned].
  - apply (q_mutex k (ps_q s) t PUnlock); try done; [by destruct (qi_shared _ _ Hq)|by right].
  - intros t'. rewrite (insert_dom _ _ st), (insert_dom _ _ PUnlock) by done. apply (pv_dom _ _ H).
  - intros t' st1 pc1. intros [[<- <-]|[Hne Hst1]]%lookup_insert_Some [[? <-]|[? Ht1]]%lookup_insert_Some; [done|done|done|].
    apply (stage_outside s); [by apply (others_outside k s t PUnlock t')|]. by apply (pv_stage _ _ H).
  - done.
  - done.
  - apply H.
  - intros b Hb. apply (owner_kept s t PUnlock); [done|done|]. by apply (pv_owner _ _ H).
  - destruct Hd. constructor; try done; by rewrite <- Eq.
Qed.

Lemma unlock_move k s t r q' : 0 <= k <= 10 -> pinv k s -> small (ps_q s) ->
  ps_stages s !! t = Some (PrUnlock r) -> qs_threads (ps_q s) !! t = Some PUnlock -> handed_over s ->
  qnext (2 ^ k) (ps_q s) t = Some q' -> pinv k (ps_stage (ps_set_q s q') t (PrReturned r)).
Proof.
  intros Hk H Hsm Hst Ht [Hs1 Hs2] Hn. destruct (qnext_frame _ _ _ _ _ Ht Hn) as (pc' & Hth & _ & _ & _ & Hu & Hhold).
  destruct (Hu eq_refl) as [-> He]. constructor; cbn [ps_stage ps_set_q ps_q ps_stages]; rewrite ?Hth, ?He.
  - by apply (qstep_inv k Hk t _ _ (pv_queue _ _ H) Hsm), qnext_sound.
  - intros t'. rewrite (insert_dom _ _ (PrUnlock r)), (insert_dom _ _ PUnlock) by done. apply (pv_dom _ _ H).
  - intros t' st1 pc1. intros [[<- <-]|[Hne Hst1]]%lookup_insert_Some [[? <-]|[? Ht1]]%lookup_insert_Some; [done|done|done|].
    apply (stage_outside s); [by apply (others_outside k s t PUnlock t')|]. by apply (pv_stage _ _ H).
  - intros _ _. unfold handed_over. cbn. by rewrite He.
  - intros u Hmu. apply (insert_dom _ _ PUnlock); [done|]. destruct (Hhold u Hmu) as [->|?]; [by eexists|].
    by apply (pv_holder _ _ H).
  - apply H.
  - intros b Hb. apply (owner_kept s t PUnlock); [done|done|]. by apply (pv_owner _ _ H).
  - destruct (pv_data _ _ H). constructor; cbn; try done; by rewrite He.
Qed.

(** Writing a batch that has not been handed over, or not touching its data. *)

Lemma pdata_write s b x x' : pdata s -> ps_heap s !! b = Some x -> bi_count x' = bi_count x ->
  (has_header x -> has_header x') -> bi_data x' = bi_data x \/ b ∉ (ps_calls s).*1 ->
  pdata (ps_set_heap s (<[b := x']> (ps_heap s))).
Proof.
  intros [Hc Hr Hl Hs Hh Hcs] Hb Hn Hhd Hd. constructor; cbn; try done.
  - intros t b' Hj. destruct (Hh t b' Hj) as (y & Hy & Hyh & Hyc). destruct (decide (b' = b)) as [->|Hne].
    + exists x'. rewrite lookup_insert_eq. assert (y = x) as -> by congruence. split; [done|]. split; [by apply Hhd|congruence].
    + exists y. by rewrite lookup_insert_ne.
  - intros i b' y Hi. destruct (Hcs i b' y Hi) as [Hcar (z & Hz & Hzd)]. split; [done|].
    destruct (decide (b' = b)) as [->|Hne].
    + exists x'. rewrite lookup_insert_eq. split; [done|]. assert (z = x) as -> by congruence.
      destruct Hd as [Hd|Hd]; [congruence|]. destruct Hd. apply list_elem_of_fmap. exists (b, y). split; [done|].
      by eapply list_elem_of_lookup_2.
    + exists z. by rewrite lookup_insert_ne.
Qed.

Lemma state_move k s b x st : pinv k s -> ps_heap s !! b = Some x ->
  pinv k (ps_set_heap s (<[b := set_runtime_state x st]> (ps_heap s))).
Proof.
  intros H Hb. constructor; cbn [ps_set_heap ps_q ps_stages qs_set_applied qs_threads qs_mu qs_enq qs_poisoned].
  - apply qinv_flags, H.
  - apply H.
  - intros t st1 pc1 Hst Ht. pose proof (pv_stage _ _ H _ _ _ Hst Ht) as Hok. destruct st1; try done.
    destruct Hok as (? & ? & ? & ? & y & Hy & Hcar). cbn [stage_ok]. split_and!; try done.
    destruct (decide (b0 = b)) as [->|Hne].
    + exists (set_runtime_state x st). cbn. rewrite lookup_insert_eq. split; [done|].
      assert (y = x) as -> by congruence. exact Hcar.
    + exists y. cbn. by rewrite lookup_insert_ne.
  - apply H.
  - apply H.
  - apply H.
  - apply H.
  - apply (pdata_write s b x); [apply H|done|done|done|by left].
Qed.

Lemma stamp_sub p old n v : in_width 64 old -> sub_w p 64 old n = Done v -> 0 <= n -> v = wrap 64 (old - n).
Proof.
  intros Ho. unfold sub_w. case_decide; [|destruct p; [done|]; by intros [= <-]].
  intros [= <-] Hn. symmetry. apply wrap_small. unfold in_width in *. lia.
Qed.

Context (Hcounts : forall t b, jobs !! t = Some b -> 0 <= count_in h0 b).

Lemma mark_move k s t b x : pinv k s -> ps_stages s !! t = Some (PrEnqueue b) -> qs_threads (ps_q s) !! t = Some PUnlock ->
  ps_heap s !! b = Some x ->
  pinv k (ps_stage (ps_set_heap s (<[b := set_runtime_state x StInQueue]> (ps_heap s))) t (PrSeq b)).
Proof.
  intros H Hst Ht Hb. destruct (pv_stage _ _ H _ _ _ Hst Ht) as [Hj [[? _]|[(_ & E1 & E2)|?]]]; try done.
  eapply (inner_move k s); [done|done|done|done| |].
  - done.
  - apply (pdata_write s b x); [apply H|done|done|done|by left].
Qed.

Lemma reserve_move k s t b x : pinv k s -> ps_stages s !! t = Some (PrSeq b) -> qs_threads (ps_q s) !! t = Some PUnlock ->
  ps_heap s !! b = Some x ->
  pinv k (ps_stage (ps_reserve s (fst (fetch_add_log (ps_seq s) (bi_count x))) b) t (PrAssign b (log_seq_num (ps_seq s)))).
Proof.
  intros H Hst Ht Hb. destruct (pv_stage _ _ H _ _ _ Hst Ht) as (Hj & _ & E1 & E2).
  pose proof (pv_data _ _ H) as [Hc Hr Hl Hs Hh Hcs]. destruct (Hh t b Hj) as (y & Hy & _ & Hyc).
  assert (y = x) as -> by congruence. eapply (inner_move k s _ _ _ (qs_applied (ps_q s))); [done|done|exact (qs_flags_id (ps_q s))|done| |].
  - cbn [stage_ok ps_reserve ps_q ps_reserved ps_calls]. split_and!; try done; [by rewrite E2|]. by rewrite Hs, E2.
  - constructor; cbn; try done.
    + by apply prefix_app_r.
    + by rewrite E1.
    + change (wrap 64 (log_seq_num (ps_seq s) + bi_count x) = wrap 64 (s0 + count_total h0 (ps_reserved s ++ [b]))).
      rewrite Hs, Hyc, total_app. unfold wrap. rewrite Zplus_mod_idemp_l. f_equal. cbn. lia.
Qed.

Lemma assign_move k s t b old x v x' p : pinv k s -> ps_stages s !! t = Some (PrAssign b old) ->
  qs_threads (ps_q s) !! t = Some PUnlock -> ps_heap s !! b = Some x ->
  sub_w p 64 old (bi_count x) = Done v -> assign_seq_num_once p x v = Done x' ->
  pinv k (ps_stage (ps_set_heap s (<[b := x']> (ps_heap s))) t (PrEnv b)).
Proof using Hcounts.
  intros H Hst Ht Hb Hv Hx'. destruct (pv_stage _ _ H _ _ _ Hst Ht) as (Hj & _ & E1 & E2 & Eold).
  pose proof (pv_data _ _ H) as [Hc Hr Hl Hs Hh Hcs]. destruct (Hh t b Hj) as (y & Hy & Hyh & Hyc).
  assert (y = x) as -> by congruence. destruct (assign_carries p x v Hyh) as (x1 & Ex1 & Hcar & Hh1 & Hn1).
  assert (x1 = x') as -> by congruence. eapply (inner_move k s); [done|done|done|done| |].
  - cbn [stage_ok ps_set_heap ps_q ps_reserved ps_calls ps_heap]. split_and!; try done.
    exists x'. rewrite lookup_insert_eq. split; [done|]. unfold stamp. rewrite <- Eold, <- Hyc.
    rewrite <- (stamp_sub p old (bi_count x) v); [done|rewrite Eold; by apply wrap_in_width|done|].
    rewrite Hyc. by apply (Hcounts t).
  - apply (pdata_write s b x); [apply H|done|done|done|]. right.
    pose proof (pv_nodup _ _ H) as Hnd. rewrite E1, E2 in Hnd. apply NoDup_app in Hnd as (_ & Hnd & _). intros Hin.
    apply (Hnd b Hin). by left.
Qed.

Lemma call_data k s t b x : pinv k s -> ps_stages s !! t = Some (PrEnv b) -> qs_threads (ps_q s) !! t = Some PUnlock ->
  ps_heap s !! b = Some x -> pdata (ps_call s b x) /\ handed_over (ps_call s b x).
Proof.
  intros H Hst Ht Hb. destruct (pv_stage _ _ H _ _ _ Hst Ht) as (Hj & _ & E1 & E2 & y & Hy & Hcar).
  assert (y = x) as -> by congruence. pose proof (pv_data _ _ H) as [Hc Hr Hl Hs Hh Hcs].
  split; [|by split; [|cbn; rewrite fmap_app]]. constructor; cbn; try done.
  - by rewrite fmap_app, E2.
  - rewrite length_app. cbn. lia.
  - intros i b' z Hi. rewrite fmap_app. apply lookup_app_Some in Hi as [Hi|[Hge Hi]].
    + rewrite take_app_le; [by apply Hcs|]. rewrite length_fmap. apply lookup_lt_Some in Hi. lia.
    + apply list_lookup_singleton_Some in Hi as [Hi [= <- <-]].
      assert (i = length (ps_calls s).*1) as -> by (rewrite length_fmap; lia). rewrite take_app_length. split; [done|]. by exists x.
Qed.

(** ** Every reachable state *)

Lemma jobs_bound l : NoDup l -> (forall b, b ∈ l -> exists t, jobs !! t = Some b) -> (length l <= size jobs)%nat.
Proof.
  intros Hnd Hl. rewrite <- length_map_to_list, <- (length_fmap snd (map_to_list jobs)).
  apply submseteq_length, NoDup_submseteq; [done|]. intros b (t & Ht)%Hl. apply list_elem_of_fmap. exists (t, b).
  split; [done|]. by apply elem_of_map_to_list.
Qed.

Lemma published_bound k s : pinv k s -> (length (qs_enq (ps_q s)) <= size jobs)%nat.
Proof. intros H. apply jobs_bound; [apply H|]. intros b (t & _ & Hj & _)%(pv_owner _ _ H). by exists t. Qed.

(** A writer about to publish adds one to the batches published. *)

Lemma pending_bound k s t b pc : pinv k s -> jobs !! t = Some b -> qs_threads (ps_q s) !! t = Some pc ->
  enqueueing pc = Some b -> (length (qs_enq (ps_q s)) < size jobs)%nat.
Proof using Hjobs.
  intros H Hj Ht He. apply (jobs_bound (b :: qs_enq (ps_q s))).
  - apply NoDup_cons. split; [by apply (owner_fresh k s t b pc)|apply H].
  - intros b' [->|(t' & _ & Hj' & _)%(pv_owner _ _ H)]%elem_of_cons; by eexists.
Qed.

Section Run.
Context {E : Type} `{!WriterEnv E} (p : profile) (env : E) (k : Z) (Hk : 0 <= k <= 10).
Context (Hsize : Z.of_nat (size jobs) + 2048 < 2 ^ 32).

Lemma pinv_small s : pinv k s -> small (ps_q s).
Proof using Hsize. intros H. pose proof (published_bound k s H). unfold small, len. lia. Qed.

Lemma enqueue_stage s t b pc : stage_ok s t (PrEnqueue b) pc -> pc <> PUnlock -> enqueueing pc = Some b \/ pc = PPanicked.
Proof. intros [_ [[? _]|[[? _]|?]]]; naive_solver. Qed.

Lemma pnext_inv s t s' : pinv k s -> pnext p (2 ^ k) env t s = Some s' -> pinv k s'.
Proof using Hjobs Hcounts Hk Hsize.
  intros H. pose proof (pinv_small s H) as Hsm. unfold pnext. destruct (ps_stages s !! t) as [st|] eqn:Hst; [|done].
  assert (Ht : is_Some (qs_threads (ps_q s) !! t)) by (apply (pv_dom _ _ H); by eexists). destruct Ht as [pc Ht].
  pose proof (pv_stage _ _ H _ _ _ Hst Ht) as Hok. cbn [mbind option_bind].
  destruct st as [b|b|b old|b|r|r| |]; try done.
  - rewrite Ht. destruct (decide (pc = PUnlock)) as [->|Hu].
    + destruct (ps_heap s !! b) as [x|] eqn:Hb; [|done]. intros [= <-]. by apply mark_move.
    + intros E1. assert (exists q', qnext (2 ^ k) (ps_q s) t = Some q' /\ s' = ps_set_q s q') as (q' & Hn & ->).
      { revert E1. destruct pc; try done; cbn [mbind option_bind]; destruct (qnext _ _ _) as [q'|]; try done;
          intros [= <-]; by exists q'. }
      apply (queue_move k s t (PrEnqueue b) pc); try done. left. exists b. split; [done|].
      destruct (enqueue_stage s t b pc Hok Hu) as [?| ->]; [done|]. unfold qnext in Hn. by rewrite Ht in Hn.
  - destruct Hok as (_ & -> & _). destruct (ps_heap s !! b) as [x|] eqn:Hb; [|done]. intros [= <-]. by apply reserve_move.
  - destruct Hok as (_ & -> & _). destruct (ps_heap s !! b) as [x|] eqn:Hb; [|done]. cbn [mbind option_bind].
    unfold get_batch_count. destruct (sub_w p 64 old (bi_count x)) as [v| | |] eqn:Hv; cbn [mbind outcome_bind]; try done.
    + destruct (assign_seq_num_once p x v) as [x'| | |] eqn:Hx; try done; intros [= <-];
        [by apply (assign_move k s t b old x v x' p)|apply (panic_move k s); try done; apply H].
    + intros [= <-]. apply (panic_move k s); try done. apply H.
  - pose proof Hok as (_ & -> & _). destruct (ps_heap s !! b) as [x|] eqn:Hb; [|done]. cbn [mbind option_bind].
    destruct (call_data k s t b x H Hst Ht Hb) as [Hd Hs].
    destruct (prepare_commit env x); try done; intros [= <-]; [|by apply (panic_move k s)].
    by eapply (inner_move k s); [done|done|exact (qs_flags_id (ps_q s))|done| |].
  - destruct Hok as [-> Hs]. destruct (qnext _ _ _) as [q'|] eqn:Hn; [|done]. intros [= <-]. by apply (unlock_move k s t r q').
  - destruct (qnext _ _ _) as [q'|] eqn:Hn; [|done]. intros [= <-]. apply (queue_move k s t PrConsumer pc); auto.
Qed.

Lemma prun_inv es : forall s s', pinv k s -> prun p (2 ^ k) env es s = Some s' -> pinv k s'.
Proof using Hjobs Hcounts Hk Hsize.
  induction es as [|e es IH]; intros s s' H; cbn [prun]; [by intros [= <-]|].
  destruct (pstep p (2 ^ k) env e s) as [s1|] eqn:E1; [|done]. apply IH. destruct e as [t|b st]; cbn [pstep] in E1.
  - by apply (pnext_inv s t).
  - destruct (ps_heap s !! b) as [x|] eqn:Hb; [|done]. injection E1 as <-. by apply state_move.
Qed.

(** ** When nothing goes wrong *)

Context (Hroom : Z.of_nat (size jobs) <= 2 ^ k) (Hlog : s0 < 2 ^ 63).
Context (Hlow : forall t b, jobs !! t = Some b -> count_in h0 b < 2 ^ 32 /\ count_in h0 b <= s0).
Context (Henv : forall x, exists r, prepare_commit env x = Done r).

Definition calm (s : pstate) : Prop :=
  qs_poisoned (ps_q s) = false /\ forall t pc, qs_threads (ps_q s) !! t = Some pc -> pc <> PPanicked.

Lemma not_full s t b pc : pinv k s -> jobs !! t = Some b -> qs_threads (ps_q s) !! t = Some pc -> enqueueing pc = Some b ->
  full (2 ^ k) (qs_ht (ps_q s)) = false.
Proof using Hjobs Hk Hsize Hroom.
  intros H Hj Ht He. pose proof (pending_bound k s t b pc H Hj Ht He).
  rewrite (full_spec k Hk) by (apply (pv_queue _ _ H) || by apply pinv_small). apply bool_decide_eq_false.
  unfold len. lia.
Qed.

Lemma total_bound l : (forall b, b ∈ l -> exists t, jobs !! t = Some b) -> 0 <= count_total h0 l <= Z.of_nat (length l) * 2 ^ 32.
Proof using Hcounts Hlow.
  clear Hk Hsize Hroom Hlog. induction l as [|b l IH]; intros Hl; cbn [count_total foldr length]; [lia|]. fold (count_total h0 l).
  destruct (Hl b ltac:(by left)) as [t Ht]. pose proof (Hcounts t b Ht). pose proof (Hlow t b Ht).
  specialize (IH ltac:(intros b' Hb'; apply Hl; by right)). lia.
Qed.

Lemma assign_fine s t b old x : pinv k s -> ps_stages s !! t = Some (PrAssign b old) -> ps_heap s !! b = Some x ->
  exists v x', sub_w p 64 old (bi_count x) = Done v /\ assign_seq_num_once p x v = Done x'.
Proof using Hcounts Hlow Hlog Hroom Hk.
  intros H Hst Hb. destruct (pv_dom _ _ H t) as [Hd _]. destruct (Hd ltac:(by eexists)) as [pc Ht].
  destruct (pv_stage _ _ H _ _ _ Hst Ht) as (Hj & _ & E1 & E2 & ->).
  destruct (pd_heap _ (pv_data _ _ H) t b Hj) as (y & Hy & Hyh & Hyc). assert (y = x) as -> by congruence.
  assert (Hin : forall c, c ∈ (ps_calls s).*1 -> exists t, jobs !! t = Some c).
  { intros c Hc. destruct (pv_owner _ _ H c) as (u & _ & Hu & _); [rewrite E1, E2; apply elem_of_app; by left|by exists u]. }
  pose proof (total_bound _ Hin) as Htot. pose proof (published_bound k s H) as Hpub. rewrite E1, E2, length_app in Hpub.
  pose proof (N_bounds k Hk). pose proof (Hcounts t b Hj). pose proof (Hlow t b Hj) as [Hn Hle].
  rewrite wrap_small by (unfold in_width; nia). rewrite sub_w_small by lia.
  destruct (assign_carries p x (s0 + count_total h0 (ps_calls s).*1 - bi_count x) Hyh) as (x' & Ex & _). by eexists _, x'.
Qed.

Lemma qnext_calm q t q' pc : qs_threads q !! t = Some pc -> qnext (2 ^ k) q t = Some q' -> qs_poisoned q = false ->
  (forall b, pc = PLoad b -> full (2 ^ k) (qs_ht q) = false) ->
  qs_poisoned q' = false /\ exists pc', qs_threads q' = <[t := pc']> (qs_threads q) /\ pc' <> PPanicked.
Proof.
  intros Ht Hn Hp Hf. unfold qnext in Hn. rewrite Ht in Hn. cbn [mbind option_bind] in Hn.
  destruct pc as [b|b|b head|b head|b| | | | |ht|ht|ht b|ht b|b tail|r]; try done;
    try (injection Hn as <-; split; [done|]; by eexists).
  - destruct (qs_mu q); [done|]. rewrite Hp in Hn. injection Hn as <-. split; [done|]. by eexists.
  - rewrite (Hf b eq_refl) in Hn. injection Hn as <-. split; [done|]. by eexists.
  - injection Hn as <-. split; [done|]. eexists. split; [done|]. by case_decide.
  - destruct (qs_slots q !! _) as [[b|]|]; cbn [mbind option_bind] in Hn; [..|done]; injection Hn as <-;
      (split; [done|]); by eexists.
  - injection Hn as <-. split; [done|]. eexists. split; [done|]. by case_decide.
  - case_decide; [destruct (HeadTail_unpack ht)|]; injection Hn as <-; (split; [done|]); by eexists.
Qed.

Lemma calm_queue s t q' pc : calm s -> qs_threads (ps_q s) !! t = Some pc -> qnext (2 ^ k) (ps_q s) t = Some q' ->
  (forall b, pc = PLoad b -> full (2 ^ k) (qs_ht (ps_q s)) = false) -> calm (ps_set_q s q').
Proof.
  intros [Hp Hc] Ht Hn Hf. destruct (qnext_calm _ _ _ _ Ht Hn Hp Hf) as (Hp' & pc' & Hth & Hne).
  split; [done|]. cbn [ps_set_q ps_q]. rewrite Hth. intros t' pc1 [[<- <-]|[_ Ht']]%lookup_insert_Some; [done|].
  by apply (Hc t').
Qed.

Lemma calm_step s t s' : pinv k s -> calm s -> pnext p (2 ^ k) env t s = Some s' -> calm s'.
Proof using Hjobs Hcounts Hlow Hlog Hroom Hk Hsize Henv.
  intros H Hcalm. unfold pnext. destruct (ps_stages s !! t) as [st|] eqn:Hst; [|done].
  assert (Ht : is_Some (qs_threads (ps_q s) !! t)) by (apply (pv_dom _ _ H); by eexists). destruct Ht as [pc Ht].
  pose proof (pv_stage _ _ H _ _ _ Hst Ht) as Hok. cbn [mbind option_bind].
  destruct st as [b|b|b old|b|r|r| |]; try done.
  - assert (Hf : forall b', pc = PLoad b' -> full (2 ^ k) (qs_ht (ps_q s)) = false).
    { intros b' ->. destruct Hok as [Hj [[[= ->] _]|[[? _]|?]]]; [|done..]. by apply (not_full s t b (PLoad b)). }
    rewrite Ht. destruct pc; cbn [mbind option_bind];
      try (destruct (qnext _ _ _) as [q'|] eqn:Hn; [|done]; intros [= <-]; by eapply calm_queue).
    destruct (ps_heap s !! b); [|done]. by intros [= <-].
  - destruct (ps_heap s !! b); [|done]. by intros [= <-].
  - destruct (ps_heap s !! b) as [x|] eqn:Hb; [|done]. cbn [mbind option_bind].
    destruct (assign_fine s t b old x H Hst Hb) as (v & x' & Hv & Hx). unfold get_batch_count. rewrite Hv.
    cbn [mbind outcome_bind]. rewrite Hx. by intros [= <-].
  - destruct (ps_heap s !! b) as [x|] eqn:Hb; [|done]. cbn [mbind option_bind].
    destruct (Henv x) as [r ->]. by intros [= <-].
  - destruct Hok as [-> _]. destruct (qnext _ _ _) as [q'|] eqn:Hn; [|done]. intros [= <-].
    by apply (calm_queue s t q' PUnlock).
  - destruct (qnext _ _ _) as [q'|] eqn:Hn; [|done]. intros [= <-]. apply (calm_queue s t q' pc); try done. by intros b ->.
Qed.

(** The holder of the mutex, or a writer that finds it free, can go on. *)

Lemma writer_goes s t st pc : pinv k s -> ps_stages s !! t = Some st -> qs_threads (ps_q s) !! t = Some pc ->
  st <> PrConsumer -> in_crit pc = true \/ (exists b, pc = PLock b) /\ qs_mu (ps_q s) = None ->
  exists s', pnext p (2 ^ k) env t s = Some s'.
Proof using Hcounts Hlow Hlog Hroom Hk Henv.
  intros H Hst Ht Hst' Hc. pose proof (pv_stage _ _ H _ _ _ Hst Ht) as Hok. unfold pnext. rewrite Hst. cbn [mbind option_bind].
  assert (Hheap : forall b, jobs !! t = Some b -> exists x, ps_heap s !! b = Some x).
  { intros b Hj. destruct (pd_heap _ (pv_data _ _ H) t b Hj) as (x & Hx & _). by exists x. }
  destruct st as [b|b|b old|b|r|r| |]; try done.
  - destruct (Hheap b (proj1 Hok)) as [x Hx]. rewrite Ht. destruct Hc as [Hc|[[b' ->] Hm]].
    + destruct pc; try done; unfold qnext; rewrite ?Ht, ?Hx; cbn [mbind option_bind]; by eexists.
    + unfold qnext. rewrite Ht, Hm. by eexists.
  - destruct (Hheap b (proj1 Hok)) as [x ->]. by eexists.
  - destruct (Hheap b (proj1 Hok)) as [x Hx]. rewrite Hx. cbn [mbind option_bind].
    destruct (assign_fine s t b old x H Hst Hx) as (v & x' & Hv & Hx'). unfold get_batch_count. rewrite Hv.
    cbn [mbind outcome_bind]. rewrite Hx'. by eexists.
  - destruct (Hheap b (proj1 Hok)) as [x ->]. cbn [mbind option_bind]. destruct (Henv x) as [r ->]. by eexists.
  - destruct Hok as [-> _]. unfold qnext. rewrite Ht. by eexists.
  - cbn in Hok. subst pc. by destruct Hc as [?|[[? ?] _]].
  - cbn in Hok. subst pc. by destruct Hc as [?|[[? ?] _]].
Qed.

Lemma calm_progress s t st : pinv k s -> calm s -> ps_stages s !! t = Some st -> st <> PrConsumer ->
  (exists r, st = PrReturned r) \/
  exists t' st' s', ps_stages s !! t' = Some st' /\ st' <> PrConsumer /\ pnext p (2 ^ k) env t' s = Some s'.
Proof using Hcounts Hlow Hlog Hroom Hk Henv.
  intros H [_ Hcalm] Hst Hne. assert (Ht : is_Some (qs_threads (ps_q s) !! t)) by (apply (pv_dom _ _ H); by eexists).
  destruct Ht as [pc Ht]. pose proof (pv_stage _ _ H _ _ _ Hst Ht) as Hok. destruct (qs_mu (ps_q s)) as [t'|] eqn:Hm.
  - right. destruct (pv_holder _ _ H t' Hm) as [pc' Ht'].
    assert (Hc : in_crit pc' = true) by (rewrite (qi_mu _ _ (pv_queue _ _ H) _ _ Ht'); by apply bool_decide_eq_true).
    assert (Hst' : is_Some (ps_stages s !! t')) by (apply (pv_dom _ _ H); by eexists). destruct Hst' as [st' Hst'].
    assert (Hne' : st' <> PrConsumer).
    { intros ->. pose proof (pv_stage _ _ H _ _ _ Hst' Ht') as Hcon. cbn in Hcon. by destruct pc'. }
    destruct (writer_goes s t' st' pc' H Hst' Ht' Hne' (or_introl Hc)) as [s' E1]. by exists t', st', s'.
  - assert (Hc : in_crit pc = false) by (rewrite (qi_mu _ _ (pv_queue _ _ H) _ _ Ht), Hm; done).
    destruct st as [b|b|b old|b|r|r| |]; [..|by left; exists r| |done].
    + right. destruct Hok as [Hj [[He _]|[[-> _]| ->]]]; [|done|by destruct (Hcalm t PPanicked)].
      assert (pc = PLock b) as -> by (destruct pc; try done; cbn in He; congruence).
      destruct (writer_goes s t _ _ H Hst Ht Hne) as [s' E1]; [right; split; [by exists b|done]|]. by eexists _, _, s'.
    + by destruct Hok as (_ & -> & _).
    + by destruct Hok as (_ & -> & _).
    + by destruct Hok as (_ & -> & _).
    + by destruct Hok as [-> _].
    + cbn in Hok. subst pc. by destruct (Hcalm t PPanicked).
Qed.
Lemma prun_calm es : forall s s', pinv k s -> calm s -> prun p (2 ^ k) env es s = Some s' -> calm s'.
Proof using Hjobs Hcounts Hlow Hlog Hroom Hk Hsize Henv.
  induction es as [|e es IH]; intros s s' H Hc; cbn [prun]; [by intros [= <-]|].
  destruct (pstep p (2 ^ k) env e s) as [s1|] eqn:E1; [|done]. destruct e as [t|b st]; cbn [pstep] in E1.
  - apply IH; [by apply (pnext_inv s t)|by apply (calm_step s t)].
  - destruct (ps_heap s !! b) as [x|] eqn:Hb; [|done]. injection E1 as <-. apply IH; [by apply state_move|done].
Qed.
End Run.

Lemma start_inv k seq consumers : 0 <= k <= 10 -> log_seq_num seq = s0 -> in_width 64 s0 ->
  (forall t b, jobs !! t = Some b -> exists x, h0 !! b = Some x /\ has_header x) ->
  pinv k (p_start (2 ^ k) seq h0 jobs consumers).
Proof.
  intros Hk Hseq Hw Hh. constructor; cbn [p_start ps_q ps_stages qs_threads qs_enq qs_mu qs_poisoned].
  - apply q_initial_inv; [done|]. split_and!; try done. intros t pc. apply (start_threads (2 ^ k) seq h0 jobs consumers).
  - intros t. rewrite !lookup_union, !lookup_fmap, !lookup_gset_to_gmap.
    destruct (jobs !! t), (guard (t ∈ consumers)); cbn; split; intros [x Hx]; done || by eexists.
  - intros t st pc. rewrite !lookup_union, !lookup_fmap, !lookup_gset_to_gmap. destruct (jobs !! t) as [b|] eqn:Hj; cbn.
    + destruct (guard (t ∈ consumers)); cbn; intros [= <-] [= <-]; (split; [done|]); by left.
    + destruct (guard (t ∈ consumers)); cbn; [|done]. by intros [= <-] [= <-].
  - by intros _ _.
  - done.
  - apply NoDup_nil_2.
  - by intros b ?%elem_of_nil.
  - constructor; cbn; try done; [lia| |].
    + by rewrite Hseq, Z.add_0_r, wrap_small.
    + intros t b Hj. destruct (Hh t b Hj) as (x & Hx & Hhd). exists x. unfold count_in. by rewrite Hx.
Qed.
End Prepare.

Lemma count_in_some h b x : h !! b = Some x -> count_in h b = bi_count x.
Proof. unfold count_in. by intros ->. Qed.

(** ** Property *)

(** C19: sequence numbers are assigned in the order of publication, whatever
    the interleaving.  Writers, each with its own sealed batch that has a
    header, run [prepare] at once while consumers dequeue and batches are
    marked applied.  At any moment the batches that have sequence numbers
    reserved are those published, in the same order, except possibly the last;
    so are those handed to the environment.  The log position is the initial
    one plus their counts.  The [i]th batch handed over carries the position
    reached before it, less its own count, and its encoding is not touched
    afterwards.  If moreover the ring has room for every writer, no batch
    counts more operations than the initial position and the environment does
    not panic, then nobody panics, and some writer can go on until all have
    returned. *)
Theorem prepare_threads_order {E} `{!WriterEnv E} p tgt k (env : E) h0 jobs consumers seq es s :
  0 <= k <= 10 -> Z.of_nat (size jobs) + 2048 < 2 ^ 32 -> in_width 64 (log_seq_num seq) ->
  (forall t1 t2 b, jobs !! t1 = Some b -> jobs !! t2 = Some b -> t1 = t2) ->
  (forall t b, jobs !! t = Some b -> exists x, h0 !! b = Some x /\ has_header x /\ 0 <= bi_count x) ->
  prun p (2 ^ k) env es (p_start (2 ^ k) seq h0 jobs consumers) = Some s ->
  let s0 := log_seq_num seq in
  let enq := qs_enq (ps_q s) in
  ((ps_calls s).*1 `prefix_of` ps_reserved s /\ ps_reserved s `prefix_of` enq /\
     (length enq <= S (length (ps_calls s)))%nat) /\
  log_seq_num (ps_seq s) = wrap 64 (s0 + count_total h0 (ps_reserved s)) /\
  (forall i b x, ps_calls s !! i = Some (b, x) ->
     seq_num p tgt x = Done (wrap 64 (s0 + count_total h0 (take i enq) - count_in h0 b)) /\
     exists y, ps_heap s !! b = Some y /\ bi_data y = bi_data x) /\
  (Z.of_nat (size jobs) <= 2 ^ k -> s0 < 2 ^ 63 ->
   (forall t b, jobs !! t = Some b -> count_in h0 b < 2 ^ 32 /\ count_in h0 b <= s0) ->
   (forall x, exists r, prepare_commit env x = Done r) ->
   (forall t, qs_threads (ps_q s) !! t <> Some PPanicked) /\
   forall t st, ps_stages s !! t = Some st -> st <> PrConsumer -> (exists r, st = PrReturned r) \/
     exists t' st' s', ps_stages s !! t' = Some st' /\ st' <> PrConsumer /\ pnext p (2 ^ k) env t' s = Some s').
Proof.
  intros Hk Hsize Hw Hinj Hh Hrun s0 enq.
  assert (Hcounts : forall t b, jobs !! t = Some b -> 0 <= count_in h0 b).
  { intros t b Hj. destruct (Hh t b Hj) as (x & Hx & _ & Hn). by rewrite (count_in_some h0 b x). }
  assert (Hstart : pinv jobs h0 s0 k (p_start (2 ^ k) seq h0 jobs consumers)).
  { apply start_inv; try done. intros t b Hj. destruct (Hh t b Hj) as (x & Hx & Hhd & _). by exists x. }
  pose proof (prun_inv jobs h0 s0 Hinj Hcounts p env k Hk Hsize es _ _ Hstart Hrun) as H.
  destruct (pv_data _ _ _ _ _ H) as [Hc Hr Hl Hs Hheap Hcalls]. split; [done|]. split; [done|]. split.
  - intros i b x Hi. destruct (Hcalls i b x Hi) as [Hcar Hy]. split; [|done].
    apply carries_seq; [by apply wrap_in_width|]. revert Hcar. unfold stamp. unfold wrap. rewrite Zminus_mod_idemp_l.
    assert (Hpre : (ps_calls s).*1 `prefix_of` enq) by (by etrans).
    destruct Hpre as [rest ->]. rewrite take_app_le; [done|]. rewrite length_fmap. apply lookup_lt_Some in Hi. lia.
  - intros Hroom Hlog Hlow Henv.
    assert (Hcalm : calm s).
    { refine (prun_calm jobs h0 s0 Hinj Hcounts p env k Hk Hsize Hroom Hlog Hlow Henv es _ s Hstart _ Hrun).
      split; [done|]. intros t pc Ht. destruct (start_threads _ _ _ _ _ _ _ Ht) as [[b ->]| ->]; done. }
    split; [intros t Ht; by destruct (proj2 Hcalm t PPanicked Ht)|]. intros t st Hst Hne.
    by apply (calm_progress jobs h0 s0 Hcounts p env k Hk Hroom Hlog Hlow Henv s t st).
Qed.

(** Three writers over a ring of four, with a consumer: the first has returned,
    the third too, and the second has stamped its batch. *)

Definition demo_jobs : gmap nat nat := {[ 0%nat := 20%nat; 1%nat := 21%nat; 2%nat := 22%nat ]}.

Lemma demo_jobs_lookup t b : demo_jobs !! t = Some b -> (t = 0 /\ b = 20 \/ t = 1 /\ b = 21 \/ t = 2 /\ b = 22)%nat.
Proof. unfold demo_jobs. rewrite !lookup_insert_Some, lookup_singleton_Some. lia. Qed.

Definition demo_batches : heap :=
  {[ 20%nat := set_count BatchInner_new 1; 21%nat := set_count BatchInner_new 3; 22%nat := set_count BatchInner_new 2 ]}.

Definition demo_prepare : pstate := p_start (2 ^ 2) (mkSeqNumState 0 10) demo_batches demo_jobs {[ 3%nat ]}.

Definition demo_events : list pevent :=
  repeat (Run 0) 5 ++ [Run 3] ++ repeat (Run 0) 5 ++ [SetState 20 StApplied] ++ repeat (Run 3) 5 ++
  repeat (Run 2) 10 ++ repeat (Run 1) 8.

Definition demo_prepared : pstate := default demo_prepare (prun Debug (2 ^ 2) (mkDbImpl tt tt) demo_events demo_prepare).

Lemma prepare_threads_order_witness :
  let s := demo_prepared in
  let enq := qs_enq (ps_q s) in
  (enq = [20; 22; 21]%nat /\ (ps_calls s).*1 = [20; 22]%nat /\ ps_stages s !! 1%nat = Some (PrEnv 21)) /\
  ((ps_calls s).*1 `prefix_of` ps_reserved s /\ ps_reserved s `prefix_of` enq /\
     (length enq <= S (length (ps_calls s)))%nat) /\
  log_seq_num (ps_seq s) = wrap 64 (10 + count_total demo_batches (ps_reserved s)) /\
  (forall i b x, ps_calls s !! i = Some (b, x) ->
     seq_num Debug BigEndian x = Done (wrap 64 (10 + count_total demo_batches (take i enq) - count_in demo_batches b)) /\
     exists y, ps_heap s !! b = Some y /\ bi_data y = bi_data x) /\
  (Z.of_nat (size demo_jobs) <= 2 ^ 2 -> 10 < 2 ^ 63 ->
   (forall t b, demo_jobs !! t = Some b -> count_in demo_batches b < 2 ^ 32 /\ count_in demo_batches b <= 10) ->
   (forall x, exists r, prepare_commit (mkDbImpl tt tt) x = Done r) ->
   (forall t, qs_threads (ps_q s) !! t <> Some PPanicked) /\
   forall t st, ps_stages s !! t = Some st -> st <> PrConsumer -> (exists r, st = PrReturned r) \/
     exists t' st' s', ps_stages s !! t' = Some st' /\ st' <> PrConsumer /\ pnext Debug (2 ^ 2) (mkDbImpl tt tt) t' s = Some s').
Proof.
  intros s enq. split; [vm_compute; repeat split; reflexivity|].
  apply (prepare_threads_order Debug BigEndian 2 (mkDbImpl tt tt) demo_batches demo_jobs {[ 3%nat ]} (mkSeqNumState 0 10) demo_events s);
    [lia|reflexivity|vm_compute; split; [discriminate|reflexivity]| | |vm_compute; reflexivity].
  - intros t1 t2 b [[-> ->]|[[-> ->]|[-> ->]]]%demo_jobs_lookup H2%demo_jobs_lookup; lia.
  - intros t b [[-> ->]|[[-> ->]|[-> ->]]]%demo_jobs_lookup; eexists; (split; [reflexivity|]); vm_compute; split; discriminate.
Defined.
