(* ===== verification/Admission.v ===== *)
(** * Admission: the counting semaphore, shared

    The interleavings of [PipelineAdmission] ([db/write_pipeline.rs]), with the
    spinning of [reserve_space] in front of it: any number of threads acquire
    and release permits, their own or not, with spurious wake-ups of the
    condition variable.  A step is one access to the counter, the mutex or the
    condition variable.  The assertion of [release] fails with the mutex held,
    which poisons it: whoever locks it afterwards panics too. *)

From S2P Require Import Prelude Pipeline.

(** Where a thread is: trying without the mutex with [n] more tries to come,
    queueing for or inside the mutex, asleep, holding a permit, in [release],
    or panicked. *)

Inductive apc :=
| AIdle
| AFast (n : nat)
| AFastCas (n : nat) (cur : Z)
| ALock
| ACheck
| ASleep
| AWoken
| ASlow
| ASlowCas (cur : Z)
| AHold
| RLock
| RAdd
| RNotify
| RUnlock
| RPanic.

#[export] Instance apc_eq_dec : EqDecision apc.
Proof. solve_decision. Defined.

(** [as_extra] counts, for the proofs, the calls of [release] by threads that
    held no permit. *)

Record astate := mkA { as_count : Z; as_mu : option nat; as_threads : list apc; as_extra : Z }.

Definition a_pc (s : astate) (t : nat) (pc : apc) : astate :=
  mkA (as_count s) (as_mu s) (<[t := pc]> (as_threads s)) (as_extra s).
Definition a_mu (s : astate) (o : option nat) : astate := mkA (as_count s) o (as_threads s) (as_extra s).
Definition a_count (s : astate) (c : Z) : astate := mkA c (as_mu s) (as_threads s) (as_extra s).
Definition a_extra (s : astate) : astate := mkA (as_count s) (as_mu s) (as_threads s) (as_extra s + 1).

(** The mutex is free, and nobody has panicked inside it. *)

Definition a_poisoned (s : astate) : Prop := RPanic ∈ as_threads s.

Definition a_free (s : astate) : Prop := as_mu s = None /\ ~ a_poisoned s.

Definition locking (pc : apc) : bool := match pc with ALock | AWoken | RLock => true | _ => false end.

(** After a failed try without the mutex. *)

Definition next_try (n : nat) : apc := match n with O => ALock | S n => AFast n end.

(** Two hundred tries by [reserve_space] and one more by [acquire]. *)

Definition TRIES : nat := 200.

(* @src crates/engine/src/db/write_pipeline.rs:261-309 PipelineAdmission::acquire *)
Inductive astep (LIMIT : Z) (t : nat) (s : astate) : astate -> Prop :=
| a_begin :
    as_threads s !! t = Some AIdle -> astep LIMIT t s (a_pc s t (AFast TRIES))
| a_fast_none n :
    as_threads s !! t = Some (AFast n) -> as_count s = 0 -> astep LIMIT t s (a_pc s t (next_try n))
| a_fast n :
    as_threads s !! t = Some (AFast n) -> as_count s <> 0 -> astep LIMIT t s (a_pc s t (AFastCas n (as_count s)))
| a_fast_cas n :
    as_threads s !! t = Some (AFastCas n (as_count s)) ->
    astep LIMIT t s (a_pc (a_count s (as_count s - 1)) t AHold)
| a_fast_cas_fail n cur :
    as_threads s !! t = Some (AFastCas n cur) -> as_count s <> cur ->
    astep LIMIT t s (a_pc s t (if decide (as_count s = 0) then next_try n else AFastCas n (as_count s)))
| a_lock :
    as_threads s !! t = Some ALock -> a_free s -> astep LIMIT t s (a_pc (a_mu s (Some t)) t ACheck)
| a_check_none :
    as_threads s !! t = Some ACheck -> as_count s = 0 -> astep LIMIT t s (a_pc (a_mu s None) t ASleep)
| a_check :
    as_threads s !! t = Some ACheck -> as_count s <> 0 -> astep LIMIT t s (a_pc s t ASlow)
| a_spurious :
    as_threads s !! t = Some ASleep -> astep LIMIT t s (a_pc s t AWoken)
| a_relock :
    as_threads s !! t = Some AWoken -> a_free s -> astep LIMIT t s (a_pc (a_mu s (Some t)) t ACheck)
| a_slow_none :
    as_threads s !! t = Some ASlow -> as_count s = 0 -> astep LIMIT t s (a_pc s t ACheck)
| a_slow :
    as_threads s !! t = Some ASlow -> as_count s <> 0 -> astep LIMIT t s (a_pc s t (ASlowCas (as_count s)))
| a_slow_cas :
    as_threads s !! t = Some (ASlowCas (as_count s)) ->
    astep LIMIT t s (a_pc (a_mu (a_count s (as_count s - 1)) None) t AHold)
| a_slow_cas_fail cur :
    as_threads s !! t = Some (ASlowCas cur) -> as_count s <> cur ->
    astep LIMIT t s (a_pc s t (if decide (as_count s = 0) then ACheck else ASlowCas (as_count s)))
| a_release :
    as_threads s !! t = Some AHold -> astep LIMIT t s (a_pc s t RLock)
| a_release_extra :
    as_threads s !! t = Some AIdle -> astep LIMIT t s (a_pc (a_extra s) t RLock)
| a_lock_poisoned pc :
    as_threads s !! t = Some pc -> locking pc = true -> as_mu s = None -> a_poisoned s -> astep LIMIT t s (a_pc s t RPanic)
| r_lock :
    as_threads s !! t = Some RLock -> a_free s -> astep LIMIT t s (a_pc (a_mu s (Some t)) t RAdd)
| r_add :
    as_threads s !! t = Some RAdd -> as_count s < LIMIT ->
    astep LIMIT t s (a_pc (a_count s (wrap 16 (as_count s + 1))) t RNotify)
| r_add_panic :
    as_threads s !! t = Some RAdd -> LIMIT <= as_count s ->
    astep LIMIT t s (a_pc (a_mu (a_count s (wrap 16 (as_count s + 1))) None) t RPanic)
| r_notify t' :
    as_threads s !! t = Some RNotify -> as_threads s !! t' = Some ASleep ->
    astep LIMIT t s (a_pc (a_pc s t' AWoken) t RUnlock)
| r_notify_nobody :
    as_threads s !! t = Some RNotify -> ASleep ∉ as_threads s -> astep LIMIT t s (a_pc s t RUnlock)
| r_unlock :
    as_threads s !! t = Some RUnlock -> astep LIMIT t s (a_pc (a_mu s None) t AIdle).

Inductive areach (LIMIT : Z) (s0 : astate) : astate -> Prop :=
| areach_refl : areach LIMIT s0 s0
| areach_step s t s' : areach LIMIT s0 s -> astep LIMIT t s s' -> areach LIMIT s0 s'.

Definition a_initial (LIMIT : Z) (s : astate) : Prop :=
  as_count s = LIMIT /\ as_mu s = None /\ Forall (fun pc => pc = AIdle) (as_threads s) /\ as_extra s = 0.

(** ** Counting threads *)

Fixpoint count_pc (f : apc -> bool) (l : list apc) : Z :=
  match l with
  | [] => 0
  | pc :: l => Z.b2z (f pc) + count_pc f l
  end.

(** Owning a permit, or in [release] before the permit is added; on the way to look at the counter again, or to wake
    someone who will; asleep; holding the mutex. *)

Definition owns (pc : apc) : bool := match pc with AHold | RLock | RAdd => true | _ => false end.
Definition alert (pc : apc) : bool :=
  match pc with AWoken | ACheck | ASlow | ASlowCas _ | RNotify => true | _ => false end.
Definition asleep (pc : apc) : bool := match pc with ASleep => true | _ => false end.
Definition in_mutex (pc : apc) : bool :=
  match pc with ACheck | ASlow | ASlowCas _ | RAdd | RNotify | RUnlock => true | _ => false end.

(** A thread only tries to exchange a count it saw to be positive. *)

Definition cas_ok (pc : apc) : bool :=
  match pc with AFastCas _ cur | ASlowCas cur => bool_decide (cur <> 0) | _ => true end.

Lemma count_pc_nonneg f l : 0 <= count_pc f l.
Proof. induction l as [|pc l IH]; simpl; [done|]. destruct (f pc); simpl; lia. Qed.

Lemma count_pc_app f l k : count_pc f (l ++ k) = count_pc f l + count_pc f k.
Proof. induction l as [|pc l IH]; simpl; [done|]. lia. Qed.

Lemma count_pc_insert f l t pc0 pc :
  l !! t = Some pc0 -> count_pc f (<[t := pc]> l) = count_pc f l - Z.b2z (f pc0) + Z.b2z (f pc).
Proof.
  intros Ht. rewrite <- (take_drop_middle l t pc0 Ht) at 2. rewrite insert_take_drop by (by eapply lookup_lt_Some).
  rewrite !count_pc_app. simpl. lia.
Qed.

Lemma count_pc_ge f l t pc : l !! t = Some pc -> Z.b2z (f pc) <= count_pc f l.
Proof.
  intros Ht. rewrite <- (take_drop_middle l t pc Ht), count_pc_app. simpl.
  pose proof (count_pc_nonneg f (take t l)). pose proof (count_pc_nonneg f (drop (S t) l)). lia.
Qed.

Lemma count_pc_exists f l : 0 < count_pc f l -> exists t pc, l !! t = Some pc /\ f pc = true.
Proof.
  induction l as [|pc l IH]; simpl; [lia|]. destruct (f pc) eqn:E; [by exists 0%nat, pc|].
  simpl. intros H. destruct IH as (t & pc' & ? & ?); [lia|]. by exists (S t), pc'.
Qed.

Lemma count_pc_none f l : Forall (fun pc => f pc = false) l -> count_pc f l = 0.
Proof. induction 1 as [|pc l Hf _ IH]; simpl; [done|]. by rewrite Hf. Qed.

(** ** The invariant *)

Record ainv (LIMIT : Z) (s : astate) : Prop := mkAInv {
  ai_count : 0 <= as_count s <= LIMIT;
  ai_extra : 0 <= as_extra s;
  ai_conserved : as_count s + count_pc owns (as_threads s) = LIMIT + as_extra s;
  ai_awake : as_count s <= count_pc alert (as_threads s) \/ count_pc asleep (as_threads s) = 0;
  ai_mu : forall t pc, as_threads s !! t = Some pc -> in_mutex pc = bool_decide (as_mu s = Some t);
  ai_no_panic : RPanic ∉ as_threads s;
  ai_cas : Forall (fun pc => cas_ok pc = true) (as_threads s);
  ai_holder : forall t, as_mu s = Some t -> (t < length (as_threads s))%nat
}.

Lemma ainv_mutex s LIMIT t pc0 pc o :
  ainv LIMIT s -> as_threads s !! t = Some pc0 -> in_mutex pc = bool_decide (o = Some t) ->
  (forall t', t' <> t -> o = Some t' <-> as_mu s = Some t') ->
  forall t' pc', <[t := pc]> (as_threads s) !! t' = Some pc' -> in_mutex pc' = bool_decide (o = Some t').
Proof.
  intros H Ht Hin Ho t' pc' Hl. destruct (decide (t' = t)) as [->|Hne].
  - rewrite list_lookup_insert_eq in Hl by (by eapply lookup_lt_Some). by injection Hl as <-.
  - rewrite list_lookup_insert_ne in Hl by done. rewrite (ai_mu _ s H _ _ Hl). apply bool_decide_ext. symmetry. by apply Ho.
Qed.

Lemma no_panic_insert (l : list apc) (t : nat) pc : RPanic ∉ l -> pc <> RPanic -> RPanic ∉ <[t := pc]> l.
Proof.
  intros H Hpc Hin. apply list_elem_of_lookup in Hin as [i Hi]. destruct (decide (t = i)) as [->|Hne].
  - pose proof (lookup_lt_Some _ _ _ Hi) as Hl. rewrite length_insert in Hl.
    rewrite list_lookup_insert_eq in Hi by done. congruence.
  - rewrite list_lookup_insert_ne in Hi by done. apply H. by eapply list_elem_of_lookup_2.
Qed.

(** A thread moves, with the counter and the mutex. *)

Lemma ainv_move LIMIT s t pc0 pc c o e :
  ainv LIMIT s -> as_threads s !! t = Some pc0 -> pc <> RPanic -> cas_ok pc = true -> 0 <= c <= LIMIT -> as_extra s <= e ->
  c + Z.b2z (owns pc) - e = as_count s + Z.b2z (owns pc0) - as_extra s ->
  (c - as_count s <= Z.b2z (alert pc) - Z.b2z (alert pc0) \/ c = 0) ->
  (asleep pc = true -> c = 0) ->
  in_mutex pc = bool_decide (o = Some t) -> (forall t', t' <> t -> o = Some t' <-> as_mu s = Some t') ->
  ainv LIMIT (mkA c o (<[t := pc]> (as_threads s)) e).
Proof.
  intros H Ht Hp Hcas Hc He Howns Halert Hsleep Hin Ho.
  constructor; cbn [as_count as_mu as_threads as_extra]; rewrite ?(count_pc_insert _ _ t pc0 pc Ht).
  - done.
  - pose proof (ai_extra _ _ H). lia.
  - pose proof (ai_conserved _ _ H). lia.
  - pose proof (count_pc_nonneg alert (<[t := pc]> (as_threads s))) as Hn.
    rewrite (count_pc_insert _ _ t pc0 pc Ht) in Hn.
    destruct (asleep pc) eqn:Es; [left; rewrite Hsleep by done; lia|].
    destruct (ai_awake _ _ H) as [Ha|Ha].
    + left. destruct Halert as [?|?]; lia.
    + right. pose proof (count_pc_ge asleep _ t pc0 Ht). rewrite Ha in *. destruct (asleep pc0); simpl in *; lia.
  - by apply (ainv_mutex s LIMIT t pc0).
  - apply no_panic_insert; [apply H|done].
  - apply Forall_insert; [apply H|done].
  - intros u Hu. rewrite length_insert. destruct (decide (u = t)) as [->|Hne]; [by eapply lookup_lt_Some|].
    apply (ai_holder _ _ H). by apply Ho.
Qed.

Lemma a_holder LIMIT s t pc : ainv LIMIT s -> as_threads s !! t = Some pc -> in_mutex pc = true -> as_mu s = Some t.
Proof. intros H Ht Hc. rewrite (ai_mu _ s H _ _ Ht) in Hc. by apply bool_decide_eq_true in Hc. Qed.

Lemma a_same_mu LIMIT s t pc0 pc :
  ainv LIMIT s -> as_threads s !! t = Some pc0 -> in_mutex pc = in_mutex pc0 ->
  in_mutex pc = bool_decide (as_mu s = Some t).
Proof. intros H Ht ->. by apply (ai_mu _ s H). Qed.

Lemma a_take_mu s t t' : as_mu s = None -> t' <> t -> Some t = Some t' <-> as_mu s = Some t'.
Proof. intros -> Hne. split; congruence. Qed.

Lemma a_drop_mu LIMIT s t pc t' :
  ainv LIMIT s -> as_threads s !! t = Some pc -> in_mutex pc = true -> t' <> t -> None = Some t' <-> as_mu s = Some t'.
Proof. intros H Ht Hc Hne. rewrite (a_holder LIMIT s t pc H Ht Hc). split; congruence. Qed.

(** Waking one sleeper pays for the notifier leaving. *)

Lemma ainv_notify LIMIT s t t' :
  ainv LIMIT s -> as_threads s !! t = Some RNotify -> as_threads s !! t' = Some ASleep ->
  ainv LIMIT (a_pc (a_pc s t' AWoken) t RUnlock).
Proof.
  intros H Ht Ht'. assert (Hne : t' <> t) by congruence.
  assert (Ht2 : <[t' := AWoken]> (as_threads s) !! t = Some RNotify) by (by rewrite list_lookup_insert_ne).
  constructor; cbn [a_pc as_count as_mu as_threads as_extra].
  - apply H.
  - apply H.
  - rewrite (count_pc_insert _ _ t RNotify _ Ht2), (count_pc_insert _ _ t' ASleep _ Ht'). cbn.
    pose proof (ai_conserved _ _ H). lia.
  - left. rewrite (count_pc_insert _ _ t RNotify _ Ht2), (count_pc_insert _ _ t' ASleep _ Ht'). cbn.
    pose proof (count_pc_ge asleep _ t' _ Ht') as Hs. cbn in Hs. destruct (ai_awake _ _ H); lia.
  - intros u pcu Hu. pose proof (a_holder LIMIT s t _ H Ht eq_refl) as Hm. destruct (decide (u = t)) as [->|Hu1].
    + rewrite list_lookup_insert_eq in Hu by (by eapply lookup_lt_Some). injection Hu as <-. by rewrite bool_decide_true.
    + rewrite list_lookup_insert_ne in Hu by done. rewrite bool_decide_false by congruence.
      destruct (decide (u = t')) as [->|Hu2].
      * rewrite list_lookup_insert_eq in Hu by (by eapply lookup_lt_Some). by injection Hu as <-.
      * rewrite list_lookup_insert_ne in Hu by done. rewrite (ai_mu _ s H _ _ Hu). apply bool_decide_eq_false. congruence.
  - apply no_panic_insert; [apply no_panic_insert; [apply H|done]|done].
  - do 2 (apply Forall_insert; [|done]). apply H.
  - rewrite !length_insert. apply H.
Qed.

Lemma ainv_notify_nobody LIMIT s t :
  ainv LIMIT s -> as_threads s !! t = Some RNotify -> ASleep ∉ as_threads s -> ainv LIMIT (a_pc s t RUnlock).
Proof.
  intros H Ht Hn. assert (Hs : count_pc asleep (as_threads s) = 0).
  { apply count_pc_none, Forall_forall. intros pc Hpc. by destruct pc. }
  constructor; cbn [a_pc as_count as_mu as_threads as_extra]; rewrite ?(count_pc_insert _ _ t RNotify _ Ht); cbn.
  - apply H.
  - apply H.
  - pose proof (ai_conserved _ _ H). lia.
  - right. lia.
  - apply (ainv_mutex s LIMIT t RNotify); [done|done|by apply (a_same_mu LIMIT s t RNotify)|done].
  - apply no_panic_insert; [apply H|done].
  - apply Forall_insert; [apply H|done].
  - rewrite length_insert. apply H.
Qed.

Ltac a_step_extra c o e :=
  match goal with
  | H : ainv ?L ?s, Ht : as_threads ?s !! ?t = Some ?pc0 |- ainv ?L (a_pc _ _ ?pc) =>
      apply (ainv_move L s t pc0 pc c o e H Ht); cbn;
      [done|try done; try (by apply bool_decide_true)|try (pose proof (ai_count _ _ H); lia)|lia|try lia|try lia|try done|try exact (ai_mu _ s H _ _ Ht); try (by rewrite bool_decide_true); try (by rewrite bool_decide_false)|try done]
  end.

Ltac a_step c o := match goal with H : ainv _ ?s |- _ => a_step_extra c o (as_extra s) end.

(** While nobody has panicked a step keeps the invariant, and a panic is the
    first only after a release too many. *)

Lemma panic_from (l : list apc) t pc : RPanic ∈ <[t := pc]> l -> pc <> RPanic -> RPanic ∈ l.
Proof. intros H Hpc. destruct (decide (RPanic ∈ l)) as [?|Hn]; [done|]. by apply (no_panic_insert l t pc) in Hn. Qed.

Lemma astep_inv LIMIT t s s' : LIMIT <= u_max 16 -> ainv LIMIT s -> astep LIMIT t s s' -> RPanic ∉ as_threads s' -> ainv LIMIT s'.
Proof.
  intros HL H Hs Hnp. pose proof (ai_count _ _ H) as Hc.
  assert (Hcas : forall u pc, as_threads s !! u = Some pc -> cas_ok pc = true).
  { intros u pc Hu. by apply (Forall_lookup_1 _ _ _ _ (ai_cas _ _ H) Hu). }
  destruct Hs as [Ht|n Ht E|n Ht E|n Ht|n cur Ht E|Ht [E _]|Ht E|Ht E|Ht|Ht [E _]|Ht E|Ht E|Ht|cur Ht E|Ht|Ht|pc Ht El Em Ep|Ht [E _]|Ht E|Ht E
                 |t' Ht Ht'|Ht Hn|Ht].
  - a_step (as_count s) (as_mu s).
  - destruct n; a_step (as_count s) (as_mu s).
  - a_step (as_count s) (as_mu s).
  - pose proof (bool_decide_eq_true_1 _ (Hcas _ _ Ht)) as Hnz. a_step (as_count s - 1) (as_mu s).
  - case_decide; [destruct n|]; a_step (as_count s) (as_mu s).
  - a_step (as_count s) (Some t). intros. by apply a_take_mu.
  - a_step (as_count s) (@None nat); intros. by apply (a_drop_mu LIMIT s t ACheck).
  - a_step (as_count s) (as_mu s).
  - a_step (as_count s) (as_mu s).
  - a_step (as_count s) (Some t). intros. by apply a_take_mu.
  - a_step (as_count s) (as_mu s).
  - a_step (as_count s) (as_mu s).
  - pose proof (bool_decide_eq_true_1 _ (Hcas _ _ Ht)) as Hnz. a_step (as_count s - 1) (@None nat). intros. by eapply a_drop_mu.
  - case_decide; a_step (as_count s) (as_mu s).
  - a_step (as_count s) (as_mu s).
  - a_step_extra (as_count s) (as_mu s) (as_extra s + 1).
  - by destruct (ai_no_panic _ _ H).
  - a_step (as_count s) (Some t). intros. by apply a_take_mu.
  - rewrite wrap_small by (unfold in_width, u_max in *; lia). a_step (as_count s + 1) (as_mu s).
  - exfalso. apply Hnp. cbn. apply list_elem_of_lookup. exists t. apply list_lookup_insert_eq. by eapply lookup_lt_Some.
  - by apply ainv_notify.
  - by apply ainv_notify_nobody.
  - a_step (as_count s) (@None nat). intros. by apply (a_drop_mu LIMIT s t RUnlock).
Qed.

(** A thread that has panicked stays where it is. *)

Lemma panic_insert (l : list apc) t pc0 pc : l !! t = Some pc0 -> pc0 <> RPanic -> RPanic ∈ l -> RPanic ∈ <[t := pc]> l.
Proof.
  intros Ht Hne Hp. apply list_elem_of_lookup in Hp as [i Hi]. apply list_elem_of_lookup. exists i.
  rewrite list_lookup_insert_ne; [done|]. intros ->. congruence.
Qed.

Lemma panic_stays LIMIT t s s' : astep LIMIT t s s' -> RPanic ∈ as_threads s -> RPanic ∈ as_threads s'.
Proof.
  intros Hs Hp. destruct Hs; cbn [a_pc a_mu a_count a_extra as_threads]; try (by eapply panic_insert);
    try (by destruct pc; eapply panic_insert).
  apply (panic_insert _ t RNotify); [|done|by eapply panic_insert]. rewrite list_lookup_insert_ne; [done|]. congruence.
Qed.

Lemma extra_grows LIMIT t s s' : astep LIMIT t s s' -> as_extra s <= as_extra s'.
Proof. destruct 1; cbn; lia. Qed.

(** The first panic is an addition at the limit, by a thread that counts as an
    owner. *)

Lemma first_panic LIMIT t s s' : ainv LIMIT s -> astep LIMIT t s s' -> RPanic ∈ as_threads s' -> 0 < as_extra s'.
Proof.
  intros H Hs Hp. pose proof (ai_no_panic _ _ H) as Hn.
  destruct Hs as [Ht|n Ht E|n Ht E|n Ht|n cur Ht E|Ht [E _]|Ht E|Ht E|Ht|Ht [E _]|Ht E|Ht E|Ht|cur Ht E|Ht|Ht|pc Ht El Em Ep|Ht [E _]|Ht E|Ht E
                 |t' Ht Ht'|Ht Hn'|Ht]; cbn [a_pc a_mu a_count a_extra as_threads as_extra] in *;
    try (exfalso; apply Hn; eapply panic_from; [exact Hp|]; done).
  - exfalso. apply Hn. eapply panic_from; [exact Hp|]. by destruct n.
  - exfalso. apply Hn. eapply panic_from; [exact Hp|]. case_decide; [by destruct n|done].
  - exfalso. apply Hn. eapply panic_from; [exact Hp|]. by case_decide.
  - pose proof (ai_conserved _ _ H). pose proof (count_pc_ge owns _ t _ Ht) as Ho. cbn in Ho. lia.
  - exfalso. apply Hn. eapply panic_from; [eapply panic_from; [exact Hp|done]|done].
Qed.

Lemma a_initial_inv LIMIT s : 0 <= LIMIT -> a_initial LIMIT s -> ainv LIMIT s.
Proof.
  intros HL (Hc & Hm & Hf & He).
  assert (Hnone : forall f, f AIdle = false -> count_pc f (as_threads s) = 0).
  { intros f E. apply count_pc_none. apply (Forall_impl _ _ _ Hf). by intros pc ->. }
  constructor; rewrite ?Hnone by done; [lia|lia|lia|by right|..].
  - intros t pc Ht. rewrite Hm. by rewrite (Forall_lookup_1 _ _ _ _ Hf Ht).
  - intros Hin. by pose proof (proj1 (Forall_forall _ _) Hf _ Hin).
  - apply (Forall_impl _ _ _ Hf). by intros pc ->.
  - intros t. by rewrite Hm.
Qed.

Lemma areach_inv LIMIT s0 s : 0 <= LIMIT <= u_max 16 -> a_initial LIMIT s0 -> areach LIMIT s0 s ->
  (RPanic ∉ as_threads s -> ainv LIMIT s) /\ (RPanic ∈ as_threads s -> 0 < as_extra s).
Proof.
  intros HL H0. induction 1 as [|s t s' _ [IH1 IH2] Hs].
  - pose proof (a_initial_inv LIMIT s0 ltac:(lia) H0) as H. split; [done|]. by intros ?%(ai_no_panic _ _ H).
  - pose proof (extra_grows _ _ _ _ Hs). destruct (decide (RPanic ∈ as_threads s)) as [Hp|Hp].
    + split; [|specialize (IH2 Hp); lia]. intros Hn. by destruct Hn; eapply panic_stays.
    + specialize (IH1 Hp). split; [intros Hn; by apply (astep_inv LIMIT t s s'); [lia|..]|by apply (first_panic LIMIT t s)].
Qed.

(** The thread inside the mutex can always step. *)

Lemma a_holder_steps LIMIT s t pc :
  ainv LIMIT s -> as_threads s !! t = Some pc -> in_mutex pc = true -> exists s', astep LIMIT t s s'.
Proof.
  intros H Ht Hc. destruct pc as [|n|n cur| | | | | |cur| | | | | |]; try done.
  - destruct (decide (as_count s = 0)); eexists; [by apply a_check_none|by apply a_check].
  - destruct (decide (as_count s = 0)); eexists; [by apply a_slow_none|by apply a_slow].
  - destruct (decide (as_count s = cur)) as [<-|Hne]; eexists; [by apply a_slow_cas|by apply a_slow_cas_fail with cur].
  - destruct (decide (as_count s < LIMIT)); eexists; [by apply r_add|apply r_add_panic; [done|lia]].
  - destruct (decide (ASleep ∈ as_threads s)) as [Hin|Hn]; [|eexists; by apply r_notify_nobody].
    apply list_elem_of_lookup in Hin as [t' Ht']. eexists. by apply (r_notify _ _ _ t').
  - eexists. by apply r_unlock.
Qed.

(** No wake-up is missed. *)

Lemma a_wakes LIMIT s : ainv LIMIT s -> 0 < as_count s -> ASleep ∈ as_threads s ->
  (exists t pc, as_threads s !! t = Some pc /\ alert pc = true) /\
  (exists t pc s', as_threads s !! t = Some pc /\ asleep pc = false /\ astep LIMIT t s s').
Proof.
  intros H Hpos Hsleep.
  apply list_elem_of_lookup in Hsleep as [z Hz]. pose proof (count_pc_ge asleep _ _ _ Hz) as Hs. cbn in Hs.
  assert (0 < count_pc alert (as_threads s)) by (destruct (ai_awake _ _ H); lia).
  destruct (count_pc_exists alert (as_threads s)) as (t & pc & Ht & Hal); [done|]. split; [by exists t, pc|].
  destruct (in_mutex pc) eqn:Hin.
  - destruct (a_holder_steps LIMIT s t pc H Ht Hin) as [s' Hs']. exists t, pc, s'. split; [done|]. split; [by destruct pc|done].
  - assert (pc = AWoken) as -> by (by destruct pc). destruct (as_mu s) as [m|] eqn:Hm.
    + destruct (lookup_lt_is_Some_2 _ _ (ai_holder _ _ H m Hm)) as [pcm Hpm].
      assert (Hc : in_mutex pcm = true) by (rewrite (ai_mu _ s H _ _ Hpm); by apply bool_decide_true).
      destruct (a_holder_steps LIMIT s m pcm H Hpm Hc) as [s' Hs']. exists m, pcm, s'. split; [done|]. split; [by destruct pcm|done].
    + eexists t, AWoken, _. split; [done|]. split; [done|]. apply a_relock; [done|]. split; [done|apply H].
Qed.

(** C32: the admission semaphore under every interleaving of threads that
    acquire and release permits, spurious wake-ups included, and releases by
    threads that hold none.  A thread panics only after such a release too
    many; conversely, when such a release has been made and every call has
    ended, somebody has panicked.  Until a panic, permits are conserved: those
    free and those held are the limit and the releases too many, and never
    more than the limit are free; and no wake-up is missed: while permits are
    free and a thread sleeps, some thread that is awake is about to look at
    the counter, and a thread that is not asleep can take a step. *)
Theorem admission_conserves_permits LIMIT s0 s :
  0 <= LIMIT <= u_max 16 -> a_initial LIMIT s0 -> areach LIMIT s0 s ->
  (RPanic ∈ as_threads s -> 0 < as_extra s) /\
  (0 < as_extra s -> Forall (fun pc => pc = AIdle \/ pc = RPanic) (as_threads s) -> RPanic ∈ as_threads s) /\
  (RPanic ∉ as_threads s ->
   as_count s + count_pc owns (as_threads s) = LIMIT + as_extra s /\ 0 <= as_count s <= LIMIT /\
   (0 < as_count s -> ASleep ∈ as_threads s ->
    (exists t pc, as_threads s !! t = Some pc /\ alert pc = true) /\
    (exists t pc s', as_threads s !! t = Some pc /\ asleep pc = false /\ astep LIMIT t s s'))).
Proof.
  intros HL H0 Hr. destruct (areach_inv LIMIT s0 s HL H0 Hr) as [Hinv Hpanic]. split; [done|]. split.
  - intros He Hidle. destruct (decide (RPanic ∈ as_threads s)) as [?|Hn]; [done|]. specialize (Hinv Hn).
    assert (Hz : count_pc owns (as_threads s) = 0).
    { apply count_pc_none. apply (Forall_impl _ _ _ Hidle). by intros pc [->| ->]. }
    pose proof (ai_conserved _ _ Hinv). pose proof (ai_count _ _ Hinv). lia.
  - intros Hn. specialize (Hinv Hn). split; [apply Hinv|]. split; [apply Hinv|]. intros Hpos Hsleep. by apply a_wakes.
Qed.

(** One permit and two threads: the first takes it, the second tries in vain
    and falls asleep, and the first gives the permit back. *)

Lemma fast_fails LIMIT s0 n : forall th, areach LIMIT s0 (mkA 0 None th 0) -> th !! 1%nat = Some (AFast n) ->
  areach LIMIT s0 (mkA 0 None (<[1%nat := ALock]> th) 0).
Proof.
  induction n as [|n IH]; intros th Hr Ht.
  - eapply areach_step; [exact Hr|]. by apply (a_fast_none LIMIT 1 (mkA 0 None th 0) 0).
  - assert (Hr' : areach LIMIT s0 (mkA 0 None (<[1%nat := AFast n]> th) 0)).
    { eapply areach_step; [exact Hr|]. by apply (a_fast_none LIMIT 1 (mkA 0 None th 0) (S n)). }
    apply IH in Hr'; [by rewrite list_insert_insert_eq in Hr'|]. apply list_lookup_insert_eq. by eapply lookup_lt_Some.
Qed.

Definition demo_admission : astate := mkA 1 (Some 0%nat) [RNotify; ASleep] 0.

Lemma demo_admission_reached : areach 1 (mkA 1 None [AIdle; AIdle] 0) demo_admission.
Proof.
  assert (H : areach 1 (mkA 1 None [AIdle; AIdle] 0) (mkA 0 None [AHold; AFast TRIES] 0)).
  { eapply areach_step; [|by apply (a_begin 1 1 (mkA 0 None [AHold; AIdle] 0))].
    eapply areach_step; [|by apply (a_fast_cas 1 0 (mkA 1 None [AFastCas TRIES 1; AIdle] 0) TRIES)].
    eapply areach_step; [|by apply (a_fast 1 0 (mkA 1 None [AFast TRIES; AIdle] 0) TRIES)].
    eapply areach_step; [apply areach_refl|]. by apply (a_begin 1 0 (mkA 1 None [AIdle; AIdle] 0)). }
  apply (fast_fails 1 _ TRIES) in H; [|done]. cbn in H.
  eapply areach_step; [|by apply (r_add 1 0 (mkA 0 (Some 0%nat) [RAdd; ASleep] 0))].
  eapply areach_step; [|apply (r_lock 1 0 (mkA 0 None [RLock; ASleep] 0)); [done|split; [done|by apply (bool_decide_unpack _)]]].
  eapply areach_step; [|by apply (a_release 1 0 (mkA 0 None [AHold; ASleep] 0))].
  eapply areach_step; [|by apply (a_check_none 1 1 (mkA 0 (Some 1%nat) [AHold; ACheck] 0))].
  eapply areach_step; [exact H|]. apply (a_lock 1 1 (mkA 0 None [AHold; ALock] 0)); [done|]. split; [done|by apply (bool_decide_unpack _)].
Qed.

Lemma admission_conserves_permits_witness :
  let s := demo_admission in
  0 < as_count s /\ ASleep ∈ as_threads s /\
  as_count s + count_pc owns (as_threads s) = 1 + as_extra s /\ 0 <= as_count s <= 1 /\
  (exists t pc, as_threads s !! t = Some pc /\ alert pc = true) /\
  (exists t pc s', as_threads s !! t = Some pc /\ asleep pc = false /\ astep 1 t s s').
Proof.
  destruct (admission_conserves_permits 1 (mkA 1 None [AIdle; AIdle] 0) demo_admission) as (_ & _ & H).
  - vm_compute. split; discriminate.
  - split_and!; [reflexivity|reflexivity|repeat constructor|reflexivity].
  - exact demo_admission_reached.
  - assert (Hs : ASleep ∈ as_threads demo_admission) by (right; left).
    destruct H as (Hc & Hb & Hw); [by apply (bool_decide_unpack _)|]. destruct (Hw eq_refl Hs) as [Ha Ht].
    exact (conj eq_refl (conj Hs (conj Hc (conj Hb (conj Ha Ht))))).
Defined.

(** The test [release_queue_two_threads]: of two threads that give back one
    permit the second to do so panics, here the one that held it. *)

Example two_releases_panic : exists s, areach 1 (mkA 0 None [AHold; AIdle] 0) s /\ as_threads s = [RPanic; AIdle] /\ as_extra s = 1.
Proof.
  exists (mkA 2 None [RPanic; AIdle] 1). split; [|done].
  assert (Hf : forall c th, bool_decide (RPanic ∉ th) = true -> a_free (mkA c None th 1)).
  { intros c th Hb. split; [done|]. exact (bool_decide_eq_true_1 _ Hb). }
  eapply areach_step; [|by apply (r_add_panic 1 0 (mkA 1 (Some 0%nat) [RAdd; AIdle] 1))].
  eapply areach_step; [|apply (r_lock 1 0 (mkA 1 None [RLock; AIdle] 1)); [done|by apply Hf]].
  eapply areach_step; [|by apply (a_release 1 0 (mkA 1 None [AHold; AIdle] 1))].
  eapply areach_step; [|by apply (r_unlock 1 1 (mkA 1 (Some 1%nat) [AHold; RUnlock] 1))].
  eapply areach_step; [|apply (r_notify_nobody 1 1 (mkA 1 (Some 1%nat) [AHold; RNotify] 1)); [done|by apply (bool_decide_unpack _)]].
  eapply areach_step; [|by apply (r_add 1 1 (mkA 0 (Some 1%nat) [AHold; RAdd] 1))].
  eapply areach_step; [|apply (r_lock 1 1 (mkA 0 None [AHold; RLock] 1)); [done|by apply Hf]].
  eapply areach_step; [apply areach_refl|]. by apply (a_release_extra 1 1 (mkA 0 None [AHold; AIdle] 0)).
Qed.
