(* ===== verification/Allocation.v ===== *)
(** * Allocation: what a pool may keep

    The interface [BatchAllocation] of [db/batch.rs], which plain batches and
    indexed ones ([Indexed]) implement, its contract, and the operations of
    [BatchObject<B, P>] for any allocation [P].  The pool and its clients are
    proved against the contract. *)

From S2P Require Import Prelude Records Wal Batch.

(** ** The interface

    [ba_batch] and [ba_set_batch] read and write through the pointer
    [batch_ptr] returns. *)

(* @src crates/engine/src/db/batch.rs:363-367 BatchAllocation *)
Class BatchAllocation (P : Type) := {
  ba_batch : P -> BatchInner;
  ba_set_batch : P -> BatchInner -> P;
  reset_for_reuse : profile -> P -> outcome P
}.

(** Its contract: writing through the pointer changes the batch the allocation
    embeds and keeps the allocation valid; a valid allocation whose batch can
    be cleared can be reset, stays valid, and has that batch cleared. *)

Class AllocationLaws (P : Type) `{!BatchAllocation P} := {
  alloc_ok : P -> Prop;
  batch_of_set : forall x b, ba_batch (ba_set_batch x b) = b;
  set_batch_ok : forall x b, alloc_ok x -> alloc_ok (ba_set_batch x b);
  reset_for_reuse_clears : forall p x b, alloc_ok x -> BatchInner_clear p (ba_batch x) = Done b ->
    exists y, reset_for_reuse p x = Done y /\ ba_batch y = b /\ alloc_ok y
}.

(** ** Plain batches *)

(* @src crates/engine/src/db/batch.rs:430-439 OwnedBatchPtr *)
#[export] Instance OwnedBatchPtr_allocation : BatchAllocation BatchInner := {
  ba_batch := fun x => x;
  ba_set_batch := fun _ b => b;
  reset_for_reuse := BatchInner_clear
}.

#[export] Instance OwnedBatchPtr_laws : AllocationLaws BatchInner.
Proof. refine {| alloc_ok := fun _ => True |}; [done..|]. intros p x b _ E. by exists b. Defined.

(** ** Objects over any allocation *)

Section objects.
Context {P : Type} `{!BatchAllocation P} (p : profile).

(* @src crates/engine/src/db/batch.rs:783-789 BatchObject::state *)
Definition obj_state (x : P) : outcome BatchRuntimeState := BatchRuntimeState_from (bi_state (ba_batch x)).

(* @src crates/engine/src/db/batch.rs:773-781 BatchObject::set_runtime_state *)
Definition obj_set_runtime_state (x : P) (s : BatchRuntimeState) : P := ba_set_batch x (set_runtime_state (ba_batch x) s).

(* @src crates/engine/src/db/batch.rs:936-944 BatchObject::acquire *)
Definition obj_acquire (x : P) : P := obj_set_runtime_state x StAcquired.

(* @src crates/engine/src/db/batch.rs:972-976 BatchObject::shrink_to *)
Definition obj_shrink_to (x : P) (new_size : Z) : P := ba_set_batch x (shrink_batch_to (ba_batch x) new_size).

(* @src crates/engine/src/db/batch.rs:840-847 BatchObject::reset_batch *)
Definition obj_reset_batch (x : P) : outcome P :=
  s ← obj_state x;
  _ ← rust_assert (is_reset_safe s) "self.state(Ordering::Acquire).is_reset_safe()";
  x ← reset_for_reuse p x;
  Done (obj_set_runtime_state x StAcquired).
End objects.

(** ** What a reset leaves

    The batch reset, with its buffer's capacity. *)

Definition recycled (x : BatchInner) (s : BatchRuntimeState) : BatchInner :=
  mkBatchInner [] (bi_cap x) (bi_max_batch_size x) 0 (BatchRuntimeState_as_u8 s) (mkBatchMeta 0 false) CFTable_new
    (bi_waiter x) (bi_waiter_refs x).

Definition reset_safe (x : BatchInner) : bool :=
  match BatchRuntimeState_from (bi_state x) with Done s => is_reset_safe s | _ => false end.

Lemma reset_safe_reset p x :
  reset_safe x = true -> reset_batch p x = Done (recycled x StAcquired).
Proof.
  unfold reset_safe. intros H. destruct (BatchRuntimeState_from (bi_state x)) as [s| | |] eqn:E; [|done..].
  apply (reset_batch_done p x s); [|done]. by apply state_from_inv.
Qed.

(** For a plain batch the generic reset is the one of [Batch]. *)

Lemma obj_reset_owned p (b : BatchInner) : obj_reset_batch p b = reset_batch p b.
Proof. done. Qed.

Section laws.
Context {P : Type} `{!BatchAllocation P, !AllocationLaws P} (p : profile).
Implicit Types x y : P.

Lemma obj_set_state_batch x s : ba_batch (obj_set_runtime_state x s) = set_runtime_state (ba_batch x) s.
Proof. apply batch_of_set. Qed.

Lemma obj_set_state_ok x s : alloc_ok x -> alloc_ok (obj_set_runtime_state x s).
Proof. apply set_batch_ok. Qed.

(** A reset does to the batch what the reset of a plain batch does. *)

Lemma obj_reset_ok x :
  alloc_ok x -> reset_safe (ba_batch x) = true ->
  exists y, obj_reset_batch p x = Done y /\ ba_batch y = recycled (ba_batch x) StAcquired /\ alloc_ok y.
Proof.
  intros Hx Hs. pose proof (reset_safe_reset p _ Hs) as E. unfold reset_batch in E. unfold obj_reset_batch.
  change (obj_state x) with (BatchObject_state (ba_batch x)).
  apply bind_done in E as (s & -> & E). apply bind_done in E as ([] & Ha & E). apply bind_done in E as (b & Eb & E).
  cbn [mbind outcome_bind]. rewrite Ha. destruct (reset_for_reuse_clears p x b Hx Eb) as (y & -> & Hb & Hy).
  cbn [mbind outcome_bind]. eexists. split; [done|]. rewrite obj_set_state_batch, Hb. split; [congruence|].
  by apply obj_set_state_ok.
Qed.

Lemma obj_reset_unsafe x :
  (exists s, obj_state x = Done s /\ is_reset_safe s = false) ->
  obj_reset_batch p x = Panic "self.state(Ordering::Acquire).is_reset_safe()".
Proof. intros (s & E & Hs). unfold obj_reset_batch. rewrite E. cbn [mbind outcome_bind]. by rewrite Hs. Qed.
End laws.
