(* ===== verification/Pool.v ===== *)
(** * Pool: reuse of batch allocations

    Models [db/batch_pool.rs]: a pool of batch allocations, of any type that
    keeps the contract in [Allocation], with a small cache per thread, shards
    shared by the threads, and a factory.  The arrays of possibly uninitialised
    slots with a length are kept as the list of their initialised entries; an
    allocation is a number with its content in a heap, and dropping it removes
    it from the heap.  Operations run one at a time here, and interleaved in
    [PoolThreads]. *)

From S2P Require Import Prelude Records Wal Batch Allocation.

(* @src crates/engine/src/db/batch_pool.rs:14-14 DEFAULT_SHARDS_PER_POOL *)
Definition DEFAULT_SHARDS_PER_POOL : Z := 4.
(* @src crates/engine/src/db/batch_pool.rs:15-15 DEFAULT_MAX_BATCHES_PER_SHARD *)
Definition DEFAULT_MAX_BATCHES_PER_SHARD : Z := 16.
(* @src crates/engine/src/db/batch_pool.rs:16-17 MAX_RETAINED_POOL_BYTES *)
Definition MAX_RETAINED_POOL_BYTES : Z :=
  DEFAULT_MAX_BATCHES_PER_SHARD * DEFAULT_SHARDS_PER_POOL * DEFAULT_BATCH_INIT_SIZE.
(* @src crates/engine/src/db/batch_pool.rs:19-19 DEFAULT_THREAD_BATCH_CACHE_CAPACITY *)
Definition DEFAULT_THREAD_BATCH_CACHE_CAPACITY : Z := 8.
(* @src crates/engine/src/db/batch_pool.rs:20-20 DEFAULT_THREAD_BATCH_CACHE_TARGET_RETAINED *)
Definition DEFAULT_THREAD_BATCH_CACHE_TARGET_RETAINED : Z := DEFAULT_THREAD_BATCH_CACHE_CAPACITY / 2.

(** The constant parameters of a pool. *)

Record pool_cfg := mkPoolCfg {
  cfg_shards : Z;
  cfg_shard_cap : Z;
  cfg_tls_cap : Z;
  cfg_tls_target : Z
}.

(* @src crates/engine/src/db/batch_pool.rs:714-720 BatchPool *)
Definition BatchPool_cfg : pool_cfg :=
  mkPoolCfg DEFAULT_SHARDS_PER_POOL DEFAULT_MAX_BATCHES_PER_SHARD DEFAULT_THREAD_BATCH_CACHE_CAPACITY
    DEFAULT_THREAD_BATCH_CACHE_TARGET_RETAINED.

(** ** Factories

    [P] is the associated type [Allocation] of [F]. *)

(* @src crates/engine/src/db/batch.rs:318-325 BatchFactory *)
Class BatchFactory (F P : Type) := {
  allocate : F -> outcome (Z * P);
  allocate_with_capacity : F -> Z -> outcome (Z * P)
}.

(** What the pool relies on: a factory allocates valid allocations. *)

Class FactoryLaws (F P : Type) `{!BatchAllocation P, !AllocationLaws P, !BatchFactory F P} := {
  allocate_ok : forall (f : F) bytes (x : P), allocate f = Done (bytes, x) -> alloc_ok x
}.

(* @src crates/engine/src/db/batch.rs:327-328 OwnedBatchFactory *)
Inductive OwnedBatchFactory := mkOwnedBatchFactory.

(* @src crates/engine/src/db/batch.rs:330-342 OwnedBatchFactory *)
#[export] Instance OwnedBatchFactory_factory : BatchFactory OwnedBatchFactory BatchInner := {
  allocate := fun _ => let batch := BatchInner_new in Done (len (bi_data batch), batch);
  allocate_with_capacity := fun _ cap =>
    batch ← BatchInner_new_with_capacity cap; Done (len (bi_data batch), batch)
}.

#[export] Instance OwnedBatchFactory_laws : FactoryLaws OwnedBatchFactory BatchInner.
Proof. done. Qed.

(** ** Data *)

(* @src crates/engine/src/db/batch_pool.rs:88-96 ThreadBatchCache *)
Record ThreadBatchCache := mkCache { shard_idx : option Z; c_batches : list nat }.

(* @src crates/engine/src/db/batch_pool.rs:187-190 BatchPoolShardInner *)
Record BatchPoolShard := mkShard { s_batches : list nat }.

(* @src crates/engine/src/db/batch_pool.rs:291-300 BatchPoolStats *)
Record BatchPoolStats := mkStats {
  tls_misses : Z;
  global_batches_reused : Z;
  allocations : Z;
  allocated_bytes : Z;
  batches_dropped : Z
}.

(* @src crates/engine/src/db/batch_pool.rs:317-325 BatchPoolStats::new *)
Definition BatchPoolStats_new : BatchPoolStats := mkStats 0 0 0 0 0.

(* @src crates/engine/src/db/batch_pool.rs:356-364 BatchPoolStats::snapshot *)
Definition BatchPoolStats_snapshot (s : BatchPoolStats) : BatchPoolStats := s.

(** [pl_heap] and [pl_next] are the allocator; [pl_caches] is the thread-local
    pointer of the pool, by thread. *)

(* @src crates/engine/src/db/batch_pool.rs:370-388 BatchPoolImpl *)
Record BatchPoolImpl (F P : Type) := mkPool {
  pl_caches : gmap nat ThreadBatchCache;
  pl_shards : list BatchPoolShard;
  pl_factory : F;
  pl_next_shard : Z;
  pl_stats : BatchPoolStats;
  pl_heap : gmap nat P;
  pl_next : nat
}.

#[global] Arguments mkPool {F P} _ _ _ _ _ _ _.
#[global] Arguments pl_caches {F P} _.
#[global] Arguments pl_shards {F P} _.
#[global] Arguments pl_factory {F P} _.
#[global] Arguments pl_next_shard {F P} _.
#[global] Arguments pl_stats {F P} _.
#[global] Arguments pl_heap {F P} _.
#[global] Arguments pl_next {F P} _.

(** [set_runtime_state] through an owned pointer, and [drop] of the owner. *)

Section storage.
Context {P : Type} `{!BatchAllocation P}.

Definition heap_set_state (hp : gmap nat P) (b : nat) (s : BatchRuntimeState)
  : outcome (gmap nat P) :=
  match hp !! b with
  | Some x => Done (<[b := obj_set_runtime_state x s]> hp)
  | None => UB "access to a freed batch"
  end.

Definition heap_drop (hp : gmap nat P) (b : nat) : outcome (gmap nat P) :=
  match hp !! b with
  | Some _ => Done (delete b hp)
  | None => UB "double free of a batch"
  end.

(** ** Thread caches and shards *)

(* @src crates/engine/src/db/batch_pool.rs:107-118 ThreadBatchCache::new_with_const_size *)
Definition ThreadBatchCache_new (p : profile) (g : pool_cfg) : outcome ThreadBatchCache :=
  _ ← debug_assert p (bool_decide (cfg_tls_cap g > 0)) "CACHE_CAP > 0";
  _ ← debug_assert p (bool_decide (cfg_tls_cap g <= u_max 8)) "CACHE_CAP <= u8::MAX as usize";
  _ ← debug_assert p (bool_decide (cfg_tls_target g > 0)) "TARGET_RETAINED > 0";
  _ ← debug_assert p (bool_decide (cfg_tls_target g <= cfg_tls_cap g)) "TARGET_RETAINED <= CACHE_CAP";
  Done (mkCache None []).

(* @src crates/engine/src/db/batch_pool.rs:120-122 ThreadBatchCache::cache_len *)
Definition cache_len (c : ThreadBatchCache) : Z := len (c_batches c).

(** A push gives the entry back when the storage is full. *)

(* @src crates/engine/src/db/batch_pool.rs:124-144 ThreadBatchCache::push *)
Definition cache_push (p : profile) (g : pool_cfg) (hp : gmap nat P) (c : ThreadBatchCache) (entry : nat)
  : outcome (gmap nat P * ThreadBatchCache * option nat) :=
  _ ← debug_assert p (bool_decide (cache_len c <= cfg_tls_cap g)) "self.len as usize <= CACHE_CAP";
  if decide (cache_len c = cfg_tls_cap g) then Done (hp, c, Some entry)
  else
    hp ← heap_set_state hp entry StIdle;
    Done (hp, mkCache (shard_idx c) (c_batches c ++ [entry]), None).

(* @src crates/engine/src/db/batch_pool.rs:146-159 ThreadBatchCache::pop *)
Definition cache_pop (p : profile) (g : pool_cfg) (c : ThreadBatchCache)
  : outcome (ThreadBatchCache * option nat) :=
  _ ← debug_assert p (bool_decide (cache_len c <= cfg_tls_cap g)) "self.len as usize <= CACHE_CAP";
  Done match vec_pop (c_batches c) with
       | None => (c, None)
       | Some (rest, entry) => (mkCache (shard_idx c) rest, Some entry)
       end.

(* @src crates/engine/src/db/batch_pool.rs:201-214 BatchPoolShardInner::pop *)
Definition shard_pop (p : profile) (g : pool_cfg) (s : BatchPoolShard) : outcome (BatchPoolShard * option nat) :=
  _ ← debug_assert p (bool_decide (len (s_batches s) <= cfg_shard_cap g)) "self.len as usize <= CAP";
  Done match vec_pop (s_batches s) with
       | None => (s, None)
       | Some (rest, entry) => (mkShard rest, Some entry)
       end.

(* @src crates/engine/src/db/batch_pool.rs:217-238 BatchPoolShardInner::push *)
Definition shard_push (p : profile) (g : pool_cfg) (hp : gmap nat P) (s : BatchPoolShard) (batch : nat)
  : outcome (gmap nat P * BatchPoolShard * option nat) :=
  _ ← debug_assert p (bool_decide (len (s_batches s) <= cfg_shard_cap g)) "self.len as usize <= CAP";
  if decide (len (s_batches s) = cfg_shard_cap g) then Done (hp, s, Some batch)
  else
    hp ← heap_set_state hp batch StIdle;
    Done (hp, mkShard (s_batches s ++ [batch]), None).

(** Dropping the batches of a storage that goes away. *)

(* @src crates/engine/src/db/batch_pool.rs:177-184 ThreadBatchCache::unref *)
Fixpoint drop_batches (hp : gmap nat P) (l : list nat) : outcome (gmap nat P) :=
  match l with
  | [] => Done hp
  | b :: l => hp ← heap_drop hp b; drop_batches hp l
  end.

(* @src crates/engine/src/db/batch_pool.rs:241-261 BatchPoolShardInner::drop *)
Definition shard_drop (hp : gmap nat P) (s : BatchPoolShard) : outcome (gmap nat P) :=
  drop_batches hp (reverse (s_batches s)).

(* @src crates/engine/src/db/batch_pool.rs:268-277 BatchPoolShard::new *)
Definition BatchPoolShard_new (p : profile) (g : pool_cfg) : outcome BatchPoolShard :=
  _ ← debug_assert p (bool_decide (cfg_shard_cap g > 0)) "CAP > 0";
  _ ← debug_assert p (bool_decide (cfg_shard_cap g <= u_max 8)) "CAP <= u8::MAX as usize";
  Done (mkShard []).

End storage.

(** ** The pool *)

Section pool.
Context {F P : Type} `{!BatchAllocation P, !BatchFactory F P} (p : profile) (g : pool_cfg).

(* @src crates/engine/src/db/batch_pool.rs:424-433 BatchPoolImpl::with_factory *)
Definition BatchPool_with_factory (factory : F) : outcome (BatchPoolImpl F P) :=
  s ← BatchPoolShard_new p g;
  Done (mkPool ∅ (replicate (Z.to_nat (cfg_shards g)) s) factory 0 BatchPoolStats_new ∅ 0).

Definition pl_set_heap (pl : BatchPoolImpl F P) (hp : gmap nat P) : BatchPoolImpl F P :=
  mkPool (pl_caches pl) (pl_shards pl) (pl_factory pl) (pl_next_shard pl) (pl_stats pl) hp (pl_next pl).

Definition pl_set_shard (pl : BatchPoolImpl F P) (i : Z) (s : BatchPoolShard) : BatchPoolImpl F P :=
  mkPool (pl_caches pl) (<[Z.to_nat i := s]> (pl_shards pl)) (pl_factory pl) (pl_next_shard pl) (pl_stats pl)
    (pl_heap pl) (pl_next pl).

Definition pl_set_cache (pl : BatchPoolImpl F P) (t : nat) (c : ThreadBatchCache) : BatchPoolImpl F P :=
  mkPool (<[t := c]> (pl_caches pl)) (pl_shards pl) (pl_factory pl) (pl_next_shard pl) (pl_stats pl)
    (pl_heap pl) (pl_next pl).

Definition pl_set_stats (pl : BatchPoolImpl F P) (s : BatchPoolStats) : BatchPoolImpl F P :=
  mkPool (pl_caches pl) (pl_shards pl) (pl_factory pl) (pl_next_shard pl) s (pl_heap pl) (pl_next pl).

(** A fresh allocation holding [x]. *)

Definition pl_alloc (pl : BatchPoolImpl F P) (x : P) : BatchPoolImpl F P * nat :=
  (mkPool (pl_caches pl) (pl_shards pl) (pl_factory pl) (pl_next_shard pl) (pl_stats pl)
     (<[pl_next pl := x]> (pl_heap pl)) (S (pl_next pl)), pl_next pl).

(* @src crates/engine/src/db/batch_pool.rs:435-442 BatchPoolImpl::assign_shard_idx *)
Definition assign_shard_idx (pl : BatchPoolImpl F P) (c : ThreadBatchCache)
  : outcome (BatchPoolImpl F P * ThreadBatchCache * Z) :=
  if decide (cfg_shards g = 0) then Panic "attempt to calculate the remainder with a divisor of zero"
  else
    let id := pl_next_shard pl mod cfg_shards g in
    Done (mkPool (pl_caches pl) (pl_shards pl) (pl_factory pl) (wrap usize_bits (pl_next_shard pl + 1))
            (pl_stats pl) (pl_heap pl) (pl_next pl), mkCache (Some id) (c_batches c), id).

(* @src crates/engine/src/db/batch_pool.rs:444-451 BatchPoolImpl::shard_idx_for_cache *)
Definition shard_idx_for_cache (pl : BatchPoolImpl F P) (c : ThreadBatchCache)
  : outcome (BatchPoolImpl F P * ThreadBatchCache * Z) :=
  match shard_idx c with
  | Some id => Done (pl, c, id)
  | None => assign_shard_idx pl c
  end.

Definition get_shard (pl : BatchPoolImpl F P) (i : Z) : outcome BatchPoolShard :=
  match pl_shards pl !! Z.to_nat i with
  | Some s => Done s
  | None => Panic "index out of bounds"
  end.

(* @src crates/engine/src/db/batch_pool.rs:453-462 BatchPoolImpl::push_to_global *)
Definition push_to_global (pl : BatchPoolImpl F P) (idx : Z) (b : nat)
  : outcome (BatchPoolImpl F P * option nat) :=
  s ← get_shard pl idx;
  '(hp, s, back) ← shard_push p g (pl_heap pl) s b;
  Done (pl_set_shard (pl_set_heap pl hp) idx s, back).

(* @src crates/engine/src/db/batch_pool.rs:279-282 BatchPoolShard::pop *)
Definition pop_from_global (pl : BatchPoolImpl F P) (idx : Z) : outcome (BatchPoolImpl F P * option nat) :=
  s ← get_shard pl idx;
  '(s, r) ← shard_pop p g s;
  Done (pl_set_shard pl idx s, r).

(** The calling thread's cache, created at its first use. *)

(* @src crates/engine/src/db/batch_pool.rs:477-484 BatchPoolImpl::thread_local_batch_cache_mut *)
Definition thread_local_batch_cache (pl : BatchPoolImpl F P) (t : nat) : outcome ThreadBatchCache :=
  match pl_caches pl !! t with
  | Some c => Done c
  | None => ThreadBatchCache_new p g
  end.

(** [obj_acquire] on a pointer. *)

Definition acquire_ptr (pl : BatchPoolImpl F P) (b : nat) : outcome (BatchPoolImpl F P) :=
  match pl_heap pl !! b with
  | Some x => Done (pl_set_heap pl (<[b := obj_acquire x]> (pl_heap pl)))
  | None => UB "access to a freed batch"
  end.

(* @src crates/engine/src/db/batch_pool.rs:492-504 BatchPoolImpl::try_acquire_from_tls *)
Definition try_acquire_from_tls (pl : BatchPoolImpl F P) (c : ThreadBatchCache)
  : outcome (BatchPoolImpl F P * ThreadBatchCache * option nat) :=
  '(c, r) ← cache_pop p g c;
  match r with
  | Some b => pl ← acquire_ptr pl b; Done (pl, c, Some b)
  | None => Done (pl, c, None)
  end.

(* @src crates/engine/src/db/batch_pool.rs:530-542 BatchPoolImpl::refill_tls_cache *)
Fixpoint hydrate (fuel : nat) (pl : BatchPoolImpl F P) (c : ThreadBatchCache) (idx reused : Z)
  : outcome (BatchPoolImpl F P * ThreadBatchCache * Z) :=
  match fuel with
  | O => NoFuel
  | S fuel =>
      if decide (cache_len c < cfg_tls_cap g / 2) then
        '(pl, r) ← pop_from_global pl idx;
        match r with
        | Some b =>
            reused ← add_w p 8 reused 1;
            '(hp, c, back) ← cache_push p g (pl_heap pl) c b;
            hp ← match back with Some b => heap_drop hp b | None => Done hp end;
            hydrate fuel (pl_set_heap pl hp) c idx reused
        | None => Done (pl, c, reused)
        end
      else Done (pl, c, reused)
  end.

Definition HYDRATE_FUEL : nat := 256.

(** The statistics of one refill; atomic additions wrap. *)

Definition count_refill (s : BatchPoolStats) (allocated bytes reused : Z) : BatchPoolStats :=
  let add a b := wrap usize_bits (a + b) in
  mkStats (add (tls_misses s) 1)
    (if decide (reused <> 0) then add (global_batches_reused s) reused else global_batches_reused s)
    (if decide (allocated <> 0) then add (allocations s) allocated else allocations s)
    (if decide (allocated <> 0) then add (allocated_bytes s) bytes else allocated_bytes s)
    (batches_dropped s).

(* @src crates/engine/src/db/batch_pool.rs:506-566 BatchPoolImpl::refill_tls_cache *)
Definition refill_tls_cache (pl : BatchPoolImpl F P) (c : ThreadBatchCache)
  : outcome (BatchPoolImpl F P * ThreadBatchCache * nat) :=
  '(pl, c, idx) ← shard_idx_for_cache pl c;
  '(pl, r) ← pop_from_global pl idx;
  '(pl, allocated, reused, bytes_allocated, returnable_batch) ←
    (match r with
     | Some batch => Done (pl, 0, 1, 0, batch)
     | None =>
         '(bytes, x) ← allocate (pl_factory pl);
         let '(pl, batch) := pl_alloc pl x in
         Done (pl, 1, 0, bytes, batch)
     end);
  '(pl, c, reused) ← hydrate HYDRATE_FUEL pl c idx reused;
  let pl := pl_set_stats pl (count_refill (pl_stats pl) allocated bytes_allocated reused) in
  pl ← acquire_ptr pl returnable_batch;
  Done (pl, c, returnable_batch).

(** [f] runs on the calling thread's cache. *)

(* @src crates/engine/src/db/batch_pool.rs:464-490 BatchPoolImpl::thread_local_batch_cache_mut *)
Definition thread_local_batch_cache_mut {R} (pl : BatchPoolImpl F P) (t : nat)
    (f : BatchPoolImpl F P -> ThreadBatchCache -> outcome (BatchPoolImpl F P * ThreadBatchCache * R))
  : outcome (BatchPoolImpl F P * R) :=
  c ← thread_local_batch_cache pl t;
  '(pl, c, r) ← f pl c;
  Done (pl_set_cache pl t c, r).

(* @src crates/engine/src/db/batch_pool.rs:570-571 BatchPoolImpl::acquire_object *)
Definition acquire_in (pl : BatchPoolImpl F P) (c : ThreadBatchCache)
  : outcome (BatchPoolImpl F P * ThreadBatchCache * nat) :=
  '(pl, c, r) ← try_acquire_from_tls pl c;
  match r with
  | Some b => Done (pl, c, b)
  | None => refill_tls_cache pl c
  end.

(* @src crates/engine/src/db/batch_pool.rs:568-573 BatchPoolImpl::acquire_object *)
Definition acquire_object (pl : BatchPoolImpl F P) (t : nat) : outcome (BatchPoolImpl F P * nat) :=
  thread_local_batch_cache_mut pl t acquire_in.

(** The batch comes back acquired when the cache is full. *)

(* @src crates/engine/src/db/batch_pool.rs:577-587 BatchPoolImpl::try_return_to_cache *)
Definition try_return_to_cache (pl : BatchPoolImpl F P) (c : ThreadBatchCache) (batch : nat)
  : outcome (BatchPoolImpl F P * ThreadBatchCache * option nat) :=
  '(hp, c, back) ← cache_push p g (pl_heap pl) c batch;
  let pl := pl_set_heap pl hp in
  match back with
  | None => Done (pl, c, None)
  | Some b => pl ← acquire_ptr pl b; Done (pl, c, Some b)
  end.

(* @src crates/engine/src/db/batch_pool.rs:161-166 ThreadBatchCache::spill_cache_to_target_retained *)
Fixpoint spill_cache (fuel : nat) (pl : BatchPoolImpl F P) (c : ThreadBatchCache) (idx : Z)
  : outcome (BatchPoolImpl F P * ThreadBatchCache) :=
  match fuel with
  | O => NoFuel
  | S fuel =>
      if decide (cfg_tls_target g <= cache_len c) then
        '(c, r) ← cache_pop p g c;
        match r with
        | None => Panic "cache length was above target retained"
        | Some b =>
            '(pl, back) ← push_to_global pl idx b;
            pl ← match back with
                 | Some b => hp ← heap_drop (pl_heap pl) b; Done (pl_set_heap pl hp)
                 | None => Done pl
                 end;
            spill_cache fuel pl c idx
        end
      else Done (pl, c)
  end.

Definition SPILL_FUEL : nat := 256.

(** The batch is reset, and shrunk if it is large. *)

(* @src crates/engine/src/db/batch_pool.rs:590-605 BatchPoolImpl::release *)
Definition release_reset (pl : BatchPoolImpl F P) (batch : nat) : outcome (BatchPoolImpl F P) :=
  match pl_heap pl !! batch with
  | None => UB "access to a freed batch"
  | Some x =>
      x ← obj_reset_batch p x;
      let len := get_batch_size (ba_batch x) in
      let x := if decide (DEFAULT_BATCH_INIT_SIZE * 2 <= len)
               then obj_shrink_to x DEFAULT_BATCH_INIT_SIZE else x in
      Done (pl_set_heap pl (<[batch := x]> (pl_heap pl)))
  end.

(* @src crates/engine/src/db/batch_pool.rs:607-632 BatchPoolImpl::release *)
Definition release_in (batch : nat) (pl : BatchPoolImpl F P) (c : ThreadBatchCache)
  : outcome (BatchPoolImpl F P * ThreadBatchCache * unit) :=
  '(hp, c, back) ← cache_push p g (pl_heap pl) c batch;
  match back with
  | None => Done (pl_set_heap pl hp, c, tt)
  | Some batch =>
      '(pl, c, idx) ← shard_idx_for_cache pl c;
      '(pl, c) ← spill_cache SPILL_FUEL pl c idx;
      '(hp, c, back) ← cache_push p g (pl_heap pl) c batch;
      match back with
      | None => Done (pl_set_heap pl hp, c, tt)
      | Some _ => Panic "internal error: entered unreachable code: spilling TLS cache must leave room for released batch"
      end
  end.

(* @src crates/engine/src/db/batch_pool.rs:589-633 BatchPoolImpl::release *)
Definition BatchPool_release (pl : BatchPoolImpl F P) (t : nat) (batch : nat) : outcome (BatchPoolImpl F P) :=
  pl ← release_reset pl batch;
  '(pl, _) ← thread_local_batch_cache_mut pl t (release_in batch);
  Done pl.

(** The unreference handler, at thread exit. *)

(* @src crates/engine/src/db/batch_pool.rs:170-185 ThreadBatchCache::handler *)
Definition thread_exit (pl : BatchPoolImpl F P) (t : nat) : outcome (BatchPoolImpl F P) :=
  match pl_caches pl !! t with
  | None => Done pl
  | Some c =>
      hp ← drop_batches (pl_heap pl) (c_batches c);
      Done (mkPool (delete t (pl_caches pl)) (pl_shards pl) (pl_factory pl) (pl_next_shard pl) (pl_stats pl)
              hp (pl_next pl))
  end.

(** The pool goes away: the caches of all threads, with its thread-local
    column, then the shards. *)

(* @src crates/engine/src/db/batch_pool.rs:659-693 BatchPoolImpl::drop *)
Definition BatchPool_drop (pl : BatchPoolImpl F P) : outcome (gmap nat P) :=
  hp ← drop_batches (pl_heap pl) (map_to_list (pl_caches pl) ≫= fun e => c_batches e.2);
  foldl (fun hp s => hp ← hp; shard_drop hp s) (Done hp) (pl_shards pl).

(* @src crates/engine/src/db/batch_pool.rs:639-641 BatchPoolImpl::snapshot_stats *)
Definition snapshot_stats (pl : BatchPoolImpl F P) : BatchPoolStats := BatchPoolStats_snapshot (pl_stats pl).
End pool.

(** What the handles of batches know of a pool. *)

(* @src crates/engine/src/db/batch_pool.rs:736-740 BatchPoolHandle *)
Class BatchPoolHandle (PL : Type) := {
  handle_release : profile -> pool_cfg -> PL -> nat -> nat -> outcome PL
}.

(* @src crates/engine/src/db/batch_pool.rs:744-758 BatchPoolImpl *)
#[export] Instance BatchPoolImpl_handle {F P} `{!BatchAllocation P} : BatchPoolHandle (BatchPoolImpl F P) := {
  handle_release := BatchPool_release
}.

(** The operations with their closures inlined. *)

Lemma acquire_object_eq {F P} `{!BatchAllocation P, !BatchFactory F P} p g (pl : BatchPoolImpl F P) t :
  acquire_object p g pl t =
  (c ← thread_local_batch_cache p g pl t;
   '(pl, c, r) ← try_acquire_from_tls p g pl c;
   match r with
   | Some b => Done (pl_set_cache pl t c, b)
   | None => '(pl, c, b) ← refill_tls_cache p g pl c; Done (pl_set_cache pl t c, b)
   end).
Proof.
  unfold acquire_object, thread_local_batch_cache_mut, acquire_in.
  destruct (thread_local_batch_cache p g pl t) as [c| | |]; [|done..]. cbn [mbind outcome_bind].
  by destruct (try_acquire_from_tls p g pl c) as [[[pl1 c1] [b|]]| | |].
Qed.

Lemma BatchPool_release_eq {F P} `{!BatchAllocation P} p g (pl : BatchPoolImpl F P) t batch :
  BatchPool_release p g pl t batch =
  (pl ← release_reset p pl batch;
   c ← thread_local_batch_cache p g pl t;
   '(hp, c, back) ← cache_push p g (pl_heap pl) c batch;
   match back with
   | None => Done (pl_set_cache (pl_set_heap pl hp) t c)
   | Some batch =>
       '(pl, c, idx) ← shard_idx_for_cache g pl c;
       '(pl, c) ← spill_cache p g SPILL_FUEL pl c idx;
       '(hp, c, back) ← cache_push p g (pl_heap pl) c batch;
       match back with
       | None => Done (pl_set_cache (pl_set_heap pl hp) t c)
       | Some _ => Panic "internal error: entered unreachable code: spilling TLS cache must leave room for released batch"
       end
   end).
Proof.
  unfold BatchPool_release, thread_local_batch_cache_mut, release_in.
  destruct (release_reset p pl batch) as [pl1| | |]; [|done..]. cbn [mbind outcome_bind].
  destruct (thread_local_batch_cache p g pl1 t) as [c| | |]; [|done..]. cbn [mbind outcome_bind].
  destruct (cache_push _ _ _ _ _) as [[[hp c1] [b|]]| | |]; [|done..]. cbn [mbind outcome_bind].
  destruct (shard_idx_for_cache _ _ _) as [[[pl2 c2] idx]| | |]; [|done..]. cbn [mbind outcome_bind].
  destruct (spill_cache _ _ _ _ _ _) as [[pl3 c3]| | |]; [|done..]. cbn [mbind outcome_bind].
  by destruct (cache_push _ _ _ _ _) as [[[hp2 c4] [b2|]]| | |].
Qed.

(** ** Ownership

    [held] are the batches owned by callers or in flight; thread [t] is working
    with its cache [c].  Every live allocation is in exactly one place. *)

Definition empty_cache : ThreadBatchCache := mkCache None [].

Section ownership.
Context {F P : Type} `{!BatchAllocation P, !AllocationLaws P}.

Definition others (pl : BatchPoolImpl F P) (t : nat) : list nat :=
  map_to_list (delete t (pl_caches pl)) ≫= fun e => c_batches e.2.

Definition sharded (pl : BatchPoolImpl F P) : list nat := pl_shards pl ≫= s_batches.

Definition places (pl : BatchPoolImpl F P) (t : nat) (c : ThreadBatchCache) : list nat :=
  c_batches c ++ others pl t ++ sharded pl.

Definition stored (pl : BatchPoolImpl F P) : list nat :=
  (map_to_list (pl_caches pl) ≫= fun e => c_batches e.2) ++ sharded pl.

Definition cfg_ok (g : pool_cfg) : Prop :=
  0 < cfg_shards g /\ 0 < cfg_shard_cap g <= 255 /\ 0 < cfg_tls_cap g <= 255 /\
  0 < cfg_tls_target g <= cfg_tls_cap g.

Definition cache_ok (g : pool_cfg) (c : ThreadBatchCache) : Prop :=
  cache_len c <= cfg_tls_cap g /\ forall i, shard_idx c = Some i -> 0 <= i < cfg_shards g.

Definition is_idle (hp : gmap nat P) (b : nat) : Prop :=
  exists x, hp !! b = Some x /\ bi_state (ba_batch x) = BatchRuntimeState_as_u8 StIdle.

Record bounds_ok (g : pool_cfg) (pl : BatchPoolImpl F P) : Prop := mkBoundsOk {
  bd_caches : map_Forall (fun _ => cache_ok g) (pl_caches pl);
  bd_shards : len (pl_shards pl) = cfg_shards g;
  bd_caps : Forall (fun s => len (s_batches s) <= cfg_shard_cap g) (pl_shards pl);
  bd_next : 0 <= pl_next_shard pl
}.

Record owns_ok (pl : BatchPoolImpl F P) (held placed : list nat) : Prop := mkOwnsOk {
  ow_nodup : NoDup (held ++ placed);
  ow_dom : forall b, is_Some (pl_heap pl !! b) <-> b ∈ held ++ placed;
  ow_idle : Forall (is_idle (pl_heap pl)) placed;
  ow_fresh : Forall (fun b => (b < pl_next pl)%nat) (held ++ placed);
  ow_alloc : map_Forall (fun _ => alloc_ok) (pl_heap pl)
}.

Definition pool_ok (g : pool_cfg) (pl : BatchPoolImpl F P) (t : nat) (c : ThreadBatchCache) (held : list nat) : Prop :=
  bounds_ok g pl /\ cache_ok g c /\ owns_ok pl held (places pl t c).

(** Moving batches between holders and storage. *)

Lemma owns_move (pl pl' : BatchPoolImpl F P) held held' placed placed' :
  owns_ok pl held placed -> held' ++ placed' ≡ₚ held ++ placed -> pl_next pl' = pl_next pl ->
  (forall b, is_Some (pl_heap pl' !! b) <-> is_Some (pl_heap pl !! b)) ->
  map_Forall (fun _ => alloc_ok) (pl_heap pl') ->
  Forall (is_idle (pl_heap pl')) placed' -> owns_ok pl' held' placed'.
Proof.
  intros [Hn Hd Hi Hf _] Hp Hnx Hdom Hok Hidle. constructor; [by rewrite Hp| |done|by rewrite Hp, Hnx|done].
  intros b. by rewrite Hp, Hdom.
Qed.

Lemma owns_perm (pl pl' : BatchPoolImpl F P) held placed placed' :
  owns_ok pl held placed -> placed' ≡ₚ placed -> pl_next pl' = pl_next pl -> pl_heap pl' = pl_heap pl ->
  owns_ok pl' held placed'.
Proof.
  intros H Hp Hn Hh. apply (owns_move pl pl' held held placed placed' H); [by rewrite Hp|done|by rewrite Hh|by rewrite Hh; apply H|].
  rewrite Hh, Hp. apply H.
Qed.

Lemma owns_held_perm (pl : BatchPoolImpl F P) held held' placed :
  held' ≡ₚ held -> owns_ok pl held placed -> owns_ok pl held' placed.
Proof. intros Hp H. apply (owns_move pl pl held held' placed placed H); [by rewrite Hp|done|done|apply H..]. Qed.

(** A batch leaves storage. *)

Lemma owns_take (pl pl' : BatchPoolImpl F P) held placed placed' b :
  owns_ok pl held placed -> placed ≡ₚ b :: placed' -> pl_next pl' = pl_next pl -> pl_heap pl' = pl_heap pl ->
  owns_ok pl' (b :: held) placed'.
Proof.
  intros H Hp Hn Hh. apply (owns_move pl pl' held (b :: held) placed placed' H); [|done|by rewrite Hh|by rewrite Hh; apply H|].
  - rewrite Hp. simpl. by rewrite Permutation_middle.
  - rewrite Hh. pose proof (ow_idle _ _ _ H) as Hi. rewrite Hp in Hi. by inversion Hi.
Qed.

(** A held batch changes. *)

Lemma owns_update (pl pl' : BatchPoolImpl F P) held placed b x :
  owns_ok pl held placed -> b ∈ held -> alloc_ok x -> pl_next pl' = pl_next pl -> pl_heap pl' = <[b := x]> (pl_heap pl) ->
  owns_ok pl' held placed.
Proof.
  intros H Hb Hx Hn Hh. apply (owns_move pl pl' held held placed placed H); [done|done| | |].
  - intros b'. rewrite Hh. destruct (decide (b' = b)) as [->|Hne]; [|by rewrite lookup_insert_ne].
    rewrite lookup_insert_eq. split; [|done]. intros _. apply (ow_dom _ _ _ H). apply elem_of_app. by left.
  - rewrite Hh. apply map_Forall_insert_2; [done|apply H].
  - rewrite Hh. apply Forall_forall. intros b' Hb'. pose proof (proj1 (Forall_forall _ _) (ow_idle _ _ _ H) _ Hb') as (y & Hy & Hs).
    exists y. split; [|done]. rewrite lookup_insert_ne; [done|]. intros ->.
    pose proof (ow_nodup _ _ _ H) as Hnd. apply NoDup_app in Hnd as (_ & Hdis & _). by apply (Hdis b').
Qed.

(** A held batch goes to storage, idle. *)

Lemma owns_put (pl pl' : BatchPoolImpl F P) held placed placed' b x :
  owns_ok pl (b :: held) placed -> pl_heap pl !! b = Some x -> placed' ≡ₚ b :: placed -> pl_next pl' = pl_next pl ->
  pl_heap pl' = <[b := obj_set_runtime_state x StIdle]> (pl_heap pl) -> owns_ok pl' held placed'.
Proof.
  intros H Hx Hp Hn Hh. assert (Hok : alloc_ok (obj_set_runtime_state x StIdle)) by (apply obj_set_state_ok, (ow_alloc _ _ _ H b x Hx)).
  pose proof (owns_update pl pl' (b :: held) placed b _ H ltac:(by left) Hok Hn Hh) as H'.
  apply (owns_move pl' pl' (b :: held) held placed placed' H'); [|done|done|apply H'|].
  - rewrite Hp. by rewrite <- Permutation_middle.
  - rewrite Hp. constructor; [|apply H']. eexists. rewrite Hh, lookup_insert_eq. split; [done|]. by rewrite obj_set_state_batch.
Qed.

(** A held batch is freed. *)

Lemma owns_drop (pl pl' : BatchPoolImpl F P) held placed b :
  owns_ok pl (b :: held) placed -> pl_next pl' = pl_next pl -> pl_heap pl' = delete b (pl_heap pl) ->
  owns_ok pl' held placed.
Proof.
  intros [Hn Hd Hi Hf Hok] Hnx Hh. simpl in *. apply NoDup_cons in Hn as [Hb Hn]. constructor; [done| | | |].
  - intros b'. rewrite Hh. destruct (decide (b' = b)) as [->|Hne].
    + rewrite lookup_delete_eq. split; [by intros [? ?]|done].
    + rewrite lookup_delete_ne, Hd, elem_of_cons by done. split; [by intros [?|?]|by right].
  - rewrite Hh. apply Forall_forall. intros b' Hb'. pose proof (proj1 (Forall_forall _ _) Hi _ Hb') as (y & Hy & Hs).
    exists y. split; [|done]. rewrite lookup_delete_ne; [done|]. intros ->. apply Hb, elem_of_app. by right.
  - rewrite Hnx. by inversion Hf.
  - rewrite Hh. by apply map_Forall_delete.
Qed.

(** A fresh allocation. *)

Lemma owns_alloc (pl : BatchPoolImpl F P) held placed x :
  owns_ok pl held placed -> alloc_ok x -> owns_ok (fst (pl_alloc pl x)) (pl_next pl :: held) placed.
Proof.
  intros [Hn Hd Hi Hf Hok] Hx. assert (Hnew : pl_next pl ∉ held ++ placed).
  { intros Hin. exact (Nat.lt_irrefl _ (proj1 (Forall_forall _ _) Hf _ Hin)). }
  constructor; simpl.
  - by apply NoDup_cons.
  - intros b. destruct (decide (b = pl_next pl)) as [->|Hne].
    + rewrite lookup_insert_eq. split; [by left|by eexists].
    + rewrite lookup_insert_ne, Hd, elem_of_cons by done. split; [by right|by intros [?|?]].
  - apply Forall_forall. intros b Hb. pose proof (proj1 (Forall_forall _ _) Hi _ Hb) as (y & Hy & Hs).
    exists y. split; [|done]. rewrite lookup_insert_ne; [done|]. intros <-. apply Hnew, elem_of_app. by right.
  - constructor; [lia|]. apply (Forall_impl _ _ _ Hf). intros b Hb. lia.
  - by apply map_Forall_insert_2.
Qed.

(** ** Storage lemmas *)

(** The batches [held] are not touched. *)

Definition frames (held : list nat) (pl' pl : BatchPoolImpl F P) : Prop :=
  forall b, b ∈ held -> pl_heap pl' !! b = pl_heap pl !! b.

Definition cache_of (pl : BatchPoolImpl F P) (t : nat) : ThreadBatchCache :=
  default empty_cache (pl_caches pl !! t).

Lemma stored_places (pl : BatchPoolImpl F P) t : stored pl ≡ₚ places pl t (cache_of pl t).
Proof.
  unfold stored, places, others, cache_of. rewrite app_assoc. apply Permutation_app_tail.
  destruct (pl_caches pl !! t) as [c|] eqn:E; cbn [default].
  - by rewrite <- (map_to_list_delete _ _ _ E).
  - by rewrite delete_id.
Qed.

Lemma places_cache_set (pl : BatchPoolImpl F P) t c : places (pl_set_cache pl t c) t c = places pl t c.
Proof. unfold places, others, sharded. cbn [pl_set_cache pl_caches pl_shards]. by rewrite delete_insert_eq. Qed.

Lemma sharded_insert (l : list BatchPoolShard) (i : nat) s s' :
  l !! i = Some s -> (<[i := s']> l ≫= s_batches) ++ s_batches s ≡ₚ (l ≫= s_batches) ++ s_batches s'.
Proof.
  intros E. rewrite <- (take_drop_middle l i s E) at 2. rewrite insert_take_drop by (by eapply lookup_lt_Some).
  rewrite !bind_app. cbn. solve_Permutation.
Qed.

Lemma sharded_take (pl : BatchPoolImpl F P) i s r x :
  pl_shards pl !! Z.to_nat i = Some s -> s_batches s = r ++ [x] ->
  sharded pl ≡ₚ x :: sharded (pl_set_shard pl i (mkShard r)).
Proof.
  intros E Hs. unfold sharded. cbn [pl_set_shard pl_shards]. pose proof (sharded_insert _ _ _ (mkShard r) E) as Hp.
  rewrite Hs in Hp. cbn [s_batches] in Hp. apply (Permutation_app_inv_r r). rewrite <- Hp. solve_Permutation.
Qed.

Lemma sharded_put (pl : BatchPoolImpl F P) i s x :
  pl_shards pl !! Z.to_nat i = Some s ->
  sharded (pl_set_shard pl i (mkShard (s_batches s ++ [x]))) ≡ₚ x :: sharded pl.
Proof.
  intros E. unfold sharded. cbn [pl_set_shard pl_shards].
  pose proof (sharded_insert _ _ _ (mkShard (s_batches s ++ [x])) E) as Hp. cbn [s_batches] in Hp.
  apply (Permutation_app_inv_r (s_batches s)). rewrite Hp. solve_Permutation.
Qed.

Lemma sharded_same (pl : BatchPoolImpl F P) i s :
  pl_shards pl !! Z.to_nat i = Some s -> pl_set_shard pl i s = pl.
Proof. intros E. unfold pl_set_shard. rewrite list_insert_id by done. by destruct pl. Qed.

Lemma bounds_shard g (pl : BatchPoolImpl F P) i s :
  bounds_ok g pl -> len (s_batches s) <= cfg_shard_cap g -> bounds_ok g (pl_set_shard pl i s).
Proof.
  intros [] Hs. constructor; cbn; try done; [unfold len in *; by rewrite length_insert|by apply Forall_insert].
Qed.

Lemma bounds_get_shard g (pl : BatchPoolImpl F P) i :
  bounds_ok g pl -> 0 <= i < cfg_shards g -> exists s, pl_shards pl !! Z.to_nat i = Some s /\ get_shard pl i = Done s /\
    len (s_batches s) <= cfg_shard_cap g.
Proof.
  intros H Hi. pose proof (bd_shards _ _ H) as Hl. unfold get_shard, len in *.
  destruct (lookup_lt_is_Some_2 (pl_shards pl) (Z.to_nat i)) as [s Hs]; [lia|]. exists s. rewrite Hs.
  split; [done|]. split; [done|]. apply (Forall_lookup_1 _ _ _ _ (bd_caps _ _ H) Hs).
Qed.

End ownership.

(** What an operation on storage leaves alone. *)

Abbreviation keeps pl' pl := (pl_caches pl' = pl_caches pl /\ pl_factory pl' = pl_factory pl).

Section pool_steps.
Context {F P : Type} `{!BatchAllocation P, !AllocationLaws P, !BatchFactory F P, FL : !FactoryLaws F P} (p : profile) (g : pool_cfg) (Hg : cfg_ok g).

Lemma cache_pop_done c :
  cache_ok g c -> cache_pop p g c = Done match vec_pop (c_batches c) with
    | None => (c, None)
    | Some (rest, entry) => (mkCache (shard_idx c) rest, Some entry)
    end.
Proof. intros [Hc _]. unfold cache_pop. by rewrite debug_assert_true by (by apply bool_decide_true). Qed.

(** Popping the cache. *)

Lemma cache_pop_ok (pl : BatchPoolImpl F P) t c held :
  pool_ok g pl t c held ->
  (c_batches c = [] /\ cache_pop p g c = Done (c, None)) \/
  exists b c', cache_pop p g c = Done (c', Some b) /\ pool_ok g pl t c' (b :: held) /\
    c_batches c = c_batches c' ++ [b] /\ shard_idx c' = shard_idx c.
Proof.
  intros (Hb & Hc & Ho). rewrite (cache_pop_done c Hc). destruct (vec_pop (c_batches c)) as [[r x]|] eqn:E.
  - apply vec_pop_Some in E. right. exists x, (mkCache (shard_idx c) r). split; [done|].
    split; [|split; [exact E|done]]. split; [done|]. split.
    + destruct Hc as [Hl Hi]. split; [|done]. unfold cache_len, len in *. rewrite E, length_app in Hl. cbn in *. lia.
    + apply (owns_take pl pl held (places pl t c) _ x Ho); [|done|done]. unfold places. rewrite E. cbn [c_batches].
      solve_Permutation.
  - left. by apply vec_pop_None in E.
Qed.

(** Pushing to a cache with room. *)

Lemma cache_push_ok (pl : BatchPoolImpl F P) t c held b :
  pool_ok g pl t c (b :: held) -> cache_len c < cfg_tls_cap g ->
  exists x, pl_heap pl !! b = Some x /\
  let hp := <[b := obj_set_runtime_state x StIdle]> (pl_heap pl) in
  let c' := mkCache (shard_idx c) (c_batches c ++ [b]) in
  cache_push p g (pl_heap pl) c b = Done (hp, c', None) /\ pool_ok g (pl_set_heap pl hp) t c' held.
Proof.
  intros (Hb & [Hl Hi] & Ho) Hroom. destruct (proj2 (ow_dom _ _ _ Ho b) ltac:(by left)) as [x Hx].
  exists x. split; [done|]. cbv zeta. split.
  - unfold cache_push. rewrite debug_assert_true by (apply bool_decide_true; lia). cbn [mbind outcome_bind].
    rewrite decide_False by lia. unfold heap_set_state. by rewrite Hx.
  - split; [by destruct Hb|]. split.
    + split; [|done]. unfold cache_len in *. cbn. autorewrite with lens. lia.
    + apply (owns_put pl _ held (places pl t c) _ b x Ho Hx); [|done|done].
      unfold places, others, sharded. cbn [pl_set_heap pl_caches pl_shards c_batches]. solve_Permutation.
Qed.

Lemma cache_push_full hp c b :
  cache_ok g c -> cache_len c = cfg_tls_cap g -> cache_push p g hp c b = Done (hp, c, Some b).
Proof.
  intros [Hl _] Hf. unfold cache_push. rewrite debug_assert_true by (by apply bool_decide_true). cbn [mbind outcome_bind].
  by rewrite decide_True.
Qed.

(** Shards. *)

Lemma pop_global_ok (pl : BatchPoolImpl F P) t c held idx :
  pool_ok g pl t c held -> 0 <= idx < cfg_shards g ->
  pop_from_global p g pl idx = Done (pl, None) \/
  exists pl' b, pop_from_global p g pl idx = Done (pl', Some b) /\ pool_ok g pl' t c (b :: held) /\
    keeps pl' pl /\ pl_heap pl' = pl_heap pl.
Proof.
  intros (Hb & Hc & Ho) Hi. destruct (bounds_get_shard g pl idx Hb Hi) as (s & Hs & Hget & Hl).
  unfold pop_from_global, shard_pop. rewrite Hget. cbn [mbind outcome_bind].
  rewrite debug_assert_true by (by apply bool_decide_true). cbn [mbind outcome_bind].
  destruct (vec_pop (s_batches s)) as [[r x]|] eqn:E.
  - apply vec_pop_Some in E. right. eexists _, x. split; [done|]. split; [|done].
    split; [apply bounds_shard; [done|]; cbn; unfold len in *; rewrite E, length_app in Hl; cbn in Hl; lia|]. split; [done|].
    apply (owns_take pl _ held (places pl t c) _ x Ho); [|done|done]. unfold places.
    rewrite (sharded_take pl idx s r x Hs E). unfold others. cbn [pl_set_shard pl_caches]. solve_Permutation.
  - left. cbn. by rewrite (sharded_same pl idx s).
Qed.

Lemma push_global_ok (pl : BatchPoolImpl F P) t c held idx b :
  pool_ok g pl t c (b :: held) -> 0 <= idx < cfg_shards g ->
  exists pl' back, push_to_global p g pl idx b = Done (pl', back) /\ keeps pl' pl /\
    (forall b', b' <> b -> pl_heap pl' !! b' = pl_heap pl !! b') /\
    match back with
    | None => pool_ok g pl' t c held
    | Some b' => b' = b /\ pl' = pl
    end.
Proof.
  intros (Hb & Hc & Ho) Hi. destruct (bounds_get_shard g pl idx Hb Hi) as (s & Hs & Hget & Hl).
  unfold push_to_global, shard_push. rewrite Hget. cbn [mbind outcome_bind].
  rewrite debug_assert_true by (by apply bool_decide_true). cbn [mbind outcome_bind].
  case_decide as Hfull; cbn [mbind outcome_bind].
  - eexists _, (Some b). split; [done|]. split; [done|]. split; [done|]. split; [done|].
    rewrite (sharded_same (pl_set_heap pl (pl_heap pl)) idx s) by done. by destruct pl.
  - destruct (proj2 (ow_dom _ _ _ Ho b) ltac:(by left)) as [x Hx]. unfold heap_set_state. rewrite Hx.
    cbn [mbind outcome_bind]. eexists _, None. split; [done|]. split; [done|].
    split; [by intros b' Hne; apply lookup_insert_ne|]. split; [apply bounds_shard; [by destruct Hb|]; cbn; autorewrite with lens; lia|]. split; [done|].
    apply (owns_put pl _ held (places pl t c) _ b x Ho Hx); [|done|done].
    unfold places. rewrite (sharded_put (pl_set_heap pl _) idx s b) by done. unfold others, sharded.
    cbn [pl_set_shard pl_set_heap pl_caches pl_shards]. solve_Permutation.
Qed.

Lemma shard_idx_ok (pl : BatchPoolImpl F P) t c held :
  pool_ok g pl t c held ->
  exists pl' c' idx, shard_idx_for_cache g pl c = Done (pl', c', idx) /\ pool_ok g pl' t c' held /\
    0 <= idx < cfg_shards g /\ c_batches c' = c_batches c /\ shard_idx c' = Some idx /\
    keeps pl' pl /\ pl_heap pl' = pl_heap pl.
Proof using Hg.
  intros (Hb & [Hl Hi] & Ho). destruct Hg as (Hs & _). unfold shard_idx_for_cache.
  destruct (shard_idx c) as [i|] eqn:E.
  - exists pl, c, i. split; [done|]. split; [split; [done|]; split; [split; [done|by rewrite E]|done]|].
    split; [by apply Hi|]. by rewrite E.
  - unfold assign_shard_idx. rewrite decide_False by lia. eexists _, _, _. split; [done|].
    pose proof (Z.mod_pos_bound (pl_next_shard pl) (cfg_shards g) Hs) as Hm.
    split; [|done]. split; [|split].
    + destruct Hb. constructor; try done. cbn. apply wrap_in_width. done.
    + split; [done|]. cbn. by intros j [= <-].
    + by apply (owns_perm pl _ held (places pl t c)).
Qed.

Lemma pool_update (pl : BatchPoolImpl F P) t c held b x :
  pool_ok g pl t c held -> b ∈ held -> alloc_ok x -> pool_ok g (pl_set_heap pl (<[b := x]> (pl_heap pl))) t c held.
Proof.
  intros (Hb & Hc & Ho) Hin Hx. split; [by destruct Hb|]. split; [done|].
  by apply (owns_update pl _ held (places pl t c) b x Ho).
Qed.

Lemma pool_held (pl : BatchPoolImpl F P) t c held b : pool_ok g pl t c held -> b ∈ held -> is_Some (pl_heap pl !! b).
Proof. intros (_ & _ & Ho) Hb. apply (ow_dom _ _ _ Ho). apply elem_of_app. by left. Qed.

Lemma pool_heap_ok (pl : BatchPoolImpl F P) t c held : pool_ok g pl t c held -> map_Forall (fun _ => alloc_ok) (pl_heap pl).
Proof. intros (_ & _ & Ho). apply Ho. Qed.

Lemma pool_held_new (pl : BatchPoolImpl F P) t c held b : pool_ok g pl t c (b :: held) -> b ∉ held.
Proof.
  intros (_ & _ & Ho) Hb. pose proof (ow_nodup _ _ _ Ho) as Hn. cbn in Hn. apply NoDup_cons in Hn as [Hn _].
  apply Hn, elem_of_app. by left.
Qed.

Lemma acquire_ptr_ok (pl : BatchPoolImpl F P) t c held b :
  pool_ok g pl t c held -> b ∈ held ->
  exists x, pl_heap pl !! b = Some x /\
    acquire_ptr pl b = Done (pl_set_heap pl (<[b := obj_acquire x]> (pl_heap pl))) /\
    pool_ok g (pl_set_heap pl (<[b := obj_acquire x]> (pl_heap pl))) t c held.
Proof.
  intros H Hb. destruct (pool_held pl t c held b H Hb) as [x Hx]. exists x. split; [done|].
  unfold acquire_ptr. rewrite Hx. split; [done|]. apply pool_update; [done|done|]. by apply obj_set_state_ok, (pool_heap_ok pl t c held H b).
Qed.

(** Returning a batch to the cache alone: it is stored if there is room, and
    stays the caller's, acquired, if not. *)

Lemma try_return_ok (pl : BatchPoolImpl F P) t c held b :
  pool_ok g pl t c (b :: held) ->
  exists pl' c' back, try_return_to_cache p g pl c b = Done (pl', c', back) /\
    match back with
    | None => cache_len c < cfg_tls_cap g /\ pool_ok g pl' t c' held /\ c_batches c' = c_batches c ++ [b]
    | Some b' => b' = b /\ cache_len c = cfg_tls_cap g /\ c' = c /\ pool_ok g pl' t c (b :: held)
    end.
Proof.
  intros H. unfold try_return_to_cache. destruct (decide (cache_len c = cfg_tls_cap g)) as [Hf|Hr].
  - rewrite (cache_push_full _ c b (proj1 (proj2 H)) Hf). cbn [mbind outcome_bind].
    replace (pl_set_heap pl (pl_heap pl)) with pl by (by destruct pl).
    destruct (acquire_ptr_ok pl t c _ b H ltac:(by left)) as (x & _ & -> & H'). cbn [mbind outcome_bind].
    by eexists _, c, (Some b).
  - pose proof (proj1 (proj1 (proj2 H))) as Hl. destruct (cache_push_ok pl t c held b H ltac:(lia)) as (x & _ & -> & H').
    cbn [mbind outcome_bind]. eexists _, _, None. split; [done|]. split; [lia|]. by split.
Qed.

Lemma hydrate_ok fuel (pl : BatchPoolImpl F P) t c held idx reused :
  pool_ok g pl t c held -> 0 <= idx < cfg_shards g -> 0 <= reused ->
  reused + Z.max 0 (cfg_tls_cap g / 2 - cache_len c) < 256 ->
  Z.max 0 (cfg_tls_cap g / 2 - cache_len c) < Z.of_nat fuel ->
  exists pl' c' reused', hydrate p g fuel pl c idx reused = Done (pl', c', reused') /\
    pool_ok g pl' t c' held /\ keeps pl' pl /\ frames held pl' pl.
Proof using Hg.
  revert pl c reused. induction fuel as [|fuel IH]; intros pl c reused H Hi Hr Hb Hf; [lia|].
  cbn [hydrate]. case_decide as Hlt; [|by exists pl, c, reused].
  destruct Hg as (_ & _ & Hcap & _). pose proof (Z.div_lt (cfg_tls_cap g) 2 ltac:(lia) ltac:(lia)) as Hhalf.
  destruct (pop_global_ok pl t c held idx H Hi) as [-> | (pl1 & b & -> & H1 & [Hc1 Hf1] & Hh1)]; cbn [mbind outcome_bind];
    [by exists pl, c, reused|]. pose proof (pool_held_new pl1 t c held b H1) as Hnew.
  rewrite add_w_small by lia. cbn [mbind outcome_bind].
  destruct (cache_push_ok pl1 t c held b H1 ltac:(lia)) as (x & Hx & -> & H2). cbn [mbind outcome_bind].
  set (c' := mkCache (shard_idx c) (c_batches c ++ [b])) in *.
  assert (Hlen : cache_len c' = cache_len c + 1) by (unfold cache_len, c'; cbn; autorewrite with lens; lia).
  destruct (IH _ c' (reused + 1) H2 Hi ltac:(lia) ltac:(lia) ltac:(lia)) as (pl' & c2 & r' & -> & H3 & [Hc3 Hf3] & Hh3).
  exists pl', c2, r'. split; [done|]. split; [done|]. split; [split; [by rewrite Hc3|by rewrite Hf3]|].
  intros b' Hb'. rewrite Hh3 by done. cbn. rewrite Hh1, lookup_insert_ne; [done|]. by intros ->.
Qed.

Lemma pool_stats (pl : BatchPoolImpl F P) t c held s : pool_ok g pl t c held -> pool_ok g (pl_set_stats pl s) t c held.
Proof. intros (Hb & Hc & Ho). split; [by destruct Hb|]. split; [done|]. by apply (owns_perm pl _ held (places pl t c)). Qed.

Definition is_acquired (pl : BatchPoolImpl F P) (b : nat) : Prop :=
  exists x, pl_heap pl !! b = Some x /\ BatchObject_is_state (ba_batch x) StAcquired = true.

Lemma is_acquired_insert (pl : BatchPoolImpl F P) b x :
  is_acquired (pl_set_heap pl (<[b := obj_acquire x]> (pl_heap pl))) b.
Proof.
  eexists. split; [apply lookup_insert_eq|]. unfold obj_acquire. rewrite obj_set_state_batch. by apply bool_decide_eq_true.
Qed.

Lemma pool_alloc (pl : BatchPoolImpl F P) t c held x :
  pool_ok g pl t c held -> alloc_ok x -> pool_ok g (fst (pl_alloc pl x)) t c (pl_next pl :: held).
Proof. intros (Hb & Hc & Ho) Hx. split; [by destruct Hb|]. split; [done|]. by apply owns_alloc. Qed.

Lemma HYDRATE_enough c : 0 <= cache_len c ->
  Z.max 0 (cfg_tls_cap g / 2 - cache_len c) < 255 /\ Z.max 0 (cfg_tls_cap g / 2 - cache_len c) < Z.of_nat HYDRATE_FUEL.
Proof using Hg.
  intros Hc. destruct Hg as (_ & _ & Hcap & _). change (Z.of_nat HYDRATE_FUEL) with 256.
  pose proof (Z.div_lt (cfg_tls_cap g) 2 ltac:(lia) ltac:(lia)). lia.
Qed.

Lemma refill_ok (pl : BatchPoolImpl F P) t c held bytes x0 :
  pool_ok g pl t c held -> allocate (pl_factory pl) = Done (bytes, x0) ->
  exists pl' c' b, refill_tls_cache p g pl c = Done (pl', c', b) /\ pool_ok g pl' t c' (b :: held) /\
    keeps pl' pl /\ is_acquired pl' b /\ frames held pl' pl.
Proof using Hg FL.
  intros H Hall. unfold refill_tls_cache.
  destruct (shard_idx_ok pl t c held H) as (pl1 & c1 & idx & -> & H1 & Hi & Hcb & _ & [Hc1 Hf1] & Hh1).
  cbn [mbind outcome_bind].
  assert (Hmid : exists pl2 alloc reused bytes2 b,
    ('(pl, r) ← pop_from_global p g pl1 idx;
     (match r with
      | Some batch => Done (pl, 0, 1, 0, batch)
      | None => '(bytes, x) ← allocate (pl_factory pl); let '(pl, batch) := pl_alloc pl x in Done (pl, 1, 0, bytes, batch)
      end)) = Done (pl2, alloc, reused, bytes2, b) /\ pool_ok g pl2 t c1 (b :: held) /\ keeps pl2 pl1 /\ frames held pl2 pl1 /\ 0 <= reused <= 1).
  { destruct (pop_global_ok pl1 t c1 held idx H1 Hi) as [-> | (pl2 & b & -> & H2 & Hk2 & Hh2)]; cbn [mbind outcome_bind].
    - rewrite Hf1, Hall. cbn [mbind outcome_bind]. eexists _, _, _, _, _. split; [done|].
      pose proof (pool_alloc pl1 t c1 held x0 H1 (allocate_ok _ _ _ Hall)) as Ha. split; [done|]. split; [done|]. split; [|done].
      intros b' Hb'. cbn. rewrite lookup_insert_ne; [done|]. intros <-. by apply (pool_held_new _ t c1 held _ Ha).
    - eexists _, _, _, _, _. split; [done|]. split; [done|]. split; [done|]. split; [|done]. intros b' _. by rewrite Hh2. }
  destruct Hmid as (pl2 & al & reused & bytes2 & b & Emid & H2 & [Hc2 Hf2] & Hh2 & Hr).
  destruct (pop_from_global p g pl1 idx) as [[pl3 r]| | |]; [|done..].
  cbn [mbind outcome_bind] in Emid |- *. rewrite Emid. cbn [mbind outcome_bind].
  pose proof (HYDRATE_enough c1 (len_nonneg _)) as [He1 He2].
  destruct (hydrate_ok HYDRATE_FUEL pl2 t c1 (b :: held) idx reused H2 Hi ltac:(lia) ltac:(lia) He2)
    as (pl4 & c4 & r4 & -> & H4 & [Hc4 Hf4] & Hh4). cbn [mbind outcome_bind].
  pose proof (pool_stats pl4 t c4 (b :: held) (count_refill (pl_stats pl4) al bytes2 r4) H4) as H5.
  destruct (acquire_ptr_ok _ t c4 (b :: held) b H5 ltac:(by left)) as (x & Hx & -> & H6). cbn [mbind outcome_bind].
  eexists _, c4, b. split; [done|]. split; [exact H6|]. split; [cbn; by rewrite Hc4, Hf4, Hc2, Hf2, Hc1, Hf1|].
  split; [apply is_acquired_insert|].
  intros b' Hb'. pose proof (pool_held_new _ t c4 held b H4) as Hnew. cbn. rewrite lookup_insert_ne by (intros ->; done).
  rewrite Hh4 by (by right). by rewrite Hh2, Hh1.
Qed.

(** Between operations: every cache is in the pool. *)

Definition pool_inv (pl : BatchPoolImpl F P) (held : list nat) : Prop := bounds_ok g pl /\ owns_ok pl held (stored pl).

Lemma pool_enter (pl : BatchPoolImpl F P) held t :
  pool_inv pl held -> thread_local_batch_cache p g pl t = Done (cache_of pl t) /\ pool_ok g pl t (cache_of pl t) held.
Proof using Hg.
  intros [Hb Ho]. destruct Hg as (Hs & Hsc & Hcap & Htg). split.
  - unfold thread_local_batch_cache, cache_of. destruct (pl_caches pl !! t) as [c|]; [done|].
    unfold ThreadBatchCache_new. rewrite !debug_assert_true; [done|apply bool_decide_true; unfold u_max; lia..].
  - split; [done|]. split.
    + unfold cache_of. destruct (pl_caches pl !! t) as [c|] eqn:E; [by apply (bd_caches _ _ Hb t)|].
      split; [unfold cache_len, len; cbn; lia|done].
    + apply (owns_perm pl pl held (stored pl)); [done| |done|done]. by rewrite (stored_places pl t).
Qed.

Lemma pool_leave (pl : BatchPoolImpl F P) held t c : pool_ok g pl t c held -> pool_inv (pl_set_cache pl t c) held.
Proof.
  intros (Hb & Hc & Ho). split.
  - destruct Hb. constructor; cbn; try done. by apply map_Forall_insert_2.
  - apply (owns_perm pl _ held (places pl t c)); [done| |done|done].
    rewrite (stored_places (pl_set_cache pl t c) t). unfold cache_of. cbn [pl_set_cache pl_caches].
    rewrite lookup_insert_eq. cbn [default]. apply reflexive_eq, places_cache_set.
Qed.

(** Acquiring yields a batch nobody held, in the acquired state; from a cache
    that has one, its last. *)

Lemma acquire_object_ok (pl : BatchPoolImpl F P) held t bytes x0 :
  pool_inv pl held -> allocate (pl_factory pl) = Done (bytes, x0) ->
  exists pl' b, acquire_object p g pl t = Done (pl', b) /\ pool_inv pl' (b :: held) /\ (b ∉ held) /\
    is_acquired pl' b /\ pl_factory pl' = pl_factory pl /\ frames held pl' pl /\
    (forall rest x y, c_batches (cache_of pl t) = rest ++ [x] -> pl_heap pl !! x = Some y ->
       b = x /\ pl_heap pl' !! b = Some (obj_acquire y)).
Proof using Hg FL.
  intros Hinv Hall. destruct (pool_enter pl held t Hinv) as [Hget H]. rewrite acquire_object_eq, Hget.
  cbn [mbind outcome_bind]. unfold try_acquire_from_tls.
  destruct (cache_pop_ok pl t _ held H) as [[He ->]|(b & c' & -> & H1 & Hb & _)]; cbn [mbind outcome_bind].
  - destruct (refill_ok pl t _ held bytes x0 H Hall) as (pl1 & c1 & b & -> & H1 & [Hc Hf] & Hacq & Hh). cbn [mbind outcome_bind].
    eexists _, b. split; [done|]. split; [by apply pool_leave|].
    split; [by apply (pool_held_new pl1 t c1)|]. split; [done|]. split; [done|]. split; [done|].
    intros rest x y Hx. rewrite He in Hx. by destruct rest.
  - destruct (acquire_ptr_ok pl t c' (b :: held) b H1 ltac:(by left)) as (x & Hx & -> & H2). cbn [mbind outcome_bind].
    eexists _, b. split; [done|]. split; [by apply pool_leave|]. split; [by apply (pool_held_new pl t c')|].
    assert (Hy : <[b:=obj_acquire x]> (pl_heap pl) !! b = Some (obj_acquire x)) by apply lookup_insert_eq.
    split; [apply is_acquired_insert|]. split; [done|]. split.
    { intros b' Hb'. cbn. rewrite lookup_insert_ne; [done|]. intros ->. by apply (pool_held_new pl t c' held b' H1). }
    intros rest b' y Hr Hb'. rewrite Hb in Hr. apply app_inj_2 in Hr as [_ Hr]; [|done]. injection Hr as ->.
    cbn. rewrite Hx in Hb'. injection Hb' as ->. done.
Qed.

(** Spilling moves or frees the cache's last batches until there is room. *)

Lemma spill_back_ok (pl : BatchPoolImpl F P) t c held idx b :
  pool_ok g pl t c (b :: held) -> 0 <= idx < cfg_shards g ->
  exists pl', (('(pl, back) ← push_to_global p g pl idx b;
               match back with
               | Some b => hp ← heap_drop (pl_heap pl) b; Done (pl_set_heap pl hp)
               | None => Done pl
               end)) = Done pl' /\ pool_ok g pl' t c held /\ keeps pl' pl /\
    (forall b', b' ∈ held -> pl_heap pl' !! b' = pl_heap pl !! b').
Proof using Hg.
  intros H Hi. destruct (push_global_ok pl t c held idx b H Hi) as (pl1 & back & -> & Hk & Hh & Hback).
  pose proof (pool_held_new pl t c held b H) as Hnew. assert (Hne : forall b', b' ∈ held -> b' <> b) by (by intros b' ? ->).
  cbn [mbind outcome_bind]. destruct back as [b'|]; [|by exists pl1; split; [done|]; split; [done|]; split; [done|]; auto]. destruct Hback as [-> ->].
  destruct (pool_held pl t c (b :: held) b H ltac:(by left)) as [x Hx]. unfold heap_drop. rewrite Hx.
  cbn [mbind outcome_bind]. eexists. split; [done|].
  split; [|split; [done|by intros b' Hb'; apply lookup_delete_ne, not_eq_sym, Hne]]. destruct H as (Hb & Hc & Ho).
  split; [by destruct Hb|]. split; [done|]. by apply (owns_drop pl _ held (places pl t c) b).
Qed.

Lemma spill_cache_ok fuel (pl : BatchPoolImpl F P) t c held idx :
  pool_ok g pl t c held -> 0 <= idx < cfg_shards g -> cache_len c < Z.of_nat fuel ->
  exists pl' c', spill_cache p g fuel pl c idx = Done (pl', c') /\ pool_ok g pl' t c' held /\
    cache_len c' < cfg_tls_target g /\ keeps pl' pl /\ (forall b, b ∈ held -> pl_heap pl' !! b = pl_heap pl !! b).
Proof using Hg.
  revert pl c. induction fuel as [|fuel IH]; intros pl c H Hi Hf; [pose proof (len_nonneg (c_batches c)); unfold cache_len in *; lia|].
  cbn [spill_cache]. case_decide as Hge; [|exists pl, c; split; [done|]; split; [done|]; split; [lia|done]].
  destruct (cache_pop_ok pl t c held H) as [[He _]|(b & c' & -> & H1 & Hb & Hs)].
  { destruct Hg as (_ & _ & _ & Ht). unfold cache_len, len in Hge. rewrite He in Hge. cbn in Hge. lia. }
  cbn [mbind outcome_bind]. destruct (spill_back_ok pl t c' held idx b H1 Hi) as (pl2 & E & H2 & [Hc2 Hf2] & Hh2).
  destruct (push_to_global p g pl idx b) as [[pl3 back]| | |]; [|done..]. cbn [mbind outcome_bind] in E |- *.
  rewrite E. cbn [mbind outcome_bind].
  assert (Hl : cache_len c' = cache_len c - 1) by (unfold cache_len; rewrite Hb; autorewrite with lens; cbn; lia).
  destruct (IH pl2 c' H2 Hi ltac:(lia)) as (pl' & c2 & -> & H3 & Hlt & [Hc3 Hf3] & Hh3).
  exists pl', c2. rewrite Hc3, Hf3. do 4 (split; [done|]). intros b' Hb'. by rewrite Hh3, Hh2.
Qed.

(** Storing a held batch as the last of the cache. *)

Lemma release_push (pl : BatchPoolImpl F P) t c held b x :
  pool_ok g pl t c (b :: held) -> cache_len c < cfg_tls_cap g -> pl_heap pl !! b = Some x ->
  exists hp c', cache_push p g (pl_heap pl) c b = Done (hp, c', None) /\
    pool_inv (pl_set_cache (pl_set_heap pl hp) t c') held /\ c_batches c' = c_batches c ++ [b] /\
    hp = <[b := obj_set_runtime_state x StIdle]> (pl_heap pl).
Proof.
  intros H Hroom Hx. destruct (cache_push_ok pl t c held b H Hroom) as (y & Hy & E & H'). cbv zeta in E, H'.
  rewrite Hx in Hy. injection Hy as <-. eexists _, _. split; [exact E|]. split; [by apply pool_leave|].
  done.
Qed.

(** The capacity of the cache bounds the spill. *)

Lemma spill_room (pl : BatchPoolImpl F P) t c held idx :
  pool_ok g pl t c held -> 0 <= idx < cfg_shards g ->
  exists pl' c', spill_cache p g SPILL_FUEL pl c idx = Done (pl', c') /\ pool_ok g pl' t c' held /\
    cache_len c' < cfg_tls_cap g /\ keeps pl' pl /\ (forall b, b ∈ held -> pl_heap pl' !! b = pl_heap pl !! b).
Proof using Hg.
  intros H Hi. pose proof H as (_ & [Hl _] & _). destruct Hg as (_ & _ & Hcap & Ht).
  destruct (spill_cache_ok SPILL_FUEL pl t c held idx H Hi ltac:(change (Z.of_nat SPILL_FUEL) with 256; lia))
    as (pl' & c' & E & H' & Hlt & Hk).
  exists pl', c'. split; [done|]. split; [done|]. split; [lia|done].
Qed.

Lemma release_ok (pl : BatchPoolImpl F P) t held b x :
  pool_inv pl (b :: held) -> pl_heap pl !! b = Some x -> reset_safe (ba_batch x) = true ->
  exists pl' y, BatchPool_release p g pl t b = Done pl' /\ pool_inv pl' held /\ pl_factory pl' = pl_factory pl /\
    (exists rest, c_batches (cache_of pl' t) = rest ++ [b]) /\
    obj_reset_batch p x = Done y /\ ba_batch y = recycled (ba_batch x) StAcquired /\
    pl_heap pl' !! b = Some (obj_set_runtime_state y StIdle) /\ frames held pl' pl.
Proof using Hg.
  intros Hinv Hx Hsafe. pose proof Hinv as [_ Ho0].
  destruct (obj_reset_ok p x (ow_alloc _ _ _ Ho0 b x Hx) Hsafe) as (y & Ey & Hy & Hyok).
  rewrite BatchPool_release_eq. unfold release_reset. rewrite Hx, Ey. cbn [mbind outcome_bind].
  rewrite Hy, decide_False by (by vm_compute). cbn [mbind outcome_bind].
  set (pl1 := pl_set_heap pl _).
  destruct (pool_enter pl (b :: held) t Hinv) as [Hget H0].
  assert (H : pool_ok g pl1 t (cache_of pl t) (b :: held)) by (by apply pool_update; [|left|]).
  change (thread_local_batch_cache p g pl1 t) with (thread_local_batch_cache p g pl t). rewrite Hget.
  cbn [mbind outcome_bind]. assert (Hx1 : pl_heap pl1 !! b = Some y) by apply lookup_insert_eq.
  pose proof (pool_held_new pl1 t _ held b H) as Hnew.
  pose proof H as (_ & Hc & _). destruct (decide (cache_len (cache_of pl t) = cfg_tls_cap g)) as [Hfull|Hroom].
  - rewrite (cache_push_full _ _ b Hc Hfull). cbn [mbind outcome_bind].
    destruct (shard_idx_ok pl1 t _ _ H) as (pl2 & c2 & idx & -> & H2 & Hi & _ & _ & [Hc2 Hf2] & Hh2). cbn [mbind outcome_bind].
    destruct (spill_room pl2 t c2 _ idx H2 Hi) as (pl3 & c3 & -> & H3 & Hlt & [Hc3 Hf3] & Hh3). cbn [mbind outcome_bind].
    destruct (release_push pl3 t c3 held b y H3 Hlt) as (hp & c4 & -> & H4 & Hlast & Hb4); [by rewrite Hh3, Hh2 by (by left)|].
    cbn [mbind outcome_bind]. eexists _, y. split; [done|]. split; [done|]. split; [cbn; by rewrite Hf3, Hf2|].
    split; [exists (c_batches c3); unfold cache_of; cbn; by rewrite lookup_insert_eq|]. subst hp.
    do 2 (split; [done|]). split; [apply lookup_insert_eq|]. intros b' Hb'. cbn. assert (Hne : b <> b') by (by intros ->).
    rewrite lookup_insert_ne, Hh3, Hh2 by (done || by right). cbn. by rewrite lookup_insert_ne.
  - destruct Hc as [Hl _].
    destruct (release_push pl1 t _ held b y H ltac:(lia) Hx1) as (hp & c4 & -> & H4 & Hlast & Hb4).
    cbn [mbind outcome_bind]. eexists _, y. split; [done|]. split; [done|]. split; [done|].
    split; [exists (c_batches (cache_of pl t)); unfold cache_of at 1; cbn; by rewrite lookup_insert_eq|]. subst hp.
    do 2 (split; [done|]). split; [apply lookup_insert_eq|]. intros b' Hb'. cbn. assert (Hne : b <> b') by (by intros ->).
    by rewrite !lookup_insert_ne.
Qed.

(** A thread that exits frees its cache; other operations of a caller. *)

Lemma drop_batches_ok l : forall (pl : BatchPoolImpl F P) held placed, owns_ok pl held (l ++ placed) ->
  exists hp, drop_batches (pl_heap pl) l = Done hp /\ owns_ok (pl_set_heap pl hp) held placed /\
    (forall b, b ∈ held -> hp !! b = pl_heap pl !! b) /\ (forall b x, hp !! b = Some x -> pl_heap pl !! b = Some x).
Proof.
  induction l as [|b l IH]; intros pl held placed H; cbn.
  - eexists. split; [done|]. split; [by apply (owns_perm pl _ held placed)|done].
  - destruct (proj2 (ow_dom _ _ _ H b)) as [x Hx]; [apply elem_of_app; right; by left|].
    unfold heap_drop. rewrite Hx. cbn [mbind outcome_bind].
    pose proof (owns_take pl pl held _ (l ++ placed) b H ltac:(done) ltac:(done) ltac:(done)) as H1.
    pose proof (owns_drop pl (pl_set_heap pl (delete b (pl_heap pl))) held _ b H1 ltac:(done) ltac:(done)) as H2.
    destruct (IH _ held placed H2) as (hp & E & H3 & Hh & Hs). exists hp. split; [done|]. split; [done|].
    pose proof (ow_nodup _ _ _ H1) as Hn. cbn in Hn. apply NoDup_cons in Hn as [Hn _]. split.
    + intros b' Hb'. rewrite Hh by done. cbn. rewrite lookup_delete_ne; [done|]. intros ->. apply Hn, elem_of_app. by left.
    + intros b' y Hy%Hs. cbn in Hy. by apply lookup_delete_Some in Hy as [_ ?].
Qed.

Lemma thread_exit_ok (pl : BatchPoolImpl F P) held t :
  pool_inv pl held -> exists pl', thread_exit pl t = Done pl' /\ pool_inv pl' held /\ pl_factory pl' = pl_factory pl /\
    pl_caches pl' !! t = None /\ frames held pl' pl /\ (forall b x, pl_heap pl' !! b = Some x -> pl_heap pl !! b = Some x).
Proof.
  intros [Hb Ho]. unfold thread_exit. destruct (pl_caches pl !! t) as [c|] eqn:E; [|by exists pl].
  assert (Ho' : owns_ok pl held (c_batches c ++ others pl t ++ sharded pl)).
  { apply (owns_perm pl _ held (stored pl)); [done| |done|done]. rewrite (stored_places pl t).
    unfold places, cache_of. by rewrite E. }
  destruct (drop_batches_ok _ pl held _ Ho') as (hp & -> & H & Hh & Hsub). cbn [mbind outcome_bind].
  eexists. split; [done|]. split; [|split; [done|split; [apply lookup_delete_eq|done]]]. split.
  - destruct Hb. constructor; cbn; try done. by apply map_Forall_delete.
  - by apply (owns_perm (pl_set_heap pl hp) _ held (others pl t ++ sharded pl)).
Qed.

(** Dropping a pool nobody holds a batch of frees every batch. *)

Lemma shards_drop_ok ss : forall (pl : BatchPoolImpl F P) held, owns_ok pl held (ss ≫= s_batches) ->
  exists hp, foldl (fun hp s => hp ← hp; shard_drop hp s) (Done (pl_heap pl)) ss = Done hp /\ owns_ok (pl_set_heap pl hp) held [].
Proof.
  induction ss as [|s ss IH]; intros pl held H; cbn [foldl].
  - eexists. split; [done|]. by apply (owns_perm pl _ held []).
  - cbn [mbind outcome_bind]. unfold shard_drop at 2.
    destruct (drop_batches_ok (reverse (s_batches s)) pl held (ss ≫= s_batches)) as (hp & -> & H1 & _).
    { apply (owns_perm pl _ held ((s :: ss) ≫= s_batches)); [done| |done|done]. cbn. by rewrite reverse_Permutation. }
    destruct (IH (pl_set_heap pl hp) held H1) as (hp' & Eh & H2). exists hp'. by split.
Qed.

Lemma BatchPool_drop_ok (pl : BatchPoolImpl F P) : pool_inv pl [] -> BatchPool_drop pl = Done ∅.
Proof.
  intros [_ Ho]. unfold BatchPool_drop. destruct (drop_batches_ok _ pl [] _ Ho) as (hp & -> & H1 & _). cbn [mbind outcome_bind].
  destruct (shards_drop_ok (pl_shards pl) (pl_set_heap pl hp) [] H1) as (hp' & Eh & H2). change (pl_heap (pl_set_heap pl hp)) with hp in Eh.
  rewrite Eh. f_equal. apply map_empty. intros b. apply eq_None_not_Some. intros Hb%(ow_dom _ _ _ H2). by apply elem_of_nil in Hb.
Qed.

Lemma with_factory_ok (f : F) : exists pl, BatchPool_with_factory p g f = Done pl /\ pool_inv pl [] /\ pl_factory pl = f.
Proof using Hg.
  destruct Hg as (Hs & Hsc & _). unfold BatchPool_with_factory, BatchPoolShard_new.
  rewrite !debug_assert_true by (apply bool_decide_true; unfold u_max; lia). cbn [mbind outcome_bind].
  eexists. split; [done|]. split; [|done].
  assert (Hn : stored (P := P) (mkPool ∅ (replicate (Z.to_nat (cfg_shards g)) (mkShard [])) f 0 BatchPoolStats_new ∅ 0) = []).
  { unfold stored, sharded. cbn [pl_caches pl_shards]. rewrite map_to_list_empty. cbn.
    by induction (Z.to_nat (cfg_shards g)). }
  split.
  - constructor; cbn; [done|unfold len; rewrite length_replicate; lia| |lia]. apply Forall_replicate. cbn. unfold len. cbn. lia.
  - rewrite Hn. constructor; cbn; [constructor| |done|done|apply map_Forall_empty]. intros b. rewrite lookup_empty. split; [by intros [? ?]|].
    by intros ?%elem_of_nil.
Qed.
End pool_steps.

(** ** Clients

    Threads acquire batches, use the ones they hold, release them and exit, in
    any order.  [CUse] is whatever a caller does with its batch between the
    pool's operations, as long as the allocation stays valid.  Releasing a batch the pipeline still owns panics in
    the code; such a release is skipped here. *)

Inductive client_op (P : Type) :=
| CAcquire (t : nat)
| CUse (b : nat) (x : P)
| CRelease (t b : nat)
| CExit (t : nat).

#[global] Arguments CAcquire {P} _.
#[global] Arguments CUse {P} _ _.
#[global] Arguments CRelease {P} _ _.
#[global] Arguments CExit {P} _.

Section client.
Context {F P : Type} `{!BatchAllocation P, !BatchFactory F P} (p : profile) (g : pool_cfg).

Definition client_step (st : BatchPoolImpl F P * list nat) (op : client_op P) : outcome (BatchPoolImpl F P * list nat) :=
  let '(pl, held) := st in
  match op with
  | CAcquire t => '(pl, b) ← acquire_object p g pl t; Done (pl, b :: held)
  | CUse b x => if decide (b ∈ held) then Done (pl_set_heap pl (<[b := x]> (pl_heap pl)), held) else Done st
  | CRelease t b =>
      if decide (b ∈ held) then
        if from_option (fun x => reset_safe (ba_batch x)) false (pl_heap pl !! b) then
          pl ← BatchPool_release p g pl t b; Done (pl, list_difference held [b])
        else Done st
      else Done st
  | CExit t => pl ← thread_exit pl t; Done (pl, held)
  end.

Fixpoint client_run (st : BatchPoolImpl F P * list nat) (ops : list (client_op P)) : outcome (BatchPoolImpl F P * list nat) :=
  match ops with
  | [] => Done st
  | op :: ops => st ← client_step st op; client_run st ops
  end.

Context `{!AllocationLaws P, FL : !FactoryLaws F P}.
Hypothesis Hg : cfg_ok g.

Definition use_ok (op : client_op P) : Prop := match op with CUse _ x => alloc_ok x | _ => True end.

Lemma held_split (b : nat) held : NoDup held -> b ∈ held -> held ≡ₚ b :: list_difference held [b].
Proof.
  intros Hn Hb. apply NoDup_Permutation; [done| |].
  - apply NoDup_cons. split; [|by apply NoDup_list_difference]. intros H%list_elem_of_difference. destruct H as [_ H]. apply H. by left.
  - intros c. rewrite elem_of_cons, list_elem_of_difference, list_elem_of_singleton.
    destruct (decide (c = b)) as [->|Hne]; [split; [by left|done]|].
    split; [by right; split|by intros [?|[? _]]].
Qed.

Lemma pool_inv_perm (pl : BatchPoolImpl F P) held held' : held' ≡ₚ held -> pool_inv g pl held -> pool_inv g pl held'.
Proof.
  intros Hp [Hb Ho]. split; [done|]. by apply (owns_held_perm pl held).
Qed.

Lemma client_step_ok pl held op bytes x0 :
  use_ok op -> pool_inv g pl held -> allocate (pl_factory pl) = Done (bytes, x0) ->
  exists pl' held', client_step (pl, held) op = Done (pl', held') /\ pool_inv g pl' held' /\ pl_factory pl' = pl_factory pl.
Proof using Hg FL.
  intros Hop H Hall. destruct op as [t|b x|t b|t]; cbn [client_step].
  - destruct (acquire_object_ok p g Hg pl held t bytes x0 H Hall) as (pl' & b & -> & H' & _ & _ & Hf & _). by exists pl', (b :: held).
  - case_decide as Hb; [|by exists pl, held]. eexists _, held. split; [done|]. split; [|done]. destruct H as [Hbd Ho].
    split; [by destruct Hbd|]. by apply (owns_update pl _ held (stored pl) b x Ho).
  - case_decide as Hb; [|by exists pl, held]. destruct (pl_heap pl !! b) as [x|] eqn:Hx; [|by exists pl, held].
    cbn [from_option]. destruct (reset_safe (ba_batch x)) eqn:Hs; [|by exists pl, held].
    pose proof (ow_nodup _ _ _ (proj2 H)) as Hn. apply NoDup_app in Hn as [Hn _].
    destruct (release_ok p g Hg pl t (list_difference held [b]) b x) as (pl' & y & -> & H' & Hf & _); [|done..|by exists pl', (list_difference held [b])].
    by apply (pool_inv_perm pl held); [symmetry; apply held_split|].
  - destruct (thread_exit_ok g pl held t H) as (pl' & -> & H' & Hf & _). by exists pl', held.
Qed.

Lemma client_run_ok ops : forall pl held bytes x0,
  Forall use_ok ops -> pool_inv g pl held -> allocate (pl_factory pl) = Done (bytes, x0) ->
  exists pl' held', client_run (pl, held) ops = Done (pl', held') /\ pool_inv g pl' held' /\ pl_factory pl' = pl_factory pl.
Proof using Hg FL.
  induction ops as [|op ops IH]; intros pl held bytes x0 Hops H Hall; [by exists pl, held|]. cbn [client_run].
  apply Forall_cons in Hops as [Hop Hops].
  destruct (client_step_ok pl held op bytes x0 Hop H Hall) as (pl1 & h1 & -> & H1 & Hf1). cbn [mbind outcome_bind].
  destruct (IH pl1 h1 bytes x0 Hops H1 ltac:(by rewrite Hf1)) as (pl2 & h2 & -> & H2 & Hf2). exists pl2, h2. by rewrite Hf2.
Qed.
End client.

(** ** Properties *)

(** Whatever threads do with a pool of any allocation and factory that keep
    their contracts (acquire batches, change the ones they hold, release them,
    exit), in either profile, no operation panics, loops
    or touches freed memory; afterwards no allocation is in two places (two
    callers, two caches, a cache and a shard), every live allocation is held
    or stored (nothing leaks), stored ones are idle, and the caches and
    shards are within their capacities. *)
Theorem pool_exclusive {F P : Type} `{!BatchAllocation P, !AllocationLaws P, !BatchFactory F P, !FactoryLaws F P}
    p g (f : F) bytes x0 ops :
  cfg_ok g -> allocate f = Done (bytes, x0) -> Forall use_ok ops ->
  exists pl0 pl held, BatchPool_with_factory p g f = Done pl0 /\
    client_run p g (pl0, []) ops = Done (pl, held) /\ NoDup (held ++ stored pl) /\
    (forall b, is_Some (pl_heap pl !! b) <-> b ∈ held ++ stored pl) /\
    Forall (is_idle (pl_heap pl)) (stored pl) /\
    map_Forall (fun _ c => cache_len c <= cfg_tls_cap g) (pl_caches pl) /\
    Forall (fun s => len (s_batches s) <= cfg_shard_cap g) (pl_shards pl).
Proof.
  intros Hg Hall Hops. destruct (with_factory_ok p g Hg f) as (pl0 & E0 & H0 & Hf). rewrite <- Hf in Hall.
  destruct (client_run_ok p g Hg ops pl0 [] bytes x0 Hops H0 Hall) as (pl & held & E & [Hb Ho] & _).
  exists pl0, pl, held. destruct Ho. split; [done|]. split; [done|]. do 3 (split; [done|]). split; [|apply Hb].
  apply (map_Forall_impl _ _ _ (bd_caches _ _ Hb)). by intros t c [Hc _].
Qed.

Lemma pool_exclusive_witness :
  let ops := [CAcquire 0; CAcquire 1; CAcquire 0; CRelease 1 0; CRelease 0 1; CAcquire 1; CExit 0; CExit 1] in
  exists pl0 pl held, BatchPool_with_factory Debug BatchPool_cfg mkOwnedBatchFactory = Done pl0 /\
    client_run Debug BatchPool_cfg (pl0, []) ops = Done (pl, held) /\ NoDup (held ++ stored pl) /\
    (forall b, is_Some (pl_heap pl !! b) <-> b ∈ held ++ stored pl) /\
    Forall (is_idle (pl_heap pl)) (stored pl) /\
    map_Forall (fun _ c => cache_len c <= cfg_tls_cap BatchPool_cfg) (pl_caches pl) /\
    Forall (fun s => len (s_batches s) <= cfg_shard_cap BatchPool_cfg) (pl_shards pl).
Proof.
  apply (pool_exclusive Debug BatchPool_cfg mkOwnedBatchFactory HEADER_SIZE BatchInner_new); [by vm_compute|reflexivity|by repeat constructor].
Defined.

(** A batch released by a thread in a reset-safe state is what the same
    thread's next acquisition returns: empty, acquired, with its count, its
    column families and its metadata cleared, its waiter kept, and its buffer's
    capacity kept however large, because the size that decides the shrinking is
    read after the reset. *)
Theorem pool_release_reacquire {F P : Type} `{!BatchAllocation P, !AllocationLaws P, !BatchFactory F P, !FactoryLaws F P}
    p g (pl : BatchPoolImpl F P) t held b x bytes x0 :
  cfg_ok g -> pool_inv g pl (b :: held) -> allocate (pl_factory pl) = Done (bytes, x0) ->
  pl_heap pl !! b = Some x -> reset_safe (ba_batch x) = true ->
  exists pl1 pl2 y, BatchPool_release p g pl t b = Done pl1 /\ pool_inv g pl1 held /\
    acquire_object p g pl1 t = Done (pl2, b) /\ pool_inv g pl2 (b :: held) /\
    pl_heap pl2 !! b = Some y /\ BatchObject_is_state (ba_batch y) StAcquired = true /\ bi_data (ba_batch y) = [] /\
    bi_count (ba_batch y) = 0 /\ bi_meta (ba_batch y) = mkBatchMeta 0 false /\ bi_cf_table (ba_batch y) = CFTable_new /\
    bi_waiter (ba_batch y) = bi_waiter (ba_batch x) /\ bi_cap (ba_batch y) = bi_cap (ba_batch x).
Proof.
  intros Hg Hinv Hall Hx Hs. destruct (release_ok p g Hg pl t held b x Hinv Hx Hs)
    as (pl1 & y & E1 & H1 & Hf & [rest Hr] & _ & Hy & Hb & _).
  destruct (acquire_object_ok p g Hg pl1 held t bytes x0 H1 ltac:(by rewrite Hf)) as (pl2 & b' & E2 & H2 & _ & _ & _ & _ & Hl).
  destruct (Hl rest b _ Hr Hb) as [-> Hz]. exists pl1, pl2, (obj_acquire (obj_set_runtime_state y StIdle)).
  unfold obj_acquire in *. rewrite !obj_set_state_batch, Hy. by repeat (split; [done|]).
Qed.

(** One batch of a pool, held by a caller. *)

Definition pool_one : outcome (BatchPoolImpl OwnedBatchFactory BatchInner * list nat) :=
  pl ← BatchPool_with_factory Debug BatchPool_cfg mkOwnedBatchFactory;
  client_run Debug BatchPool_cfg (pl, []) [CAcquire 0].

Lemma pool_one_inv : exists pl, pool_one = Done (pl, [0%nat]) /\ pool_inv BatchPool_cfg pl [0%nat] /\
  pl_heap pl !! 0%nat = Some BatchInner_new.
Proof.
  assert (Hg : cfg_ok BatchPool_cfg) by (by vm_compute).
  destruct (with_factory_ok Debug BatchPool_cfg Hg mkOwnedBatchFactory) as (pl0 & E0 & H0 & Hf).
  destruct (client_run_ok Debug BatchPool_cfg Hg [CAcquire 0] pl0 [] HEADER_SIZE BatchInner_new ltac:(by repeat constructor) H0 ltac:(by rewrite Hf)) as (pl & held & E & H & _).
  assert (Hone : pool_one = Done (pl, held)) by (unfold pool_one; by rewrite E0).
  vm_compute in Hone. injection Hone as <- <-. eexists. by split; [vm_compute; reflexivity|].
Qed.

Lemma pool_release_reacquire_witness :
  exists pl, pool_one = Done (pl, [0%nat]) /\
  exists pl1 pl2 y, BatchPool_release Debug BatchPool_cfg pl 1 0 = Done pl1 /\ pool_inv BatchPool_cfg pl1 [] /\
    acquire_object Debug BatchPool_cfg pl1 1 = Done (pl2, 0%nat) /\ pool_inv BatchPool_cfg pl2 [0%nat] /\
    pl_heap pl2 !! 0%nat = Some y /\ BatchObject_is_state y StAcquired = true /\ bi_data y = [] /\ bi_count y = 0 /\
    bi_meta y = mkBatchMeta 0 false /\ bi_cf_table y = CFTable_new /\ bi_waiter y = bi_waiter BatchInner_new /\
    bi_cap y = bi_cap BatchInner_new.
Proof.
  destruct pool_one_inv as (pl & E & H & Hx). exists pl. split; [exact E|].
  refine (pool_release_reacquire Debug BatchPool_cfg pl 1 [] 0 BatchInner_new HEADER_SIZE BatchInner_new _ H _ Hx _);
    [by vm_compute|reflexivity|reflexivity].
Defined.
