(* ===== verification/PoolThreads.v ===== *)
(** * PoolThreads: the batch pool used by several threads at once

    The operations of [db/batch_pool.rs] interleaved.  A step of a thread is a
    critical section of a shard's mutex (lock, pop or push, unlock), an atomic
    addition to the shard counter or to a statistic, or the code between two
    of these, which touches only the thread's own cache and the batches it
    owns.  The data and the functions of the steps are those of [Pool]. *)

From S2P Require Import Prelude Records Wal Batch Allocation Pool.

(** ** Threads *)

(** An addition to one statistic. *)

Inductive stat_add :=
| AddMisses
| AddAllocations (n : Z)
| AddBytes (n : Z)
| AddReused (n : Z).

(** Where a thread is inside an operation: in [refill_tls_cache], before the
    shard index, the first pop, the allocation, a turn of the hydrating loop
    and an addition to the statistics; in [release] with a full cache, before
    the shard index and a turn of the spilling loop. *)

Inductive pool_pc :=
| TIndex
| TPop (idx : Z)
| TAllocate (idx : Z)
| THydrate (idx : Z) (b : nat) (allocated bytes reused : Z)
| TCount (adds : list stat_add) (b : nat)
| TSpillIndex (b : nat)
| TSpill (idx : Z) (b : nat).

(** A step goes on in the operation or returns the batches the caller gets. *)

Inductive pool_next :=
| NStep (pc : pool_pc)
| NReturn (bs : list nat).

(** The batch an operation owns on its stack. *)

Definition pc_batch (pc : pool_pc) : list nat :=
  match pc with
  | TIndex | TPop _ | TAllocate _ => []
  | THydrate _ b _ _ _ | TCount _ b | TSpillIndex b | TSpill _ b => [b]
  end.

(** The allocations an operation has made and not yet counted. *)

Definition add_allocations (a : stat_add) : nat := match a with AddAllocations n => Z.to_nat n | _ => 0%nat end.

Definition pc_uncounted (pc : pool_pc) : nat :=
  match pc with
  | THydrate _ _ allocated _ _ => Z.to_nat allocated
  | TCount adds _ => sum_list_with add_allocations adds
  | _ => 0%nat
  end.

Definition next_batch (n : pool_next) : list nat :=
  match n with NStep pc => pc_batch pc | NReturn bs => bs end.

(** [tp_held] are the batches of the callers; [tp_pcs] the threads inside an
    operation. *)

Record pool_threads (F P : Type) := mkPT {
  tp_pool : BatchPoolImpl F P;
  tp_pcs : gmap nat pool_pc;
  tp_held : list nat
}.

#[global] Arguments mkPT {F P} _ _ _.
#[global] Arguments tp_pool {F P} _.
#[global] Arguments tp_pcs {F P} _.
#[global] Arguments tp_held {F P} _.

(** ** Statistics *)

(* @src crates/engine/src/db/batch_pool.rs:544-560 BatchPoolImpl::refill_tls_cache *)
Definition refill_adds (allocated bytes reused : Z) : list stat_add :=
  [AddMisses] ++
  (if decide (allocated <> 0) then [AddAllocations allocated; AddBytes bytes] else []) ++
  (if decide (reused <> 0) then [AddReused reused] else []).

Definition stat_apply (a : stat_add) (s : BatchPoolStats) : BatchPoolStats :=
  let add a b := wrap usize_bits (a + b) in
  match a with
  | AddMisses =>
      mkStats (add (tls_misses s) 1) (global_batches_reused s) (allocations s) (allocated_bytes s) (batches_dropped s)
  | AddAllocations n =>
      mkStats (tls_misses s) (global_batches_reused s) (add (allocations s) n) (allocated_bytes s) (batches_dropped s)
  | AddBytes n =>
      mkStats (tls_misses s) (global_batches_reused s) (allocations s) (add (allocated_bytes s) n) (batches_dropped s)
  | AddReused n =>
      mkStats (tls_misses s) (add (global_batches_reused s) n) (allocations s) (allocated_bytes s) (batches_dropped s)
  end.

(** Events: a thread starts an operation, takes its next step, or exits; a
    caller uses a batch.  A thread inside an operation starts no other one and
    does not exit; a caller uses and releases only what it holds, and what
    [reset_batch] would refuse (it panics) is not released. *)

Inductive pool_event (P : Type) :=
| EvAcquire (t : nat)
| EvRun (t : nat)
| EvUse (b : nat) (x : P)
| EvRelease (t b : nat)
| EvExit (t : nat).

#[global] Arguments EvAcquire {P} _.
#[global] Arguments EvRun {P} _.
#[global] Arguments EvUse {P} _ _.
#[global] Arguments EvRelease {P} _ _.
#[global] Arguments EvExit {P} _.

(** ** Steps *)

Section steps.
Context {F P : Type} `{!BatchAllocation P, !BatchFactory F P} (p : profile) (g : pool_cfg).

(** The beginning of the two operations, up to their first shared access. *)

(* @src crates/engine/src/db/batch_pool.rs:568-573 BatchPoolImpl::acquire_object *)
Definition acquire_begin (pl : BatchPoolImpl F P) (c : ThreadBatchCache)
  : outcome (BatchPoolImpl F P * ThreadBatchCache * pool_next) :=
  '(pl, c, r) ← try_acquire_from_tls p g pl c;
  Done (pl, c, match r with Some b => NReturn [b] | None => NStep TIndex end).

(* @src crates/engine/src/db/batch_pool.rs:589-612 BatchPoolImpl::release *)
Definition release_begin (pl : BatchPoolImpl F P) (c : ThreadBatchCache) (batch : nat)
  : outcome (BatchPoolImpl F P * ThreadBatchCache * pool_next) :=
  pl ← release_reset p pl batch;
  '(hp, c, back) ← cache_push p g (pl_heap pl) c batch;
  Done (pl_set_heap pl hp, c, match back with None => NReturn [] | Some batch => NStep (TSpillIndex batch) end).

(** A turn of the hydrating loop, and one of the spilling loop. *)

(* @src crates/engine/src/db/batch_pool.rs:530-542 BatchPoolImpl::refill_tls_cache *)
Definition hydrate_turn (pl : BatchPoolImpl F P) (c : ThreadBatchCache) (idx : Z) (b : nat) (allocated bytes reused : Z)
  : outcome (BatchPoolImpl F P * ThreadBatchCache * pool_next) :=
  let leave := NStep (TCount (refill_adds allocated bytes reused) b) in
  if decide (cache_len c < cfg_tls_cap g / 2) then
    '(pl, r) ← pop_from_global p g pl idx;
    match r with
    | Some b' =>
        reused ← add_w p 8 reused 1;
        '(hp, c, back) ← cache_push p g (pl_heap pl) c b';
        hp ← match back with Some b => heap_drop hp b | None => Done hp end;
        Done (pl_set_heap pl hp, c, NStep (THydrate idx b allocated bytes reused))
    | None => Done (pl, c, leave)
    end
  else Done (pl, c, leave).

(* @src crates/engine/src/db/batch_pool.rs:614-629 BatchPoolImpl::release *)
Definition spill_turn (pl : BatchPoolImpl F P) (c : ThreadBatchCache) (idx : Z) (batch : nat)
  : outcome (BatchPoolImpl F P * ThreadBatchCache * pool_next) :=
  if decide (cfg_tls_target g <= cache_len c) then
    '(c, r) ← cache_pop p g c;
    match r with
    | None => Panic "cache length was above target retained"
    | Some b =>
        '(pl, back) ← push_to_global p g pl idx b;
        pl ← match back with
             | Some b => hp ← heap_drop (pl_heap pl) b; Done (pl_set_heap pl hp)
             | None => Done pl
             end;
        Done (pl, c, NStep (TSpill idx batch))
    end
  else
    '(hp, c, back) ← cache_push p g (pl_heap pl) c batch;
    match back with
    | None => Done (pl_set_heap pl hp, c, NReturn [])
    | Some _ => Panic "internal error: entered unreachable code: spilling TLS cache must leave room for released batch"
    end.

(* @src crates/engine/src/db/batch_pool.rs:506-566 BatchPoolImpl::refill_tls_cache *)
Definition pc_step (pl : BatchPoolImpl F P) (c : ThreadBatchCache) (pc : pool_pc)
  : outcome (BatchPoolImpl F P * ThreadBatchCache * pool_next) :=
  match pc with
  | TIndex => '(pl, c, idx) ← shard_idx_for_cache g pl c; Done (pl, c, NStep (TPop idx))
  | TPop idx =>
      '(pl, r) ← pop_from_global p g pl idx;
      Done (pl, c, NStep match r with Some b => THydrate idx b 0 0 1 | None => TAllocate idx end)
  | TAllocate idx =>
      '(bytes, x) ← allocate (pl_factory pl);
      let '(pl, b) := pl_alloc pl x in
      Done (pl, c, NStep (THydrate idx b 1 bytes 0))
  | THydrate idx b allocated bytes reused => hydrate_turn pl c idx b allocated bytes reused
  | TCount (a :: adds) b => Done (pl_set_stats pl (stat_apply a (pl_stats pl)), c, NStep (TCount adds b))
  | TCount [] b => pl ← acquire_ptr pl b; Done (pl, c, NReturn [b])
  | TSpillIndex b => '(pl, c, idx) ← shard_idx_for_cache g pl c; Done (pl, c, NStep (TSpill idx b))
  | TSpill idx b => spill_turn pl c idx b
  end.

(** What a thread's step leaves, the batches of [held] being the callers'. *)

Definition settle (t : nat) (pcs : gmap nat pool_pc) (held : list nat) (r : BatchPoolImpl F P * ThreadBatchCache * pool_next)
  : pool_threads F P :=
  let '(pl, c, n) := r in
  match n with
  | NStep pc => mkPT (pl_set_cache pl t c) (<[t := pc]> pcs) held
  | NReturn bs => mkPT (pl_set_cache pl t c) (delete t pcs) (bs ++ held)
  end.

Definition pool_event_step (s : pool_threads F P) (e : pool_event P) : outcome (pool_threads F P) :=
  let '(mkPT pl pcs held) := s in
  match e with
  | EvAcquire t =>
      match pcs !! t with
      | Some _ => Done s
      | None => c ← thread_local_batch_cache p g pl t; r ← acquire_begin pl c; Done (settle t pcs held r)
      end
  | EvRun t =>
      match pcs !! t with
      | None => Done s
      | Some pc => c ← thread_local_batch_cache p g pl t; r ← pc_step pl c pc; Done (settle t pcs held r)
      end
  | EvUse b x =>
      if decide (b ∈ held) then Done (mkPT (pl_set_heap pl (<[b := x]> (pl_heap pl))) pcs held) else Done s
  | EvRelease t b =>
      match pcs !! t with
      | Some _ => Done s
      | None =>
          if decide (b ∈ held) then
            if from_option (fun x => reset_safe (ba_batch x)) false (pl_heap pl !! b) then
              c ← thread_local_batch_cache p g pl t; r ← release_begin pl c b;
              Done (settle t pcs (list_difference held [b]) r)
            else Done s
          else Done s
      end
  | EvExit t =>
      match pcs !! t with
      | Some _ => Done s
      | None => pl ← thread_exit pl t; Done (mkPT pl pcs held)
      end
  end.

Fixpoint pool_events (s : pool_threads F P) (evs : list (pool_event P)) : outcome (pool_threads F P) :=
  match evs with
  | [] => Done s
  | e :: evs => s ← pool_event_step s e; pool_events s evs
  end.

Definition pool_threads_new (factory : F) : outcome (pool_threads F P) :=
  pl ← BatchPool_with_factory p g factory; Done (mkPT pl ∅ []).
End steps.

(** ** Ownership

    Every live batch is with a caller, on the stack of an operation, in a
    cache or in a shard. *)

Definition flights (pcs : gmap nat pool_pc) : list nat := map_to_list pcs ≫= fun e => pc_batch e.2.

(** The refill counts at most one batch more than the cache holds. *)

Definition pc_ok (g : pool_cfg) (c : ThreadBatchCache) (pc : pool_pc) : Prop :=
  match pc with
  | TIndex | TSpillIndex _ => True
  | TCount adds _ => (length adds <= 4)%nat /\ Forall (fun a => forall n, a = AddAllocations n -> 0 <= n) adds
  | TPop idx | TAllocate idx | TSpill idx _ => 0 <= idx < cfg_shards g
  | THydrate idx _ allocated _ reused => 0 <= idx < cfg_shards g /\ 0 <= reused <= 1 + cache_len c /\ 0 <= allocated
  end.

Definition next_ok (g : pool_cfg) (c : ThreadBatchCache) (n : pool_next) : Prop :=
  match n with NStep pc => pc_ok g c pc | NReturn _ => True end.

Record threads_inv {F P} `{!BatchAllocation P, !AllocationLaws P} (g : pool_cfg) (s : pool_threads F P) : Prop := mkThreadsInv {
  ti_pool : pool_inv g (tp_pool s) (tp_held s ++ flights (tp_pcs s));
  ti_pcs : map_Forall (fun t pc => pc_ok g (cache_of (tp_pool s) t) pc) (tp_pcs s)
}.

Lemma flights_delete pcs t pc : pcs !! t = Some pc -> flights pcs ≡ₚ pc_batch pc ++ flights (delete t pcs).
Proof. intros E. unfold flights. by rewrite <- (map_to_list_delete _ _ _ E). Qed.

Lemma flights_insert pcs t pc : flights (<[t := pc]> pcs) ≡ₚ pc_batch pc ++ flights (delete t pcs).
Proof. rewrite (flights_delete _ t pc) by apply lookup_insert_eq. by rewrite delete_insert_eq. Qed.

Lemma flights_idle pcs t : pcs !! t = None -> flights pcs = flights (delete t pcs).
Proof. intros E. by rewrite delete_id. Qed.

Lemma pool_ok_perm {F P} `{!BatchAllocation P, !AllocationLaws P} g (pl : BatchPoolImpl F P) t c held held' :
  held' ≡ₚ held -> pool_ok g pl t c held -> pool_ok g pl t c held'.
Proof.
  intros Hp (Hb & Hc & Ho). split; [done|]. split; [done|]. by apply (owns_held_perm pl held).
Qed.

(** What a step of thread [t] preserves: the ownership, with the other owners'
    batches [rest] untouched. *)

Definition step_ok {F P} `{!BatchAllocation P, !AllocationLaws P} (g : pool_cfg) (t : nat) (rest : list nat) (pl : BatchPoolImpl F P)
    (r : outcome (BatchPoolImpl F P * ThreadBatchCache * pool_next)) : Prop :=
  exists pl' c' n, r = Done (pl', c', n) /\ pool_ok g pl' t c' (next_batch n ++ rest) /\ keeps pl' pl /\
    next_ok g c' n /\ frames rest pl' pl.

Section step_lemmas.
Context {F P : Type} `{!BatchAllocation P, !AllocationLaws P, !BatchFactory F P, FL : !FactoryLaws F P} (p : profile) (g : pool_cfg) (Hg : cfg_ok g).

Lemma frames_insert (pl pl' : BatchPoolImpl F P) rest b x :
  (b ∉ rest) -> frames rest pl' pl -> frames rest (pl_set_heap pl' (<[b := x]> (pl_heap pl'))) pl.
Proof. intros Hb Hf b' Hb'. cbn. rewrite lookup_insert_ne by (by intros ->). by apply Hf. Qed.

Lemma frames_refl (pl pl' : BatchPoolImpl F P) rest : pl_heap pl' = pl_heap pl -> frames rest pl' pl.
Proof. intros E b _. by rewrite E. Qed.

Lemma frames_trans (pl1 pl2 pl3 : BatchPoolImpl F P) rest : frames rest pl3 pl2 -> frames rest pl2 pl1 -> frames rest pl3 pl1.
Proof. intros H1 H2 b Hb. by rewrite H1, H2. Qed.

Lemma acquire_begin_step_ok (pl : BatchPoolImpl F P) t c rest :
  pool_ok g pl t c rest -> step_ok g t rest pl (acquire_begin p g pl c).
Proof.
  intros H. unfold acquire_begin, try_acquire_from_tls.
  destruct (cache_pop_ok p g pl t c rest H) as [[_ ->]|(b & c' & -> & H1 & _)]; cbn [mbind outcome_bind].
  - exists pl, c, (NStep TIndex). done.
  - destruct (acquire_ptr_ok g pl t c' (b :: rest) b H1 ltac:(by left)) as (x & Hx & -> & H2). cbn [mbind outcome_bind].
    eexists _, c', (NReturn [b]). do 4 (split; [done|]). apply frames_insert; [by apply (pool_held_new g pl t c')|done].
Qed.

Lemma push_step_ok (pl : BatchPoolImpl F P) t c rest b n :
  pool_ok g pl t c (b :: next_batch n ++ rest) -> cache_len c < cfg_tls_cap g ->
  (forall c', shard_idx c' = shard_idx c -> cache_len c' = cache_len c + 1 -> next_ok g c' n) ->
  exists hp c', cache_push p g (pl_heap pl) c b = Done (hp, c', None) /\
    step_ok g t rest pl (Done (pl_set_heap pl hp, c', n)).
Proof.
  intros H Hroom Hn. destruct (cache_push_ok p g pl t c _ b H Hroom) as (x & Hx & E & H'). cbv zeta in E, H'.
  eexists _, _. split; [exact E|]. eexists _, _, n. split; [done|]. split; [done|]. split; [done|]. split.
  - apply Hn; [done|]. unfold cache_len. cbn. autorewrite with lens. lia.
  - apply frames_insert; [|done]. pose proof (pool_held_new g pl t c _ b H) as Hb. intros Hin. apply Hb, elem_of_app. by right.
Qed.

Lemma release_begin_step_ok (pl : BatchPoolImpl F P) t c rest b x :
  pool_ok g pl t c (b :: rest) -> pl_heap pl !! b = Some x -> reset_safe (ba_batch x) = true ->
  step_ok g t rest pl (release_begin p g pl c b).
Proof.
  intros H Hx Hs. unfold release_begin, release_reset. destruct (obj_reset_ok p x (pool_heap_ok g pl t c _ H b x Hx) Hs) as (y & Ey & Hy & Hok).
  rewrite Hx, Ey. cbn [mbind outcome_bind]. rewrite Hy, decide_False by (by vm_compute). cbn [mbind outcome_bind].
  set (pl1 := pl_set_heap pl _).
  assert (H1 : pool_ok g pl1 t c (b :: rest)) by (by apply pool_update; [|left|]).
  assert (Hf : frames rest pl1 pl) by (apply frames_insert; [by apply (pool_held_new g pl t c)|done]).
  pose proof H as (_ & Hc & _). destruct (decide (cache_len c = cfg_tls_cap g)) as [Hfull|Hroom].
  - rewrite (cache_push_full p g _ c b Hc Hfull). cbn [mbind outcome_bind].
    eexists _, c, (NStep (TSpillIndex b)). split; [done|]. split; [by destruct pl1|]. split; [done|]. by split.
  - destruct Hc as [Hl _].
    destruct (push_step_ok pl1 t c rest b (NReturn []) H1 ltac:(lia) ltac:(done)) as (hp & c' & -> & pl2 & c2 & n & [= <- <- <-] & H2 & Hk & Hn & Hf2).
    cbn [mbind outcome_bind]. eexists _, _, (NReturn []). do 4 (split; [done|]). by apply (frames_trans _ pl1).
Qed.

Lemma hydrate_turn_step_ok (pl : BatchPoolImpl F P) t c rest idx b al bytes reused :
  pool_ok g pl t c (b :: rest) -> pc_ok g c (THydrate idx b al bytes reused) ->
  step_ok g t rest pl (hydrate_turn p g pl c idx b al bytes reused).
Proof using Hg.
  intros H (Hi & Hr & Hal). unfold hydrate_turn.
  assert (Hleave : step_ok g t rest pl (Done (pl, c, NStep (TCount (refill_adds al bytes reused) b)))).
  { eexists pl, c, (NStep (TCount _ b)). do 3 (split; [done|]). split; [|done].
    unfold refill_adds. do 2 case_decide; (split; [cbn; lia|]); repeat constructor; by intros n [= <-]. }
  case_decide as Hlt; [|apply Hleave].
  destruct Hg as (_ & _ & Hcap & _). pose proof (Z.div_lt (cfg_tls_cap g) 2 ltac:(lia) ltac:(lia)) as Hhalf.
  destruct (pop_global_ok p g pl t c (b :: rest) idx H Hi) as [-> | (pl1 & b' & -> & H1 & Hk & Hh)];
    cbn [mbind outcome_bind]; [apply Hleave|].
  rewrite add_w_small by lia. cbn [mbind outcome_bind].
  destruct (push_step_ok pl1 t c rest b' (NStep (THydrate idx b al bytes (reused + 1))) H1 ltac:(lia))
    as (hp & c' & -> & pl2 & c2 & n & [= <- <- <-] & H2 & Hk2 & Hn & Hf); [cbn; intros; lia|].
  cbn [mbind outcome_bind]. eexists _, _, _. split; [done|]. split; [done|].
  split; [by destruct Hk, Hk2|]. split; [done|]. apply (frames_trans _ pl1); [done|by apply frames_refl].
Qed.

Lemma spill_turn_step_ok (pl : BatchPoolImpl F P) t c rest idx b :
  pool_ok g pl t c (b :: rest) -> 0 <= idx < cfg_shards g ->
  step_ok g t rest pl (spill_turn p g pl c idx b).
Proof using Hg.
  intros H Hi. unfold spill_turn. destruct Hg as (_ & _ & Hcap & Ht). case_decide as Hge.
  - destruct (cache_pop_ok p g pl t c _ H) as [[He _]|(b1 & c' & -> & H1 & Hb & Hs)].
    { unfold cache_len, len in Hge. rewrite He in Hge. cbn in Hge. lia. }
    cbn [mbind outcome_bind]. destruct (spill_back_ok p g Hg pl t c' _ idx b1 H1 Hi) as (pl2 & E & H2 & Hk & Hh).
    destruct (push_to_global p g pl idx b1) as [[pl3 back]| | |]; [|done..]. cbn [mbind outcome_bind] in E |- *.
    rewrite E. cbn [mbind outcome_bind]. eexists pl2, c', (NStep (TSpill idx b)). do 4 (split; [done|]).
    intros b' Hb'. apply Hh. by right.
  - destruct (push_step_ok pl t c rest b (NReturn []) H ltac:(lia) ltac:(done)) as (hp & c' & -> & Hok). done.
Qed.

Lemma pc_step_ok (pl : BatchPoolImpl F P) t c rest pc bytes x0 :
  pool_ok g pl t c (pc_batch pc ++ rest) -> pc_ok g c pc -> allocate (pl_factory pl) = Done (bytes, x0) ->
  step_ok g t rest pl (pc_step p g pl c pc).
Proof using Hg FL.
  intros H Hpc Hall.
  destruct pc as [|idx|idx|idx b al by0 re|[|a adds] b|b|idx b]; cbn [pc_step].
  - destruct (shard_idx_ok g Hg pl t c rest H) as (pl' & c' & idx & -> & H' & Hi & _ & _ & Hk & Hh). cbn [mbind outcome_bind].
    eexists _, _, (NStep (TPop idx)). do 4 (split; [done|]). by apply frames_refl.
  - destruct (pop_global_ok p g pl t c rest idx H Hpc) as [-> | (pl1 & b' & -> & H1 & Hk & Hh)]; cbn [mbind outcome_bind].
    + by exists pl, c, (NStep (TAllocate idx)).
    + eexists _, _, (NStep (THydrate idx b' 0 0 1)). split; [done|]. split; [done|]. split; [done|].
      split; [|by apply frames_refl]. pose proof (len_nonneg (c_batches c)). unfold next_ok, pc_ok, cache_len. auto with lia.
  - rewrite Hall. cbn [mbind outcome_bind]. eexists _, _, (NStep (THydrate idx (pl_next pl) 1 bytes 0)). split; [done|].
    pose proof (pool_alloc g pl t c rest x0 H (allocate_ok _ _ _ Hall)) as Ha. split; [exact Ha|]. split; [done|].
    split; [pose proof (len_nonneg (c_batches c)); unfold next_ok, pc_ok, cache_len; auto with lia|].
    intros b' Hb'. cbn. rewrite lookup_insert_ne; [done|]. intros <-. by apply (pool_held_new g _ t c rest _ Ha).
  - by apply hydrate_turn_step_ok.
  - destruct (acquire_ptr_ok g pl t c (b :: rest) b H ltac:(by left)) as (x & Hx & -> & H2). cbn [mbind outcome_bind].
    eexists _, c, (NReturn [b]). do 4 (split; [done|]). apply frames_insert; [by apply (pool_held_new g pl t c)|done].
  - eexists _, c, (NStep (TCount adds b)). split; [done|]. split; [by apply pool_stats|]. destruct Hpc as [Hl Hf].
    split; [done|]. split; [|done]. split; [cbn in Hl; lia|by inversion Hf].
  - destruct (shard_idx_ok g Hg pl t c _ H) as (pl' & c' & idx & -> & H' & Hi & _ & _ & Hk & Hh). cbn [mbind outcome_bind].
    eexists _, _, (NStep (TSpill idx b)). do 4 (split; [done|]). by apply frames_refl.
  - by apply spill_turn_step_ok.
Qed.
End step_lemmas.

(** ** Schedules *)

(** The thread whose step an event is, and the batch a caller gives up or
    changes. *)

Definition ev_batch {P} (e : pool_event P) : option nat :=
  match e with EvUse b _ | EvRelease _ b => Some b | _ => None end.

(** The batches callers hold stay theirs and as they are, but for the one the
    event is about. *)

Definition isolates {F P} (e : pool_event P) (s s' : pool_threads F P) : Prop :=
  forall b, b ∈ tp_held s -> ev_batch e <> Some b ->
    b ∈ tp_held s' /\ pl_heap (tp_pool s') !! b = pl_heap (tp_pool s) !! b.

(** What a caller leaves of its batch is a valid allocation. *)

Definition keeps_valid {P} `{!BatchAllocation P, !AllocationLaws P} (e : pool_event P) : Prop :=
  match e with EvUse _ x => alloc_ok x | _ => True end.

Section schedules.
Context {F P : Type} `{!BatchAllocation P, !AllocationLaws P, !BatchFactory F P, FL : !FactoryLaws F P} (p : profile) (g : pool_cfg) (Hg : cfg_ok g).

Lemma settle_ok (pl : BatchPoolImpl F P) t pcs held r :
  step_ok g t (held ++ flights (delete t pcs)) pl r ->
  map_Forall (fun t pc => pc_ok g (cache_of pl t) pc) pcs ->
  exists r0, r = Done r0 /\ threads_inv g (settle t pcs held r0) /\
    pl_factory (tp_pool (settle t pcs held r0)) = pl_factory pl /\
    (forall b, b ∈ held -> b ∈ tp_held (settle t pcs held r0)) /\
    frames held (tp_pool (settle t pcs held r0)) pl.
Proof.
  intros (pl' & c' & n & -> & H & [Hc Hf] & Hn & Hfr) Hpcs. exists (pl', c', n). split; [done|].
  assert (Hold : forall t' pc, t' <> t -> pcs !! t' = Some pc -> pc_ok g (cache_of (pl_set_cache pl' t c') t') pc).
  { intros t' pc Hne E. unfold cache_of. cbn. rewrite lookup_insert_ne, Hc by done. by apply Hpcs. }
  assert (Hfr' : frames held (pl_set_cache pl' t c') pl) by (intros b Hb; apply Hfr, elem_of_app; by left).
  unfold settle. destruct n as [pc|bs]; cbn [tp_pool tp_held]; (split; [|split; [done|split; [|done]]]).
  - split; cbn [tp_pool tp_held tp_pcs].
    + apply (pool_inv_perm g _ (pc_batch pc ++ held ++ flights (delete t pcs))).
      * rewrite flights_insert. solve_Permutation.
      * by apply pool_leave.
    + intros t' pc' E. destruct (decide (t' = t)) as [->|Hne].
      * rewrite lookup_insert_eq in E. injection E as <-. unfold cache_of. cbn. by rewrite lookup_insert_eq.
      * rewrite lookup_insert_ne in E by done. by apply Hold.
  - done.
  - split; cbn [tp_pool tp_held tp_pcs].
    + apply (pool_inv_perm g _ (bs ++ held ++ flights (delete t pcs))); [solve_Permutation|by apply pool_leave].
    + intros t' pc' E. apply lookup_delete_Some in E as [Hne E]. by apply Hold.
  - intros b Hb. apply elem_of_app. by right.
Qed.

Lemma thread_cache_enter (pl : BatchPoolImpl F P) held t held' :
  pool_inv g pl held -> held' ≡ₚ held ->
  thread_local_batch_cache p g pl t = Done (cache_of pl t) /\ pool_ok g pl t (cache_of pl t) held'.
Proof using Hg.
  intros H Hp. destruct (pool_enter p g Hg pl held t H) as [E H']. split; [done|]. by apply (pool_ok_perm g pl t _ held).
Qed.

Lemma thread_exit_others (pl pl' : BatchPoolImpl F P) t t' : thread_exit pl t = Done pl' -> t' <> t -> cache_of pl' t' = cache_of pl t'.
Proof.
  unfold thread_exit. intros E Hne. destruct (pl_caches pl !! t); [|by injection E as <-].
  destruct (drop_batches _ _); [|done..]. cbn [mbind outcome_bind] in E. injection E as <-.
  unfold cache_of. cbn. by rewrite lookup_delete_ne.
Qed.

Definition event_ok (s : pool_threads F P) (e : pool_event P) : Prop :=
  exists s', pool_event_step p g s e = Done s' /\ threads_inv g s' /\ pl_factory (tp_pool s') = pl_factory (tp_pool s) /\
    isolates e s s'.

Lemma event_skip s e : threads_inv g s -> pool_event_step p g s e = Done s -> event_ok s e.
Proof. intros H E. by exists s. Qed.

Lemma release_rest (pl : BatchPoolImpl F P) pcs held t b :
  pool_inv g pl (held ++ flights pcs) -> b ∈ held -> pcs !! t = None ->
  thread_local_batch_cache p g pl t = Done (cache_of pl t) /\
  pool_ok g pl t (cache_of pl t) (b :: list_difference held [b] ++ flights (delete t pcs)).
Proof using Hg.
  intros Hpool Hb Et. apply (thread_cache_enter pl _ t _ Hpool).
  assert (Hn : NoDup held).
  { pose proof (ow_nodup _ _ _ (proj2 Hpool)) as Hn. apply NoDup_app in Hn as [Hn _]. by apply NoDup_app in Hn as [Hn _]. }
  rewrite (flights_idle pcs t Et), app_comm_cons. apply Permutation_app_tail. symmetry. by apply held_split.
Qed.

Lemma release_event_ok pl pcs held t b :
  threads_inv g (mkPT pl pcs held) -> event_ok (mkPT pl pcs held) (EvRelease t b).
Proof using Hg.
  intros H. pose proof H as [Hpool Hpcs]. cbn [tp_pool tp_pcs tp_held] in *.
  destruct (pcs !! t) as [pc|] eqn:Et; [by apply event_skip; [|cbn; rewrite Et]|].
  destruct (decide (b ∈ held)) as [Hb|Hb]; [|by apply event_skip; [|cbn; rewrite Et, decide_False]].
  destruct (from_option (fun x => reset_safe (ba_batch x)) false (pl_heap pl !! b)) eqn:Hs;
    [|by apply event_skip; [|cbn; rewrite Et, decide_True, Hs by done]].
  destruct (pl_heap pl !! b) as [x|] eqn:Hx; [|done]. cbn [from_option] in Hs.
  set (rest := list_difference held [b]). destruct (release_rest pl pcs held t b Hpool Hb Et) as [E H0].
  destruct (settle_ok pl t pcs rest _ (release_begin_step_ok p g pl t _ _ b x H0 Hx Hs) Hpcs)
    as (r & Er & Hinv & Hf & Hin & Hfr).
  exists (settle t pcs rest r). split.
  { cbn. rewrite Et, decide_True, Hx by done. cbn [from_option]. rewrite Hs, E. cbn [mbind outcome_bind]. by rewrite Er. }
  split; [done|]. split; [done|]. intros b' Hb' Hne. cbn in Hb', Hne.
  assert (b' ∈ rest) by (apply list_elem_of_difference; split; [done|intros Hbb%list_elem_of_singleton; congruence]).
  split; [by apply Hin|by apply Hfr].
Qed.

Lemma pool_event_ok s e bytes x0 :
  threads_inv g s -> allocate (pl_factory (tp_pool s)) = Done (bytes, x0) -> keeps_valid e -> event_ok s e.
Proof using Hg FL.
  destruct s as [pl pcs held]. intros H Hall Hv. pose proof H as [Hpool Hpcs]. cbn [tp_pool tp_pcs tp_held] in *.
  destruct e as [t|t|b x|t b|t].
  - destruct (pcs !! t) as [pc|] eqn:Et; [by apply event_skip; [|cbn; rewrite Et]|].
    destruct (thread_cache_enter pl _ t (held ++ flights (delete t pcs)) Hpool) as [E H0]; [by rewrite (flights_idle pcs t Et)|].
    destruct (settle_ok pl t pcs held _ (acquire_begin_step_ok p g pl t _ _ H0) Hpcs) as (r & Er & Hinv & Hf & Hin & Hfr).
    exists (settle t pcs held r). split; [cbn; rewrite Et, E; cbn [mbind outcome_bind]; by rewrite Er|].
    split; [done|]. split; [done|]. intros b Hb _. split; [by apply Hin|by apply Hfr].
  - destruct (pcs !! t) as [pc|] eqn:Et; [|by apply event_skip; [|cbn; rewrite Et]].
    destruct (thread_cache_enter pl _ t (pc_batch pc ++ held ++ flights (delete t pcs)) Hpool) as [E H0].
    { rewrite (flights_delete pcs t pc Et). solve_Permutation. }
    pose proof (pc_step_ok p g Hg pl t _ _ pc bytes x0 H0 (Hpcs t pc Et) Hall) as Hs.
    destruct (settle_ok pl t pcs held _ Hs Hpcs) as (r & Er & Hinv & Hf & Hin & Hfr).
    exists (settle t pcs held r). split; [cbn; rewrite Et, E; cbn [mbind outcome_bind]; by rewrite Er|].
    split; [done|]. split; [done|]. intros b Hb _. split; [by apply Hin|by apply Hfr].
  - destruct (decide (b ∈ held)) as [Hb|Hb]; [|by apply event_skip; [|cbn; rewrite decide_False]].
    eexists. split; [cbn; by rewrite decide_True|]. split; [|split; [done|]].
    + split; [|done]. cbn. destruct Hpool as [Hbd Ho]. split; [by destruct Hbd|].
      apply (owns_update pl _ _ (stored pl) b x Ho); [apply elem_of_app; by left|done..].
    + intros b' Hb' Hne. split; [done|]. cbn in *. rewrite lookup_insert_ne; [done|]. congruence.
  - by apply release_event_ok.
  - destruct (pcs !! t) as [pc|] eqn:Et; [by apply event_skip; [|cbn; rewrite Et]|].
    destruct (thread_exit_ok g pl _ t Hpool) as (pl' & E & H' & Hf & _ & Hfr & _).
    exists (mkPT pl' pcs held). split; [cbn; by rewrite Et, E|]. split; [|split; [done|]].
    + split; [done|]. cbn. intros t' pc E'. assert (t' <> t) by (intros ->; congruence).
      rewrite (thread_exit_others pl pl' t t' E) by done. by apply Hpcs.
    + intros b Hb _. split; [done|]. apply Hfr, elem_of_app. by left.
Qed.

Lemma pool_events_ok evs : forall s bytes x0,
  Forall keeps_valid evs -> threads_inv g s -> allocate (pl_factory (tp_pool s)) = Done (bytes, x0) ->
  exists s', pool_events p g s evs = Done s' /\ threads_inv g s' /\ pl_factory (tp_pool s') = pl_factory (tp_pool s).
Proof using Hg FL.
  induction evs as [|e evs IH]; intros s bytes x0 Hv H Hall; [by exists s|]. cbn [pool_events].
  apply Forall_cons in Hv as [Hv Hvs].
  destruct (pool_event_ok s e bytes x0 H Hall Hv) as (s1 & -> & H1 & Hf1 & _). cbn [mbind outcome_bind].
  destruct (IH s1 bytes x0 Hvs H1 ltac:(by rewrite Hf1)) as (s2 & -> & H2 & Hf2). exists s2. by rewrite Hf2.
Qed.

Lemma threads_new_ok (f : F) : exists s, pool_threads_new p g f = Done s /\ threads_inv g s /\
  pl_factory (tp_pool s) = f /\ tp_pcs s = ∅ /\ tp_held s = [] /\ pl_next (tp_pool s) = 0%nat /\
  pl_stats (tp_pool s) = BatchPoolStats_new.
Proof using Hg.
  destruct (with_factory_ok p g Hg f) as (pl & E & H & Hf). unfold pool_threads_new. rewrite E. cbn [mbind outcome_bind].
  exists (mkPT pl ∅ []). split; [done|]. split; [by split|]. split; [done|]. split; [done|]. split; [done|].
  unfold BatchPool_with_factory in E. destruct (BatchPoolShard_new p g); [|done..]. cbn [mbind outcome_bind] in E.
  by injection E as <-.
Qed.
End schedules.

(** ** Counting allocations

    The allocations statistic, with the additions that operations have still
    to make, is the number of allocations so far, modulo its width. *)

Definition next_uncounted (n : pool_next) : nat := match n with NStep pc => pc_uncounted pc | NReturn _ => 0%nat end.

Definition counted {F P} (pl : BatchPoolImpl F P) (k : nat) : Prop :=
  wrap usize_bits (allocations (pl_stats pl) + Z.of_nat k) = wrap usize_bits (Z.of_nat (pl_next pl)).

Definition same_counts {F P} (pl' pl : BatchPoolImpl F P) : Prop := pl_stats pl' = pl_stats pl /\ pl_next pl' = pl_next pl.

Lemma same_counts_counted {F P} (pl' pl : BatchPoolImpl F P) k : same_counts pl' pl -> counted pl k -> counted pl' k.
Proof. unfold counted. by intros [-> ->]. Qed.

Lemma wrap_add_step a n k : wrap usize_bits (wrap usize_bits (a + n) + k) = wrap usize_bits (a + (n + k)).
Proof. unfold wrap. rewrite Zplus_mod_idemp_l. f_equal. lia. Qed.

Lemma stat_apply_counted a adds (s : BatchPoolStats) k :
  (forall n, a = AddAllocations n -> 0 <= n) ->
  wrap usize_bits (allocations s + Z.of_nat (sum_list_with add_allocations (a :: adds) + k)) =
  wrap usize_bits (allocations (stat_apply a s) + Z.of_nat (sum_list_with add_allocations adds + k)).
Proof.
  intros Hn. destruct a as [|n|n|n]; cbn; try done. pose proof (Hn n eq_refl). rewrite wrap_add_step. f_equal. lia.
Qed.

Section counts.
Context {F P : Type} `{!BatchAllocation P, !AllocationLaws P, !BatchFactory F P, FL : !FactoryLaws F P} (p : profile) (g : pool_cfg).

Lemma pop_global_counts (pl pl' : BatchPoolImpl F P) idx r : pop_from_global p g pl idx = Done (pl', r) -> same_counts pl' pl.
Proof. unfold pop_from_global. intros H. inv_bind H. destruct a0. by inv_bind H. Qed.

Lemma push_global_counts (pl pl' : BatchPoolImpl F P) idx b r : push_to_global p g pl idx b = Done (pl', r) -> same_counts pl' pl.
Proof. unfold push_to_global. intros H. inv_bind H. destruct a0 as [[? ?] ?]. by inv_bind H. Qed.

Lemma shard_idx_counts (pl pl' : BatchPoolImpl F P) c c' idx :
  shard_idx_for_cache g pl c = Done (pl', c', idx) -> same_counts pl' pl.
Proof.
  unfold shard_idx_for_cache, assign_shard_idx. intros H. destruct (shard_idx c); [by inv_bind H|].
  case_decide; [done|]. by inv_bind H.
Qed.

Lemma acquire_ptr_counts (pl pl' : BatchPoolImpl F P) b : acquire_ptr pl b = Done pl' -> same_counts pl' pl.
Proof. unfold acquire_ptr. intros H. destruct (pl_heap pl !! b); [|done]. by inv_bind H. Qed.

Lemma try_acquire_counts (pl pl' : BatchPoolImpl F P) c c' r :
  try_acquire_from_tls p g pl c = Done (pl', c', r) -> same_counts pl' pl.
Proof.
  unfold try_acquire_from_tls. intros H. inv_bind H. destruct a as [c1 [b|]]; inv_bind H; [|done].
  by apply (acquire_ptr_counts _ _ b).
Qed.

Lemma acquire_begin_counts (pl pl' : BatchPoolImpl F P) c c' n :
  acquire_begin p g pl c = Done (pl', c', n) -> same_counts pl' pl /\ next_uncounted n = 0%nat.
Proof.
  unfold acquire_begin. intros H. inv_bind H. destruct a as [[pl1 c1] r]. inv_bind H.
  split; [by apply (try_acquire_counts _ _ c c' r)|]. by destruct r.
Qed.

Lemma release_begin_counts (pl pl' : BatchPoolImpl F P) c c' b n :
  release_begin p g pl c b = Done (pl', c', n) -> same_counts pl' pl /\ next_uncounted n = 0%nat.
Proof.
  unfold release_begin, release_reset. intros H. destruct (pl_heap pl !! b); [|done]. inv_bind H. inv_bind E.
  destruct a0 as [[hp c1] back]. inv_bind H. by destruct back.
Qed.

Lemma refill_adds_total al by0 re : sum_list_with add_allocations (refill_adds al by0 re) = Z.to_nat al.
Proof. unfold refill_adds. do 2 case_decide; cbn; try lia. all: replace al with 0 by lia; done. Qed.

Lemma hydrate_turn_counts (pl pl' : BatchPoolImpl F P) c c' idx b al by0 re n :
  hydrate_turn p g pl c idx b al by0 re = Done (pl', c', n) -> same_counts pl' pl /\ next_uncounted n = Z.to_nat al.
Proof.
  unfold hydrate_turn. intros H. case_decide; [|inv_bind H; split; [done|apply refill_adds_total]].
  inv_bind H. destruct a as [pl1 [b1|]]; [|inv_bind H; split; [by apply (pop_global_counts pl pl' idx None)|apply refill_adds_total]].
  inv_bind H. destruct a0 as [[hp c1] back]. inv_bind H. split; [|done].
  by apply (pop_global_counts pl pl1 idx (Some b1)).
Qed.

Lemma spill_turn_counts (pl pl' : BatchPoolImpl F P) c c' idx b n :
  spill_turn p g pl c idx b = Done (pl', c', n) -> same_counts pl' pl /\ next_uncounted n = 0%nat.
Proof.
  unfold spill_turn. intros H. case_decide.
  - inv_bind H. destruct a as [c1 [b1|]]; [|done]. inv_bind H. destruct a as [pl1 back]. inv_bind H.
    split; [|done]. apply push_global_counts in E0. destruct back; inv_bind E1; done.
  - inv_bind H. destruct a as [[hp c1] [back|]]; [done|]. by inv_bind H.
Qed.

Lemma pc_step_counts (pl pl' : BatchPoolImpl F P) c c' c0 pc n k :
  pc_step p g pl c pc = Done (pl', c', n) -> pc_ok g c0 pc ->
  counted pl (pc_uncounted pc + k) -> counted pl' (next_uncounted n + k).
Proof.
  intros H Hok Hk. destruct pc as [|idx|idx|idx b al by0 re|[|a adds] b|b|idx b]; cbn [pc_step pc_uncounted] in *.
  - inv_bind H. destruct a as [[pl1 c1] i]. inv_bind H. apply (same_counts_counted _ pl); [|done]. by apply shard_idx_counts in E.
  - inv_bind H. destruct a as [pl1 r]. inv_bind H. apply pop_global_counts in E.
    apply (same_counts_counted _ pl); [done|]. by destruct r.
  - inv_bind H. destruct a as [by1 x]. unfold pl_alloc in H. inv_bind H. unfold counted in *.
    cbn [pl_stats pl_next next_uncounted pc_uncounted]. change (Z.to_nat 1) with 1%nat.
    replace (Z.of_nat (1 + k)) with (Z.of_nat (0 + k) + 1) by lia. rewrite Nat2Z.inj_succ, Z.add_assoc.
    unfold wrap in *. rewrite <- (Zplus_mod_idemp_l (allocations _ + _)), Hk, Zplus_mod_idemp_l. f_equal.
  - destruct (hydrate_turn_counts _ _ _ _ _ _ _ _ _ _ H) as [Hs ->]. by apply (same_counts_counted _ pl).
  - inv_bind H. apply acquire_ptr_counts in E. by apply (same_counts_counted _ pl).
  - inv_bind H. destruct Hok as [_ Hok]. inversion Hok as [|? ? Ha _]; subst. unfold counted in *.
    cbn [pl_stats pl_next pl_set_stats next_uncounted pc_uncounted]. rewrite <- stat_apply_counted by done. done.
  - inv_bind H. destruct a as [[pl1 c1] i]. inv_bind H. apply (same_counts_counted _ pl); [|done]. by apply shard_idx_counts in E.
  - destruct (spill_turn_counts _ _ _ _ _ _ _ H) as [Hs ->]. by apply (same_counts_counted _ pl).
Qed.
End counts.

Definition all_counted {F P} (s : pool_threads F P) : Prop := counted (tp_pool s) (total pc_uncounted (tp_pcs s)).

Section count_schedules.
Context {F P : Type} `{!BatchAllocation P, !AllocationLaws P, !BatchFactory F P, FL : !FactoryLaws F P} (p : profile) (g : pool_cfg).

Lemma settle_counts (pl : BatchPoolImpl F P) c n t pcs held :
  counted pl (next_uncounted n + total pc_uncounted (delete t pcs)) -> all_counted (settle t pcs held (pl, c, n)).
Proof.
  intros H. unfold settle, all_counted. destruct n as [pc|bs]; cbn [tp_pool tp_pcs].
  - rewrite (total_delete _ _ t pc), delete_insert_eq by apply lookup_insert_eq. done.
  - done.
Qed.

Lemma thread_exit_counts (pl pl' : BatchPoolImpl F P) t : thread_exit pl t = Done pl' -> same_counts pl' pl.
Proof. unfold thread_exit. intros H. destruct (pl_caches pl !! t); by inv_bind H. Qed.

Lemma pool_event_counts (s s' : pool_threads F P) e :
  threads_inv g s -> all_counted s -> pool_event_step p g s e = Done s' -> all_counted s'.
Proof.
  destruct s as [pl pcs held]. intros [_ Hpcs] Hc H. unfold all_counted in Hc. cbn [tp_pool tp_pcs] in *.
  assert (Hidle : forall t, pcs !! t = None -> total pc_uncounted (delete t pcs) = total pc_uncounted pcs)
    by (intros t E; by rewrite delete_id).
  destruct e as [t|t|b x|t b|t]; cbn [pool_event_step] in H.
  - destruct (pcs !! t) as [pc|] eqn:Et; inv_bind H; [done|]. destruct a0 as [[pl1 c1] n].
    apply acquire_begin_counts in E0 as [Hs Hn]. apply settle_counts. rewrite Hn, (Hidle t Et). by apply (same_counts_counted _ pl).
  - destruct (pcs !! t) as [pc|] eqn:Et; inv_bind H; [|done]. destruct a0 as [[pl1 c1] n].
    apply settle_counts. eapply (pc_step_counts p g pl pl1 _ _ (cache_of pl t) pc n _ E0 (Hpcs t pc Et)).
    by rewrite <- total_delete.
  - case_decide; by inv_bind H.
  - destruct (pcs !! t) as [pc|] eqn:Et; [by inv_bind H|]. case_decide; [|by inv_bind H].
    destruct (from_option _ _ _); inv_bind H; [|done]. destruct a0 as [[pl1 c1] n].
    apply release_begin_counts in E0 as [Hs Hn]. apply settle_counts. rewrite Hn, (Hidle t Et). by apply (same_counts_counted _ pl).
  - destruct (pcs !! t) as [pc|] eqn:Et; inv_bind H; [done|]. apply thread_exit_counts in E. by apply (same_counts_counted _ pl).
Qed.

Lemma pool_events_counts evs : forall (s s' : pool_threads F P) bytes x0,
  cfg_ok g -> Forall keeps_valid evs -> threads_inv g s -> allocate (pl_factory (tp_pool s)) = Done (bytes, x0) ->
  all_counted s -> pool_events p g s evs = Done s' -> all_counted s'.
Proof.
  induction evs as [|e evs IH]; intros s s' bytes x0 Hg Hv H Hall Hc E; cbn [pool_events] in E; [by injection E as <-|].
  apply Forall_cons in Hv as [Hv Hvs].
  destruct (pool_event_ok p g Hg s e bytes x0 H Hall Hv) as (s1 & E1 & H1 & Hf1 & _). rewrite E1 in E. cbn [mbind outcome_bind] in E.
  apply (IH s1 s' bytes x0 Hg Hvs H1 ltac:(by rewrite Hf1)); [|done]. by apply (pool_event_counts s s1 e).
Qed.
End count_schedules.

(** ** The end of operations

    Nothing a thread waits for: its own cache bounds both loops, and the other
    threads never touch that cache.  [pc_left] is how many of its own steps an
    operation has left at most. *)

Definition pc_left (g : pool_cfg) (c : ThreadBatchCache) (pc : pool_pc) : nat :=
  match pc with
  | TIndex => Z.to_nat (cfg_tls_cap g) + 9
  | TPop _ => Z.to_nat (cfg_tls_cap g / 2 - cache_len c) + 8
  | TAllocate _ => Z.to_nat (cfg_tls_cap g / 2 - cache_len c) + 7
  | THydrate _ _ _ _ _ => Z.to_nat (cfg_tls_cap g / 2 - cache_len c) + 6
  | TCount adds _ => length adds + 1
  | TSpillIndex _ => Z.to_nat (cache_len c) + 2
  | TSpill _ _ => Z.to_nat (cache_len c) + 1
  end.

Definition next_left (g : pool_cfg) (c : ThreadBatchCache) (n : pool_next) : nat :=
  match n with NStep pc => pc_left g c pc | NReturn _ => 0%nat end.

(** The steps of thread [t] in a schedule. *)

Fixpoint runs_of {P} (t : nat) (evs : list (pool_event P)) : nat :=
  match evs with
  | [] => 0
  | EvRun u :: evs => if decide (u = t) then S (runs_of t evs) else runs_of t evs
  | _ :: evs => runs_of t evs
  end.

Section ends.
Context {F P : Type} `{!BatchAllocation P, !AllocationLaws P, !BatchFactory F P, FL : !FactoryLaws F P} (p : profile) (g : pool_cfg) (Hg : cfg_ok g).

Lemma cache_push_len hp hp' c c' b back :
  cache_push p g hp c b = Done (hp', c', back) -> cache_len c < cfg_tls_cap g -> cache_len c' = cache_len c + 1.
Proof.
  unfold cache_push. intros H Hl. inv_bind H. case_decide; [lia|]. inv_bind H. unfold cache_len. cbn.
  autorewrite with lens. lia.
Qed.

Lemma cache_pop_len c c' b : cache_pop p g c = Done (c', Some b) -> cache_len c = cache_len c' + 1.
Proof.
  unfold cache_pop. intros H. inv_bind H. destruct (vec_pop (c_batches c)) as [[r x]|] eqn:E0; [|done].
  injection H as <- _. apply vec_pop_Some in E0. unfold cache_len. rewrite E0. cbn. autorewrite with lens. done.
Qed.

Lemma shard_idx_len (pl pl' : BatchPoolImpl F P) c c' i :
  shard_idx_for_cache g pl c = Done (pl', c', i) -> cache_len c' = cache_len c.
Proof.
  unfold shard_idx_for_cache, assign_shard_idx. intros H. destruct (shard_idx c); [by inv_bind H|].
  case_decide; [done|]. by inv_bind H.
Qed.

Lemma refill_adds_length al by0 re : (length (refill_adds al by0 re) <= 4)%nat.
Proof. unfold refill_adds. do 2 case_decide; cbn; lia. Qed.

Lemma pc_step_left (pl pl' : BatchPoolImpl F P) c c' pc n :
  pc_step p g pl c pc = Done (pl', c', n) -> (next_left g c' n < pc_left g c pc)%nat.
Proof using Hg.
  intros H. pose proof (len_nonneg (c_batches c)) as Hc. fold (cache_len c) in Hc.
  destruct Hg as (_ & _ & Hcap & _). pose proof (Z.div_lt (cfg_tls_cap g) 2 ltac:(lia) ltac:(lia)) as Hhalf.
  destruct pc as [|idx|idx|idx b al by0 re|[|a adds] b|b|idx b]; cbn [pc_step] in H.
  - inv_bind H. destruct a as [[pl1 c1] i]. inv_bind H. apply shard_idx_len in E. unfold next_left, pc_left. lia.
  - inv_bind H. destruct a as [pl1 [b|]]; inv_bind H; unfold next_left, pc_left; lia.
  - inv_bind H. destruct a as [by1 x]. unfold pl_alloc in H. inv_bind H. unfold next_left, pc_left. lia.
  - unfold hydrate_turn in H. pose proof (refill_adds_length al by0 re) as Hl.
    case_decide; [|inv_bind H; unfold next_left, pc_left; lia].
    inv_bind H. destruct a as [pl1 [b1|]]; inv_bind H; [|unfold next_left, pc_left; lia].
    destruct a0 as [[hp c1] back]. inv_bind H. apply cache_push_len in E1; [|lia]. unfold next_left, pc_left. lia.
  - inv_bind H. cbn. lia.
  - inv_bind H. cbn. lia.
  - inv_bind H. destruct a as [[pl1 c1] i]. inv_bind H. apply shard_idx_len in E. unfold next_left, pc_left. lia.
  - unfold spill_turn in H. case_decide.
    + inv_bind H. destruct a as [c1 [b1|]]; [|done]. inv_bind H. destruct a as [pl1 back]. inv_bind H.
      apply cache_pop_len in E. unfold next_left, pc_left. pose proof (len_nonneg (c_batches c')) as Hc1. fold (cache_len c') in Hc1. lia.
    + inv_bind H. destruct a as [[hp c1] [back|]]; [done|]. inv_bind H. cbn. lia.
Qed.

Lemma pc_left_bound c pc : cache_ok g c -> pc_ok g c pc -> (pc_left g c pc <= Z.to_nat (cfg_tls_cap g) + 9)%nat.
Proof using Hg.
  intros [Hl _] Hpc. destruct Hg as (_ & _ & Hcap & _). pose proof (Z.div_lt (cfg_tls_cap g) 2 ltac:(lia) ltac:(lia)).
  pose proof (len_nonneg (c_batches c)) as Hc. fold (cache_len c) in Hc. destruct pc; cbn in *; lia.
Qed.

Lemma settle_other (pl : BatchPoolImpl F P) t t' pcs held r :
  step_ok g t held pl (Done r) -> t' <> t -> forall held',
  tp_pcs (settle t pcs held' r) !! t' = pcs !! t' /\ cache_of (tp_pool (settle t pcs held' r)) t' = cache_of pl t'.
Proof.
  intros (pl' & c' & n & [= ->] & _ & [Hc _] & _) Hne held'. unfold settle, cache_of.
  destruct n; cbn; rewrite !(lookup_insert_ne _ t t') by done; rewrite ?(lookup_delete_ne _ t t'), Hc by done; done.
Qed.

(** The other threads' steps leave an operation where it is, with its cache. *)

Lemma event_other (s s' : pool_threads F P) e t pc bytes x0 :
  threads_inv g s -> allocate (pl_factory (tp_pool s)) = Done (bytes, x0) -> tp_pcs s !! t = Some pc ->
  e <> EvRun t -> pool_event_step p g s e = Done s' ->
  tp_pcs s' !! t = Some pc /\ cache_of (tp_pool s') t = cache_of (tp_pool s) t.
Proof using Hg FL.
  destruct s as [pl pcs held]. intros [Hpool Hpcs] Hall Et Hne H. cbn [tp_pool tp_pcs tp_held] in *.
  destruct e as [u|u|b x|u b|u]; cbn [pool_event_step] in H.
  - destruct (pcs !! u) as [pc'|] eqn:Eu; inv_bind H; [done|]. assert (Htu : t <> u) by (intros ->; congruence).
    destruct (thread_cache_enter p g Hg pl _ u _ Hpool (reflexivity _)) as [Eu' H0]. rewrite E in Eu'. injection Eu' as ->.
    pose proof (acquire_begin_step_ok p g pl u _ _ H0) as Hs. rewrite E0 in Hs.
    destruct (settle_other pl u t pcs _ _ Hs ltac:(done) held) as [-> ->]. done.
  - assert (Htu : t <> u) by (intros ->; congruence). destruct (pcs !! u) as [pc'|] eqn:Eu; inv_bind H; [|done].
    destruct (thread_cache_enter p g Hg pl _ u (pc_batch pc' ++ held ++ flights (delete u pcs)) Hpool) as [Eu' H0].
    { rewrite (flights_delete pcs u pc' Eu). solve_Permutation. }
    rewrite E in Eu'. injection Eu' as ->. pose proof (pc_step_ok p g Hg pl u _ _ pc' bytes x0 H0 (Hpcs u pc' Eu) Hall) as Hs.
    rewrite E0 in Hs. destruct (settle_other pl u t pcs _ _ Hs ltac:(done) held) as [-> ->]. done.
  - case_decide; by inv_bind H.
  - destruct (pcs !! u) as [pc'|] eqn:Eu; [by inv_bind H|]. assert (Htu : t <> u) by (intros ->; congruence).
    case_decide as Hb; [|by inv_bind H]. destruct (from_option _ _ _) eqn:Hs; inv_bind H; [|done].
    destruct (release_rest p g Hg pl pcs held u b Hpool Hb Eu) as [E1 H0].
    rewrite E in E1. injection E1 as ->. destruct (pl_heap pl !! b) as [x|] eqn:Hx; [|done].
    pose proof (release_begin_step_ok p g pl u _ _ b x H0 Hx Hs) as Hok. rewrite E0 in Hok.
    destruct (settle_other pl u t pcs _ _ Hok ltac:(done) (list_difference held [b])) as [-> ->]. done.
  - destruct (pcs !! u) as [pc'|] eqn:Eu; inv_bind H; [done|]. assert (Htu : t <> u) by (intros ->; congruence). split; [done|].
    cbn. by apply (thread_exit_others _ _ u).
Qed.

Lemma run_of_thread (e : pool_event P) t : e = EvRun t \/ e <> EvRun t.
Proof. destruct e as [|u| | |]; try by right. destruct (decide (u = t)) as [->|]; [by left|]. right. congruence. Qed.

Lemma operation_left evs : forall s t bytes x0,
  Forall keeps_valid evs -> threads_inv g s -> allocate (pl_factory (tp_pool s)) = Done (bytes, x0) ->
  (forall pc, tp_pcs s !! t = Some pc -> (pc_left g (cache_of (tp_pool s) t) pc <= runs_of t evs)%nat) ->
  exists evs3 evs4 s2, evs = evs3 ++ evs4 /\ pool_events p g s evs3 = Done s2 /\ tp_pcs s2 !! t = None.
Proof using Hg FL.
  induction evs as [|e evs IH]; intros s t bytes x0 Hv H Hall Hl; (destruct (tp_pcs s !! t) as [pc|] eqn:Et;
    [specialize (Hl pc eq_refl)|eexists [], _, s; split; [reflexivity|done]]).
  { exfalso. destruct pc; cbn in Hl; lia. }
  apply Forall_cons in Hv as [Hv Hvs].
  destruct (pool_event_ok p g Hg s e bytes x0 H Hall Hv) as (s1 & E1 & H1 & Hf1 & _).
  destruct (IH s1 t bytes x0 Hvs H1) as (evs3 & evs4 & s2 & -> & E2 & Et2); [by rewrite Hf1| |].
  - intros pc1 Et1. destruct (run_of_thread e t) as [->|Hne].
    + destruct s as [pl pcs held]. cbn [pool_event_step tp_pcs tp_pool] in *. rewrite Et in E1. inv_bind E1.
      destruct (thread_cache_enter p g Hg pl _ t _ (ti_pool _ _ H) (reflexivity _)) as [Ec _]. cbn in Ec. rewrite E in Ec.
      injection Ec as ->. destruct a0 as [[pl1 c1] n]. pose proof (pc_step_left _ _ _ _ _ _ E0) as Hlt.
      destruct n as [pc2|bs]; cbn [settle tp_pcs tp_pool next_left] in *;
        [rewrite lookup_insert_eq in Et1|by rewrite lookup_delete_eq in Et1]. injection Et1 as <-.
      unfold cache_of at 1. cbn [pl_set_cache pl_caches]. rewrite lookup_insert_eq. change (default empty_cache (Some c1)) with c1.
      cbn [runs_of] in Hl. rewrite decide_True in Hl by done. lia.
    + destruct (event_other s s1 e t pc bytes x0 H Hall Et Hne E1) as [Et1' ->]. rewrite Et1 in Et1'. injection Et1' as ->.
      destruct e as [|u| | |]; cbn [runs_of] in Hl; try done. rewrite decide_False in Hl by congruence. done.
  - exists (e :: evs3), evs4, s2. split; [done|]. cbn [pool_events]. by rewrite E1.
Qed.

Lemma operation_ends evs s t bytes x0 :
  Forall keeps_valid evs -> threads_inv g s -> allocate (pl_factory (tp_pool s)) = Done (bytes, x0) ->
  (Z.to_nat (cfg_tls_cap g) + 9 <= runs_of t evs)%nat ->
  exists evs3 evs4 s2, evs = evs3 ++ evs4 /\ pool_events p g s evs3 = Done s2 /\ tp_pcs s2 !! t = None.
Proof using Hg FL.
  intros Hv H Hall Hr. apply (operation_left evs s t bytes x0 Hv H Hall). intros pc Et.
  destruct (thread_cache_enter p g Hg _ _ t _ (ti_pool _ _ H) (reflexivity _)) as [_ (_ & Hc & _)].
  pose proof (pc_left_bound _ pc Hc (ti_pcs _ _ H t pc Et)). lia.
Qed.
End ends.

(** ** A thread on its own

    Undisturbed, the steps of an operation do what its function in [Pool]
    does: [solo] runs them one after the other. *)

Section solo.
Context {F P : Type} `{!BatchAllocation P, !AllocationLaws P, !BatchFactory F P, FL : !FactoryLaws F P} (p : profile) (g : pool_cfg).

Fixpoint solo (fuel : nat) (pl : BatchPoolImpl F P) (c : ThreadBatchCache) (pc : pool_pc)
  : outcome (BatchPoolImpl F P * ThreadBatchCache * list nat) :=
  match fuel with
  | O => NoFuel
  | S fuel =>
      '(pl, c, n) ← pc_step p g pl c pc;
      match n with NStep pc => solo fuel pl c pc | NReturn bs => Done (pl, c, bs) end
  end.

Lemma solo_step (pl pl1 : BatchPoolImpl F P) c c1 pc pc1 r :
  pc_step p g pl c pc = Done (pl1, c1, NStep pc1) -> (exists k, solo k pl1 c1 pc1 = Done r) ->
  exists k, solo k pl c pc = Done r.
Proof. intros E [k Hk]. exists (S k). cbn [solo]. by rewrite E. Qed.

Lemma solo_count adds : forall (pl pl' : BatchPoolImpl F P) c b,
  acquire_ptr (pl_set_stats pl (fold_left (fun s a => stat_apply a s) adds (pl_stats pl))) b = Done pl' ->
  solo (length adds + 1) pl c (TCount adds b) = Done (pl', c, [b]).
Proof.
  induction adds as [|a adds IH]; intros pl pl' c b H.
  - cbn [fold_left] in H. replace (pl_set_stats pl (pl_stats pl)) with pl in H by (by destruct pl).
    cbn [length Nat.add solo pc_step]. by rewrite H.
  - cbn. by apply (IH (pl_set_stats pl (stat_apply a (pl_stats pl))) pl' c b).
Qed.

Lemma refill_adds_count s al by0 re : fold_left (fun s a => stat_apply a s) (refill_adds al by0 re) s = count_refill s al by0 re.
Proof. unfold refill_adds, count_refill. by repeat case_decide. Qed.

Lemma solo_hydrate fuel : forall (pl pl' : BatchPoolImpl F P) c c' idx b al by0 re re' r,
  hydrate p g fuel pl c idx re = Done (pl', c', re') ->
  (exists k, solo k pl' c' (TCount (refill_adds al by0 re') b) = Done r) ->
  exists k, solo k pl c (THydrate idx b al by0 re) = Done r.
Proof.
  induction fuel as [|fuel IH]; intros pl pl' c c' idx b al by0 re re' r H Hk; [done|].
  assert (Hleave : hydrate_turn p g pl c idx b al by0 re = Done (pl', c', NStep (TCount (refill_adds al by0 re') b)) ->
    exists k, solo k pl c (THydrate idx b al by0 re) = Done r) by (intros E; by eapply solo_step; [exact E|]).
  cbn [hydrate] in H. unfold hydrate_turn in Hleave. case_decide; [|inv_bind H; by apply Hleave].
  destruct (pop_from_global p g pl idx) as [[pl1 [b1|]]| | |] eqn:E; cbn [mbind outcome_bind] in H; try done;
    [|inv_bind H; by apply Hleave].
  destruct (add_w p 8 re 1) as [re1| | |] eqn:E1; cbn [mbind outcome_bind] in H; try done.
  destruct (cache_push p g (pl_heap pl1) c b1) as [[[hp c1] back]| | |] eqn:E2; cbn [mbind outcome_bind] in H; try done.
  destruct (match back with Some b => heap_drop hp b | None => Done hp end) as [hp1| | |] eqn:E3; try done.
  eapply solo_step; [|exact (IH _ _ _ _ _ b al by0 _ _ r H Hk)]. cbn [pc_step]. unfold hydrate_turn.
  rewrite decide_True, E by done. cbn [mbind outcome_bind]. rewrite E1. cbn [mbind outcome_bind]. rewrite E2.
  cbn [mbind outcome_bind]. by rewrite E3.
Qed.

Lemma solo_refill (pl pl' : BatchPoolImpl F P) c c' b :
  refill_tls_cache p g pl c = Done (pl', c', b) -> exists k, solo k pl c TIndex = Done (pl', c', [b]).
Proof.
  unfold refill_tls_cache. intros H. destruct (shard_idx_for_cache g pl c) as [[[pl1 c1] idx]| | |] eqn:E1; try done.
  cbn [mbind outcome_bind] in H. destruct (pop_from_global p g pl1 idx) as [[pl2 r]| | |] eqn:E2; try done.
  cbn [mbind outcome_bind] in H.
  assert (Hhyd : forall pl3 al re by0 b0, ('(pl, c, reused) ← hydrate p g HYDRATE_FUEL pl3 c1 idx re;
      let pl := pl_set_stats pl (count_refill (pl_stats pl) al by0 reused) in
      pl ← acquire_ptr pl b0; Done (pl, c, b0)) = Done (pl', c', b) ->
    exists k, solo k pl3 c1 (THydrate idx b0 al by0 re) = Done (pl', c', [b])).
  { intros pl3 al re by0 b0 H3. destruct (hydrate _ _ _ _ _ _ _) as [[[pl4 c4] re4]| | |] eqn:E4; try done.
    cbn [mbind outcome_bind] in H3. destruct (acquire_ptr _ b0) as [pl5| | |] eqn:E5; try done. injection H3 as <- <- <-.
    apply (solo_hydrate _ _ _ _ _ _ b0 al by0 _ _ _ E4). eexists. apply solo_count. by rewrite refill_adds_count. }
  eapply solo_step; [cbn [pc_step]; rewrite E1; done|]. eapply solo_step; [cbn [pc_step]; rewrite E2; done|].
  destruct r as [b0|]; cbn [mbind outcome_bind] in H; [exact (Hhyd _ _ _ _ _ H)|].
  destruct (allocate (pl_factory pl2)) as [[bytes x]| | |] eqn:E3; try done.
  eapply solo_step; [cbn [pc_step]; rewrite E3; done|]. exact (Hhyd _ _ _ _ _ H).
Qed.

Lemma solo_spill fuel : forall (pl pl1 : BatchPoolImpl F P) c c1 c2 idx b hp,
  spill_cache p g fuel pl c idx = Done (pl1, c1) -> cache_push p g (pl_heap pl1) c1 b = Done (hp, c2, None) ->
  exists k, solo k pl c (TSpill idx b) = Done (pl_set_heap pl1 hp, c2, []).
Proof.
  induction fuel as [|fuel IH]; intros pl pl1 c c1 c2 idx b hp H Hp; [done|]. cbn [spill_cache] in H. case_decide as Hge.
  - destruct (cache_pop p g c) as [[c0 [b0|]]| | |] eqn:E; try done. cbn [mbind outcome_bind] in H.
    destruct (push_to_global p g pl idx b0) as [[pl2 back]| | |] eqn:E2; try done. cbn [mbind outcome_bind] in H.
    destruct (match back with Some b => hp ← heap_drop (pl_heap pl2) b; Done (pl_set_heap pl2 hp) | None => Done pl2 end)
      as [pl3| | |] eqn:E3; try done. cbn [mbind outcome_bind] in H.
    eapply solo_step; [|exact (IH _ _ _ _ _ _ _ _ H Hp)]. cbn [pc_step]. unfold spill_turn. rewrite decide_True, E by done. cbn [mbind outcome_bind].
    rewrite E2. cbn [mbind outcome_bind]. by rewrite E3.
  - injection H as -> ->. exists 1%nat. cbn [solo pc_step]. unfold spill_turn. by rewrite decide_False, Hp by done.
Qed.

(** No step reads the caches in the pool: the thread works on its own. *)

Ltac replay_binds H :=
  inv_bind H; cbn [pl_set_cache pl_heap pl_factory mbind outcome_bind] in *;
  repeat match goal with E : ?m = Done _ |- context [?m] => rewrite E; cbn [mbind outcome_bind] end.

Lemma pop_global_cache (pl pl' : BatchPoolImpl F P) t c0 idx r :
  pop_from_global p g pl idx = Done (pl', r) -> pop_from_global p g (pl_set_cache pl t c0) idx = Done (pl_set_cache pl' t c0, r).
Proof.
  unfold pop_from_global. intros H. change (get_shard (pl_set_cache pl t c0) idx) with (get_shard pl idx).
  replay_binds H. destruct a0 as [s r0]. by inv_bind H.
Qed.

Lemma push_global_cache (pl pl' : BatchPoolImpl F P) t c0 idx b r :
  push_to_global p g pl idx b = Done (pl', r) -> push_to_global p g (pl_set_cache pl t c0) idx b = Done (pl_set_cache pl' t c0, r).
Proof.
  unfold push_to_global. intros H. change (get_shard (pl_set_cache pl t c0) idx) with (get_shard pl idx).
  change (pl_heap (pl_set_cache pl t c0)) with (pl_heap pl). replay_binds H. destruct a0 as [[hp s] r0]. by inv_bind H.
Qed.

Lemma shard_idx_cache (pl pl' : BatchPoolImpl F P) t c0 c c' i :
  shard_idx_for_cache g pl c = Done (pl', c', i) ->
  shard_idx_for_cache g (pl_set_cache pl t c0) c = Done (pl_set_cache pl' t c0, c', i).
Proof.
  unfold shard_idx_for_cache, assign_shard_idx. intros H. destruct (shard_idx c); [by inv_bind H|].
  case_decide; [done|]. by inv_bind H.
Qed.

Lemma acquire_ptr_cache (pl pl' : BatchPoolImpl F P) t c0 b :
  acquire_ptr pl b = Done pl' -> acquire_ptr (pl_set_cache pl t c0) b = Done (pl_set_cache pl' t c0).
Proof. unfold acquire_ptr. intros H. cbn [pl_set_cache pl_heap]. destruct (pl_heap pl !! b); [|done]. by inv_bind H. Qed.

Lemma hydrate_turn_cache (pl pl' : BatchPoolImpl F P) t c0 c c' idx b al by0 re n :
  hydrate_turn p g pl c idx b al by0 re = Done (pl', c', n) ->
  hydrate_turn p g (pl_set_cache pl t c0) c idx b al by0 re = Done (pl_set_cache pl' t c0, c', n).
Proof.
  unfold hydrate_turn. intros H. case_decide; [|by inv_bind H].
  inv_bind H. destruct a as [pl1 r]. rewrite (pop_global_cache _ _ t c0 _ _ E). cbn [mbind outcome_bind].
  destruct r; [|by inv_bind H]. cbn [pl_set_cache pl_heap] in *. replay_binds H.
  destruct a0 as [[hp c1] back]. by replay_binds H.
Qed.

Lemma spill_turn_cache (pl pl' : BatchPoolImpl F P) t c0 c c' idx b n :
  spill_turn p g pl c idx b = Done (pl', c', n) ->
  spill_turn p g (pl_set_cache pl t c0) c idx b = Done (pl_set_cache pl' t c0, c', n).
Proof.
  unfold spill_turn. intros H. case_decide.
  - inv_bind H. destruct a as [c1 [b1|]]; [|done]. cbn [mbind outcome_bind]. inv_bind H. destruct a as [pl1 back].
    rewrite (push_global_cache _ _ t c0 _ _ _ E0). cbn [mbind outcome_bind] in *. inv_bind H.
    destruct back; cbn [pl_set_cache pl_heap] in *; inv_bind E1; done.
  - cbn [pl_set_cache pl_heap]. inv_bind H. destruct a as [[hp c1] [back|]]; [done|]. by inv_bind H.
Qed.

Lemma pc_step_cache (pl pl' : BatchPoolImpl F P) t c0 c c' pc n :
  pc_step p g pl c pc = Done (pl', c', n) -> pc_step p g (pl_set_cache pl t c0) c pc = Done (pl_set_cache pl' t c0, c', n).
Proof.
  intros H. destruct pc as [|idx|idx|idx b al by0 re|[|a adds] b|b|idx b]; cbn [pc_step] in *.
  - inv_bind H. destruct a as [[pl1 c1] i]. rewrite (shard_idx_cache _ _ t c0 _ _ _ E). by replay_binds H.
  - inv_bind H. destruct a as [pl1 r]. rewrite (pop_global_cache _ _ t c0 _ _ E). by replay_binds H.
  - replay_binds H. destruct a as [by1 x]. unfold pl_alloc in *. by inv_bind H.
  - by apply hydrate_turn_cache.
  - inv_bind H. by rewrite (acquire_ptr_cache _ _ t c0 _ E).
  - by replay_binds H.
  - inv_bind H. destruct a as [[pl1 c1] i]. rewrite (shard_idx_cache _ _ t c0 _ _ _ E). by replay_binds H.
  - by apply spill_turn_cache.
Qed.

Lemma set_cache_twice (pl : BatchPoolImpl F P) t c c' : pl_set_cache (pl_set_cache pl t c) t c' = pl_set_cache pl t c'.
Proof. unfold pl_set_cache. cbn. by rewrite insert_insert_eq. Qed.

Lemma solo_events k : forall (pl pl' : BatchPoolImpl F P) t c c' pc pcs held bs,
  solo k pl c pc = Done (pl', c', bs) -> pcs !! t = Some pc ->
  pool_events p g (mkPT (pl_set_cache pl t c) pcs held) (replicate k (EvRun t)) =
    Done (mkPT (pl_set_cache pl' t c') (delete t pcs) (bs ++ held)).
Proof.
  induction k as [|k IH]; intros pl pl' t c c' pc pcs held bs H Et; [done|]. cbn [solo] in H.
  destruct (pc_step p g pl c pc) as [[[pl1 c1] n]| | |] eqn:E; try done. cbn [mbind outcome_bind] in H.
  cbn [replicate pool_events pool_event_step]. rewrite Et. unfold thread_local_batch_cache at 1. cbn [pl_set_cache pl_caches].
  rewrite lookup_insert_eq. cbn [mbind outcome_bind].
  change (mkPool _ _ _ _ _ _ _) with (pl_set_cache pl t c). rewrite (pc_step_cache _ _ t c _ _ _ _ E).
  cbn [mbind outcome_bind settle]. destruct n as [pc1|bs1]; rewrite set_cache_twice.
  - rewrite (IH _ _ t _ _ _ _ held _ H (lookup_insert_eq _ _ _)). by rewrite delete_insert_eq.
  - injection H as <- <- <-. clear IH E. induction k as [|k IH]; [done|]. cbn [replicate pool_events pool_event_step].
    by rewrite lookup_delete_eq.
Qed.

Lemma alone_acquire (pl pl' : BatchPoolImpl F P) pcs held t b :
  pcs !! t = None -> acquire_object p g pl t = Done (pl', b) ->
  exists k, pool_events p g (mkPT pl pcs held) (EvAcquire t :: replicate k (EvRun t)) = Done (mkPT pl' pcs (b :: held)).
Proof.
  intros Et H. rewrite acquire_object_eq in H. cbn [pool_events pool_event_step]. rewrite Et. unfold acquire_begin.
  destruct (thread_local_batch_cache p g pl t) as [c| | |]; try done. cbn [mbind outcome_bind] in *.
  destruct (try_acquire_from_tls p g pl c) as [[[pl1 c1] r]| | |]; try done. cbn [mbind outcome_bind] in *.
  destruct r as [b1|].
  - injection H as <- <-. exists 0%nat. cbn. by rewrite delete_id.
  - destruct (refill_tls_cache p g pl1 c1) as [[[pl2 c2] b2]| | |] eqn:E; try done. injection H as <- <-.
    destruct (solo_refill _ _ _ _ _ E) as [k Hk]. exists k. cbn [settle].
    rewrite (solo_events k _ _ t _ _ _ (<[t := TIndex]> pcs) held _ Hk (lookup_insert_eq _ _ _)).
    by rewrite delete_insert_id.
Qed.

Lemma alone_release (pl pl' : BatchPoolImpl F P) pcs held t b x :
  pcs !! t = None -> b ∈ held -> pl_heap pl !! b = Some x -> alloc_ok x -> reset_safe (ba_batch x) = true ->
  BatchPool_release p g pl t b = Done pl' ->
  exists k, pool_events p g (mkPT pl pcs held) (EvRelease t b :: replicate k (EvRun t)) =
    Done (mkPT pl' pcs (list_difference held [b])).
Proof.
  intros Et Hb Hx Hok Hs H. rewrite BatchPool_release_eq in H. cbn [pool_events pool_event_step].
  rewrite Et, decide_True, Hx by done. cbn [from_option]. rewrite Hs. unfold release_begin, release_reset in *. rewrite Hx in *.
  destruct (obj_reset_ok p x Hok Hs) as (y & Ey & _). rewrite Ey in *. cbn [mbind outcome_bind] in *. cbv zeta in *.
  set (pl1 := pl_set_heap pl _) in *.
  change (thread_local_batch_cache p g pl1 t) with (thread_local_batch_cache p g pl t) in H.
  destruct (thread_local_batch_cache p g pl t) as [c| | |]; try done. cbn [mbind outcome_bind] in *.
  destruct (cache_push p g (pl_heap pl1) c b) as [[[hp c1] back]| | |] eqn:Ep; try done. cbn [mbind outcome_bind] in *.
  destruct back as [b1|].
  - destruct (shard_idx_for_cache g pl1 c1) as [[[pl2 c2] idx]| | |] eqn:Ei; try done. cbn [mbind outcome_bind] in H.
    destruct (spill_cache p g SPILL_FUEL pl2 c2 idx) as [[pl3 c3]| | |] eqn:Esp; try done. cbn [mbind outcome_bind] in H.
    destruct (cache_push p g (pl_heap pl3) c3 b1) as [[[hp2 c4] [b2|]]| | |] eqn:Ep2; try done. injection H as <-.
    assert (Hhp : pl_set_heap pl1 hp = pl1 /\ c1 = c /\ b1 = b).
    { unfold cache_push in Ep. inv_bind Ep. case_decide; inv_bind Ep. by destruct pl. }
    destruct Hhp as (-> & -> & ->).
    destruct (solo_step pl1 pl2 c c2 (TSpillIndex b) (TSpill idx b) _ ltac:(cbn [pc_step]; by rewrite Ei)
      (solo_spill _ _ _ _ _ _ _ _ _ Esp Ep2)) as [k Hk].
    exists k. cbn [settle]. rewrite (solo_events k _ _ t _ _ _ (<[t := TSpillIndex b]> pcs) _ _ Hk (lookup_insert_eq _ _ _)).
    by rewrite delete_insert_id.
  - injection H as <-. exists 0%nat. cbn. by rewrite delete_id.
Qed.
End solo.

(** ** Properties *)

(** C23: whatever threads do with a pool of allocations that keep the contract
    of [BatchAllocation], their operations interleaved in any way at the
    shards' locks and the atomic counters: no step panics, touches
    freed memory or frees twice; every live batch is in exactly one place (a
    caller, an operation's stack, a cache or a shard) and valid, stored ones
    are idle, caches and shards are within their capacities; and the
    allocations statistic, with what operations have still to add to it, is the
    number of allocations modulo its width.  The next event, whatever it is, as
    long as a caller leaves its allocation valid, is possible, and changes no
    caller's batch but the one it is about. *)
Theorem pool_threads_exclusive {F P : Type} `{!BatchAllocation P, !AllocationLaws P, !BatchFactory F P, !FactoryLaws F P}
    p g (f : F) bytes x0 evs :
  cfg_ok g -> allocate f = Done (bytes, x0) -> Forall keeps_valid evs ->
  exists s0 s, pool_threads_new p g f = Done s0 /\ pool_events p g s0 evs = Done s /\
    let pl := tp_pool s in let owned := tp_held s ++ flights (tp_pcs s) ++ stored pl in
    NoDup owned /\ (forall b, is_Some (pl_heap pl !! b) <-> b ∈ owned) /\
    map_Forall (fun _ => alloc_ok) (pl_heap pl) /\ Forall (is_idle (pl_heap pl)) (stored pl) /\
    map_Forall (fun _ c => cache_len c <= cfg_tls_cap g) (pl_caches pl) /\
    Forall (fun s => len (s_batches s) <= cfg_shard_cap g) (pl_shards pl) /\
    wrap usize_bits (allocations (pl_stats pl) + Z.of_nat (total pc_uncounted (tp_pcs s))) =
      wrap usize_bits (Z.of_nat (pl_next pl)) /\
    forall e, keeps_valid e -> exists s', pool_event_step p g s e = Done s' /\ isolates e s s'.
Proof.
  intros Hg Hall Hv. destruct (threads_new_ok p g Hg f) as (s0 & E0 & H0 & Hf & Hp0 & _ & Hn0 & Hst0).
  rewrite <- Hf in Hall. destruct (pool_events_ok p g Hg evs s0 bytes x0 Hv H0 Hall) as (s & E & H & Hfs).
  pose proof H as [[Hb Ho] _].
  assert (Hc0 : all_counted s0) by (unfold all_counted, counted; by rewrite Hp0, Hn0, Hst0).
  exists s0, s. split; [done|]. split; [done|]. cbv zeta. rewrite app_assoc. destruct Ho.
  do 4 (split; [done|]). split; [|split; [apply Hb|]].
  - apply (map_Forall_impl _ _ _ (bd_caches _ _ Hb)). by intros t c [Hc _].
  - split; [exact (pool_events_counts p g evs s0 s bytes x0 Hg Hv H0 Hall Hc0 E)|]. intros e He.
    destruct (pool_event_ok p g Hg s e bytes x0 H ltac:(by rewrite Hfs) He) as (s' & E' & _ & _ & Hi). by exists s'.
Qed.

(** C26: an acquisition or release that has begun ends within the cache's
    capacity and nine of its thread's own steps, whatever the other threads do
    in between. *)
Theorem pool_threads_end {F P : Type} `{!BatchAllocation P, !AllocationLaws P, !BatchFactory F P, !FactoryLaws F P}
    p g (f : F) bytes x0 evs1 evs2 s0 s1 t :
  cfg_ok g -> allocate f = Done (bytes, x0) -> Forall keeps_valid (evs1 ++ evs2) ->
  pool_threads_new p g f = Done s0 -> pool_events p g s0 evs1 = Done s1 ->
  (Z.to_nat (cfg_tls_cap g) + 9 <= runs_of t evs2)%nat ->
  exists evs3 evs4 s2, evs2 = evs3 ++ evs4 /\ pool_events p g s1 evs3 = Done s2 /\ tp_pcs s2 !! t = None.
Proof.
  intros Hg Hall [Hv1 Hv2]%Forall_app E0 E1 Hruns. destruct (threads_new_ok p g Hg f) as (s0' & E0' & H0 & Hf & _).
  rewrite E0 in E0'. injection E0' as <-. rewrite <- Hf in Hall.
  destruct (pool_events_ok p g Hg evs1 s0 bytes x0 Hv1 H0 Hall) as (s1' & E1' & H1 & Hf1). rewrite E1 in E1'. injection E1' as <-.
  rewrite <- Hf1 in Hall. by apply (operation_ends p g Hg evs2 s1 t bytes x0).
Qed.

(** C24: a thread whose operation nobody interrupts does what the operation's
    function does: an acquisition's steps give the pool and the batch of
    [acquire_object], a release's the pool of [BatchPool_release]. *)
Theorem pool_threads_alone {F P : Type} `{!BatchAllocation P, !AllocationLaws P, !BatchFactory F P, !FactoryLaws F P}
    p g (pl : BatchPoolImpl F P) pcs held t :
  cfg_ok g -> pool_inv g pl (held ++ flights pcs) -> (exists r, allocate (pl_factory pl) = Done r) -> pcs !! t = None ->
  (exists k pl' b, acquire_object p g pl t = Done (pl', b) /\
    pool_events p g (mkPT pl pcs held) (EvAcquire t :: replicate k (EvRun t)) = Done (mkPT pl' pcs (b :: held))) /\
  (forall b x, b ∈ held -> pl_heap pl !! b = Some x -> reset_safe (ba_batch x) = true ->
    exists k pl', BatchPool_release p g pl t b = Done pl' /\
    pool_events p g (mkPT pl pcs held) (EvRelease t b :: replicate k (EvRun t)) =
      Done (mkPT pl' pcs (list_difference held [b]))).
Proof.
  intros Hg Hinv [[bytes x0] Hall] Et. split.
  - destruct (acquire_object_ok p g Hg pl _ t bytes x0 Hinv Hall) as (pl' & b & E & _).
    destruct (alone_acquire p g pl pl' pcs held t b Et E) as [k Hk]. by exists k, pl', b.
  - intros b x Hb Hx Hs. pose proof (ow_nodup _ _ _ (proj2 Hinv)) as Hn.
    apply NoDup_app in Hn as [Hn _]. apply NoDup_app in Hn as [Hn _].
    assert (H : pool_inv g pl (b :: list_difference held [b] ++ flights pcs)).
    { apply (pool_inv_perm g pl (held ++ flights pcs)); [|done]. rewrite app_comm_cons. apply Permutation_app_tail.
      symmetry. by apply held_split. }
    destruct (release_ok p g Hg pl t _ b x H Hx Hs) as (pl' & y & E & _).
    destruct (alone_release p g pl pl' pcs held t b x Et Hb Hx (ow_alloc _ _ _ (proj2 Hinv) b x Hx) Hs E) as [k Hk]. by exists k, pl'.
Qed.

(** Witnesses: two threads that race for one shard, then a release. *)

Definition race_events : list (pool_event BatchInner) :=
  [EvAcquire 0; EvAcquire 1; EvRun 0; EvRun 1; EvRun 1; EvRun 0; EvRun 0; EvRun 1; EvRun 1; EvRun 0].

Lemma pool_threads_exclusive_witness :
  exists s0 s, pool_threads_new Debug BatchPool_cfg mkOwnedBatchFactory = Done s0 /\
    pool_events Debug BatchPool_cfg s0 race_events = Done s /\
    let pl := tp_pool s in let owned := tp_held s ++ flights (tp_pcs s) ++ stored pl in
    NoDup owned /\ (forall b, is_Some (pl_heap pl !! b) <-> b ∈ owned) /\
    map_Forall (fun _ => alloc_ok) (pl_heap pl) /\ Forall (is_idle (pl_heap pl)) (stored pl) /\
    map_Forall (fun _ c => cache_len c <= cfg_tls_cap BatchPool_cfg) (pl_caches pl) /\
    Forall (fun s => len (s_batches s) <= cfg_shard_cap BatchPool_cfg) (pl_shards pl) /\
    wrap usize_bits (allocations (pl_stats pl) + Z.of_nat (total pc_uncounted (tp_pcs s))) =
      wrap usize_bits (Z.of_nat (pl_next pl)) /\
    forall e, keeps_valid e -> exists s', pool_event_step Debug BatchPool_cfg s e = Done s' /\ isolates e s s'.
Proof.
  apply (pool_threads_exclusive Debug BatchPool_cfg mkOwnedBatchFactory HEADER_SIZE BatchInner_new);
    [by vm_compute|reflexivity|by repeat constructor].
Defined.

Lemma pool_threads_end_witness :
  exists s0 s1, pool_threads_new Debug BatchPool_cfg mkOwnedBatchFactory = Done s0 /\
    pool_events Debug BatchPool_cfg s0 race_events = Done s1 /\
    exists evs3 evs4 s2, replicate 20 (EvRun 1) = evs3 ++ evs4 /\
      pool_events Debug BatchPool_cfg s1 evs3 = Done s2 /\ tp_pcs s2 !! 1%nat = None.
Proof.
  assert (Hg : cfg_ok BatchPool_cfg) by (by vm_compute).
  destruct (threads_new_ok Debug BatchPool_cfg Hg mkOwnedBatchFactory) as (s0 & E0 & H0 & Hf & _).
  destruct (pool_events_ok Debug BatchPool_cfg Hg race_events s0 HEADER_SIZE BatchInner_new
    ltac:(by repeat constructor) H0 ltac:(by rewrite Hf))
    as (s1 & E1 & _).
  exists s0, s1. split; [exact E0|]. split; [exact E1|].
  apply (pool_threads_end Debug BatchPool_cfg mkOwnedBatchFactory HEADER_SIZE BatchInner_new race_events _ s0 s1);
    [exact Hg|reflexivity|by repeat constructor|exact E0|exact E1|vm_compute; lia].
Defined.

Lemma pool_threads_alone_witness :
  exists pl, pool_one = Done (pl, [0%nat]) /\
  (exists k pl' b, acquire_object Debug BatchPool_cfg pl 1 = Done (pl', b) /\
    pool_events Debug BatchPool_cfg (mkPT pl ∅ [0%nat]) (EvAcquire 1 :: replicate k (EvRun 1)) =
      Done (mkPT pl' ∅ (b :: [0%nat]))) /\
  (forall b x, b ∈ [0%nat] -> pl_heap pl !! b = Some x -> reset_safe (ba_batch x) = true ->
    exists k pl', BatchPool_release Debug BatchPool_cfg pl 1 b = Done pl' /\
    pool_events Debug BatchPool_cfg (mkPT pl ∅ [0%nat]) (EvRelease 1 b :: replicate k (EvRun 1)) =
      Done (mkPT pl' ∅ (list_difference [0%nat] [b]))).
Proof.
  destruct pool_one_inv as (pl & E & H & _). exists pl. split; [exact E|].
  apply (pool_threads_alone Debug BatchPool_cfg pl ∅ [0%nat] 1); [by vm_compute|exact H| |done].
  eexists. reflexivity.
Defined.
