(* ===== verification/Handle.v ===== *)
(** * Handle: the life of a batch

    Models the caller's handle [Batch] of [db/batch.rs], whose type parameter
    says whether the batch may still be written, and composes the pool that
    hands batches out, the batches themselves and the pipeline that commits
    them.  Rust's type checker is modelled by [check]: which operations a
    program may apply to which handles, where [self] is consumed and in which
    state the returned handle is.  A program is run against the pool and the
    pipeline as the code runs it; an operation the type checker would reject
    has no meaning there. *)

From S2P Require Import Prelude Codec Records Key Wal Batch Pipeline Allocation Pool.

(** ** Handles *)

(* @src crates/engine/src/db/batch.rs:290-297 BatchCommitState *)
Inductive commit_state := UnCommitted | Sealed.

#[export] Instance commit_state_eq_dec : EqDecision commit_state.
Proof. solve_decision. Defined.

(* @src crates/engine/src/db/batch.rs:544-551 Batch *)
Record Batch (S : commit_state) := mkBatch { b_object : nat }.

#[global] Arguments mkBatch {S} _.
#[global] Arguments b_object {S} _.

(** What the pipeline may commit. *)

(* @src crates/engine/src/db/batch.rs:299-302 SealedBatch *)
Class SealedBatch (B : Type) := { batch_ptr : B -> nat }.

(* @src crates/engine/src/db/batch.rs:614-621 Batch::batch_ptr *)
#[export] Instance Batch_sealed : SealedBatch (Batch Sealed) := { batch_ptr := b_object }.

(** The pool and the pipeline that all handles share. *)

Record world (E : Type) := mkWorld {
  w_pool : BatchPoolImpl OwnedBatchFactory BatchInner;
  w_pipe : WritePipeline E
}.

#[global] Arguments mkWorld {E} _ _.
#[global] Arguments w_pool {E} _.
#[global] Arguments w_pipe {E} _.

Section handles.
Context {E : Type} `{!WriterEnv E} (p : profile) (g : pool_cfg).

Definition w_heap (w : world E) : gmap nat BatchInner := pl_heap (w_pool w).

Definition w_set_heap (w : world E) (hp : gmap nat BatchInner) : world E :=
  mkWorld (pl_set_heap (w_pool w) hp) (w_pipe w).

(** Access through a handle to the batch it owns. *)

(* @src crates/engine/src/db/batch.rs:746-752 BatchObject::as_inner_ptr *)
Definition as_inner_ptr {S} (w : world E) (h : Batch S) : outcome BatchInner :=
  match w_heap w !! b_object h with Some x => Done x | None => UB "access to a freed batch" end.

(* @src crates/engine/src/db/batch_pool.rs:697-703 BatchPoolImpl::acquire_batch *)
Definition acquire_batch (w : world E) (t : nat) : outcome (world E * Batch UnCommitted) :=
  '(pl, b) ← acquire_object p g (w_pool w) t;
  Done (mkWorld pl (w_pipe w), mkBatch b).

(* @src crates/engine/src/db/batch.rs:598-604 Batch::put *)
Definition Batch_put (w : world E) (h : Batch UnCommitted) (key value : bytes) : outcome (world E) :=
  x ← as_inner_ptr w h;
  x ← BatchObject_put p x key value;
  Done (w_set_heap w (<[b_object h := x]> (w_heap w))).

(* @src crates/engine/src/db/batch.rs:606-611 Batch::seal *)
Definition Batch_seal (h : Batch UnCommitted) : Batch Sealed := mkBatch (b_object h).

Definition Batch_commit (w : world E) (h : Batch Sealed) : outcome (world E * result unit Error) :=
  '(pipe, hp, r) ← commit (w_pipe w) (w_heap w) (batch_ptr h);
  Done (mkWorld (pl_set_heap (w_pool w) hp) pipe, r).

(* @src crates/engine/src/db/batch.rs:581-584 Batch::wait *)
Definition Batch_wait {S} (w : world E) (h : Batch S) : outcome (result unit Error) :=
  x ← as_inner_ptr w h; wait_until_reusable x.

(* @src crates/engine/src/db/batch.rs:566-579 Batch::reset *)
Definition Batch_reset_handle {S} (w : world E) (h : Batch S) : outcome (world E * Batch UnCommitted) :=
  x ← as_inner_ptr w h;
  x ← Batch_reset p x;
  Done (w_set_heap w (<[b_object h := x]> (w_heap w)), mkBatch (b_object h)).

(** A handle that goes out of scope frees its batch. *)

(* @src crates/engine/src/db/batch.rs:449-453 OwnedBatchPtr::drop *)
Definition Batch_drop {S} (w : world E) (h : Batch S) : outcome (world E) :=
  hp ← heap_drop (w_heap w) (b_object h); Done (w_set_heap w hp).

(** The handle is consumed either way; when the wait fails it is dropped. *)

(* @src crates/engine/src/db/batch.rs:586-591 Batch::close *)
Definition Batch_close {S} (w : world E) (t : nat) (h : Batch S) : outcome (world E * result unit Error) :=
  r ← Batch_wait w h;
  match r with
  | Err e => w ← Batch_drop w h; Done (w, Err e)
  | Ok tt => pl ← handle_release p g (w_pool w) t (b_object h); Done (mkWorld pl (w_pipe w), Ok tt)
  end.

Definition w_thread_exit (w : world E) (t : nat) : outcome (world E) :=
  pl ← thread_exit (w_pool w) t; Done (mkWorld pl (w_pipe w)).

(** ** Programs *)

Inductive handle := HOpen (h : Batch UnCommitted) | HSealed (h : Batch Sealed).

Definition handle_state (h : handle) : commit_state :=
  match h with HOpen _ => UnCommitted | HSealed _ => Sealed end.

Definition object (h : handle) : nat := match h with HOpen h => b_object h | HSealed h => b_object h end.

(** A method of every [Batch<S>]. *)

Definition with_handle {A} (f : forall S, Batch S -> A) (h : handle) : A :=
  match h with HOpen h => f _ h | HSealed h => f _ h end.

(** Handles are named by their position, the newest first. *)

Inductive life_op :=
  | LAcquire (t : nat)
  | LPut (i : nat) (key value : bytes)
  | LSeal (i : nat)
  | LCommit (i : nat)
  | LReset (i : nat)
  | LClose (t i : nat)
  | LDrop (i : nat)
  | LExit (t : nat).

(** The types of the handles after an operation, if it is well typed. *)

Definition check (G : list commit_state) (op : life_op) : option (list commit_state) :=
  match op with
  | LAcquire _ => Some (UnCommitted :: G)
  | LPut i _ _ => match G !! i with Some UnCommitted => Some G | _ => None end
  | LSeal i => match G !! i with Some UnCommitted => Some (<[i := Sealed]> G) | _ => None end
  | LCommit i => match G !! i with Some Sealed => Some G | _ => None end
  | LReset i => match G !! i with Some _ => Some (<[i := UnCommitted]> G) | None => None end
  | LClose _ i | LDrop i => match G !! i with Some _ => Some (delete i G) | None => None end
  | LExit _ => Some G
  end.

Fixpoint check_all (G : list commit_state) (ops : list life_op) : option (list commit_state) :=
  match ops with
  | [] => Some G
  | op :: ops => match check G op with Some G => check_all G ops | None => None end
  end.

Fixpoint commit_count (ops : list life_op) : Z :=
  match ops with
  | [] => 0
  | LCommit _ :: ops => 1 + commit_count ops
  | _ :: ops => commit_count ops
  end.

(** An ill-typed operation does not compile; it has no behaviour. *)

Definition ill_typed {A} : outcome A := UB "ill-typed program".

Definition life_step (w : world E) (hs : list handle) (op : life_op) : outcome (world E * list handle) :=
  match op with
  | LAcquire t => '(w, h) ← acquire_batch w t; Done (w, HOpen h :: hs)
  | LPut i key value =>
      match hs !! i with
      | Some (HOpen h) => w ← Batch_put w h key value; Done (w, hs)
      | _ => ill_typed
      end
  | LSeal i =>
      match hs !! i with
      | Some (HOpen h) => Done (w, <[i := HSealed (Batch_seal h)]> hs)
      | _ => ill_typed
      end
  | LCommit i =>
      match hs !! i with
      | Some (HSealed h) => '(w, _) ← Batch_commit w h; Done (w, hs)
      | _ => ill_typed
      end
  | LReset i =>
      match hs !! i with
      | Some h => '(w, h) ← with_handle (fun S => Batch_reset_handle w) h; Done (w, <[i := HOpen h]> hs)
      | None => ill_typed
      end
  | LClose t i =>
      match hs !! i with
      | Some h => '(w, _) ← with_handle (fun S => Batch_close w t) h; Done (w, delete i hs)
      | None => ill_typed
      end
  | LDrop i =>
      match hs !! i with
      | Some h => w ← with_handle (fun S => Batch_drop w) h; Done (w, delete i hs)
      | None => ill_typed
      end
  | LExit t => w ← w_thread_exit w t; Done (w, hs)
  end.

Fixpoint life_run (w : world E) (hs : list handle) (ops : list life_op) : outcome (world E * list handle) :=
  match ops with
  | [] => Done (w, hs)
  | op :: ops => '(w, hs) ← life_step w hs op; life_run w hs ops
  end.

(** ** What the handles' batches hold

    The records of each handle, in the handles' order. *)

Definition fits (rs : list rec) (key value : bytes) : bool :=
  bool_decide (len key <= MAX_USER_KEY_BYTES) && bool_decide (len value < 2 ^ 32) &&
  bool_decide (len (encode_batch 0 rs) + rec_size (len key) (len value) <= MAX_BATCH_SIZE).

Definition put_spec (key value : bytes) (rs : list rec) : list rec :=
  if fits rs key value then rs ++ [mkRec RPut DEFAULT_CF_ID key value] else rs.

Definition life_spec (C : list (list rec)) (op : life_op) : list (list rec) :=
  match op with
  | LAcquire _ => [] :: C
  | LPut i key value => alter (put_spec key value) i C
  | LReset i => alter (fun _ => []) i C
  | LClose _ i | LDrop i => delete i C
  | LSeal _ | LCommit _ | LExit _ => C
  end.

Definition life_specs (ops : list life_op) : list (list rec) := foldl life_spec [] ops.
End handles.

(** ** What the pool does to the batches it keeps *)

Section stored.
Context {F A : Type} `{!BatchAllocation A, !BatchFactory F A} (p : profile) (g : pool_cfg).
Variable P : nat -> A -> Prop.
Hypothesis HP : forall b x s, P b x -> P b (obj_set_runtime_state x s).

Lemma all_insert (hp : gmap nat A) b x : map_Forall P hp -> P b x -> map_Forall P (<[b := x]> hp).
Proof. intros H Hx. by apply map_Forall_insert_2. Qed.

Lemma heap_set_state_all hp b s hp' : heap_set_state hp b s = Done hp' -> map_Forall P hp -> map_Forall P hp'.
Proof using HP.
  unfold heap_set_state. destruct (hp !! b) as [x|] eqn:E; [|done]. intros [= <-] H. apply all_insert; [done|]. apply HP. by apply H.
Qed.

Lemma heap_drop_all hp b hp' : heap_drop hp b = Done hp' -> map_Forall P hp -> map_Forall P hp'.
Proof. unfold heap_drop. destruct (hp !! b); [|done]. intros [= <-] H. by apply map_Forall_delete. Qed.

Lemma cache_push_all hp c b hp' c' r : cache_push p g hp c b = Done (hp', c', r) -> map_Forall P hp -> map_Forall P hp'.
Proof using HP.
  unfold cache_push. destruct (debug_assert _ _ _); cbn [mbind outcome_bind]; try done. case_decide as Hdec; [by intros [= <- <- <-]|].
  destruct (heap_set_state hp b StIdle) as [hp1| | |] eqn:E; cbn [mbind outcome_bind]; try done.
  intros [= <- <- <-]. by eapply heap_set_state_all.
Qed.

Lemma pop_from_global_heap (pl : BatchPoolImpl F A) idx pl' r : pop_from_global p g pl idx = Done (pl', r) -> pl_heap pl' = pl_heap pl.
Proof.
  unfold pop_from_global. destruct (get_shard pl idx); cbn [mbind outcome_bind]; try done.
  destruct (shard_pop p g _) as [[s' r']| | |]; cbn [mbind outcome_bind]; try done. by intros [= <- <-].
Qed.

Lemma push_to_global_all (pl : BatchPoolImpl F A) idx b pl' r : push_to_global p g pl idx b = Done (pl', r) ->
  map_Forall P (pl_heap pl) -> map_Forall P (pl_heap pl').
Proof using HP.
  unfold push_to_global. destruct (get_shard pl idx) as [s| | |]; cbn [mbind outcome_bind]; try done.
  unfold shard_push. destruct (debug_assert _ _ _); cbn [mbind outcome_bind]; try done. case_decide as Hdec; [by intros [= <- <-]|].
  destruct (heap_set_state _ b StIdle) as [hp1| | |] eqn:E; cbn [mbind outcome_bind]; try done.
  intros [= <- <-]. by eapply heap_set_state_all.
Qed.

Lemma hydrate_all fuel : forall (pl : BatchPoolImpl F A) c idx reused pl' c' r', hydrate p g fuel pl c idx reused = Done (pl', c', r') ->
  map_Forall P (pl_heap pl) -> map_Forall P (pl_heap pl').
Proof using HP.
  induction fuel as [|fuel IH]; intros pl c idx reused pl' c' r'; cbn [hydrate]; [done|]. case_decide as Hdec; [|by intros [= <- _ _]].
  destruct (pop_from_global p g pl idx) as [[pl1 r]| | |] eqn:E; cbn [mbind outcome_bind]; try done.
  apply pop_from_global_heap in E. destruct r as [b|]; [|intros [= <- _ _]; by rewrite E].
  destruct (add_w p 8 reused 1) as [n| | |]; cbn [mbind outcome_bind]; try done.
  destruct (cache_push p g (pl_heap pl1) c b) as [[[hp c1] back]| | |] eqn:E1; cbn [mbind outcome_bind]; try done.
  destruct (match back with Some b => heap_drop hp b | None => Done hp end) as [hp2| | |] eqn:E2; cbn [mbind outcome_bind]; try done.
  intros E3 H. eapply IH; [exact E3|]. cbn. rewrite <- E in H. apply (cache_push_all _ _ _ _ _ _ E1) in H.
  destruct back; [by eapply heap_drop_all|]. by injection E2 as <-.
Qed.

Lemma acquire_ptr_all (pl : BatchPoolImpl F A) b pl' : acquire_ptr pl b = Done pl' -> map_Forall P (pl_heap pl) -> map_Forall P (pl_heap pl').
Proof using HP.
  unfold acquire_ptr. destruct (pl_heap pl !! b) as [x|] eqn:E; [|done]. intros [= <-] H. cbn. apply all_insert; [done|].
  apply HP. by apply H.
Qed.

Lemma refill_all (pl : BatchPoolImpl F A) c pl' c' b bytes x0 : allocate (pl_factory pl) = Done (bytes, x0) -> (forall b, P b x0) ->
  refill_tls_cache p g pl c = Done (pl', c', b) -> map_Forall P (pl_heap pl) -> map_Forall P (pl_heap pl').
Proof using HP.
  intros Hall Hx0. unfold refill_tls_cache.
  destruct (shard_idx_for_cache g pl c) as [[[pl1 c1] idx]| | |] eqn:E0; cbn [mbind outcome_bind]; try done.
  assert (H1 : pl_heap pl1 = pl_heap pl /\ pl_factory pl1 = pl_factory pl).
  { unfold shard_idx_for_cache, assign_shard_idx in E0. destruct (shard_idx c); [by injection E0 as <- <- <-|].
    case_decide as Hdec; [done|]. by injection E0 as <- <- <-. }
  destruct (pop_from_global p g pl1 idx) as [[pl2 r]| | |] eqn:E1; cbn [mbind outcome_bind]; try done.
  assert (Hf2 : pl_factory pl2 = pl_factory pl1).
  { unfold pop_from_global in E1. destruct (get_shard pl1 idx); cbn [mbind outcome_bind] in E1; try done.
    destruct (shard_pop p g _) as [[? ?]| | |]; cbn [mbind outcome_bind] in E1; try done. by injection E1 as <- <-. }
  apply pop_from_global_heap in E1. destruct H1 as [Hh1 Hf1]. rewrite <- Hh1, <- E1. intros E2 H.
  assert (Hmid : exists pl3 n, map_Forall P (pl_heap pl3) /\ exists c3 i a1 a2 a3,
    ('(pl, c, reused) ← hydrate p g HYDRATE_FUEL pl3 c3 i a3;
     let pl := pl_set_stats pl (count_refill (pl_stats pl) a1 a2 reused) in
     pl ← acquire_ptr pl n; Done (pl, c, n)) = Done (pl', c', b)).
  { destruct r as [b'|].
    - exists pl2, b'. split; [done|]. cbn [mbind outcome_bind] in E2. by eexists c1, idx, _, _, _.
    - rewrite Hf2, Hf1, Hall in E2. cbn [mbind outcome_bind] in E2. eexists _, _. split; [|eexists c1, idx, _, _, _; exact E2].
      cbn. by apply all_insert. }
  destruct Hmid as (pl3 & n & H3 & c3 & i & a1 & a2 & a3 & E3).
  destruct (hydrate p g HYDRATE_FUEL pl3 c3 i a3) as [[[pl4 c4] r4]| | |] eqn:E4; cbn [mbind outcome_bind] in E3; try done.
  apply hydrate_all in E4; [|done]. destruct (acquire_ptr _ n) as [pl5| | |] eqn:E5; cbn [mbind outcome_bind] in E3; try done.
  injection E3 as <- <- <-. by eapply acquire_ptr_all.
Qed.

Lemma acquire_object_all (pl : BatchPoolImpl F A) t pl' b bytes x0 : allocate (pl_factory pl) = Done (bytes, x0) -> (forall b, P b x0) ->
  acquire_object p g pl t = Done (pl', b) -> map_Forall P (pl_heap pl) -> map_Forall P (pl_heap pl').
Proof using HP.
  intros Hall Hx0. rewrite acquire_object_eq. unfold try_acquire_from_tls.
  destruct (thread_local_batch_cache p g pl t) as [c| | |]; cbn [mbind outcome_bind]; try done.
  destruct (cache_pop p g c) as [[c1 r]| | |]; cbn [mbind outcome_bind]; try done. destruct r as [b'|]; cbn [mbind outcome_bind].
  - destruct (acquire_ptr pl b') as [pl1| | |] eqn:E1; cbn [mbind outcome_bind]; try done. intros [= <- <-] H. cbn. by eapply acquire_ptr_all.
  - destruct (refill_tls_cache p g pl c1) as [[[pl1 c2] b']| | |] eqn:E1; cbn [mbind outcome_bind]; try done.
    intros [= <- <-] H. cbn. by eapply refill_all.
Qed.

Lemma spill_all fuel : forall (pl : BatchPoolImpl F A) c idx pl' c', spill_cache p g fuel pl c idx = Done (pl', c') ->
  map_Forall P (pl_heap pl) -> map_Forall P (pl_heap pl').
Proof using HP.
  induction fuel as [|fuel IH]; intros pl c idx pl' c'; cbn [spill_cache]; [done|]. case_decide as Hdec; [|by intros [= <- _]].
  destruct (cache_pop p g c) as [[c1 r]| | |]; cbn [mbind outcome_bind]; try done. destruct r as [b|]; [|done].
  destruct (push_to_global p g pl idx b) as [[pl1 back]| | |] eqn:E; cbn [mbind outcome_bind]; try done.
  destruct (match back with Some b => hp ← heap_drop (pl_heap pl1) b; Done (pl_set_heap pl1 hp) | None => Done pl1 end) as [pl2| | |] eqn:E2;
    cbn [mbind outcome_bind]; try done.
  intros E3 H. eapply IH; [exact E3|]. apply push_to_global_all in E; [|done]. destruct back as [b'|]; [|by injection E2 as <-].
  destruct (heap_drop (pl_heap pl1) b') as [hp| | |] eqn:E4; cbn [mbind outcome_bind] in E2; try done. injection E2 as <-. cbn.
  by eapply heap_drop_all.
Qed.

Lemma release_all (pl : BatchPoolImpl F A) t b x y pl' : pl_heap pl !! b = Some x -> obj_reset_batch p x = Done y ->
  get_batch_size (ba_batch y) = 0 -> P b y -> map_Forall (fun b' x => b' <> b -> P b' x) (pl_heap pl) ->
  BatchPool_release p g pl t b = Done pl' -> map_Forall P (pl_heap pl').
Proof using HP.
  intros Hx Hy H0 HPb H. rewrite BatchPool_release_eq. unfold release_reset. rewrite Hx, Hy. cbn [mbind outcome_bind].
  rewrite H0, decide_False by (by vm_compute). cbn [mbind outcome_bind]. set (pl1 := pl_set_heap pl _).
  assert (H1 : map_Forall P (pl_heap pl1)).
  { intros b' z. cbn. intros [[<- <-]|[Hne Hz]]%lookup_insert_Some; [done|]. by apply H. }
  destruct (thread_local_batch_cache p g pl1 t) as [c| | |]; cbn [mbind outcome_bind]; try done.
  destruct (cache_push p g (pl_heap pl1) c b) as [[[hp c1] back]| | |] eqn:E1; cbn [mbind outcome_bind]; try done.
  pose proof (cache_push_all _ _ _ _ _ _ E1 H1) as H2. destruct back as [b'|]; [|intros [= <-]; done].
  destruct (shard_idx_for_cache g pl1 c1) as [[[pl2 c2] idx]| | |] eqn:E2; cbn [mbind outcome_bind]; try done.
  assert (Hh2 : pl_heap pl2 = pl_heap pl1).
  { unfold shard_idx_for_cache, assign_shard_idx in E2. destruct (shard_idx c1); [by injection E2 as <- <- <-|].
    case_decide as Hdec; [done|]. by injection E2 as <- <- <-. }
  destruct (spill_cache p g SPILL_FUEL pl2 c2 idx) as [[pl3 c3]| | |] eqn:E3; cbn [mbind outcome_bind]; try done.
  apply spill_all in E3; [|by rewrite Hh2].
  destruct (cache_push p g (pl_heap pl3) c3 b') as [[[hp3 c4] back3]| | |] eqn:E4; cbn [mbind outcome_bind]; try done.
  destruct back3; [done|]. intros [= <-]. cbn. by eapply cache_push_all.
Qed.
End stored.

(** ** What a handle may rely on

    The waiter of a batch is fresh or carries the result of a commit. *)

Definition waiter_ok (w : SyncLogWaiter) : Prop :=
  w = SyncLogWaiter_default \/ w = mkWaiter (WalSyncResultState_as_u8 SySyncDone).

Record good (x : BatchInner) (rs : list rec) : Prop := mkGood {
  gd_ok : batch_ok x 0 (len rs) rs;
  gd_max : bi_max_batch_size x = MAX_BATCH_SIZE;
  gd_waiter : waiter_ok (bi_waiter x)
}.

Lemma good_state x rs s : good x rs -> good (set_runtime_state x s) rs.
Proof. intros [[] ? ?]. by constructor. Qed.

Lemma good_waiter x rs w n : good x rs -> waiter_ok w -> good (set_waiter x w n) rs.
Proof. intros [[] ? ?] Hw. by constructor. Qed.

Lemma good_new : good BatchInner_new [].
Proof. constructor; [apply BatchInner_new_ok|done|by left]. Qed.

Lemma good_recycled x rs s : good x rs -> good (recycled x s) [].
Proof.
  intros [[Hr Hc] Hm Hw]. constructor; [|done|done]. pose proof (len_nonneg (bi_data x)).
  constructor; cbn; try done; change (len (@nil Z)) with 0; unfold room in *; lia.
Qed.

Lemma good_wait x rs : good x rs -> wait_until_reusable x = Done (Ok tt).
Proof. intros [_ _ Hw]. unfold wait_until_reusable. by destruct Hw as [->| ->]. Qed.

Lemma good_data x rs : good x rs -> started x = encode_batch 0 rs.
Proof. intros [[_ _ _ _ _ -> _] _ _]. done. Qed.

Lemma fits_error x rs key value : good x rs ->
  fits rs key value = true <-> put_error x (len key) (len value) = None.
Proof.
  intros H. unfold fits, put_error, layout_error, reserve_error. rewrite (gd_max _ _ H), (good_data _ _ H).
  assert (HEADER_SIZE <= len (encode_batch 0 rs)).
  { unfold encode_batch. rewrite len_app, len_header. pose proof (len_nonneg (concat (enc_rec <$> rs))). lia. }
  rewrite !andb_true_iff, !bool_decide_eq_true.
  repeat (case_decide; [split; [intros [[? ?] ?]; exfalso; lia|done]|]). split; [done|lia].
Qed.

Lemma good_put p x rs key value : good x rs ->
  exists x', BatchObject_put p x key value = Done x' /\ good x' (put_spec key value rs) /\ bi_state x' = bi_state x.
Proof.
  intros H. pose proof (put_outcome p x DEFAULT_CF_ID key value 0 _ rs (gd_ok _ _ H) ltac:(done)) as Hput.
  pose proof (fits_error x rs key value H) as Hf. unfold BatchObject_put, BatchObject_put_cf, put_spec.
  cbv zeta in Hput. destruct (put_error x (len key) (len value)) as [e|].
  - rewrite Hput. cbn [mbind outcome_bind]. destruct (fits rs key value); [by pose proof (proj1 Hf eq_refl)|]. by exists x.
  - destruct Hput as (x' & -> & Hok & _ & d & c & ->). cbn [mbind outcome_bind].
    rewrite (proj2 Hf eq_refl). eexists. split; [done|]. split; [|done].
    constructor; [|apply H..]. by rewrite len_app.
Qed.

(** ** Well-typed programs *)

Section lives.
Context {E : Type} `{!WriterEnv E} (p : profile) (g : pool_cfg) (Hg : cfg_ok g).
Implicit Types (w : world E) (hs : list handle) (C : list (list rec)).

Definition permits w : Z := adm_count (wp_sem (w_pipe w)).

Definition holds (hp : gmap nat BatchInner) (h : handle) (rs : list rec) : Prop :=
  exists x, hp !! object h = Some x /\ good x rs /\ bi_state x = BatchRuntimeState_as_u8 StAcquired.

Definition free_good (held : list nat) (b : nat) (x : BatchInner) : Prop := b ∉ held -> good x [].

Record life_inv w hs C : Prop := mkLifeInv {
  li_pool : pool_inv g (w_pool w) (object <$> hs);
  li_held : Forall2 (holds (w_heap w)) hs C;
  li_free : map_Forall (free_good (object <$> hs)) (w_heap w)
}.

Lemma holds_frames hp hp' hs C : (forall b, b ∈ object <$> hs -> hp' !! b = hp !! b) ->
  Forall2 (holds hp) hs C -> Forall2 (holds hp') hs C.
Proof.
  intros Hf H. induction H as [|h rs hs C (x & Hx & Hg') H IH]; [constructor|]. constructor.
  - exists x. by rewrite Hf by (by left).
  - apply IH. intros b Hb. apply Hf. by right.
Qed.

Lemma inv_held w hs C i h : life_inv w hs C -> hs !! i = Some h ->
  exists rs x, C !! i = Some rs /\ w_heap w !! object h = Some x /\ good x rs /\
    bi_state x = BatchRuntimeState_as_u8 StAcquired /\ object h ∈ object <$> hs /\ NoDup (object <$> hs).
Proof.
  intros [[_ Ho] Hh _] Hi. destruct (Forall2_lookup_l _ _ _ _ _ Hh Hi) as (rs & HC & x & Hx & Hgd & Hs).
  exists rs, x. pose proof (ow_nodup _ _ _ Ho) as Hn. apply NoDup_app in Hn as [Hn _].
  repeat (split; [done|]). split; [|done]. apply list_elem_of_fmap_2. by eapply list_elem_of_lookup_2.
Qed.

Lemma objects_delete hs i h : hs !! i = Some h -> object <$> hs ≡ₚ object h :: (object <$> delete i hs).
Proof. intros Hi. by rewrite (delete_Permutation hs i h Hi) at 1. Qed.

Lemma objects_insert hs i h h' : hs !! i = Some h -> object h' = object h -> object <$> <[i := h']> hs = object <$> hs.
Proof. intros Hi Ho. rewrite list_fmap_insert, Ho. apply list_insert_id. by rewrite list_lookup_fmap, Hi. Qed.

(** A held batch changes, in its records, its state or its handle's type. *)

Lemma inv_update w hs C i h h' x' rs' pipe : life_inv w hs C -> hs !! i = Some h -> object h' = object h ->
  good x' rs' -> bi_state x' = BatchRuntimeState_as_u8 StAcquired ->
  life_inv (mkWorld (pl_set_heap (w_pool w) (<[object h := x']> (w_heap w))) pipe) (<[i := h']> hs) (<[i := rs']> C).
Proof.
  intros Hinv Hi Ho Hx' Hs'. destruct (inv_held _ _ _ _ _ Hinv Hi) as (rs & x & HC & _ & _ & _ & Hin & Hn).
  destruct Hinv as [[Hb Hown] Hh Hf]. constructor; rewrite ?(objects_insert hs i h h' Hi Ho).
  - split; [by destruct Hb|]. by apply (owns_update (w_pool w) _ _ (stored (w_pool w)) (object h) x' Hown).
  - apply Forall2_same_length_lookup. split; [rewrite !length_insert; by eapply Forall2_length|].
    intros j a rs1 Ha Hrs. destruct (decide (i = j)) as [<-|Hne].
    + rewrite list_lookup_insert_eq in Ha by (by eapply lookup_lt_Some).
      rewrite list_lookup_insert_eq in Hrs by (by eapply lookup_lt_Some). injection Ha as <-. injection Hrs as <-.
      exists x'. rewrite Ho. cbn. by rewrite lookup_insert_eq.
    + rewrite list_lookup_insert_ne in Ha by done. rewrite list_lookup_insert_ne in Hrs by done.
      destruct (Forall2_lookup_lr _ _ _ _ _ _ Hh Ha Hrs) as (y & Hy & Hgd). exists y. split; [|done].
      cbn. rewrite lookup_insert_ne; [done|]. intros Heq. apply Hne. apply (NoDup_lookup _ _ _ (object h) Hn); rewrite list_lookup_fmap.
      * by rewrite Hi.
      * by rewrite Ha, Heq.
  - apply map_Forall_insert_2; [|done]. by intros ?.
Qed.

(** A handle is consumed. *)

Lemma inv_remove w hs C i h pl pipe : life_inv w hs C -> hs !! i = Some h ->
  pool_inv g pl (object <$> delete i hs) -> frames (object <$> delete i hs) pl (w_pool w) ->
  map_Forall (free_good (object <$> delete i hs)) (pl_heap pl) ->
  life_inv (mkWorld pl pipe) (delete i hs) (delete i C).
Proof.
  intros [_ Hh _] Hi Hp Hf Hfree. constructor; [done| |done]. apply (holds_frames (w_heap w)); [done|]. by apply Forall2_delete.
Qed.

Lemma free_good_state held b x s : free_good held b x -> free_good held b (obj_set_runtime_state x s).
Proof. intros H Hb. apply (good_state x). by apply H. Qed.

Lemma free_less w hs C i h : life_inv w hs C -> hs !! i = Some h ->
  map_Forall (fun b x => b <> object h -> free_good (object <$> delete i hs) b x) (w_heap w).
Proof.
  intros Hinv Hi b x Hx Hne Hb. apply (li_free _ _ _ Hinv b x Hx). rewrite (objects_delete hs i h Hi). by apply not_elem_of_cons.
Qed.

(** ** Each operation *)

Lemma owned_allocate (f : OwnedBatchFactory) : allocate f = Done (len (bi_data BatchInner_new), BatchInner_new).
Proof. done. Qed.

Lemma acquire_batch_ok w hs C t : life_inv w hs C ->
  exists w' h, acquire_batch p g w t = Done (w', h) /\ life_inv w' (HOpen h :: hs) ([] :: C) /\ w_pipe w' = w_pipe w.
Proof using Hg.
  intros [Hp Hh Hf]. destruct (acquire_object_ok p g Hg (w_pool w) _ t _ _ Hp (owned_allocate _))
    as (pl' & b & E1 & Hp' & Hb & (y & Hy & Hs) & _ & Hfr & _). unfold acquire_batch. rewrite E1. cbn [mbind outcome_bind].
  apply bool_decide_eq_true in Hs.
  assert (Hall : map_Forall (free_good (object <$> hs)) (pl_heap pl')).
  { apply (acquire_object_all p g (free_good (object <$> hs)) (free_good_state _) (w_pool w) t pl' b _ _ (owned_allocate _));
      [by intros ??; apply good_new|done|done]. }
  eexists _, _. split; [done|]. split; [|done]. constructor; [done| |].
  - constructor; [|by apply (holds_frames (w_heap w))]. exists y. split; [done|]. split; [by apply (Hall b y)|done].
  - intros b' x Hx Hb'. cbn in Hb'. apply not_elem_of_cons in Hb' as [_ Hb']. by apply (Hall b' x).
Qed.

Lemma Batch_put_ok w hs C i h key value : life_inv w hs C -> hs !! i = Some (HOpen h) ->
  exists w', Batch_put p w h key value = Done w' /\ life_inv w' hs (alter (put_spec key value) i C) /\ w_pipe w' = w_pipe w.
Proof.
  intros Hinv Hi. destruct (inv_held _ _ _ _ _ Hinv Hi) as (rs & x & HC & Hx & Hgd & Hs & _).
  destruct (good_put p x rs key value Hgd) as (x' & Ep & Hgd' & Hs'). unfold Batch_put, as_inner_ptr.
  change (w_heap w !! b_object h = Some x) in Hx. rewrite Hx. cbn [mbind outcome_bind]. rewrite Ep. cbn [mbind outcome_bind].
  eexists. split; [done|]. split; [|done]. rewrite (list_alter_insert _ _ _ _ HC).
  pose proof (inv_update w hs C i _ (HOpen h) x' _ (w_pipe w) Hinv Hi eq_refl Hgd' ltac:(by rewrite Hs')) as H.
  by rewrite (list_insert_id hs i _ Hi) in H.
Qed.

Lemma Batch_seal_ok w hs C i h : life_inv w hs C -> hs !! i = Some (HOpen h) ->
  life_inv w (<[i := HSealed (Batch_seal h)]> hs) C.
Proof.
  intros Hinv Hi. destruct (inv_held _ _ _ _ _ Hinv Hi) as (rs & x & HC & Hx & Hgd & Hs & _).
  pose proof (inv_update w hs C i _ (HSealed (Batch_seal h)) x rs (w_pipe w) Hinv Hi eq_refl Hgd Hs) as H.
  rewrite (insert_id _ _ _ Hx), (list_insert_id C i _ HC) in H. by destruct w as [[] ?].
Qed.

Lemma Batch_commit_ok w hs C i h : life_inv w hs C -> hs !! i = Some (HSealed h) -> 1 <= permits w ->
  exists w' r, Batch_commit w h = Done (w', r) /\ life_inv w' hs C /\ permits w' = permits w - 1.
Proof.
  intros Hinv Hi Hp. destruct (inv_held _ _ _ _ _ Hinv Hi) as (rs & x & HC & Hx & Hgd & Hs & _).
  unfold Batch_commit, commit. cbn [batch_ptr Batch_sealed]. change (w_heap w !! b_object h = Some x) in Hx. rewrite Hx, reserve_space_done.
  fold (permits w). rewrite decide_False by lia. cbn [mbind outcome_bind]. unfold SyncLogWaiter_signal.
  rewrite rust_assert_true by done. cbn [mbind outcome_bind]. eexists _, _. split; [done|]. split; [|done].
  pose proof (inv_update w hs C i _ (HSealed h) (set_waiter x (mkWaiter (WalSyncResultState_as_u8 SySyncDone)) (bi_waiter_refs x))
    rs (mkPipeline (wp_queue (w_pipe w)) (mkAdmission (permits w - 1)) (wp_sync (w_pipe w)) (wp_env (w_pipe w)) (wp_seq (w_pipe w))) Hinv Hi eq_refl) as H.
  rewrite (list_insert_id hs i _ Hi), (list_insert_id C i _ HC) in H. apply H; [|done]. apply good_waiter; [done|by right].
Qed.

Lemma Batch_reset_handle_ok w hs C i h : life_inv w hs C -> hs !! i = Some h ->
  exists w' h', with_handle (fun S => Batch_reset_handle p w) h = Done (w', h') /\
    life_inv w' (<[i := HOpen h']> hs) (alter (fun _ => []) i C) /\ w_pipe w' = w_pipe w.
Proof.
  intros Hinv Hi. destruct (inv_held _ _ _ _ _ Hinv Hi) as (rs & x & HC & Hx & Hgd & Hs & _).
  assert (Er : Batch_reset p x = Done (recycled x StAcquired)).
  { unfold Batch_reset. rewrite (good_wait _ _ Hgd). unfold can_reset, BatchObject_state. rewrite Hs, state_from_as.
    rewrite (reset_batch_done p x StAcquired Hs eq_refl). by destruct p. }
  set (w' := mkWorld (pl_set_heap (w_pool w) (<[object h := recycled x StAcquired]> (w_heap w))) (w_pipe w)).
  assert (E1 : with_handle (fun S => Batch_reset_handle p w) h = Done (w', mkBatch (object h))).
  { destruct h as [h|h]; cbn [with_handle]; unfold Batch_reset_handle, as_inner_ptr; change (w_heap w !! b_object h = Some x) in Hx;
      rewrite Hx; cbn [mbind outcome_bind]; by rewrite Er. }
  exists w', (mkBatch (object h)). split; [done|]. split; [|done]. rewrite (list_alter_insert _ _ _ _ HC).
  apply (inv_update w hs C i h); [done..|by apply (good_recycled x rs)|done].
Qed.
Lemma Batch_drop_ok w hs C i h : life_inv w hs C -> hs !! i = Some h ->
  exists w', with_handle (fun S => Batch_drop w) h = Done w' /\ life_inv w' (delete i hs) (delete i C) /\ w_pipe w' = w_pipe w.
Proof.
  intros Hinv Hi. destruct (inv_held _ _ _ _ _ Hinv Hi) as (rs & x & HC & Hx & _ & _ & _ & Hn).
  assert (E1 : with_handle (fun S => Batch_drop w) h = Done (w_set_heap w (delete (object h) (w_heap w)))).
  { destruct h as [h|h]; cbn [with_handle]; unfold Batch_drop, heap_drop; change (w_heap w !! b_object h = Some x) in Hx; by rewrite Hx. }
  eexists. split; [done|]. split; [|done]. pose proof (objects_delete hs i h Hi) as Hp. rewrite Hp in Hn.
  apply NoDup_cons in Hn as [Hn _]. apply (inv_remove w hs C i h); [done..| | |].
  - destruct (pool_inv_perm g (w_pool w) _ _ (symmetry Hp) (li_pool _ _ _ Hinv)) as [Hb Ho]. split; [by destruct Hb|].
    by apply (owns_drop (w_pool w) _ _ (stored (w_pool w)) (object h)).
  - intros b Hb. cbn. rewrite lookup_delete_ne; [done|]. by intros <-.
  - intros b y. cbn. intros [Hne Hy]%lookup_delete_Some. by apply (free_less w hs C i h Hinv Hi b y).
Qed.

Lemma Batch_close_ok w hs C t i h : life_inv w hs C -> hs !! i = Some h ->
  exists w', with_handle (fun S => Batch_close p g w t) h = Done (w', Ok tt) /\
    life_inv w' (delete i hs) (delete i C) /\ w_pipe w' = w_pipe w.
Proof using Hg.
  intros Hinv Hi. destruct (inv_held _ _ _ _ _ Hinv Hi) as (rs & x & HC & Hx & Hgd & Hs & _).
  pose proof (pool_inv_perm g (w_pool w) _ _ (symmetry (objects_delete hs i h Hi)) (li_pool _ _ _ Hinv)) as Hp.
  assert (Hsafe : reset_safe x = true) by (unfold reset_safe; by rewrite Hs).
  destruct (release_ok p g Hg (w_pool w) t _ (object h) x Hp Hx Hsafe) as (pl' & y & Er & Hp' & _ & _ & Ey & Hy & _ & Hfr).
  assert (E1 : with_handle (fun S => Batch_close p g w t) h = Done (mkWorld pl' (w_pipe w), Ok tt)).
  { destruct h as [h|h]; cbn [with_handle]; unfold Batch_close, Batch_wait, as_inner_ptr; change (w_heap w !! b_object h = Some x) in Hx;
      rewrite Hx; cbn [mbind outcome_bind]; rewrite (good_wait _ _ Hgd); cbn [mbind outcome_bind];
      change (handle_release p g (w_pool w) t (b_object h) = Done pl') in Er; by rewrite Er. }
  eexists. split; [done|]. split; [|done]. apply (inv_remove w hs C i h); [done..|].
  apply (release_all p g _ (free_good_state _) (w_pool w) t (object h) x y pl' Hx Ey); [by rewrite Hy| | |done].
  - intros _. change (y = recycled x StAcquired) in Hy. rewrite Hy. by apply (good_recycled x rs).
  - by apply (free_less w hs C i h).
Qed.

Lemma w_thread_exit_ok w hs C t : life_inv w hs C ->
  exists w', w_thread_exit w t = Done w' /\ life_inv w' hs C /\ w_pipe w' = w_pipe w.
Proof.
  intros [Hp Hh Hf]. destruct (thread_exit_ok g (w_pool w) _ t Hp) as (pl' & E1 & Hp' & _ & _ & Hfr & Hsub).
  unfold w_thread_exit. rewrite E1. eexists. split; [done|]. split; [|done].
  constructor; [done|by apply (holds_frames (w_heap w))|]. intros b x Hx. apply (Hf b x). by apply Hsub.
Qed.

(** ** Programs *)

Lemma state_lookup hs i s : (handle_state <$> hs) !! i = Some s -> exists h, hs !! i = Some h /\ handle_state h = s.
Proof. rewrite list_lookup_fmap, fmap_Some. intros (h & -> & ->). by exists h. Qed.

Lemma states_id hs i h : hs !! i = Some h -> <[i := handle_state h]> (handle_state <$> hs) = handle_state <$> hs.
Proof. intros Hi. apply list_insert_id. by rewrite list_lookup_fmap, Hi. Qed.

Lemma list_fmap_delete {A B} (f : A -> B) (l : list A) i : f <$> delete i l = delete i (f <$> l).
Proof. revert i. induction l as [|x l IH]; intros [|i]; [done..|]. cbn. f_equal. apply IH. Qed.

Lemma life_step_ok w hs C op G : life_inv w hs C -> check (handle_state <$> hs) op = Some G -> commit_count [op] <= permits w ->
  exists w' hs', life_step p g w hs op = Done (w', hs') /\ life_inv w' hs' (life_spec C op) /\ handle_state <$> hs' = G /\
    permits w' = permits w - commit_count [op].
Proof using Hg.
  unfold permits. intros Hinv Hc Hn. destruct op as [t|i key value|i|i|i|t i|i|t]; cbn [check life_step life_spec commit_count] in *;
    try (destruct ((handle_state <$> hs) !! i) as [s|] eqn:Hs; [|done]; destruct (state_lookup hs i s Hs) as (h & Hi & Hst); rewrite Hi).
  - destruct (acquire_batch_ok w hs C t Hinv) as (w' & h & -> & H & Hw). injection Hc as <-. cbn [mbind outcome_bind].
    eexists _, _. repeat (split; [done|]). rewrite Hw; lia.
  - destruct h as [h|h], s; try done. injection Hc as <-. destruct (Batch_put_ok w hs C i h key value Hinv Hi) as (w' & -> & H & Hw).
    cbn [mbind outcome_bind]. eexists _, _. repeat (split; [done|]). rewrite Hw; lia.
  - destruct h as [h|h], s; try done. injection Hc as <-. eexists _, _. split; [done|]. split; [by apply Batch_seal_ok|].
    split; [apply list_fmap_insert|lia].
  - destruct h as [h|h], s; try done. injection Hc as <-. destruct (Batch_commit_ok w hs C i h Hinv Hi Hn) as (w' & r & -> & H & Hw).
    cbn [mbind outcome_bind]. eexists _, _. by repeat (split; [done|]).
  - injection Hc as <-. destruct (Batch_reset_handle_ok w hs C i h Hinv Hi) as (w' & h' & -> & H & Hw).
    cbn [mbind outcome_bind]. eexists _, _. split; [done|]. split; [done|]. split; [apply list_fmap_insert|rewrite Hw; lia].
  - injection Hc as <-. destruct (Batch_close_ok w hs C t i h Hinv Hi) as (w' & -> & H & Hw). cbn [mbind outcome_bind].
    eexists _, _. split; [done|]. split; [done|]. split; [apply list_fmap_delete|rewrite Hw; lia].
  - injection Hc as <-. destruct (Batch_drop_ok w hs C i h Hinv Hi) as (w' & -> & H & Hw). cbn [mbind outcome_bind].
    eexists _, _. split; [done|]. split; [done|]. split; [apply list_fmap_delete|rewrite Hw; lia].
  - injection Hc as <-. destruct (w_thread_exit_ok w hs C t Hinv) as (w' & -> & H & Hw). cbn [mbind outcome_bind].
    eexists _, _. repeat (split; [done|]). rewrite Hw; lia.
Qed.

Lemma commit_count_nonneg ops : 0 <= commit_count ops.
Proof. induction ops as [|[] ops IH]; cbn; lia. Qed.

Lemma commit_count_cons op ops : commit_count (op :: ops) = commit_count [op] + commit_count ops.
Proof. destruct op; cbn; lia. Qed.

Lemma life_run_ok ops : forall w hs C G, life_inv w hs C -> check_all (handle_state <$> hs) ops = Some G ->
  commit_count ops <= permits w ->
  exists w' hs', life_run p g w hs ops = Done (w', hs') /\ life_inv w' hs' (foldl life_spec C ops) /\ handle_state <$> hs' = G.
Proof using Hg.
  induction ops as [|op ops IH]; intros w hs C G Hinv Hc Hn; cbn [check_all life_run foldl] in *.
  - injection Hc as <-. by exists w, hs.
  - destruct (check _ op) as [G1|] eqn:E1; [|done]. pose proof (commit_count_nonneg ops). rewrite commit_count_cons in Hn.
    destruct (life_step_ok w hs C op G1 Hinv E1 ltac:(lia)) as (w1 & hs1 & -> & H1 & <- & Hp1). cbn [mbind outcome_bind].
    apply (IH w1 hs1 _ G H1 Hc). lia.
Qed.

End lives.

(** ** Properties *)

(** C11: the commit-state types of handles keep programs safe.  A program of
    acquisitions, puts, seals, commits, resets, closes, drops and thread
    exits that [check_all] accepts, and that commits no more often than the
    pipeline has permits, runs to its end in either profile: no panic, no
    access to a freed batch, no endless wait.  The handles then have the
    types the checker says, own distinct live batches, and each batch holds
    exactly the records put through its handle since it was acquired or
    reset and that fit in it, sealed or not, committed or not, whatever the
    allocation held before; every other live batch is stored idle in the
    pool, and dropping the pool after the last handle frees all of them. *)
Theorem lifecycle_types_sound {E} `{!WriterEnv E} p g (pipe : WritePipeline E) ops G :
  cfg_ok g -> check_all [] ops = Some G -> commit_count ops <= adm_count (wp_sem pipe) ->
  exists pl0 w hs, BatchPool_with_factory p g mkOwnedBatchFactory = Done pl0 /\
    life_run p g (mkWorld pl0 pipe) [] ops = Done (w, hs) /\ handle_state <$> hs = G /\ NoDup (object <$> hs) /\
    Forall2 (fun h rs => exists x, w_heap w !! object h = Some x /\ started x = encode_batch 0 rs /\ bi_count x = len rs)
      hs (life_specs ops) /\
    pool_inv g (w_pool w) (object <$> hs) /\ (hs = [] -> BatchPool_drop (w_pool w) = Done ∅).
Proof.
  intros Hg Hc Hn. destruct (with_factory_ok p g Hg mkOwnedBatchFactory) as (pl0 & E0 & H0 & _).
  assert (Hinv : life_inv g (mkWorld pl0 pipe) [] []).
  { constructor; [done|constructor|]. unfold w_heap. cbn. unfold BatchPool_with_factory in E0.
    destruct (BatchPoolShard_new p g); [|done..]. injection E0 as <-. apply map_Forall_empty. }
  destruct (life_run_ok p g Hg ops (mkWorld pl0 pipe) [] [] G Hinv Hc Hn) as (w & hs & Er & [Hp Hh _] & Hst).
  exists pl0, w, hs. split; [done|]. split; [done|]. split; [done|]. split.
  { pose proof (ow_nodup _ _ _ (proj2 Hp)) as Hnd. by apply NoDup_app in Hnd as [? _]. }
  split; [|split; [done|intros ->; by apply (BatchPool_drop_ok g)]].
  apply (Forall2_impl _ _ _ _ Hh). intros h rs (x & Hx & Hgd & _). exists x. split; [done|].
  split; [by apply good_data|apply Hgd].
Qed.

(** Two threads: a batch written, committed, closed and acquired again by the
    thread that closed it, another one dropped, a third kept sealed. *)

Definition demo_life : list life_op :=
  [LAcquire 0; LPut 0 [1] [2; 3]; LSeal 0; LCommit 0; LAcquire 1; LPut 0 [7] []; LClose 1 1; LDrop 0; LAcquire 1;
   LPut 0 [4] [5]; LReset 0; LPut 0 [6] [7]; LSeal 0; LExit 0].

Lemma lifecycle_types_sound_witness :
  exists pl0 w hs, BatchPool_with_factory Debug BatchPool_cfg mkOwnedBatchFactory = Done pl0 /\
    life_run Debug BatchPool_cfg (mkWorld pl0 (demo_pipeline 0)) [] demo_life = Done (w, hs) /\
    handle_state <$> hs = [Sealed] /\ NoDup (object <$> hs) /\
    Forall2 (fun h rs => exists x, w_heap w !! object h = Some x /\ started x = encode_batch 0 rs /\ bi_count x = len rs)
      hs (life_specs demo_life) /\
    pool_inv BatchPool_cfg (w_pool w) (object <$> hs) /\ (hs = [] -> BatchPool_drop (w_pool w) = Done ∅).
Proof.
  apply (lifecycle_types_sound Debug BatchPool_cfg (demo_pipeline 0) demo_life [Sealed]);
    [by vm_compute|reflexivity|discriminate].
Defined.

Example demo_life_spec : life_specs demo_life = [[mkRec RPut 0 [6] [7]]].
Proof. by vm_compute. Qed.
