(* ===== verification/Indexed.v ===== *)
(** * Indexed: batches with an index

    What [db/batch.rs], [db/batch_pool.rs] and
    [utils/skiplists/batch_index.rs] have of indexed batches: the allocation a
    batch shares with its arena and index, which implements [BatchAllocation],
    the pools of such allocations, and the handle [IndexedBatch].  The index
    has no operations in the source, its constructors and those of the
    allocation are [todo!()], and puts do nothing yet, so the engine's factory
    panics; every other operation is proved for pools whose factory does
    not. *)

From S2P Require Import Prelude Records Wal Arena Batch Allocation Pool Handle.
Local Open Scope Z_scope.

(** ** The index *)

(* @src crates/engine/src/utils/skiplists/batch_index.rs:57-74 IndexNode *)
Record IndexNode := mkIndexNode {
  in_cf_id : Z;
  record_offset : Z;
  key_offset : Z;
  key_len : Z;
  in_height : Z;
  in_reserved : Z
}.

(* @src crates/engine/src/utils/skiplists/batch_index.rs:87-87 BatchSkipList *)
Inductive BatchSkipList := mkBatchSkipList.

(** ** The allocation *)

(* @src crates/engine/src/db/batch.rs:997-1005 IndexedBatchInner *)
Record IndexedBatchInner := mkIndexedBatchInner {
  ib_batch : BatchInner;
  ib_arena : Arena;
  ib_index : BatchSkipList;
  ib_range_del_index : option BatchSkipList
}.

(* @src crates/engine/src/db/batch.rs:1007-1012 IndexedBatchInner::new *)
Definition IndexedBatchInner_new : outcome IndexedBatchInner := Panic "not yet implemented".

Definition ib_set_arena (x : IndexedBatchInner) (a : Arena) : IndexedBatchInner :=
  mkIndexedBatchInner (ib_batch x) a (ib_index x) (ib_range_del_index x).

Definition ib_set_batch (x : IndexedBatchInner) (b : BatchInner) : IndexedBatchInner :=
  mkIndexedBatchInner b (ib_arena x) (ib_index x) (ib_range_del_index x).

(* @src crates/engine/src/db/batch.rs:507-520 OwnedIndexedBatchPtr *)
#[export] Instance OwnedIndexedBatchPtr_allocation : BatchAllocation IndexedBatchInner := {
  ba_batch := ib_batch;
  ba_set_batch := ib_set_batch;
  reset_for_reuse := fun p x =>
    a ← Arena_reset p (ib_arena x);
    b ← BatchInner_clear p (ib_batch x);
    Done (ib_set_batch (ib_set_arena x a) b)
}.

(** It is valid when its arena is. *)

#[export] Instance OwnedIndexedBatchPtr_laws : AllocationLaws IndexedBatchInner.
Proof.
  refine {| alloc_ok := fun x => arena_ok (ib_arena x) |}; [done..|]. intros p x b Hx E.
  cbn [reset_for_reuse OwnedIndexedBatchPtr_allocation ba_batch] in *. rewrite Arena_reset_done, E by done.
  cbn [mbind outcome_bind]. eexists. split; [done|]. split; [done|]. by apply reset_ok.
Defined.

(* @src crates/engine/src/db/batch.rs:345-346 IndexedBatchFactory *)
Inductive IndexedBatchFactory := mkIndexedBatchFactory.

(* @src crates/engine/src/db/batch.rs:348-359 IndexedBatchFactory *)
#[export] Instance IndexedBatchFactory_factory : BatchFactory IndexedBatchFactory IndexedBatchInner := {
  allocate := fun _ => Panic "not yet implemented";
  allocate_with_capacity := fun _ _ => Panic "not yet implemented"
}.

#[export] Instance IndexedBatchFactory_laws : FactoryLaws IndexedBatchFactory IndexedBatchInner.
Proof. done. Qed.

(* @src crates/engine/src/db/batch_pool.rs:722-729 IndexedBatchPool *)
Definition IndexedBatchPool : Type := BatchPoolImpl IndexedBatchFactory IndexedBatchInner.

(** ** Handles *)

(* @src crates/engine/src/db/batch.rs:625-632 IndexedBatch *)
Record IndexedBatch (S : commit_state) := mkIndexedBatch { ix_object : nat }.

#[global] Arguments mkIndexedBatch {S} _.
#[global] Arguments ix_object {S} _.

(* @src crates/engine/src/db/batch.rs:675-682 IndexedBatch::batch_ptr *)
#[export] Instance IndexedBatch_sealed : SealedBatch (IndexedBatch Sealed) := { batch_ptr := ix_object }.

Section handles.
Context {F : Type} `{!BatchFactory F IndexedBatchInner} (p : profile) (g : pool_cfg).

Definition ix_inner {S} (pl : BatchPoolImpl F IndexedBatchInner) (h : IndexedBatch S) : outcome IndexedBatchInner :=
  match pl_heap pl !! ix_object h with Some x => Done x | None => UB "access to a freed batch" end.

Definition ix_set {S} (pl : BatchPoolImpl F IndexedBatchInner) (h : IndexedBatch S) (x : IndexedBatchInner)
  : BatchPoolImpl F IndexedBatchInner := pl_set_heap pl (<[ix_object h := x]> (pl_heap pl)).

(* @src crates/engine/src/db/batch_pool.rs:708-710 BatchPoolImpl::acquire_indexed_batch *)
Definition acquire_indexed_batch (pl : BatchPoolImpl F IndexedBatchInner) (t : nat)
  : outcome (BatchPoolImpl F IndexedBatchInner * IndexedBatch UnCommitted) :=
  '(pl, b) ← acquire_object p g pl t; Done (pl, mkIndexedBatch b).

(* @src crates/engine/src/db/batch.rs:649-652 IndexedBatch::wait *)
Definition IndexedBatch_wait {S} (pl : BatchPoolImpl F IndexedBatchInner) (h : IndexedBatch S) : outcome (result unit Error) :=
  x ← ix_inner pl h; wait_until_reusable (ib_batch x).

(** A handle that goes out of scope frees its batch, with its arena. *)

(* @src crates/engine/src/db/batch.rs:528-540 OwnedIndexedBatchPtr::drop *)
Definition IndexedBatch_drop {S} (pl : BatchPoolImpl F IndexedBatchInner) (h : IndexedBatch S)
  : outcome (BatchPoolImpl F IndexedBatchInner) :=
  hp ← heap_drop (pl_heap pl) (ix_object h); Done (pl_set_heap pl hp).

(** The handle is consumed either way; when the wait fails it is dropped. *)

(* @src crates/engine/src/db/batch.rs:654-660 IndexedBatch::close *)
Definition IndexedBatch_close {S} (pl : BatchPoolImpl F IndexedBatchInner) (t : nat) (h : IndexedBatch S)
  : outcome (BatchPoolImpl F IndexedBatchInner * result unit Error) :=
  r ← IndexedBatch_wait pl h;
  match r with
  | Err e => pl ← IndexedBatch_drop pl h; Done (pl, Err e)
  | Ok tt => pl ← handle_release p g pl t (ix_object h); Done (pl, Ok tt)
  end.

(* @src crates/engine/src/db/batch.rs:662-672 IndexedBatch::reset *)
Definition IndexedBatch_reset {S} (pl : BatchPoolImpl F IndexedBatchInner) (h : IndexedBatch S)
  : outcome (BatchPoolImpl F IndexedBatchInner * IndexedBatch UnCommitted) :=
  r ← IndexedBatch_wait pl h;
  match r with
  | Err _ => Panic "batch wait failed before reset"
  | Ok tt =>
      x ← ix_inner pl h;
      a ← Arena_reset p (ib_arena x);
      x ← obj_reset_batch p (ib_set_arena x a);
      Done (ix_set pl h x, mkIndexedBatch (ix_object h))
  end.
End handles.

(** A put into an indexed batch does nothing yet. *)

(* @src crates/engine/src/db/batch.rs:919-926 BatchObject::put_cf *)
Definition Indexed_put_cf (x : IndexedBatchInner) (cf_id : Z) (key value : bytes) : IndexedBatchInner := x.

(* @src crates/engine/src/db/batch.rs:910-917 BatchObject::put *)
Definition Indexed_put (x : IndexedBatchInner) (key value : bytes) : IndexedBatchInner :=
  Indexed_put_cf x DEFAULT_CF_ID key value.

(** ** What a reset does

    The arena keeps its chunks, all of them empty; the index is left as it
    is. *)

Definition arena_emptied (a : Arena) : Arena :=
  mkArena 0 (set_bump 0 <$> chunks a) (Arena.allocated_bytes a) 0 (allocator a) (policy a).

Definition ib_recycled (x : IndexedBatchInner) (s : BatchRuntimeState) : IndexedBatchInner :=
  mkIndexedBatchInner (recycled (ib_batch x) s) (arena_emptied (ib_arena x)) (ib_index x) (ib_range_del_index x).

Lemma arena_emptied_twice a : arena_emptied (arena_emptied a) = arena_emptied a.
Proof. unfold arena_emptied. cbn. by rewrite <- list_fmap_compose. Qed.

Lemma ib_reset_done p x : arena_ok (ib_arena x) -> reset_safe (ib_batch x) = true ->
  obj_reset_batch p x = Done (ib_recycled x StAcquired).
Proof.
  intros Ha Hs. pose proof (reset_safe_reset p _ Hs) as E. unfold reset_batch in E. unfold obj_reset_batch.
  change (obj_state x) with (BatchObject_state (ib_batch x)).
  apply bind_done in E as (s & -> & E). apply bind_done in E as ([] & Hb & E). apply bind_done in E as (b & Eb & E).
  cbn [mbind outcome_bind]. rewrite Hb. cbn [mbind outcome_bind reset_for_reuse OwnedIndexedBatchPtr_allocation].
  rewrite Arena_reset_done, Eb by done. cbn [mbind outcome_bind]. unfold ib_recycled.
  assert (Eq : set_runtime_state b StAcquired = recycled (ib_batch x) StAcquired) by congruence. by rewrite <- Eq.
Qed.

(** A caller that holds [b] in a pool. *)

Section clients.
Context {F : Type} `{!BatchFactory F IndexedBatchInner, FL : !FactoryLaws F IndexedBatchInner} (p : profile) (g : pool_cfg).
Hypothesis Hg : cfg_ok g.
Implicit Types pl : BatchPoolImpl F IndexedBatchInner.

Lemma ix_arena_ok pl held b x : pool_inv g pl held -> pl_heap pl !! b = Some x -> arena_ok (ib_arena x).
Proof. intros [_ Ho] Hx. exact (ow_alloc _ _ _ Ho b x Hx). Qed.

(** Resetting a batch that nobody uses any more and whose log entry, if any,
    is durable. *)

Lemma indexed_reset {S} pl held (h : IndexedBatch S) x :
  pool_inv g pl held -> ix_object h ∈ held -> pl_heap pl !! ix_object h = Some x -> reset_safe (ib_batch x) = true ->
  wait_until_reusable (ib_batch x) = Done (Ok tt) ->
  exists pl', IndexedBatch_reset p pl h = Done (pl', mkIndexedBatch (ix_object h)) /\ pool_inv g pl' held /\
    pl_heap pl' = <[ix_object h := ib_recycled x StAcquired]> (pl_heap pl).
Proof.
  intros Hinv Hb Hx Hs Hw. pose proof (ix_arena_ok pl held _ x Hinv Hx) as Ha.
  exists (ix_set pl h (ib_recycled x StAcquired)). split; [|split; [|reflexivity]].
  - unfold IndexedBatch_reset, IndexedBatch_wait, ix_inner. rewrite Hx. cbn [mbind outcome_bind]. rewrite Hw.
    cbn [mbind outcome_bind]. rewrite Arena_reset_done by done. cbn [mbind outcome_bind].
    fold (arena_emptied (ib_arena x)).
    rewrite (ib_reset_done p (ib_set_arena x _)); [|by apply reset_ok|done]. cbn [mbind outcome_bind].
    unfold ib_recycled, ib_set_arena. cbn [ib_batch ib_arena ib_index ib_range_del_index]. by rewrite arena_emptied_twice.
  - destruct Hinv as [Hbd Ho]. split; [by destruct Hbd|].
    apply (owns_update pl _ held (stored pl) (ix_object h) (ib_recycled x StAcquired) Ho); [done|by apply reset_ok|done..].
Qed.

(** One whose batch the pipeline still owns panics: after the arena has been
    reset, which nothing checks before. *)

Lemma indexed_reset_refused {S} pl held (h : IndexedBatch S) x s :
  pool_inv g pl held -> pl_heap pl !! ix_object h = Some x -> obj_state x = Done s -> is_reset_safe s = false ->
  wait_until_reusable (ib_batch x) = Done (Ok tt) ->
  exists why, IndexedBatch_reset p pl h = Panic why.
Proof.
  intros Hinv Hx Hs Hr Hw. eexists. unfold IndexedBatch_reset, IndexedBatch_wait, ix_inner. rewrite Hx.
  cbn [mbind outcome_bind]. rewrite Hw. cbn [mbind outcome_bind].
  rewrite Arena_reset_done by (by apply (ix_arena_ok pl held (ix_object h))). cbn [mbind outcome_bind].
  rewrite obj_reset_unsafe; [reflexivity|]. by exists s.
Qed.

(** Closing puts the batch, reset, last in the closing thread's cache: the
    thread's next acquisition returns it. *)

Lemma indexed_close {S} pl t held (h : IndexedBatch S) x bytes x0 :
  pool_inv g pl (ix_object h :: held) -> allocate (pl_factory pl) = Done (bytes, x0) ->
  pl_heap pl !! ix_object h = Some x -> reset_safe (ib_batch x) = true -> wait_until_reusable (ib_batch x) = Done (Ok tt) ->
  exists pl1 pl2, IndexedBatch_close p g pl t h = Done (pl1, Ok tt) /\ pool_inv g pl1 held /\ frames held pl1 pl /\
    acquire_indexed_batch p g pl1 t = Done (pl2, mkIndexedBatch (ix_object h)) /\ pool_inv g pl2 (ix_object h :: held) /\
    pl_heap pl2 !! ix_object h = Some (ib_recycled x StAcquired).
Proof using Hg FL.
  intros Hinv Hall Hx Hs Hw. destruct (release_ok p g Hg pl t held _ x Hinv Hx Hs)
    as (pl1 & y & E1 & H1 & Hf & [rest Hr] & Ey & _ & Hb & Hfr).
  rewrite (ib_reset_done p x (ix_arena_ok pl _ _ x Hinv Hx) Hs) in Ey. injection Ey as <-.
  destruct (acquire_object_ok p g Hg pl1 held t bytes x0 H1 ltac:(by rewrite Hf)) as (pl2 & b' & E2 & H2 & _ & _ & _ & _ & Hl).
  destruct (Hl rest _ _ Hr Hb) as [-> Hz]. exists pl1, pl2. split; [|split; [done|split; [done|split; [|by split]]]].
  - unfold IndexedBatch_close, IndexedBatch_wait, ix_inner. rewrite Hx. cbn [mbind outcome_bind]. rewrite Hw.
    cbn [mbind outcome_bind handle_release BatchPoolImpl_handle]. by rewrite E1.
  - unfold acquire_indexed_batch. by rewrite E2.
Qed.

(** A batch whose log entry failed is freed. *)

Lemma indexed_close_fails {S} pl t held (h : IndexedBatch S) x e :
  pool_inv g pl (ix_object h :: held) -> pl_heap pl !! ix_object h = Some x ->
  wait_until_reusable (ib_batch x) = Done (Err e) ->
  exists pl1, IndexedBatch_close p g pl t h = Done (pl1, Err e) /\ pool_inv g pl1 held /\
    pl_heap pl1 = delete (ix_object h) (pl_heap pl).
Proof.
  intros [Hb Ho] Hx Hw. unfold IndexedBatch_close, IndexedBatch_wait, IndexedBatch_drop, ix_inner, heap_drop. rewrite Hx.
  cbn [mbind outcome_bind]. rewrite Hw. cbn [mbind outcome_bind]. eexists. split; [done|]. split; [|done].
  split; [by destruct Hb|]. by apply (owns_drop pl _ held (stored pl) (ix_object h)).
Qed.
End clients.

(** ** Pools with a factory

    A factory that allocates a given batch, to run what the engine's factory
    does not reach. *)

Record given_factory := mkGiven { given : IndexedBatchInner; given_ok : arena_ok (ib_arena given) }.

#[export] Instance given_factory_factory : BatchFactory given_factory IndexedBatchInner := {
  allocate := fun f => Done (0, given f);
  allocate_with_capacity := fun f _ => Done (0, given f)
}.

#[export] Instance given_factory_laws : FactoryLaws given_factory IndexedBatchInner.
Proof. constructor. intros f bytes x [= _ <-]. apply given_ok. Qed.

Definition demo_factory : given_factory :=
  mkGiven (mkIndexedBatchInner BatchInner_new tiny_arena mkBatchSkipList None) tiny_arena_ok.

(** What [pool_exclusive] says of plain batches holds of indexed ones. *)

Lemma indexed_pool_exclusive p g (f : given_factory) (ops : list (client_op IndexedBatchInner)) :
  cfg_ok g -> Forall use_ok ops ->
  exists pl0 pl held, BatchPool_with_factory p g f = Done pl0 /\
    client_run p g (pl0, []) ops = Done (pl, held) /\ NoDup (held ++ stored pl) /\
    (forall b, is_Some (pl_heap pl !! b) <-> b ∈ held ++ stored pl) /\
    Forall (is_idle (pl_heap pl)) (stored pl) /\ map_Forall (fun _ x => arena_ok (ib_arena x)) (pl_heap pl).
Proof.
  intros Hg Hops. destruct (with_factory_ok (P := IndexedBatchInner) p g Hg f) as (pl0 & E0 & H0 & Hf).
  destruct (client_run_ok p g Hg ops pl0 [] 0 (given f) Hops H0 ltac:(by rewrite Hf)) as (pl & held & E & [_ []] & _).
  by exists pl0, pl, held.
Qed.

(** A batch is acquired, a put does nothing to it, it is closed and acquired
    again. *)

Example demo_indexed :
  (pl ← BatchPool_with_factory Debug BatchPool_cfg demo_factory;
   '(pl, h) ← acquire_indexed_batch Debug BatchPool_cfg pl 0;
   x ← ix_inner pl h;
   '(pl, r) ← IndexedBatch_close Debug BatchPool_cfg (ix_set pl h (Indexed_put x [1] [2])) 0 h;
   '(pl, h') ← acquire_indexed_batch Debug BatchPool_cfg pl 0;
   y ← ix_inner pl h';
   Done (r, ix_object h', bi_count (ib_batch y), len (bi_data (ib_batch y)))) = Done (Ok tt, 0%nat, 0, 0).
Proof. by vm_compute. Qed.

(** ** No indexed batch is ever handed out *)

(** A pool none of whose storage has a batch. *)

Definition pool_bare (pl : IndexedBatchPool) : Prop :=
  map_Forall (fun _ c => c_batches c = []) (pl_caches pl) /\ Forall (fun s => s_batches s = []) (pl_shards pl).

Definition is_acquire {P} (op : client_op P) : bool := match op with CAcquire _ => true | _ => false end.

Lemma bare_acquire p g (pl : IndexedBatchPool) t : cfg_ok g -> bounds_ok g pl -> pool_bare pl ->
  acquire_object p g pl t = Panic "not yet implemented".
Proof.
  intros Hg Hb [Hc Hs]. rewrite acquire_object_eq.
  assert (Hcache : exists c, thread_local_batch_cache p g pl t = Done c /\ c_batches c = [] /\ cache_ok g c).
  { unfold thread_local_batch_cache. destruct (pl_caches pl !! t) as [c|] eqn:E.
    - exists c. split; [done|]. split; [by apply (Hc t)|by apply (bd_caches _ _ Hb t)].
    - destruct Hg as (H1 & H2 & H3 & H4). unfold ThreadBatchCache_new.
      rewrite !debug_assert_true by (apply bool_decide_eq_true; unfold u_max; lia). eexists. split; [done|].
      split; [done|]. split; [cbn; unfold cache_len; cbn; unfold len; cbn; lia|done]. }
  destruct Hcache as (c & -> & He & Hok). cbn [mbind outcome_bind]. unfold try_acquire_from_tls.
  rewrite (cache_pop_done p g c Hok), He. cbn [vec_pop last mbind outcome_bind]. unfold refill_tls_cache.
  assert (Hi : exists pl1 c1 idx, shard_idx_for_cache g pl c = Done (pl1, c1, idx) /\ 0 <= idx < cfg_shards g /\
    pl_shards pl1 = pl_shards pl /\ bounds_ok g pl1).
  { destruct Hg as (H1 & _). unfold shard_idx_for_cache. destruct (shard_idx c) as [i|] eqn:E.
    - exists pl, c, i. split; [done|]. split; [by apply Hok|done].
    - unfold assign_shard_idx. rewrite decide_False by lia. eexists _, _, _. split; [done|].
      split; [apply Z.mod_pos_bound; lia|]. split; [done|]. destruct Hb. constructor; try done. cbn. by apply wrap_in_width. }
  destruct Hi as (pl1 & c1 & idx & -> & Hi & Hsh & Hb1). cbn [mbind outcome_bind].
  destruct (bounds_get_shard g pl1 idx Hb1 Hi) as (s & Hs1 & Hget & Hl). unfold pop_from_global. rewrite Hget.
  cbn [mbind outcome_bind]. unfold shard_pop. rewrite debug_assert_true by (by apply bool_decide_eq_true).
  assert (Hempty : s_batches s = []) by (rewrite Hsh in Hs1; by apply (Forall_lookup_1 _ _ _ _ Hs Hs1)).
  rewrite Hempty. done.
Qed.

(** Whatever clients do with a pool of indexed batches, their first
    acquisition panics. *)

Lemma indexed_pool_panics p g (ops : list (client_op IndexedBatchInner)) : cfg_ok g -> existsb is_acquire ops = true ->
  (pl ← BatchPool_with_factory p g mkIndexedBatchFactory; client_run p g (pl, []) ops) = Panic "not yet implemented".
Proof.
  intros Hg Hops. destruct (with_factory_ok (P := IndexedBatchInner) p g Hg mkIndexedBatchFactory) as (pl & E & [Hb _] & _). rewrite E. cbn [mbind outcome_bind].
  assert (Hbare : pool_bare pl).
  { destruct Hg as (_ & H2 & _). unfold BatchPool_with_factory, BatchPoolShard_new in E.
    rewrite !debug_assert_true in E by (apply bool_decide_eq_true; unfold u_max; lia). cbn [mbind outcome_bind] in E.
    injection E as <-. split; [done|]. by apply Forall_replicate. }
  clear E. revert pl Hb Hbare. induction ops as [|op ops IH]; intros pl Hb Hbare; [done|]. cbn [client_run existsb] in *.
  destruct op as [t|b x|t b|t]; cbn [is_acquire orb] in Hops; cbn [client_step].
  - by rewrite (bare_acquire p g pl t Hg Hb Hbare).
  - rewrite decide_False by (by intros ?%elem_of_nil). by apply IH.
  - rewrite decide_False by (by intros ?%elem_of_nil). by apply IH.
  - unfold thread_exit. destruct (pl_caches pl !! t) as [c|] eqn:Et; [|by apply IH].
    rewrite (proj1 Hbare t c Et). cbn [drop_batches mbind outcome_bind]. apply IH; [done| |].
    + destruct Hb. constructor; cbn; try done. by apply map_Forall_delete.
    + destruct Hbare. split; [by apply map_Forall_delete|done].
Qed.
