(* ===== verification/ThreadLocal.v ===== *)
(** * ThreadLocal: the matrix of thread-local objects

    Models [thread_local_storage/thread_local.rs] and
    [thread_local_storage/thread_local_ptr.rs]: a row per thread, kept in a
    circular doubly linked list behind the mutex of the registry, and a column
    per [ThreadLocalPtr], identified by an index that is reused.  Rows live in
    a heap, row [0] being the list's sentinel and row [S t] that of thread [t];
    a null pointer is [None].  An object stored in a cell is a number, and a
    call of a column's handler on it is recorded in order.  Operations run one
    at a time here, and interleaved in [ThreadLocalThreads]. *)

From S2P Require Import Prelude.

(** ** Data *)

(** The handler of a column is the function registered for it. *)

(* @src crates/engine/src/thread_local_storage/thread_local_ptr.rs:13-13 UnrefHandler *)
Definition UnrefHandler : Type := Z.

(* @src crates/engine/src/thread_local_storage/thread_local.rs:107-114 ThreadData *)
Record ThreadData := mkThreadData {
  next : option nat;
  prev : option nat;
  entries : list (option Z);
  registered : bool
}.

(** [tm_calls] are the handler calls made so far. *)

(* @src crates/engine/src/thread_local_storage/thread_local.rs:30-40 ThreadMetaGlobal *)
Record ThreadMetaGlobal := mkMeta {
  tm_rows : gmap nat ThreadData;
  unref_handler_map : gmap Z UnrefHandler;
  next_tls_id : Z;
  tls_id_free_list : list Z;
  tm_calls : list (UnrefHandler * Z)
}.

Definition head : nat := 0.

(* @src crates/engine/src/thread_local_storage/thread_local.rs:126-133 ThreadData::new *)
Definition ThreadData_new : ThreadData := mkThreadData None None [] false.

(* @src crates/engine/src/thread_local_storage/thread_local.rs:59-86 ThreadMetaGlobal::new *)
Definition ThreadMetaGlobal_new : ThreadMetaGlobal :=
  mkMeta {[head := mkThreadData (Some head) (Some head) [] false]} ∅ 0 [] [].

Definition set_rows (m : ThreadMetaGlobal) (rows : gmap nat ThreadData) : ThreadMetaGlobal :=
  mkMeta rows (unref_handler_map m) (next_tls_id m) (tls_id_free_list m) (tm_calls m).
Definition add_call (m : ThreadMetaGlobal) (h : UnrefHandler) (ptr : Z) : ThreadMetaGlobal :=
  mkMeta (tm_rows m) (unref_handler_map m) (next_tls_id m) (tls_id_free_list m) (tm_calls m ++ [(h, ptr)]).

(** Access through a pointer to a row. *)

Definition row (rows : gmap nat ThreadData) (r : option nat) : outcome (nat * ThreadData) :=
  match r with
  | None => UB "null pointer"
  | Some r => match rows !! r with Some d => Done (r, d) | None => UB "row of a thread that has exited" end
  end.

Definition set_next (rows : gmap nat ThreadData) (r x : option nat) : outcome (gmap nat ThreadData) :=
  '(r, d) ← row rows r; Done (<[r := mkThreadData x (prev d) (entries d) (registered d)]> rows).

Definition set_prev (rows : gmap nat ThreadData) (r x : option nat) : outcome (gmap nat ThreadData) :=
  '(r, d) ← row rows r; Done (<[r := mkThreadData (next d) x (entries d) (registered d)]> rows).

Definition set_row_entries (rows : gmap nat ThreadData) (r : nat) (es : list (option Z)) : outcome (gmap nat ThreadData) :=
  '(r, d) ← row rows (Some r); Done (<[r := mkThreadData (next d) (prev d) es (registered d)]> rows).

Definition set_registered (rows : gmap nat ThreadData) (r : nat) : outcome (gmap nat ThreadData) :=
  '(r, d) ← row rows (Some r); Done (<[r := mkThreadData (next d) (prev d) (entries d) true]> rows).

(** ** Rows *)

(* @src crates/engine/src/thread_local_storage/thread_local.rs:144-190 ThreadData::ensure_registered *)
Definition ensure_registered (rows : gmap nat ThreadData) (this : nat) : outcome (gmap nat ThreadData) :=
  '(_, d) ← row rows (Some this);
  if registered d then Done rows
  else
    '(_, s) ← row rows (Some head);
    let first := next s in
    rows ← set_prev rows (Some this) (Some head);
    rows ← set_next rows (Some this) first;
    rows ← set_prev rows first (Some this);
    rows ← set_next rows (Some head) (Some this);
    set_registered rows this.

(** The loop over the entries of a row that is dropped. *)

(* @src crates/engine/src/thread_local_storage/thread_local.rs:214-234 ThreadData::drop_row *)
Fixpoint drop_entries (handlers : gmap Z UnrefHandler) (idx : Z) (es : list (option Z)) : list (UnrefHandler * Z) :=
  match es with
  | [] => []
  | e :: es =>
      let rest := drop_entries handlers (idx + 1) es in
      match e with
      | None => rest
      | Some ptr => match handlers !! idx with Some h => (h, ptr) :: rest | None => rest end
      end
  end.

(* @src crates/engine/src/thread_local_storage/thread_local.rs:192-235 ThreadData::drop_row *)
Definition drop_row (m : ThreadMetaGlobal) (r : nat) : outcome ThreadMetaGlobal :=
  let rows := tm_rows m in
  '(_, d) ← row rows (Some r);
  let p := prev d in
  let n := next d in
  rows ← set_next rows p n;
  rows ← set_prev rows n p;
  rows ← set_next rows (Some r) None;
  rows ← set_prev rows (Some r) None;
  '(_, d) ← row rows (Some r);
  rows ← set_row_entries rows r (replicate (length (entries d)) None);
  Done (mkMeta rows (unref_handler_map m) (next_tls_id m) (tls_id_free_list m)
          (tm_calls m ++ drop_entries (unref_handler_map m) 0 (entries d))).

(** [TLS_THREAD_ROW] is created at its first use and dropped at thread exit. *)

(* @src crates/engine/src/thread_local_storage/thread_local.rs:22-26 TLS_THREAD_ROW *)
Definition tls_thread_row (m : ThreadMetaGlobal) (t : nat) : ThreadMetaGlobal :=
  match tm_rows m !! S t with
  | Some _ => m
  | None => set_rows m (<[S t := ThreadData_new]> (tm_rows m))
  end.

(* @src crates/engine/src/thread_local_storage/thread_local.rs:116-123 ThreadData::drop *)
Definition tls_thread_exit (m : ThreadMetaGlobal) (t : nat) : outcome ThreadMetaGlobal :=
  match tm_rows m !! S t with
  | None => Done m
  | Some _ => m ← drop_row m (S t); Done (set_rows m (delete (S t) (tm_rows m)))
  end.

(** [f] gets the content of the cell and returns the content it leaves there. *)

(* @src crates/engine/src/thread_local_storage/thread_local.rs:248-269 ThreadData::with_tlp_ptr *)
Definition with_tlp_ptr {R} (p : profile) (m : ThreadMetaGlobal) (t : nat) (tls_id : Z)
    (f : option Z -> outcome (option Z * R)) : outcome (ThreadMetaGlobal * R) :=
  let m := tls_thread_row m t in
  rows ← ensure_registered (tm_rows m) (S t);
  '(_, d) ← row rows (Some (S t));
  es ← (if decide (len (entries d) <= tls_id)
        then n ← add_w p usize_bits tls_id 1; Done (vec_resize (entries d) n None)
        else Done (entries d));
  match es !! Z.to_nat tls_id with
  | None => Panic "index out of bounds"
  | Some cell =>
      '(cell, r) ← f cell;
      rows ← set_row_entries rows (S t) (<[Z.to_nat tls_id := cell]> es);
      Done (set_rows m rows, r)
  end.

(** ** Columns *)

(* @src crates/engine/src/thread_local_storage/thread_local_ptr.rs:65-68 ThreadLocalPtr *)
Record ThreadLocalPtr := mkThreadLocalPtr { tls_id : Z }.

(* @src crates/engine/src/thread_local_storage/thread_local_ptr.rs:71-103 ThreadLocalPtr::new_with_handler *)
Definition new_with_handler (m : ThreadMetaGlobal) (handler : option UnrefHandler) : ThreadMetaGlobal * ThreadLocalPtr :=
  let '(free, next, id) :=
    match vec_pop (tls_id_free_list m) with
    | Some (rest, id) => (rest, next_tls_id m, id)
    | None => (tls_id_free_list m, wrap usize_bits (next_tls_id m + 1), next_tls_id m)
    end in
  let handlers := match handler with
                  | Some h => <[id := h]> (unref_handler_map m)
                  | None => delete id (unref_handler_map m)
                  end in
  (mkMeta (tm_rows m) handlers next free (tm_calls m), mkThreadLocalPtr id).

(* @src crates/engine/src/thread_local_storage/thread_local_ptr.rs:123-132 ThreadLocalPtr::init *)
Definition tlp_init (p : profile) (m : ThreadMetaGlobal) (c : ThreadLocalPtr) (t : nat) (entry : Z)
  : outcome ThreadMetaGlobal :=
  '(m, _) ← with_tlp_ptr p m t (tls_id c) (fun cell =>
    _ ← debug_assert p (bool_decide (cell = None)) "ptr.load(Ordering::Acquire).is_null()";
    Done (Some entry, tt));
  Done m.

(* @src crates/engine/src/thread_local_storage/thread_local_ptr.rs:134-148 ThreadLocalPtr::get *)
Definition tlp_get (p : profile) (m : ThreadMetaGlobal) (c : ThreadLocalPtr) (t : nat)
  : outcome (ThreadMetaGlobal * option Z) :=
  with_tlp_ptr p m t (tls_id c) (fun cell => Done (cell, cell)).

(** [init] is what the initialiser returns. *)

(* @src crates/engine/src/thread_local_storage/thread_local_ptr.rs:150-189 ThreadLocalPtr::get_or_init *)
Definition get_or_init (p : profile) (m : ThreadMetaGlobal) (c : ThreadLocalPtr) (t : nat) (init : Z)
  : outcome (ThreadMetaGlobal * Z) :=
  with_tlp_ptr p m t (tls_id c) (fun cell =>
    match cell with
    | Some ptr => Done (cell, ptr)
    | None =>
        _ ← debug_assert p (bool_decide (cell = None)) "cell.load(Ordering::Acquire).is_null()";
        Done (Some init, init)
    end).

(** [f] is run on the object the cell points to. *)

(* @src crates/engine/src/thread_local_storage/thread_local_ptr.rs:207-260 ThreadLocalPtr::get_or_init_mut *)
Definition get_or_init_mut {R} (p : profile) (m : ThreadMetaGlobal) (c : ThreadLocalPtr) (t : nat) (init : Z)
    (f : Z -> outcome R) : outcome (ThreadMetaGlobal * R) :=
  with_tlp_ptr p m t (tls_id c) (fun cell =>
    match cell with
    | Some ptr => r ← f ptr; Done (cell, r)
    | None =>
        _ ← debug_assert p (bool_decide (cell = None)) "ptr.is_null()";
        r ← f init; Done (Some init, r)
    end).

(** The loop's body, for the row [nx] points to: the row is emptied at [id] and
    the next one to visit returned. *)

(* @src crates/engine/src/thread_local_storage/thread_local_ptr.rs:300-318 ThreadLocalPtr::remove_column *)
Definition walk_row (m : ThreadMetaGlobal) (handler : option UnrefHandler) (id : Z) (nx : option nat)
  : outcome (ThreadMetaGlobal * option nat) :=
  '(r, d) ← row (tm_rows m) nx;
  let nx := next d in
  if decide (len (entries d) <= id) then Done (m, nx)
  else
    match entries d !! Z.to_nat id with
    | None => Panic "index out of bounds"
    | Some cell =>
        rows ← set_row_entries (tm_rows m) r (<[Z.to_nat id := None]> (entries d));
        let m := set_rows m rows in
        let m := match cell, handler with Some ptr, Some h => add_call m h ptr | _, _ => m end in
        Done (m, nx)
    end.

(** The walk over the registered rows, from [nx] on. *)

(* @src crates/engine/src/thread_local_storage/thread_local_ptr.rs:299-319 ThreadLocalPtr::remove_column *)
Fixpoint walk_column (fuel : nat) (m : ThreadMetaGlobal) (handler : option UnrefHandler) (id : Z) (nx : option nat)
  : outcome ThreadMetaGlobal :=
  match fuel with
  | O => NoFuel
  | S fuel =>
      if decide (nx = Some head) then Done m
      else '(m, nx) ← walk_row m handler id nx; walk_column fuel m handler id nx
  end.

(** Every row is visited once. *)

Definition column_fuel (m : ThreadMetaGlobal) : nat := S (size (tm_rows m)).

(** Before the walk the handler is taken out of the registry; after it the
    column's index is free. *)

(* @src crates/engine/src/thread_local_storage/thread_local_ptr.rs:293-297 ThreadLocalPtr::remove_column *)
Definition remove_begin (m : ThreadMetaGlobal) (id : Z) : outcome (ThreadMetaGlobal * option UnrefHandler * option nat) :=
  let handler := unref_handler_map m !! id in
  let m := mkMeta (tm_rows m) (delete id (unref_handler_map m)) (next_tls_id m) (tls_id_free_list m) (tm_calls m) in
  '(_, s) ← row (tm_rows m) (Some head);
  Done (m, handler, next s).

(* @src crates/engine/src/thread_local_storage/thread_local_ptr.rs:321-322 ThreadLocalPtr::remove_column *)
Definition remove_end (m : ThreadMetaGlobal) (id : Z) : ThreadMetaGlobal :=
  mkMeta (tm_rows m) (unref_handler_map m) (next_tls_id m) (tls_id_free_list m ++ [id]) (tm_calls m).

(* @src crates/engine/src/thread_local_storage/thread_local_ptr.rs:289-323 ThreadLocalPtr::remove_column *)
Definition remove_column (m : ThreadMetaGlobal) (c : ThreadLocalPtr) : outcome ThreadMetaGlobal :=
  '(m, handler, nx) ← remove_begin m (tls_id c);
  m ← walk_column (column_fuel m) m handler (tls_id c) nx;
  Done (remove_end m (tls_id c)).

(** Dropping a column removes it. *)

(* @src crates/engine/src/thread_local_storage/thread_local_ptr.rs:326-330 ThreadLocalPtr::drop *)
Definition tlp_drop (m : ThreadMetaGlobal) (c : ThreadLocalPtr) : outcome ThreadMetaGlobal := remove_column m c.

(** ** The list of rows *)

Definition nxt (rows : gmap nat ThreadData) (q : nat) : option (option nat) := next <$> rows !! q.
Definition prv (rows : gmap nat ThreadData) (q : nat) : option (option nat) := prev <$> rows !! q.
Definition body (rows : gmap nat ThreadData) (q : nat) : option (list (option Z) * bool) :=
  (fun d => (entries d, registered d)) <$> rows !! q.

(** [xs] are the rows strictly between [a] and [b], linked both ways. *)

Fixpoint linked (rows : gmap nat ThreadData) (a : nat) (xs : list nat) (b : nat) : Prop :=
  match xs with
  | [] => nxt rows a = Some (Some b) /\ prv rows b = Some (Some a)
  | x :: xs => nxt rows a = Some (Some x) /\ prv rows x = Some (Some a) /\ linked rows x xs b
  end.

Definition first_or (b : nat) (xs : list nat) : nat := default b (List.hd_error xs).

Lemma first_or_in b xs : first_or b xs ∈ xs ++ [b].
Proof. destruct xs; [by left|by left]. Qed.

Lemma linked_frame rows rows' b : forall xs a,
  linked rows a xs b -> (forall q, q ∈ a :: xs -> nxt rows' q = nxt rows q) ->
  (forall q, q ∈ xs ++ [b] -> prv rows' q = prv rows q) -> linked rows' a xs b.
Proof.
  induction xs as [|x xs IH]; intros a H Hn Hp; cbn in *.
  - rewrite Hn, Hp by left. done.
  - destruct H as (H1 & H2 & H3). rewrite Hn, Hp by left. do 2 (split; [done|]).
    apply IH; [done| |]; intros q Hq; [apply Hn|apply Hp]; by right.
Qed.

Lemma linked_first rows b : forall xs a, linked rows a xs b -> nxt rows a = Some (Some (first_or b xs)).
Proof. intros [|x xs] a; cbn; tauto. Qed.

Lemma linked_app rows x B b : forall A a, linked rows a (A ++ x :: B) b <-> linked rows a A x /\ linked rows x B b.
Proof. induction A as [|y A IH]; intros a; cbn; [tauto|]. rewrite IH. tauto. Qed.

Lemma linked_last rows b : forall A a, linked rows a A b -> prv rows b = Some (Some (last_or a A)).
Proof.
  induction A as [|x A IH]; intros a; cbn; [tauto|]. rewrite last_or_cons. intros (_ & _ & H). by apply IH.
Qed.

(** Unlinking a row, and linking one at the front of the ring. *)

Lemma linked_unlink rows rows' r B b : forall A a,
  linked rows a (A ++ r :: B) b -> NoDup (a :: A ++ r :: B) -> NoDup ((A ++ r :: B) ++ [b]) ->
  (forall q, q <> r -> nxt rows' q = if decide (q = last_or a A) then Some (Some (first_or b B)) else nxt rows q) ->
  (forall q, q <> r -> prv rows' q = if decide (q = first_or b B) then Some (Some (last_or a A)) else prv rows q) ->
  linked rows' a (A ++ B) b.
Proof.
  induction A as [|x A IH]; intros a Hl Hn Hn' Hx Hp.
  - cbn in *. destruct Hl as (_ & _ & Hl). apply NoDup_cons in Hn as [Ha Hn], Hn' as [Hr Hn'].
    assert (Har : a <> r) by (intros ->; apply Ha; left).
    unfold last_or in Hx, Hp. cbn [last default] in Hx, Hp. destruct B as [|x B]; cbn in *.
    + rewrite Hx, Hp, !decide_True by (done || (intros ->; apply Hr; by left)). done.
    + assert (Hxr : x <> r) by (intros ->; apply Hr; left). destruct Hl as (_ & _ & Hl).
      rewrite Hx, Hp, !decide_True by done. do 2 (split; [done|]). apply (linked_frame rows); [done| |].
      * intros q Hq. rewrite Hx, decide_False; [done| |]; intros ->; [apply Ha; by right|].
        apply Hr. change (r ∈ (x :: B) ++ [b]). apply elem_of_app. by left.
      * apply NoDup_cons in Hn' as [Hxn _]. intros q Hq. rewrite Hp, decide_False; [done| |]; intros ->; [done|].
        apply Hr. by right.
  - cbn [app linked] in *. destruct Hl as (H1 & H2 & Hl). apply NoDup_cons in Hn as [Ha Hn], Hn' as [Hxn Hn'].
    rewrite last_or_cons in Hx, Hp.
    assert (Hxr : x <> r) by (intros ->; apply NoDup_cons in Hn as [Hn _]; apply Hn, elem_of_app; right; by left).
    assert (Har : a <> r) by (intros ->; apply Ha; right; apply elem_of_app; right; by left).
    assert (Hal : a <> last_or x A).
    { intros E. apply Ha. rewrite E. destruct (proj1 (elem_of_cons _ _ _) (last_or_elem x A)) as [->|Hi]; [by left|].
      right. apply elem_of_app. by left. }
    assert (Hxf : x <> first_or b B).
    { intros E. apply Hxn. rewrite E, <- app_assoc. apply elem_of_app. right. right. apply first_or_in. }
    rewrite (Hx a Har), (Hp x Hxr), !decide_False by done. do 2 (split; [done|]). by apply IH.
Qed.

Lemma linked_push rows rows' h r xs :
  linked rows h xs h -> NoDup (h :: xs) -> r ∉ h :: xs ->
  (forall q, nxt rows' q = if decide (q = h) then Some (Some r) else if decide (q = r) then Some (Some (first_or h xs)) else nxt rows q) ->
  (forall q, prv rows' q = if decide (q = first_or h xs) then Some (Some r) else if decide (q = r) then Some (Some h) else prv rows q) ->
  linked rows' h (r :: xs) h.
Proof.
  intros Hl Hn Hr Hx Hp. apply NoDup_cons in Hn as [Hh Hn]. assert (Hrh : r <> h) by (intros ->; apply Hr; left).
  assert (Hrx : r ∉ xs) by (intros H; apply Hr; by right).
  assert (Hrf : r <> first_or h xs).
  { intros ->. pose proof (first_or_in h xs) as [Hi|Hi%list_elem_of_singleton]%elem_of_app; [done|congruence]. }
  cbn [linked]. rewrite (Hx h), (Hp r), decide_True, decide_False, decide_True by done. do 2 (split; [done|]).
  destruct xs as [|x xs]; cbn [linked first_or List.hd_error default] in *.
  - rewrite (Hx r), (Hp h), decide_False, decide_True, decide_True by done. done.
  - rewrite (Hx r), (Hp x), decide_False, decide_True, decide_True by done. do 2 (split; [done|]).
    destruct Hl as (_ & _ & Hl). apply NoDup_cons in Hn as [Hxn Hn]. apply (linked_frame rows); [done| |]; intros q Hq.
    + rewrite Hx, !decide_False; [done| |]; intros ->; [done|by apply Hh].
    + rewrite Hp, !decide_False; [done| |]; intros ->;
        apply elem_of_app in Hq as [Hq|Hq%list_elem_of_singleton]; try done; [apply Hrx; by right|subst; apply Hh; by left].
Qed.

(** Every row of a linked segment exists. *)

Lemma linked_row rows b q : forall xs a, linked rows a xs b -> q ∈ a :: xs -> is_Some (rows !! q).
Proof.
  assert (H : forall a y, nxt rows a = Some y -> is_Some (rows !! a)).
  { unfold nxt. intros a y H. destruct (rows !! a); [done|discriminate]. }
  induction xs as [|x xs IH]; intros a Hl Hq.
  - apply list_elem_of_singleton in Hq as ->. eapply H, Hl.
  - destruct Hl as (H1 & _ & Hl). apply elem_of_cons in Hq as [->|Hq]; [by eapply H|by eapply IH].
Qed.

Lemma body_Some rows q : is_Some (rows !! q) <-> is_Some (body rows q).
Proof. unfold body. by rewrite fmap_is_Some. Qed.

Lemma row_Some rows q d : rows !! q = Some d -> row rows (Some q) = Done (q, d).
Proof. unfold row. by intros ->. Qed.

(** What the assignments through pointers do. *)

Definition same_next (rows rows' : gmap nat ThreadData) : Prop := forall q, nxt rows' q = nxt rows q.
Definition same_prev (rows rows' : gmap nat ThreadData) : Prop := forall q, prv rows' q = prv rows q.
Definition same_body (rows rows' : gmap nat ThreadData) : Prop := forall q, body rows' q = body rows q.

Lemma set_next_spec rows r x : is_Some (body rows r) ->
  exists rows', set_next rows (Some r) x = Done rows' /\
    (forall q, nxt rows' q = if decide (q = r) then Some x else nxt rows q) /\ same_prev rows rows' /\ same_body rows rows'.
Proof.
  intros [d E]%body_Some. unfold set_next, row. rewrite E. cbn [mbind outcome_bind]. eexists. split; [done|].
  unfold same_prev, same_body, nxt, prv, body. split; [|split]; intros q; destruct (decide (q = r)) as [->|Hq];
    rewrite ?lookup_insert_eq, ?lookup_insert_ne, ?E by done; done.
Qed.

Lemma set_prev_spec rows r x : is_Some (body rows r) ->
  exists rows', set_prev rows (Some r) x = Done rows' /\
    (forall q, prv rows' q = if decide (q = r) then Some x else prv rows q) /\ same_next rows rows' /\ same_body rows rows'.
Proof.
  intros [d E]%body_Some. unfold set_prev, row. rewrite E. cbn [mbind outcome_bind]. eexists. split; [done|].
  unfold same_next, same_body, nxt, prv, body. split; [|split]; intros q; destruct (decide (q = r)) as [->|Hq];
    rewrite ?lookup_insert_eq, ?lookup_insert_ne, ?E by done; done.
Qed.

Lemma set_row_entries_spec rows r es es' b : body rows r = Some (es, b) ->
  exists rows', set_row_entries rows r es' = Done rows' /\
    (forall q, body rows' q = if decide (q = r) then Some (es', b) else body rows q) /\
    same_next rows rows' /\ same_prev rows rows'.
Proof.
  unfold set_row_entries, row, same_next, same_prev, nxt, prv, body. intros H. destruct (rows !! r) as [d|] eqn:E; [|discriminate].
  injection H as <- <-. cbn [mbind outcome_bind]. eexists. split; [done|].
  split; [|split]; intros q; destruct (decide (q = r)) as [->|Hq];
    rewrite ?lookup_insert_eq, ?lookup_insert_ne, ?E by done; done.
Qed.

Lemma set_registered_spec rows r es b : body rows r = Some (es, b) ->
  exists rows', set_registered rows r = Done rows' /\
    (forall q, body rows' q = if decide (q = r) then Some (es, true) else body rows q) /\
    same_next rows rows' /\ same_prev rows rows'.
Proof.
  unfold set_registered, row, same_next, same_prev, nxt, prv, body. intros H. destruct (rows !! r) as [d|] eqn:E; [|discriminate].
  injection H as <- <-. cbn [mbind outcome_bind]. eexists. split; [done|].
  split; [|split]; intros q; destruct (decide (q = r)) as [->|Hq];
    rewrite ?lookup_insert_eq, ?lookup_insert_ne, ?E by done; done.
Qed.

(** The registered rows are [xs], most recent first. *)

Definition ring (rows : gmap nat ThreadData) (xs : list nat) : Prop :=
  linked rows head xs head /\ NoDup (head :: xs).

Lemma ring_body rows xs q : ring rows xs -> q ∈ head :: xs -> is_Some (body rows q).
Proof. intros [Hl _] Hq. apply body_Some. by eapply linked_row. Qed.

Lemma ring_same rows rows' xs : ring rows xs -> same_next rows rows' -> same_prev rows rows' -> ring rows' xs.
Proof. intros [Hl Hn] H1 H2. split; [|done]. apply (linked_frame rows); [done| |]; intros q _; [apply H1|apply H2]. Qed.

Lemma first_or_ring xs : first_or head xs ∈ head :: xs.
Proof. destruct xs; [by left|right; by left]. Qed.

Lemma ensure_registered_spec rows r xs es :
  ring rows xs -> r ∉ head :: xs -> body rows r = Some (es, false) ->
  exists rows', ensure_registered rows r = Done rows' /\ ring rows' (r :: xs) /\
    (forall q, body rows' q = if decide (q = r) then Some (es, true) else body rows q).
Proof.
  intros Hring Hr Hb. pose proof (ring_body rows xs) as Hin. destruct Hring as [Hl Hn].
  assert (Hh : is_Some (body rows head)) by (apply Hin; [done|by left]).
  assert (Hfo : is_Some (body rows (first_or head xs))) by (apply Hin; [done|apply first_or_ring]).
  assert (Hrr : is_Some (body rows r)) by by rewrite Hb.
  pose proof (linked_first _ _ _ _ Hl) as Hf. unfold nxt in Hf.
  destruct (rows !! head) as [s|] eqn:Es; [|discriminate]. injection Hf as Hf.
  unfold ensure_registered. destruct (rows !! r) as [d|] eqn:Er; [|unfold body in Hb; by rewrite Er in Hb].
  assert (Hreg : registered d = false) by (unfold body in Hb; rewrite Er in Hb; by injection Hb).
  rewrite (row_Some _ _ _ Er). cbn [mbind outcome_bind]. rewrite Hreg, (row_Some _ _ _ Es).
  cbn [mbind outcome_bind]. rewrite Hf.
  destruct (set_prev_spec rows r (Some head)) as (r1 & -> & P1 & N1 & B1); [done|].
  cbn [mbind outcome_bind].
  destruct (set_next_spec r1 r (Some (first_or head xs))) as (r2 & -> & N2 & P2 & B2); [by rewrite B1|].
  cbn [mbind outcome_bind].
  destruct (set_prev_spec r2 (first_or head xs) (Some r)) as (r3 & -> & P3 & N3 & B3); [by rewrite B2, B1|].
  cbn [mbind outcome_bind].
  destruct (set_next_spec r3 head (Some r)) as (r4 & -> & N4 & P4 & B4); [by rewrite B3, B2, B1|].
  cbn [mbind outcome_bind].
  destruct (set_registered_spec r4 r es false) as (r5 & -> & B5 & N5 & P5); [by rewrite B4, B3, B2, B1|].
  exists r5. split; [done|]. split; [split|].
  - apply (linked_push rows); [done|done|done| |]; intros q.
    + by rewrite N5, N4, N3, N2, N1.
    + by rewrite P5, P4, P3, P2, P1.
  - apply NoDup_cons. split; [|apply NoDup_cons; split; [|by apply NoDup_cons in Hn as [_ Hn]]].
    + intros [E|Hi]%elem_of_cons; [apply Hr; rewrite <- E; by left|by apply NoDup_cons in Hn as [? _]].
    + intros Hi. apply Hr. by right.
  - intros q. rewrite B5. case_decide; [done|]. by rewrite B4, B3, B2, B1.
Qed.

Lemma nxt_row rows q d : rows !! q = Some d -> nxt rows q = Some (next d).
Proof. unfold nxt. by intros ->. Qed.

Lemma prv_row rows q d : rows !! q = Some d -> prv rows q = Some (prev d).
Proof. unfold prv. by intros ->. Qed.

Lemma body_row rows q d : rows !! q = Some d -> body rows q = Some (entries d, registered d).
Proof. unfold body. by intros ->. Qed.

Lemma row_of_body rows q es b : body rows q = Some (es, b) -> exists d, rows !! q = Some d /\ entries d = es /\ registered d = b.
Proof. unfold body. destruct (rows !! q) as [d|]; [|done]. intros [= <- <-]. by exists d. Qed.

Lemma last_or_ring A xs : last_or head A ∈ head :: A ++ xs.
Proof.
  destruct (proj1 (elem_of_cons _ _ _) (last_or_elem head A)) as [->|H]; [by left|].
  right. apply elem_of_app. by left.
Qed.

(** The neighbours of a row of the ring. *)

Lemma ring_neighbours rows A r B d :
  ring rows (A ++ r :: B) -> rows !! r = Some d ->
  prev d = Some (last_or head A) /\ next d = Some (first_or head B).
Proof.
  intros [Hl _] Hd. apply linked_app in Hl as [H1%linked_last H2%linked_first].
  rewrite (prv_row _ _ _ Hd) in H1. rewrite (nxt_row _ _ _ Hd) in H2. by injection H1 as ->; injection H2 as ->.
Qed.

Lemma ring_unlink rows rows' A r B :
  ring rows (A ++ r :: B) ->
  (forall q, q <> r -> nxt rows' q = if decide (q = last_or head A) then Some (Some (first_or head B)) else nxt rows q) ->
  (forall q, q <> r -> prv rows' q = if decide (q = first_or head B) then Some (Some (last_or head A)) else prv rows q) ->
  ring rows' (A ++ B).
Proof.
  intros [Hl Hn] Hx Hp. split.
  - eapply linked_unlink; [done|done| |done|done].
    by rewrite (Permutation_app_comm _ [head]).
  - eapply NoDup_Permutation_proper in Hn; [|by rewrite <- Permutation_middle].
    rewrite NoDup_cons in Hn. destruct Hn as [H1 H2]. apply NoDup_cons in H2 as [_ H2].
    apply NoDup_cons. split; [|done]. intros H. apply H1. by right.
Qed.

Lemma ring_delete rows r xs : ring rows xs -> r ∉ head :: xs -> ring (delete r rows) xs.
Proof.
  intros [Hl Hn] Hr. split; [|done]. apply (linked_frame rows); [done| |]; intros q Hq; unfold nxt, prv;
    rewrite lookup_delete_ne; try done; intros ->; apply Hr; [done|].
  apply elem_of_app in Hq as [Hq|Hq%list_elem_of_singleton]; [by right|subst; by left].
Qed.

Lemma drop_row_spec m A r B es b :
  ring (tm_rows m) (A ++ r :: B) -> body (tm_rows m) r = Some (es, b) ->
  exists rows', drop_row m r = Done (mkMeta rows' (unref_handler_map m) (next_tls_id m) (tls_id_free_list m)
                                   (tm_calls m ++ drop_entries (unref_handler_map m) 0 es)) /\
    ring rows' (A ++ B) /\ (forall q, q <> r -> body rows' q = body (tm_rows m) q).
Proof.
  intros Hring (d & Hd & <- & <-)%row_of_body. destruct (ring_neighbours _ _ _ _ _ Hring Hd) as [Ep En].
  assert (Hin : forall q, q ∈ head :: A ++ r :: B -> is_Some (body (tm_rows m) q)) by (intros q; by apply ring_body).
  unfold drop_row. rewrite (row_Some _ _ _ Hd). cbn [mbind outcome_bind]. rewrite Ep, En.
  destruct (set_next_spec (tm_rows m) (last_or head A) (Some (first_or head B))) as (r1 & -> & N1 & P1 & B1).
  { apply Hin, last_or_ring. }
  cbn [mbind outcome_bind].
  destruct (set_prev_spec r1 (first_or head B) (Some (last_or head A))) as (r2 & -> & P2 & N2 & B2).
  { rewrite B1. apply Hin. destruct (proj1 (elem_of_cons _ _ _) (first_or_ring B)) as [->|H]; [by left|].
    right. apply elem_of_app. right. by right. }
  cbn [mbind outcome_bind].
  assert (Hrb : is_Some (body (tm_rows m) r)) by (by rewrite (body_row _ _ _ Hd)).
  destruct (set_next_spec r2 r None) as (r3 & -> & N3 & P3 & B3); [by rewrite B2, B1|]. cbn [mbind outcome_bind].
  destruct (set_prev_spec r3 r None) as (r4 & -> & P4 & N4 & B4); [by rewrite B3, B2, B1|]. cbn [mbind outcome_bind].
  assert (Hb4 : body r4 r = Some (entries d, registered d)) by (by rewrite B4, B3, B2, B1, (body_row _ _ _ Hd)).
  destruct (row_of_body _ _ _ _ Hb4) as (d4 & Hd4 & Ed4 & _). rewrite (row_Some _ _ _ Hd4). cbn [mbind outcome_bind]. rewrite Ed4.
  destruct (set_row_entries_spec r4 r (entries d) (replicate (length (entries d)) None) (registered d)) as (r5 & -> & B5 & N5 & P5); [done|].
  cbn [mbind outcome_bind]. exists r5. split; [done|]. split.
  - apply (ring_unlink (tm_rows m) _ _ r); [done| |]; intros q Hq.
    + by rewrite N5, N4, N3, N2, N1, decide_False.
    + by rewrite P5, P4, decide_False, P3, P2, P1.
  - intros q Hq. by rewrite B5, decide_False, B4, B3, B2, B1.
Qed.

(** What a walk finds and leaves in a column. *)

Definition cell_at (rows : gmap nat ThreadData) (q : nat) (id : Z) : option Z :=
  '(es, _) ← body rows q; mjoin (es !! Z.to_nat id).

Definition column_calls (rows : gmap nat ThreadData) (handler : option UnrefHandler) (id : Z) (xs : list nat)
  : list (UnrefHandler * Z) :=
  omap (fun q => h ← handler; ptr ← cell_at rows q id; Some (h, ptr)) xs.

Definition clear_cell (id : Z) (b : list (option Z) * bool) : list (option Z) * bool :=
  (<[Z.to_nat id := None]> b.1, b.2).

Lemma same_trans (rows1 rows2 rows3 : gmap nat ThreadData) :
  same_next rows1 rows2 /\ same_prev rows1 rows2 -> same_next rows2 rows3 /\ same_prev rows2 rows3 ->
  same_next rows1 rows3 /\ same_prev rows1 rows3.
Proof. intros [H1 H2] [H3 H4]. split; intros q; [by rewrite H3|by rewrite H4]. Qed.

(** One row of the walk. *)

Lemma walk_row_spec m handler id r d :
  0 <= id -> tm_rows m !! r = Some d ->
  exists rows', walk_row m handler id (Some r) =
      Done (mkMeta rows' (unref_handler_map m) (next_tls_id m) (tls_id_free_list m)
              (tm_calls m ++ column_calls (tm_rows m) handler id [r]), next d) /\
    (same_next (tm_rows m) rows' /\ same_prev (tm_rows m) rows') /\
    (forall q, body rows' q = if decide (q = r) then clear_cell id <$> body (tm_rows m) q else body (tm_rows m) q).
Proof.
  intros Hid Hd. pose proof (body_row _ _ _ Hd) as Hb.
  assert (Hcalls : column_calls (tm_rows m) handler id [r] =
    match handler, mjoin (entries d !! Z.to_nat id) with Some h, Some ptr => [(h, ptr)] | _, _ => [] end).
  { unfold column_calls, cell_at. cbn [omap list_omap]. rewrite Hb. cbn.
    by destruct handler, (mjoin (entries d !! Z.to_nat id)). }
  rewrite Hcalls. unfold walk_row. rewrite (row_Some _ _ _ Hd).
  cbn [mbind outcome_bind]. case_decide as Hlen.
  - exists (tm_rows m). rewrite lookup_ge_None_2 by (unfold len in Hlen; lia). cbn [mjoin option_join].
    replace (match handler with Some _ => [] | None => [] end) with (@nil (UnrefHandler * Z)) by (by destruct handler).
    rewrite app_nil_r. split; [by destruct m|]. split; [done|]. intros q. case_decide as E; [|done].
    rewrite E, Hb. unfold clear_cell. cbn. rewrite list_insert_ge; [done|]. unfold len in Hlen. lia.
  - destruct (lookup_lt_is_Some_2 (entries d) (Z.to_nat id)) as [cell Hcell]; [unfold len in Hlen; lia|]. rewrite Hcell.
    destruct (set_row_entries_spec (tm_rows m) r (entries d) (<[Z.to_nat id := None]> (entries d)) (registered d)) as (rows' & -> & B & N & P); [done|].
    cbn [mbind outcome_bind]. exists rows'. split; [|split; [done|]].
    + destruct cell as [ptr|], handler as [h|]; cbn; unfold add_call, set_rows; cbn; by rewrite ?app_nil_r.
    + intros q. rewrite B. case_decide as E; [|done]. by rewrite E, Hb.
Qed.

Lemma column_calls_cons rows handler id x xs :
  column_calls rows handler id (x :: xs) = column_calls rows handler id [x] ++ column_calls rows handler id xs.
Proof. unfold column_calls. cbn [omap list_omap]. by case_match. Qed.

Lemma column_calls_frame rows rows' handler id xs :
  (forall q, q ∈ xs -> body rows' q = body rows q) -> column_calls rows' handler id xs = column_calls rows handler id xs.
Proof.
  induction xs as [|x xs IH]; [done|]. intros H. rewrite (column_calls_cons rows'), (column_calls_cons rows).
  rewrite IH by (intros q Hq; apply H; by right). f_equal. unfold column_calls, cell_at. cbn [omap list_omap].
  by rewrite (H x) by left.
Qed.

Lemma walk_column_spec handler id : 0 <= id -> forall xs fuel m a,
  linked (tm_rows m) a xs head -> NoDup xs -> head ∉ xs -> (length xs < fuel)%nat ->
  exists rows', walk_column fuel m handler id (Some (first_or head xs)) =
      Done (mkMeta rows' (unref_handler_map m) (next_tls_id m) (tls_id_free_list m)
              (tm_calls m ++ column_calls (tm_rows m) handler id xs)) /\
    (same_next (tm_rows m) rows' /\ same_prev (tm_rows m) rows') /\
    (forall q, body rows' q = if decide (q ∈ xs) then clear_cell id <$> body (tm_rows m) q else body (tm_rows m) q).
Proof.
  intros Hid. induction xs as [|x xs IH]; intros [|fuel] m a Hl Hn Hh Hf; cbn [length] in Hf; try lia.
  - exists (tm_rows m). cbn. unfold column_calls. cbn. rewrite app_nil_r. split; [by destruct m|]. split; [done|].
    intros q. by rewrite decide_False by apply not_elem_of_nil.
  - apply NoDup_cons in Hn as [Hx Hn]. apply not_elem_of_cons in Hh as [Hxh Hh]. pose proof Hl as (_ & _ & Hl').
    destruct (linked_row _ _ x _ _ Hl') as [d Hd]; [by left|].
    pose proof (linked_first _ _ _ _ Hl') as Hnx. rewrite (nxt_row _ _ _ Hd) in Hnx. injection Hnx as Hnx.
    destruct (walk_row_spec m handler id x d Hid Hd) as (rows1 & E1 & S1 & B1).
    change (first_or head (x :: xs)) with x. cbn [walk_column]. rewrite decide_False by (intros [=]; done).
    rewrite E1, Hnx. cbn [mbind outcome_bind].
    destruct (IH fuel (mkMeta rows1 (unref_handler_map m) (next_tls_id m) (tls_id_free_list m)
                         (tm_calls m ++ column_calls (tm_rows m) handler id [x])) x) as (rows2 & E2 & S2 & B2); cbn [tm_rows] in *.
    { apply (linked_frame (tm_rows m)); [done| |]; intros q _; apply S1. }
    { done. } { done. } { lia. }
    exists rows2. rewrite E2. cbn [tm_calls tm_rows unref_handler_map next_tls_id tls_id_free_list]. split; [|split; [by eapply same_trans|]].
    + rewrite (column_calls_cons (tm_rows m) handler id x xs), app_assoc. do 3 f_equal. apply column_calls_frame.
      intros q Hq. rewrite B1, decide_False; [done|]. by intros ->.
    + intros q. rewrite B2, B1. destruct (decide (q = x)) as [->|Hq].
      * by rewrite decide_False, decide_True by (done || by left).
      * destruct (decide (q ∈ xs)); [by rewrite decide_True by (by right)|].
        by rewrite decide_False by (intros [?|?]%elem_of_cons; done).
Qed.

(** ** The matrix that is implemented *)

(** [mx_threads] are the threads that have a row, the most recent first;
    [mx_ids] is the number of indices ever used; [mx_live] are the columns
    that exist, with their handlers; [mx_calls] are the handler calls made. *)

Record matrix := mkMatrix {
  mx_threads : list nat;
  mx_ids : Z;
  mx_live : gmap Z (option UnrefHandler);
  mx_cells : gmap (nat * Z) Z;
  mx_calls : list (UnrefHandler * Z)
}.

Inductive tls_op :=
  | OpNew (h : option UnrefHandler)
  | OpInit (t : nat) (id : Z) (v : Z)
  | OpGet (t : nat) (id : Z)
  | OpGetOrInit (t : nat) (id : Z) (v : Z)
  | OpGetOrInitMut (t : nat) (id : Z) (v : Z)
  | OpDrop (id : Z)
  | OpExit (t : nat).

Inductive tls_result :=
  | RColumn (id : Z)
  | RObject (o : option Z)
  | RDone
  | RSkip.

Definition mx_touch (x : matrix) (t : nat) : matrix :=
  if decide (t ∈ mx_threads x) then x
  else mkMatrix (t :: mx_threads x) (mx_ids x) (mx_live x) (mx_cells x) (mx_calls x).

Definition mx_set (x : matrix) (t : nat) (id : Z) (c : option Z) : matrix :=
  mkMatrix (mx_threads x) (mx_ids x) (mx_live x) (partial_alter (fun _ => c) (t, id) (mx_cells x)) (mx_calls x).

(** A column is used only while it exists, and [init] only on an empty cell. *)

Definition tls_legal (x : matrix) (op : tls_op) : Prop :=
  match op with
  | OpNew _ | OpExit _ => True
  | OpGet _ id | OpGetOrInit _ id _ | OpGetOrInitMut _ id _ | OpDrop id => is_Some (mx_live x !! id)
  | OpInit t id _ => is_Some (mx_live x !! id) /\ mx_cells x !! (t, id) = None
  end.

(** A new column gets an index that no other column has, a fresh one only
    when all those used so far are taken. *)

Definition mx_fresh (x : matrix) (id ids' : Z) : Prop :=
  mx_live x !! id = None /\
  ((0 <= id < mx_ids x /\ ids' = mx_ids x) \/
   (id = mx_ids x /\ ids' = mx_ids x + 1 /\ forall i, 0 <= i < mx_ids x -> is_Some (mx_live x !! i))).

Definition mx_drop (x : matrix) (id : Z) (h : option UnrefHandler) : matrix :=
  mkMatrix (mx_threads x) (mx_ids x) (delete id (mx_live x)) (filter (fun c => c.1.2 <> id) (mx_cells x))
    (mx_calls x ++ omap (fun t => h ← h; ptr ← mx_cells x !! (t, id); Some (h, ptr)) (mx_threads x)).

Definition mx_exit (x : matrix) (t : nat) : matrix :=
  mkMatrix (filter (fun u => u <> t) (mx_threads x)) (mx_ids x) (mx_live x) (filter (fun c => c.1.1 <> t) (mx_cells x))
    (mx_calls x ++ omap (fun id => h ← mjoin (mx_live x !! id); ptr ← mx_cells x !! (t, id); Some (h, ptr)) (seqZ 0 (mx_ids x))).

Inductive matrix_step (x : matrix) : tls_op -> tls_result -> matrix -> Prop :=
  | ms_new h id ids' : mx_fresh x id ids' ->
      matrix_step x (OpNew h) (RColumn id)
        (mkMatrix (mx_threads x) ids' (<[id := h]> (mx_live x)) (mx_cells x) (mx_calls x))
  | ms_init t id v : tls_legal x (OpInit t id v) ->
      matrix_step x (OpInit t id v) RDone (mx_set (mx_touch x t) t id (Some v))
  | ms_get t id : tls_legal x (OpGet t id) ->
      matrix_step x (OpGet t id) (RObject (mx_cells x !! (t, id))) (mx_touch x t)
  | ms_get_or_init t id v op : tls_legal x op -> op = OpGetOrInit t id v \/ op = OpGetOrInitMut t id v ->
      matrix_step x op (RObject (Some (default v (mx_cells x !! (t, id)))))
        (mx_set (mx_touch x t) t id (Some (default v (mx_cells x !! (t, id)))))
  | ms_drop id h : mx_live x !! id = Some h -> matrix_step x (OpDrop id) RDone (mx_drop x id h)
  | ms_exit t : matrix_step x (OpExit t) RDone (mx_exit x t)
  | ms_skip op : ~ tls_legal x op -> matrix_step x op RSkip x.

Inductive matrix_run (x : matrix) : list tls_op -> list tls_result -> matrix -> Prop :=
  | mr_nil : matrix_run x [] [] x
  | mr_cons op r x1 ops rs x2 :
      matrix_step x op r x1 -> matrix_run x1 ops rs x2 -> matrix_run x (op :: ops) (r :: rs) x2.

(** ** Its clients *)

Definition column_live (m : ThreadMetaGlobal) (id : Z) : bool :=
  bool_decide (0 <= id < next_tls_id m /\ id ∉ tls_id_free_list m).

Definition cell_empty (m : ThreadMetaGlobal) (t : nat) (id : Z) : bool :=
  bool_decide (cell_at (tm_rows m) (S t) id = None).

Definition tls_legalb (m : ThreadMetaGlobal) (op : tls_op) : bool :=
  match op with
  | OpNew _ | OpExit _ => true
  | OpGet _ id | OpGetOrInit _ id _ | OpGetOrInitMut _ id _ | OpDrop id => column_live m id
  | OpInit t id _ => column_live m id && cell_empty m t id
  end.

Definition tls_step (p : profile) (m : ThreadMetaGlobal) (op : tls_op) : outcome (ThreadMetaGlobal * tls_result) :=
  if negb (tls_legalb m op) then Done (m, RSkip)
  else match op with
  | OpNew h => let '(m, c) := new_with_handler m h in Done (m, RColumn (tls_id c))
  | OpInit t id v => m ← tlp_init p m (mkThreadLocalPtr id) t v; Done (m, RDone)
  | OpGet t id => '(m, o) ← tlp_get p m (mkThreadLocalPtr id) t; Done (m, RObject o)
  | OpGetOrInit t id v => '(m, o) ← get_or_init p m (mkThreadLocalPtr id) t v; Done (m, RObject (Some o))
  | OpGetOrInitMut t id v =>
      '(m, o) ← get_or_init_mut p m (mkThreadLocalPtr id) t v (fun o => Done o); Done (m, RObject (Some o))
  | OpDrop id => m ← tlp_drop m (mkThreadLocalPtr id); Done (m, RDone)
  | OpExit t => m ← tls_thread_exit m t; Done (m, RDone)
  end.

Fixpoint tls_run (p : profile) (m : ThreadMetaGlobal) (ops : list tls_op) : outcome (ThreadMetaGlobal * list tls_result) :=
  match ops with
  | [] => Done (m, [])
  | op :: ops =>
      '(m, r) ← tls_step p m op;
      '(m, rs) ← tls_run p m ops;
      Done (m, r :: rs)
  end.

(** How the rows represent a matrix. *)

Record tls_rep (x : matrix) (m : ThreadMetaGlobal) : Prop := {
  rep_ring : ring (tm_rows m) (S <$> mx_threads x);
  rep_rows : forall t es b, body (tm_rows m) (S t) = Some (es, b) -> t ∈ mx_threads x /\ b = true /\ len es <= mx_ids x;
  rep_cells : forall t id, 0 <= id -> mx_cells x !! (t, id) = cell_at (tm_rows m) (S t) id;
  rep_cell_live : forall t id v, mx_cells x !! (t, id) = Some v -> is_Some (mx_live x !! id);
  rep_ids : forall id, is_Some (mx_live x !! id) \/ id ∈ tls_id_free_list m <-> 0 <= id < mx_ids x;
  rep_free : forall id, id ∈ tls_id_free_list m -> mx_live x !! id = None;
  rep_free_nodup : NoDup (tls_id_free_list m);
  rep_next : next_tls_id m = mx_ids x /\ 0 <= mx_ids x;
  rep_handlers : forall id, unref_handler_map m !! id = mjoin (mx_live x !! id);
  rep_calls : tm_calls m = mx_calls x
}.

Lemma rep_live_range x m id : tls_rep x m -> is_Some (mx_live x !! id) -> 0 <= id < mx_ids x.
Proof. intros R H. apply (rep_ids _ _ R). by left. Qed.

Lemma rep_column_live x m id : tls_rep x m -> column_live m id = true <-> is_Some (mx_live x !! id).
Proof.
  intros R. unfold column_live. rewrite bool_decide_eq_true. destruct (rep_next _ _ R) as [-> _]. split.
  - intros [H1 H2]. by apply (rep_ids _ _ R) in H1 as [H1|H1].
  - intros H. split; [by eapply rep_live_range|]. intros Hf%(rep_free _ _ R). rewrite Hf in H. by destruct H.
Qed.

Lemma rep_legal x m op : tls_rep x m -> tls_legalb m op = true <-> tls_legal x op.
Proof.
  intros R. destruct op; cbn; try done; try by apply rep_column_live.
  rewrite andb_true_iff, (rep_column_live x) by done. unfold cell_empty. rewrite bool_decide_eq_true.
  split; intros [H1 H2]; (split; [done|]); destruct (rep_live_range _ _ _ R H1); [by rewrite (rep_cells _ _ R)|by rewrite <- (rep_cells _ _ R)].
Qed.

Lemma rep_row x m t : tls_rep x m -> t ∈ mx_threads x ->
  exists es, body (tm_rows m) (S t) = Some (es, true) /\ len es <= mx_ids x.
Proof.
  intros R Ht. destruct (ring_body _ _ (S t) (rep_ring _ _ R)) as [[es b] Hb]; [right; by apply list_elem_of_fmap_2|].
  destruct (rep_rows _ _ R _ _ _ Hb) as (_ & -> & ?). by exists es.
Qed.

Lemma body_set_ne rows q q' d : q <> q' -> body (<[q' := d]> rows) q = body rows q.
Proof. intros. unfold body. by rewrite lookup_insert_ne. Qed.

Lemma row_absent x m t : tls_rep x m -> t ∉ mx_threads x -> tm_rows m !! S t = None.
Proof.
  intros R Ht. destruct (tm_rows m !! S t) as [d|] eqn:E; [|done].
  by destruct (rep_rows _ _ R _ _ _ (body_row _ _ _ E)) as [? _].
Qed.

Lemma not_in_ring (xs : list nat) t : t ∉ xs -> S t ∉ head :: (S <$> xs).
Proof. intros Ht [E|(u & [= <-] & Hu)%list_elem_of_fmap_1]%elem_of_cons; [done|done]. Qed.

(** A thread gets its row, registered, the first time it needs it. *)

Lemma tls_touch x m t : tls_rep x m ->
  exists rows, ensure_registered (tm_rows (tls_thread_row m t)) (S t) = Done rows /\
    tls_rep (mx_touch x t) (set_rows (tls_thread_row m t) rows) /\
    forall q, is_Some (body (tm_rows m) q) -> body rows q = body (tm_rows m) q.
Proof.
  intros R. unfold tls_thread_row, mx_touch. case_decide as Ht.
  - destruct (rep_row _ _ _ R Ht) as (es & Hb & _). destruct (row_of_body _ _ _ _ Hb) as (d & Hd & _ & Hreg). rewrite Hd.
    exists (tm_rows m). split; [|split; [by destruct m|done]]. unfold ensure_registered. rewrite (row_Some _ _ _ Hd).
    cbn [mbind outcome_bind]. by rewrite Hreg.
  - pose proof (row_absent _ _ _ R Ht) as Hrow. rewrite Hrow. pose proof (not_in_ring _ _ Ht) as Hr.
    destruct (ensure_registered_spec (<[S t := ThreadData_new]> (tm_rows m)) (S t) (S <$> mx_threads x) []) as (rows & E & Hring & Hbody).
    { destruct (rep_ring _ _ R) as [Hl Hn]. split; [|done]. apply (linked_frame (tm_rows m)); [done| |]; intros q Hq;
        unfold nxt, prv; rewrite lookup_insert_ne; try done; intros <-; apply Hr; [done|].
      apply elem_of_app in Hq as [Hq|Hq%list_elem_of_singleton]; [by right|done]. }
    { done. } { unfold body. by rewrite lookup_insert_eq. }
    exists rows. split; [done|]. split; cycle 1.
    { intros q Hq. rewrite Hbody. case_decide as Eq; [|by apply body_set_ne]. rewrite Eq in Hq. unfold body in Hq. rewrite Hrow in Hq.
      by destruct Hq. }
    destruct R as [? Hrows Hcells ? ? ? ? ? ? ?].
    constructor; cbn [mx_threads mx_ids mx_live mx_cells mx_calls tm_rows unref_handler_map next_tls_id tls_id_free_list tm_calls set_rows]; try done.
    + intros u es b. rewrite Hbody. case_decide as Eu.
      * intros [= <- <-]. injection Eu as ->. split; [by left|]. split; [done|]. rewrite len_nil. tauto.
      * rewrite body_set_ne by done. intros (Hu & ? & ?)%Hrows. split; [by right|done].
    + intros u id Hid. rewrite Hcells by done. unfold cell_at. rewrite Hbody. case_decide as Eu.
      * rewrite Eu. unfold body. by rewrite Hrow.
      * by rewrite body_set_ne.
Qed.

Lemma in_touch x t : t ∈ mx_threads (mx_touch x t).
Proof. unfold mx_touch. case_decide; [done|by left]. Qed.

(** Changing a cell of a registered row, growing the row as needed. *)

Lemma tls_store x m t id es rows' c : tls_rep x m -> t ∈ mx_threads x -> is_Some (mx_live x !! id) ->
  body (tm_rows m) (S t) = Some (es, true) ->
  set_row_entries (tm_rows m) (S t) (<[Z.to_nat id := c]> (es ++ replicate (Z.to_nat (id + 1 - len es)) None)) = Done rows' ->
  tls_rep (mx_set x t id c) (set_rows m rows').
Proof.
  intros R Ht Hlive Hb E. pose proof (rep_live_range _ _ _ R Hlive) as Hid.
  edestruct (set_row_entries_spec (tm_rows m) (S t) es) as (rows & E' & B & N & P); [done|].
  rewrite E in E'. injection E' as <-. destruct R as [Hring Hrows Hcells Hclive ? ? ? ? ? ?].
  constructor; cbn [mx_set mx_threads mx_ids mx_live mx_cells mx_calls tm_rows unref_handler_map next_tls_id tls_id_free_list tm_calls set_rows]; try done.
  - by eapply ring_same.
  - intros u es' b. rewrite B. case_decide as Eu; [|apply Hrows]. intros [= <- <-]. injection Eu as ->.
    split; [done|]. split; [done|]. unfold len. rewrite length_insert. destruct (Hrows _ _ _ Hb) as (_ & _ & Hlen).
    autorewrite with lengths. unfold len in *. lia.
  - intros u i Hi. unfold cell_at. rewrite B. case_decide as Eu.
    + injection Eu as ->. cbn. destruct (decide (i = id)) as [->|Hne].
      * rewrite lookup_partial_alter_eq, list_lookup_insert_eq; [done|]. autorewrite with lengths. unfold len. lia.
      * rewrite lookup_partial_alter_ne by congruence. rewrite list_lookup_insert_ne by lia.
        rewrite Hcells by done. unfold cell_at. rewrite Hb. cbn.
        destruct (es !! Z.to_nat i) as [o|] eqn:Ei; [by rewrite lookup_app_l_Some with (x := o)|].
        rewrite lookup_app_r by by apply lookup_ge_None_1.
        destruct (replicate _ _ !! _) as [o|] eqn:Er; [|done]. by apply lookup_replicate in Er as [-> _].
    + rewrite lookup_partial_alter_ne by congruence. by rewrite Hcells.
  - intros u i v. destruct (decide ((u, i) = (t, id))) as [[= -> ->]|Hne]; [done|].
    rewrite lookup_partial_alter_ne by congruence. apply Hclive.
Qed.

Lemma with_tlp_ptr_spec {R} p x m t id (f : option Z -> outcome (option Z * R)) c r :
  tls_rep x m -> is_Some (mx_live x !! id) -> mx_ids x < 2 ^ usize_bits ->
  f (mx_cells x !! (t, id)) = Done (c, r) ->
  exists m', with_tlp_ptr p m t id f = Done (m', r) /\ tls_rep (mx_set (mx_touch x t) t id c) m'.
Proof.
  intros Hrep Hlive Hids Hf. destruct (tls_touch _ _ t Hrep) as (rows & E & Hrep' & _).
  pose proof (in_touch x t) as Hin. unfold with_tlp_ptr. rewrite E. cbn [mbind outcome_bind].
  assert (Hlive' : is_Some (mx_live (mx_touch x t) !! id)) by (unfold mx_touch; by case_decide).
  assert (Hcell : mx_cells (mx_touch x t) !! (t, id) = mx_cells x !! (t, id)) by (unfold mx_touch; by case_decide).
  pose proof (rep_live_range _ _ _ Hrep Hlive) as Hid.
  destruct (rep_row _ _ _ Hrep' Hin) as (es & Hb & _). rewrite (rep_cells _ _ Hrep') in Hcell by lia.
  unfold cell_at in Hcell. rewrite Hb in Hcell. cbn [tm_rows set_rows] in Hb. destruct (row_of_body _ _ _ _ Hb) as (d & Hd & <- & _).
  rewrite (row_Some _ _ _ Hd). cbn [mbind outcome_bind option_bind] in Hcell |- *.
  assert (Hgrow : (if decide (len (entries d) <= id)
        then n ← add_w p usize_bits id 1; Done (vec_resize (entries d) n None) else Done (entries d)) =
      Done (entries d ++ replicate (Z.to_nat (id + 1 - len (entries d))) None)).
  { case_decide as Hlen.
    - rewrite add_w_small by lia. cbn [mbind outcome_bind]. rewrite vec_resize_grow by lia. done.
    - rewrite Z2Nat.nonpos by lia. cbn [replicate]. by rewrite app_nil_r. }
  rewrite Hgrow. cbn [mbind outcome_bind].
  destruct ((entries d ++ _) !! Z.to_nat id) as [cell|] eqn:Ecell; cycle 1.
  { apply lookup_ge_None_1 in Ecell. autorewrite with lengths in Ecell. unfold len in Ecell. lia. }
  assert (Hc : cell = mx_cells x !! (t, id)).
  { rewrite <- Hcell. destruct (entries d !! Z.to_nat id) as [o|] eqn:Eo.
    - rewrite (lookup_app_l_Some _ _ _ o) in Ecell by done. by injection Ecell.
    - rewrite lookup_app_r in Ecell by by apply lookup_ge_None_1. by apply lookup_replicate in Ecell as [-> _]. }
  rewrite Hc, Hf. cbn [mbind outcome_bind].
  edestruct (set_row_entries_spec rows (S t) (entries d)) as (rows' & E' & _); [done|].
  rewrite E'. cbn [mbind outcome_bind]. eexists. split; [done|].
  by eapply (tls_store _ _ _ _ _ _ _ Hrep') in E'.
Qed.

(** ** Each operation implements its step *)

Lemma new_with_handler_rep x m h : tls_rep x m -> mx_ids x + 1 < 2 ^ usize_bits ->
  exists ids', mx_fresh x (tls_id (new_with_handler m h).2) ids' /\ ids' <= mx_ids x + 1 /\
    tls_rep (mkMatrix (mx_threads x) ids' (<[tls_id (new_with_handler m h).2 := h]> (mx_live x)) (mx_cells x) (mx_calls x))
      (new_with_handler m h).1.
Proof.
  intros [Hring Hrows Hcells Hclive Hids Hfree Hnodup [Hnext Hpos] Hh Hcalls] Hb. unfold new_with_handler.
  assert (Hhandlers : forall i id, (match h with Some h => <[id := h]> (unref_handler_map m) | None => delete id (unref_handler_map m) end) !! i
                     = mjoin (<[id := h]> (mx_live x) !! i)).
  { intros i id. destruct (decide (i = id)) as [->|Hne].
    - destruct h; by rewrite ?lookup_insert_eq, ?lookup_delete_eq.
    - destruct h; rewrite ?lookup_insert_ne, ?lookup_delete_ne by done; apply Hh. }
  assert (Hlive : forall i id v t, mx_cells x !! (t, i) = Some v -> is_Some (<[id := h]> (mx_live x) !! i)).
  { intros i id v t Hv%Hclive. destruct (decide (i = id)) as [->|Hne]; [by rewrite lookup_insert_eq|by rewrite lookup_insert_ne]. }
  destruct (vec_pop (tls_id_free_list m)) as [[rest id]|] eqn:Ep; cbn [fst snd tls_id].
  - apply vec_pop_Some in Ep. rewrite Ep in *. apply NoDup_app in Hnodup as (Hn & Hdis & _).
    assert (Hin : id ∈ rest ++ [id]) by (apply elem_of_app; right; by left).
    assert (Hnot : id ∉ rest) by (intros H; by apply Hdis in H; apply H; left).
    exists (mx_ids x). split; [split; [by apply Hfree|left; split; [apply Hids; by right|done]]|]. split; [lia|].
    constructor; cbn [mx_threads mx_ids mx_live mx_cells mx_calls tm_rows unref_handler_map next_tls_id tls_id_free_list tm_calls]; try done.
    + intros t i v. apply Hlive.
    + intros i. rewrite <- Hids. destruct (decide (i = id)) as [->|Hne].
      * rewrite lookup_insert_eq. split; intros _; [by right|left; done].
      * rewrite lookup_insert_ne, elem_of_app, list_elem_of_singleton by done. clear -Hne. tauto.
    + intros i Hi. rewrite lookup_insert_ne by (intros ->; done). apply Hfree, elem_of_app. by left.
  - apply vec_pop_None in Ep. rewrite Hnext, wrap_small by (unfold in_width; lia). rewrite Ep in *.
    assert (Hnone : mx_live x !! mx_ids x = None).
    { destruct (mx_live x !! mx_ids x) eqn:E; [|done]. destruct (proj1 (Hids (mx_ids x))); [left; by rewrite E|lia]. }
    exists (mx_ids x + 1). split; [split; [done|right; split; [done|split; [done|]]]|split; [lia|]].
    { intros i Hi%Hids. destruct Hi as [Hi|Hi]; [done|by apply not_elem_of_nil in Hi]. }
    constructor; cbn [mx_threads mx_ids mx_live mx_cells mx_calls tm_rows unref_handler_map next_tls_id tls_id_free_list tm_calls]; try done.
    + intros t es b (? & ? & ?)%Hrows. split; [done|]. split; [done|lia].
    + intros t i v. apply Hlive.
    + intros i. destruct (decide (i = mx_ids x)) as [->|Hne].
      * rewrite lookup_insert_eq. split; intros _; [lia|by left].
      * rewrite lookup_insert_ne, Hids by done. lia.
    + intros i Hi. by apply not_elem_of_nil in Hi.
    + split; [done|lia].
Qed.

Lemma ring_fuel rows xs : ring rows xs -> (length xs < S (size rows))%nat.
Proof.
  intros Hr. assert (H : (length xs <= size rows)%nat); [|lia].
  destruct Hr as [Hl Hn]. rewrite <- size_dom. apply NoDup_cons in Hn as [_ Hn].
  rewrite <- (size_list_to_set (C := gset nat) xs) by done. apply subseteq_size. intros q Hq%elem_of_list_to_set.
  apply elem_of_dom. eapply linked_row; [done|by right].
Qed.

Lemma omap_fmap_ext {A B C} (f : A -> B) (g : B -> option C) (g' : A -> option C) (l : list A) :
  (forall a, g (f a) = g' a) -> omap g (f <$> l) = omap g' l.
Proof. intros H. induction l as [|a l IH]; [done|]. cbn [fmap list_fmap omap list_omap]. rewrite H. case_match; [f_equal|]; exact IH. Qed.

Lemma lookup_filter_key (P : nat * Z -> Prop) `{!forall k, Decision (P k)} (cells : gmap (nat * Z) Z) k :
  filter (fun c => P c.1) cells !! k = if decide (P k) then cells !! k else None.
Proof.
  rewrite map_lookup_filter. destruct (cells !! k); cbn; [|by case_decide].
  case_decide; [by rewrite option_guard_True|by rewrite option_guard_False].
Qed.

Lemma lookup_mx_drop x id h t i :
  mx_cells (mx_drop x id h) !! (t, i) = if decide (i <> id) then mx_cells x !! (t, i) else None.
Proof. exact (lookup_filter_key (fun c => c.2 <> id) (mx_cells x) (t, i)). Qed.

Lemma lookup_mx_exit x t u i :
  mx_cells (mx_exit x t) !! (u, i) = if decide (u <> t) then mx_cells x !! (u, i) else None.
Proof. exact (lookup_filter_key (fun c => c.1 <> t) (mx_cells x) (u, i)). Qed.

Lemma clear_cell_at (b : option (list (option Z) * bool)) (id i : Z) : 0 <= id -> 0 <= i ->
  ('(es, _) ← clear_cell id <$> b; mjoin (es !! Z.to_nat i)) =
  if decide (i <> id) then ('(es, _) ← b; mjoin (es !! Z.to_nat i)) else None.
Proof.
  intros Hid Hi. destruct b as [[es b]|]; cbn; [|by case_decide]. case_decide as Hne.
  - by rewrite list_lookup_insert_ne by lia.
  - destruct (decide (i = id)) as [->|]; [|done]. destruct (decide (Z.to_nat id < length es)%nat).
    + by rewrite list_lookup_insert_eq.
    + by rewrite list_insert_ge, lookup_ge_None_2 by lia.
Qed.

(** The end of a removal, when the column is empty. *)

Definition without_handler (m : ThreadMetaGlobal) (c : Z) : ThreadMetaGlobal :=
  mkMeta (tm_rows m) (delete c (unref_handler_map m)) (next_tls_id m) (tls_id_free_list m) (tm_calls m).

Lemma remove_end_rep x m0 c h :
  tls_rep x m0 -> mx_live x !! c = Some h -> (forall u, u ∈ mx_threads x -> mx_cells x !! (u, c) = None) ->
  tls_rep (mkMatrix (mx_threads x) (mx_ids x) (delete c (mx_live x)) (mx_cells x) (mx_calls x)) (remove_end (without_handler m0 c) c).
Proof.
  intros R Hlive Hempty. pose proof (rep_live_range _ _ _ R (mk_is_Some _ _ Hlive)) as Hc.
  assert (Hrow : forall t i v, mx_cells x !! (t, i) = Some v -> t ∈ mx_threads x).
  { intros t i v Hv. pose proof (rep_cell_live _ _ R _ _ _ Hv) as Hi%(rep_live_range _ _ _ R). rewrite (rep_cells _ _ R) in Hv by lia.
    unfold cell_at in Hv. destruct (body (tm_rows m0) (S t)) as [[es b]|] eqn:Eb; [|done]. by apply (rep_rows _ _ R) in Eb as [? _]. }
  destruct R as [Hring Hrows Hcells Hclive Hids Hfree Hnodup [Hnext Hpos] Hh Hcalls].
  constructor; cbn [mx_threads mx_ids mx_live mx_cells mx_calls without_handler remove_end tm_rows unref_handler_map next_tls_id tls_id_free_list tm_calls]; try done.
  - intros t i v Hv. destruct (decide (i = c)) as [->|Hne]; [|rewrite lookup_delete_ne by done; by eapply Hclive].
    rewrite Hempty in Hv by (by eapply Hrow). done.
  - intros i. rewrite <- Hids. destruct (decide (i = c)) as [->|Hne].
    + rewrite lookup_delete_eq, elem_of_app, list_elem_of_singleton. split; intros _; [left; by rewrite Hlive|right; by right].
    + rewrite lookup_delete_ne, elem_of_app, list_elem_of_singleton by done. clear -Hne. tauto.
  - intros i [Hi|Hi%list_elem_of_singleton]%elem_of_app; [|subst; apply lookup_delete_eq].
    destruct (decide (i = c)) as [->|Hne]; [apply lookup_delete_eq|rewrite lookup_delete_ne by done; by apply Hfree].
  - apply NoDup_app. split; [done|]. split; [|apply NoDup_singleton].
    intros i Hi%Hfree Hi'%list_elem_of_singleton. subst. congruence.
  - intros i. destruct (decide (i = c)) as [->|Hne]; [by rewrite !lookup_delete_eq|by rewrite !lookup_delete_ne].
Qed.

Lemma remove_column_rep x m id h : tls_rep x m -> mx_live x !! id = Some h ->
  exists m', remove_column m (mkThreadLocalPtr id) = Done m' /\ tls_rep (mx_drop x id h) m'.
Proof.
  intros [Hring Hrows Hcells Hclive Hids Hfree Hnodup [Hnext Hpos] Hh Hcalls] Hlive.
  assert (Hid : 0 <= id < mx_ids x) by (apply Hids; left; by rewrite Hlive).
  unfold remove_column, remove_begin. cbn [tls_id tm_rows]. rewrite Hh, Hlive. cbn [mjoin option_join].
  destruct (linked_row _ _ head _ _ (proj1 Hring)) as [s Hs]; [by left|].
  pose proof (linked_first _ _ _ _ (proj1 Hring)) as Hn. rewrite (nxt_row _ _ _ Hs) in Hn. injection Hn as Hn.
  rewrite (row_Some _ _ _ Hs). cbn [mbind outcome_bind]. rewrite Hn. fold (without_handler m id).
  destruct (walk_column_spec h id ltac:(lia) (S <$> mx_threads x) (column_fuel (without_handler m id)) (without_handler m id) head)
    as (rows & -> & [N P] & B).
  { apply Hring. } { by destruct Hring as [_ [_ ?]%NoDup_cons]. } { by destruct Hring as [_ [? _]%NoDup_cons]. }
  { apply ring_fuel, Hring. }
  cbn [without_handler tm_rows] in N, P, B.
  set (m1 := mkMeta rows (unref_handler_map m) (next_tls_id m) (tls_id_free_list m) (mx_calls (mx_drop x id h))).
  assert (R1 : tls_rep (mkMatrix (mx_threads x) (mx_ids x) (mx_live x) (mx_cells (mx_drop x id h)) (mx_calls (mx_drop x id h))) m1).
  { subst m1. constructor; cbn [mx_threads mx_ids mx_live mx_cells mx_calls tm_rows unref_handler_map next_tls_id tls_id_free_list tm_calls]; try done.
    - by eapply ring_same.
    - intros t es b. rewrite B. case_decide; [|apply Hrows]. intros ([es' b'] & E & [= -> ->])%fmap_Some.
      apply Hrows in E as (? & ? & ?). cbn. unfold len in *. rewrite length_insert. done.
    - intros t i Hi. rewrite lookup_mx_drop, Hcells by done. unfold cell_at. rewrite B.
      destruct (decide (S t ∈ S <$> mx_threads x)) as [Ht|Ht]; [by rewrite clear_cell_at by lia|].
      assert (Hnone : body (tm_rows m) (S t) = None).
      { destruct (body (tm_rows m) (S t)) as [[es b]|] eqn:E; [|done]. apply Hrows in E as [E _].
        destruct Ht. by apply list_elem_of_fmap_2. }
      rewrite Hnone. by case_decide.
    - intros t i v [Hv _]%map_lookup_filter_Some. by eapply Hclive. }
  exists (remove_end (without_handler m1 id) id). split.
  - cbn [mbind outcome_bind]. subst m1. unfold without_handler, remove_end. cbn. do 2 f_equal. rewrite Hcalls. f_equal.
    apply omap_fmap_ext. intros t. by rewrite Hcells by lia.
  - apply (remove_end_rep _ _ _ h R1); [done|]. intros u _. cbn [mx_cells]. by rewrite lookup_mx_drop, decide_False by (intros H; by apply H).
Qed.

Lemma drop_entries_spec handlers n : forall es i, len es <= n ->
  drop_entries handlers i es =
  omap (fun id => h ← handlers !! id; ptr ← mjoin (es !! Z.to_nat (id - i)); Some (h, ptr)) (seqZ i n).
Proof.
  intros es. revert n. induction es as [|e es IH]; intros n i Hn.
  - cbn [drop_entries]. induction (seqZ i n) as [|id ids IH]; [done|]. cbn [omap list_omap]. rewrite lookup_nil. cbn.
    destruct (handlers !! id); cbn; by rewrite <- IH.
  - rewrite len_cons in Hn. pose proof (len_nonneg es). rewrite seqZ_cons by lia. cbn [drop_entries omap list_omap].
    rewrite Z.sub_diag. cbn [Z.to_nat lookup list_lookup mjoin option_join].
    assert (E : drop_entries handlers (i + 1) es =
      omap (fun id => h ← handlers !! id; ptr ← mjoin ((e :: es) !! Z.to_nat (id - i)); Some (h, ptr)) (seqZ (Z.succ i) (Z.pred n))).
    { rewrite (IH (Z.pred n)) by lia. apply list_omap_ext, Forall2_same_length_lookup_2; [done|].
      intros k a b Ha Hb. replace (i + 1) with (Z.succ i) in Ha by lia. rewrite Ha in Hb. injection Hb as ->.
      apply lookup_seqZ in Ha as [-> _]. replace (Z.to_nat (Z.succ i + Z.of_nat k - i)) with (S (Z.to_nat (Z.succ i + Z.of_nat k - (i + 1)))) by lia. done. }
    rewrite <- E. destruct e as [ptr|]; cbn; [|by destruct (handlers !! i)]. by destruct (handlers !! i).
Qed.

Lemma tls_exit_calls (m : ThreadMetaGlobal) x t : tls_rep x m -> forall es, body (tm_rows m) (S t) = Some (es, true) ->
  len es <= mx_ids x ->
  drop_entries (unref_handler_map m) 0 es =
  omap (fun id => h ← mjoin (mx_live x !! id); ptr ← mx_cells x !! (t, id); Some (h, ptr)) (seqZ 0 (mx_ids x)).
Proof.
  intros R es Hb Hlen. rewrite (drop_entries_spec _ (mx_ids x)) by done.
  apply list_omap_ext, Forall2_same_length_lookup_2; [done|]. intros k a b Ha Hb'. rewrite Ha in Hb'. injection Hb' as ->.
  apply lookup_seqZ in Ha as [-> _]. rewrite (rep_handlers _ _ R), (rep_cells _ _ R) by lia. unfold cell_at. rewrite Hb. cbn.
  by rewrite Z.sub_0_r.
Qed.

Lemma mx_exit_absent x m t : tls_rep x m -> t ∉ mx_threads x -> mx_exit x t = x.
Proof.
  intros R Ht. pose proof (row_absent _ _ _ R Ht) as Hrow.
  assert (Hc : forall id, mx_cells x !! (t, id) = None).
  { intros id. destruct (mx_cells x !! (t, id)) as [v|] eqn:E; [|done].
    pose proof (rep_cell_live _ _ R _ _ _ E) as H%(rep_live_range _ _ _ R). rewrite (rep_cells _ _ R) in E by lia.
    unfold cell_at, body in E. by rewrite Hrow in E. }
  unfold mx_exit. destruct x as [ts n l c cs]; cbn in *. f_equal.
  - apply list_filter_all, Forall_forall. intros u Hu ->. done.
  - apply map_filter_id. intros [u id] v Hv E. cbn in E. subst. by rewrite Hc in Hv.
  - rewrite <- (app_nil_r cs) at 2. f_equal. induction (seqZ 0 n) as [|id ids IH]; [done|].
    cbn [omap list_omap]. rewrite Hc. cbn. by destruct (mjoin (l !! id)).
Qed.

Lemma body_delete rows r q : body (delete r rows) q = if decide (q = r) then None else body rows q.
Proof. unfold body. case_decide as E; [by rewrite E, lookup_delete_eq|by rewrite lookup_delete_ne]. Qed.

Lemma tls_thread_exit_rep x m t : tls_rep x m ->
  exists m', tls_thread_exit m t = Done m' /\ tls_rep (mx_exit x t) m' /\
    forall q, q <> S t -> body (tm_rows m') q = body (tm_rows m) q.
Proof.
  intros R. unfold tls_thread_exit. destruct (decide (t ∈ mx_threads x)) as [Ht|Ht]; cycle 1.
  { rewrite (row_absent _ _ _ R Ht). exists m. split; [done|]. by rewrite (mx_exit_absent _ _ _ R Ht). }
  destruct (rep_row _ _ _ R Ht) as (es & Hb & Hlen). destruct (row_of_body _ _ _ _ Hb) as (d & Hd & _). rewrite Hd.
  pose proof (tls_exit_calls _ _ _ R _ Hb Hlen) as Hcs.
  destruct R as [Hring Hrows Hcells Hclive Hids Hfree Hnodup [Hnext Hpos] Hh Hcalls].
  apply list_elem_of_split in Ht as (A & B & Ets). rewrite Ets, fmap_app, fmap_cons in Hring.
  destruct (drop_row_spec m _ _ _ _ _ Hring Hb) as (rows & -> & Hring' & B'). cbn [mbind outcome_bind tm_rows]. eexists. split; [done|].
  split; [|intros q Hq; cbn; by rewrite body_delete, decide_False, B'].
  assert (Hnd : NoDup (mx_threads x)).
  { rewrite Ets. destruct Hring as [_ [_ Hn]%NoDup_cons]. rewrite <- fmap_cons, <- fmap_app in Hn. by apply NoDup_fmap_1 in Hn. }
  assert (Efilter : filter (fun u => u <> t) (mx_threads x) = A ++ B).
  { rewrite Ets in Hnd |- *. apply NoDup_app in Hnd as (_ & HA & [HB _]%NoDup_cons).
    rewrite filter_app, filter_cons_False by (intros H; by apply H). f_equal; apply list_filter_all, Forall_forall; intros u Hu ->; [|done].
    apply (HA t Hu). by left. }
  constructor; cbn [mx_exit mx_threads mx_ids mx_live mx_calls tm_rows unref_handler_map next_tls_id tls_id_free_list tm_calls set_rows]; try done.
  - rewrite Efilter, fmap_app. apply ring_delete; [done|]. rewrite <- fmap_app. apply not_in_ring.
    rewrite <- Efilter. intros [H _]%list_elem_of_filter. by apply H.
  - intros u es' b. rewrite body_delete. case_decide as E; [done|]. rewrite B' by done. intros (Hu & ? & ?)%Hrows.
    split; [|done]. apply list_elem_of_filter. split; [congruence|done].
  - intros u id Hid. rewrite lookup_mx_exit, Hcells by done.
    unfold cell_at. rewrite body_delete. destruct (decide (u = t)) as [->|Hne].
    + by rewrite decide_False, decide_True by (done || by intros H; apply H).
    + rewrite decide_True, decide_False by congruence. by rewrite B' by congruence.
  - intros u id v [Hv _]%map_lookup_filter_Some. by eapply Hclive.
  - rewrite Hcalls. by f_equal.
Qed.

Lemma mx_set_same x t id : mx_set x t id (mx_cells x !! (t, id)) = x.
Proof. unfold mx_set. rewrite partial_alter_self. by destruct x. Qed.

Lemma mx_touch_same x t id : mx_cells (mx_touch x t) !! (t, id) = mx_cells x !! (t, id) /\ mx_ids (mx_touch x t) = mx_ids x.
Proof. unfold mx_touch. by case_decide. Qed.

Lemma access_step {R} p x m t id (f : option Z -> outcome (option Z * R)) c r :
  tls_rep x m -> is_Some (mx_live x !! id) -> mx_ids x < 2 ^ usize_bits ->
  f (mx_cells x !! (t, id)) = Done (c, r) ->
  exists m', with_tlp_ptr p m t id f = Done (m', r) /\ tls_rep (mx_set (mx_touch x t) t id c) m' /\
    mx_ids (mx_set (mx_touch x t) t id c) = mx_ids x.
Proof.
  intros Hrep Hlive Hids Hf. destruct (with_tlp_ptr_spec p x m t id f c r) as (m' & E & H); [done..|].
  exists m'. split; [done|]. split; [done|]. cbn. apply (mx_touch_same x t id).
Qed.

#[local] Ltac access x c r :=
  cbn [tls_id]; match goal with |- context [with_tlp_ptr ?p ?m ?t ?id ?f] =>
    let m' := fresh "m'" in let E := fresh "E" in let H := fresh "H" in let Ei := fresh "Ei" in
    destruct (access_step p x m t id f c r) as (m' & E & H & Ei); [done|done|lia|cbn beta|rewrite E]
  end.

Lemma tls_step_rep p x m op : tls_rep x m -> mx_ids x + 1 < 2 ^ usize_bits ->
  exists m' r x', tls_step p m op = Done (m', r) /\ matrix_step x op r x' /\ tls_rep x' m' /\ mx_ids x' <= mx_ids x + 1.
Proof.
  intros Hrep Hids. unfold tls_step. destruct (tls_legalb m op) eqn:El; cbn [negb]; cycle 1.
  { exists m, RSkip, x. split; [done|]. split; [|split; [done|lia]]. apply ms_skip. rewrite <- (rep_legal _ _ _ Hrep), El. done. }
  apply (rep_legal _ _ _ Hrep) in El. destruct op as [h|t id v|t id|t id v|t id v|id|t].
  - destruct (new_with_handler_rep _ _ h Hrep Hids) as (ids' & Hf & Hle & H).
    destruct (new_with_handler m h) as [m' c]. do 3 eexists. split; [done|]. split; [by apply ms_new|done].
  - destruct El as [Hl Hc]. unfold tlp_init. access x (Some v) tt; [by rewrite Hc, debug_assert_true by done|].
    cbn [mbind outcome_bind]. do 3 eexists. split; [done|]. split; [by apply ms_init|]. split; [done|lia].
  - unfold tlp_get. access x (mx_cells x !! (t, id)) (mx_cells x !! (t, id)); [done|]. cbn [mbind outcome_bind].
    do 3 eexists. split; [done|]. split; [by apply ms_get|].
    rewrite <- (proj1 (mx_touch_same x t id)), mx_set_same in H. split; [done|]. rewrite (proj2 (mx_touch_same x t id)). lia.
  - unfold get_or_init. access x (Some (default v (mx_cells x !! (t, id)))) (default v (mx_cells x !! (t, id))).
    { destruct (mx_cells x !! (t, id)); [done|]. by rewrite debug_assert_true by done. }
    cbn [mbind outcome_bind]. do 3 eexists. split; [done|].
    split; [by eapply ms_get_or_init; [|by left]|]. split; [done|lia].
  - unfold get_or_init_mut. access x (Some (default v (mx_cells x !! (t, id)))) (default v (mx_cells x !! (t, id))).
    { destruct (mx_cells x !! (t, id)); [done|]. by rewrite debug_assert_true by done. }
    cbn [mbind outcome_bind]. do 3 eexists. split; [done|].
    split; [by eapply ms_get_or_init; [|by right]|]. split; [done|lia].
  - destruct El as [h Hl]. destruct (remove_column_rep _ _ _ _ Hrep Hl) as (m' & E & H). unfold tlp_drop. rewrite E.
    do 3 eexists. split; [done|]. split; [by apply ms_drop|]. split; [done|cbn; lia].
  - destruct (tls_thread_exit_rep _ _ t Hrep) as (m' & E & H & _). rewrite E.
    do 3 eexists. split; [done|]. split; [apply ms_exit|]. split; [done|cbn; lia].
Qed.

Definition matrix_empty : matrix := mkMatrix [] 0 ∅ ∅ [].

Lemma tls_rep_empty : tls_rep matrix_empty ThreadMetaGlobal_new.
Proof.
  assert (Hb : forall t, body (tm_rows ThreadMetaGlobal_new) (S t) = None).
  { intros t. unfold body. cbn [tm_rows ThreadMetaGlobal_new]. by rewrite lookup_singleton_ne. }
  constructor; cbn [matrix_empty mx_threads mx_ids mx_live mx_cells mx_calls ThreadMetaGlobal_new unref_handler_map next_tls_id tls_id_free_list tm_calls]; try done.
  - split; [done|]. apply NoDup_singleton.
  - intros t es b. by rewrite Hb.
  - intros t id _. unfold cell_at. by rewrite Hb, lookup_empty.
  - intros id. rewrite lookup_empty. split; [intros [[? ?]|H]; [done|by apply not_elem_of_nil in H]|lia].
  - apply NoDup_nil_2.
Qed.

Lemma tls_run_rep p ops : forall x m, tls_rep x m -> mx_ids x + len ops < 2 ^ usize_bits ->
  exists m' rs x', tls_run p m ops = Done (m', rs) /\ matrix_run x ops rs x' /\ tls_rep x' m'.
Proof.
  induction ops as [|op ops IH]; intros x m Hrep Hids.
  - exists m, [], x. split; [done|]. split; [constructor|done].
  - rewrite len_cons in Hids. pose proof (len_nonneg ops).
    destruct (tls_step_rep p x m op Hrep) as (m1 & r & x1 & E1 & Hs & Hrep1 & Hle); [lia|].
    destruct (IH x1 m1 Hrep1) as (m2 & rs & x2 & E2 & Hr & Hrep2); [lia|].
    exists m2, (r :: rs), x2. cbn [tls_run]. rewrite E1. cbn [mbind outcome_bind]. rewrite E2. split; [done|].
    split; [by econstructor|done].
Qed.

(** C12: whatever columns are created, used and dropped, by whatever threads,
    and whenever threads exit, the rows and their list behave as a matrix of
    cells: no operation panics, dereferences a bad pointer or fails to return,
    a thread reads the object it stored in that column and no other, a new
    column gets an index that no living column has and finds its cells empty,
    and dropping a column or a row hands exactly the objects in it to the
    handlers, each to the handler of its column. *)
Theorem tls_refines_matrix p ops :
  len ops < 2 ^ usize_bits ->
  exists m rs x, tls_run p ThreadMetaGlobal_new ops = Done (m, rs) /\
    matrix_run matrix_empty ops rs x /\ tls_rep x m.
Proof. intros H. apply tls_run_rep; [apply tls_rep_empty|cbn; lia]. Qed.

Lemma tls_refines_matrix_witness :
  len [OpNew (Some 7); OpGetOrInit 1 0 10; OpInit 2 0 20; OpExit 1; OpNew None; OpDrop 0; OpNew None; OpGet 2 0] < 2 ^ usize_bits /\
  exists m rs x, tls_run Debug ThreadMetaGlobal_new
      [OpNew (Some 7); OpGetOrInit 1 0 10; OpInit 2 0 20; OpExit 1; OpNew None; OpDrop 0; OpNew None; OpGet 2 0] = Done (m, rs) /\
    matrix_run matrix_empty
      [OpNew (Some 7); OpGetOrInit 1 0 10; OpInit 2 0 20; OpExit 1; OpNew None; OpDrop 0; OpNew None; OpGet 2 0] rs x /\ tls_rep x m.
Proof. split; [reflexivity|]. apply (tls_refines_matrix Debug). reflexivity. Defined.

Example tls_run_example :
  (fun r => (r.2, tm_calls r.1)) <$> tls_run Debug ThreadMetaGlobal_new
      [OpNew (Some 7); OpGetOrInit 1 0 10; OpInit 2 0 20; OpExit 1; OpNew None; OpDrop 0; OpNew None; OpGet 2 0] =
  Done ([RColumn 0; RObject (Some 10); RDone; RDone; RColumn 1; RDone; RColumn 0; RObject None], [(7, 10); (7, 20)]).
Proof. vm_compute. reflexivity. Qed.

(** ** Objects are reclaimed once *)

Definition offered (op : tls_op) : list Z :=
  match op with
  | OpInit _ _ v | OpGetOrInit _ _ v | OpGetOrInitMut _ _ v => [v]
  | _ => []
  end.

(** Where an object is. *)

Definition in_cell (x : matrix) (v : Z) : Prop := exists k, mx_cells x !! k = Some v.
Definition reclaimed (x : matrix) (v : Z) : Prop := v ∈ (mx_calls x).*2.

(** [U] are the objects offered so far. *)

Record once (U : list Z) (x : matrix) : Prop := {
  once_threads : NoDup (mx_threads x);
  once_offered : forall v, in_cell x v \/ reclaimed x v -> v ∈ U;
  once_inj : forall k k' v, mx_cells x !! k = Some v -> mx_cells x !! k' = Some v -> k = k';
  once_calls : NoDup (mx_calls x).*2;
  once_disjoint : forall v, in_cell x v -> ~ reclaimed x v
}.

Lemma NoDup_omap_snd {A} (F : A -> option (UnrefHandler * Z)) l : NoDup l ->
  (forall a b y y', F a = Some y -> F b = Some y' -> y.2 = y'.2 -> a = b) -> NoDup (omap F l).*2.
Proof.
  intros Hn HF. induction Hn as [|a l Ha _ IH]; [by apply NoDup_nil_2|]. cbn [omap list_omap].
  destruct (F a) as [y|] eqn:Ey; [|done]. cbn. apply NoDup_cons. split; [|done].
  intros (y' & E & (b & Hb & Eb)%list_elem_of_omap)%list_elem_of_fmap_1. by rewrite (HF _ _ _ _ Ey Eb E) in Ha.
Qed.

(** A set of cells is emptied into the handlers. *)

Definition emptied {A} (key : A -> nat * Z) (h : A -> option UnrefHandler) (cells : gmap (nat * Z) Z) (l : list A) :=
  omap (fun a => h ← h a; ptr ← cells !! key a; Some (h, ptr)) l.

Lemma emptied_elem {A} (key : A -> nat * Z) h cells l v : v ∈ (emptied key h cells l).*2 ->
  exists a, a ∈ l /\ cells !! key a = Some v.
Proof.
  intros (y & -> & (a & Ha & E)%list_elem_of_omap)%list_elem_of_fmap_1. exists a. split; [done|].
  destruct (h a); [|done]. cbn in E. destruct (cells !! key a) eqn:Ec; [|done]. by injection E as <-.
Qed.

Lemma once_emptied {A} U x x' (key : A -> nat * Z) h l (P : nat * Z -> Prop) {HdecP : forall k, Decision (P k)} :
  once U x -> NoDup l -> (forall a b, key a = key b -> a = b) -> (forall a, a ∈ l -> ~ P (key a)) -> NoDup (mx_threads x') ->
  mx_calls x' = mx_calls x ++ emptied key h (mx_cells x) l ->
  (forall k, mx_cells x' !! k = if decide (P k) then mx_cells x !! k else None) ->
  once U x'.
Proof.
  intros [Ht Ho Hi Hc Hd] Hl Hkey HP Ht' Ecalls Ecells.
  assert (Hin : forall k v, mx_cells x' !! k = Some v -> P k /\ mx_cells x !! k = Some v).
  { intros k v. rewrite Ecells. by case_decide. }
  assert (Hrec : forall v, reclaimed x' v -> reclaimed x v \/ exists a, a ∈ l /\ mx_cells x !! key a = Some v).
  { intros v. unfold reclaimed. rewrite Ecalls, fmap_app, elem_of_app. intros [Hv|Hv%emptied_elem]; [by left|by right]. }
  constructor; [done| | | |].
  - intros v [[k [_ Hk]%Hin]|[H|(a & _ & Ha)]%Hrec]; apply Ho; [by left; exists k|by right|by left; exists (key a)].
  - intros k k' v [_ H]%Hin [_ H']%Hin. by eapply Hi.
  - rewrite Ecalls, fmap_app. apply NoDup_app. split; [done|]. split.
    + intros v Hv (a & _ & Ha)%emptied_elem. by apply (Hd v); [exists (key a)|].
    + apply NoDup_omap_snd; [done|]. intros a b y y' E E' Ey. apply Hkey.
      destruct (h a), (h b); try done. cbn in E, E'. destruct (mx_cells x !! key a) eqn:Ea; [|done].
      destruct (mx_cells x !! key b) eqn:Eb; [|done]. injection E as <-. injection E' as <-. cbn in Ey. subst. by eapply Hi.
  - intros v [k [Hk Hv]%Hin] [H|(a & Ha & Hav)]%Hrec; [by apply (Hd v); [exists k|]|].
    rewrite (Hi _ _ _ Hv Hav) in Hk. by apply (HP a).
Qed.

Lemma once_touch U x t : once U x -> once U (mx_touch x t).
Proof.
  intros [Ht Ho Hi Hc Hd]. unfold mx_touch. case_decide; [done|]. constructor; cbn; try done. by apply NoDup_cons.
Qed.

Lemma once_weaken U U' x : once U x -> U ⊆ U' -> once U' x.
Proof. intros [Ht Ho Hi Hc Hd] H. constructor; try done. intros v Hv. by apply H, Ho. Qed.

Lemma once_set U x t id v : once U x -> mx_cells x !! (t, id) = None -> v ∉ U -> once (v :: U) (mx_set x t id (Some v)).
Proof.
  intros [Ht Ho Hi Hc Hd] Hnone Hv.
  assert (Hlk : forall k u, mx_cells (mx_set x t id (Some v)) !! k = Some u -> (k = (t, id) /\ u = v) \/ mx_cells x !! k = Some u).
  { intros k u. cbn. destruct (decide ((t, id) = k)) as [<-|Hne].
    - rewrite lookup_partial_alter_eq. intros [= <-]. by left.
    - rewrite lookup_partial_alter_ne by done. by right. }
  assert (Hold : forall k, mx_cells x !! k <> Some v) by (intros k Hk; apply Hv, Ho; left; by exists k).
  constructor; [done| | |done|].
  - intros u [[k [[_ ->]|Hk]%Hlk]|H]; [by left|right; apply Ho; left; by exists k|right; apply Ho; by right].
  - intros k k' u [[-> ->]|H]%Hlk [[-> E]|H']%Hlk; [done|by apply Hold in H'|subst; by apply Hold in H|by eapply Hi].
  - intros u [k [[_ ->]|Hk]%Hlk] Hr; [by apply Hv, Ho; right|]. apply (Hd u); [by exists k|done].
Qed.

Lemma matrix_step_once U x op r x' :
  matrix_step x op r x' -> once U x -> NoDup (offered op ++ U) -> once (offered op ++ U) x'.
Proof.
  intros Hs HU Hn. destruct Hs as [h id ids' _|t id v [_ Hc]|t id _|t id v op _ Hop|id h Hl|t|op _].
  - destruct HU. by constructor.
  - apply NoDup_cons in Hn as [Hv _]. apply once_set; [by apply once_touch| |done].
    by rewrite (proj1 (mx_touch_same x t id)).
  - by apply once_touch.
  - assert (Eo : offered op = [v]) by (by destruct Hop as [->| ->]). rewrite Eo in *. apply NoDup_cons in Hn as [Hv _].
    apply (once_touch _ _ t) in HU. rewrite <- (proj1 (mx_touch_same x t id)).
    destruct (mx_cells (mx_touch x t) !! (t, id)) as [w|] eqn:Ec; cbn [default from_option].
    + change (Datatypes.id w) with w. rewrite <- Ec, mx_set_same. eapply once_weaken; [done|]. intros u Hu. by right.
    + by apply once_set.
  - apply (once_emptied U x _ (fun t => (t, id)) (fun _ => h) (mx_threads x) (fun k => k.2 <> id)); try done; try by apply HU.
    + intros a b. by intros [= ->].
    + intros a _ H. by apply H.
    + intros [u i]. apply lookup_mx_drop.
  - apply (once_emptied U x _ (fun id => (t, id)) (fun id => mjoin (mx_live x !! id)) (seqZ 0 (mx_ids x)) (fun k => k.1 <> t)); try done.
    + apply NoDup_seqZ.
    + intros a b. by intros [= ->].
    + intros a _ H. by apply H.
    + cbn. apply NoDup_filter, HU.
    + intros [u i]. apply lookup_mx_exit.
  - eapply once_weaken; [done|]. intros u Hu. apply elem_of_app. by right.
Qed.

Lemma matrix_run_once x ops rs x' : matrix_run x ops rs x' -> forall U, once U x ->
  NoDup ((ops ≫= offered) ++ U) -> exists U', once U' x'.
Proof.
  induction 1 as [x|x op r x1 ops rs x2 Hs _ IH]; intros U HU Hn; [by exists U|].
  cbn [mbind list_bind] in Hn. rewrite <- app_assoc in Hn.
  assert (Hn' : NoDup ((ops ≫= offered) ++ offered op ++ U)) by (by rewrite (Permutation_app_swap_app _ (offered op))).
  apply (IH (offered op ++ U)); [|done]. eapply matrix_step_once; [done|done|]. by apply NoDup_app in Hn' as (_ & _ & ?).
Qed.

(** An object a client got is in its cell until it is reclaimed, provided
    every column has a handler. *)

Definition has_handler (op : tls_op) : bool := match op with OpNew None => false | _ => true end.

Definition kept (x : matrix) (v : Z) : Prop := in_cell x v \/ reclaimed x v.

Lemma kept_set x t id c v :
  kept x v -> (mx_cells x !! (t, id) = Some v -> c = Some v) -> kept (mx_set x t id c) v.
Proof.
  intros [[k Hk]|H] Hc; [left|by right]. exists k. cbn. destruct (decide ((t, id) = k)) as [<-|Hne].
  - rewrite lookup_partial_alter_eq. by apply Hc.
  - by rewrite lookup_partial_alter_ne.
Qed.

Lemma kept_touch x t v : kept x v -> kept (mx_touch x t) v.
Proof. unfold mx_touch. by case_decide. Qed.

Lemma kept_emptied {A} x x' (key : A -> nat * Z) h l (P : nat * Z -> Prop) {HdecP : forall k, Decision (P k)} v :
  kept x v -> (forall k u, mx_cells x !! k = Some u -> ~ P k -> exists a, a ∈ l /\ key a = k /\ is_Some (h a)) ->
  mx_calls x' = mx_calls x ++ emptied key h (mx_cells x) l ->
  (forall k, mx_cells x' !! k = if decide (P k) then mx_cells x !! k else None) -> kept x' v.
Proof.
  intros Hk Hcover Ecalls Ecells. unfold kept, reclaimed. rewrite Ecalls, fmap_app, elem_of_app.
  destruct Hk as [[k Hk]|Hk]; [|by right; left]. destruct (decide (P k)) as [HP|HP].
  - left. exists k. by rewrite Ecells, decide_True.
  - right. right. destruct (Hcover _ _ Hk HP) as (a & Ha & <- & [g Hg]). apply list_elem_of_fmap. exists (g, v). split; [done|].
    apply list_elem_of_omap. exists a. split; [done|]. by rewrite Hg, Hk.
Qed.

(** Objects are in rows that exist and in columns that have a handler. *)

Record handled (x : matrix) : Prop := {
  handled_cells : forall t id v, mx_cells x !! (t, id) = Some v -> t ∈ mx_threads x /\ is_Some (mx_live x !! id);
  handled_ids : 0 <= mx_ids x;
  handled_range : forall id, is_Some (mx_live x !! id) -> 0 <= id < mx_ids x;
  handled_live : forall id h, mx_live x !! id = Some h -> is_Some h
}.

Lemma handled_set x t id c : handled x -> t ∈ mx_threads x -> is_Some (mx_live x !! id) -> handled (mx_set x t id c).
Proof.
  intros [Hc Hp Hr Hl] Ht Hlive. constructor; [|done..]. intros u i v. cbn. destruct (decide ((t, id) = (u, i))) as [[= <- <-]|Hne].
  - intros _. done.
  - rewrite lookup_partial_alter_ne by done. apply Hc.
Qed.

Lemma handled_touch x t : handled x -> handled (mx_touch x t).
Proof.
  intros [Hc Hp Hr Hl]. unfold mx_touch. case_decide; [done|]. constructor; cbn; [|done..].
  intros u i v (? & ?)%Hc. split; [by right|done].
Qed.

Lemma handled_access x t id c : handled x -> is_Some (mx_live x !! id) -> handled (mx_set (mx_touch x t) t id c).
Proof.
  intros H Hl. apply handled_set; [by apply handled_touch|apply in_touch|]. unfold mx_touch. by case_decide.
Qed.

Lemma handled_new x id h ids' : handled x -> mx_fresh x id ids' -> is_Some h ->
  handled (mkMatrix (mx_threads x) ids' (<[id := h]> (mx_live x)) (mx_cells x) (mx_calls x)).
Proof.
  intros [Hc Hp Hr Hl] [Hnone Hf] Hh. constructor; cbn.
  - intros t i v (Ht & Hi)%Hc. split; [done|]. destruct (decide (id = i)) as [->|Hne]; [by rewrite lookup_insert_eq|by rewrite lookup_insert_ne].
  - destruct Hf as [[_ ->]|(_ & -> & _)]; lia.
  - intros i. destruct (decide (id = i)) as [->|Hne].
    + intros _. destruct Hf as [[? ->]|(-> & -> & _)]; [done|].
      lia.
    + rewrite lookup_insert_ne by done. intros ?%Hr. destruct Hf as [[? ->]|(? & -> & _)]; lia.
  - intros i g. destruct (decide (id = i)) as [->|Hne]; [rewrite lookup_insert_eq; by intros [= <-]|rewrite lookup_insert_ne by done; apply Hl].
Qed.

Lemma handled_filtered x x' (P : nat * Z -> Prop) {HdecP : forall k, Decision (P k)} :
  handled x -> mx_ids x' = mx_ids x ->
  (forall k, mx_cells x' !! k = if decide (P k) then mx_cells x !! k else None) ->
  (forall id h, mx_live x' !! id = Some h -> mx_live x !! id = Some h) ->
  (forall t id, P (t, id) -> t ∈ mx_threads x -> is_Some (mx_live x !! id) -> t ∈ mx_threads x' /\ is_Some (mx_live x' !! id)) ->
  handled x'.
Proof.
  intros [Hc Hp Hr Hl] Eids Ecells Hlive HP. constructor; rewrite ?Eids; [|done| |].
  - intros t id v. rewrite Ecells. case_decide as HPk; [|done]. intros [Ht Hi]%Hc. by apply HP.
  - intros id [h Hh]. apply Hr. exists h. by apply Hlive.
  - intros id h Hh%Hlive. by eapply Hl.
Qed.

Lemma matrix_step_kept x op r x' : matrix_step x op r x' -> handled x -> has_handler op = true ->
  handled x' /\ (forall v, kept x v -> kept x' v) /\ (forall v, r = RObject (Some v) -> kept x' v).
Proof.
  intros Hs Hx Hop. destruct Hs as [h id ids' Hf|t id v [Hl Hc]|t id Hl|t id v op Hl Heq|id h Hl|t|op _].
  - split; [|split; [done|done]]. apply handled_new; [done|done|]. by destruct h.
  - split; [by apply handled_access|]. split; [|done]. intros u Hu. apply kept_set; [by apply kept_touch|].
    rewrite (proj1 (mx_touch_same x t id)). by rewrite Hc.
  - split; [by apply handled_touch|]. split; [intros v; apply kept_touch|]. intros v [= Hv].
    apply kept_touch. left. by exists (t, id).
  - assert (Hl' : is_Some (mx_live x !! id)) by (by destruct Heq as [->| ->]).
    split; [by apply handled_access|]. split.
    + intros u Hu. apply kept_set; [by apply kept_touch|]. rewrite (proj1 (mx_touch_same x t id)). by intros ->.
    + intros u [= <-]. left. exists (t, id). cbn. by rewrite lookup_partial_alter_eq.
  - split; [|split; [|done]].
    + apply (handled_filtered x _ (fun k => k.2 <> id)); [done|done| | |].
      * intros [u i]. apply lookup_mx_drop.
      * intros i g Hg. cbn in Hg. by apply lookup_delete_Some in Hg as [_ ?].
      * intros t i Hi Ht Hli. split; [done|]. cbn. by rewrite lookup_delete_ne by (intros ->; by apply Hi).
    + intros v Hv. apply (kept_emptied x _ (fun t => (t, id)) (fun _ => h) (mx_threads x) (fun k => k.2 <> id)); [done| |done|].
      * intros [t i] u Hu Hi. exists t. apply (handled_cells _ Hx) in Hu as [Ht _]. split; [done|].
        destruct (decide (i = id)) as [->|Hne]; [|by destruct Hi]. split; [done|]. by eapply handled_live.
      * intros [u i]. apply lookup_mx_drop.
  - split; [|split; [|done]].
    + apply (handled_filtered x _ (fun k => k.1 <> t)); [done|done| |done|].
      * intros [u i]. apply lookup_mx_exit.
      * intros u i Hi Ht Hli. split; [|done]. apply list_elem_of_filter. by split.
    + intros v Hv. apply (kept_emptied x _ (fun id => (t, id)) (fun id => mjoin (mx_live x !! id)) (seqZ 0 (mx_ids x)) (fun k => k.1 <> t)); [done| |done|].
      * intros [u i] w Hw Hi. exists i. apply (handled_cells _ Hx) in Hw as [_ Hli]. pose proof (handled_range _ Hx _ Hli).
        split; [apply elem_of_seqZ; lia|]. destruct (decide (u = t)) as [->|Hne]; [|by destruct Hi]. split; [done|].
        destruct Hli as [g Hg]. rewrite Hg. by eapply handled_live.
      * intros [u i]. apply lookup_mx_exit.
  - split; [done|]. split; [done|]. done.
Qed.

Lemma matrix_run_kept x ops rs x' : matrix_run x ops rs x' -> handled x -> forallb has_handler ops = true ->
  (forall v, kept x v -> kept x' v) /\ (forall v, RObject (Some v) ∈ rs -> kept x' v).
Proof.
  induction 1 as [x|x op r x1 ops rs x2 Hs _ IH]; intros Hx Hops.
  - split; [done|]. intros v Hv. by apply not_elem_of_nil in Hv.
  - apply andb_true_iff in Hops as [Hop Hops]. destruct (matrix_step_kept _ _ _ _ Hs Hx Hop) as (Hx1 & K1 & K2).
    destruct (IH Hx1 Hops) as [K3 K4]. split; [intros v Hv; by apply K3, K1|].
    intros v [<-|Hv]%elem_of_cons; [by apply K3, K2|by apply K4].
Qed.

(** Objects that are stored once are reclaimed once: however columns are
    dropped and threads exit, no object is handed to a handler twice, none is
    handed over while a cell still holds it, and, when every column has a
    handler, every object a client has got from a cell is still in some
    thread's cell or has been handed over. *)
Theorem tls_reclaims_once p ops :
  len ops < 2 ^ usize_bits -> NoDup (ops ≫= offered) ->
  exists m rs, tls_run p ThreadMetaGlobal_new ops = Done (m, rs) /\
    NoDup (tm_calls m).*2 /\
    (forall t id v, 0 <= id -> cell_at (tm_rows m) (S t) id = Some v -> v ∉ (tm_calls m).*2) /\
    (forallb has_handler ops = true -> forall v, RObject (Some v) ∈ rs ->
       v ∈ (tm_calls m).*2 \/ exists t id, 0 <= id /\ cell_at (tm_rows m) (S t) id = Some v).
Proof.
  intros Hlen Hn. destruct (tls_run_rep p ops matrix_empty ThreadMetaGlobal_new tls_rep_empty) as (m & rs & x & E & Hr & Hrep); [cbn; lia|].
  exists m, rs. split; [done|]. rewrite (rep_calls _ _ Hrep).
  assert (H0 : once [] matrix_empty).
  { constructor; cbn; [apply NoDup_nil_2| |done|apply NoDup_nil_2|].
    - intros v [[k Hk]|Hk]; [done|]. by apply not_elem_of_nil in Hk.
    - intros v [k Hk]. done. }
  destruct (matrix_run_once _ _ _ _ Hr [] H0) as [U HU]; [by rewrite app_nil_r|].
  split; [by apply HU|]. split.
  - intros t id v Hid Hc. apply (once_disjoint _ _ HU). exists (t, id). by rewrite (rep_cells _ _ Hrep).
  - intros Hh v Hv. destruct (matrix_run_kept _ _ _ _ Hr) as [_ K]; [|done|].
    { constructor; cbn; [done|lia| |done]. intros id [? ?]. done. }
    destruct (K v Hv) as [[[t id] Hk]|Hk]; [right|by left]. exists t, id.
    pose proof (rep_cell_live _ _ Hrep _ _ _ Hk) as Hid%(rep_live_range _ _ _ Hrep).
    rewrite <- (rep_cells _ _ Hrep) by lia. split; [lia|done].
Qed.

Lemma tls_reclaims_once_witness :
  len [OpNew (Some 7); OpGetOrInit 1 0 10; OpInit 2 0 20; OpExit 1; OpGetOrInitMut 3 0 30; OpDrop 0] < 2 ^ usize_bits /\
  exists m rs, tls_run Release ThreadMetaGlobal_new
      [OpNew (Some 7); OpGetOrInit 1 0 10; OpInit 2 0 20; OpExit 1; OpGetOrInitMut 3 0 30; OpDrop 0] = Done (m, rs) /\
    NoDup (tm_calls m).*2.
Proof.
  split; [reflexivity|].
  destruct (tls_reclaims_once Release [OpNew (Some 7); OpGetOrInit 1 0 10; OpInit 2 0 20; OpExit 1; OpGetOrInitMut 3 0 30; OpDrop 0])
    as (m & rs & E & H & _); [reflexivity|apply (bool_decide_unpack _); reflexivity|]. exists m, rs. exact (conj E H).
Defined.

(** Removing a column by hand and then dropping it frees its index twice, and
    two later columns share it. *)

Example removed_then_dropped :
  (let '(m, c) := new_with_handler ThreadMetaGlobal_new None in
   m ← remove_column m c; m ← tlp_drop m c;
   let '(m, c1) := new_with_handler m None in
   let '(m, c2) := new_with_handler m None in
   m ← tlp_init Debug m c1 1 10;
   '(_, o) ← tlp_get Debug m c2 1; Done (tls_id c1, tls_id c2, o)) = Done (0, 0, Some 10).
Proof. vm_compute. reflexivity. Qed.

(** Dropping a row that is not in the list any more follows a null pointer. *)

Example dropped_row_exits :
  (let '(m, c) := new_with_handler ThreadMetaGlobal_new None in
   m ← tlp_init Debug m c 1 10;
   m ← drop_row m 2; tls_thread_exit m 1) = UB "null pointer".
Proof. vm_compute. reflexivity. Qed.
