(* ===== verification/PoolTls.v ===== *)
(** * PoolTls: the pool on thread-local storage

    Composes [Pool] with [ThreadLocal].  In [db/batch_pool.rs] the cache of a
    thread is a box whose pointer is in the thread's cell of the pool's
    column; the cell is filled at its first use, and the column's handler
    ([ThreadBatchCache::unref]) empties and frees the box when the thread exits
    or the column goes away.  [Pool] has a map from threads to caches in place
    of this; here the operations run on the rows of [ThreadLocal], beside any
    other use of other columns, and are proved to implement those of
    [Pool]. *)

From S2P Require Import Prelude Records Wal Batch Allocation Pool ThreadLocal.

(** ** The pool as it is laid out

    [tq_boxes] are the boxes of caches, [tq_box] the address of the next one;
    [tq_rest] are the other fields of the pool, whose map of caches is not
    used.  The registry is the one of the process. *)

(* @src crates/engine/src/db/batch_pool.rs:370-388 BatchPoolImpl *)
Record tls_pool (F P : Type) := mkTlsPool {
  tq_meta : ThreadMetaGlobal;
  thread_local_ptr : ThreadLocalPtr;
  tq_boxes : gmap Z ThreadBatchCache;
  tq_box : Z;
  tq_rest : BatchPoolImpl F P
}.

#[global] Arguments mkTlsPool {F P} _ _ _ _ _.
#[global] Arguments tq_meta {F P} _.
#[global] Arguments thread_local_ptr {F P} _.
#[global] Arguments tq_boxes {F P} _.
#[global] Arguments tq_box {F P} _.
#[global] Arguments tq_rest {F P} _.

Section tls_pool.
Context {F P : Type} `{!BatchAllocation P, !BatchFactory F P} (p : profile) (g : pool_cfg).

(** The function [ThreadBatchCache::handler] gives: [unref_erased]. *)

Variable handler : UnrefHandler.

Definition tq_set_meta (st : tls_pool F P) (m : ThreadMetaGlobal) : tls_pool F P :=
  mkTlsPool m (thread_local_ptr st) (tq_boxes st) (tq_box st) (tq_rest st).

Definition tq_set_rest (st : tls_pool F P) (pl : BatchPoolImpl F P) : tls_pool F P :=
  mkTlsPool (tq_meta st) (thread_local_ptr st) (tq_boxes st) (tq_box st) pl.

(* @src crates/engine/src/db/batch_pool.rs:424-433 BatchPoolImpl::with_factory *)
Definition tls_pool_new (m : ThreadMetaGlobal) (factory : F) : outcome (tls_pool F P) :=
  pl ← BatchPool_with_factory p g factory;
  let '(m, c) := new_with_handler m (Some handler) in
  Done (mkTlsPool m c ∅ 0 pl).

(** The box a cell points to; at the next address, the one the initialiser
    has just made. *)

(* @src crates/engine/src/db/batch_pool.rs:477-484 BatchPoolImpl::thread_local_batch_cache_mut *)
Definition cache_at (st : tls_pool F P) (ptr : Z) : outcome ThreadBatchCache :=
  if decide (ptr = tq_box st) then ThreadBatchCache_new p g
  else match tq_boxes st !! ptr with Some c => Done c | None => UB "access to a freed cache" end.

(* @src crates/engine/src/db/batch_pool.rs:464-490 BatchPoolImpl::thread_local_batch_cache_mut *)
Definition tls_cache_mut {R} (st : tls_pool F P) (t : nat)
    (f : BatchPoolImpl F P -> ThreadBatchCache -> outcome (BatchPoolImpl F P * ThreadBatchCache * R))
  : outcome (tls_pool F P * R) :=
  '(m, (ptr, pl, c, r)) ← get_or_init_mut p (tq_meta st) (thread_local_ptr st) t (tq_box st) (fun ptr =>
    c ← cache_at st ptr; '(pl, c, r) ← f (tq_rest st) c; Done (ptr, pl, c, r));
  Done (mkTlsPool m (thread_local_ptr st) (<[ptr := c]> (tq_boxes st))
          (if decide (ptr = tq_box st) then tq_box st + 1 else tq_box st) pl, r).

(* @src crates/engine/src/db/batch_pool.rs:568-573 BatchPoolImpl::acquire_object *)
Definition tls_acquire (st : tls_pool F P) (t : nat) : outcome (tls_pool F P * nat) :=
  tls_cache_mut st t (acquire_in p g).

(* @src crates/engine/src/db/batch_pool.rs:589-633 BatchPoolImpl::release *)
Definition tls_release (st : tls_pool F P) (t : nat) (batch : nat) : outcome (tls_pool F P) :=
  pl ← release_reset p (tq_rest st) batch;
  '(st, _) ← tls_cache_mut (tq_set_rest st pl) t (release_in p g batch);
  Done st.

(* @src crates/engine/src/db/batch_pool.rs:170-185 ThreadBatchCache::unref *)
Definition cache_unref (st : tls_pool F P) (ptr : Z) : outcome (tls_pool F P) :=
  match tq_boxes st !! ptr with
  | None => UB "double free of a cache"
  | Some c =>
      hp ← drop_batches (pl_heap (tq_rest st)) (c_batches c);
      Done (mkTlsPool (tq_meta st) (thread_local_ptr st) (delete ptr (tq_boxes st)) (tq_box st)
              (pl_set_heap (tq_rest st) hp))
  end.

(** What handler calls do to this pool; those of other handlers are about
    other objects. *)

Fixpoint run_calls (st : tls_pool F P) (calls : list (UnrefHandler * Z)) : outcome (tls_pool F P) :=
  match calls with
  | [] => Done st
  | (h, ptr) :: calls =>
      st ← (if decide (h = handler) then cache_unref st ptr else Done st);
      run_calls st calls
  end.

(** An operation of the registry, with the handlers it calls. *)

Definition registry_op (st : tls_pool F P) (r : outcome ThreadMetaGlobal) : outcome (tls_pool F P) :=
  m ← r;
  run_calls (tq_set_meta st m) (drop (length (tm_calls (tq_meta st))) (tm_calls m)).

Definition tls_exit (st : tls_pool F P) (t : nat) : outcome (tls_pool F P) :=
  registry_op st (tls_thread_exit (tq_meta st) t).

(* @src crates/engine/src/db/batch_pool.rs:659-693 BatchPoolImpl::drop *)
Definition tls_pool_drop (st : tls_pool F P) : outcome (tls_pool F P) :=
  st ← registry_op st (tlp_drop (tq_meta st) (thread_local_ptr st));
  hp ← foldl (fun hp s => hp ← hp; shard_drop hp s) (Done (pl_heap (tq_rest st))) (pl_shards (tq_rest st));
  Done (tq_set_rest st (pl_set_heap (tq_rest st) hp)).

(** ** A process

    Clients of the pool, and other users of the registry. *)

Inductive process_op :=
| PoolOp (op : client_op P)
| OtherOp (op : tls_op).

Definition process_step (s : tls_pool F P * list nat) (op : process_op) : outcome (tls_pool F P * list nat) :=
  let '(st, held) := s in
  let pl := tq_rest st in
  match op with
  | PoolOp (CAcquire t) => '(st, b) ← tls_acquire st t; Done (st, b :: held)
  | PoolOp (CUse b x) =>
      if decide (b ∈ held) then Done (tq_set_rest st (pl_set_heap pl (<[b := x]> (pl_heap pl))), held) else Done s
  | PoolOp (CRelease t b) =>
      if decide (b ∈ held) then
        if from_option (fun x => reset_safe (ba_batch x)) false (pl_heap pl !! b) then
          st ← tls_release st t b; Done (st, list_difference held [b])
        else Done s
      else Done s
  | PoolOp (CExit t) => st ← tls_exit st t; Done (st, held)
  | OtherOp op => st ← registry_op st ('(m, _) ← tls_step p (tq_meta st) op; Done m); Done (st, held)
  end.

Fixpoint process_run (s : tls_pool F P * list nat) (ops : list process_op) : outcome (tls_pool F P * list nat) :=
  match ops with
  | [] => Done s
  | op :: ops => s ← process_step s op; process_run s ops
  end.

Definition pool_ops (ops : list process_op) : list (client_op P) :=
  omap (fun op => match op with PoolOp op => Some op | OtherOp _ => None end) ops.
End tls_pool.

(** ** Operations on storage do not look at the map of caches *)

Definition with_caches {F P} (M : gmap nat ThreadBatchCache) (pl : BatchPoolImpl F P) : BatchPoolImpl F P :=
  mkPool M (pl_shards pl) (pl_factory pl) (pl_next_shard pl) (pl_stats pl) (pl_heap pl) (pl_next pl).

Definition wc2 {F P A} M (r : BatchPoolImpl F P * A) : BatchPoolImpl F P * A := (with_caches M r.1, r.2).
Definition wc3 {F P A B} M (r : BatchPoolImpl F P * A * B) : BatchPoolImpl F P * A * B := (wc2 M r.1, r.2).

Section caches.
Context {F P : Type} `{!BatchAllocation P, !BatchFactory F P} (p : profile) (g : pool_cfg) (M : gmap nat ThreadBatchCache).
Implicit Types pl : BatchPoolImpl F P.

Lemma caches_pop pl idx : pop_from_global p g (with_caches M pl) idx = wc2 M <$> pop_from_global p g pl idx.
Proof.
  unfold pop_from_global, get_shard. cbn [with_caches pl_shards]. destruct (pl_shards pl !! Z.to_nat idx); [|done].
  cbn [mbind outcome_bind]. by destruct (shard_pop p g b) as [[]| | |].
Qed.

Lemma caches_push pl idx b : push_to_global p g (with_caches M pl) idx b = wc2 M <$> push_to_global p g pl idx b.
Proof.
  unfold push_to_global, get_shard. cbn [with_caches pl_shards pl_heap]. destruct (pl_shards pl !! Z.to_nat idx); [|done].
  cbn [mbind outcome_bind]. by destruct (shard_push p g _ b0 b) as [[[]]| | |].
Qed.

Lemma caches_idx pl c : shard_idx_for_cache g (with_caches M pl) c = wc3 M <$> shard_idx_for_cache g pl c.
Proof. unfold shard_idx_for_cache, assign_shard_idx. destruct (shard_idx c); [done|]. by case_decide. Qed.

Lemma caches_acquire pl b : acquire_ptr (with_caches M pl) b = with_caches M <$> acquire_ptr pl b.
Proof. unfold acquire_ptr. cbn [with_caches pl_heap]. by destruct (pl_heap pl !! b). Qed.

Lemma caches_hydrate fuel : forall pl c idx n,
  hydrate p g fuel (with_caches M pl) c idx n = wc3 M <$> hydrate p g fuel pl c idx n.
Proof.
  induction fuel as [|fuel IH]; intros pl c idx n; [done|]. cbn [hydrate]. case_decide; [|done]. rewrite caches_pop.
  destruct (pop_from_global p g pl idx) as [[pl1 [b|]]| | |]; try done. cbn [mbind outcome_bind fmap outcome_fmap wc2 fst snd].
  destruct (add_w p 8 n 1); try done. cbn [mbind outcome_bind]. cbn [with_caches pl_heap].
  destruct (cache_push p g (pl_heap pl1) c b) as [[[hp c'] back]| | |]; try done. cbn [mbind outcome_bind].
  destruct (match back with Some b => heap_drop hp b | None => Done hp end); try done. cbn [mbind outcome_bind]. apply (IH (pl_set_heap pl1 _)).
Qed.

Lemma caches_refill pl c : refill_tls_cache p g (with_caches M pl) c = wc3 M <$> refill_tls_cache p g pl c.
Proof.
  unfold refill_tls_cache. rewrite caches_idx. destruct (shard_idx_for_cache g pl c) as [[[pl1 c1] idx]| | |]; try done.
  cbn [mbind outcome_bind fmap outcome_fmap wc3 wc2 fst snd]. rewrite caches_pop.
  destruct (pop_from_global p g pl1 idx) as [[pl2 r]| | |]; try done. cbn [mbind outcome_bind fmap outcome_fmap wc2 fst snd].
  assert (H : forall pl3 a n by' b,
    ('(pl, c, reused) ← hydrate p g HYDRATE_FUEL (with_caches M pl3) c1 idx n;
     let pl := pl_set_stats pl (count_refill (pl_stats pl) a by' reused) in
     pl ← acquire_ptr pl b; Done (pl, c, b)) =
    wc3 M <$> ('(pl, c, reused) ← hydrate p g HYDRATE_FUEL pl3 c1 idx n;
     let pl := pl_set_stats pl (count_refill (pl_stats pl) a by' reused) in
     pl ← acquire_ptr pl b; Done (pl, c, b))).
  { intros pl3 a n by' b. rewrite caches_hydrate. destruct (hydrate p g HYDRATE_FUEL pl3 c1 idx n) as [[[pl4 c4] n4]| | |]; try done.
    cbn [mbind outcome_bind fmap outcome_fmap wc3 wc2 fst snd].
    change (pl_set_stats (with_caches M pl4) ?s) with (with_caches M (pl_set_stats pl4 s)). cbv zeta. rewrite caches_acquire.
    by destruct (acquire_ptr _ b). }
  destruct r as [b|]; [apply H|]. cbn [with_caches pl_factory]. destruct (allocate (pl_factory pl2)) as [[by' x]| | |]; try done.
  exact (H (fst (pl_alloc pl2 x)) 1 0 by' (pl_next pl2)).
Qed.

Lemma caches_acquire_in pl c : acquire_in p g (with_caches M pl) c = wc3 M <$> acquire_in p g pl c.
Proof.
  unfold acquire_in, try_acquire_from_tls. destruct (cache_pop p g c) as [[c1 [b|]]| | |]; try done; cbn [mbind outcome_bind].
  - rewrite caches_acquire. by destruct (acquire_ptr pl b).
  - apply caches_refill.
Qed.

Lemma caches_spill fuel : forall pl c idx, spill_cache p g fuel (with_caches M pl) c idx = wc2 M <$> spill_cache p g fuel pl c idx.
Proof.
  induction fuel as [|fuel IH]; intros pl c idx; [done|]. cbn [spill_cache]. case_decide; [|done].
  destruct (cache_pop p g c) as [[c1 [b|]]| | |]; try done. cbn [mbind outcome_bind]. rewrite caches_push.
  destruct (push_to_global p g pl idx b) as [[pl1 [b'|]]| | |]; try done; cbn [mbind outcome_bind fmap outcome_fmap wc2 fst snd]; [|apply IH].
  cbn [with_caches pl_heap]. destruct (heap_drop (pl_heap pl1) b') as [hp| | |]; try done. cbn [mbind outcome_bind]. apply (IH (pl_set_heap pl1 hp)).
Qed.

Lemma caches_reset pl b : release_reset p (with_caches M pl) b = with_caches M <$> release_reset p pl b.
Proof.
  unfold release_reset. cbn [with_caches pl_heap]. destruct (pl_heap pl !! b) as [x|]; [|done]. by destruct (obj_reset_batch p x).
Qed.

Lemma caches_release_in b pl c : release_in p g b (with_caches M pl) c = wc3 M <$> release_in p g b pl c.
Proof.
  unfold release_in. cbn [with_caches pl_heap]. destruct (cache_push p g (pl_heap pl) c b) as [[[hp c1] [b1|]]| | |]; try done.
  cbn [mbind outcome_bind]. rewrite caches_idx. destruct (shard_idx_for_cache g pl c1) as [[[pl2 c2] idx]| | |]; try done.
  cbn [mbind outcome_bind fmap outcome_fmap wc3 wc2 fst snd]. rewrite caches_spill.
  destruct (spill_cache p g SPILL_FUEL pl2 c2 idx) as [[pl3 c3]| | |]; try done. cbn [mbind outcome_bind fmap outcome_fmap wc2 fst snd].
  cbn [with_caches pl_heap]. by destruct (cache_push p g (pl_heap pl3) c3 b1) as [[[hp3 c4] [b4|]]| | |].
Qed.
End caches.

(** ** How the rows hold the caches *)

(** The calls of [handler], and the objects they are for. *)

Definition calls_of (handler : UnrefHandler) (calls : list (UnrefHandler * Z)) : list Z :=
  omap (fun c => if decide (c.1 = handler) then Some c.2 else None) calls.

(** Other users of the registry leave the pool's column alone, and register
    other functions. *)

Definition others_ok (handler : UnrefHandler) (col : Z) (op : tls_op) : Prop :=
  match op with
  | OpNew h => h <> Some handler
  | OpInit _ id _ | OpGet _ id | OpGetOrInit _ id _ | OpGetOrInitMut _ id _ | OpDrop id => id <> col
  | OpExit _ => False
  end.

Record column_kept (handler : UnrefHandler) (col : Z) (x x' : matrix) : Prop := {
  ck_live : mx_live x' !! col = mx_live x !! col;
  ck_alone : forall id, mx_live x' !! id = Some (Some handler) -> mx_live x !! id = Some (Some handler);
  ck_cells : forall t, mx_cells x' !! (t, col) = mx_cells x !! (t, col);
  ck_calls : exists cs, mx_calls x' = mx_calls x ++ cs /\ calls_of handler cs = []
}.

Lemma column_kept_refl handler col x : column_kept handler col x x.
Proof. constructor; try done. exists []. by rewrite app_nil_r. Qed.

Lemma column_kept_trans handler col x y z : column_kept handler col x y -> column_kept handler col y z -> column_kept handler col x z.
Proof.
  intros [L1 A1 C1 (cs1 & E1 & N1)] [L2 A2 C2 (cs2 & E2 & N2)]. constructor; [by rewrite L2|auto|intros t; by rewrite C2|].
  exists (cs1 ++ cs2). rewrite E2, E1, app_assoc. split; [done|]. unfold calls_of in *. by rewrite omap_app, N1, N2.
Qed.

Lemma column_kept_touch handler col x t : column_kept handler col x (mx_touch x t).
Proof. unfold mx_touch. case_decide; [apply column_kept_refl|]. constructor; try done. exists []. by rewrite app_nil_r. Qed.

Lemma column_kept_set handler col x t id c : id <> col -> column_kept handler col x (mx_set x t id c).
Proof.
  intros Hid. constructor; try done; [|exists []; by rewrite app_nil_r].
  intros u. cbn. apply lookup_partial_alter_ne. congruence.
Qed.

Lemma calls_of_none handler {A} (f : A -> option (UnrefHandler * Z)) (l : list A) :
  (forall a c, f a = Some c -> c.1 <> handler) -> calls_of handler (omap f l) = [].
Proof.
  intros H. unfold calls_of. induction l as [|a l IH]; [done|]. cbn [omap list_omap]. destruct (f a) as [c|] eqn:E; [|done].
  cbn [omap list_omap]. rewrite decide_False by (by eapply H). done.
Qed.

Lemma others_keep handler col x op r x' :
  matrix_step x op r x' -> others_ok handler col op -> mx_live x !! col = Some (Some handler) ->
  (forall id, mx_live x !! id = Some (Some handler) -> id = col) -> column_kept handler col x x'.
Proof.
  intros Hs Hop Hc Ha. destruct Hs as [h id ids' [Hn _]|t id v _|t id _|t id v op _ Hor|id h Hl|t|op _]; cbn in Hop.
  - assert (Hne : id <> col) by (intros ->; congruence). constructor; cbn; [by rewrite lookup_insert_ne| |done|exists []; by rewrite app_nil_r].
    intros i. destruct (decide (i = id)) as [->|Hi]; [rewrite lookup_insert_eq; congruence|by rewrite lookup_insert_ne].
  - eapply column_kept_trans; [apply column_kept_touch|by apply column_kept_set].
  - apply column_kept_touch.
  - eapply column_kept_trans; [apply column_kept_touch|apply column_kept_set]. by destruct Hor as [->| ->].
  - assert (Hh : h <> Some handler) by (intros ->; by apply Hop, Ha).
    constructor; cbn; [by rewrite lookup_delete_ne|intros i [_ Hi]%lookup_delete_Some; done| |].
    + intros t. change (mx_cells (mx_drop x id h) !! (t, col) = mx_cells x !! (t, col)). rewrite lookup_mx_drop. by rewrite decide_True by done.
    + eexists. split; [done|]. apply calls_of_none. intros t c E. destruct h as [h|]; [|done]. cbn in E.
      destruct (mx_cells x !! (t, id)); [|done]. injection E as <-. cbn. congruence.
  - done.
  - apply column_kept_refl.
Qed.

(** [get_or_init_mut] runs its closure on the object of the cell. *)

Lemma get_or_init_mut_rep {R} p x m c t init (k : Z -> outcome R) r :
  tls_rep x m -> is_Some (mx_live x !! tls_id c) -> mx_ids x < 2 ^ usize_bits ->
  k (default init (mx_cells x !! (t, tls_id c))) = Done r ->
  exists m', get_or_init_mut p m c t init k = Done (m', r) /\
    tls_rep (mx_set (mx_touch x t) t (tls_id c) (Some (default init (mx_cells x !! (t, tls_id c))))) m' /\
    mx_ids (mx_set (mx_touch x t) t (tls_id c) (Some (default init (mx_cells x !! (t, tls_id c))))) = mx_ids x.
Proof.
  intros Hm Hl Hi Hk. unfold get_or_init_mut. eapply access_step; [done|done|done|].
  destruct (mx_cells x !! (t, tls_id c)) as [y|]; cbn in Hk |- *.
  - by rewrite Hk.
  - rewrite debug_assert_true by done. cbn [mbind outcome_bind]. by rewrite Hk.
Qed.

Section rep.
Context {F P : Type} `{!BatchAllocation P, !AllocationLaws P, !BatchFactory F P, FL : !FactoryLaws F P}.
Context (p : profile) (g : pool_cfg) (handler : UnrefHandler).

(** [x] is the matrix the rows represent, [pl] the pool of [Pool] they
    implement. *)

Record tq_rep (x : matrix) (st : tls_pool F P) (pl : BatchPoolImpl F P) : Prop := {
  tq_tls : tls_rep x (tq_meta st);
  tq_handler : mx_live x !! tls_id (thread_local_ptr st) = Some (Some handler);
  tq_alone : forall id, mx_live x !! id = Some (Some handler) -> id = tls_id (thread_local_ptr st);
  tq_cells : forall t, pl_caches pl !! t = v ← mx_cells x !! (t, tls_id (thread_local_ptr st)); tq_boxes st !! v;
  tq_own : forall v, is_Some (tq_boxes st !! v) <-> exists t, mx_cells x !! (t, tls_id (thread_local_ptr st)) = Some v;
  tq_inj : forall t t' v, mx_cells x !! (t, tls_id (thread_local_ptr st)) = Some v ->
    mx_cells x !! (t', tls_id (thread_local_ptr st)) = Some v -> t = t';
  tq_fresh : forall v, is_Some (tq_boxes st !! v) -> v < tq_box st;
  tq_same : pl = with_caches (pl_caches pl) (tq_rest st)
}.

Lemma with_caches_rest (st : tls_pool F P) pl : pl = with_caches (pl_caches pl) (tq_rest st) ->
  tq_rest st = with_caches (pl_caches (tq_rest st)) pl.
Proof. intros ->. by destruct (tq_rest st). Qed.

(** Only the batches, the shards and the statistics change. *)

Lemma rep_rest x st pl pl1 : tq_rep x st pl -> pl_caches pl1 = pl_caches pl ->
  tq_rep x (tq_set_rest st (with_caches (pl_caches (tq_rest st)) pl1)) pl1.
Proof. intros [? ? ? Hc ? ? ? ?] E. constructor; cbn; try done; [by rewrite E|by destruct pl1]. Qed.

(** The registry changes, but not in the pool's column. *)

Lemma rep_meta x st pl x' m : tq_rep x st pl -> tls_rep x' m -> column_kept handler (tls_id (thread_local_ptr st)) x x' ->
  tq_rep x' (tq_set_meta st m) pl.
Proof.
  intros [? ? ? Hc Ho Hi ? ?] Hm [L A C _]. constructor; cbn; try done; [by rewrite L|auto|intros t; by rewrite C| |].
  - intros v. rewrite Ho. split; intros [t Ht]; exists t; [by rewrite C|by rewrite <- C].
  - intros t t' v. rewrite !C. apply Hi.
Qed.

(** What a thread finds through its cell is its cache. *)

Lemma rep_cache_at x st pl t : tq_rep x st pl ->
  cache_at p g st (default (tq_box st) (mx_cells x !! (t, tls_id (thread_local_ptr st)))) = thread_local_batch_cache p g pl t.
Proof.
  intros R. unfold cache_at, thread_local_batch_cache. rewrite (tq_cells _ _ _ R).
  destruct (mx_cells x !! (t, tls_id (thread_local_ptr st))) as [v|] eqn:E; cbn; [|by rewrite decide_True].
  destruct (proj2 (tq_own _ _ _ R v)) as [c Hc]; [by exists t|]. rewrite decide_False, Hc; [done|].
  pose proof (tq_fresh _ _ _ R v (mk_is_Some _ _ Hc)) as Hv. change (v <> tq_box st). lia.
Qed.

(** The cache is stored back. *)

Lemma touched_cell x t col v u : mx_cells (mx_set (mx_touch x t) t col v) !! (u, col) = if decide (u = t) then v else mx_cells x !! (u, col).
Proof.
  cbn. case_decide as E; [by rewrite E, lookup_partial_alter_eq|]. rewrite lookup_partial_alter_ne by congruence.
  unfold mx_touch. by case_decide.
Qed.

Lemma rep_store x st pl t c m : tq_rep x st pl ->
  let col := tls_id (thread_local_ptr st) in
  let v := default (tq_box st) (mx_cells x !! (t, col)) in
  let x' := mx_set (mx_touch x t) t col (Some v) in
  tls_rep x' m ->
  tq_rep x' (mkTlsPool m (thread_local_ptr st) (<[v := c]> (tq_boxes st))
    (if decide (v = tq_box st) then tq_box st + 1 else tq_box st) (tq_rest st)) (pl_set_cache pl t c).
Proof.
  intros [Ht Hh Ha Hc Ho Hi Hf Hs] col v x' Hm. pose proof (touched_cell x t col (Some v)) as Hcell.
  assert (Hlive : mx_live x' = mx_live x) by (unfold x', mx_touch; by case_decide).
  assert (Hold : forall u w, mx_cells x !! (u, col) = Some w -> w < tq_box st) by (intros u w Hw; apply Hf, Ho; by exists u).
  assert (Hw : forall u w, u <> t -> mx_cells x !! (u, col) = Some w -> w <> v).
  { intros u w Hut Hw. unfold v. destruct (mx_cells x !! (t, col)) as [y|] eqn:Ey; cbn.
    - change (w <> y). intros ->. by apply Hut, (Hi u t y).
    - change (w <> tq_box st). apply Hold in Hw. lia. }
  constructor; cbn [tq_meta thread_local_ptr tq_boxes tq_box tq_rest]; fold col; [done|by rewrite Hlive|rewrite Hlive; exact Ha| | | | |].
  - intros u. rewrite Hcell. cbn [pl_set_cache pl_caches]. case_decide as E.
    + subst u. cbn. by rewrite !lookup_insert_eq.
    + rewrite lookup_insert_ne by done. rewrite Hc. fold col. destruct (mx_cells x !! (u, col)) as [w|] eqn:Ew; [|done]. cbn.
      rewrite lookup_insert_ne; [done|]. intros E'. by apply (Hw u w).
  - intros u. destruct (decide (u = v)) as [->|Hne].
    + rewrite lookup_insert_eq. split; [|done]. intros _. exists t. rewrite Hcell. by rewrite decide_True.
    + rewrite lookup_insert_ne, Ho by done. fold col. split; intros [s Es]; exists s.
      * rewrite Hcell, decide_False; [done|]. intros ->. apply Hne. unfold v. by rewrite Es.
      * rewrite Hcell in Es. case_decide; [congruence|done].
  - intros s s' u. rewrite !Hcell. repeat case_decide; subst; intros E E'; try done; try (injection E as <-); try (injection E' as <-).
    + by destruct (Hw s' v).
    + by destruct (Hw s v).
    + by eapply Hi.
  - intros u. destruct (decide (u = v)) as [->|Hne].
    + intros _. case_decide as E; [lia|]. unfold v in *. destruct (mx_cells x !! (t, col)) as [y|] eqn:Ey; [by eapply Hold|by destruct E].
    + rewrite lookup_insert_ne by done. intros Hu%Hf. case_decide; lia.
  - rewrite Hs at 1. done.
Qed.

(** The thread's cache is reached through its cell, where it is made if it is
    not there yet. *)

Lemma tls_cache_mut_rep {R} x st pl t pl' (r : R)
    (f : BatchPoolImpl F P -> ThreadBatchCache -> outcome (BatchPoolImpl F P * ThreadBatchCache * R)) :
  (forall M pl c, f (with_caches M pl) c = wc3 M <$> f pl c) ->
  tq_rep x st pl -> mx_ids x < 2 ^ usize_bits -> thread_local_batch_cache_mut p g pl t f = Done (pl', r) ->
  exists st' x', tls_cache_mut p g st t f = Done (st', r) /\ tq_rep x' st' pl' /\ mx_ids x' = mx_ids x /\
    thread_local_ptr st' = thread_local_ptr st.
Proof.
  intros Hf R0 Hids E. unfold thread_local_batch_cache_mut in E. rewrite <- (rep_cache_at _ _ _ _ R0) in E.
  set (col := tls_id (thread_local_ptr st)) in *. set (v := default (tq_box st) (mx_cells x !! (t, col))) in *.
  destruct (cache_at p g st v) as [c| | |] eqn:Ec; try done. cbn [mbind outcome_bind] in E.
  destruct (f pl c) as [[[pl1 c1] r1]| | |] eqn:Ef; try done. cbn [mbind outcome_bind] in E. injection E as <- <-.
  assert (Ef' : f (tq_rest st) c = Done (with_caches (pl_caches (tq_rest st)) pl1, c1, r1)).
  { rewrite (with_caches_rest st pl (tq_same _ _ _ R0)), Hf, Ef. by destruct (tq_rest st). }
  assert (Ek : pl_caches pl1 = pl_caches pl).
  { pose proof (Hf (pl_caches pl) pl c) as Hk. replace (with_caches (pl_caches pl) pl) with pl in Hk by (by destruct pl).
    rewrite Ef in Hk. injection Hk as Hk. by rewrite Hk. }
  set (k := fun ptr => c ← cache_at p g st ptr; '(pl, c, r) ← f (tq_rest st) c; Done (ptr, pl, c, r)).
  assert (Ek' : k v = Done (v, with_caches (pl_caches (tq_rest st)) pl1, c1, r1)).
  { unfold k. rewrite Ec. cbn [mbind outcome_bind]. by rewrite Ef'. }
  destruct (get_or_init_mut_rep p x (tq_meta st) (thread_local_ptr st) t (tq_box st) k
    (v, with_caches (pl_caches (tq_rest st)) pl1, c1, r1)) as (m & Em & Hm & Hi); [apply R0| |done|done|].
  { by rewrite (tq_handler _ _ _ R0). }
  unfold tls_cache_mut. fold k. rewrite Em.
  cbn [mbind outcome_bind]. eexists _, _. split; [done|].
  pose proof (rep_store _ _ _ t c1 m (rep_rest _ _ _ pl1 R0 Ek) Hm) as HR. by split.
Qed.
(** Acquiring and releasing. *)

Lemma tls_acquire_rep x st pl t pl' b :
  tq_rep x st pl -> mx_ids x < 2 ^ usize_bits -> acquire_object p g pl t = Done (pl', b) ->
  exists st' x', tls_acquire p g st t = Done (st', b) /\ tq_rep x' st' pl' /\ mx_ids x' = mx_ids x /\
    thread_local_ptr st' = thread_local_ptr st.
Proof. intros R Hi E. eapply tls_cache_mut_rep; [|done..]. intros. apply caches_acquire_in. Qed.

Lemma tls_release_rep x st pl t b pl' :
  tq_rep x st pl -> mx_ids x < 2 ^ usize_bits -> BatchPool_release p g pl t b = Done pl' ->
  exists st' x', tls_release p g st t b = Done st' /\ tq_rep x' st' pl' /\ mx_ids x' = mx_ids x /\
    thread_local_ptr st' = thread_local_ptr st.
Proof.
  intros R Hi E. unfold BatchPool_release in E. destruct (release_reset p pl b) as [pl1| | |] eqn:E1; try done.
  cbn [mbind outcome_bind] in E. destruct (thread_local_batch_cache_mut p g pl1 t _) as [[pl2 []]| | |] eqn:E2; try done.
  injection E as <-.
  assert (Ek : pl_caches pl1 = pl_caches pl).
  { pose proof (caches_reset p (pl_caches pl) pl b) as Hk. replace (with_caches (pl_caches pl) pl) with pl in Hk by (by destruct pl).
    rewrite E1 in Hk. injection Hk as Hk. by rewrite Hk. }
  assert (Er : release_reset p (tq_rest st) b = Done (with_caches (pl_caches (tq_rest st)) pl1)).
  { rewrite (with_caches_rest st pl (tq_same _ _ _ R)), caches_reset, E1. by destruct (tq_rest st). }
  destruct (tls_cache_mut_rep x _ pl1 t pl2 tt (release_in p g b) (fun M => caches_release_in p g M b) (rep_rest _ _ _ _ R Ek) Hi E2)
    as (st' & x' & E3 & H). exists st', x'. unfold tls_release. rewrite Er. cbn [mbind outcome_bind]. by rewrite E3.
Qed.

(** What is left of a list of calls is those of the pool's handler. *)

Fixpoint run_unrefs (st : tls_pool F P) (l : list Z) : outcome (tls_pool F P) :=
  match l with
  | [] => Done st
  | v :: l => st ← cache_unref st v; run_unrefs st l
  end.

Lemma run_calls_unrefs cs : forall st : tls_pool F P, run_calls handler st cs = run_unrefs st (calls_of handler cs).
Proof.
  unfold calls_of. induction cs as [|[h v] cs IH]; intros st; [done|]. cbn [run_calls omap list_omap fst snd]. case_decide; [|apply IH].
  cbn [run_unrefs]. destruct (cache_unref st v); [|done..]. apply IH.
Qed.

Lemma registry_op_eq x st pl m x' cs : tq_rep x st pl -> tls_rep x' m -> mx_calls x' = mx_calls x ++ cs ->
  registry_op handler st (Done m) = run_unrefs (tq_set_meta st m) (calls_of handler cs).
Proof.
  intros R Hm Hcs. unfold registry_op. cbn [mbind outcome_bind]. rewrite run_calls_unrefs. do 2 f_equal.
  rewrite (rep_calls _ _ Hm), (rep_calls _ _ (tq_tls _ _ _ R)), Hcs. apply drop_app_length.
Qed.

Lemma others_rep x st pl op : tq_rep x st pl -> others_ok handler (tls_id (thread_local_ptr st)) op -> mx_ids x + 1 < 2 ^ usize_bits ->
  exists st' x', registry_op handler st ('(m, _) ← tls_step p (tq_meta st) op; Done m) = Done st' /\ tq_rep x' st' pl /\
    mx_ids x' <= mx_ids x + 1 /\ thread_local_ptr st' = thread_local_ptr st.
Proof.
  intros R Hop Hi. destruct (tls_step_rep p x _ op (tq_tls _ _ _ R) Hi) as (m & r & x' & E & Hs & Hm & Hle).
  pose proof (others_keep handler _ _ _ _ _ Hs Hop (tq_handler _ _ _ R) (tq_alone _ _ _ R)) as Hk.
  destruct (ck_calls _ _ _ _ Hk) as (cs & Ecs & Enone). exists (tq_set_meta st m), x'.
  rewrite E. cbn [mbind outcome_bind]. rewrite (registry_op_eq x st pl m x' cs R Hm Ecs), Enone.
  split; [done|]. split; [by eapply rep_meta|]. by split.
Qed.

(** A thread exits. *)

Lemma omap_one {A B} (f : A -> option B) a l : NoDup l -> a ∈ l -> (forall b, b ∈ l -> b <> a -> f b = None) ->
  omap f l = option_list (f a).
Proof.
  intros Hn Ha H. apply list_elem_of_split in Ha as (l1 & l2 & ->). apply NoDup_app in Hn as (_ & H1 & [H2 _]%NoDup_cons).
  assert (Hnone : forall l', (forall b, b ∈ l' -> f b = None) -> omap f l' = []).
  { induction l' as [|b l' IH]; intros H'; [done|]. cbn. rewrite H' by left. apply IH. intros c Hc. apply H'. by right. }
  rewrite omap_app. cbn [omap list_omap]. rewrite !Hnone.
  - by destruct (f a).
  - intros b Hb. apply H; [apply elem_of_app; right; by right|]. by intros ->.
  - intros b Hb. apply H; [apply elem_of_app; by left|]. intros ->. apply (H1 a Hb). by left.
Qed.

Lemma calls_of_omap {A} (f : A -> option (UnrefHandler * Z)) l :
  calls_of handler (omap f l) = omap (fun a => c ← f a; if decide (c.1 = handler) then Some c.2 else None) l.
Proof.
  unfold calls_of. induction l as [|a l IH]; [done|]. cbn [omap list_omap]. destruct (f a) as [c|]; cbn; [|done].
  case_decide; by rewrite IH.
Qed.

Lemma exit_calls x st pl t : tq_rep x st pl ->
  calls_of handler (omap (fun id => h ← mjoin (mx_live x !! id); ptr ← mx_cells x !! (t, id); Some (h, ptr)) (seqZ 0 (mx_ids x))) =
  option_list (mx_cells x !! (t, tls_id (thread_local_ptr st))).
Proof.
  intros R. pose proof (rep_live_range _ _ _ (tq_tls _ _ _ R) (mk_is_Some _ _ (tq_handler _ _ _ R))) as Hcol.
  rewrite calls_of_omap, (omap_one _ (tls_id (thread_local_ptr st))); [|apply NoDup_seqZ|apply elem_of_seqZ; lia|].
  - rewrite (tq_handler _ _ _ R). cbn. destruct (mx_cells x !! _); cbn; [|done]. by rewrite decide_True.
  - intros id _ Hne. destruct (mx_live x !! id) as [[h|]|] eqn:E; cbn; try done. destruct (mx_cells x !! (t, id)); cbn; [|done].
    rewrite decide_False; [done|]. intros ->. by apply Hne, (tq_alone _ _ _ R).
Qed.

Lemma rep_unref x st pl t v hp m : tq_rep x st pl ->
  mx_cells x !! (t, tls_id (thread_local_ptr st)) = Some v -> tls_rep (mx_exit x t) m ->
  tq_rep (mx_exit x t) (mkTlsPool m (thread_local_ptr st) (delete v (tq_boxes st)) (tq_box st) (pl_set_heap (tq_rest st) hp))
    (mkPool (delete t (pl_caches pl)) (pl_shards pl) (pl_factory pl) (pl_next_shard pl) (pl_stats pl) hp (pl_next pl)).
Proof.
  intros [Ht Hh Ha Hc Ho Hi Hf Hs] Hv Hm. set (col := tls_id (thread_local_ptr st)) in *.
  assert (Hcell : forall u w, mx_cells (mx_exit x t) !! (u, col) = Some w <-> u <> t /\ mx_cells x !! (u, col) = Some w).
  { intros u w. rewrite lookup_mx_exit. case_decide; [tauto|]. split; [done|tauto]. }
  constructor; cbn [tq_meta thread_local_ptr tq_boxes tq_box tq_rest pl_caches]; fold col; [done|done|done| | | | |].
  - intros u. rewrite lookup_mx_exit. destruct (decide (u = t)) as [->|Hne].
    + rewrite lookup_delete_eq, decide_False by (intros H; by apply H). done.
    + rewrite lookup_delete_ne, decide_True, Hc by done. destruct (mx_cells x !! (u, col)) as [w|] eqn:Ew; [|done]. cbn.
      rewrite lookup_delete_ne; [done|]. intros ->. by apply Hne, (Hi u t w).
  - intros w. setoid_rewrite Hcell. destruct (decide (w = v)) as [->|Hne].
    + rewrite lookup_delete_eq. split; [by intros [? ?]|]. intros (u & Hu & Ew). by destruct Hu; apply (Hi u t v).
    + rewrite lookup_delete_ne, Ho by done. split; intros [u Hu]; exists u; [split; [|done]|by destruct Hu]. intros ->. congruence.
  - intros u u' w. rewrite !Hcell. intros [_ H] [_ H']. by apply (Hi u u' w).
  - intros w [y [_ Hy]%lookup_delete_Some]. apply Hf. by exists y.
  - by rewrite Hs.
Qed.

Lemma tls_exit_rep x st pl t pl' : tq_rep x st pl -> thread_exit pl t = Done pl' ->
  exists st' x', tls_exit handler st t = Done st' /\ tq_rep x' st' pl' /\ mx_ids x' = mx_ids x /\
    thread_local_ptr st' = thread_local_ptr st.
Proof.
  intros R E. destruct (tls_thread_exit_rep _ _ t (tq_tls _ _ _ R)) as (m & Em & Hm & _). unfold tls_exit.
  rewrite Em, (registry_op_eq x st pl m _ _ R Hm eq_refl), (exit_calls x st pl t R). unfold thread_exit in E. rewrite (tq_cells _ _ _ R t) in E.
  destruct (mx_cells x !! (t, tls_id (thread_local_ptr st))) as [v|] eqn:Ev; cbn [mbind option_bind option_list option_rect run_unrefs] in *.
  - destruct (proj2 (tq_own _ _ _ R v)) as [c Hc]; [by exists t|]. unfold cache_unref. cbn [tq_set_meta tq_boxes tq_rest]. rewrite Hc in E |- *.
    assert (Eh : pl_heap (tq_rest st) = pl_heap pl) by (by rewrite (tq_same _ _ _ R)). rewrite Eh.
    destruct (drop_batches (pl_heap pl) (c_batches c)) as [hp| | |]; try done. cbn [mbind outcome_bind] in *. injection E as <-.
    eexists _, (mx_exit x t). split; [done|]. split; [by apply (rep_unref x st pl t v hp m R)|done].
  - injection E as <-. exists (tq_set_meta st m), (mx_exit x t). split; [done|]. split; [|done]. apply (rep_meta x st pl _ m R Hm).
    constructor; [done|done| |].
    + intros u. rewrite lookup_mx_exit. case_decide as Hu; [done|]. destruct (decide (u = t)) as [->|]; [by rewrite Ev|by destruct Hu].
    + eexists. split; [done|]. rewrite (exit_calls x st pl t R). by rewrite Ev.
Qed.

(** ** The pool goes away *)

Lemma map_bind_keys {A} (f : A -> list nat) (l : list nat) : forall M : gmap nat A,
  NoDup l -> (forall k, is_Some (M !! k) -> k ∈ l) ->
  (map_to_list M ≫= fun e => f e.2) ≡ₚ l ≫= fun k => from_option f [] (M !! k).
Proof.
  induction l as [|k l IH]; intros M Hn Hl.
  - assert (M = ∅) as ->; [|by rewrite map_to_list_empty]. apply map_empty. intros k. apply eq_None_not_Some. intros ?%Hl.
    by eapply not_elem_of_nil.
  - apply NoDup_cons in Hn as [Hk Hn]. cbn [mbind list_bind].
    assert (Hext : (l ≫= fun k' => from_option f [] (delete k M !! k')) = l ≫= fun k' => from_option f [] (M !! k')).
    { clear IH Hl Hn. induction l as [|i l IH]; [done|]. apply not_elem_of_cons in Hk as [Hki Hk]. cbn [mbind list_bind].
      rewrite IH by done. by rewrite lookup_delete_ne. }
    specialize (IH (delete k M) Hn). rewrite Hext in IH. destruct (M !! k) as [a|] eqn:E; cbn [from_option].
    + rewrite <- (map_to_list_delete _ _ _ E). cbn [mbind list_bind snd]. apply Permutation_app_head, IH.
      intros i [b [Hi Hb]%lookup_delete_Some]. by destruct (proj1 (elem_of_cons _ _ _) (Hl i (mk_is_Some _ _ Hb))).
    + rewrite delete_id in IH by done. apply IH. intros i Hi. destruct (proj1 (elem_of_cons _ _ _) (Hl i Hi)) as [->|]; [|done].
      rewrite E in Hi. by destruct Hi.
Qed.

Definition box_batches (st : tls_pool F P) (v : Z) : list nat := from_option c_batches [] (tq_boxes st !! v).

Lemma run_unrefs_ok held placed l : forall st : tls_pool F P,
  NoDup l -> (forall v, v ∈ l -> is_Some (tq_boxes st !! v)) -> owns_ok (tq_rest st) held ((l ≫= box_batches st) ++ placed) ->
  exists st', run_unrefs st l = Done st' /\ owns_ok (tq_rest st') held placed /\ pl_shards (tq_rest st') = pl_shards (tq_rest st) /\
    forall v, tq_boxes st' !! v = if decide (v ∈ l) then None else tq_boxes st !! v.
Proof.
  induction l as [|v l IH]; intros st Hn Hl H.
  - exists st. split; [done|]. split; [done|]. split; [done|]. intros v. by rewrite decide_False by apply not_elem_of_nil.
  - apply NoDup_cons in Hn as [Hv Hn]. destruct (Hl v) as [c Hc]; [by left|]. cbn [mbind list_bind] in H.
    unfold box_batches at 1 in H. rewrite Hc in H. cbn [from_option] in H. rewrite <- app_assoc in H.
    destruct (drop_batches_ok _ _ _ _ H) as (hp & Eh & H1 & _). cbn [run_unrefs]. unfold cache_unref. rewrite Hc, Eh. cbn [mbind outcome_bind].
    set (st1 := mkTlsPool _ _ _ _ _).
    assert (Eb : (l ≫= box_batches st1) = l ≫= box_batches st).
    { clear -Hv. induction l as [|u l IH]; [done|]. apply not_elem_of_cons in Hv as [Huv Hv]. cbn [mbind list_bind]. rewrite IH by done.
      unfold box_batches, st1. cbn. by rewrite lookup_delete_ne. }
    destruct (IH st1 Hn) as (st' & E & Ho & Es & Hb).
    { intros u Hu. cbn. rewrite lookup_delete_ne by (intros ->; done). apply Hl. by right. }
    { by rewrite Eb. }
    exists st'. split; [done|]. split; [done|]. split; [by rewrite Es|]. intros u. rewrite Hb. cbn [st1 tq_boxes].
    destruct (decide (u = v)) as [->|Hne].
    + rewrite decide_False, lookup_delete_eq by done. by rewrite decide_True by by left.
    + rewrite lookup_delete_ne by done. destruct (decide (u ∈ l)); [by rewrite decide_True by by right|].
      rewrite decide_False; [done|]. by intros [?|?]%elem_of_cons.
Qed.

Lemma rep_cell_thread x m t id v : tls_rep x m -> mx_cells x !! (t, id) = Some v -> t ∈ mx_threads x.
Proof.
  intros R Hv. pose proof (rep_cell_live _ _ R _ _ _ Hv) as Hi%(rep_live_range _ _ _ R). rewrite (rep_cells _ _ R) in Hv by lia.
  unfold cell_at in Hv. destruct (body (tm_rows m) (S t)) as [[es b]|] eqn:Hb; [|done]. by apply (rep_rows _ _ R) in Hb as [? _].
Qed.

Lemma rep_threads_nodup x m : tls_rep x m -> NoDup (mx_threads x).
Proof. intros R. destruct (rep_ring _ _ R) as [_ [_ Hn]%NoDup_cons]. by apply NoDup_fmap_1 in Hn. Qed.

(** The objects of the pool's column, by thread. *)

Definition column_boxes (x : matrix) (col : Z) : list Z := omap (fun t => mx_cells x !! (t, col)) (mx_threads x).

Lemma drop_calls x col : calls_of handler (omap (fun t => h ← Some handler; ptr ← mx_cells x !! (t, col); Some (h, ptr)) (mx_threads x)) =
  column_boxes x col.
Proof.
  rewrite calls_of_omap. unfold column_boxes. apply list_omap_ext, Forall2_same_length_lookup_2; [done|].
  intros i t t' Ht Ht'. rewrite Ht in Ht'. injection Ht' as ->. cbn. destruct (mx_cells x !! (t', col)); cbn; [|done]. by rewrite decide_True.
Qed.

Lemma column_boxes_ok x st pl : tq_rep x st pl ->
  let l := column_boxes x (tls_id (thread_local_ptr st)) in
  NoDup l /\ (forall v, v ∈ l <-> is_Some (tq_boxes st !! v)) /\
  (l ≫= box_batches st) ≡ₚ map_to_list (pl_caches pl) ≫= fun e => c_batches e.2.
Proof.
  intros R l. pose proof (rep_threads_nodup _ _ (tq_tls _ _ _ R)) as Hn.
  assert (Hin : forall v, v ∈ l <-> is_Some (tq_boxes st !! v)).
  { intros v. rewrite (tq_own _ _ _ R). unfold l, column_boxes. rewrite list_elem_of_omap. split.
    - intros (t & _ & Ht). by exists t.
    - intros [t Ht]. exists t. split; [|done]. by apply (rep_cell_thread _ _ _ _ _ (tq_tls _ _ _ R) Ht). }
  split; [|split; [done|]].
  - unfold l, column_boxes. clear l Hin. induction Hn as [|t ts Ht _ IH]; [constructor|]. cbn [omap list_omap].
    destruct (mx_cells x !! (t, _)) as [v|] eqn:Ev; [|done]. apply NoDup_cons. split; [|done].
    intros (u & Hu & Eu)%list_elem_of_omap. by rewrite (tq_inj _ _ _ R _ _ _ Ev Eu) in Ht.
  - rewrite (map_bind_keys c_batches (mx_threads x)); [|done|].
    + apply Permutation_refl'. unfold l, column_boxes. clear l Hin Hn. induction (mx_threads x) as [|t ts IH]; [done|].
      cbn [omap list_omap mbind list_bind]. rewrite (tq_cells _ _ _ R t). destruct (mx_cells x !! (t, _)) as [v|]; cbn; by rewrite IH.
    + intros t [c Hc]. rewrite (tq_cells _ _ _ R) in Hc. destruct (mx_cells x !! (t, _)) as [v|] eqn:Ev; [|done].
      by apply (rep_cell_thread _ _ _ _ _ (tq_tls _ _ _ R) Ev).
Qed.

Lemma tls_pool_drop_rep x st pl held : tq_rep x st pl -> pool_inv g pl held ->
  exists st', tls_pool_drop handler st = Done st' /\ tq_boxes st' = ∅ /\ forall b, is_Some (pl_heap (tq_rest st') !! b) <-> b ∈ held.
Proof.
  intros R [_ Ho]. destruct (column_boxes_ok _ _ _ R) as (Hn & Hin & Hp).
  pose proof (tq_handler _ _ _ R) as Hh. destruct (remove_column_rep _ _ _ _ (tq_tls _ _ _ R) Hh) as (m & Em & Hm).
  assert (Er : tq_rest st = with_caches (pl_caches (tq_rest st)) pl) by apply (with_caches_rest st pl), R.
  unfold tls_pool_drop, tlp_drop. replace (thread_local_ptr st) with (mkThreadLocalPtr (tls_id (thread_local_ptr st))) by (by destruct (thread_local_ptr st)).
  rewrite Em, (registry_op_eq x st pl m _ _ R Hm eq_refl), drop_calls.
  destruct (run_unrefs_ok held (sharded pl) _ (tq_set_meta st m) Hn) as (st1 & -> & H1 & Es & Hb).
  { intros v Hv. by apply Hin. }
  { cbn [tq_set_meta tq_rest]. apply (owns_perm pl _ held (stored pl)); [done| |by rewrite Er|by rewrite Er].
    change (box_batches (tq_set_meta st m)) with (box_batches st). rewrite Hp. done. }
  cbn [mbind outcome_bind]. cbn [tq_set_meta tq_rest] in Es. rewrite Es, Er. cbn [with_caches pl_shards].
  destruct (shards_drop_ok (pl_shards pl) (tq_rest st1) held H1) as (hp & -> & H2). cbn [mbind outcome_bind].
  eexists. split; [done|]. split.
  - cbn. apply map_empty. intros v. rewrite Hb. case_decide as Hv; [done|]. cbn. apply eq_None_not_Some. by rewrite <- Hin.
  - intros b. cbn. pose proof (ow_dom _ _ _ H2 b) as Hd. cbn in Hd. by rewrite app_nil_r in Hd.
Qed.

(** ** A process *)

Definition process_ok (col : Z) (op : process_op (P := P)) : Prop :=
  match op with PoolOp op => use_ok op | OtherOp op => others_ok handler col op end.

Lemma use_rep x st pl b y : tq_rep x st pl ->
  tq_rep x (tq_set_rest st (pl_set_heap (tq_rest st) (<[b := y]> (pl_heap (tq_rest st))))) (pl_set_heap pl (<[b := y]> (pl_heap pl))).
Proof.
  intros R. pose proof (rep_rest _ _ _ (pl_set_heap pl (<[b := y]> (pl_heap pl))) R eq_refl) as H.
  replace (pl_set_heap (tq_rest st) (<[b := y]> (pl_heap (tq_rest st)))) with
    (with_caches (pl_caches (tq_rest st)) (pl_set_heap pl (<[b := y]> (pl_heap pl)))); [done|].
  by rewrite (tq_same _ _ _ R).
Qed.

(** One operation of a client of the pool. *)

Lemma client_op_rep x st pl held op pl' held' :
  tq_rep x st pl -> mx_ids x < 2 ^ usize_bits -> client_step p g (pl, held) op = Done (pl', held') ->
  exists st' x', process_step p g handler (st, held) (PoolOp op) = Done (st', held') /\ tq_rep x' st' pl' /\ mx_ids x' = mx_ids x /\
    thread_local_ptr st' = thread_local_ptr st.
Proof.
  intros R Hi E. assert (Eh : pl_heap (tq_rest st) = pl_heap pl) by (by rewrite (tq_same _ _ _ R)).
  destruct op as [t|b y|t b|t]; cbn [client_step process_step] in *.
  - destruct (acquire_object p g pl t) as [[pl1 b]| | |] eqn:E1; try done. injection E as <- <-.
    destruct (tls_acquire_rep _ _ _ _ _ _ R Hi E1) as (st' & x' & -> & Hr). by exists st', x'.
  - case_decide; injection E as <- <-; [|by exists st, x]. eexists _, x. split; [done|]. split; [by apply use_rep|done].
  - rewrite Eh. case_decide; [|injection E as <- <-; by exists st, x].
    destruct (from_option _ _ _); [|injection E as <- <-; by exists st, x].
    destruct (BatchPool_release p g pl t b) as [pl1| | |] eqn:E1; try done. injection E as <- <-.
    destruct (tls_release_rep _ _ _ _ _ _ R Hi E1) as (st' & x' & -> & Hr). by exists st', x'.
  - destruct (thread_exit pl t) as [pl1| | |] eqn:E1; try done. injection E as <- <-.
    destruct (tls_exit_rep _ _ _ _ _ R E1) as (st' & x' & -> & Hr). by exists st', x'.
Qed.

Lemma process_run_rep ops : forall x st pl held bytes x0, cfg_ok g ->
  tq_rep x st pl -> pool_inv g pl held -> allocate (pl_factory pl) = Done (bytes, x0) -> mx_ids x + len ops < 2 ^ usize_bits ->
  Forall (process_ok (tls_id (thread_local_ptr st))) ops ->
  exists st' x' pl' held', process_run p g handler (st, held) ops = Done (st', held') /\
    client_run p g (pl, held) (pool_ops ops) = Done (pl', held') /\ tq_rep x' st' pl' /\ pool_inv g pl' held' /\
    thread_local_ptr st' = thread_local_ptr st.
Proof using FL.
  induction ops as [|op ops IH]; intros x st pl held bytes x0 Hg R Hinv Hall Hi Hops; [by exists st, x, pl, held|].
  rewrite len_cons in Hi. pose proof (len_nonneg ops) as Hlen. apply Forall_cons in Hops as [Hop Hops]. destruct op as [op|op]; cbn in Hop.
  - destruct (client_step_ok p g Hg pl held op bytes x0 Hop Hinv Hall) as (pl1 & held1 & E1 & Hinv1 & Hf1).
    destruct (client_op_rep _ _ _ _ _ _ _ R ltac:(lia) E1) as (st1 & x1 & E2 & R1 & Hi1 & Ep).
    destruct (IH x1 st1 pl1 held1 bytes x0 Hg R1 Hinv1) as (st2 & x2 & pl2 & held2 & E3 & E4 & H2); [by rewrite Hf1|lia|by rewrite Ep|].
    exists st2, x2, pl2, held2. cbn [process_run pool_ops omap list_omap client_run]. rewrite E2, E1, <- Ep. by cbn.
  - destruct (others_rep _ _ _ _ R Hop ltac:(lia)) as (st1 & x1 & E1 & R1 & Hi1 & Ep).
    destruct (IH x1 st1 pl held bytes x0 Hg R1 Hinv Hall) as (st2 & x2 & pl2 & held2 & E3 & E4 & H2); [lia|by rewrite Ep|].
    exists st2, x2, pl2, held2. cbn [process_run pool_ops omap list_omap]. cbn [process_step]. rewrite E1, <- Ep. by cbn.
Qed.

Lemma tls_pool_new_rep x0 m0 (f : F) : cfg_ok g -> tls_rep x0 m0 -> (forall id, mx_live x0 !! id <> Some (Some handler)) ->
  mx_ids x0 + 1 < 2 ^ usize_bits ->
  exists st x pl, tls_pool_new p g handler m0 f = Done st /\ BatchPool_with_factory p g f = Done pl /\ tq_rep x st pl /\
    pool_inv g pl [] /\ pl_factory pl = f /\ mx_ids x <= mx_ids x0 + 1.
Proof.
  intros Hg R0 Hnone Hi. destruct (with_factory_ok p g Hg f) as (pl & E & Hinv & Hf). unfold tls_pool_new. rewrite E. cbn [mbind outcome_bind].
  destruct (new_with_handler_rep _ _ (Some handler) R0 Hi) as (ids' & [Hfr _] & Hle & Hm).
  destruct (new_with_handler m0 (Some handler)) as [m c]. cbn [fst snd] in *.
  assert (Hc : forall t, mx_cells x0 !! (t, tls_id c) = None).
  { intros t. destruct (mx_cells x0 !! (t, tls_id c)) as [v|] eqn:Ev; [|done]. apply (rep_cell_live _ _ R0) in Ev as [? Ev]. congruence. }
  assert (Hcaches : pl_caches pl = ∅).
  { unfold BatchPool_with_factory in E. destruct (BatchPoolShard_new p g); try done. by injection E as <-. }
  eexists _, (mkMatrix (mx_threads x0) ids' (<[tls_id c := Some handler]> (mx_live x0)) (mx_cells x0) (mx_calls x0)), pl.
  split; [done|]. split; [done|]. split; [|split_and!; [done|done|exact Hle]].
  constructor; cbn [tq_meta thread_local_ptr tq_boxes tq_box tq_rest mx_live mx_cells]; [done|by rewrite lookup_insert_eq| | | | | |by destruct pl].
  - intros id. destruct (decide (id = tls_id c)) as [->|Hne]; [done|]. rewrite lookup_insert_ne by done. by intros ?%Hnone.
  - intros t. by rewrite Hcaches, lookup_empty, Hc.
  - intros v. rewrite lookup_empty. split; [by intros [? ?]|]. intros [t Ht]. by rewrite Hc in Ht.
  - intros t t' v. by rewrite Hc.
  - intros v. rewrite lookup_empty. by intros [? ?].
Qed.
End rep.

(** C13: a pool whose caches are boxes in the rows of the registry, made in a
    process that may already use the registry, behaves as the pool of [Pool]
    for any sequence of its clients' operations, thread exits included, mixed
    with any other use of the registry: the process never panics, loops or
    touches freed memory, the batches, shards and statistics are those of
    [Pool], and the box a thread's cell points to holds the thread's cache;
    when the pool is dropped, no box is left, and no batch but those still
    held. Assumed: nobody else uses the pool's column or registers its
    handler. *)
Theorem pool_on_tls {F P : Type} `{!BatchAllocation P, !AllocationLaws P, !BatchFactory F P, !FactoryLaws F P}
    p g handler (f : F) bytes a x0 m0 ops :
  cfg_ok g -> allocate f = Done (bytes, a) -> tls_rep x0 m0 -> (forall id, mx_live x0 !! id <> Some (Some handler)) ->
  mx_ids x0 + 1 + len ops < 2 ^ usize_bits ->
  exists st0 pl0, tls_pool_new p g handler m0 f = Done st0 /\ BatchPool_with_factory p g f = Done pl0 /\
    (Forall (process_ok handler (tls_id (thread_local_ptr st0))) ops ->
     exists st pl held, process_run p g handler (st0, []) ops = Done (st, held) /\
       client_run p g (pl0, []) (pool_ops ops) = Done (pl, held) /\ pl = with_caches (pl_caches pl) (tq_rest st) /\
       (forall t, pl_caches pl !! t = v ← cell_at (tm_rows (tq_meta st)) (S t) (tls_id (thread_local_ptr st)); tq_boxes st !! v) /\
       exists st', tls_pool_drop handler st = Done st' /\ tq_boxes st' = ∅ /\
         forall b, is_Some (pl_heap (tq_rest st') !! b) <-> b ∈ held).
Proof.
  intros Hg Hall R0 Hnone Hi. pose proof (len_nonneg ops).
  destruct (tls_pool_new_rep p g handler x0 m0 f Hg R0 Hnone ltac:(lia)) as (st0 & x & pl0 & E0 & Ep & R & Hinv & Hf & Hx).
  exists st0, pl0. split; [done|]. split; [done|]. intros Hops.
  destruct (process_run_rep p g handler ops x st0 pl0 [] bytes a Hg R Hinv ltac:(by rewrite Hf) ltac:(lia) Hops)
    as (st & x' & pl & held & E & Ec & R' & Hinv' & _).
  exists st, pl, held. split; [done|]. split; [done|]. split; [apply R'|]. split; [|by apply (tls_pool_drop_rep g handler x' st pl)].
  intros t. rewrite (tq_cells _ _ _ _ R'). f_equal.
  apply (rep_cells _ _ (tq_tls _ _ _ _ R')). by apply (rep_live_range _ _ _ (tq_tls _ _ _ _ R') (mk_is_Some _ _ (tq_handler _ _ _ _ R'))).
Qed.

(** Two threads use a pool in its own column [0], and one of them uses another
    column; the cache of the thread that exits goes with its batch. *)

Definition demo_process : list (process_op (P := BatchInner)) :=
  [PoolOp (CAcquire 0); OtherOp (OpNew (Some 8)); OtherOp (OpGetOrInit 0 1 99); PoolOp (CAcquire 1); PoolOp (CRelease 0 0);
   PoolOp (CExit 0); PoolOp (CAcquire 0); OtherOp (OpDrop 1)].

Lemma pool_on_tls_witness :
  exists st0 st pl held,
    tls_pool_new Debug BatchPool_cfg 7 ThreadMetaGlobal_new mkOwnedBatchFactory = Done st0 /\
    process_run Debug BatchPool_cfg 7 (st0, []) demo_process = Done (st, held) /\
    pl = with_caches (pl_caches pl) (tq_rest st) /\
    exists st', tls_pool_drop 7 st = Done st' /\ tq_boxes st' = ∅ /\
      forall b, is_Some (pl_heap (tq_rest st') !! b) <-> b ∈ held.
Proof.
  destruct (pool_on_tls Debug BatchPool_cfg 7 mkOwnedBatchFactory HEADER_SIZE BatchInner_new matrix_empty ThreadMetaGlobal_new demo_process)
    as (st0 & pl0 & E0 & _ & H).
  - by vm_compute.
  - reflexivity.
  - exact tls_rep_empty.
  - intros id. cbn. by rewrite lookup_empty.
  - reflexivity.
  - destruct H as (st & pl & held & E & _ & Hs & _ & Hd).
    + vm_compute in E0. injection E0 as <-. repeat constructor; by vm_compute.
    + exists st0, st, pl, held. exact (conj E0 (conj E (conj Hs Hd))).
Defined.

Example demo_process_runs :
  (st ← tls_pool_new Debug BatchPool_cfg 7 ThreadMetaGlobal_new mkOwnedBatchFactory;
   '(st, held) ← process_run Debug BatchPool_cfg 7 (st, []) demo_process;
   st' ← tls_pool_drop 7 st;
   Done (held, (map_to_list (tq_boxes st)).*1, tm_calls (tq_meta st'), (map_to_list (pl_heap (tq_rest st'))).*1)) =
  Done ([2; 1]%nat, [2; 1], [(7, 0); (8, 99); (7, 2); (7, 1)], [2; 1]%nat).
Proof. vm_compute. reflexivity. Qed.
