(* ===== verification/ThreadLocalThreads.v ===== *)
(** * ThreadLocalThreads: thread-local storage used by several threads at once

    The operations of [thread_local_storage/thread_local_ptr.rs] and
    [thread_local_storage/thread_local.rs] interleaved.  What a thread does
    under the registry's mutex is one step, but for the removal of a column,
    which holds the mutex for one step per row it visits; everything else a
    thread touches without the mutex, its own row and its cells, it touches in
    steps of its own.  Clients may use a column only while they own its
    [ThreadLocalPtr] and drop it when no thread is using it; the closures they
    pass may use other columns.  The functions of the steps are those of
    [ThreadLocal]. *)

From S2P Require Import Prelude ThreadLocal.

(** ** Threads *)

Inductive access := KInit | KGet | KGetOrInit | KGetOrInitMut.

(** Where a thread is inside an operation on column [c]: before it tests
    whether its row is registered, waiting to register it, before it tests the
    row's length, waiting to grow the row, holding a reference to its cell, in
    [init] (of [get_or_init_mut] or not), in the closure of [get_or_init_mut] with the object, waiting to
    remove the column, about to visit a row of it, waiting to drop its own row.
    A reference into the row's vector names the buffer [b] it points into. *)

Inductive frame :=
| FEnter (k : access) (c : Z)
| FRegister (k : access) (c : Z)
| FLen (k : access) (c : Z)
| FResize (k : access) (c : Z)
| FCell (k : access) (c : Z) (b : nat)
| FInit (mut : bool) (c : Z) (b : nat)
| FUse (c v : Z)
| FDrop (c : Z)
| FWalk (c : Z) (h : option UnrefHandler) (nx : option nat)
| FExit.

(** A thread has a stack of operations, the innermost first, since [init] and
    the closures may start others; [th_buf] is the buffer its row has now. *)

Record tthread := mkThread { th_stack : list frame; th_buf : nat; th_gone : bool }.

Definition thread_new : tthread := mkThread [] 0 false.

(** [ts_live] are the columns whose [ThreadLocalPtr] a client owns, and
    [ts_got] the objects [get] and [get_or_init] have returned. *)

Record tls_threads := mkTls {
  ts_meta : ThreadMetaGlobal;
  ts_mu : option nat;
  ts_live : gset Z;
  ts_threads : gmap nat tthread;
  ts_got : list (nat * Z * Z)
}.

Definition tls_start : tls_threads := mkTls ThreadMetaGlobal_new None ∅ ∅ [].

Definition thr (s : tls_threads) (t : nat) : tthread := default thread_new (ts_threads s !! t).
Definition stack (s : tls_threads) (t : nat) : list frame := th_stack (thr s t).

Definition set_thr (s : tls_threads) (t : nat) (th : tthread) : tls_threads :=
  mkTls (ts_meta s) (ts_mu s) (ts_live s) (<[t := th]> (ts_threads s)) (ts_got s).
Definition set_stack (s : tls_threads) (t : nat) (st : list frame) : tls_threads :=
  set_thr s t (mkThread st (th_buf (thr s t)) (th_gone (thr s t))).
Definition set_meta (s : tls_threads) (m : ThreadMetaGlobal) : tls_threads :=
  mkTls m (ts_mu s) (ts_live s) (ts_threads s) (ts_got s).
Definition set_mu (s : tls_threads) (mu : option nat) : tls_threads :=
  mkTls (ts_meta s) mu (ts_live s) (ts_threads s) (ts_got s).
Definition set_live (s : tls_threads) (live : gset Z) : tls_threads :=
  mkTls (ts_meta s) (ts_mu s) live (ts_threads s) (ts_got s).
Definition add_got (s : tls_threads) (t : nat) (c v : Z) : tls_threads :=
  mkTls (ts_meta s) (ts_mu s) (ts_live s) (ts_threads s) ((t, c, v) :: ts_got s).

(** ** Steps inside an operation *)

(* @src crates/engine/src/thread_local_storage/thread_local.rs:144-147 ThreadData::ensure_registered *)
Definition row_registered (m : ThreadMetaGlobal) (t : nat) : bool :=
  match tm_rows m !! S t with Some d => registered d | None => false end.

(** The test of the length and the growth of a row, which may move its
    buffer.  The length is tested again under the mutex. *)

(* @src crates/engine/src/thread_local_storage/thread_local.rs:256-262 ThreadData::with_tlp_ptr *)
Definition grow_row (p : profile) (m : ThreadMetaGlobal) (t : nat) (c : Z) : outcome (ThreadMetaGlobal * bool) :=
  '(_, d) ← row (tm_rows m) (Some (S t));
  if decide (len (entries d) <= c) then
    n ← add_w p usize_bits c 1;
    rows ← set_row_entries (tm_rows m) (S t) (vec_resize (entries d) n None);
    Done (set_rows m rows, true)
  else Done (m, false).

(** The cell behind a reference, and a store to it. *)

(* @src crates/engine/src/thread_local_storage/thread_local.rs:264-268 ThreadData::with_tlp_ptr *)
Definition cell_ref (s : tls_threads) (t : nat) (c : Z) (b : nat) : outcome (option Z) :=
  if negb (b =? th_buf (thr s t))%nat then UB "cell of a buffer that was freed"
  else
    '(_, d) ← row (tm_rows (ts_meta s)) (Some (S t));
    match entries d !! Z.to_nat c with None => Panic "index out of bounds" | Some cell => Done cell end.

(* @src crates/engine/src/thread_local_storage/thread_local_ptr.rs:129-129 ThreadLocalPtr::init *)
Definition cell_store (s : tls_threads) (t : nat) (c v : Z) : outcome tls_threads :=
  '(_, d) ← row (tm_rows (ts_meta s)) (Some (S t));
  rows ← set_row_entries (tm_rows (ts_meta s)) (S t) (<[Z.to_nat c := Some v]> (entries d));
  Done (set_meta s (set_rows (ts_meta s) rows)).

(** The steps of a thread [t] whose innermost operation is at [f], with the
    operations [rest] around it.  A thread that waits for the mutex does not
    move. *)

Definition locked (s : tls_threads) : bool := negb (bool_decide (ts_mu s = None)).

(* @src crates/engine/src/thread_local_storage/thread_local.rs:248-262 ThreadData::with_tlp_ptr *)
Definition run_lookup (p : profile) (s : tls_threads) (t : nat) (moved : bool) (f : frame) (rest : list frame)
  : outcome tls_threads :=
  let goto f := set_stack s t (f :: rest) in
  let m := ts_meta s in
  match f with
  | FEnter k c => Done (goto (if row_registered m t then FLen k c else FRegister k c))
  | FRegister k c =>
      if locked s then Done s
      else
        let m := tls_thread_row m t in
        rows ← ensure_registered (tm_rows m) (S t);
        Done (set_meta (goto (FLen k c)) (set_rows m rows))
  | FLen k c =>
      '(_, d) ← row (tm_rows m) (Some (S t));
      Done (goto (if decide (len (entries d) <= c) then FResize k c else FCell k c (th_buf (thr s t))))
  | FResize k c =>
      if locked s then Done s
      else
        '(m, grown) ← grow_row p m t c;
        let b := if grown && moved then S (th_buf (thr s t)) else th_buf (thr s t) in
        Done (set_meta (set_thr s t (mkThread (FCell k c b :: rest) b (th_gone (thr s t)))) m)
  | _ => Done s
  end.

(** The closures of [get], [get_or_init] and [get_or_init_mut] load the cell;
    [init] only stores. *)

(* @src crates/engine/src/thread_local_storage/thread_local_ptr.rs:134-260 ThreadLocalPtr::get_or_init_mut *)
Definition run_cell (s : tls_threads) (t : nat) (f : frame) (rest : list frame) : outcome tls_threads :=
  match f with
  | FCell k c b =>
      cell ← cell_ref s t c b;
      Done match k, cell with
           | KInit, _ => s
           | KGet, None => set_stack s t rest
           | KGet, Some v | KGetOrInit, Some v => add_got (set_stack s t rest) t c v
           | KGetOrInitMut, Some v => set_stack s t (FUse c v :: rest)
           | KGetOrInit, None => set_stack s t (FInit false c b :: rest)
           | KGetOrInitMut, None => set_stack s t (FInit true c b :: rest)
           end
  | FUse c v =>
      if bool_decide (v ∈ (tm_calls (ts_meta s)).*2) then UB "object that was reclaimed" else Done (set_stack s t rest)
  | _ => Done s
  end.

(* @src crates/engine/src/thread_local_storage/thread_local_ptr.rs:289-323 ThreadLocalPtr::remove_column *)
Definition run_remove (s : tls_threads) (t : nat) (f : frame) (rest : list frame) : outcome tls_threads :=
  match f with
  | FDrop c =>
      if locked s then Done s
      else
        '(m, h, nx) ← remove_begin (ts_meta s) c;
        Done (set_mu (set_meta (set_stack s t (FWalk c h nx :: rest)) m) (Some t))
  | FWalk c h nx =>
      if decide (nx = Some head) then Done (set_mu (set_meta (set_stack s t rest) (remove_end (ts_meta s) c)) None)
      else '(m, nx) ← walk_row (ts_meta s) h c nx; Done (set_meta (set_stack s t (FWalk c h nx :: rest)) m)
  | _ => Done s
  end.

(* @src crates/engine/src/thread_local_storage/thread_local.rs:116-123 ThreadData::drop *)
Definition run_exit (s : tls_threads) (t : nat) (rest : list frame) : outcome tls_threads :=
  if locked s then Done s
  else m ← tls_thread_exit (ts_meta s) t; Done (set_meta (set_thr s t (mkThread rest 0 true)) m).

Definition run_frame (p : profile) (s : tls_threads) (t : nat) (moved : bool) (f : frame) (rest : list frame)
  : outcome tls_threads :=
  match f with
  | FEnter _ _ | FRegister _ _ | FLen _ _ | FResize _ _ => run_lookup p s t moved f rest
  | FCell _ _ _ | FInit _ _ _ | FUse _ _ => run_cell s t f rest
  | FDrop _ | FWalk _ _ _ => run_remove s t f rest
  | FExit => run_exit s t rest
  end.

(** [init] returns [v], or the entry passed to [ThreadLocalPtr::init] is [v],
    and the thread stores it. *)

(* @src crates/engine/src/thread_local_storage/thread_local_ptr.rs:123-260 ThreadLocalPtr::get_or_init *)
Definition put_object (p : profile) (s : tls_threads) (t : nat) (v : Z) : outcome tls_threads :=
  match stack s t with
  | FCell KInit c b :: rest =>
      cell ← cell_ref s t c b;
      _ ← debug_assert p (bool_decide (cell = None)) "ptr.load(Ordering::Acquire).is_null()";
      s ← cell_store s t c v;
      Done (set_stack s t rest)
  | FInit false c b :: rest =>
      cell ← cell_ref s t c b;
      _ ← debug_assert p (bool_decide (cell = None)) "cell.load(Ordering::Acquire).is_null()";
      s ← cell_store s t c v;
      Done (add_got (set_stack s t rest) t c v)
  | FInit true c b :: rest =>
      _ ← cell_ref s t c b;
      s ← cell_store s t c v;
      Done (set_stack s t (FUse c v :: rest))
  | _ => Done s
  end.

(** ** Clients *)

(** A thread's own code runs outside every operation and in its closures. *)

Definition client_frame (f : frame) : bool := match f with FInit _ _ _ | FUse _ _ => true | _ => false end.

Definition in_client (st : list frame) : bool := match st with [] => true | f :: _ => client_frame f end.

Definition frame_column (f : frame) : option Z :=
  match f with
  | FEnter _ c | FRegister _ c | FLen _ c | FResize _ c | FCell _ c _ | FInit _ c _ | FUse c _ | FDrop c | FWalk c _ _ => Some c
  | FExit => None
  end.

Definition uses (c : Z) (st : list frame) : bool := existsb (fun f => bool_decide (frame_column f = Some c)) st.

Definition initialising (st : list frame) : bool := existsb (fun f => match f with FInit _ _ _ => true | _ => false end) st.

Definition row_has (m : ThreadMetaGlobal) (t : nat) (c : Z) : bool :=
  match tm_rows m !! S t with Some d => bool_decide (c < len (entries d)) | None => false end.

(** What the comments of [get_or_init_mut] and [init] ask of an access: the
    column exists, is not being used by the thread already, and for [init] the
    cell is empty.  With [strict], an access started inside [init] also finds
    its row long enough, which no comment of the source asks for and which
    [init_grows_row] shows to be needed. *)

Definition may_access (strict : bool) (s : tls_threads) (t : nat) (k : access) (c : Z) : bool :=
  in_client (stack s t) && bool_decide (c ∈ ts_live s) && negb (uses c (stack s t)) &&
  match k with KInit => cell_empty (ts_meta s) t c | _ => true end &&
  (negb strict || negb (initialising (stack s t)) || row_has (ts_meta s) t c).

(** And of a drop: that no thread is using the column. *)

Definition may_drop (s : tls_threads) (t : nat) (c : Z) : bool :=
  in_client (stack s t) && bool_decide (c ∈ ts_live s) &&
  forallb (fun th => negb (uses c (th_stack th.2))) (map_to_list (ts_threads s)).

Inductive tls_act :=
| ANew (h : option UnrefHandler)
| AAccess (k : access) (c : Z)
| ADrop (c : Z)
| AExit
| ARun (moved : bool)
| AObject (v : Z).

(** An action that is not allowed does nothing. *)

Definition tls_act_step (p : profile) (strict : bool) (s : tls_threads) (t : nat) (a : tls_act) : outcome tls_threads :=
  if th_gone (thr s t) then Done s
  else match a with
  | ANew h =>
      if in_client (stack s t) && bool_decide (ts_mu s = None) then
        let '(m, c) := new_with_handler (ts_meta s) h in
        Done (set_live (set_meta s m) ({[tls_id c]} ∪ ts_live s))
      else Done s
  | AAccess k c => if may_access strict s t k c then Done (set_stack s t (FEnter k c :: stack s t)) else Done s
  | ADrop c =>
      if may_drop s t c then Done (set_live (set_stack s t (FDrop c :: stack s t)) (ts_live s ∖ {[c]})) else Done s
  | AExit => if bool_decide (stack s t = []) then Done (set_stack s t [FExit]) else Done s
  | ARun moved => match stack s t with [] => Done s | f :: rest => run_frame p s t moved f rest end
  | AObject v => put_object p s t v
  end.

Fixpoint tls_threads_run (p : profile) (strict : bool) (s : tls_threads) (sched : list (nat * tls_act)) : outcome tls_threads :=
  match sched with
  | [] => Done s
  | (t, a) :: sched => s ← tls_act_step p strict s t a; tls_threads_run p strict s sched
  end.

(** ** The invariant *)

(** While a column is being removed its handler is not in the registry any
    more; the matrix the rows represent has it until the removal is over. *)

Definition erase (w : option Z) (m : ThreadMetaGlobal) : ThreadMetaGlobal :=
  match w with
  | None => m
  | Some c => without_handler m c
  end.

Definition walking (s : tls_threads) : option Z :=
  match ts_mu s with
  | None => None
  | Some t => match stack s t with FWalk c _ _ :: _ => Some c | _ => None end
  end.

Definition room (rows : gmap nat ThreadData) (t : nat) (c : Z) : Prop :=
  exists es b, body rows (S t) = Some (es, b) /\ c < len es.

Definition init_empty (x : matrix) (t : nat) (k : access) (c : Z) : Prop :=
  match k with KInit => mx_cells x !! (t, c) = None | _ => True end.

(** A walk along column [c] has [n] rows to visit, from [nx] on; those visited
    are empty at [c]. *)

Definition walk_at (x : matrix) (c : Z) (nx : option nat) (n : nat) : Prop :=
  exists A B, mx_threads x = A ++ B /\ nx = Some (first_or head (S <$> B)) /\ length B = n /\
    forall u, u ∈ A -> mx_cells x !! (u, c) = None.

(** What holds of a frame of thread [t], [x] being the matrix. *)

Definition frame_ok (x : matrix) (s : tls_threads) (t : nat) (f : frame) : Prop :=
  match f with
  | FEnter k c | FRegister k c => c ∈ ts_live s /\ init_empty x t k c
  | FLen k c | FResize k c => c ∈ ts_live s /\ init_empty x t k c /\ t ∈ mx_threads x
  | FCell k c b =>
      c ∈ ts_live s /\ init_empty x t k c /\ b = th_buf (thr s t) /\ room (tm_rows (ts_meta s)) t c
  | FInit k c b =>
      c ∈ ts_live s /\ mx_cells x !! (t, c) = None /\ b = th_buf (thr s t) /\ room (tm_rows (ts_meta s)) t c
  | FUse c v => c ∈ ts_live s /\ mx_cells x !! (t, c) = Some v
  | FDrop c => (c ∉ ts_live s) /\ is_Some (mx_live x !! c)
  | FWalk c h nx =>
      (c ∉ ts_live s) /\ mx_live x !! c = Some h /\ ts_mu s = Some t /\ exists n, walk_at x c nx n
  | FExit => True
  end.

Definition growing (f : frame) : option Z :=
  match f with FEnter _ c | FRegister _ c | FLen _ c | FResize _ c => Some c | _ => None end.

Definition dropping (f : frame) : option Z := match f with FDrop c | FWalk c _ _ => Some c | _ => None end.

(** A stack: only client code has operations inside it, on other columns, and
    those inside an initialiser find room. *)

Record stack_ok (x : matrix) (s : tls_threads) (t : nat) (st : list frame) : Prop := {
  so_frames : forall f, f ∈ st -> frame_ok x s t f;
  so_clients : forall f, f ∈ tail st -> client_frame f = true;
  so_columns : NoDup (omap frame_column st);
  so_room : forall f rest c, st = f :: rest -> initialising rest = true -> growing f = Some c -> room (tm_rows (ts_meta s)) t c;
  so_exit : forall rest, st = FExit :: rest -> rest = []
}.

(** [own] are the objects offered so far, with the threads that offered them. *)

Record tls_inv (own : list (nat * Z)) (x : matrix) (m0 : ThreadMetaGlobal) (s : tls_threads) : Prop := {
  ti_rep : tls_rep x m0;
  ti_meta : ts_meta s = erase (walking s) m0;
  ti_mu : forall t, ts_mu s = Some t -> exists c h nx rest, stack s t = FWalk c h nx :: rest;
  ti_once : once own.*2 x;
  ti_own : forall t c v, mx_cells x !! (t, c) = Some v -> (t, v) ∈ own;
  ti_got : forall t c v, (t, c, v) ∈ ts_got s -> (t, v) ∈ own;
  ti_live : forall c, c ∈ ts_live s -> is_Some (mx_live x !! c);
  ti_stacks : forall t, stack_ok x s t (stack s t);
  ti_drops : forall t t' f f' c, f ∈ stack s t -> f' ∈ stack s t' -> dropping f = Some c -> dropping f' = Some c -> t = t';
  ti_gone : forall t, th_gone (thr s t) = true -> stack s t = [] /\ t ∉ mx_threads x
}.

(** ** What a step leaves alone *)

(** The part of the state a frame of thread [u] depends on. *)

Record keeps (x : matrix) (s : tls_threads) (x' : matrix) (s' : tls_threads) (u : nat) (f : frame) : Prop := {
  kp_live : forall c, frame_column f = Some c -> (c ∈ ts_live s' <-> c ∈ ts_live s);
  kp_column : forall c, dropping f = Some c -> mx_live x' !! c = mx_live x !! c;
  kp_cell : forall c, frame_column f = Some c -> c ∈ ts_live s -> mx_cells x' !! (u, c) = mx_cells x !! (u, c);
  kp_buf : th_buf (thr s' u) = th_buf (thr s u) \/ dropping f <> None \/ exists c v, f = FUse c v;
  kp_room : forall c, room (tm_rows (ts_meta s)) u c -> room (tm_rows (ts_meta s')) u c;
  kp_thread : u ∈ mx_threads x -> u ∈ mx_threads x';
  kp_walk : forall c h nx, f = FWalk c h nx ->
    ts_mu s' = ts_mu s /\ mx_threads x' = mx_threads x /\ forall v, mx_cells x !! (v, c) = None -> mx_cells x' !! (v, c) = None
}.

Lemma frame_ok_keeps x s x' s' u f : keeps x s x' s' u f -> frame_ok x s u f -> frame_ok x' s' u f.
Proof.
  intros [Hl Hc Hcell Hbuf Hroom Ht Hw] H.
  destruct f as [k c|k c|k c|k c|k c b|k c b|c v|c|c h nx|]; cbn in *; try done;
    pose proof (Hl c eq_refl) as Hlc; rewrite Hlc.
  - destruct H as [H1 H2]. split; [done|]. destruct k; cbn in *; [by rewrite Hcell|done..].
  - destruct H as [H1 H2]. split; [done|]. destruct k; cbn in *; [by rewrite Hcell|done..].
  - destruct H as (H1 & H2 & H3). split; [done|]. split; [|by apply Ht]. destruct k; cbn in *; [by rewrite Hcell|done..].
  - destruct H as (H1 & H2 & H3). split; [done|]. split; [|by apply Ht]. destruct k; cbn in *; [by rewrite Hcell|done..].
  - destruct H as (H1 & H2 & -> & H4). split; [done|]. split; [destruct k; cbn in *; [by rewrite Hcell|done..]|].
    split; [|by apply Hroom]. by destruct Hbuf as [?|[?|(? & ? & [=])]].
  - destruct H as (H1 & H2 & -> & H4). split; [done|]. split; [by rewrite Hcell|].
    split; [|by apply Hroom]. by destruct Hbuf as [?|[?|(? & ? & [=])]].
  - destruct H as [H1 H2]. split; [done|by rewrite Hcell].
  - rewrite Hc by done. done.
  - rewrite Hc by done. destruct (Hw _ _ _ eq_refl) as (-> & Eth & Hcells). destruct H as (H1 & H2 & H3 & n & A & B & H4 & H5 & H6 & H7).
    do 3 (split; [done|]). exists n, A, B. rewrite Eth. do 3 (split; [done|]). intros v Hv. by apply Hcells, H7.
Qed.

Lemma stack_ok_keeps x s x' s' u st :
  (forall f, f ∈ st -> keeps x s x' s' u f) -> (forall c, room (tm_rows (ts_meta s)) u c -> room (tm_rows (ts_meta s')) u c) ->
  stack_ok x s u st -> stack_ok x' s' u st.
Proof.
  intros Hk Hroom [H1 H2 H3 H4 H5]. constructor; [|done|done| |done].
  - intros f Hf. eapply frame_ok_keeps; [by apply Hk|by apply H1].
  - intros f rest c E Hi Hg. by eapply Hroom, H4.
Qed.

(** Replacing the innermost frame of a stack, and leaving it. *)

Lemma stack_ok_pop x s x' s' t f rest :
  stack_ok x s t (f :: rest) -> (forall g, g ∈ rest -> keeps x s x' s' t g) -> stack_ok x' s' t rest.
Proof.
  intros [H1 H2 H3 H4 H5] Hk. cbn in H2. constructor.
  - intros g Hg. eapply frame_ok_keeps; [by apply Hk|]. apply H1. by right.
  - intros g Hg. apply H2. destruct rest; [done|by right].
  - cbn in H3. destruct (frame_column f); [by apply NoDup_cons in H3 as [_ ?]|done].
  - intros g r c -> _ Hg. by destruct g; specialize (H2 _ ltac:(by left)).
  - intros r ->. by specialize (H2 _ ltac:(by left)).
Qed.

Lemma stack_ok_push x s t f rest :
  stack_ok x s t rest -> in_client rest = true -> frame_ok x s t f -> f <> FExit ->
  (forall c, frame_column f = Some c -> c ∉ omap frame_column rest) ->
  (forall c, growing f = Some c -> initialising rest = true -> room (tm_rows (ts_meta s)) t c) ->
  stack_ok x s t (f :: rest).
Proof.
  intros [H1 H2 H3 H4 H5] Hc Hf He Hcol Hr. constructor.
  - intros g [->|Hg]%elem_of_cons; [done|by apply H1].
  - cbn. intros g Hg. destruct rest as [|g' r]; [by apply not_elem_of_nil in Hg|].
    apply elem_of_cons in Hg as [->|Hg]; [done|by apply H2].
  - cbn. destruct (frame_column f) as [c|]; [|done]. apply NoDup_cons. split; [by apply Hcol|done].
  - intros g r c [= <- <-] Hi Hg. by apply Hr.
  - intros r [= -> <-]. done.
Qed.

Lemma stack_ok_top x s x' s' t f f' rest :
  stack_ok x s t (f :: rest) -> (forall g, g ∈ rest -> keeps x s x' s' t g) -> frame_ok x' s' t f' -> f' <> FExit ->
  frame_column f' = frame_column f ->
  (forall c, growing f' = Some c -> initialising rest = true -> room (tm_rows (ts_meta s')) t c) ->
  stack_ok x' s' t (f' :: rest).
Proof.
  intros H Hk Hf He Hcol Hr. apply stack_ok_push; try done.
  - by eapply stack_ok_pop.
  - destruct rest as [|g rest]; [done|]. apply (so_clients _ _ _ _ H). by left.
  - intros c Hc. pose proof (so_columns _ _ _ _ H) as Hn. cbn in Hn. rewrite <- Hcol, Hc in Hn. by apply NoDup_cons in Hn as [? _].
Qed.

Lemma stack_columns x s t f rest g c :
  stack_ok x s t (f :: rest) -> frame_column f = Some c -> g ∈ rest -> frame_column g <> Some c.
Proof.
  intros H Hf Hg Hc. pose proof (so_columns _ _ _ _ H) as Hn. cbn in Hn. rewrite Hf in Hn. apply NoDup_cons in Hn as [Hn _].
  apply Hn, list_elem_of_omap. by exists g.
Qed.

Lemma rest_client x s t f rest g : stack_ok x s t (f :: rest) -> g ∈ rest -> (exists k c b, g = FInit k c b) \/ exists c v, g = FUse c v.
Proof. intros H Hg. pose proof (so_clients _ _ _ _ H g Hg) as Hc. destruct g; try done; [left; eauto|right; eauto]. Qed.

Lemma rest_dropping x s t f rest g : stack_ok x s t (f :: rest) -> g ∈ rest -> dropping g = None.
Proof. intros H Hg. destruct (rest_client _ _ _ _ _ _ H Hg) as [(k & c & b & ->)|(c & v & ->)]; done. Qed.

(** ** Lookups of the threads *)

Lemma thr_set_thr s t th u : thr (set_thr s t th) u = if decide (u = t) then th else thr s u.
Proof.
  unfold thr, set_thr. cbn. case_decide as E; [by rewrite E, lookup_insert_eq|by rewrite lookup_insert_ne].
Qed.

Lemma stack_set_stack s t st u : stack (set_stack s t st) u = if decide (u = t) then st else stack s u.
Proof. unfold stack, set_stack. rewrite thr_set_thr. by case_decide. Qed.

(** A thread that is not walking does not hold the mutex. *)

Lemma not_walking own x m0 s t f rest :
  tls_inv own x m0 s -> stack s t = f :: rest -> (forall c h nx, f <> FWalk c h nx) -> ts_mu s <> Some t.
Proof. intros H E Hf Hm. destruct (ti_mu _ _ _ _ H _ Hm) as (c & h & nx & r & E'). rewrite E in E'. injection E' as ->. by eapply Hf. Qed.

Lemma walk_holds own x m0 s u c h nx : tls_inv own x m0 s -> FWalk c h nx ∈ stack s u -> ts_mu s = Some u.
Proof. intros H Hf. by destruct (so_frames _ _ _ _ (ti_stacks _ _ _ _ H u) _ Hf) as (_ & _ & ? & _). Qed.

(** What one step of thread [t] must establish. *)

Lemma tls_inv_update own x m0 s own' x' m0' s' t :
  tls_inv own x m0 s ->
  tls_rep x' m0' -> ts_meta s' = erase (walking s') m0' ->
  (forall u, ts_mu s' = Some u -> exists c h nx rest, stack s' u = FWalk c h nx :: rest) ->
  once own'.*2 x' -> (forall u c v, mx_cells x' !! (u, c) = Some v -> (u, v) ∈ own') ->
  (forall u c v, (u, c, v) ∈ ts_got s' -> (u, v) ∈ own') ->
  (forall c, c ∈ ts_live s' -> is_Some (mx_live x' !! c)) ->
  (forall u, u <> t -> thr s' u = thr s u) ->
  (forall u f, u <> t -> f ∈ stack s u -> keeps x s x' s' u f) ->
  (forall u c, u <> t -> room (tm_rows (ts_meta s)) u c -> room (tm_rows (ts_meta s')) u c) ->
  (forall u, u <> t -> u ∈ mx_threads x' -> u ∈ mx_threads x) ->
  stack_ok x' s' t (stack s' t) ->
  (forall f c, f ∈ stack s' t -> dropping f = Some c ->
     (exists g, g ∈ stack s t /\ dropping g = Some c) \/ forall u g, u <> t -> g ∈ stack s u -> dropping g <> Some c) ->
  (th_gone (thr s' t) = true -> stack s' t = [] /\ t ∉ mx_threads x') ->
  tls_inv own' x' m0' s'.
Proof.
  intros H Hrep Hmeta Hmu Honce Hown Hgot Hlive Hthr Hk Hroom Hthreads Hst Hdrop Hgone.
  assert (Hs : forall u, u <> t -> stack s' u = stack s u) by (intros u Hu; unfold stack; by rewrite Hthr).
  constructor; try done.
  - intros u. destruct (decide (u = t)) as [->|Hu]; [done|]. rewrite Hs by done.
    apply (stack_ok_keeps x s); [intros f Hf; by apply Hk|intros c; by apply Hroom|by apply (ti_stacks _ _ _ _ H)].
  - intros u u' f f' c Hf Hf' Ef Ef'. destruct (decide (u = t)) as [->|Hu], (decide (u' = t)) as [->|Hu']; [done| | |].
    + rewrite Hs in Hf' by done. destruct (Hdrop _ _ Hf Ef) as [(g & Hg & Eg)|Hn]; [|by eapply Hn in Hf'].
      by eapply (ti_drops _ _ _ _ H).
    + rewrite Hs in Hf by done. destruct (Hdrop _ _ Hf' Ef') as [(g & Hg & Eg)|Hn]; [|by eapply Hn in Hf].
      by eapply (ti_drops _ _ _ _ H).
    + rewrite Hs in Hf, Hf' by done. by eapply (ti_drops _ _ _ _ H).
  - intros u Hg. destruct (decide (u = t)) as [->|Hu]; [by apply Hgone|]. rewrite Hthr in Hg by done. rewrite Hs by done.
    destruct (ti_gone _ _ _ _ H _ Hg) as [? Hn]. split; [done|]. intros Hi. by apply Hn, Hthreads.
Qed.

(** ** Steps that touch nothing shared *)

Lemma keeps_same x s s' u f :
  ts_live s' = ts_live s -> ts_mu s' = ts_mu s -> ts_meta s' = ts_meta s -> th_buf (thr s' u) = th_buf (thr s u) -> keeps x s x s' u f.
Proof. intros E1 E2 E3 E4. constructor; rewrite ?E1, ?E2, ?E3; try done. by left. Qed.

Lemma thr_set_stack s t st u :
  th_buf (thr (set_stack s t st) u) = th_buf (thr s u) /\ th_gone (thr (set_stack s t st) u) = th_gone (thr s u).
Proof. unfold set_stack. rewrite thr_set_thr. by case_decide as E; [rewrite E|]. Qed.

Lemma walking_other s s' t : ts_mu s' = ts_mu s -> ts_mu s <> Some t -> (forall u, u <> t -> stack s' u = stack s u) -> walking s' = walking s.
Proof.
  intros E Ht Hs. unfold walking. rewrite E. destruct (ts_mu s) as [u|]; [|done]. rewrite Hs; [done|]. congruence.
Qed.

Lemma inv_restack own x m0 s t st :
  tls_inv own x m0 s -> th_gone (thr s t) = false -> ts_mu s <> Some t ->
  stack_ok x (set_stack s t st) t st ->
  (forall f c, f ∈ st -> dropping f = Some c -> exists g, g ∈ stack s t /\ dropping g = Some c) ->
  tls_inv own x m0 (set_stack s t st).
Proof.
  intros H Hg Hm Hst Hd.
  assert (Hs : forall u, u <> t -> stack (set_stack s t st) u = stack s u) by (intros u Hu; by rewrite stack_set_stack, decide_False).
  assert (Et : stack (set_stack s t st) t = st) by (by rewrite stack_set_stack, decide_True).
  apply (tls_inv_update own x m0 s _ _ _ _ t); try done.
  - by apply H.
  - rewrite (walking_other s _ t) by done. apply H.
  - intros u Hu. cbn in Hu. rewrite Hs by (intros ->; done). by apply (ti_mu _ _ _ _ H).
  - apply H.
  - apply (ti_own _ _ _ _ H).
  - apply (ti_got _ _ _ _ H).
  - apply (ti_live _ _ _ _ H).
  - intros u Hu. unfold set_stack. by rewrite thr_set_thr, decide_False.
  - intros u f _ _. apply keeps_same; try done. apply thr_set_stack.
  - by rewrite Et.
  - rewrite Et. intros f c Hf Hc. left. by eapply Hd.
  - rewrite (proj2 (thr_set_stack _ _ _ _)), Hg. done.
Qed.

Lemma inv_goto own x m0 s t f f' rest :
  tls_inv own x m0 s -> th_gone (thr s t) = false -> stack s t = f :: rest ->
  (forall c h nx, f <> FWalk c h nx) -> f' <> FExit -> frame_ok x (set_stack s t (f' :: rest)) t f' ->
  frame_column f' = frame_column f -> dropping f' = dropping f ->
  (forall c, growing f' = Some c -> initialising rest = true -> room (tm_rows (ts_meta s)) t c) ->
  tls_inv own x m0 (set_stack s t (f' :: rest)).
Proof.
  intros H Hg E Hw He Hf Hc Hd Hr. pose proof (ti_stacks _ _ _ _ H t) as Hst. rewrite E in Hst.
  apply inv_restack; [done|done|by eapply not_walking| |].
  - eapply stack_ok_top; try done. intros g _. apply keeps_same; try done. apply thr_set_stack.
  - rewrite E. intros g c [->|Hg']%elem_of_cons Hgc; [exists f; split; [by left|congruence]|exists g; split; [by right|done]].
Qed.

Lemma inv_pop own x m0 s t f rest :
  tls_inv own x m0 s -> th_gone (thr s t) = false -> stack s t = f :: rest ->
  (forall c h nx, f <> FWalk c h nx) -> tls_inv own x m0 (set_stack s t rest).
Proof.
  intros H Hg E Hw. pose proof (ti_stacks _ _ _ _ H t) as Hst. rewrite E in Hst.
  apply inv_restack; [done|done|by eapply not_walking| |].
  - eapply stack_ok_pop; [done|]. intros g _. apply keeps_same; try done. apply thr_set_stack.
  - intros g c Hg'. by rewrite (rest_dropping _ _ _ _ _ _ Hst Hg').
Qed.

Lemma inv_add_got own x m0 s t c v : tls_inv own x m0 s -> (t, v) ∈ own -> tls_inv own x m0 (add_got s t c v).
Proof.
  intros [] Hv. constructor; try done.
  - intros u c' v' [[= -> -> ->]|Hi]%elem_of_cons; [done|by eapply ti_got0].
  - intros u. by destruct (ti_stacks0 u).
Qed.

(** What the rows say of thread [t]. *)

Lemma erase_rows w m : tm_rows (erase w m) = tm_rows m.
Proof. by destruct w. Qed.

Lemma inv_rows own x m0 s : tls_inv own x m0 s -> tm_rows (ts_meta s) = tm_rows m0 /\ tm_calls (ts_meta s) = tm_calls m0.
Proof. intros H. rewrite (ti_meta _ _ _ _ H). by destruct (walking s). Qed.

Lemma room_row own x m0 s t c : tls_inv own x m0 s -> room (tm_rows (ts_meta s)) t c ->
  exists d, tm_rows (ts_meta s) !! S t = Some d /\ c < len (entries d) /\ t ∈ mx_threads x /\ registered d = true.
Proof.
  intros H (es & b & Hb & Hc). pose proof Hb as Hb'. rewrite (proj1 (inv_rows _ _ _ _ H)) in Hb'.
  apply (rep_rows _ _ (ti_rep _ _ _ _ H)) in Hb' as (Ht & -> & _). destruct (row_of_body _ _ _ _ Hb) as (d & Hd & <- & ?).
  by exists d.
Qed.

Lemma inv_cell own x m0 s t c : tls_inv own x m0 s -> c ∈ ts_live s -> 0 <= c /\ mx_cells x !! (t, c) = cell_at (tm_rows (ts_meta s)) (S t) c.
Proof.
  intros H Hc. assert (0 <= c) by (eapply rep_live_range; [apply H|by apply (ti_live _ _ _ _ H)]). split; [done|].
  rewrite (proj1 (inv_rows _ _ _ _ H)). by apply (rep_cells _ _ (ti_rep _ _ _ _ H)).
Qed.

(** The load of a cell a thread has a reference to. *)

Lemma cell_ref_ok own x m0 s t c b : tls_inv own x m0 s -> c ∈ ts_live s -> b = th_buf (thr s t) ->
  room (tm_rows (ts_meta s)) t c -> cell_ref s t c b = Done (mx_cells x !! (t, c)).
Proof.
  intros H Hc -> Hr. unfold cell_ref. rewrite Nat.eqb_refl. cbn [negb].
  destruct (room_row _ _ _ _ _ _ H Hr) as (d & Hd & Hlen & _). rewrite (row_Some _ _ _ Hd). cbn [mbind outcome_bind].
  destruct (inv_cell _ _ _ _ t _ H Hc) as [Hpos Hcell]. rewrite Hcell. unfold cell_at. rewrite (body_row _ _ _ Hd). cbn.
  destruct (lookup_lt_is_Some_2 (entries d) (Z.to_nat c)) as [o Ho]; [unfold len in Hlen; lia|]. by rewrite Ho.
Qed.

(** ** Finding the cell *)

Lemma unlocked s : locked s = false -> ts_mu s = None.
Proof. unfold locked. intros H%negb_false_iff%bool_decide_eq_true. done. Qed.

Lemma unlocked_meta own x m0 s : tls_inv own x m0 s -> ts_mu s = None -> ts_meta s = m0.
Proof. intros H Hm. rewrite (ti_meta _ _ _ _ H). unfold walking. by rewrite Hm. Qed.

Lemma initialising_in rest k c b : FInit k c b ∈ rest -> initialising rest = true.
Proof. intros H. apply existsb_exists. exists (FInit k c b). split; [by apply list_elem_of_In|done]. Qed.

Lemma row_registered_ok own x m0 s t : tls_inv own x m0 s -> row_registered (ts_meta s) t = true -> t ∈ mx_threads x.
Proof.
  intros H. unfold row_registered. rewrite (proj1 (inv_rows _ _ _ _ H)). destruct (tm_rows m0 !! S t) as [d|] eqn:E; [|done]. intros _.
  by apply (rep_rows _ _ (ti_rep _ _ _ _ H)) with (es := entries d) (b := registered d), body_row.
Qed.

(** Thread [t] has the mutex for a moment: the matrix may change, but not for
    the frames of the others. *)

Lemma inv_critical own x m0 s x' m' t f' rest b :
  tls_inv own x m0 s -> ts_mu s = None -> th_gone (thr s t) = false ->
  let s' := set_meta (set_thr s t (mkThread (f' :: rest) b (th_gone (thr s t)))) m' in
  (forall c h nx, f' <> FWalk c h nx) ->
  tls_rep x' m' -> once own.*2 x' -> mx_cells x' = mx_cells x -> mx_live x' = mx_live x ->
  (forall u, u ∈ mx_threads x -> u ∈ mx_threads x') -> (forall u, u <> t -> u ∈ mx_threads x' -> u ∈ mx_threads x) ->
  (forall u c, room (tm_rows (ts_meta s)) u c -> room (tm_rows m') u c) ->
  stack_ok x' s' t (f' :: rest) ->
  (forall g c, g ∈ f' :: rest -> dropping g = Some c -> exists g', g' ∈ stack s t /\ dropping g' = Some c) ->
  tls_inv own x' m' s'.
Proof.
  intros H Hm Hg s' Hw Hrep Honce Ecells Elive Hth Hth' Hroom Hst Hd.
  assert (Et : stack s' t = f' :: rest) by (unfold stack; subst s'; unfold set_meta, thr; cbn; by rewrite lookup_insert_eq).
  assert (Eu : forall u, u <> t -> thr s' u = thr s u).
  { intros u Hu. subst s'. unfold set_meta, thr. cbn. by rewrite lookup_insert_ne. }
  apply (tls_inv_update own x m0 s _ _ _ _ t); try done.
  - subst s'. cbn. unfold walking. cbn. by rewrite Hm.
  - intros u. subst s'. cbn. by rewrite Hm.
  - rewrite Ecells. intros u. apply (ti_own _ _ _ _ H).
  - intros u. apply (ti_got _ _ _ _ H).
  - rewrite Elive. apply (ti_live _ _ _ _ H).
  - intros u f Hu Hf. constructor; rewrite ?Ecells, ?Elive, ?(Eu _ Hu); try done; [by left|by apply Hroom|by apply Hth|].
    intros c h nx ->. apply (walk_holds _ _ _ _ _ _ _ _ H) in Hf. congruence.
  - intros u c _. apply Hroom.
  - by rewrite Et.
  - rewrite Et. intros g c Hg' Hc. left. by eapply Hd.
  - subst s'. unfold set_meta, thr. cbn. rewrite lookup_insert_eq. cbn. fold (thr s t). by rewrite Hg.
Qed.

Lemma set_stack_meta s t st m : set_meta (set_stack s t st) m = set_meta (set_thr s t (mkThread st (th_buf (thr s t)) (th_gone (thr s t)))) m.
Proof. done. Qed.

Lemma register_ok own x m0 s t k c rest :
  tls_inv own x m0 s -> ts_mu s = None -> th_gone (thr s t) = false -> stack s t = FRegister k c :: rest ->
  exists rows, ensure_registered (tm_rows (tls_thread_row (ts_meta s) t)) (S t) = Done rows /\
    tls_inv own (mx_touch x t) (set_rows (tls_thread_row m0 t) rows)
      (set_meta (set_stack s t (FLen k c :: rest)) (set_rows (tls_thread_row (ts_meta s) t) rows)).
Proof.
  intros H Hm Hg E. pose proof (unlocked_meta _ _ _ _ H Hm) as Em. rewrite Em.
  destruct (tls_touch _ _ t (ti_rep _ _ _ _ H)) as (rows & Er & Hrep & Hbody). exists rows. split; [done|].
  pose proof (ti_stacks _ _ _ _ H t) as Hst. rewrite E in Hst.
  assert (Hth : forall u, u ∈ mx_threads x -> u ∈ mx_threads (mx_touch x t)) by (intros u Hu; unfold mx_touch; case_decide; [done|by right]).
  assert (Hroom : forall u i, room (tm_rows (ts_meta s)) u i -> room rows u i).
  { rewrite Em. intros u i (es & b & Hb & Hi). exists es, b. split; [|done]. rewrite Hbody; [done|]. by rewrite Hb. }
  assert (Esame : mx_cells (mx_touch x t) = mx_cells x /\ mx_live (mx_touch x t) = mx_live x) by (unfold mx_touch; by case_decide).
  destruct Esame as [Ecells Elive].
  rewrite set_stack_meta. apply (inv_critical own x m0); try done.
  - apply once_touch, H.
  - intros u Hu. unfold mx_touch. case_decide; [done|]. by intros [->|?]%elem_of_cons.
  - apply (stack_ok_top x s _ _ t (FRegister k c)); try done.
    + intros g Hg'. constructor; rewrite ?Ecells, ?Elive; try done; [|by apply Hroom|by apply Hth|].
      * left. unfold set_meta, thr. cbn. by rewrite lookup_insert_eq.
      * intros c' h nx ->. by destruct (rest_client _ _ _ _ _ _ Hst Hg') as [(? & ? & ? & ?)|(? & ? & ?)].
    + destruct (so_frames _ _ _ _ Hst (FRegister k c)) as [H1 H2]; [by left|]. cbn. split; [done|]. split; [|apply in_touch].
      destruct k; cbn in *; by rewrite ?Ecells.
    + intros c' [= <-] Hi. apply Hroom. by eapply (so_room _ _ _ _ Hst).
  - rewrite E. intros g c' [->|Hg']%elem_of_cons Hc; [done|]. by rewrite (rest_dropping _ _ _ _ _ _ Hst Hg') in Hc.
Qed.

(** Growing a row. *)

Lemma mx_set_empty x t c : mx_cells x !! (t, c) = None -> mx_set x t c None = x.
Proof. intros H. rewrite <- H. apply mx_set_same. Qed.

Lemma grow_row_ok p x m t c : tls_rep x m -> t ∈ mx_threads x -> is_Some (mx_live x !! c) -> mx_ids x < 2 ^ usize_bits ->
  exists m' grown, grow_row p m t c = Done (m', grown) /\ tls_rep x m' /\ room (tm_rows m') t c /\
    (forall u i, room (tm_rows m) u i -> room (tm_rows m') u i) /\ (grown = true -> ~ room (tm_rows m) t c).
Proof.
  intros Hrep Ht Hlive Hids. destruct (rep_row _ _ _ Hrep Ht) as (es & Hb & Hlen). pose proof (rep_live_range _ _ _ Hrep Hlive) as Hc.
  destruct (row_of_body _ _ _ _ Hb) as (d & Hd & <- & _). unfold grow_row. rewrite (row_Some _ _ _ Hd). cbn [mbind outcome_bind].
  case_decide as Hcase; cycle 1.
  { exists m, false. split; [done|]. split; [done|]. split; [|done]. exists (entries d), true. split; [done|lia]. }
  rewrite add_w_small by lia. cbn [mbind outcome_bind].
  rewrite vec_resize_grow by lia. set (es' := entries d ++ replicate (Z.to_nat (c + 1 - len (entries d))) None).
  destruct (set_row_entries_spec (tm_rows m) (S t) (entries d) es' true Hb) as (rows & E & B & N & P). rewrite E.
  cbn [mbind outcome_bind]. exists (set_rows m rows), true. split; [done|].
  assert (Hroom : body rows (S t) = Some (es', true)) by (by rewrite B, decide_True).
  assert (Hnew : c < len es') by (unfold es', len; autorewrite with lengths; unfold len in *; lia).
  assert (Hnone : mx_cells x !! (t, c) = None).
  { rewrite (rep_cells _ _ Hrep) by lia. unfold cell_at. rewrite Hb. cbn. by rewrite lookup_ge_None_2 by (unfold len in Hcase; lia). }
  split; [|split; [by exists es', true|split]].
  - rewrite <- (mx_set_empty x t c Hnone). eapply (tls_store x m t c); [done|done|done|done|]. fold es'.
    rewrite list_insert_id; [done|]. unfold es'. rewrite lookup_app_r by (unfold len in Hcase; lia).
    apply lookup_replicate. unfold len in *. split; [done|lia].
  - intros u i (es1 & b1 & Hb1 & Hi). cbn. unfold room. rewrite B. case_decide as Eu; [|by exists es1, b1].
    injection Eu as ->. rewrite Hb in Hb1. injection Hb1 as <- <-. exists es', true. split; [done|].
    unfold es', len in *. autorewrite with lengths. lia.
  - intros _ (es1 & b1 & Hb1 & Hi). rewrite Hb in Hb1. injection Hb1 as <- <-. lia.
Qed.

Lemma resize_ok p own x m0 s t k c rest moved :
  tls_inv own x m0 s -> mx_ids x < 2 ^ usize_bits -> ts_mu s = None -> th_gone (thr s t) = false ->
  stack s t = FResize k c :: rest ->
  exists m' s', run_lookup p s t moved (FResize k c) rest = Done s' /\ tls_inv own x m' s'.
Proof.
  intros H Hids Hm Hg E. pose proof (unlocked_meta _ _ _ _ H Hm) as Em.
  pose proof (ti_stacks _ _ _ _ H t) as Hst. rewrite E in Hst.
  destruct (so_frames _ _ _ _ Hst (FResize k c)) as (H1 & H2 & H3); [by left|].
  destruct (grow_row_ok p _ _ t c (ti_rep _ _ _ _ H) H3 (ti_live _ _ _ _ H _ H1) Hids) as (m' & grown & Eg & Hrep & Hr & Hroom & Hgrown).
  rewrite <- Em in Eg, Hroom, Hgrown. cbn [run_lookup]. unfold locked. rewrite bool_decide_eq_true_2 by done. cbn [negb].
  rewrite Eg. cbn [mbind outcome_bind]. do 2 eexists. split; [done|].
  apply (inv_critical own x m0); try done; [by apply H| |].
  - apply (stack_ok_top x s _ _ t (FResize k c)); try done.
    + intros g Hg'. constructor; try done.
      * destruct (rest_client _ _ _ _ _ _ Hst Hg') as [(k' & c' & b & ->)|(c' & v & ->)]; [|right; right; eauto].
        left. unfold set_meta, thr. cbn. rewrite lookup_insert_eq. cbn. fold (thr s t).
        destruct grown; [|done]. destruct (Hgrown eq_refl). apply (so_room _ _ _ _ Hst _ _ _ eq_refl); [|done]. by eapply initialising_in.
      * by apply Hroom.
    + cbn. split; [done|]. split; [done|]. split; [|done]. unfold set_meta, thr. cbn. by rewrite lookup_insert_eq.
  - rewrite E. intros g c' [->|Hg']%elem_of_cons Hc; [done|]. by rewrite (rest_dropping _ _ _ _ _ _ Hst Hg') in Hc.
Qed.

Lemma run_lookup_ok p own x m0 s t moved f rest :
  tls_inv own x m0 s -> mx_ids x < 2 ^ usize_bits -> th_gone (thr s t) = false -> stack s t = f :: rest ->
  exists s' x' m0', run_lookup p s t moved f rest = Done s' /\ tls_inv own x' m0' s' /\ mx_ids x' = mx_ids x.
Proof.
  intros H Hids Hg E. pose proof (ti_stacks _ _ _ _ H t) as Hst. rewrite E in Hst.
  pose proof (so_frames _ _ _ _ Hst f ltac:(by left)) as Hf.
  destruct f as [k c|k c|k c|k c| | | | | |]; try (exists s, x, m0; done); cbn [run_lookup].
  - do 3 eexists. split; [done|]. split; [|done]. destruct Hf as [H1 H2]. destruct (row_registered (ts_meta s) t) eqn:Er.
    + eapply inv_goto; try done; [cbn; eauto using row_registered_ok|]. intros c' [= <-] Hi. by apply (so_room _ _ _ _ Hst _ _ _ eq_refl Hi).
    + eapply inv_goto; try done. intros c' [= <-] Hi. by apply (so_room _ _ _ _ Hst _ _ _ eq_refl Hi).
  - destruct (locked s) eqn:El; [by exists s, x, m0|]. apply unlocked in El.
    destruct (register_ok _ _ _ _ _ _ _ _ H El Hg E) as (rows & -> & Hi). cbn [mbind outcome_bind].
    do 3 eexists. split; [done|]. split; [done|]. unfold mx_touch. by case_decide.
  - destruct Hf as (H1 & H2 & H3). destruct (rep_row _ _ _ (ti_rep _ _ _ _ H) H3) as (es & Hb & _).
    rewrite <- (proj1 (inv_rows _ _ _ _ H)) in Hb. destruct (row_of_body _ _ _ _ Hb) as (d & Hd & Ed & _).
    rewrite (row_Some _ _ _ Hd). cbn [mbind outcome_bind]. rewrite Ed. do 3 eexists. split; [done|]. split; [|done]. case_decide as Hlen.
    + eapply inv_goto; try done. intros c' [= <-] Hi. by apply (so_room _ _ _ _ Hst _ _ _ eq_refl Hi).
    + eapply inv_goto; try done. cbn. do 2 (split; [done|]). split; [by destruct (thr_set_stack s t (FCell k c (th_buf (thr s t)) :: rest) t)|].
      exists es, true. split; [done|lia].
  - destruct (locked s) eqn:El; [by exists s, x, m0|]. pose proof (unlocked _ El) as Hm.
    destruct (resize_ok p own x m0 s t k c rest moved) as (m' & s' & Es & Hi); try done.
    cbn [run_lookup] in Es. rewrite El in Es. rewrite Es. by exists s', x, m'.
Qed.

(** ** Using the cell *)

Lemma inv_weaken own own' x m0 s : tls_inv own x m0 s -> own ⊆ own' -> tls_inv own' x m0 s.
Proof.
  intros [] Hs. constructor; try done.
  - eapply once_weaken; [done|]. intros v (k & -> & Hk)%list_elem_of_fmap. apply list_elem_of_fmap_2. by apply Hs.
  - intros t c v Hv. by eapply Hs, ti_own0.
  - intros t c v Hv. by eapply Hs, ti_got0.
Qed.

Lemma inv_not_reclaimed own x m0 s t c v : tls_inv own x m0 s -> mx_cells x !! (t, c) = Some v -> v ∉ (tm_calls (ts_meta s)).*2.
Proof.
  intros H Hc. rewrite (proj2 (inv_rows _ _ _ _ H)), (rep_calls _ _ (ti_rep _ _ _ _ H)).
  apply (once_disjoint _ _ (ti_once _ _ _ _ H)). by exists (t, c).
Qed.

Lemma run_cell_ok own x m0 s t f rest :
  tls_inv own x m0 s -> th_gone (thr s t) = false -> stack s t = f :: rest ->
  exists s', run_cell s t f rest = Done s' /\ tls_inv own x m0 s'.
Proof.
  intros H Hg E. pose proof (ti_stacks _ _ _ _ H t) as Hst. rewrite E in Hst.
  pose proof (so_frames _ _ _ _ Hst f ltac:(by left)) as Hf.
  destruct f as [| | | |k c b| |c v| | |]; try (exists s; done); cbn [run_cell].
  - destruct Hf as (H1 & H2 & H3 & H4). rewrite (cell_ref_ok _ _ _ _ _ _ _ H) by done. cbn [mbind outcome_bind].
    eexists. split; [done|]. destruct k, (mx_cells x !! (t, c)) as [v|] eqn:Ec; try done.
    + apply inv_add_got; [by eapply inv_pop|by eapply (ti_own _ _ _ _ H)].
    + by eapply inv_pop.
    + apply inv_add_got; [by eapply inv_pop|by eapply (ti_own _ _ _ _ H)].
    + eapply inv_goto; try done. cbn. do 2 (split; [done|]). split; [by rewrite (proj1 (thr_set_stack _ _ _ _))|done].
    + by eapply inv_goto.
    + eapply inv_goto; try done. cbn. do 2 (split; [done|]). split; [by rewrite (proj1 (thr_set_stack _ _ _ _))|done].
  - destruct Hf as [H1 H2]. rewrite bool_decide_eq_false_2 by by eapply inv_not_reclaimed. eexists. split; [done|]. by eapply inv_pop.
Qed.

Lemma cell_store_rep own x m0 s t c v :
  tls_inv own x m0 s -> c ∈ ts_live s -> room (tm_rows (ts_meta s)) t c ->
  exists rows, cell_store s t c v = Done (set_meta s (set_rows (ts_meta s) rows)) /\
    tls_rep (mx_set x t c (Some v)) (set_rows m0 rows) /\
    forall u i, room (tm_rows (ts_meta s)) u i -> room rows u i.
Proof.
  intros H Hl Hr. destruct (room_row _ _ _ _ _ _ H Hr) as (d & Hd & Hlen & Ht & Hreg). unfold cell_store.
  rewrite (row_Some _ _ _ Hd). cbn [mbind outcome_bind].
  assert (Hb : body (tm_rows (ts_meta s)) (S t) = Some (entries d, true)) by (by rewrite (body_row _ _ _ Hd), Hreg).
  destruct (set_row_entries_spec (tm_rows (ts_meta s)) (S t) (entries d) (<[Z.to_nat c := Some v]> (entries d)) true Hb) as (rows & Er & B & N & P).
  rewrite Er. cbn [mbind outcome_bind]. exists rows. split; [done|]. split.
  - rewrite (proj1 (inv_rows _ _ _ _ H)) in Hb, Er. eapply (tls_store x m0 t c); [apply H|done|by apply (ti_live _ _ _ _ H)|done|].
    rewrite (Z2Nat.nonpos (c + 1 - len (entries d))) by lia. cbn [replicate]. by rewrite app_nil_r.
  - intros u i (es & b & Hb' & Hi). unfold room. rewrite B. case_decide as Eu; [|by exists es, b]. injection Eu as ->.
    rewrite Hb in Hb'. injection Hb' as <- <-. eexists _, true. split; [done|]. unfold len. by rewrite length_insert.
Qed.

Lemma mx_set_other x t c v u i : i <> c \/ u <> t -> mx_cells (mx_set x t c v) !! (u, i) = mx_cells x !! (u, i).
Proof. intros Hne. cbn. rewrite lookup_partial_alter_ne; [done|]. intros [= -> ->]. by destruct Hne. Qed.

Lemma cell_store_ok own x m0 s t c v f st :
  tls_inv own x m0 s -> c ∈ ts_live s -> room (tm_rows (ts_meta s)) t c -> mx_cells x !! (t, c) = None -> v ∉ own.*2 ->
  th_gone (thr s t) = false -> stack s t = f :: st -> frame_column f = Some c -> dropping f = None ->
  exists s1, cell_store s t c v = Done s1 /\
    forall st', (st' = st \/ st' = FUse c v :: st) -> exists m', tls_inv ((t, v) :: own) (mx_set x t c (Some v)) m' (set_stack s1 t st').
Proof.
  intros H Hl Hr Hc Hv Hg E Hfc Hfd. destruct (cell_store_rep _ _ _ _ t c v H Hl Hr) as (rows & -> & Hrep & Hroom).
  eexists. split; [done|]. intros st' Hst'. pose proof (ti_stacks _ _ _ _ H t) as Hst. rewrite E in Hst.
  exists (set_rows m0 rows). set (s' := set_stack _ t st').
  assert (Et : stack s' t = st') by (by subst s'; rewrite stack_set_stack, decide_True).
  assert (Eu : forall u, u <> t -> thr s' u = thr s u) by (intros u Hu; subst s'; unfold set_stack; by rewrite thr_set_thr, decide_False).
  pose proof (mx_set_other x t c (Some v)) as Hcol.
  assert (Hm : ts_mu s <> Some t) by (eapply not_walking; [done|done|intros ? ? ? ->; done]).
  assert (Hkeep : forall g, g ∈ st -> keeps x s (mx_set x t c (Some v)) s' t g).
  { intros g Hg'. constructor; try done; [|left; by subst s'; rewrite (proj1 (thr_set_stack _ _ _ _))|by apply Hroom|].
    - intros i Hi _. apply Hcol. left. intros ->. by eapply (stack_columns _ _ _ _ _ _ _ Hst).
    - intros c' h nx ->. by destruct (rest_client _ _ _ _ _ _ Hst Hg') as [(? & ? & ? & ?)|(? & ? & ?)]. }
  apply (tls_inv_update own x m0 s _ _ _ _ t); try done.
  - rewrite (walking_other s _ t) by (try done; intros u Hu; unfold stack; by rewrite Eu).
    change (ts_meta s') with (set_rows (ts_meta s) rows). rewrite (ti_meta _ _ _ _ H). by destruct (walking s).
  - intros u Hu. change (ts_mu s') with (ts_mu s) in Hu. unfold stack. rewrite Eu by congruence. by apply (ti_mu _ _ _ _ H).
  - apply once_set; [apply H|done|done].
  - intros u i w. destruct (decide ((u, i) = (t, c))) as [[= -> ->]|Hne].
    + cbn. rewrite lookup_partial_alter_eq. intros [= <-]. by left.
    + rewrite Hcol by (destruct (decide (u = t)); [left; congruence|by right]). intros Hw. right. by eapply (ti_own _ _ _ _ H).
  - intros u i w Hw. right. by eapply (ti_got _ _ _ _ H).
  - apply (ti_live _ _ _ _ H).
  - intros u g Hu Hg'. constructor; rewrite ?(Eu u Hu); try done; [intros i _ _; apply Hcol; by right|by left|by apply Hroom|].
    intros c' h nx ->. split; [done|]. split; [done|]. intros w Hw. rewrite Hcol; [done|]. left. intros ->.
    destruct (so_frames _ _ _ _ (ti_stacks _ _ _ _ H u) _ Hg') as [Hn _]. done.
  - intros u i _. apply Hroom.
  - rewrite Et. destruct Hst' as [-> | ->]; [by eapply stack_ok_pop|]. eapply stack_ok_top; try done.
    cbn. split; [done|]. by rewrite lookup_partial_alter_eq.
  - rewrite Et. intros g i Hg' Hi. exfalso. destruct Hst' as [-> | ->]; [by rewrite (rest_dropping _ _ _ _ _ _ Hst Hg') in Hi|].
    apply elem_of_cons in Hg' as [->|Hg']; [done|]. by rewrite (rest_dropping _ _ _ _ _ _ Hst Hg') in Hi.
  - subst s'. rewrite (proj2 (thr_set_stack _ _ _ _)). change (thr (set_meta s _) t) with (thr s t). by rewrite Hg.
Qed.

Lemma put_object_ok p own x m0 s t v :
  tls_inv own x m0 s -> v ∉ own.*2 -> th_gone (thr s t) = false ->
  exists s' x' m0', put_object p s t v = Done s' /\ tls_inv ((t, v) :: own) x' m0' s' /\ mx_ids x' = mx_ids x.
Proof.
  intros H Hv Hg. pose proof (ti_stacks _ _ _ _ H t) as Hst. unfold put_object.
  assert (Hskip : exists s' x' m0', Done s = Done s' /\ tls_inv ((t, v) :: own) x' m0' s' /\ mx_ids x' = mx_ids x).
  { exists s, x, m0. split; [done|]. split; [|done]. eapply inv_weaken; [done|]. intros k Hk. by right. }
  destruct (stack s t) as [|f rest] eqn:E; [done|]. pose proof (so_frames _ _ _ _ Hst f ltac:(by left)) as Hf.
  destruct f as [| | | |k c b|k c b| | | |]; try done; destruct k; try done; destruct Hf as (H1 & H2 & H3 & H4); cbn [init_empty] in H2;
    rewrite (cell_ref_ok _ _ _ _ _ _ _ H) by done; cbn [mbind outcome_bind]; rewrite ?debug_assert_true by (by rewrite H2);
    cbn [mbind outcome_bind];
    match type of E with _ = ?f :: _ => destruct (cell_store_ok own x m0 s t c v f rest) as (s1 & -> & Hs1); [done..|] end;
    cbn [mbind outcome_bind].
  - destruct (Hs1 rest) as [m' Hm']; [by left|]. do 3 eexists. split; [done|]. by split.
  - destruct (Hs1 (FUse c v :: rest)) as [m' Hm']; [by right|]. do 3 eexists. split; [done|]. by split.
  - destruct (Hs1 rest) as [m' Hm']; [by left|]. do 3 eexists. split; [done|]. split; [apply inv_add_got; [done|by left]|done].
Qed.

(** ** Removing a column *)

Definition mx_clear (x : matrix) (u : nat) (c : Z) (h : option UnrefHandler) : matrix :=
  mkMatrix (mx_threads x) (mx_ids x) (mx_live x) (filter (fun k => k.1 <> (u, c)) (mx_cells x))
    (mx_calls x ++ emptied (fun u => (u, c)) (fun _ => h) (mx_cells x) [u]).

Lemma lookup_mx_clear x u c h k : mx_cells (mx_clear x u c h) !! k = if decide (k <> (u, c)) then mx_cells x !! k else None.
Proof. exact (lookup_filter_key (fun k => k <> (u, c)) (mx_cells x) k). Qed.

Lemma walk_row_rep x m0 A b B c h :
  tls_rep x m0 -> mx_threads x = A ++ b :: B -> mx_live x !! c = Some h ->
  exists rows', tls_rep (mx_clear x b c h) (mkMeta rows' (unref_handler_map m0) (next_tls_id m0) (tls_id_free_list m0) (mx_calls (mx_clear x b c h))) /\
    walk_row (erase (Some c) m0) h c (Some (S b)) =
      Done (mkMeta rows' (delete c (unref_handler_map m0)) (next_tls_id m0) (tls_id_free_list m0) (mx_calls (mx_clear x b c h)),
            Some (first_or head (S <$> B))) /\
    (forall u i, room (tm_rows m0) u i -> room rows' u i).
Proof.
  intros Hrep Eth Hlive. pose proof (rep_live_range _ _ _ Hrep (mk_is_Some _ _ Hlive)) as Hc.
  pose proof (rep_ring _ _ Hrep) as Hring. rewrite Eth, fmap_app, fmap_cons in Hring.
  destruct (rep_row _ _ b Hrep) as (es & Hb & _); [rewrite Eth; apply elem_of_app; right; by left|].
  destruct (row_of_body _ _ _ _ Hb) as (d & Hd & _). destruct (ring_neighbours _ _ _ _ _ Hring Hd) as [_ En].
  destruct (walk_row_spec (erase (Some c) m0) h c (S b) d) as (rows & E & [N P] & Bd); [lia|done|]. cbn [erase without_handler tm_rows unref_handler_map next_tls_id tls_id_free_list tm_calls] in Bd, N, P.
  assert (Ecalls : tm_calls m0 ++ column_calls (tm_rows m0) h c [S b] = mx_calls (mx_clear x b c h)).
  { cbn [mx_clear mx_calls]. rewrite (rep_calls _ _ Hrep). f_equal. unfold column_calls, emptied. cbn [omap list_omap].
    by rewrite (rep_cells _ _ Hrep) by lia. }
  exists rows. split; [|split; [by rewrite E, En, <- Ecalls|]].
  - destruct Hrep as [Hr Hrows Hcells Hclive ? ? ? ? ? ?].
    constructor; cbn [mx_clear mx_threads mx_ids mx_live tm_rows unref_handler_map next_tls_id tls_id_free_list tm_calls]; try done.
    + by eapply ring_same.
    + intros t es' r. rewrite Bd. case_decide; [|apply Hrows]. intros ([es0 b0] & E0 & [= -> ->])%fmap_Some.
      apply Hrows in E0 as (? & ? & ?). cbn. unfold len in *. rewrite length_insert. done.
    + intros t i Hi. change (filter _ (mx_cells x)) with (mx_cells (mx_clear x b c h)). rewrite lookup_mx_clear, Hcells by done.
      unfold cell_at. rewrite Bd. destruct (decide (S t = S b)) as [[= ->]|Hne].
      * rewrite clear_cell_at by lia. destruct (decide (i = c)) as [->|Hne]; [by rewrite !decide_False by (intros []; done)|].
        by rewrite !decide_True by congruence.
      * by rewrite decide_True by congruence.
    + intros t i v [Hv _]%map_lookup_filter_Some. by eapply Hclive.
  - intros u i (es' & r & Hb' & Hi). unfold room. rewrite Bd. case_decide as Eu; [|by exists es', r]. rewrite Hb'. cbn.
    eexists _, r. split; [done|]. unfold len. by rewrite length_insert.
Qed.

(** The rest of a stack does not change while its top frame works on another
    column. *)

Lemma keeps_rest x s x' s' t f rest g c :
  stack_ok x s t (f :: rest) -> frame_column f = Some c -> g ∈ rest ->
  ts_live s' = ts_live s -> th_buf (thr s' t) = th_buf (thr s t) ->
  (forall i, i <> c -> mx_cells x' !! (t, i) = mx_cells x !! (t, i)) ->
  (forall i, room (tm_rows (ts_meta s)) t i -> room (tm_rows (ts_meta s')) t i) ->
  (t ∈ mx_threads x -> t ∈ mx_threads x') -> keeps x s x' s' t g.
Proof.
  intros Hst Hf Hg El Eb Hcells Hroom Hth. constructor; rewrite ?El; try done.
  - intros i. by rewrite (rest_dropping _ _ _ _ _ _ Hst Hg).
  - intros i Hi _. apply Hcells. intros ->. by eapply (stack_columns _ _ _ _ _ _ _ Hst).
  - by left.
  - intros c' h nx ->. by destruct (rest_client _ _ _ _ _ _ Hst Hg) as [(? & ? & ? & ?)|(? & ? & ?)].
Qed.

(** The steps of a removal: thread [t] replaces its stack by [st'], and only
    column [c], which nobody else is using, changes. *)

Lemma inv_removal own x m0 s x' m0' m' mu' t f rest st' c :
  tls_inv own x m0 s -> th_gone (thr s t) = false -> stack s t = f :: rest -> dropping f = Some c ->
  (ts_mu s = None \/ ts_mu s = Some t) -> (mu' = None \/ mu' = Some t) ->
  let s' := set_mu (set_meta (set_stack s t st') m') mu' in
  tls_rep x' m0' -> m' = erase (walking s') m0' -> (mu' = Some t -> exists c h nx r, st' = FWalk c h nx :: r) ->
  once own.*2 x' -> mx_threads x' = mx_threads x ->
  (forall u i v, mx_cells x' !! (u, i) = Some v -> mx_cells x !! (u, i) = Some v) ->
  (forall u i, i <> c -> mx_cells x' !! (u, i) = mx_cells x !! (u, i)) ->
  (forall i, i <> c -> mx_live x' !! i = mx_live x !! i) ->
  (forall u i, room (tm_rows (ts_meta s)) u i -> room (tm_rows m') u i) ->
  st' = rest \/ (exists f', st' = f' :: rest /\ frame_ok x' s' t f' /\ dropping f' = Some c) ->
  tls_inv own x' m0' s'.
Proof.
  intros H Hg E Hf Hm Hm' s' Hrep Emeta Hwalk Honce Eth Hsub Hcells Hlive Hroom Hst'.
  pose proof (ti_stacks _ _ _ _ H t) as Hst. rewrite E in Hst.
  assert (Hfc : frame_column f = Some c) by (by destruct f).
  assert (Hc : c ∉ ts_live s) by (destruct f; try done; injection Hf as ->; by destruct (so_frames _ _ _ _ Hst _ ltac:(by left)) as [? _]).
  assert (Et : stack s' t = st') by (change (stack (set_stack s t st') t = st'); by rewrite stack_set_stack, decide_True).
  assert (Eu : forall u, u <> t -> thr s' u = thr s u).
  { intros u Hu. change (thr (set_stack s t st') u = thr s u). unfold set_stack. by rewrite thr_set_thr, decide_False. }
  assert (Hkeep : forall g, g ∈ rest -> keeps x s x' s' t g).
  { intros g Hg'. eapply keeps_rest; [done|done|done|done|apply thr_set_stack|by apply Hcells|by apply Hroom|by rewrite Eth]. }
  apply (tls_inv_update own x m0 s _ _ _ _ t); try done.
  - intros u Hu. change (mu' = Some u) in Hu. destruct Hm' as [->|Hm']; [done|]. assert (u = t) as -> by congruence. rewrite Et. by apply Hwalk.
  - intros u i v Hv%Hsub. by eapply (ti_own _ _ _ _ H).
  - intros u. apply (ti_got _ _ _ _ H).
  - intros i Hi. rewrite Hlive by (intros ->; done). by apply (ti_live _ _ _ _ H).
  - intros u g Hu Hg'. constructor; rewrite ?(Eu u Hu), ?Eth; try done.
    + intros i Hi. apply Hlive. intros ->. apply Hu. eapply (ti_drops _ _ _ _ H); [done|rewrite E; by left|done|done].
    + intros i _ Hi. apply Hcells. intros ->. done.
    + by left.
    + by apply Hroom.
    + intros i h nx ->. exfalso. apply (walk_holds _ _ _ _ _ _ _ _ H) in Hg'. destruct Hm as [Hm|Hm]; congruence.
  - intros u i _. apply Hroom.
  - intros u _. by rewrite Eth.
  - rewrite Et. destruct Hst' as [->|(f' & -> & Hf' & Ed)]; [by eapply stack_ok_pop|].
    apply (stack_ok_top x s _ _ t f); try done; [by destruct f'|destruct f', f; cbn in *; congruence|by destruct f'].
  - rewrite Et, E. intros g i Hg' Hi. left. destruct Hst' as [->|(f' & -> & _ & Ed)].
    + exists g. split; [by right|done].
    + apply elem_of_cons in Hg' as [->|Hg']; [exists f; split; [by left|congruence]|exists g; split; [by right|done]].
  - intros Hgone. change (th_gone (thr (set_stack s t st') t) = true) in Hgone. rewrite (proj2 (thr_set_stack _ _ _ _)), Hg in Hgone. done.
Qed.

Lemma run_drop_ok own x m0 s t c rest :
  tls_inv own x m0 s -> th_gone (thr s t) = false -> stack s t = FDrop c :: rest ->
  exists s', run_remove s t (FDrop c) rest = Done s' /\ tls_inv own x m0 s'.
Proof.
  intros H Hg E. pose proof (ti_stacks _ _ _ _ H t) as Hst. rewrite E in Hst.
  pose proof (so_frames _ _ _ _ Hst _ ltac:(by left)) as Hf. pose proof (ti_rep _ _ _ _ H) as Hrep. cbn [run_remove].
  destruct (locked s) eqn:El; [by exists s|]. apply unlocked in El. rewrite (unlocked_meta _ _ _ _ H El).
  destruct Hf as [H1 [h Hh]]. unfold remove_begin. rewrite (rep_handlers _ _ Hrep), Hh. cbn [mjoin option_join tm_rows].
  destruct (linked_row _ _ head _ _ (proj1 (rep_ring _ _ Hrep))) as [d Hd]; [by left|].
  pose proof (linked_first _ _ _ _ (proj1 (rep_ring _ _ Hrep))) as Hn. rewrite (nxt_row _ _ _ Hd) in Hn. injection Hn as Hn.
  rewrite (row_Some _ _ _ Hd). cbn [mbind outcome_bind]. eexists. split; [done|].
  fold (without_handler m0 c). rewrite Hn. set (f' := FWalk c h _).
  apply (inv_removal own x m0 s x m0 (without_handler m0 c) (Some t) t (FDrop c) rest (f' :: rest) c); try done; [by left|by right| | | | |].
  - unfold walking. cbn. change (stack _ t) with (stack (set_stack s t (f' :: rest)) t). by rewrite stack_set_stack, decide_True.
  - intros _. unfold f'. eauto.
  - by apply H.
  - intros u i. by rewrite (unlocked_meta _ _ _ _ H El).
  - right. exists f'. split; [done|]. split; [|done]. cbn. do 3 (split; [done|]). exists (length (mx_threads x)), [], (mx_threads x). do 3 (split; [done|]).
    intros u Hu. by apply not_elem_of_nil in Hu.
Qed.

Lemma walk_meta own x m0 s t c h nx rest :
  tls_inv own x m0 s -> stack s t = FWalk c h nx :: rest -> ts_mu s = Some t -> ts_meta s = without_handler m0 c.
Proof. intros H E Hm. rewrite (ti_meta _ _ _ _ H). unfold walking. by rewrite Hm, E. Qed.

Lemma walk_end_ok own x m0 s t c h nx rest :
  tls_inv own x m0 s -> th_gone (thr s t) = false -> stack s t = FWalk c h nx :: rest -> walk_at x c nx 0 ->
  exists s' x' m0', run_remove s t (FWalk c h nx) rest = Done s' /\ tls_inv own x' m0' s' /\ mx_ids x' = mx_ids x /\
    ts_mu s' = None /\ stack s' t = rest.
Proof.
  intros H Hg E (A & B & Eth & -> & HB & Hempty). apply nil_length_inv in HB as ->. rewrite app_nil_r in Eth. subst A.
  pose proof (ti_stacks _ _ _ _ H t) as Hst. rewrite E in Hst.
  destruct (so_frames _ _ _ _ Hst _ ltac:(by left)) as (H1 & H2 & H3 & _). pose proof (ti_rep _ _ _ _ H) as Hrep. cbn [run_remove].
  pose proof (walk_meta _ _ _ _ _ _ _ _ _ H E H3) as Em. rewrite decide_True by done. rewrite Em.
  set (x' := mkMatrix (mx_threads x) (mx_ids x) (delete c (mx_live x)) (mx_cells x) (mx_calls x)).
  exists (set_mu (set_meta (set_stack s t rest) (remove_end (without_handler m0 c) c)) None), x', (remove_end (without_handler m0 c) c).
  split; [done|]. split; [|split; [done|split; [done|]]].
  - apply (inv_removal own x m0 s x' (remove_end (without_handler m0 c) c) _ None t _ rest rest c H Hg E);
      try done; [by right|by left|by apply (remove_end_rep x m0 c h)| | |by rewrite Em|by left].
    + destruct (ti_once _ _ _ _ H). by constructor.
    + intros i Hi. cbn. by rewrite lookup_delete_ne.
  - change (stack (set_stack s t rest) t = rest). by rewrite stack_set_stack, decide_True.
Qed.

Lemma walk_next_ok own x m0 s t c h nx rest n :
  tls_inv own x m0 s -> th_gone (thr s t) = false -> stack s t = FWalk c h nx :: rest -> walk_at x c nx (S n) ->
  exists s' x' m0' nx', run_remove s t (FWalk c h nx) rest = Done s' /\ tls_inv own x' m0' s' /\ mx_ids x' = mx_ids x /\
    stack s' t = FWalk c h nx' :: rest /\ walk_at x' c nx' n.
Proof.
  intros H Hg E (A & [|b B] & Eth & -> & [= HB] & Hempty). pose proof (ti_stacks _ _ _ _ H t) as Hst. rewrite E in Hst.
  destruct (so_frames _ _ _ _ Hst _ ltac:(by left)) as (H1 & H2 & H3 & _). pose proof (ti_rep _ _ _ _ H) as Hrep. cbn [run_remove].
  pose proof (walk_meta _ _ _ _ _ _ _ _ _ H E H3) as Em. change (first_or head (S <$> b :: B)) with (S b) in *.
  rewrite decide_False by (intros [=]). destruct (walk_row_rep x m0 A b B c h Hrep Eth H2) as (rows & Hrep' & Ew & Hroom).
  rewrite Em. cbn [erase] in Ew. rewrite Ew. cbn [mbind outcome_bind].
  assert (Hat : walk_at (mx_clear x b c h) c (Some (first_or head (S <$> B))) n).
  { exists (A ++ [b]), B. split; [by rewrite <- app_assoc|]. do 2 (split; [done|]). intros u Hu. rewrite lookup_mx_clear.
    case_decide as Hn; [|done]. apply elem_of_app in Hu as [Hu|Hu%list_elem_of_singleton]; [by apply Hempty|]. by rewrite Hu in Hn. }
  set (f' := FWalk c h _). eexists _, (mx_clear x b c h), _, _. split; [done|]. split; [|split; [done|split; [|done]]].
  2: { change (stack (set_stack s t (f' :: rest)) t = f' :: rest). by rewrite stack_set_stack, decide_True. }
  change (set_meta ?s1 ?m) with (set_mu (set_meta s1 m) (ts_mu s1)).
  change (ts_mu (set_stack s t (f' :: rest))) with (ts_mu s). rewrite H3.
  eapply (inv_removal own x m0 s (mx_clear x b c h) _ _ (Some t) t _ rest (f' :: rest) c); try done; [by right|by right| | | | | | |].
  - unfold walking. cbn. change (stack _ t) with (stack (set_stack s t (f' :: rest)) t). by rewrite stack_set_stack, decide_True.
  - intros _. unfold f'. eauto.
  - apply (once_emptied own.*2 x _ (fun u => (u, c)) (fun _ => h) [b] (fun k => k <> (b, c))); try done; [apply H|apply NoDup_singleton| | | |].
    + intros u u'. by intros [=].
    + intros u Hu%list_elem_of_singleton Hn. rewrite Hu in Hn. by apply Hn.
    + apply H.
    + intros k. apply lookup_mx_clear.
  - intros u i v. rewrite lookup_mx_clear. by case_decide.
  - intros u i Hi. rewrite lookup_mx_clear, decide_True; [done|]. congruence.
  - by rewrite Em.
  - right. exists f'. split; [done|]. split; [|done]. cbn. do 3 (split; [done|]). by exists n.
Qed.

Lemma run_remove_ok own x m0 s t f rest :
  tls_inv own x m0 s -> th_gone (thr s t) = false -> stack s t = f :: rest ->
  exists s' x' m0', run_remove s t f rest = Done s' /\ tls_inv own x' m0' s' /\ mx_ids x' = mx_ids x.
Proof.
  intros H Hg E. destruct f as [| | | | | | |c|c h nx|]; try (exists s, x, m0; done).
  - destruct (run_drop_ok _ _ _ _ _ _ _ H Hg E) as (s' & -> & H'). by exists s', x, m0.
  - pose proof (so_frames _ _ _ _ (ti_stacks _ _ _ _ H t) (FWalk c h nx)) as (_ & _ & _ & n & Hn); [rewrite E; by left|]. destruct n as [|n].
    + destruct (walk_end_ok _ _ _ _ _ _ _ _ _ H Hg E Hn) as (s' & x' & m' & ? & ? & ? & _). by exists s', x', m'.
    + destruct (walk_next_ok _ _ _ _ _ _ _ _ _ _ H Hg E Hn) as (s' & x' & m' & nx' & ? & ? & ? & _). by exists s', x', m'.
Qed.

(** ** Exit, and what clients start *)

Lemma run_exit_ok own x m0 s t rest :
  tls_inv own x m0 s -> th_gone (thr s t) = false -> stack s t = FExit :: rest ->
  exists s' x' m0', run_exit s t rest = Done s' /\ tls_inv own x' m0' s' /\ mx_ids x' = mx_ids x.
Proof.
  intros H Hg E. pose proof (ti_stacks _ _ _ _ H t) as Hst. rewrite E in Hst. unfold run_exit.
  destruct (locked s) eqn:El; [by exists s, x, m0|]. apply unlocked in El. rewrite (unlocked_meta _ _ _ _ H El).
  pose proof (so_exit _ _ _ _ Hst _ eq_refl) as ->.
  destruct (tls_thread_exit_rep _ _ t (ti_rep _ _ _ _ H)) as (m' & -> & Hrep & Hbody). cbn [mbind outcome_bind].
  set (s' := set_meta _ m'). exists s', (mx_exit x t), m'. split; [done|]. split; [|done].
  assert (Et : thr s' t = mkThread [] 0 true) by (change (thr (set_thr s t (mkThread [] 0 true)) t = mkThread [] 0 true); by rewrite thr_set_thr, decide_True).
  assert (Eu : forall u, u <> t -> thr s' u = thr s u).
  { intros u Hu. change (thr (set_thr s t (mkThread [] 0 true)) u = thr s u). by rewrite thr_set_thr, decide_False. }
  assert (Hroom : forall u i, u <> t -> room (tm_rows (ts_meta s)) u i -> room (tm_rows m') u i).
  { intros u i Hu. rewrite (unlocked_meta _ _ _ _ H El). unfold room. by rewrite Hbody by congruence. }
  apply (tls_inv_update own x m0 s _ _ _ _ t); try done.
  - unfold walking. change (ts_mu s') with (ts_mu s). by rewrite El.
  - intros u Hu. change (ts_mu s' = Some u) with (ts_mu s = Some u) in Hu. congruence.
  - apply (once_emptied own.*2 x _ (fun id => (t, id)) (fun id => mjoin (mx_live x !! id)) (seqZ 0 (mx_ids x)) (fun k => k.1 <> t)); try done.
    + apply H.
    + apply NoDup_seqZ.
    + intros a b. by intros [= ->].
    + intros a _ Hn. by apply Hn.
    + cbn. apply NoDup_filter, H.
    + intros [u i]. apply lookup_mx_exit.
  - intros u i v. rewrite lookup_mx_exit. case_decide; [|done]. apply (ti_own _ _ _ _ H).
  - intros u. apply (ti_got _ _ _ _ H).
  - apply (ti_live _ _ _ _ H).
  - intros u f Hu Hf. constructor; rewrite ?(Eu u Hu); try done.
    + intros i _ _. by rewrite lookup_mx_exit, decide_True.
    + by left.
    + intros i. by apply Hroom.
    + intros Hi. apply list_elem_of_filter. by split.
    + intros i h nx ->. apply (walk_holds _ _ _ _ _ _ _ _ H) in Hf. congruence.
  - intros u Hu Hi. by apply list_elem_of_filter in Hi as [_ ?].
  - unfold stack. rewrite Et. constructor; cbn; try done.
    + intros f Hf. by apply not_elem_of_nil in Hf.
    + intros f Hf. by apply not_elem_of_nil in Hf.
    + apply NoDup_nil_2.
  - unfold stack. rewrite Et. intros f c Hf. by apply not_elem_of_nil in Hf.
  - unfold stack. rewrite Et. split; [done|]. intros Hi. apply list_elem_of_filter in Hi as [Hi _]. by apply Hi.
Qed.

Lemma new_column_ok own x m0 s h :
  tls_inv own x m0 s -> mx_ids x + 1 < 2 ^ usize_bits -> ts_mu s = None ->
  exists x' m0', tls_inv own x' m0' (set_live (set_meta s (new_with_handler (ts_meta s) h).1)
                                       ({[tls_id (new_with_handler (ts_meta s) h).2]} ∪ ts_live s)) /\ mx_ids x' <= mx_ids x + 1.
Proof.
  intros H Hids Hm. pose proof (unlocked_meta _ _ _ _ H Hm) as Em. rewrite Em.
  destruct (new_with_handler_rep _ _ h (ti_rep _ _ _ _ H) Hids) as (ids' & [Hnone _] & Hle & Hrep).
  assert (Erows : tm_rows (new_with_handler m0 h).1 = tm_rows m0) by (unfold new_with_handler; by repeat case_match; simplify_eq/=).
  destruct (new_with_handler m0 h) as [m' [c]]. cbn [fst snd tls_id] in *.
  set (x' := mkMatrix _ ids' _ _ _) in Hrep. exists x', m'. split; [|done].
  assert (Hlive : forall i, i ∈ ts_live s -> i <> c).
  { intros i Hi%(ti_live _ _ _ _ H) ->. rewrite Hnone in Hi. by destruct Hi. }
  set (s' := set_live _ _).
  assert (Hkeep : forall u f, f ∈ stack s u -> keeps x s x' s' u f).
  { intros u f Hf. pose proof (so_frames _ _ _ _ (ti_stacks _ _ _ _ H u) _ Hf) as Hok.
    assert (Hc : frame_column f <> Some c).
    { destruct f; cbn in Hok |- *; intros [=]; subst; try (by destruct Hok as [Hi%Hlive _]).
      - destruct Hok as [_ Hi]. rewrite Hnone in Hi. by destruct Hi.
      - destruct Hok as (_ & Hi & _). congruence. }
    constructor; try done.
    - intros i Hi. cbn. rewrite elem_of_union, elem_of_singleton. split; [|by right]. intros [->|?]; done.
    - intros i Hi. cbn. rewrite lookup_insert_ne; [done|]. intros ->. apply Hc. by destruct f.
    - by left.
    - intros i. cbn. by rewrite Erows, Em. }
  constructor; try done.
  - unfold walking. cbn. by rewrite Hm.
  - intros u Hu. change (ts_mu s' = Some u) with (ts_mu s = Some u) in Hu. congruence.
  - destruct (ti_once _ _ _ _ H). by constructor.
  - apply (ti_own _ _ _ _ H).
  - apply (ti_got _ _ _ _ H).
  - intros i. cbn. rewrite elem_of_union, elem_of_singleton. destruct (decide (i = c)) as [->|Hne]; [by rewrite lookup_insert_eq|].
    intros [?|Hi]; [done|]. rewrite lookup_insert_ne by done. by apply (ti_live _ _ _ _ H).
  - intros u. apply (stack_ok_keeps x s); [by apply Hkeep| |apply (ti_stacks _ _ _ _ H)]. intros i. cbn. by rewrite Erows, Em.
  - apply (ti_drops _ _ _ _ H).
  - apply (ti_gone _ _ _ _ H).
Qed.

Lemma uses_column c st : uses c st = false -> c ∉ omap frame_column st.
Proof.
  intros Hu (f & Hf & Hc)%list_elem_of_omap. assert (uses c st = true); [|congruence].
  apply existsb_exists. exists f. split; [by apply list_elem_of_In|by apply bool_decide_eq_true].
Qed.

Lemma may_access_ok own x m0 s t k c :
  tls_inv own x m0 s -> th_gone (thr s t) = false -> may_access true s t k c = true ->
  tls_inv own x m0 (set_stack s t (FEnter k c :: stack s t)).
Proof.
  intros H Hg Ha. unfold may_access in Ha. apply andb_true_iff in Ha as [[[[Hin Hl]%andb_true_iff Hu]%andb_true_iff Hk]%andb_true_iff Hr].
  apply bool_decide_eq_true in Hl. apply negb_true_iff, uses_column in Hu. cbn [negb orb] in Hr.
  apply inv_restack; [done|done| | |].
  - intros Hm. destruct (ti_mu _ _ _ _ H _ Hm) as (c' & h & nx & rest & E). by rewrite E in Hin.
  - apply stack_ok_push; try done.
    + apply (stack_ok_keeps x s); [|done|apply (ti_stacks _ _ _ _ H)]. intros f _. apply keeps_same; try done. apply thr_set_stack.
    + cbn. split; [done|]. destruct k; try done. apply bool_decide_eq_true in Hk. cbn. by rewrite (proj2 (inv_cell _ _ _ _ t _ H Hl)).
    + by intros i [= <-].
    + intros i [= <-] Hi. rewrite Hi in Hr. cbn in Hr. unfold row_has in Hr. unfold room, body. cbn.
      destruct (tm_rows (ts_meta s) !! S t) as [d|]; [|done]. apply bool_decide_eq_true in Hr. cbn. by eexists _, _.
  - intros f i [->|Hf]%elem_of_cons Hi; [done|]. by exists f.
Qed.

Lemma may_drop_ok own x m0 s t c :
  tls_inv own x m0 s -> th_gone (thr s t) = false -> may_drop s t c = true ->
  tls_inv own x m0 (set_live (set_stack s t (FDrop c :: stack s t)) (ts_live s ∖ {[c]})).
Proof.
  intros H Hg Ha. unfold may_drop in Ha. apply andb_true_iff in Ha as [[Hin Hl]%andb_true_iff Hall]. apply bool_decide_eq_true in Hl.
  assert (Hu : forall u f, f ∈ stack s u -> frame_column f <> Some c).
  { intros u f Hf Hc. unfold stack, thr in Hf. destruct (ts_threads s !! u) as [th|] eqn:Eu; [|by apply not_elem_of_nil in Hf].
    rewrite forallb_forall in Hall. specialize (Hall (u, th)). rewrite <- list_elem_of_In, elem_of_map_to_list in Hall.
    apply Hall in Eu. apply negb_true_iff, uses_column in Eu. apply Eu, list_elem_of_omap. by exists f. }
  set (s' := set_live _ _).
  assert (Et : stack s' t = FDrop c :: stack s t).
  { change (stack (set_stack s t (FDrop c :: stack s t)) t = FDrop c :: stack s t). by rewrite stack_set_stack, decide_True. }
  assert (Hm : ts_mu s <> Some t).
  { intros Hm. destruct (ti_mu _ _ _ _ H _ Hm) as (c' & h & nx & rest & E). by rewrite E in Hin. }
  assert (Hkeep : forall u f, f ∈ stack s u -> keeps x s x s' u f).
  { intros u f Hf. constructor; try done; [|left; apply (thr_set_stack s t)].
    intros i Hi. cbn. rewrite elem_of_difference, elem_of_singleton. split; [by intros []|]. intros ?. split; [done|]. intros ->.
    by eapply Hu. }
  assert (Eu : forall u, u <> t -> thr s' u = thr s u).
  { intros u Hut. change (thr (set_stack s t (FDrop c :: stack s t)) u = thr s u). unfold set_stack. by rewrite thr_set_thr, decide_False. }
  apply (tls_inv_update own x m0 s _ _ _ _ t); try done.
  - apply H.
  - rewrite (walking_other s s' t) by (try done; intros u Hut; unfold stack; by rewrite Eu). apply H.
  - intros u Hmu. change (ts_mu s = Some u) in Hmu. unfold stack. rewrite Eu by congruence. by apply (ti_mu _ _ _ _ H).
  - apply H.
  - intros u. apply (ti_own _ _ _ _ H).
  - intros u. apply (ti_got _ _ _ _ H).
  - intros i [Hi _]%elem_of_difference. by apply (ti_live _ _ _ _ H).
  - intros u f _. apply Hkeep.
  - rewrite Et. apply stack_ok_push; try done.
    + apply (stack_ok_keeps x s); [by apply Hkeep|done|apply (ti_stacks _ _ _ _ H)].
    + cbn. split; [|by apply (ti_live _ _ _ _ H)]. rewrite elem_of_difference, elem_of_singleton. by intros [].
    + intros i [= <-] (f & Hf & Hc)%list_elem_of_omap. by eapply Hu.
  - rewrite Et. intros f i [->|Hf]%elem_of_cons Hi; [|left; by exists f]. right. injection Hi as <-. intros u g _ Hg' Hc.
    eapply Hu; [done|]. by destruct g.
  - intros Hgone. change (th_gone (thr (set_stack s t (FDrop c :: stack s t)) t) = true) in Hgone.
    rewrite (proj2 (thr_set_stack _ _ _ _)) in Hgone. congruence.
Qed.

(** ** Every schedule *)

Definition news (a : nat * tls_act) : Z := match a.2 with ANew _ => 1 | _ => 0 end.
Definition offer (a : nat * tls_act) : list (nat * Z) := match a.2 with AObject v => [(a.1, v)] | _ => [] end.

Lemma tls_act_step_ok p own x m0 s t a :
  tls_inv own x m0 s -> mx_ids x + 1 < 2 ^ usize_bits -> (forall v, a = AObject v -> v ∉ own.*2) ->
  exists s' x' m0', tls_act_step p true s t a = Done s' /\ tls_inv (offer (t, a) ++ own) x' m0' s' /\ mx_ids x' <= mx_ids x + news (t, a).
Proof.
  intros H Hids Hn. unfold tls_act_step.
  assert (Hskip : exists s' x' m0', Done s = Done s' /\ tls_inv (offer (t, a) ++ own) x' m0' s' /\ mx_ids x' <= mx_ids x + news (t, a)).
  { exists s, x, m0. split; [done|]. split; [|unfold news; case_match; lia]. eapply inv_weaken; [done|]. intros k Hk. apply elem_of_app. by right. }
  destruct (th_gone (thr s t)) eqn:Hg; [done|]. destruct a as [h|k c|c| |moved|v]; cbn [offer news fst snd app] in *.
  - destruct (in_client (stack s t) && bool_decide (ts_mu s = None)) eqn:E; [|done].
    apply andb_true_iff in E as [_ Hm%bool_decide_eq_true]. destruct (new_column_ok _ _ _ _ h H Hids Hm) as (x' & m' & H' & Hle).
    destruct (new_with_handler (ts_meta s) h) as [m c]. by eexists _, x', m'.
  - destruct (may_access true s t k c) eqn:E; [|done]. do 3 eexists. split; [done|]. split; [by apply may_access_ok|lia].
  - destruct (may_drop s t c) eqn:E; [|done]. do 3 eexists. split; [done|]. split; [by apply may_drop_ok|lia].
  - case_bool_decide as E; [|done]. eexists _, x, m0. split; [done|]. split; [|lia]. apply inv_restack; try done.
    + intros Hm. destruct (ti_mu _ _ _ _ H _ Hm) as (c' & h & nx & rest & E'). by rewrite E in E'.
    + constructor; cbn; try done.
      * by intros f ->%list_elem_of_singleton.
      * intros f Hf. by apply not_elem_of_nil in Hf.
      * apply NoDup_nil_2.
      * by intros f rest c [= <- <-].
      * by intros rest [= <-].
    + by intros f c ->%list_elem_of_singleton.
  - destruct (stack s t) as [|f rest] eqn:E; [done|]. unfold run_frame.
    assert (Hids' : mx_ids x < 2 ^ usize_bits) by lia.
    pose proof (run_lookup_ok p _ _ _ _ _ moved _ _ H Hids' Hg E) as Hlookup.
    pose proof (run_cell_ok _ _ _ _ _ _ _ H Hg E) as (s' & Hcell & Hi).
    pose proof (run_remove_ok _ _ _ _ _ _ _ H Hg E) as Hremove.
    destruct f; try (destruct Hlookup as (s1 & x1 & m1 & -> & ? & ?); exists s1, x1, m1; split; [done|]; split; [done|lia]);
      try (rewrite Hcell; exists s', x, m0; split; [done|]; split; [done|lia]);
      try (destruct Hremove as (s1 & x1 & m1 & -> & ? & ?); exists s1, x1, m1; split; [done|]; split; [done|lia]).
    destruct (run_exit_ok _ _ _ _ _ _ H Hg E) as (s1 & x1 & m1 & -> & ? & ?). exists s1, x1, m1. split; [done|]. split; [done|lia].
  - assert (Hv : v ∉ own.*2) by (by apply Hn). destruct (put_object_ok p _ _ _ _ t v H Hv Hg) as (s' & x' & m' & -> & H' & Hle).
    exists s', x', m'. split; [done|]. split; [done|lia].
Qed.

Lemma tls_threads_run_ok p : forall sched own x m0 s,
  tls_inv own x m0 s -> mx_ids x + len sched < 2 ^ usize_bits -> NoDup ((sched ≫= offer).*2 ++ own.*2) ->
  exists s' own' x' m0', tls_threads_run p true s sched = Done s' /\ tls_inv own' x' m0' s' /\
    mx_ids x' <= mx_ids x + len sched /\ forall k, k ∈ own' -> k ∈ own \/ k ∈ sched ≫= offer.
Proof.
  induction sched as [|[t a] sched IH]; intros own x m0 s H Hids Hn.
  - exists s, own, x, m0. split; [done|]. split; [done|]. rewrite len_nil in *. split; [lia|by left].
  - rewrite len_cons in Hids. pose proof (len_nonneg sched). cbn [mbind list_bind tls_threads_run] in Hn |- *.
    rewrite fmap_app, <- app_assoc in Hn.
    assert (Hn' : NoDup ((sched ≫= offer).*2 ++ (offer (t, a) ++ own).*2)).
    { rewrite fmap_app. by rewrite (Permutation_app_swap_app _ ((offer (t, a)).*2)). }
    destruct (tls_act_step_ok p own x m0 s t a H) as (s1 & x1 & m1 & -> & H1 & Hle); [lia| |].
    { intros v ->. apply NoDup_app in Hn' as (_ & _ & Hn'). by apply NoDup_cons in Hn' as [? _]. }
    assert (news (t, a) <= 1) by (unfold news; case_match; lia).
    cbn [mbind outcome_bind]. destruct (IH _ _ _ _ H1) as (s' & own' & x' & m' & -> & H' & Hle' & Hown); [lia|done|].
    exists s', own', x', m'. split; [done|]. split; [done|]. rewrite len_cons. split; [lia|]. intros k Hk.
    rewrite elem_of_app. destruct (Hown k Hk) as [[?|?]%elem_of_app|?]; tauto.
Qed.

Lemma tls_inv_start : tls_inv [] matrix_empty ThreadMetaGlobal_new tls_start.
Proof.
  assert (Hs : forall t, thr tls_start t = thread_new) by (intros t; unfold thr; cbn; by rewrite lookup_empty).
  constructor; try done.
  - apply tls_rep_empty.
  - constructor; cbn; try done; try apply NoDup_nil_2.
    + intros v [[k Hk]|Hk]; [done|]. by apply not_elem_of_nil in Hk.
    + intros v [k Hk]. done.
  - intros t c v Hi. by apply not_elem_of_nil in Hi.
  - intros t. unfold stack. rewrite Hs. constructor; cbn; try done; try apply NoDup_nil_2; intros f Hf; by apply not_elem_of_nil in Hf.
  - intros t t' f f' c Hf. unfold stack in Hf. rewrite Hs in Hf. by apply not_elem_of_nil in Hf.
Qed.

Lemma tls_threads_reachable p sched :
  len sched < 2 ^ usize_bits -> NoDup (sched ≫= offer).*2 ->
  exists s own x m0, tls_threads_run p true tls_start sched = Done s /\ tls_inv own x m0 s /\
    mx_ids x <= len sched /\ forall k, k ∈ own -> k ∈ sched ≫= offer.
Proof.
  intros Hlen Hn. destruct (tls_threads_run_ok p sched [] matrix_empty ThreadMetaGlobal_new tls_start) as (s & own & x & m & E & H & Hle & Hown).
  - apply tls_inv_start.
  - by cbn.
  - by rewrite app_nil_r.
  - exists s, own, x, m. split; [done|]. split; [done|]. split; [done|]. intros k Hk. destruct (Hown k Hk) as [Hk'|Hk']; [by apply not_elem_of_nil in Hk'|done].
Qed.

Lemma offer_elem t v sched : (t, v) ∈ sched ≫= offer -> (t, AObject v) ∈ sched.
Proof.
  intros ([u a] & Hv & Ha)%list_elem_of_bind. unfold offer in Hv. cbn in Hv.
  destruct a; try (by apply not_elem_of_nil in Hv). apply list_elem_of_singleton in Hv as [= <- <-]. done.
Qed.

(** ** Finishing what has been started *)

(** A step of thread [t] leaves the other threads as they are. *)

Lemma cell_store_threads s t c v s1 : cell_store s t c v = Done s1 -> ts_threads s1 = ts_threads s /\ ts_mu s1 = ts_mu s.
Proof. unfold cell_store. intros E. by repeat (inv_bind E; case_match; simplify_eq/=). Qed.

Lemma tls_act_step_others p strict s t a s' u : tls_act_step p strict s t a = Done s' -> u <> t -> thr s' u = thr s u.
Proof.
  intros E Hu. assert (Hset : forall s1 th, ts_threads s1 = <[t := th]> (ts_threads s) -> thr s1 u = thr s u).
  { intros s1 th E1. unfold thr. by rewrite E1, lookup_insert_ne. }
  unfold tls_act_step, run_frame, run_lookup, run_cell, run_remove, run_exit, put_object in E.
  repeat (case_match; simplify_eq/=; try done; try (by eapply Hset); try inv_bind E);
    repeat match goal with H : cell_store _ _ _ _ = Done _ |- _ => apply cell_store_threads in H as [H _] end;
    eapply Hset; cbn; try done; by repeat match goal with H : ts_threads _ = _ |- _ => rewrite H end.
Qed.

Definition rank (f : frame) : nat :=
  match f with FEnter _ _ => 6 | FRegister _ _ => 5 | FLen _ _ => 4 | FResize _ _ => 3 | FCell _ _ _ => 2 | FInit _ _ _ => 1 | _ => 0 end.

Definition accessing (f : frame) : bool := match f with FDrop _ | FWalk _ _ _ | FExit => false | _ => true end.

(** The step that is next for an access: the value is for [init]. *)

Definition next_act (f : frame) (v : Z) : tls_act :=
  match f with FCell KInit _ _ | FInit _ _ _ => AObject v | _ => ARun false end.

(** A thread has left its access or come closer to its end. *)

Definition closer (s : tls_threads) (t : nat) (f : frame) (rest : list frame) : Prop :=
  ts_mu s = None /\ th_gone (thr s t) = false /\
  (stack s t = rest \/ exists f', stack s t = f' :: rest /\ accessing f' = true /\ (rank f' < rank f)%nat).

Lemma closer_set s0 s t f rest st b :
  ts_mu s = None -> ts_threads s = <[t := mkThread st b false]> (ts_threads s0) ->
  st = rest \/ (exists f', st = f' :: rest /\ accessing f' = true /\ (rank f' < rank f)%nat) -> closer s t f rest.
Proof. intros E1 E2 E3. unfold closer, stack, thr. rewrite E2, lookup_insert_eq. done. Qed.

#[local] Ltac closer s0 :=
  eapply (closer_set s0);
    [cbn; congruence|cbn; first [reflexivity|match goal with H : ts_threads _ = _ |- _ => rewrite H; reflexivity end]|first [by left|right; eexists; split; [reflexivity|split; [reflexivity|cbn; lia]]]].

Lemma run_access_closer p s t f rest s' :
  th_gone (thr s t) = false -> accessing f = true -> ts_mu s = None -> (forall v, next_act f v = ARun false) ->
  run_frame p s t false f rest = Done s' -> closer s' t f rest.
Proof.
  intros Hg Ha Hm Hn E. assert (Hl : locked s = false) by (unfold locked; by rewrite Hm).
  destruct f as [k c|k c|k c|k c|k c b|m c b|c v| | |]; try done; cbn [run_frame run_lookup run_cell] in E; rewrite ?Hl in E;
    try (specialize (Hn 0); done).
  - injection E as <-. unfold set_stack. rewrite Hg. case_match; closer s.
  - inv_bind E. unfold set_stack. rewrite Hg. closer s.
  - inv_bind E. case_match; inv_bind E. unfold set_stack. rewrite Hg. case_decide; closer s.
  - inv_bind E. case_match; inv_bind E. rewrite Hg. closer s.
  - inv_bind E. unfold set_stack. rewrite Hg. destruct k; [by specialize (Hn 0)| | |]; case_match; closer s.
  - case_match; [done|]. injection E as <-. unfold set_stack. rewrite Hg. closer s.
Qed.

Lemma put_object_closer p s t f rest v s' :
  th_gone (thr s t) = false -> stack s t = f :: rest -> ts_mu s = None -> (next_act f v = AObject v) ->
  put_object p s t v = Done s' -> closer s' t f rest.
Proof.
  intros Hg Es Hm Hn E. unfold put_object in E. rewrite Es in E.
  destruct f as [k c|k c|k c|k c|k c b|m c b|c v'| | |]; try done; [destruct k; try done|destruct m]; inv_bind E;
    match goal with H : cell_store _ _ _ _ = Done ?s1 |- _ => apply cell_store_threads in H as [H1 H2];
      assert (Hg1 : th_gone (thr s1 t) = false) by (unfold thr; by rewrite H1) end;
    unfold set_stack; rewrite Hg1; closer s.
Qed.

(** From a reachable state thread [t] can go on alone, starting nothing new,
    to a state with [Q]. *)

Definition finishing (a : nat * tls_act) : bool := match a.2 with ARun _ | AObject _ => true | _ => false end.

Definition good (s : tls_threads) : Prop := exists own x m0, tls_inv own x m0 s /\ mx_ids x + 1 < 2 ^ usize_bits.

Definition settles (p : profile) (s : tls_threads) (t : nat) (Q : tls_threads -> Prop) : Prop :=
  exists sched s', tls_threads_run p true s sched = Done s' /\ forallb finishing sched = true /\ good s' /\
    (forall u, u <> t -> thr s' u = thr s u) /\ Q s'.

Lemma run_app p strict : forall sched1 s sched2 s1,
  tls_threads_run p strict s sched1 = Done s1 -> tls_threads_run p strict s (sched1 ++ sched2) = tls_threads_run p strict s1 sched2.
Proof.
  induction sched1 as [|[t a] sched1 IH]; intros s sched2 s1; cbn [tls_threads_run app]; [by intros [= ->]|].
  intros (s2 & -> & E)%bind_done. cbn [mbind outcome_bind]. by apply IH.
Qed.

Lemma settles_now p s t (Q : tls_threads -> Prop) : good s -> Q s -> settles p s t Q.
Proof. intros Hg HQ. by exists [], s. Qed.

Lemma settles_trans p s t (Q Q' : tls_threads -> Prop) :
  settles p s t Q -> (forall s', good s' -> Q s' -> settles p s' t Q') -> settles p s t Q'.
Proof.
  intros (l1 & s1 & E1 & F1 & G1 & O1 & H1) Hq. destruct (Hq s1 G1 H1) as (l2 & s2 & E2 & F2 & G2 & O2 & H2).
  exists (l1 ++ l2), s2. split; [by rewrite (run_app _ _ _ _ _ _ E1)|]. split; [by rewrite forallb_app, F1, F2|].
  split; [done|]. split; [|done]. intros u Hu. by rewrite O2, O1.
Qed.

(** One step, with an object that has not been offered yet. *)

Lemma settles_step p s t (a : Z -> tls_act) (Q : tls_threads -> Prop) :
  good s -> (forall v, finishing (t, a v) = true) -> (forall v w, a v = AObject w -> w = v) ->
  (forall v s', tls_act_step p true s t (a v) = Done s' -> Q s') -> settles p s t Q.
Proof.
  intros (own & x & m0 & H & Hids) Hf Hv HQ. set (v := fresh own.*2).
  assert (Hfresh : v ∉ own.*2) by apply infinite_is_fresh.
  destruct (tls_act_step_ok p own x m0 s t (a v) H Hids) as (s' & x' & m' & E & H' & Hle); [by intros w ->%Hv|].
  exists [(t, a v)], s'. cbn [tls_threads_run forallb]. rewrite E, Hf. do 2 (split; [done|]). split; [|split; [|by eapply HQ]].
  - eexists _, x', m'. split; [done|]. specialize (Hf v). unfold news in Hle. cbn in Hle. unfold finishing in Hf. cbn in Hf. destruct (a v); try done; lia.
  - intros u. by apply (tls_act_step_others p true s t (a v)).
Qed.

Lemma next_act_finishing f t v : finishing (t, next_act f v) = true.
Proof. destruct f as [| | | |[]| | | | |]; done. Qed.

Lemma next_act_object f v w : next_act f v = AObject w -> w = v.
Proof. destruct f as [| | | |[]| | | | |]; cbn; congruence. Qed.

(** An access ends, the mutex being free. *)

Definition back (t : nat) (rest : list frame) (s : tls_threads) : Prop :=
  ts_mu s = None /\ th_gone (thr s t) = false /\ stack s t = rest.

Lemma settles_access p t rest : forall n s f,
  good s -> back t (f :: rest) s -> accessing f = true -> (rank f < n)%nat -> settles p s t (back t rest).
Proof.
  induction n as [|n IH]; intros s f Hs (Hm & Hg & E) Ha Hn; [lia|].
  apply (settles_trans _ _ _ (fun s' => closer s' t f rest)).
  - apply (settles_step p s t (next_act f)); [done|apply next_act_finishing|apply next_act_object|]. intros v s' Es.
    assert (Hd : (next_act f v = AObject v) \/ forall w, next_act f w = ARun false) by (destruct f as [| | | |[]| | | | |]; auto).
    unfold tls_act_step in Es. rewrite Hg in Es. destruct Hd as [Hd|Hd].
    + rewrite Hd in Es. by apply (put_object_closer p s t f rest v).
    + rewrite Hd, E in Es. by apply (run_access_closer p s).
  - intros s' Hs' (Hm' & Hg' & [E'|(f' & E' & Ha' & Hr)]); [by apply settles_now|]. apply (IH s' f'); [done..|lia].
Qed.

(** A removal ends, and then the mutex is free. *)

Lemma settles_walk p t c h rest : forall n s nx own x m0,
  tls_inv own x m0 s -> mx_ids x + 1 < 2 ^ usize_bits -> th_gone (thr s t) = false -> stack s t = FWalk c h nx :: rest -> walk_at x c nx n ->
  settles p s t (back t rest).
Proof.
  assert (Hstep : forall s s' f r, th_gone (thr s t) = false -> stack s t = f :: r -> run_frame p s t false f r = Done s' ->
    tls_threads_run p true s [(t, ARun false)] = Done s' /\ (forall u, u <> t -> thr s' u = thr s u)).
  { intros s s' f r Hg E Er. cbn [tls_threads_run]. assert (Es : tls_act_step p true s t (ARun false) = Done s') by (unfold tls_act_step; by rewrite Hg, E).
    rewrite Es. split; [done|]. intros u. by apply (tls_act_step_others p true s t (ARun false)). }
  assert (Hgone : forall s s' r, run_remove s t (FWalk c h r) rest = Done s' -> th_gone (thr s t) = false -> th_gone (thr s' t) = false).
  { intros s s' r Er Hg. cbn [run_remove] in Er. case_decide; inv_bind Er; [|case_match; inv_bind Er]; unfold thr; cbn; by rewrite lookup_insert_eq. }
  induction n as [|n IH]; intros s nx own x m0 H Hids Hg E Hat.
  - destruct (walk_end_ok _ _ _ _ _ _ _ _ _ H Hg E Hat) as (s' & x' & m' & Er & H' & Eids & Hm & Es).
    destruct (Hstep s s' _ _ Hg E Er) as [Erun Ho]. exists [(t, ARun false)], s'. split; [done|]. split; [done|].
    split; [exists own, x', m'; split; [done|lia]|]. split; [done|]. split; [done|]. split; [by eapply Hgone|done].
  - destruct (walk_next_ok _ _ _ _ _ _ _ _ _ _ H Hg E Hat) as (s' & x' & m' & nx' & Er & H' & Eids & Es & Hat').
    destruct (Hstep s s' _ _ Hg E Er) as [Erun Ho].
    apply (settles_trans _ _ _ (fun s1 => s1 = s')).
    + exists [(t, ARun false)], s'. do 2 (split; [done|]). split; [exists own, x', m'; split; [done|lia]|done].
    + intros s1 _ ->. eapply IH; [done|lia|by eapply Hgone|done|done].
Qed.

Lemma settles_drop p t c rest s : good s -> back t (FDrop c :: rest) s -> settles p s t (back t rest).
Proof.
  intros Hs (Hm & Hg & E).
  apply (settles_trans _ _ _ (fun s1 => th_gone (thr s1 t) = false /\ exists h nx, stack s1 t = FWalk c h nx :: rest)).
  - apply (settles_step p s t (fun _ => ARun false)); [done|done|done|]. intros _ s' Es. unfold tls_act_step in Es. rewrite Hg, E in Es.
    cbn [run_frame run_remove] in Es. unfold locked in Es. rewrite Hm in Es. cbn in Es. inv_bind Es. case_match. inv_bind Es. case_match. inv_bind Es.
    unfold stack, thr. cbn. rewrite lookup_insert_eq. split; [done|eauto].
  - intros s1 (own & x & m0 & H & Hids) (Hg1 & h & nx & E1).
    destruct (so_frames _ _ _ _ (ti_stacks _ _ _ _ H t) (FWalk c h nx)) as (_ & _ & _ & n & Hn); [rewrite E1; by left|].
    by eapply settles_walk.
Qed.

Lemma settles_exit p t rest s : good s -> back t (FExit :: rest) s -> settles p s t (fun s' => ts_mu s' = None /\ stack s' t = []).
Proof.
  intros Hs (Hm & Hg & E). assert (Er : rest = []).
  { destruct Hs as (own & x & m0 & H & _). pose proof (ti_stacks _ _ _ _ H t) as Hst. rewrite E in Hst. by apply (so_exit _ _ _ _ Hst). }
  subst. apply (settles_step p s t (fun _ => ARun false)); [done|done|done|]. intros _ s' Es. unfold tls_act_step in Es. rewrite Hg, E in Es.
  cbn [run_frame] in Es. unfold run_exit, locked in Es. rewrite Hm in Es. cbn in Es. inv_bind Es. unfold stack, thr. cbn. by rewrite lookup_insert_eq.
Qed.

(** All the operations of one thread end. *)

Lemma settles_stack p t : forall st s, good s -> back t st s -> settles p s t (fun s' => ts_mu s' = None /\ stack s' t = []).
Proof.
  induction st as [|f st IH]; intros s Hs Hb; [destruct Hb as (? & _ & ?); by apply settles_now|].
  assert (Hd : accessing f = true \/ (exists c, f = FDrop c) \/ f = FExit).
  { destruct f as [| | | | | | | |c h nx|]; eauto. exfalso. destruct Hb as (Hm & _ & E). destruct Hs as (own & x & m0 & H & _).
    pose proof (walk_holds _ _ _ _ t c h nx H) as Hw. rewrite E in Hw. specialize (Hw ltac:(by left)). congruence. }
  destruct Hd as [Ha|[[c ->]| ->]].
  - apply (settles_trans _ _ _ (back t st)); [|by auto]. eapply settles_access; [done|done|done|]. apply Nat.lt_succ_diag_r.
  - apply (settles_trans _ _ _ (back t st)); [by apply (settles_drop p t c)|by auto].
  - by eapply settles_exit.
Qed.

(** The thread that holds the mutex can always let it go. *)

Lemma settles_mutex p s : good s -> exists t, settles p s t (fun s' => ts_mu s' = None).
Proof.
  intros Hs. destruct (ts_mu s) as [t|] eqn:Hm; [exists t|exists 0%nat; by apply settles_now].
  pose proof Hs as (own & x & m0 & H & Hids). destruct (ti_mu _ _ _ _ H _ Hm) as (c & h & nx & rest & E).
  destruct (so_frames _ _ _ _ (ti_stacks _ _ _ _ H t) (FWalk c h nx)) as (_ & _ & _ & n & Hn); [rewrite E; by left|].
  assert (Hg : th_gone (thr s t) = false).
  { destruct (th_gone (thr s t)) eqn:Hg; [|done]. apply (ti_gone _ _ _ _ H) in Hg as [E' _]. congruence. }
  apply (settles_trans _ _ _ (back t rest)); [by eapply settles_walk|]. intros s' Hs' (? & _). by apply settles_now.
Qed.

Lemma settles_threads p : forall (l : list nat) s, good s -> ts_mu s = None -> (forall u, stack s u <> [] -> u ∈ l) ->
  exists sched s', tls_threads_run p true s sched = Done s' /\ forallb finishing sched = true /\ forall u, stack s' u = [].
Proof.
  induction l as [|t l IH]; intros s Hs Hm Hl.
  - exists [], s. do 2 (split; [done|]). intros u. destruct (stack s u) as [|f st] eqn:E; [done|]. destruct (not_elem_of_nil u). apply Hl. by rewrite E.
  - assert (Hsettle : settles p s t (fun s' => ts_mu s' = None /\ stack s' t = [])).
    { destruct (stack s t) as [|f st] eqn:E; [by apply settles_now|]. apply (settles_stack p t (f :: st)); [done|].
      split; [done|]. split; [|done]. destruct (th_gone (thr s t)) eqn:Hg; [|done]. destruct Hs as (own & x & m0 & H & _).
      apply (ti_gone _ _ _ _ H) in Hg as [E' _]. congruence. }
    destruct Hsettle as (l1 & s1 & E1 & F1 & G1 & O1 & Hm1 & Et). destruct (IH s1 G1 Hm1) as (l2 & s2 & E2 & F2 & H2).
    + intros u Hu. destruct (decide (u = t)) as [->|Hut]; [done|]. assert (E : stack s1 u = stack s u) by (unfold stack; by rewrite O1).
      rewrite E in Hu. apply Hl in Hu. by apply elem_of_cons in Hu as [?|?].
    + exists (l1 ++ l2), s2. split; [by rewrite (run_app _ _ _ _ _ _ E1)|]. split; [by rewrite forallb_app, F1, F2|done].
Qed.

Lemma good_settles p s : good s -> exists sched s', tls_threads_run p true s sched = Done s' /\ forallb finishing sched = true /\ forall u, stack s' u = [].
Proof.
  intros Hs. destruct (settles_mutex p s Hs) as (t & l1 & s1 & E1 & F1 & G1 & _ & Hm1).
  destruct (settles_threads p (map_to_list (ts_threads s1)).*1 s1 G1 Hm1) as (l2 & s2 & E2 & F2 & H2).
  - intros u Hu. unfold stack, thr in Hu. destruct (ts_threads s1 !! u) as [th|] eqn:E; [|done].
    apply list_elem_of_fmap. exists (u, th). split; [done|]. by apply elem_of_map_to_list.
  - exists (l1 ++ l2), s2. split; [by rewrite (run_app _ _ _ _ _ _ E1)|]. split; [by rewrite forallb_app, F1, F2|done].
Qed.

(** ** Properties *)

(** C14: threads that use thread-local storage at once, creating, accessing and
    dropping columns, growing their rows and exiting in any order, are safe
    when clients keep to their contract and, which the source forgets to ask
    for, an access started inside an initialiser finds its row long enough
    ([strict]): no step follows a dangling pointer or panics, an object a closure is using is in its thread's own cell, has not
    been reclaimed and is in use nowhere else, no thread is ever given an
    object that another one stored, and none is reclaimed twice. *)
Theorem tls_threads_safe p sched :
  len sched < 2 ^ usize_bits -> NoDup (sched ≫= offer).*2 ->
  exists s, tls_threads_run p true tls_start sched = Done s /\
    (forall t c v, FUse c v ∈ stack s t ->
       cell_at (tm_rows (ts_meta s)) (S t) c = Some v /\ (v ∉ (tm_calls (ts_meta s)).*2) /\
       forall t' c', FUse c' v ∈ stack s t' -> t' = t /\ c' = c) /\
    (forall t c v, (t, c, v) ∈ ts_got s \/ FUse c v ∈ stack s t -> (t, AObject v) ∈ sched) /\
    NoDup (tm_calls (ts_meta s)).*2.
Proof.
  intros Hlen Hn. destruct (tls_threads_reachable p sched Hlen Hn) as (s & own & x & m0 & E & H & _ & Hown).
  exists s. split; [done|].
  assert (Huse : forall t c v, FUse c v ∈ stack s t -> c ∈ ts_live s /\ mx_cells x !! (t, c) = Some v).
  { intros t c v Hf. by apply (so_frames _ _ _ _ (ti_stacks _ _ _ _ H t) (FUse c v)). }
  split; [|split].
  - intros t c v Hf. destruct (Huse _ _ _ Hf) as [Hl Hc]. split; [|split].
    + by rewrite <- (proj2 (inv_cell _ _ _ _ t c H Hl)).
    + by eapply inv_not_reclaimed.
    + intros t' c' [_ Hc']%Huse. by injection (once_inj _ _ (ti_once _ _ _ _ H) _ _ _ Hc' Hc) as -> ->.
  - intros t c v [Hg|Hf]; apply offer_elem, Hown; [by apply (ti_got _ _ _ _ H) in Hg|]. destruct (Huse _ _ _ Hf) as [_ Hc].
    by apply (ti_own _ _ _ _ H) in Hc.
  - rewrite (proj2 (inv_rows _ _ _ _ H)), (rep_calls _ _ (ti_rep _ _ _ _ H)). apply (ti_once _ _ _ _ H).
Qed.

(** Two threads initialise their cells of one column while a third removes
    another one. *)

Definition busy_schedule : list (nat * tls_act) :=
  [(0%nat, ANew (Some 7)); (0%nat, ANew (Some 8)); (1%nat, AAccess KInit 0)] ++ replicate 4 (1%nat, ARun false) ++
  [(1%nat, AObject 10); (0%nat, ADrop 0); (1%nat, AAccess KGetOrInitMut 1); (2%nat, AAccess KGetOrInitMut 1);
   (1%nat, ARun false); (0%nat, ARun false); (2%nat, ARun false); (1%nat, ARun false); (2%nat, ARun false); (1%nat, ARun false);
   (0%nat, ARun false); (0%nat, ARun false); (2%nat, ARun false); (1%nat, ARun true); (2%nat, ARun false); (1%nat, ARun false);
   (2%nat, ARun false); (2%nat, ARun false); (1%nat, AObject 20); (2%nat, AObject 30)].

Lemma tls_threads_safe_witness :
  len busy_schedule < 2 ^ usize_bits /\ NoDup (busy_schedule ≫= offer).*2 /\
  exists s, tls_threads_run Debug true tls_start busy_schedule = Done s /\
    (forall t c v, FUse c v ∈ stack s t ->
       cell_at (tm_rows (ts_meta s)) (S t) c = Some v /\ (v ∉ (tm_calls (ts_meta s)).*2) /\
       forall t' c', FUse c' v ∈ stack s t' -> t' = t /\ c' = c).
Proof.
  assert (Hn : NoDup (busy_schedule ≫= offer).*2) by (apply (bool_decide_unpack _); reflexivity).
  split; [reflexivity|]. split; [exact Hn|].
  destruct (tls_threads_safe Debug busy_schedule) as (s & E & H & _); [reflexivity|exact Hn|]. exists s. exact (conj E H).
Defined.

Example busy_schedule_uses :
  match tls_threads_run Debug true tls_start busy_schedule with
  | Done s => (stack s 0, stack s 1, stack s 2, tm_calls (ts_meta s))
  | _ => ([], [], [], [])
  end = ([], [FUse 1 20], [FUse 1 30], [(7, 10)]).
Proof. vm_compute. reflexivity. Qed.

(** C15: no schedule of thread-local storage can get stuck: from every state
    reachable under the conditions of [may_access] and [may_drop], the strict
    one on initialisers included, the operations already started, lookups, initialisers,
    removals and exits, can all be run to their end without starting a new one,
    whoever holds the mutex. *)
Theorem tls_threads_end p sched :
  len sched + 1 < 2 ^ usize_bits -> NoDup (sched ≫= offer).*2 ->
  exists s more s', tls_threads_run p true tls_start sched = Done s /\ tls_threads_run p true s more = Done s' /\
    forallb finishing more = true /\ forall t, stack s' t = [].
Proof.
  intros Hlen Hn. destruct (tls_threads_reachable p sched) as (s & own & x & m0 & E & H & Hids & _); [lia|done|].
  destruct (good_settles p s) as (more & s' & E' & F & Hs'); [exists own, x, m0; split; [done|lia]|]. by exists s, more, s'.
Qed.

Lemma tls_threads_end_witness :
  len busy_schedule + 1 < 2 ^ usize_bits /\
  exists s more s', tls_threads_run Debug true tls_start busy_schedule = Done s /\ tls_threads_run Debug true s more = Done s' /\
    forallb finishing more = true /\ forall t, stack s' t = [].
Proof.
  split; [reflexivity|]. apply (tls_threads_end Debug busy_schedule); [reflexivity|apply (bool_decide_unpack _); reflexivity].
Defined.

(** Without the condition [strict] adds, which no comment asks for: an
    initialiser that uses a column its thread's row has no room for moves the
    row away under the reference to the cell that is being initialised. *)

Definition nested_growth : list (nat * tls_act) :=
  [(1%nat, ANew None); (1%nat, ANew None); (1%nat, AAccess KGetOrInit 0)] ++
  replicate 5 (1%nat, ARun false) ++ [(1%nat, AAccess KGetOrInit 1)] ++
  replicate 4 (1%nat, ARun true) ++ [(1%nat, AObject 10); (1%nat, AObject 20)].

Example init_grows_row : tls_threads_run Release false tls_start nested_growth = UB "cell of a buffer that was freed".
Proof. vm_compute. reflexivity. Qed.
