(* ===== verification/Hazard.v ===== *)
(** * Hazard: hazard-pointer records and their free list

    Models [mem/src/hazard/domain.rs] and [hazard_ptr.rs].  Records are
    allocated and never freed, so a record is its position in the list of
    allocations.  A pointer with its lock bit is a pair; an untagged null
    pointer is [(None, false)].  The head of the free list is the only field
    that is tagged: [push_available] and the locked part of
    [try_acquire_available] store untagged pointers into [available].
    [spurious] is how often each weak exchange fails before it succeeds.
    Operations run one at a time here, and interleaved in [HazardThreads]. *)

From S2P Require Import Prelude.

(** ** Data *)

(* @src crates/mem/src/hazard/hazard_ptr.rs:20-24 HzdPtrRec *)
Record HzdPtrRec := mkHzdPtrRec {
  hz_ptr : option Z;
  hz_next : option nat;
  hz_available : option nat
}.

Definition tagged : Type := option nat * bool.

(* @src crates/mem/src/hazard/domain.rs:451-456 HazPtrRecs *)
Record HazPtrRecs := mkHazPtrRecs {
  hp_head : option nat;
  avail_head : tagged;
  hp_count : Z
}.

(* @src crates/mem/src/hazard/domain.rs:179-184 HzdDomain *)
Record HzdDomain := mkHzdDomain {
  hazard_pointers : HazPtrRecs;
  hd_recs : list HzdPtrRec
}.

(* @src crates/mem/src/hazard/domain.rs:150-165 HzdDomain::new *)
Definition HzdDomain_new : HzdDomain := mkHzdDomain (mkHazPtrRecs None (None, false) 0) [].

Definition set_avail (d : HzdDomain) (a : tagged) : HzdDomain :=
  mkHzdDomain (mkHazPtrRecs (hp_head (hazard_pointers d)) a (hp_count (hazard_pointers d))) (hd_recs d).

(** Following a pointer to a record. *)

Definition rec_at (d : HzdDomain) (t : tagged) : outcome (nat * HzdPtrRec) :=
  match t with
  | (None, _) => UB "null pointer"
  | (Some _, true) => UB "misaligned pointer"
  | (Some r, false) => match hd_recs d !! r with Some c => Done (r, c) | None => UB "dangling pointer" end
  end.

Definition upd_rec (d : HzdDomain) (r : nat) (f : HzdPtrRec -> HzdPtrRec) : outcome HzdDomain :=
  '(r, c) ← rec_at d (Some r, false); Done (mkHzdDomain (hazard_pointers d) (<[r := f c]> (hd_recs d))).

Definition set_ptr (v : option Z) (c : HzdPtrRec) : HzdPtrRec := mkHzdPtrRec v (hz_next c) (hz_available c).
Definition set_next (v : option nat) (c : HzdPtrRec) : HzdPtrRec := mkHzdPtrRec (hz_ptr c) v (hz_available c).
Definition set_available (v : option nat) (c : HzdPtrRec) : HzdPtrRec := mkHzdPtrRec (hz_ptr c) (hz_next c) v.

(* @src crates/mem/src/hazard/hazard_ptr.rs:27-29 HzdPtrRec::reset *)
Definition HzdPtrRec_reset (d : HzdDomain) (r : nat) : outcome HzdDomain := upd_rec d r (set_ptr None).

(* @src crates/mem/src/hazard/hazard_ptr.rs:31-33 HzdPtrRec::protect *)
Definition HzdPtrRec_protect (d : HzdDomain) (r : nat) (ptr : option Z) : outcome HzdDomain := upd_rec d r (set_ptr ptr).

(** ** Acquiring *)

(* @src crates/mem/src/hazard/domain.rs:221-239 HzdDomain::acquire_new_rec *)
Fixpoint new_rec_loop (spurious : nat) (d : HzdDomain) (rec : nat) (head : option nat) : outcome HzdDomain :=
  d ← upd_rec d rec (set_next head);
  let hp := hazard_pointers d in
  match spurious with
  | S spurious => new_rec_loop spurious d rec (hp_head hp)
  | O =>
      if decide (hp_head hp = head)
      then Done (mkHzdDomain (mkHazPtrRecs (Some rec) (avail_head hp) (wrap usize_bits (hp_count hp + 1))) (hd_recs d))
      else NoFuel
  end.

(* @src crates/mem/src/hazard/domain.rs:211-240 HzdDomain::acquire_new_rec *)
Definition acquire_new_rec (spurious : nat) (d : HzdDomain) : outcome (HzdDomain * nat) :=
  let rec := length (hd_recs d) in
  let d := mkHzdDomain (hazard_pointers d) (hd_recs d ++ [mkHzdPtrRec None None None]) in
  let head := hp_head (hazard_pointers d) in
  d ← new_rec_loop spurious d rec head;
  Done (d, rec).

(** The walk along the free list, with the lock held. *)

(* @src crates/mem/src/hazard/domain.rs:361-369 HzdDomain::try_acquire_available_locked *)
Fixpoint walk_available (fuel : nat) (d : HzdDomain) (N : nat) (tail : nat) (next : option nat) (n : nat)
  : outcome (nat * option nat * nat) :=
  match next with
  | Some nx =>
      if decide (n < N)%nat then
        match fuel with
        | O => NoFuel
        | S fuel =>
            '(_, c) ← rec_at d (Some nx, false);
            walk_available fuel d N nx (hz_available c) (n + 1)
        end
      else Done (tail, next, n)
  | None => Done (tail, next, n)
  end.

(* @src crates/mem/src/hazard/domain.rs:334-382 HzdDomain::try_acquire_available_locked *)
Definition try_acquire_available_locked (p : profile) (d : HzdDomain) (N : nat) (stolen_head : tagged)
  : outcome (HzdDomain * nat * nat) :=
  _ ← debug_assert p (bool_decide (1 <= N)%nat) "N >= 1";
  '(tail, c) ← rec_at d stolen_head;
  let head := tail in
  '(tail, next, n) ← walk_available N d N tail (hz_available c) 1;
  let d := set_avail d (next, false) in
  d ← upd_rec d tail (set_available None);
  Done (d, head, n).

(** One turn of the loop, after the head has been loaded: [None] is another
    turn. *)

(* @src crates/mem/src/hazard/domain.rs:300-326 HzdDomain::try_acquire_available *)
Definition try_lock (p : profile) (d : HzdDomain) (N : nat) (loaded : tagged)
  : outcome (HzdDomain * option (option nat * nat)) :=
  let locked := avail_head (hazard_pointers d) in
  let d := set_avail d (locked.1, true) in
  if negb locked.2 then
    '(d, ptr, n) ← try_acquire_available_locked p d N loaded;
    _ ← debug_assert p (bool_decide (1 <= n)%nat) "Head available was not null";
    _ ← debug_assert p (bool_decide (n <= N)%nat) "n <= N";
    Done (d, Some (Some ptr, n))
  else Done (d, None).

(* @src crates/mem/src/hazard/domain.rs:283-328 HzdDomain::try_acquire_available *)
Fixpoint try_acquire_available (fuel : nat) (p : profile) (d : HzdDomain) (N : nat)
  : outcome (HzdDomain * option nat * nat) :=
  match fuel with
  | O => NoFuel
  | S fuel =>
      _ ← debug_assert p (bool_decide (1 <= N)%nat) "N >= 1";
      let loaded := avail_head (hazard_pointers d) in
      if decide (loaded = (None, false)) then Done (d, None, 0%nat)
      else
        '(d, r) ← try_lock p d N loaded;
        match r with
        | Some (ptr, n) => Done (d, ptr, n)
        | None => try_acquire_available fuel p d N
        end
  end.

(** The closure mapped over the [k] slots of the array that are left. *)

(* @src crates/mem/src/hazard/domain.rs:262-280 HzdDomain::acquire_many *)
Fixpoint fill_slots (spurious : nat) (k : nat) (d : HzdDomain) (head tail : option nat) : outcome (HzdDomain * list nat) :=
  match k with
  | O => Done (d, [])
  | S k =>
      match head with
      | Some h =>
          '(_, c) ← rec_at d (Some h, false);
          '(d, rs) ← fill_slots spurious k d (hz_available c) (Some h);
          Done (d, h :: rs)
      | None =>
          '(d, next) ← acquire_new_rec spurious d;
          d ← match tail with Some t => upd_rec d t (set_available (Some next)) | None => Done d end;
          '(d, rs) ← fill_slots spurious k d None (Some next);
          Done (d, next :: rs)
      end
  end.

(** Alone, one turn of the loop is enough. *)

Definition alone_fuel : nat := 1.

(* @src crates/mem/src/hazard/domain.rs:252-281 HzdDomain::acquire_many *)
Definition acquire_many (spurious : nat) (p : profile) (d : HzdDomain) (N : nat) : outcome (HzdDomain * list nat) :=
  _ ← debug_assert p (bool_decide (1 <= N)%nat) "N >= 1";
  '(d, head, n) ← try_acquire_available alone_fuel p d N;
  _ ← rust_assert (bool_decide (n <= N)%nat) "n <= N";
  fill_slots spurious N d head None.

(* @src crates/mem/src/hazard/domain.rs:242-244 HzdDomain::acquire *)
Definition HzdDomain_acquire (spurious : nat) (p : profile) (d : HzdDomain) : outcome (HzdDomain * nat) :=
  '(d, rs) ← acquire_many spurious p d 1;
  match rs with r :: _ => Done (d, r) | [] => Panic "index out of bounds" end.

(** ** Releasing *)

(* @src crates/mem/src/hazard/domain.rs:397-427 HzdDomain::push_available *)
Fixpoint push_loop (fuel : nat) (d : HzdDomain) (head tail : nat) : outcome HzdDomain :=
  match fuel with
  | O => NoFuel
  | S fuel =>
      let avail := avail_head (hazard_pointers d) in
      if negb avail.2 then
        d ← upd_rec d tail (set_available avail.1);
        if decide (avail_head (hazard_pointers d) = avail) then Done (set_avail d (Some head, false))
        else push_loop fuel d head tail
      else push_loop fuel d head tail
  end.

(* @src crates/mem/src/hazard/domain.rs:397-427 HzdDomain::push_available *)
Definition push_available (p : profile) (d : HzdDomain) (head tail : nat) : outcome HzdDomain :=
  '(_, c) ← rec_at d (Some tail, false);
  _ ← debug_assert p (bool_decide (hz_available c = None)) "tail.available is null";
  push_loop alone_fuel d head tail.

(* @src crates/mem/src/hazard/domain.rs:384-387 HzdDomain::release *)
Definition HzdDomain_release (p : profile) (d : HzdDomain) (rec : nat) : outcome HzdDomain :=
  '(_, c) ← rec_at d (Some rec, false);
  _ ← rust_assert (bool_decide (hz_available c = None)) "release_rec.available is null";
  push_available p d rec rec.

(* @src crates/mem/src/hazard/domain.rs:389-395 HzdDomain::release_many *)
Definition release_many (p : profile) (d : HzdDomain) (records : list nat) : outcome HzdDomain :=
  match records, last records with
  | head :: _, Some tail =>
      '(_, c) ← rec_at d (Some tail, false);
      _ ← rust_assert (bool_decide (hz_available c = None)) "tail.available is null";
      push_available p d head tail
  | _, _ => Panic "index out of bounds"
  end.

(** ** Hazard pointers *)

(* @src crates/mem/src/hazard/hazard_ptr.rs:73-78 HzdPtr::new_in_domain *)
Definition new_in_domain (spurious : nat) (p : profile) (d : HzdDomain) : outcome (HzdDomain * nat) := HzdDomain_acquire spurious p d.

(* @src crates/mem/src/hazard/hazard_ptr.rs:80-91 HzdPtr::many_in_domain *)
Definition many_in_domain (spurious : nat) (p : profile) (d : HzdDomain) (N : nat) : outcome (HzdDomain * list nat) :=
  acquire_many spurious p d N.

(** [re_check_src] is what the second load of the source returns. *)

(* @src crates/mem/src/hazard/hazard_ptr.rs:220-238 HzdPtr::try_protect_ptr *)
Definition try_protect_ptr (d : HzdDomain) (hazard : nat) (ptr re_check_src : option Z)
  : outcome (HzdDomain * (option Z + option Z)) :=
  d ← HzdPtrRec_protect d hazard ptr;
  if decide (ptr <> re_check_src) then
    d ← HzdPtrRec_reset d hazard;
    Done (d, inr re_check_src)
  else Done (d, inl ptr).

(** [loads] are what the loads of the source return, in order; other threads
    may change it at any time. *)

(* @src crates/mem/src/hazard/hazard_ptr.rs:209-217 HzdPtr::protect_ptr *)
Fixpoint protect_loop (d : HzdDomain) (hazard : nat) (ptr : option Z) (loads : list (option Z)) : outcome (HzdDomain * option Z) :=
  match loads with
  | [] => NoFuel
  | re_check_src :: loads =>
      '(d, r) ← try_protect_ptr d hazard ptr re_check_src;
      match r with
      | inl ptr => Done (d, ptr)
      | inr ptr2 => protect_loop d hazard ptr2 loads
      end
  end.

(* @src crates/mem/src/hazard/hazard_ptr.rs:201-218 HzdPtr::protect_ptr *)
Definition protect_ptr (d : HzdDomain) (hazard : nat) (loads : list (option Z)) : outcome (HzdDomain * option Z) :=
  match loads with
  | [] => NoFuel
  | ptr :: loads => protect_loop d hazard ptr loads
  end.

(* @src crates/mem/src/hazard/hazard_ptr.rs:189-199 HzdPtr::protect *)
Definition protect (d : HzdDomain) (hazard : nat) (loads : list (option Z)) : outcome (HzdDomain * option Z) :=
  '(d, ptr) ← protect_ptr d hazard loads;
  match ptr with
  | None => Done (d, None)
  | Some ptr => Done (d, Some ptr)
  end.

(* @src crates/mem/src/hazard/hazard_ptr.rs:240-242 HzdPtr::reset_protection *)
Definition reset_protection (d : HzdDomain) (hazard : nat) : outcome HzdDomain := HzdPtrRec_reset d hazard.

(* @src crates/mem/src/hazard/hazard_ptr.rs:245-251 HzdPtr::drop *)
Definition HzdPtr_drop (d : HzdDomain) (hazard : nat) : outcome HzdDomain :=
  _ ← HzdPtrRec_reset d hazard;
  Panic "not yet implemented".

(* @src crates/mem/src/hazard/hazard_ptr.rs:280-295 HzdPtrArray::protect_all *)
Fixpoint protect_all (d : HzdDomain) (hzd_ptr_array : list nat) (sources : list (list (option Z)))
  : outcome (HzdDomain * list (option Z)) :=
  match hzd_ptr_array, sources with
  | hzdptr :: hzd_ptr_array, src :: sources =>
      '(d, o) ← protect d hzdptr src;
      '(d, output) ← protect_all d hzd_ptr_array sources;
      Done (d, o :: output)
  | _, _ => Done (d, [])
  end.

(* @src crates/mem/src/hazard/hazard_ptr.rs:299-303 HzdPtrArray::reset_protection *)
Fixpoint HzdPtrArray_reset_protection (d : HzdDomain) (hzd_ptr_array : list nat) : outcome HzdDomain :=
  match hzd_ptr_array with
  | [] => Done d
  | ptr :: hzd_ptr_array =>
      d ← reset_protection d ptr;
      HzdPtrArray_reset_protection d hzd_ptr_array
  end.

(* @src crates/mem/src/hazard/hazard_ptr.rs:308-317 HzdPtrArray::drop *)
Definition HzdPtrArray_drop (p : profile) (d : HzdDomain) (hzd_ptr_array : list nat) : outcome HzdDomain :=
  d ← HzdPtrArray_reset_protection d hzd_ptr_array;
  match hzd_ptr_array with
  | [] => Panic "index out of bounds"
  | _ => release_many p d hzd_ptr_array
  end.

(** ** Chains of records *)

Definition avail (d : HzdDomain) (r : nat) : option (option nat) := hz_available <$> hd_recs d !! r.
Definition nextd (d : HzdDomain) (r : nat) : option (option nat) := hz_next <$> hd_recs d !! r.
Definition protd (d : HzdDomain) (r : nat) : option (option Z) := hz_ptr <$> hd_recs d !! r.

Fixpoint achain (d : HzdDomain) (rs : list nat) : Prop :=
  match rs with
  | [] => True
  | r :: rs => avail d r = Some (head rs) /\ achain d rs
  end.

Lemma avail_rec d r a : avail d r = Some a -> exists c, rec_at d (Some r, false) = Done (r, c) /\ hz_available c = a.
Proof.
  unfold avail, rec_at. destruct (hd_recs d !! r) as [c|]; [|done]. intros [= <-]. by exists c.
Qed.

(** What the assignments to a record do. *)

Record same_but (d d' : HzdDomain) : Prop := {
  sb_hp : hazard_pointers d' = hazard_pointers d;
  sb_len : length (hd_recs d') = length (hd_recs d)
}.

Lemma upd_rec_spec d r f : (r < length (hd_recs d))%nat ->
  exists d', upd_rec d r f = Done d' /\ same_but d d' /\
    (forall q, hd_recs d' !! q = if decide (q = r) then f <$> hd_recs d !! r else hd_recs d !! q).
Proof.
  intros Hr. destruct (lookup_lt_is_Some_2 _ _ Hr) as [c Hc]. unfold upd_rec, rec_at. rewrite Hc. cbn [mbind outcome_bind].
  eexists. split; [done|]. split; [split; [done|cbn; by rewrite length_insert]|]. intros q. cbn.
  case_decide as E; [by rewrite E, list_lookup_insert_eq|]. by rewrite list_lookup_insert_ne.
Qed.

Lemma set_available_spec d r v : (r < length (hd_recs d))%nat ->
  exists d', upd_rec d r (set_available v) = Done d' /\ same_but d d' /\
    (forall q, avail d' q = if decide (q = r) then Some v else avail d q) /\
    (forall q, nextd d' q = nextd d q) /\ (forall q, protd d' q = protd d q).
Proof.
  intros Hr. destruct (upd_rec_spec d r (set_available v) Hr) as (d' & E & S & H). exists d'. split; [done|]. split; [done|].
  destruct (lookup_lt_is_Some_2 _ _ Hr) as [c Hc]. unfold avail, nextd, protd.
  split; [|split]; intros q; rewrite H; (case_decide; [subst; by rewrite Hc|done]).
Qed.

Lemma set_ptr_spec d r v : (r < length (hd_recs d))%nat ->
  exists d', upd_rec d r (set_ptr v) = Done d' /\ same_but d d' /\
    (forall q, protd d' q = if decide (q = r) then Some v else protd d q) /\
    (forall q, avail d' q = avail d q) /\ (forall q, nextd d' q = nextd d q).
Proof.
  intros Hr. destruct (upd_rec_spec d r (set_ptr v) Hr) as (d' & E & S & H). exists d'. split; [done|]. split; [done|].
  destruct (lookup_lt_is_Some_2 _ _ Hr) as [c Hc]. unfold avail, nextd, protd.
  split; [|split]; intros q; rewrite H; (case_decide; [subst; by rewrite Hc|done]).
Qed.

Lemma achain_frame d d' rs : (forall q, q ∈ rs -> avail d' q = avail d q) -> achain d rs -> achain d' rs.
Proof.
  induction rs as [|r rs IH]; [done|]. intros H [H1 H2]. split; [by rewrite H by left|].
  apply IH; [|done]. intros q Hq. apply H. by right.
Qed.

Lemma achain_set_avail d a rs : achain d rs -> achain (set_avail d a) rs.
Proof. by apply achain_frame. Qed.

(** Cutting a chain after [t], and joining two. *)

Lemma achain_cut d d' t B : forall A,
  achain d (A ++ t :: B) -> NoDup (A ++ t :: B) ->
  (forall q, avail d' q = if decide (q = t) then Some None else avail d q) ->
  achain d' (A ++ [t]) /\ achain d' B.
Proof.
  induction A as [|r A IH]; intros H Hn Hav; cbn [app achain] in *.
  - apply NoDup_cons in Hn as [Ht _]. split; [by rewrite Hav, decide_True|]. apply (achain_frame d); [|apply H].
    intros q Hq. rewrite Hav, decide_False; [done|]. by intros ->.
  - apply NoDup_cons in Hn as [Hr Hn]. destruct H as [H1 H2], (IH H2 Hn Hav) as [H3 H4]. split; [|done]. split; [|done].
    rewrite Hav, decide_False by (intros ->; apply Hr, elem_of_app; right; by left). rewrite H1. by destruct A.
Qed.

Lemma achain_join d d' t B : forall A,
  achain d (A ++ [t]) -> achain d B -> NoDup (A ++ [t]) -> t ∉ B ->
  (forall q, avail d' q = if decide (q = t) then Some (head B) else avail d q) ->
  achain d' ((A ++ [t]) ++ B).
Proof.
  intros A HA HB Hn Ht Hav. rewrite <- app_assoc. cbn [app]. induction A as [|r A IH]; cbn [app achain] in *.
  - split; [by rewrite Hav, decide_True|]. apply (achain_frame d); [|done].
    intros q Hq. rewrite Hav, decide_False; [done|]. by intros ->.
  - apply NoDup_cons in Hn as [Hr Hn]. destruct HA as [H1 H2]. split; [|by apply IH].
    rewrite Hav, decide_False by (intros ->; apply Hr, elem_of_app; right; by left). rewrite H1. by destruct A.
Qed.

Lemma achain_avail d A t : achain d (A ++ [t]) -> avail d t = Some None.
Proof. induction A as [|r A IH]; cbn; [by intros [? _]|]. intros [_ H]. by apply IH. Qed.

Lemma elem_of_concat {A} (x : A) (ls : list (list A)) : x ∈ concat ls <-> exists l, l ∈ ls /\ x ∈ l.
Proof.
  rewrite list_elem_of_In, in_concat. split; intros (l & H1 & H2); exists l; by rewrite ?list_elem_of_In in *.
Qed.

(** ** The invariant *)

(** [free] is the free list, [chains] are the arrays that are held, [prot]
    what each record protects. *)

Definition all_before (i : nat) : option nat := match i with O => None | S j => Some j end.

Record hz_inv (d : HzdDomain) (free : list nat) (chains : list (list nat)) (prot : gmap nat Z) : Prop := {
  hz_head : avail_head (hazard_pointers d) = (head free, false);
  hz_free : achain d free;
  hz_chains : Forall (achain d) chains;
  hz_part : free ++ concat chains ≡ₚ seq 0 (length (hd_recs d));
  hz_nexts : forall i, (i < length (hd_recs d))%nat -> nextd d i = Some (all_before i);
  hz_first : hp_head (hazard_pointers d) = all_before (length (hd_recs d));
  hz_counts : hp_count (hazard_pointers d) = len (hd_recs d);
  hz_prot : forall r, (r < length (hd_recs d))%nat -> protd d r = Some (prot !! r);
  hz_prot_dom : forall r, is_Some (prot !! r) -> (r < length (hd_recs d))%nat;
  hz_prot_free : forall r, r ∈ free -> prot !! r = None
}.

Lemma hz_nodup d free chains prot : hz_inv d free chains prot -> NoDup (free ++ concat chains).
Proof. intros I. rewrite (hz_part _ _ _ _ I). apply NoDup_seq. Qed.

Lemma hz_below d free chains prot r : hz_inv d free chains prot ->
  r ∈ free ++ concat chains <-> (r < length (hd_recs d))%nat.
Proof. intros I. rewrite (hz_part _ _ _ _ I), elem_of_seq. lia. Qed.

(** Only [available] and the head of the free list change. *)

Lemma hz_relink d d' free chains free' chains' prot :
  hz_inv d free chains prot ->
  hp_head (hazard_pointers d') = hp_head (hazard_pointers d) -> hp_count (hazard_pointers d') = hp_count (hazard_pointers d) ->
  length (hd_recs d') = length (hd_recs d) ->
  (forall q, nextd d' q = nextd d q) -> (forall q, protd d' q = protd d q) ->
  avail_head (hazard_pointers d') = (head free', false) -> achain d' free' -> Forall (achain d') chains' ->
  free' ++ concat chains' ≡ₚ free ++ concat chains -> (forall r, r ∈ free' -> prot !! r = None) ->
  hz_inv d' free' chains' prot.
Proof.
  intros I Hh Hc Hl Hn Hp Ha Hf Hcs Hperm Hpf. constructor; try done; unfold len; rewrite ?Hl, ?Hh, ?Hc; try apply I.
  - rewrite Hperm. apply I.
  - intros i Hi. rewrite Hn. by apply I.
  - intros i Hi. rewrite Hp. by apply I.
Qed.

(** ** Acquiring from the free list *)

Lemma walk_available_spec d N : forall xs fuel tail n,
  achain d (tail :: xs) -> (N - n <= fuel)%nat ->
  walk_available fuel d N tail (head xs) n =
    Done (last_or tail (take (N - n) xs), head (drop (N - n) xs), (n + length (take (N - n) xs))%nat).
Proof.
  induction xs as [|x xs IH]; intros fuel tail n H Hf.
  - rewrite take_nil, drop_nil. cbn. rewrite Nat.add_0_r. by destruct fuel.
  - cbn [head]. destruct (decide (n < N)%nat) as [Hlt|Hge].
    + destruct fuel as [|fuel]; [lia|]. cbn [walk_available]. rewrite decide_True by done.
      destruct H as [_ H]. destruct (avail_rec d x (head xs) (proj1 H)) as (c & -> & Hc). cbn [mbind outcome_bind]. rewrite Hc.
      rewrite IH by (done || lia). replace (N - n)%nat with (S (N - (n + 1))) by lia. cbn [take drop]. rewrite last_or_cons. cbn [length].
      do 2 f_equal. lia.
    + replace (N - n)%nat with 0%nat by lia. cbn. rewrite Nat.add_0_r.
      destruct fuel; cbn [walk_available]; by rewrite decide_False by lia.
Qed.

Lemma try_acquire_locked_spec p d N free chains prot r : (1 <= N)%nat ->
  hz_inv (set_avail d (Some r, false)) (r :: free) chains prot ->
  exists d', try_acquire_available_locked p d N (Some r, false) = Done (d', r, length (take N (r :: free))) /\
    hz_inv d' (drop N (r :: free)) (take N (r :: free) :: chains) prot.
Proof.
  intros HN I. unfold try_acquire_available_locked. rewrite debug_assert_true by (by apply bool_decide_eq_true).
  cbn [mbind outcome_bind]. pose proof (hz_free _ _ _ _ I) as Hfree. apply (achain_frame _ d) in Hfree; [|done].
  destruct (avail_rec d r (head free)) as (c & -> & Hc); [apply Hfree|]. cbn [mbind outcome_bind]. rewrite Hc.
  rewrite walk_available_spec by (done || lia). cbn [mbind outcome_bind]. destruct N as [|N]; [lia|].
  replace (S N - 1)%nat with N by lia. cbn [take drop length].
  set (tail := last_or r (take N free)). pose proof (hz_nodup _ _ _ _ I) as Hnd. apply NoDup_app in Hnd as (Hnd & _ & _).
  assert (Esplit : exists A, r :: take N free = A ++ [tail]).
  { destruct (last (r :: take N free)) as [t|] eqn:El.
    - pose proof El as Et. rewrite last_cons in Et. apply last_Some in El as [A EA]. exists A. rewrite EA. subst tail.
      unfold last_or. by destruct (last (take N free)); injection Et as <-.
    - rewrite last_cons in El. by destruct (last (take N free)). }
  destruct Esplit as [A EA].
  assert (Eall : r :: free = A ++ tail :: drop N free).
  { rewrite <- (take_drop N free) at 1. rewrite app_comm_cons, EA, <- app_assoc. done. }
  set (d1 := set_avail d (head (drop N free), false)).
  assert (Htail : (tail < length (hd_recs d))%nat).
  { apply (hz_below _ _ _ _ tail I). rewrite Eall. apply elem_of_app. left. apply elem_of_app. right. by left. }
  destruct (set_available_spec d1 tail None Htail) as (d' & -> & [Shp Slen] & Hav & Hnx & Hpr).
  cbn [mbind outcome_bind]. exists d'. split; [done|].
  rewrite Eall in Hfree. rewrite Eall in Hnd.
  destruct (achain_cut d d' _ _ _ Hfree Hnd) as [H1 H2]; [done|].
  apply (hz_relink _ _ _ _ _ _ _ I); rewrite ?Shp; try done.
  - rewrite EA. constructor; [done|]. pose proof (hz_chains _ _ _ _ I) as Hcs. pose proof (hz_nodup _ _ _ _ I) as Hn.
    rewrite Forall_forall in Hcs |- *. intros rs Hrs. apply (achain_frame (set_avail d (Some r, false))); [|by apply Hcs].
    intros q Hq. rewrite Hav, decide_False; [done|]. intros ->. apply NoDup_app in Hn as (_ & Hn & _).
    apply (Hn tail); [rewrite Eall; apply elem_of_app; right; by left|]. apply elem_of_concat. by exists rs.
  - cbn [concat]. rewrite EA, Eall. rewrite app_assoc. apply Permutation_app; [|done].
    by rewrite (Permutation_app_comm (drop N free)), <- app_assoc.
  - intros q Hq. apply (hz_prot_free _ _ _ _ I). rewrite Eall. apply elem_of_app. right. by right.
Qed.

Lemma try_acquire_available_spec p d N free chains prot : (1 <= N)%nat -> hz_inv d free chains prot ->
  exists d', try_acquire_available alone_fuel p d N = Done (d', head free, length (take N free)) /\
    hz_inv d' (drop N free) (take N free :: chains) prot.
Proof.
  intros HN I. unfold alone_fuel. cbn [try_acquire_available]. rewrite debug_assert_true by (by apply bool_decide_eq_true).
  cbn [mbind outcome_bind]. rewrite (hz_head _ _ _ _ I). destruct free as [|r free]; cbn [head].
  - rewrite decide_True by done. rewrite take_nil, drop_nil. exists d. split; [done|].
    destruct I. constructor; try done. by constructor.
  - rewrite decide_False by done. unfold try_lock. rewrite (hz_head _ _ _ _ I). cbn [head fst snd negb].
    destruct (try_acquire_locked_spec p (set_avail d (Some r, true)) N free chains prot r HN) as (d' & E & I').
    { apply (hz_relink _ _ _ _ _ _ _ I); try done; [by do 2 apply achain_set_avail; apply I| |apply I].
      eapply Forall_impl; [apply I|]. intros rs Hrs. by do 2 apply achain_set_avail. }
    rewrite E. cbn [mbind outcome_bind].
    rewrite !debug_assert_true by (apply bool_decide_eq_true; rewrite length_take; cbn [length]; lia).
    cbn [mbind outcome_bind]. by exists d'.
Qed.

(** ** New records *)

Lemma new_rec_loop_spec d rec c : forall spurious recs, recs !! rec = Some c ->
  new_rec_loop spurious (mkHzdDomain d recs) rec (hp_head d) =
  Done (mkHzdDomain (mkHazPtrRecs (Some rec) (avail_head d) (wrap usize_bits (hp_count d + 1)))
          (<[rec := set_next (hp_head d) c]> recs)).
Proof.
  intros spurious. revert c. induction spurious as [|k IH]; intros c recs Hc; cbn [new_rec_loop];
    unfold upd_rec, rec_at; cbn [hd_recs]; rewrite Hc; cbn [mbind outcome_bind hazard_pointers hd_recs].
  - by rewrite decide_True.
  - rewrite (IH (set_next (hp_head d) c)) by (apply list_lookup_insert_eq; by eapply lookup_lt_Some).
    by rewrite list_insert_insert_eq.
Qed.

Lemma acquire_new_rec_done spurious d :
  acquire_new_rec spurious d =
  Done (mkHzdDomain (mkHazPtrRecs (Some (length (hd_recs d))) (avail_head (hazard_pointers d)) (wrap usize_bits (hp_count (hazard_pointers d) + 1)))
          (hd_recs d ++ [mkHzdPtrRec None (hp_head (hazard_pointers d)) None]), length (hd_recs d)).
Proof.
  unfold acquire_new_rec. cbn [hazard_pointers].
  rewrite (new_rec_loop_spec _ _ (mkHzdPtrRec None None None)) by (by rewrite lookup_app_r, Nat.sub_diag by lia).
  cbn [mbind outcome_bind]. rewrite insert_app_r_alt, Nat.sub_diag by lia. done.
Qed.

Lemma recs_snoc (f : HzdPtrRec -> option nat) recs c q :
  f <$> (recs ++ [c]) !! q = if decide (q = length recs) then Some (f c) else f <$> recs !! q.
Proof.
  case_decide as E.
  - by rewrite E, lookup_app_r, Nat.sub_diag by lia.
  - destruct (decide (q < length recs)%nat); [by rewrite lookup_app_l|].
    rewrite !lookup_ge_None_2; [done| |]; rewrite ?length_app; cbn; lia.
Qed.

Lemma new_rec_inv spurious d free chains prot :
  hz_inv d free chains prot -> len (hd_recs d) + 1 < 2 ^ usize_bits ->
  exists d', acquire_new_rec spurious d = Done (d', length (hd_recs d)) /\
    hz_inv d' free ([length (hd_recs d)] :: chains) prot /\ length (hd_recs d') = S (length (hd_recs d)).
Proof.
  intros I Hlen. rewrite acquire_new_rec_done. eexists. split; [done|].
  set (n := length (hd_recs d)) in *. set (d' := mkHzdDomain _ _).
  assert (Hav : forall q, avail d' q = if decide (q = n) then Some None else avail d q) by (intros q; apply recs_snoc).
  assert (Hnx : forall q, nextd d' q = if decide (q = n) then Some (hp_head (hazard_pointers d)) else nextd d q) by (intros q; apply recs_snoc).
  assert (Hl : length (hd_recs d') = S n) by (cbn; rewrite length_app; cbn; subst n; lia).
  assert (Hold : forall rs, (forall q, q ∈ rs -> q ∈ free ++ concat chains) -> achain d rs -> achain d' rs).
  { intros rs Hrs. apply achain_frame. intros q Hq%Hrs%(hz_below _ _ _ _ _ I). rewrite Hav, decide_False; [done|lia]. }
  split; [|done]. constructor; rewrite ?Hl.
  - apply I.
  - apply Hold; [|apply I]. intros q Hq. apply elem_of_app. by left.
  - constructor; [cbn; by rewrite Hav, decide_True|]. pose proof (hz_chains _ _ _ _ I) as Hcs. rewrite Forall_forall in Hcs |- *.
    intros rs Hrs. apply Hold; [|by apply Hcs]. intros q Hq. apply elem_of_app. right. apply elem_of_concat. by exists rs.
  - pose proof (hz_part _ _ _ _ I) as Hp. fold n in Hp. rewrite seq_S, <- Hp. cbn [concat Nat.add].
    rewrite Permutation_app_swap_app. apply Permutation_app_comm.
  - intros i Hi. rewrite Hnx. case_decide as E; [|apply I; lia]. rewrite E. f_equal. apply I.
  - done.
  - unfold len. rewrite Hl. cbn. rewrite (hz_counts _ _ _ _ I), wrap_small; unfold in_width, len in *; lia.
  - intros r Hr. unfold protd. cbn. destruct (decide (r = n)) as [->|Hne].
    + rewrite lookup_app_r by lia. unfold n at 1. rewrite Nat.sub_diag. cbn. f_equal. destruct (prot !! n) eqn:E; [|done].
      pose proof (hz_prot_dom _ _ _ _ I n) as H. rewrite E in H. specialize (H ltac:(done)). lia.
    + rewrite lookup_app_l by lia. apply (hz_prot _ _ _ _ I). lia.
  - intros r Hr%(hz_prot_dom _ _ _ _ I). lia.
  - apply I.
Qed.

Lemma last_snoc_inv {A} (l : list A) t : last l = Some t -> exists k, l = k ++ [t].
Proof. by intros [k ->]%last_Some; exists k. Qed.

(** A new record is chained to the last one of the array that is being
    filled. *)

Lemma link_new_inv spurious d free T chains prot :
  hz_inv d free (T :: chains) prot -> len (hd_recs d) + 1 < 2 ^ usize_bits ->
  exists d1 d2, acquire_new_rec spurious d = Done (d1, length (hd_recs d)) /\
    match last T with Some t => upd_rec d1 t (set_available (Some (length (hd_recs d)))) | None => Done d1 end = Done d2 /\
    hz_inv d2 free ((T ++ [length (hd_recs d)]) :: chains) prot /\ length (hd_recs d2) = S (length (hd_recs d)).
Proof.
  intros I Hlen. destruct (new_rec_inv spurious _ _ _ _ I Hlen) as (d1 & E1 & I1 & L1). exists d1.
  set (n := length (hd_recs d)) in *. destruct (last T) as [t|] eqn:Et; cycle 1.
  { apply last_None in Et as ->. exists d1. split; [done|]. split; [done|]. split; [|done]. destruct I1. constructor; try done.
    by inv hz_chains0; inv H2; constructor. }
  apply last_snoc_inv in Et as [A ->]. pose proof (hz_nodup _ _ _ _ I1) as Hn.
  apply NoDup_app in Hn as (_ & Hfree & Hn). cbn [concat] in Hn. apply NoDup_cons in Hn as [Hnn Hn].
  apply NoDup_app in Hn as (HnT & HT & _).
  assert (Ht : (t < length (hd_recs d1))%nat).
  { apply (hz_below _ _ _ _ _ I1). cbn [concat]. do 2 (apply elem_of_app; right). apply elem_of_app. left. apply elem_of_app. right. by left. }
  destruct (set_available_spec d1 t (Some n) Ht) as (d2 & E2 & [Shp Slen] & Hav & Hnx & Hpr).
  assert (Htin : t ∈ A ++ [t]) by (apply elem_of_app; right; by left).
  exists d2. split; [done|]. split; [done|]. split; [|by rewrite Slen].
  pose proof (hz_chains _ _ _ _ I1) as [H0 [HcT Hcs]%Forall_cons]%Forall_cons.
  apply (hz_relink _ _ _ _ _ _ _ I1); rewrite ?Shp; try done; try apply I1.
  - apply (achain_frame d1); [|apply I1]. intros q Hq. rewrite Hav, decide_False; [done|]. intros ->.
    apply (Hfree t Hq). cbn [concat]. apply elem_of_app. right. apply elem_of_app. by left.
  - constructor.
    + apply (achain_join d1); [done|done|done| |done]. intros ->%list_elem_of_singleton.
      apply Hnn, elem_of_app. left. apply elem_of_app. right. by left.
    + rewrite Forall_forall in Hcs |- *. intros rs Hrs. apply (achain_frame d1); [|by apply Hcs].
      intros q Hq. rewrite Hav, decide_False; [done|]. intros ->. apply (HT t Htin), elem_of_concat. by exists rs.
  - cbn [concat]. rewrite <- app_assoc. apply Permutation_app; [done|]. rewrite !(app_assoc _ _ (concat chains)).
    apply Permutation_app; [|done]. apply Permutation_app_comm.
Qed.

Lemma fill_new_spec spurious free chains prot : forall k d T,
  hz_inv d free (T :: chains) prot -> len (hd_recs d) + Z.of_nat k < 2 ^ usize_bits ->
  exists d', fill_slots spurious k d None (last T) = Done (d', seq (length (hd_recs d)) k) /\
    hz_inv d' free ((T ++ seq (length (hd_recs d)) k) :: chains) prot /\ length (hd_recs d') = (length (hd_recs d) + k)%nat.
Proof.
  induction k as [|k IH]; intros d T I Hlen.
  - exists d. cbn. rewrite app_nil_r, Nat.add_0_r. done.
  - destruct (link_new_inv spurious _ _ _ _ _ I) as (d1 & d2 & E1 & E2 & I2 & L2); [lia|].
    cbn [fill_slots]. rewrite E1. cbn [mbind outcome_bind]. rewrite E2. cbn [mbind outcome_bind].
    destruct (IH _ _ I2) as (d' & E & I' & L'); [unfold len in *; lia|]. rewrite last_snoc in E. rewrite E.
    cbn [mbind outcome_bind]. rewrite L2. exists d'. split; [done|]. rewrite <- app_assoc, L2 in I'. split; [done|lia].
Qed.

Lemma fill_slots_spec spurious free chains prot k d : forall L T,
  hz_inv d free ((T ++ L) :: chains) prot -> len (hd_recs d) + Z.of_nat k < 2 ^ usize_bits ->
  exists d', fill_slots spurious (length L + k) d (head L) (last T) = Done (d', L ++ seq (length (hd_recs d)) k) /\
    hz_inv d' free ((T ++ L ++ seq (length (hd_recs d)) k) :: chains) prot /\ length (hd_recs d') = (length (hd_recs d) + k)%nat.
Proof.
  induction L as [|r L IH]; intros T I Hlen.
  - rewrite app_nil_r in I. by apply fill_new_spec.
  - cbn [length Nat.add fill_slots head]. pose proof (hz_chains _ _ _ _ I) as [Hc _]%Forall_cons.
    assert (Hav : avail d r = Some (head L)).
    { clear -Hc. induction T as [|x T IH]; [by destruct Hc|apply IH, Hc]. }
    destruct (avail_rec _ _ _ Hav) as (c & -> & Hcv). cbn [mbind outcome_bind]. rewrite Hcv.
    destruct (IH (T ++ [r])) as (d' & E & I' & L'); [by rewrite <- app_assoc|done|].
    rewrite last_snoc in E. rewrite E. cbn [mbind outcome_bind]. exists d'. split; [done|]. rewrite <- app_assoc in I'. done.
Qed.

Lemma acquire_many_spec spurious p d N free chains prot : (1 <= N)%nat -> hz_inv d free chains prot ->
  len (hd_recs d) + Z.of_nat (N - length free) < 2 ^ usize_bits ->
  let rs := take N free ++ seq (length (hd_recs d)) (N - length free) in
  exists d', acquire_many spurious p d N = Done (d', rs) /\ hz_inv d' (drop N free) (rs :: chains) prot /\
    length (hd_recs d') = (length (hd_recs d) + (N - length free))%nat.
Proof.
  intros HN I Hlen rs. unfold acquire_many. rewrite debug_assert_true by (by apply bool_decide_eq_true).
  cbn [mbind outcome_bind]. destruct (try_acquire_available_spec p d N free chains prot HN I) as (d1 & -> & I1).
  cbn [mbind outcome_bind]. rewrite rust_assert_true by (apply bool_decide_eq_true; rewrite length_take; lia).
  cbn [mbind outcome_bind].
  assert (L1 : length (hd_recs d1) = length (hd_recs d)).
  { pose proof (Permutation_length (hz_part _ _ _ _ I1)) as H1. pose proof (Permutation_length (hz_part _ _ _ _ I)) as H2.
    rewrite !length_app, length_seq in H1, H2. cbn [concat] in H1. rewrite length_app, length_take, length_drop in H1. lia. }
  destruct (fill_slots_spec spurious _ chains prot (N - length free) d1 (take N free) [] I1) as (d' & E & I' & L').
  { unfold len in *. lia. }
  rewrite length_take in E. replace (N `min` length free + (N - length free))%nat with N in E by lia.
  replace (head (take N free)) with (head free) in E by (destruct N; [lia|by destruct free]).
  cbn [last] in E. rewrite E. exists d'. rewrite L1 in *. done.
Qed.

(** ** Releasing *)

Lemma push_available_spec p d free rs chains prot A t :
  hz_inv d free (rs :: chains) prot -> rs = A ++ [t] -> (forall r, r ∈ rs -> prot !! r = None) ->
  exists d', push_available p d (default t (head rs)) t = Done d' /\ hz_inv d' (rs ++ free) chains prot /\
    length (hd_recs d') = length (hd_recs d).
Proof.
  intros I -> Hp. pose proof (hz_chains _ _ _ _ I) as [Hc Hcs]%Forall_cons. pose proof (hz_nodup _ _ _ _ I) as Hn.
  apply NoDup_app in Hn as (_ & Hfree & Hn). cbn [concat] in Hn, Hfree. apply NoDup_app in Hn as (Hnrs & Hrs & _).
  assert (Htin : t ∈ A ++ [t]) by (apply elem_of_app; right; by left).
  assert (Ht : (t < length (hd_recs d))%nat).
  { apply (hz_below _ _ _ _ _ I). apply elem_of_app. right. cbn [concat]. apply elem_of_app. by left. }
  destruct (avail_rec _ _ _ (achain_avail _ _ _ Hc)) as (c & Ec & Hcv). unfold push_available. rewrite Ec. cbn [mbind outcome_bind].
  rewrite Hcv, debug_assert_true by done. cbn [mbind outcome_bind]. unfold alone_fuel. cbn [push_loop].
  rewrite (hz_head _ _ _ _ I). cbn [negb fst snd].
  destruct (set_available_spec d t (head free) Ht) as (d1 & -> & [Shp Slen] & Hav & Hnx & Hpr). cbn [mbind outcome_bind].
  rewrite Shp, (hz_head _ _ _ _ I), decide_True by done. eexists. split; [done|]. split; [|done].
  apply (hz_relink _ _ _ _ _ _ _ I); try done; cbn [hazard_pointers hp_head avail_head hp_count set_avail]; rewrite ?Shp; try done.
  - by destruct A.
  - apply achain_set_avail. apply (achain_join d); [done|apply I|done| |done].
    intros Hin. apply (Hfree t Hin). apply elem_of_app. by left.
  - rewrite Forall_forall in Hcs |- *. intros l Hl. apply achain_set_avail, (achain_frame d); [|by apply Hcs].
    intros q Hq. rewrite Hav, decide_False; [done|]. intros ->. apply (Hrs t Htin), elem_of_concat. by exists l.
  - cbn [concat]. by rewrite (Permutation_app_comm _ free), <- app_assoc.
  - intros r [Hr|Hr]%elem_of_app; [by apply Hp|by apply (hz_prot_free _ _ _ _ I)].
Qed.

Lemma release_many_spec p d free rs chains prot :
  hz_inv d free (rs :: chains) prot -> rs <> [] -> (forall r, r ∈ rs -> prot !! r = None) ->
  exists d', release_many p d rs = Done d' /\ hz_inv d' (rs ++ free) chains prot /\ length (hd_recs d') = length (hd_recs d).
Proof.
  intros I Hne Hp. destruct (last rs) as [t|] eqn:Et; [|by apply last_None in Et].
  pose proof Et as Et'. apply last_snoc_inv in Et' as [A EA].
  destruct (push_available_spec p d free rs chains prot A t I EA Hp) as (d' & E & H).
  exists d'. split; [|done]. unfold release_many. destruct rs as [|h rs]; [done|]. rewrite Et.
  pose proof (hz_chains _ _ _ _ I) as [Hc _]%Forall_cons. rewrite EA in Hc.
  destruct (avail_rec _ _ _ (achain_avail _ _ _ Hc)) as (c & -> & Hcv). cbn [mbind outcome_bind].
  rewrite Hcv, rust_assert_true by done. exact E.
Qed.

(** ** Protecting *)

(** What a record protects after a protection of [o]. *)

Definition protecting (prot : gmap nat Z) (r : nat) (o : option Z) : gmap nat Z := partial_alter (fun _ => o) r prot.

Lemma set_ptr_inv d free chains prot r o : hz_inv d free chains prot -> r ∈ concat chains ->
  exists d', upd_rec d r (set_ptr o) = Done d' /\ hz_inv d' free chains (protecting prot r o) /\
    length (hd_recs d') = length (hd_recs d).
Proof.
  intros I Hr. assert (Hlt : (r < length (hd_recs d))%nat) by (apply (hz_below _ _ _ _ _ I), elem_of_app; by right).
  destruct (set_ptr_spec d r o Hlt) as (d' & -> & [Shp Slen] & Hpr & Hav & Hnx). exists d'. split; [done|]. split; [|done].
  constructor; unfold len; rewrite ?Shp, ?Slen; try apply I.
  - apply (achain_frame d); [|apply I]. intros q _. apply Hav.
  - eapply Forall_impl; [apply I|]. intros l. apply achain_frame. intros q _. apply Hav.
  - intros i Hi. rewrite Hnx. by apply I.
  - intros q Hq. rewrite Hpr. unfold protecting. destruct (decide (q = r)) as [->|Hne]; [by rewrite lookup_partial_alter_eq|].
    rewrite lookup_partial_alter_ne by done. by apply I.
  - intros q. unfold protecting. destruct (decide (q = r)) as [->|Hne]; [done|]. rewrite lookup_partial_alter_ne by done. apply I.
  - intros q Hq. unfold protecting. rewrite lookup_partial_alter_ne; [by apply (hz_prot_free _ _ _ _ I)|].
    intros ->. pose proof (hz_nodup _ _ _ _ I) as Hn. apply NoDup_app in Hn as (_ & Hn & _). by apply (Hn q Hq).
Qed.

(** The first value that two loads in a row agree on. *)

Fixpoint settled_on (ptr : option Z) (loads : list (option Z)) : option (option Z) :=
  match loads with
  | [] => None
  | v :: loads => if decide (ptr = v) then Some ptr else settled_on v loads
  end.

Definition settled (loads : list (option Z)) : option (option Z) :=
  match loads with [] => None | v :: loads => settled_on v loads end.

Lemma protecting_twice prot r o o' : protecting (protecting prot r o) r o' = protecting prot r o'.
Proof. apply map_eq. intros q. unfold protecting. rewrite !lookup_partial_alter. by case_decide. Qed.

Lemma protect_loop_spec free chains r : forall loads d prot ptr o, hz_inv d free chains prot -> r ∈ concat chains ->
  settled_on ptr loads = Some o ->
  exists d', protect_loop d r ptr loads = Done (d', o) /\ hz_inv d' free chains (protecting prot r o) /\
    length (hd_recs d') = length (hd_recs d).
Proof.
  induction loads as [|v loads IH]; intros d prot ptr o I Hr Hs; [done|]. cbn [settled_on protect_loop] in *.
  unfold try_protect_ptr, HzdPtrRec_protect, HzdPtrRec_reset.
  destruct (set_ptr_inv d free chains prot r ptr I Hr) as (d1 & -> & I1 & L1). cbn [mbind outcome_bind].
  case_decide as E.
  - rewrite decide_False by (intros H; by apply H). injection Hs as <-. cbn [mbind outcome_bind]. by exists d1.
  - rewrite decide_True by done. destruct (set_ptr_inv d1 free chains _ r None I1 Hr) as (d2 & -> & I2 & L2). cbn [mbind outcome_bind].
    destruct (IH d2 _ v o I2 Hr Hs) as (d3 & -> & I3 & L3). exists d3. rewrite !protecting_twice in I3. split; [done|]. split; [done|congruence].
Qed.

Lemma protect_spec d free chains prot r loads o : hz_inv d free chains prot -> r ∈ concat chains -> settled loads = Some o ->
  exists d', protect d r loads = Done (d', o) /\ hz_inv d' free chains (protecting prot r o) /\
    length (hd_recs d') = length (hd_recs d).
Proof.
  intros I Hr Hs. destruct loads as [|v loads]; [done|].
  destruct (protect_loop_spec free chains r loads d prot v o I Hr Hs) as (d' & E & H). exists d'. split; [|done].
  unfold protect, protect_ptr. rewrite E. cbn [mbind outcome_bind]. by destruct o.
Qed.

Definition protecting_all (prot : gmap nat Z) (ros : list (nat * option Z)) : gmap nat Z :=
  foldl (fun m ro => protecting m ro.1 ro.2) prot ros.

Lemma protect_all_spec free chains : forall rs loads os d prot, hz_inv d free chains prot ->
  (forall r, r ∈ rs -> r ∈ concat chains) -> length loads = length rs -> mapM settled loads = Some os ->
  exists d', protect_all d rs loads = Done (d', os) /\ hz_inv d' free chains (protecting_all prot (zip rs os)) /\
    length (hd_recs d') = length (hd_recs d).
Proof.
  induction rs as [|r rs IH]; intros [|l loads] os d prot I Hin Hlen Hs; try done.
  - injection Hs as <-. by exists d.
  - apply mapM_Some in Hs. apply Forall2_cons_inv_l in Hs as (o & os' & Ho & Hos & ->). apply mapM_Some in Hos.
    cbn [protect_all]. destruct (protect_spec d free chains prot r l o I) as (d1 & -> & I1 & L1); [apply Hin; by left|done|].
    cbn [mbind outcome_bind]. destruct (IH loads os' d1 _ I1) as (d2 & -> & I2 & L2); [intros q Hq; apply Hin; by right|by injection Hlen|done|].
    cbn [mbind outcome_bind]. exists d2. split; [done|]. split; [done|congruence].
Qed.

(** A source that does not settle keeps the loop going. *)

Lemma protect_unsettled free chains r : forall loads d prot ptr, hz_inv d free chains prot -> r ∈ concat chains ->
  settled_on ptr loads = None -> protect_loop d r ptr loads = NoFuel.
Proof.
  induction loads as [|v loads IH]; intros d prot ptr I Hr Hs; [done|]. cbn [settled_on protect_loop] in *.
  unfold try_protect_ptr, HzdPtrRec_protect, HzdPtrRec_reset.
  destruct (set_ptr_inv d free chains prot r ptr I Hr) as (d1 & -> & I1 & L1). cbn [mbind outcome_bind].
  case_decide as E; [done|]. rewrite decide_True by done.
  destruct (set_ptr_inv d1 free chains _ r None I1 Hr) as (d2 & -> & I2 & L2). cbn [mbind outcome_bind].
  by apply (IH d2 _ v I2).
Qed.

Lemma protect_all_unsettled free chains : forall rs loads d prot, hz_inv d free chains prot ->
  (forall r, r ∈ rs -> r ∈ concat chains) -> length loads = length rs -> mapM settled loads = None ->
  protect_all d rs loads = NoFuel.
Proof.
  induction rs as [|r rs IH]; intros [|l loads] d prot I Hin Hlen Hs; try done. cbn [protect_all].
  destruct (settled l) as [o|] eqn:El.
  - destruct (protect_spec d free chains prot r l o I) as (d1 & -> & I1 & L1); [apply Hin; by left|done|].
    cbn [mbind outcome_bind]. rewrite (IH loads d1 _ I1); [done|intros q Hq; apply Hin; by right|by injection Hlen|].
    cbn in Hs. rewrite El in Hs. cbn in Hs. by destruct (mapM settled loads).
  - unfold protect, protect_ptr. destruct l as [|v l]; [done|]. cbn [settled] in El.
    by rewrite (protect_unsettled free chains r l d prot v I) by (done || (apply Hin; by left)).
Qed.

Definition released (prot : gmap nat Z) (rs : list nat) : gmap nat Z := foldl (fun m r => delete r m) prot rs.

Lemma reset_all_spec free chains : forall rs d prot, hz_inv d free chains prot -> (forall r, r ∈ rs -> r ∈ concat chains) ->
  exists d', HzdPtrArray_reset_protection d rs = Done d' /\ hz_inv d' free chains (released prot rs) /\
    length (hd_recs d') = length (hd_recs d).
Proof.
  induction rs as [|r rs IH]; intros d prot I Hin; [by exists d|]. cbn [HzdPtrArray_reset_protection].
  unfold reset_protection, HzdPtrRec_reset. destruct (set_ptr_inv d free chains prot r None I) as (d1 & -> & I1 & L1); [apply Hin; by left|].
  cbn [mbind outcome_bind]. destruct (IH d1 _ I1) as (d2 & -> & I2 & L2); [intros q Hq; apply Hin; by right|].
  exists d2. split; [done|]. split; [done|congruence].
Qed.

Lemma released_none rs : forall prot r, r ∈ rs \/ prot !! r = None -> released prot rs !! r = None.
Proof.
  induction rs as [|q rs IH]; intros prot r H; cbn.
  - by destruct H as [H|H]; [apply not_elem_of_nil in H|].
  - apply IH. destruct (decide (q = r)) as [->|Hne]; [right; apply lookup_delete_eq|].
    destruct H as [[->|H]%elem_of_cons|H]; [done|by left|right; by rewrite lookup_delete_ne].
Qed.

(** ** Clients *)

Inductive holder := HOne (r : nat) | HArray (rs : list nat).

Definition holder_recs (h : holder) : list nat := match h with HOne r => [r] | HArray rs => rs end.

Inductive hz_op :=
  | HOpNew
  | HOpMany (N : nat)
  | HOpProtect (k : nat) (loads : list (list (option Z)))
  | HOpReset (k : nat)
  | HOpDrop (k : nat).

Inductive hz_result := HRecs (rs : list nat) | HVals (vs : list (option Z)) | HDone | HSkip.

(** A client keeps what it acquired, the latest first, and names it by its
    position. *)

Definition hz_step (spurious : nat) (p : profile) (d : HzdDomain) (held : list holder) (op : hz_op)
  : outcome (HzdDomain * list holder * hz_result) :=
  match op with
  | HOpNew => '(d, r) ← new_in_domain spurious p d; Done (d, HOne r :: held, HRecs [r])
  | HOpMany N => '(d, rs) ← many_in_domain spurious p d N; Done (d, HArray rs :: held, HRecs rs)
  | HOpProtect k loads =>
      match held !! k, loads with
      | Some (HOne r), [l] => '(d, v) ← protect d r l; Done (d, held, HVals [v])
      | Some (HArray rs), _ =>
          if decide (length loads = length rs) then '(d, vs) ← protect_all d rs loads; Done (d, held, HVals vs)
          else Done (d, held, HSkip)
      | _, _ => Done (d, held, HSkip)
      end
  | HOpReset k =>
      match held !! k with
      | Some (HOne r) => d ← reset_protection d r; Done (d, held, HDone)
      | Some (HArray rs) => d ← HzdPtrArray_reset_protection d rs; Done (d, held, HDone)
      | None => Done (d, held, HSkip)
      end
  | HOpDrop k =>
      match held !! k with
      | Some (HOne r) => d ← HzdPtr_drop d r; Done (d, delete k held, HDone)
      | Some (HArray rs) => d ← HzdPtrArray_drop p d rs; Done (d, delete k held, HDone)
      | None => Done (d, held, HSkip)
      end
  end.

Fixpoint hz_run (spurious : nat) (p : profile) (d : HzdDomain) (held : list holder) (ops : list hz_op)
  : outcome (HzdDomain * list holder * list hz_result) :=
  match ops with
  | [] => Done (d, held, [])
  | op :: ops =>
      '(d, held, r) ← hz_step spurious p d held op;
      '(d, held, rs) ← hz_run spurious p d held ops;
      Done (d, held, r :: rs)
  end.

(** ** What a domain promises *)

(** A stack of free records, those each client holds, how many there are, and
    what each protects. *)

Record hz_spec := mkHzSpec {
  sp_free : list nat;
  sp_held : list holder;
  sp_records : nat;
  sp_prot : gmap nat Z
}.

Definition sp_acquire (x : hz_spec) (N : nat) (hold : list nat -> holder) : hz_spec * hz_result :=
  let rs := take N (sp_free x) ++ seq (sp_records x) (N - length (sp_free x)) in
  (mkHzSpec (drop N (sp_free x)) (hold rs :: sp_held x) (sp_records x + (N - length (sp_free x))) (sp_prot x), HRecs rs).

Definition sp_one (rs : list nat) : holder := HOne (default 0%nat (head rs)).

(** Besides results a client can get a panic, which ends the run: for dropping
    a single pointer, whose record is then lost; for an array of no records, in
    a debug build, or when there are free records, or when it is dropped.  A
    call of [protect] goes on for ever if the source never settles. *)

Definition sp_step (p : profile) (x : hz_spec) (op : hz_op) : outcome (hz_spec * hz_result) :=
  match op with
  | HOpNew => Done (sp_acquire x 1 sp_one)
  | HOpMany O =>
      match p, sp_free x with
      | Debug, _ => Panic "N >= 1"
      | Release, [] => Done (sp_acquire x 0 HArray)
      | Release, _ :: _ => Panic "n <= N"
      end
  | HOpMany N => Done (sp_acquire x N HArray)
  | HOpProtect k loads =>
      match sp_held x !! k with
      | None => Done (x, HSkip)
      | Some h =>
          if decide (length loads = length (holder_recs h)) then
            match mapM settled loads with
            | Some vs =>
                Done (mkHzSpec (sp_free x) (sp_held x) (sp_records x) (protecting_all (sp_prot x) (zip (holder_recs h) vs)), HVals vs)
            | None => NoFuel
            end
          else Done (x, HSkip)
      end
  | HOpReset k =>
      match sp_held x !! k with
      | None => Done (x, HSkip)
      | Some h => Done (mkHzSpec (sp_free x) (sp_held x) (sp_records x) (released (sp_prot x) (holder_recs h)), HDone)
      end
  | HOpDrop k =>
      match sp_held x !! k with
      | None => Done (x, HSkip)
      | Some (HOne _) => Panic "not yet implemented"
      | Some (HArray []) => Panic "index out of bounds"
      | Some (HArray rs) =>
          Done (mkHzSpec (rs ++ sp_free x) (delete k (sp_held x)) (sp_records x) (released (sp_prot x) rs), HDone)
      end
  end.

Fixpoint sp_run (p : profile) (x : hz_spec) (ops : list hz_op) : outcome (hz_spec * list hz_result) :=
  match ops with
  | [] => Done (x, [])
  | op :: ops => '(x, r) ← sp_step p x op; '(x, rs) ← sp_run p x ops; Done (x, r :: rs)
  end.

Definition sp_init : hz_spec := mkHzSpec [] [] 0 ∅.

(** How many records the operations ask for. *)

Definition asked (op : hz_op) : nat := match op with HOpNew => 1 | HOpMany N => N | _ => 0 end.

Record hz_rep (x : hz_spec) (d : HzdDomain) (held : list holder) : Prop := {
  hr_inv : hz_inv d (sp_free x) (holder_recs <$> held) (sp_prot x);
  hr_held : held = sp_held x;
  hr_records : length (hd_recs d) = sp_records x
}.

Lemma hz_inv_perm d free chains chains' prot : chains ≡ₚ chains' -> hz_inv d free chains prot -> hz_inv d free chains' prot.
Proof.
  intros Hp I. constructor; try apply I; [by rewrite <- Hp; apply I|].
  rewrite <- (hz_part _ _ _ _ I). apply Permutation_app; [done|]. clear -Hp. induction Hp; cbn; [done|by rewrite IHHp| |by etrans].
  by rewrite Permutation_app_swap_app.
Qed.

Lemma hz_acquire_rep spurious p x d held N hold : (1 <= N)%nat -> hz_rep x d held ->
  Z.of_nat (sp_records x + N) < 2 ^ usize_bits ->
  (forall rs, length rs = N -> holder_recs (hold rs) = rs) ->
  let rs := take N (sp_free x) ++ seq (sp_records x) (N - length (sp_free x)) in
  exists d', acquire_many spurious p d N = Done (d', rs) /\ hz_rep (sp_acquire x N hold).1 d' (hold rs :: held).
Proof.
  intros HN [I -> Hr] Hlen Hhold rs. destruct (acquire_many_spec spurious p d N _ _ _ HN I) as (d' & E & I' & L').
  { unfold len. rewrite Hr. lia. }
  rewrite Hr in *. exists d'. split; [done|].
  assert (Hrs : length rs = N) by (subst rs; rewrite length_app, length_take, length_seq; lia).
  constructor; cbn [sp_acquire fst sp_free sp_held sp_records sp_prot]; [|done|done].
  rewrite fmap_cons, Hhold by done. done.
Qed.

(** An array of no records, with the assertions on its size compiled out. *)

Lemma hz_acquire_none spurious p x d held : hz_rep x d held ->
  many_in_domain spurious p d 0 =
  match p, sp_free x with Debug, _ => Panic "N >= 1" | Release, [] => Done (d, []) | Release, _ :: _ => Panic "n <= N" end.
Proof.
  intros [I _ _]. destruct p; [done|]. unfold many_in_domain, acquire_many. cbn [debug_assert mbind outcome_bind try_acquire_available alone_fuel].
  rewrite (hz_head _ _ _ _ I). pose proof (hz_free _ _ _ _ I) as Hf. pose proof (fun r => hz_below _ _ _ _ r I) as Hb.
  destruct (sp_free x) as [|r free]; cbn [head]; [by rewrite decide_True|]. rewrite decide_False by done.
  unfold try_lock. rewrite (hz_head _ _ _ _ I). cbn [negb fst snd head]. unfold try_acquire_available_locked. cbn [debug_assert mbind outcome_bind].
  destruct Hf as [Hav _]. destruct (avail_rec (set_avail d (Some r, true)) r (head free) Hav) as (c & -> & Hc). cbn [mbind outcome_bind].
  assert (Hw : walk_available 0 (set_avail d (Some r, true)) 0 r (hz_available c) 1 = Done (r, hz_available c, 1%nat)).
  { cbn [walk_available]. destruct (hz_available c); [|done]. by rewrite decide_False by lia. }
  rewrite Hw. cbn [mbind outcome_bind].
  destruct (set_available_spec (set_avail (set_avail d (Some r, true)) (hz_available c, false)) r None) as (d2 & E2 & _).
  { apply (Hb r). by left. }
  by rewrite E2.
Qed.

Lemma held_chain held k h r : held !! k = Some h -> r ∈ holder_recs h -> r ∈ concat (holder_recs <$> held).
Proof. intros Hk Hr. apply elem_of_concat. exists (holder_recs h). split; [|done]. apply list_elem_of_fmap_2. by eapply list_elem_of_lookup_2. Qed.

Lemma hz_drop_rep p x d held k rs : hz_rep x d held -> held !! k = Some (HArray rs) -> rs <> [] ->
  exists d', HzdPtrArray_drop p d rs = Done d' /\
    hz_rep (mkHzSpec (rs ++ sp_free x) (delete k (sp_held x)) (sp_records x) (released (sp_prot x) rs)) d' (delete k held).
Proof.
  intros [I -> Hr] Hk Hn. unfold HzdPtrArray_drop.
  destruct (reset_all_spec _ _ rs d _ I) as (d1 & -> & I1 & L1); [intros r Hin; by eapply held_chain|].
  cbn [mbind outcome_bind]. pose proof (delete_Permutation _ _ _ Hk) as Hp.
  destruct (release_many_spec p d1 (sp_free x) rs (holder_recs <$> delete k (sp_held x)) (released (sp_prot x) rs)) as (d2 & E & I2 & L2).
  { eapply hz_inv_perm; [|exact I1]. by rewrite Hp at 1. } { done. } { intros r Hin. apply released_none. by left. }
  destruct rs as [|r rs]; [done|]. exists d2. split; [exact E|]. constructor; cbn; [done|done|congruence].
Qed.

(** [impl] does what [spec] says, results, panics and loops alike. *)

Definition implements (spec : outcome (hz_spec * list hz_result)) (impl : outcome (HzdDomain * list holder * list hz_result)) : Prop :=
  match spec with
  | Done (x, rs) => exists d held, impl = Done (d, held, rs) /\ hz_rep x d held
  | Panic why => impl = Panic why
  | NoFuel => impl = NoFuel
  | UB _ => False
  end.

Definition step_ok (p : profile) (spurious : nat) (x : hz_spec) (d : HzdDomain) (held : list holder) (op : hz_op) : Prop :=
  match sp_step p x op with
  | Done (x', r) => exists d' held', hz_step spurious p d held op = Done (d', held', r) /\ hz_rep x' d' held' /\
      (sp_records x' <= sp_records x + asked op)%nat
  | Panic why => hz_step spurious p d held op = Panic why
  | NoFuel => hz_step spurious p d held op = NoFuel
  | UB _ => False
  end.

Lemma new_step_ok spurious p x d held : hz_rep x d held -> Z.of_nat (sp_records x + 1) < 2 ^ usize_bits ->
  step_ok p spurious x d held HOpNew.
Proof.
  intros R Hlen. unfold step_ok, sp_step, sp_acquire. destruct (hz_acquire_rep spurious p x d held 1 sp_one ltac:(lia) R Hlen) as (d' & E & R').
  { intros [|q [|? ?]]; done. }
  cbn [hz_step]. unfold new_in_domain, HzdDomain_acquire. rewrite E. cbn [mbind outcome_bind]. unfold sp_acquire in R'.
  set (rs := take 1 (sp_free x) ++ seq (sp_records x) (1 - length (sp_free x))) in *.
  assert (Hrs : exists q, rs = [q]) by (subst rs; destruct (sp_free x) as [|q f]; [by eexists|exists q; by destruct f]).
  destruct Hrs as [q Eq]. cbn [fst] in R'. rewrite Eq in R' |- *. cbn [mbind outcome_bind].
  exists d', (HOne q :: held). split; [done|]. split; [done|]. cbn. lia.
Qed.

Lemma many_step_ok spurious p x d held N : hz_rep x d held -> Z.of_nat (sp_records x + N) < 2 ^ usize_bits ->
  step_ok p spurious x d held (HOpMany N).
Proof.
  intros R Hlen. unfold step_ok. destruct N as [|N].
  - cbn [sp_step hz_step]. rewrite (hz_acquire_none spurious p x d held R). destruct p; [done|].
    destruct (sp_free x) as [|r free] eqn:Ef; [|done]. unfold sp_acquire. rewrite Ef. exists d, (HArray [] :: held). split; [done|].
    split; [|cbn; lia]. destruct R as [I Eh Hr]. constructor; cbn; [|by f_equal|cbn; lia]. rewrite Ef in I.
    destruct I. by constructor; [..|constructor| | | | | | |].
  - cbn [sp_step]. destruct (hz_acquire_rep spurious p x d held (S N) HArray) as (d' & E & R'); [lia|done|done|done|].
    unfold sp_acquire in R' |- *. cbn [hz_step]. unfold many_in_domain. rewrite E. cbn [mbind outcome_bind]. do 2 eexists.
    split; [done|]. split; [done|]. cbn. lia.
Qed.

Lemma protect_step_ok spurious p x d held k loads : hz_rep x d held -> step_ok p spurious x d held (HOpProtect k loads).
Proof.
  intros R. pose proof R as [I Eh Hr]. unfold step_ok. cbn [sp_step hz_step asked]. rewrite <- Eh.
  assert (Hskip : exists d' held', Done (d, held, HSkip) = Done (d', held', HSkip) /\ hz_rep x d' held' /\ (sp_records x <= sp_records x + 0)%nat).
  { exists d, held. split; [done|]. split; [done|lia]. }
  destruct (held !! k) as [h|] eqn:Hk; [|by destruct loads as [|? [|? ?]]].
  destruct (decide (length loads = length (holder_recs h))) as [Hl|Hl]; cycle 1.
  { destruct h as [q|rs]; cbn [holder_recs] in Hl; [|by rewrite decide_False]. by destruct loads as [|? [|? ?]]. }
  assert (Hin : forall r, r ∈ holder_recs h -> r ∈ concat (holder_recs <$> held)) by (intros r; by apply (held_chain held k h)).
  assert (Eimpl : ('(d, vs) ← protect_all d (holder_recs h) loads; Done (d, held, HVals vs)) =
    match h, loads with
    | HOne r, [l] => '(d, v) ← protect d r l; Done (d, held, HVals [v])
    | HArray rs, _ => if decide (length loads = length rs) then '(d, vs) ← protect_all d rs loads; Done (d, held, HVals vs)
                      else Done (d, held, HSkip)
    | _, _ => Done (d, held, HSkip)
    end).
  { destruct h as [q|rs]; cbn [holder_recs] in *; [|by rewrite decide_True].
    destruct loads as [|l [|? ?]]; try done. cbn [protect_all]. by destruct (protect d q l) as [[]| | |]. }
  destruct (mapM settled loads) as [vs|] eqn:Hm.
  - destruct (protect_all_spec _ _ (holder_recs h) loads vs d _ I Hin Hl Hm) as (d' & E & I' & L').
    rewrite E in Eimpl. exists d', held. split; [by rewrite <- Eimpl|]. split; [|cbn; lia]. by constructor; [..|cbn; congruence].
  - rewrite (protect_all_unsettled _ _ (holder_recs h) loads d _ I Hin Hl Hm) in Eimpl. by rewrite <- Eimpl.
Qed.

Lemma reset_step_ok spurious p x d held k : hz_rep x d held -> step_ok p spurious x d held (HOpReset k).
Proof.
  intros R. pose proof R as [I Eh Hr]. unfold step_ok. cbn [sp_step hz_step asked]. rewrite <- Eh.
  destruct (held !! k) as [h|] eqn:Hk; [|exists d, held; split; [done|]; split; [done|lia]].
  destruct (reset_all_spec _ _ (holder_recs h) d _ I) as (d' & E & I' & L'); [intros r Hr'; by eapply held_chain|].
  exists d', held. split; [|split; [by constructor; [..|cbn; congruence]|cbn; lia]].
  destruct h as [q|rs]; cbn [holder_recs HzdPtrArray_reset_protection] in *; [|by rewrite E].
  destruct (reset_protection d q) as [d1| | |]; try done. cbn [mbind outcome_bind] in E |- *. by injection E as <-.
Qed.

(** Dropping a single hazard pointer never completes. *)

Lemma HzdPtr_drop_panics d free chains prot r : hz_inv d free chains prot -> r ∈ concat chains ->
  HzdPtr_drop d r = Panic "not yet implemented".
Proof.
  intros I Hr. destruct (set_ptr_inv d free chains prot r None I Hr) as (d' & E & _).
  unfold HzdPtr_drop, HzdPtrRec_reset. rewrite E. done.
Qed.

Lemma drop_step_ok spurious p x d held k : hz_rep x d held -> step_ok p spurious x d held (HOpDrop k).
Proof.
  intros R. pose proof R as [I Eh Hr]. unfold step_ok. cbn [sp_step hz_step asked]. rewrite <- Eh.
  destruct (held !! k) as [[q|rs]|] eqn:Hk; [| |exists d, held; split; [done|]; split; [done|lia]].
  - rewrite (HzdPtr_drop_panics d _ _ _ q I); [done|]. apply (held_chain held k (HOne q)); [done|by left].
  - destruct rs as [|r rs]; [done|]. destruct (hz_drop_rep p x d held k (r :: rs) R Hk) as (d' & E & R'); [done|].
    rewrite E. cbn [mbind outcome_bind]. do 2 eexists. split; [done|]. split; [by rewrite <- Eh in R'|cbn; lia].
Qed.

Lemma hz_step_rep spurious p x d held op : hz_rep x d held -> Z.of_nat (sp_records x + asked op) < 2 ^ usize_bits ->
  step_ok p spurious x d held op.
Proof.
  intros R Hlen. destruct op; [by apply new_step_ok|by apply many_step_ok|by apply protect_step_ok|by apply reset_step_ok|by apply drop_step_ok].
Qed.

Lemma hz_run_rep spurious p ops : forall x d held, hz_rep x d held ->
  Z.of_nat (sp_records x + sum_list_with asked ops) < 2 ^ usize_bits ->
  implements (sp_run p x ops) (hz_run spurious p d held ops).
Proof.
  induction ops as [|op ops IH]; intros x d held R Hlen; [by exists d, held|]. cbn [sum_list_with sp_run hz_run] in *.
  pose proof (hz_step_rep spurious p x d held op R ltac:(lia)) as Hs. unfold step_ok in Hs.
  destruct (sp_step p x op) as [[x1 r]| | |]; cbn [mbind outcome_bind implements]; [|by rewrite Hs|done|by rewrite Hs].
  destruct Hs as (d1 & held1 & -> & R1 & Hle). cbn [mbind outcome_bind]. specialize (IH x1 d1 held1 R1 ltac:(lia)).
  destruct (sp_run p x1 ops) as [[x2 rs]| | |]; cbn [implements mbind outcome_bind] in IH |- *; [|by rewrite IH|done|by rewrite IH].
  destruct IH as (d2 & held2 & -> & R2). by exists d2, held2.
Qed.

Lemma hz_rep_init : hz_rep sp_init HzdDomain_new [].
Proof.
  constructor; [|done|done]. constructor; cbn; try done; try lia.
  intros r. rewrite lookup_empty. by intros [? ?].
Qed.

(** C17: used by one operation at a time, a domain is a stack of free records:
    acquiring takes records from its top, most recently released first, and
    makes new ones only when it is empty, no record is ever held twice or
    both held and free, dropping an array puts its records back in order,
    each record protects what its holder last settled on and a free one
    nothing, and the list of all records links every one of them.  No pointer
    is followed that is null, tagged or dangling.  A client panics exactly
    where [sp_step] says so: when it drops a single hazard pointer, which is
    [todo!()], so that its record never comes back; when it asks for an array
    of no records in a debug build, or while there are free records; and when it
    drops such an array.  A call goes on for ever exactly when it protects from
    a source that never settles. *)
Theorem hazard_refines_stack spurious p ops :
  Z.of_nat (sum_list_with asked ops) < 2 ^ usize_bits ->
  match sp_run p sp_init ops with
  | Done (x, rs) => exists d held, hz_run spurious p HzdDomain_new [] ops = Done (d, held, rs) /\ hz_rep x d held
  | Panic why => hz_run spurious p HzdDomain_new [] ops = Panic why
  | NoFuel => hz_run spurious p HzdDomain_new [] ops = NoFuel
  | UB _ => False
  end.
Proof. intros Hlen. apply (hz_run_rep spurious p ops sp_init HzdDomain_new [] hz_rep_init Hlen). Qed.

#[local] Abbreviation demo_hz :=
  [HOpMany 3; HOpNew; HOpProtect 1 [[Some 5; Some 6; Some 6]; [None; None]; [Some 9; Some 9]]; HOpDrop 1; HOpMany 2].

Lemma hazard_refines_stack_witness :
  (exists d held, hz_run 2 Debug HzdDomain_new [] demo_hz =
      Done (d, held, [HRecs [0; 1; 2]%nat; HRecs [3%nat]; HVals [Some 6; None; Some 9]; HDone; HRecs [0; 1]%nat]) /\
    hz_rep (mkHzSpec [2%nat] [HArray [0; 1]%nat; HOne 3] 4 ∅) d held) /\
  hz_run 2 Debug HzdDomain_new [] (demo_hz ++ [HOpDrop 1]) = Panic "not yet implemented".
Proof.
  split.
  - apply (hazard_refines_stack 2 Debug demo_hz). vm_compute. reflexivity.
  - apply (hazard_refines_stack 2 Debug (demo_hz ++ [HOpDrop 1])). vm_compute. reflexivity.
Defined.

(** ** Two threads *)

(** C39: a record can be held twice.  A thread that has loaded the head of the
    free list goes on with the value it loaded, although it only checks that
    the head is unlocked when it sets the lock: if another thread acquires a
    record between the two, both get the same one.  If the other thread holds
    the lock when the head is loaded and has given it back when the lock is
    set, a pointer that still carries the lock bit is followed. *)
Theorem hazard_double_acquire p d r free chains prot : hz_inv d (r :: free) chains prot ->
  let loaded := avail_head (hazard_pointers d) in
  exists d1 d2,
    try_acquire_available alone_fuel p d 1 = Done (d1, Some r, 1%nat) /\
    try_lock p d1 1 loaded = Done (d2, Some (Some r, 1%nat)) /\
    let locked := avail_head (hazard_pointers (set_avail d (loaded.1, true))) in
    try_lock p d1 1 locked = UB "misaligned pointer".
Proof.
  intros I. cbn zeta. rewrite (hz_head _ _ _ _ I). cbn [head fst set_avail hazard_pointers avail_head].
  destruct (try_acquire_available_spec p d 1 (r :: free) chains prot ltac:(lia) I) as (d1 & E1 & I1).
  exists d1. cbn [take drop length head] in *. rewrite drop_0 in I1. pose proof (hz_chains _ _ _ _ I1) as [[Hav _] _]%Forall_cons.
  assert (Hr : (r < length (hd_recs d1))%nat).
  { apply (hz_below _ _ _ _ _ I1), elem_of_app. right. cbn. by left. }
  unfold try_lock. rewrite (hz_head _ _ _ _ I1). cbn [negb fst snd].
  unfold try_acquire_available_locked. rewrite debug_assert_true by done. cbn [mbind outcome_bind].
  set (d1' := set_avail d1 (head free, true)). assert (Hav' : avail d1' r = Some None) by exact Hav.
  destruct (avail_rec d1' r None Hav') as (c & Ec & Hcv). rewrite Ec. cbn [mbind outcome_bind walk_available]. rewrite Hcv.
  cbn [walk_available mbind outcome_bind].
  destruct (set_available_spec (set_avail d1' (None, false)) r None Hr) as (d2 & E2 & _). rewrite E2.
  cbn [mbind outcome_bind]. rewrite !debug_assert_true by done. cbn [mbind outcome_bind].
  exists d2. split; [done|]. split; [done|]. done.
Qed.

Lemma hazard_double_acquire_witness :
  exists d d1 d2, hz_inv d [0%nat] [] ∅ /\
    try_acquire_available alone_fuel Release d 1 = Done (d1, Some 0%nat, 1%nat) /\
    try_lock Release d1 1 (avail_head (hazard_pointers d)) = Done (d2, Some (Some 0%nat, 1%nat)).
Proof.
  assert (H : implements (Done (mkHzSpec [0%nat] [] 1 ∅, [HRecs [0%nat]; HDone])) (hz_run 0 Release HzdDomain_new [] [HOpMany 1; HOpDrop 0])).
  { apply (hz_run_rep 0 Release [HOpMany 1; HOpDrop 0] sp_init HzdDomain_new [] hz_rep_init). vm_compute. reflexivity. }
  destruct H as (d & held & _ & [I Eh _]).
  cbn in Eh. subst held. destruct (hazard_double_acquire Release d 0%nat [] [] ∅ I) as (d1 & d2 & E1 & E2 & _).
  exists d, d1, d2. split; [exact I|]. split; [exact E1|exact E2].
Defined.
