(* ===== verification/HazardProtect.v ===== *)
(** * HazardProtect: protecting a pointer that others replace

    [HzdPtr::protect] ([mem/src/hazard/hazard_ptr.rs]) with other threads
    storing to the pointer it reads.  The store that publishes the hazard
    pointer waits in the reader's store buffer, as on x86 and other
    processors, so that the reader's next load may come first unless
    [asymmetric_light_barrier] ([hazard/mod.rs]) is a fence; which it is depends
    on the architecture the crate is compiled for. *)

From S2P Require Import Prelude.
Local Open Scope Z_scope.

(** ** State *)

Inductive arch := X86_64 | OtherArch.

(** Where a reader is: not reading, or before each access of [protect_ptr] and
    [try_protect_ptr], or holding what [protect] returned. *)

Inductive hpc :=
| HIdle
| HLoad
| HPublish (ptr : option Z)
| HFence (ptr : option Z)
| HRecheck (ptr : option Z)
| HReset (ptr2 : option Z)
| HHolds (r : option Z).

(** A reader with its own record: the record's pointer as other threads see
    it, and the stores to it that wait in the reader's buffer, oldest first. *)

Record reader := mkReader { rd_pc : hpc; rd_mem : option Z; rd_buf : list (option Z) }.

(** [hs_src] is the [AtomicPtr] that is protected. *)

Record hstate := mkHS { hs_src : option Z; hs_readers : gmap nat reader }.

Definition set_reader (s : hstate) (t : nat) (r : reader) : hstate := mkHS (hs_src s) (<[t := r]> (hs_readers s)).

Definition goto (r : reader) (pc : hpc) : reader := mkReader pc (rd_mem r) (rd_buf r).

Definition store_rec (r : reader) (v : option Z) (pc : hpc) : reader := mkReader pc (rd_mem r) (rd_buf r ++ [v]).

(** ** Steps *)

(** The fence waits for the buffer to drain; without one there is nothing to
    wait for. *)

(* @src crates/mem/src/hazard/mod.rs:15-23 asymmetric_light_barrier *)
Definition asymmetric_light_barrier (a : arch) (r : reader) : bool :=
  match a with
  | X86_64 => true
  | OtherArch => bool_decide (rd_buf r = [])
  end.

(* @src crates/mem/src/hazard/hazard_ptr.rs:201-238 HzdPtr::protect_ptr *)
Definition reader_step (a : arch) (src : option Z) (r : reader) : option reader :=
  match rd_pc r with
  | HLoad => Some (goto r (HPublish src))
  | HPublish ptr => Some (store_rec r ptr (HFence ptr))
  | HFence ptr => if asymmetric_light_barrier a r then Some (goto r (HRecheck ptr)) else None
  | HRecheck ptr => Some (goto r (if decide (ptr <> src) then HReset src else HHolds ptr))
  | HReset ptr2 => Some (store_rec r None (HPublish ptr2))
  | HIdle | HHolds _ => None
  end.

(** [Run] is a step of a reader in [protect], [Drain] the oldest store of its
    buffer reaching memory, [Store] a store to the source by anyone.  Between
    calls of [protect] a reader begins one, which ends the borrow of what the
    last one returned, or resets its record. *)

Inductive hevent :=
| Run (t : nat)
| Drain (t : nat)
| Store (v : option Z)
| Begin (t : nat)
| GiveUp (t : nat).

(* @src crates/mem/src/hazard/hazard_ptr.rs:240-242 HzdPtr::reset_protection *)
Definition leave_after (r : reader) : option reader :=
  match rd_pc r with HIdle | HHolds _ => Some (store_rec r None HIdle) | _ => None end.

Definition drain (r : reader) : option reader :=
  match rd_buf r with [] => None | v :: buf => Some (mkReader (rd_pc r) v buf) end.

Definition begin (r : reader) : option reader :=
  match rd_pc r with HIdle | HHolds _ => Some (goto r HLoad) | _ => None end.

Definition on_reader (s : hstate) (t : nat) (f : reader -> option reader) : option hstate :=
  r ← hs_readers s !! t; r ← f r; Some (set_reader s t r).

Definition hstep (a : arch) (e : hevent) (s : hstate) : option hstate :=
  match e with
  | Run t => on_reader s t (reader_step a (hs_src s))
  | Drain t => on_reader s t drain
  | Store v => Some (mkHS v (hs_readers s))
  | Begin t => on_reader s t begin
  | GiveUp t => on_reader s t leave_after
  end.

Fixpoint hrun (a : arch) (es : list hevent) (s : hstate) : option hstate :=
  match es with
  | [] => Some s
  | e :: es => s ← hstep a e s; hrun a es s
  end.

Definition fresh_reader : reader := mkReader HIdle None [].

Definition h_start (src : option Z) (ts : gset nat) : hstate := mkHS src (gset_to_gmap fresh_reader ts).

(** ** What a fence gives

    The value of the record once the buffer has drained. *)

Definition published (r : reader) : option Z := default (rd_mem r) (last (rd_buf r)).

Definition reader_ok (r : reader) : Prop :=
  match rd_pc r with
  | HFence ptr => published r = ptr
  | HRecheck ptr | HHolds ptr => rd_buf r = [] /\ rd_mem r = ptr
  | _ => True
  end.

Definition hinv (s : hstate) : Prop := map_Forall (fun _ => reader_ok) (hs_readers s).

Lemma on_reader_inv s t f s' : hinv s -> (forall r r', reader_ok r -> f r = Some r' -> reader_ok r') ->
  on_reader s t f = Some s' -> hinv s'.
Proof.
  intros H Hf. unfold on_reader. destruct (hs_readers s !! t) as [r|] eqn:Er; [|done]. cbn [mbind option_bind].
  destruct (f r) as [r'|] eqn:Ef; [|done]. intros [= <-]. apply map_Forall_insert_2; [|done].
  apply (Hf r); [|done]. by apply (H t).
Qed.

Lemma drain_published r r' : drain r = Some r' -> published r' = published r.
Proof.
  unfold drain, published. destruct (rd_buf r) as [|v buf]; [done|]. intros [= <-]. cbn [rd_buf rd_mem].
  rewrite last_cons. by destruct (last buf).
Qed.

Lemma hstep_inv e s s' : hinv s -> hstep OtherArch e s = Some s' -> hinv s'.
Proof.
  intros H. destruct e as [t|t|v|t|t]; cbn [hstep]; [..|by intros [= <-]| |]; apply on_reader_inv; try done.
  - intros r r' Hr. unfold reader_step, reader_ok in *. destruct (rd_pc r) as [| |q|q|q|q|q] eqn:Ep; try done.
    + by intros [= <-].
    + intros [= <-]. unfold published. cbn. by rewrite last_snoc.
    + cbn [asymmetric_light_barrier]. case_bool_decide as Hb; [|done]. intros [= <-]. cbn.
      unfold published in Hr. by rewrite Hb in Hr |- *.
    + intros [= <-]. cbn. by case_decide.
    + by intros [= <-].
  - intros r r' Hr Hd. pose proof (drain_published r r' Hd) as Hp. unfold reader_ok, drain in *.
    destruct (rd_buf r) as [|v buf]; [done|]. injection Hd as <-. cbn in *. destruct (rd_pc r); try done; [congruence|by destruct Hr..].
  - intros r r' _. unfold begin. by destruct (rd_pc r); try done; intros [= <-].
  - intros r r' _. unfold leave_after. by destruct (rd_pc r); try done; intros [= <-].
Qed.

Lemma hrun_inv es : forall s s', hinv s -> hrun OtherArch es s = Some s' -> hinv s'.
Proof.
  induction es as [|e es IH]; intros s s' H; cbn [hrun]; [by intros [= <-]|].
  destruct (hstep OtherArch e s) as [s1|] eqn:E1; [|done]. apply IH. by apply (hstep_inv e s).
Qed.

Lemma protect_start_inv src ts : hinv (h_start src ts).
Proof. intros t r Hr. cbn in Hr. apply lookup_gset_to_gmap_Some in Hr as [_ <-]. done. Qed.

(** ** No reader holds what is no longer there

    A reader comes to hold a pointer only in the step that finds it in the
    source again. *)

Lemma holds_from a src r r' q : reader_step a src r = Some r' -> rd_pc r' = HHolds q -> src = q.
Proof.
  unfold reader_step. destruct (rd_pc r) as [| |ptr|ptr|ptr|ptr2|]; try done; intros E; try (by injection E as <-).
  - destruct (asymmetric_light_barrier a r); [|done]. by injection E as <-.
  - injection E as <-. cbn. case_decide as Hd; [done|]. intros [= <-]. by destruct (decide (ptr = src)).
Qed.

Lemma on_reader_lookup s t f s' u r' : on_reader s t f = Some s' -> hs_readers s' !! u = Some r' ->
  hs_src s' = hs_src s /\ exists r, hs_readers s !! u = Some r /\ (u = t /\ f r = Some r' \/ u <> t /\ r' = r).
Proof.
  unfold on_reader. destruct (hs_readers s !! t) as [r|] eqn:Er; [|done]. cbn [mbind option_bind].
  destruct (f r) as [r1|] eqn:Ef; [|done]. intros [= <-]. cbn [set_reader hs_readers hs_src].
  intros [[<- <-]|[Hne Hu]]%lookup_insert_Some; (split; [done|]).
  - exists r. split; [done|]. by left.
  - exists r'. split; [done|]. by right.
Qed.

(** How one event changes one reader. *)

Definition changes (a : arch) (e : hevent) (t : nat) (src src' : option Z) (r r' : reader) : Prop :=
  match e with
  | Run u => src' = src /\ (t = u /\ reader_step a src r = Some r' \/ t <> u /\ r' = r)
  | Drain u => src' = src /\ (t = u /\ drain r = Some r' \/ t <> u /\ r' = r)
  | Store v => src' = v /\ r' = r
  | Begin u => src' = src /\ (t = u /\ begin r = Some r' \/ t <> u /\ r' = r)
  | GiveUp u => src' = src /\ (t = u /\ leave_after r = Some r' \/ t <> u /\ r' = r)
  end.

Lemma hstep_changes a e s s' t r' : hstep a e s = Some s' -> hs_readers s' !! t = Some r' ->
  exists r, hs_readers s !! t = Some r /\ changes a e t (hs_src s) (hs_src s') r r'.
Proof.
  destruct e as [u|u|v|u|u]; cbn [hstep changes]; intros E Hr;
    try (destruct (on_reader_lookup _ _ _ _ _ _ E Hr) as (Hs & r & H0 & Hc); by exists r).
  injection E as <-. by exists r'.
Qed.

Lemma hstep_src a e s s' : hstep a e s = Some s' -> hs_src s' = match e with Store v => v | _ => hs_src s end.
Proof.
  assert (Ho : forall t f, on_reader s t f = Some s' -> hs_src s' = hs_src s).
  { intros t f. unfold on_reader. destruct (hs_readers s !! t) as [r|]; [|done]. cbn [mbind option_bind].
    destruct (f r); [|done]. by intros [= <-]. }
  destruct e as [u|u|v|u|u]; cbn [hstep]; [by apply Ho..|by intros [= <-]|by apply Ho|by apply Ho].
Qed.

Lemma drain_pc r r' : drain r = Some r' -> rd_pc r' = rd_pc r.
Proof. unfold drain. destruct (rd_buf r); [done|]. by intros [= <-]. Qed.

Lemma never_holds q t es : forall s s' r', Store (Some q) ∉ es -> hs_src s <> Some q ->
  (forall r, hs_readers s !! t = Some r -> rd_pc r <> HHolds (Some q)) ->
  hrun OtherArch es s = Some s' -> hs_readers s' !! t = Some r' -> rd_pc r' <> HHolds (Some q).
Proof.
  induction es as [|e es IH]; intros s s' r' Hes Hsrc Hpc; cbn [hrun]; [intros [= <-]; apply Hpc|].
  destruct (hstep OtherArch e s) as [s1|] eqn:E1; [|done]. apply not_elem_of_cons in Hes as [He Hes]. apply IH; [done| |].
  - rewrite (hstep_src _ _ _ _ E1). destruct e; congruence.
  - intros r1 Hr1 Hq. destruct (hstep_changes _ _ _ _ _ _ E1 Hr1) as (r & Hr & Hc). specialize (Hpc r Hr).
    destruct e as [u|u|v|u|u]; cbn [changes] in Hc; destruct Hc as [_ Hc].
    + destruct Hc as [[_ Hc]|[_ ->]]; [|done]. by pose proof (holds_from _ _ _ _ _ Hc Hq).
    + destruct Hc as [[_ Hc]|[_ ->]]; [|done]. by rewrite (drain_pc _ _ Hc) in Hq.
    + by subst r1.
    + destruct Hc as [[_ Hc]|[_ ->]]; [|done]. unfold begin in Hc. by destruct (rd_pc r); try done; injection Hc as <-.
    + destruct Hc as [[_ Hc]|[_ ->]]; [|done]. unfold leave_after in Hc. by destruct (rd_pc r); try done; injection Hc as <-.
Qed.

(** ** The loop ends

    The accesses a reader has still to make if the source stays as it is; a
    loaded pointer that is no longer there costs another round. *)

Definition stale (src ptr : option Z) : nat := if decide (ptr = src) then 0 else 4.

Definition accesses_left (src : option Z) (r : reader) : nat :=
  match rd_pc r with
  | HIdle | HHolds _ => 0
  | HLoad => 4
  | HPublish ptr => 3 + stale src ptr
  | HFence ptr => 2 + stale src ptr
  | HRecheck ptr => 1 + stale src ptr
  | HReset ptr2 => 4 + stale src ptr2
  end.

#[local] Instance hevent_eq_dec : EqDecision hevent.
Proof. solve_decision. Defined.

Definition runs_of (t : nat) (es : list hevent) : nat := length (filter (fun e => e = Run t) es).

Definition is_store (e : hevent) : bool := match e with Store _ => true | _ => false end.

(** What can make more work for reader [t]: stores to the source and its own
    new calls. *)

Definition causes_of (t : nat) (es : list hevent) : nat := length (filter (fun e => is_store e = true \/ e = Begin t) es).

Definition one (b : bool) : nat := if b then 1 else 0.

Lemma protect_stale_le src ptr : (stale src ptr <= 4)%nat.
Proof. unfold stale. case_decide; lia. Qed.

Lemma stale_refl src : stale src src = 0%nat.
Proof. unfold stale. by case_decide. Qed.

Lemma left_store src v r : (accesses_left v r <= accesses_left src r + 4)%nat.
Proof. unfold accesses_left. destruct (rd_pc r) as [| |ptr|ptr|ptr|ptr|]; try lia; pose proof (protect_stale_le v ptr); lia. Qed.

Lemma left_step a src r r' : reader_step a src r = Some r' -> (accesses_left src r' < accesses_left src r)%nat.
Proof.
  unfold reader_step. unfold accesses_left at 2. destruct (rd_pc r) as [| |ptr|ptr|ptr|ptr2|] eqn:Ep; try done.
  - intros [= <-]. cbn. rewrite stale_refl. lia.
  - intros [= <-]. cbn. lia.
  - destruct (asymmetric_light_barrier a r); [|done]. intros [= <-]. cbn. lia.
  - intros [= <-]. cbn. unfold accesses_left. cbn. case_decide as Hd; [rewrite stale_refl|lia]. unfold stale.
    rewrite decide_False by done. lia.
  - intros [= <-]. cbn. lia.
Qed.

Lemma left_event a e s s' t r' : hstep a e s = Some s' -> hs_readers s' !! t = Some r' ->
  exists r, hs_readers s !! t = Some r /\
    (accesses_left (hs_src s') r' + runs_of t [e] <= accesses_left (hs_src s) r + 4 * causes_of t [e])%nat.
Proof.
  intros E Hr. destruct (hstep_changes _ _ _ _ _ _ E Hr) as (r & H0 & Hc). exists r. split; [done|].
  unfold runs_of, causes_of. rewrite !filter_cons, !filter_nil.
  destruct e as [u|u|v|u|u]; cbn [changes] in Hc; destruct Hc as [-> Hc].
  - destruct Hc as [[<- Hc]|[Hne ->]].
    + rewrite decide_True, decide_False by (cbn; intuition congruence). pose proof (left_step _ _ _ _ Hc). cbn. lia.
    + rewrite !decide_False by (cbn; intuition congruence). cbn. lia.
  - rewrite !decide_False by (cbn; intuition congruence). cbn. destruct Hc as [[_ Hc]|[_ ->]]; [|lia].
    unfold accesses_left. rewrite (drain_pc _ _ Hc). lia.
  - rewrite decide_False, decide_True by (cbn; intuition congruence). subst r'. cbn. pose proof (left_store (hs_src s) v r). lia.
  - rewrite decide_False by (cbn; intuition congruence). destruct Hc as [[<- Hc]|[Hne ->]].
    + rewrite decide_True by (cbn; intuition congruence). unfold begin in Hc. destruct (rd_pc r); try done; injection Hc as <-; cbn; lia.
    + case_decide; cbn; lia.
  - rewrite !decide_False by (cbn; intuition congruence). destruct Hc as [[_ Hc]|[_ ->]]; [|cbn; lia].
    unfold leave_after in Hc. destruct (rd_pc r); try done; injection Hc as <-; cbn; lia.
Qed.

Lemma left_run a t es : forall s s' r', hrun a es s = Some s' -> hs_readers s' !! t = Some r' ->
  exists r, hs_readers s !! t = Some r /\ (accesses_left (hs_src s') r' + runs_of t es <= accesses_left (hs_src s) r + 4 * causes_of t es)%nat.
Proof.
  induction es as [|e es IH]; intros s s' r'; cbn [hrun].
  - intros [= <-] Hr. exists r'. split; [done|]. unfold runs_of, causes_of. rewrite !filter_nil. cbn. lia.
  - destruct (hstep a e s) as [s1|] eqn:E1; [|done]. intros E Hr. destruct (IH s1 s' r' E Hr) as (r1 & Hr1 & H1).
    destruct (left_event a e s s1 t r1 E1 Hr1) as (r & H0 & He). exists r. split; [done|].
    unfold runs_of, causes_of in *. change (e :: es) with ([e] ++ es). rewrite !filter_app, !length_app. lia.
Qed.

(** A reader in a call can move, or its buffer can. *)

Lemma reader_live a s t r : hs_readers s !! t = Some r -> accesses_left (hs_src s) r <> 0%nat ->
  is_Some (hstep a (Run t) s) \/ is_Some (hstep a (Drain t) s).
Proof.
  intros Hr Ht. cbn [hstep]. unfold on_reader. rewrite Hr. cbn [mbind option_bind]. unfold reader_step.
  unfold accesses_left in Ht. destruct (rd_pc r) as [| |ptr|ptr|ptr|ptr2|]; try done; try (left; by eexists).
  destruct a; cbn [asymmetric_light_barrier]; [left; by eexists|]. unfold drain.
  destruct (rd_buf r) as [|v buf]; [left|right]; [|by eexists]. rewrite bool_decide_true by done. by eexists.
Qed.

(** ** Properties *)

(** C25: with a fence between them, publishing a hazard pointer and finding the
    source unchanged protects it.  In every state some schedule of readers,
    buffers and stores to the source leads to: whoever holds a pointer shows it
    in its record; a call that returns finds what it returns in the source at
    that moment; and once a pointer is no longer in the source, a thread that
    then sees another pointer in a reader's record can be sure that this reader
    does not hold it, nor ever will before the pointer is stored again. *)
Theorem hazard_protect_safe src ts es s t r :
  hrun OtherArch es (h_start src ts) = Some s -> hs_readers s !! t = Some r ->
  (forall q, rd_pc r = HHolds q -> rd_mem r = q) /\
  (forall s' r' q, hstep OtherArch (Run t) s = Some s' -> hs_readers s' !! t = Some r' -> rd_pc r' = HHolds q ->
     hs_src s = q) /\
  (forall q es2 s2 r2, hs_src s <> Some q -> rd_mem r <> Some q -> Store (Some q) ∉ es2 ->
     hrun OtherArch es2 s = Some s2 -> hs_readers s2 !! t = Some r2 -> rd_pc r2 <> HHolds (Some q)).
Proof.
  intros E Hr. pose proof (hrun_inv es _ _ (protect_start_inv src ts) E t r Hr) as Hok.
  assert (Hm : forall q, rd_pc r = HHolds q -> rd_mem r = q).
  { intros q Hq. unfold reader_ok in Hok. rewrite Hq in Hok. by destruct Hok. }
  split; [done|]. split.
  - intros s' r' q E1 Hr' Hq. destruct (hstep_changes _ _ _ _ _ _ E1 Hr') as (r0 & H0 & _ & [[_ Hc]|[? _]]); [|done].
    by apply (holds_from _ _ _ _ _ Hc).
  - intros q es2 s2 r2 Hs Hq Hes E2 Hr2. apply (never_holds q t es2 s s2 r2); try done.
    intros r0 H0 Hh. assert (r0 = r) as -> by congruence. by apply Hq, Hm.
Qed.

(** [protect] is lock-free, on every architecture.  However often others
    run, a reader takes at most four steps for each of its calls and each store
    to the source, less what it has left to do; and while it has anything left
    to do it or its buffer can take a step. *)
Theorem hazard_protect_ends a src ts es s t r :
  hrun a es (h_start src ts) = Some s -> hs_readers s !! t = Some r ->
  (runs_of t es + accesses_left (hs_src s) r <= 4 * causes_of t es)%nat /\
  (accesses_left (hs_src s) r = 0%nat <-> rd_pc r = HIdle \/ exists q, rd_pc r = HHolds q) /\
  (accesses_left (hs_src s) r <> 0%nat -> is_Some (hstep a (Run t) s) \/ is_Some (hstep a (Drain t) s)).
Proof.
  intros E Hr. destruct (left_run a t es _ _ r E Hr) as (r0 & H0 & Hle).
  cbn in H0. apply lookup_gset_to_gmap_Some in H0 as [_ <-]. split; [cbn in Hle; lia|]. split; [|by apply reader_live].
  unfold accesses_left. destruct (rd_pc r) as [| |ptr|ptr|ptr|ptr2|q]; split; intros H; try lia; eauto; by destruct H as [?|[? ?]].
Qed.

(** C38: where [asymmetric_light_barrier] is empty, as for x86-64, the store of
    the hazard pointer may still be in the reader's buffer when it finds the
    source unchanged: a reader can hold any pointer while the source holds any
    other and the reader's record, as everyone else sees it, is null. *)
Theorem hazard_protect_x86 q v :
  exists es s r, hrun X86_64 es (h_start (Some q) {[ 0%nat ]}) = Some s /\ hs_readers s !! 0%nat = Some r /\
    rd_pc r = HHolds (Some q) /\ hs_src s = v /\ rd_mem r = None.
Proof.
  exists [Begin 0; Run 0; Run 0; Run 0; Run 0; Store v],
    (mkHS v {[ 0%nat := mkReader (HHolds (Some q)) None [Some q] ]}), (mkReader (HHolds (Some q)) None [Some q]).
  split; [|done]. unfold h_start. rewrite gset_to_gmap_singleton.
  cbn [hrun hstep mbind option_bind]. unfold on_reader. cbn [set_reader hs_readers hs_src].
  repeat (rewrite ?insert_singleton_eq, ?lookup_singleton_eq; cbn [mbind option_bind reader_step begin goto store_rec rd_pc rd_mem
    rd_buf fresh_reader asymmetric_light_barrier set_reader hs_readers hs_src app]). by rewrite decide_False by naive_solver.
Qed.

(** ** Witnesses

    Two readers; the source changes under the first, which retries, and the
    second still holds the old pointer, in its record. *)

Definition demo_reads : list hevent :=
  [Begin 1; Begin 2] ++ repeat (Run 2) 2 ++ [Drain 2] ++ repeat (Run 2) 2 ++ repeat (Run 1) 2 ++ [Drain 1; Store (Some 8)] ++
  repeat (Run 1) 4 ++ [Drain 1; Drain 1].

Definition demo_readers : hstate := default (h_start None ∅) (hrun OtherArch demo_reads (h_start (Some 7) {[ 1%nat; 2%nat ]})).

Lemma hazard_protect_safe_witness :
  let s := demo_readers in
  exists r, hs_readers s !! 2%nat = Some r /\ rd_pc r = HHolds (Some 7) /\ hs_src s = Some 8 /\
  (forall q, rd_pc r = HHolds q -> rd_mem r = q) /\
  (forall s' r' q, hstep OtherArch (Run 2) s = Some s' -> hs_readers s' !! 2%nat = Some r' -> rd_pc r' = HHolds q ->
     hs_src s = q) /\
  (forall q es2 s2 r2, hs_src s <> Some q -> rd_mem r <> Some q -> Store (Some q) ∉ es2 ->
     hrun OtherArch es2 s = Some s2 -> hs_readers s2 !! 2%nat = Some r2 -> rd_pc r2 <> HHolds (Some q)).
Proof.
  intros s. eexists. split; [vm_compute; reflexivity|]. split; [reflexivity|]. split; [vm_compute; reflexivity|].
  apply (hazard_protect_safe (Some 7) {[ 1%nat; 2%nat ]} demo_reads s 2); vm_compute; reflexivity.
Defined.

Lemma hazard_protect_ends_witness :
  let s := demo_readers in
  exists r, hs_readers s !! 1%nat = Some r /\ accesses_left (hs_src s) r = 2%nat /\ runs_of 1 demo_reads = 6%nat /\
  (runs_of 1 demo_reads + accesses_left (hs_src s) r <= 4 * causes_of 1 demo_reads)%nat /\
  (accesses_left (hs_src s) r = 0%nat <-> rd_pc r = HIdle \/ exists q, rd_pc r = HHolds q) /\
  (accesses_left (hs_src s) r <> 0%nat -> is_Some (hstep OtherArch (Run 1) s) \/ is_Some (hstep OtherArch (Drain 1) s)).
Proof.
  intros s. eexists. split; [vm_compute; reflexivity|]. split; [vm_compute; reflexivity|]. split; [vm_compute; reflexivity|].
  apply (hazard_protect_ends OtherArch (Some 7) {[ 1%nat; 2%nat ]} demo_reads s 1); vm_compute; reflexivity.
Defined.
