(* ===== verification/HazardThreads.v ===== *)
(** * HazardThreads: one hazard domain, many threads

    [acquire_many] and [release_many] of [mem/src/hazard/domain.rs]
    interleaved.  A step is one access to a field that threads share: the head
    of the free list with its lock bit, the head of the list of all records,
    the counter, and the links of records.  The data are those of [Hazard];
    the values of the hazard pointers themselves are the subject of
    [HazardProtect] and play no part here. *)

From S2P Require Import Prelude Hazard.
Local Open Scope Z_scope.

(** ** Threads *)

(** Where a thread is: in the loop of [try_acquire_available]; with the lock,
    walking along the free list, storing its rest and cutting off what was
    taken; filling the array from the chain [head], with [k] slots to go;
    linking a new record; and in the loop of [push_available]. *)

Inductive hzpc :=
| HtLoad (N : nat)
| HtLock (N : nat) (loaded : tagged)
| HtWalk (N : nat) (head tail : tagged) (n : nat)
| HtUnlock (N : nat) (head tail : tagged) (n : nat) (next : option nat)
| HtCut (N : nat) (head tail : tagged) (n : nat)
| HtFill (k : nat) (head : tagged) (tail : option nat) (acc : list nat)
| HtNew (k : nat) (tail : option nat) (acc : list nat) (rec : nat) (head : option nat)
| HtCount (k : nat) (tail : option nat) (acc : list nat) (rec : nat)
| HtLink (k : nat) (tail : option nat) (acc : list nat) (rec : nat)
| HtPush (head tail : nat)
| HtPushCas (head tail : nat) (avail : tagged).

(** A step goes on, returns an array, or has released one. *)

Inductive hznext :=
| HGo (pc : hzpc)
| HGot (records : list nat)
| HReleased.

(** [ht_held] are the arrays callers hold. *)

Record hthreads := mkHT {
  ht_domain : HzdDomain;
  ht_pcs : gmap nat hzpc;
  ht_held : list (list nat)
}.

Definition set_head (d : HzdDomain) (h : option nat) : HzdDomain :=
  mkHzdDomain (mkHazPtrRecs h (avail_head (hazard_pointers d)) (hp_count (hazard_pointers d))) (hd_recs d).

Definition add_count (d : HzdDomain) : HzdDomain :=
  let hp := hazard_pointers d in
  mkHzdDomain (mkHazPtrRecs (hp_head hp) (avail_head hp) (wrap usize_bits (hp_count hp + 1))) (hd_recs d).

(** ** Steps *)

Section steps.
Context (p : profile).

(** The loop of [try_acquire_available], up to the lock. *)

(* @src crates/mem/src/hazard/domain.rs:283-328 HzdDomain::try_acquire_available *)
Definition acquire_step (d : HzdDomain) (N : nat) (loaded : option tagged) : outcome (HzdDomain * hznext) :=
  match loaded with
  | None =>
      _ ← debug_assert p (bool_decide (1 <= N)%nat) "N >= 1";
      let avail := avail_head (hazard_pointers d) in
      Done (d, HGo (if decide (avail = (None, false)) then HtFill N (None, false) None [] else HtLock N avail))
  | Some loaded =>
      let locked := avail_head (hazard_pointers d) in
      let d := set_avail d (locked.1, true) in
      Done (d, HGo (if negb locked.2 then HtWalk N loaded loaded 1 else HtLoad N))
  end.

(** The walk along the free list, with the lock. *)

(* @src crates/mem/src/hazard/domain.rs:354-369 HzdDomain::try_acquire_available_locked *)
Definition walk_step (d : HzdDomain) (N : nat) (head tail : tagged) (n : nat) : outcome (HzdDomain * hznext) :=
  _ ← debug_assert p (bool_decide (1 <= N)%nat) "N >= 1";
  '(_, c) ← rec_at d tail;
  let next := hz_available c in
  Done (d, HGo match next with
               | Some nx => if decide (n < N)%nat then HtWalk N head (Some nx, false) (n + 1) else HtUnlock N head tail n next
               | None => HtUnlock N head tail n next
               end).

(* @src crates/mem/src/hazard/domain.rs:376-381 HzdDomain::try_acquire_available_locked *)
Definition cut_step (d : HzdDomain) (N : nat) (head tail : tagged) (n : nat) : outcome (HzdDomain * hznext) :=
  '(tail, _) ← rec_at d tail;
  d ← upd_rec d tail (set_available None);
  _ ← debug_assert p (bool_decide (1 <= n)%nat) "Head available was not null";
  _ ← debug_assert p (bool_decide (n <= N)%nat) "n <= N";
  _ ← rust_assert (bool_decide (n <= N)%nat) "n <= N";
  Done (d, HGo (HtFill N head None [])).

(** One slot of the array: the next record of the chain, or a new one. *)

(* @src crates/mem/src/hazard/domain.rs:262-280 HzdDomain::acquire_many *)
Definition fill_step (d : HzdDomain) (k : nat) (head : tagged) (tail : option nat) (acc : list nat)
  : outcome (HzdDomain * hznext) :=
  match k with
  | O => Done (d, HGot acc)
  | S k' =>
      if decide (head = (None, false)) then
        let rec := length (hd_recs d) in
        let d := mkHzdDomain (hazard_pointers d) (hd_recs d ++ [mkHzdPtrRec None None None]) in
        Done (d, HGo (HtNew k tail acc rec (hp_head (hazard_pointers d))))
      else
        '(h, c) ← rec_at d head;
        Done (d, HGo (HtFill k' (hz_available c, false) (Some h) (acc ++ [h])))
  end.

(** A weak exchange may fail although the head is the expected one. *)

(* @src crates/mem/src/hazard/domain.rs:219-239 HzdDomain::acquire_new_rec *)
Definition link_head_step (spurious : bool) (d : HzdDomain) (k : nat) (tail : option nat) (acc : list nat) (rec : nat)
    (head : option nat) : outcome (HzdDomain * hznext) :=
  d ← upd_rec d rec (set_next head);
  if decide (spurious = false /\ hp_head (hazard_pointers d) = head)
  then Done (set_head d (Some rec), HGo (HtCount k tail acc rec))
  else Done (d, HGo (HtNew k tail acc rec (hp_head (hazard_pointers d)))).

(* @src crates/mem/src/hazard/domain.rs:397-427 HzdDomain::push_available *)
Definition push_step (d : HzdDomain) (head tail : nat) (loaded : option tagged) : outcome (HzdDomain * hznext) :=
  match loaded with
  | None =>
      let avail := avail_head (hazard_pointers d) in
      if negb avail.2 then
        d ← upd_rec d tail (set_available avail.1);
        Done (d, HGo (HtPushCas head tail avail))
      else Done (d, HGo (HtPush head tail))
  | Some avail =>
      if decide (avail_head (hazard_pointers d) = avail) then Done (set_avail d (Some head, false), HReleased)
      else Done (d, HGo (HtPush head tail))
  end.

Definition hz_step (spurious : bool) (d : HzdDomain) (pc : hzpc) : outcome (HzdDomain * hznext) :=
  match pc with
  | HtLoad N => acquire_step d N None
  | HtLock N loaded => acquire_step d N (Some loaded)
  | HtWalk N head tail n => walk_step d N head tail n
  | HtUnlock N head tail n next => Done (set_avail d (next, false), HGo (HtCut N head tail n))
  | HtCut N head tail n => cut_step d N head tail n
  | HtFill k head tail acc => fill_step d k head tail acc
  | HtNew k tail acc rec head => link_head_step spurious d k tail acc rec head
  | HtCount k tail acc rec => Done (add_count d, HGo (HtLink k tail acc rec))
  | HtLink k tail acc rec =>
      d ← match tail with Some t => upd_rec d t (set_available (Some rec)) | None => Done d end;
      Done (d, HGo (HtFill (k - 1) (None, false) (Some rec) (acc ++ [rec])))
  | HtPush head tail => push_step d head tail None
  | HtPushCas head tail avail => push_step d head tail (Some avail)
  end.

(** The start of a release, which reads only the caller's records. *)

(* @src crates/mem/src/hazard/domain.rs:389-398 HzdDomain::release_many *)
Definition release_begin_many (d : HzdDomain) (records : list nat) : outcome hzpc :=
  match records, last records with
  | head :: _, Some tail =>
      '(_, c) ← rec_at d (Some tail, false);
      _ ← rust_assert (bool_decide (hz_available c = None)) "tail.available is null";
      _ ← debug_assert p (bool_decide (hz_available c = None)) "tail.available is null";
      Done (HtPush head tail)
  | _, _ => Panic "index out of bounds"
  end.

(** Events: a thread starts to acquire [N] records or to release the array
    held at position [i], or takes its next step, in which a weak exchange may
    fail.  A thread inside an operation starts no other one. *)

Inductive hz_event :=
| HzAcquire (t N : nat)
| HzRelease (t i : nat)
| HzRun (t : nat) (spurious : bool).

Definition hz_event_step (s : hthreads) (e : hz_event) : outcome hthreads :=
  let '(mkHT d pcs held) := s in
  match e with
  | HzAcquire t N =>
      match pcs !! t with
      | Some _ => Done s
      | None => if decide (1 <= N)%nat then Done (mkHT d (<[t := HtLoad N]> pcs) held) else Done s
      end
  | HzRelease t i =>
      match pcs !! t, held !! i with
      | None, Some records => pc ← release_begin_many d records; Done (mkHT d (<[t := pc]> pcs) (delete i held))
      | _, _ => Done s
      end
  | HzRun t spurious =>
      match pcs !! t with
      | None => Done s
      | Some pc =>
          '(d, n) ← hz_step spurious d pc;
          Done match n with
               | HGo pc => mkHT d (<[t := pc]> pcs) held
               | HGot records => mkHT d (delete t pcs) (records :: held)
               | HReleased => mkHT d (delete t pcs) held
               end
      end
  end.

Fixpoint hz_events (s : hthreads) (evs : list hz_event) : outcome hthreads :=
  match evs with
  | [] => Done s
  | e :: evs => s ← hz_event_step s e; hz_events s evs
  end.

(** An event takes the lock on another head than the one the thread loaded:
    what goes wrong in [hazard_double_acquire]. *)

Definition stale_lock (s : hthreads) (e : hz_event) : bool :=
  match e with
  | HzRun t _ =>
      match ht_pcs s !! t with
      | Some (HtLock N loaded) =>
          let avail := avail_head (hazard_pointers (ht_domain s)) in
          negb avail.2 && negb (bool_decide (avail = loaded))
      | _ => false
      end
  | _ => false
  end.

Fixpoint never_stale (s : hthreads) (evs : list hz_event) : bool :=
  match evs with
  | [] => true
  | e :: evs =>
      negb (stale_lock s e) && match hz_event_step s e with Done s => never_stale s evs | _ => true end
  end.
End steps.

Definition hz_start : hthreads := mkHT HzdDomain_new ∅ [].

(** ** Chains *)

(** [achain] is a chain that ends; the last link of [apath] may be anything. *)

Fixpoint apath (d : HzdDomain) (rs : list nat) : Prop :=
  match rs with
  | [] => True
  | r :: rest => match rest with [] => True | q :: _ => avail d r = Some (Some q) /\ apath d rest end
  end.

Fixpoint nchain (d : HzdDomain) (rs : list nat) : Prop :=
  match rs with
  | [] => True
  | r :: rs => nextd d r = Some (head rs) /\ nchain d rs
  end.

Lemma apath_frame d d' rs : (forall q, q ∈ rs -> avail d' q = avail d q) -> apath d rs -> apath d' rs.
Proof.
  induction rs as [|r rs IH]; [done|]. intros H. destruct rs as [|q rs]; [done|]. intros [H1 H2].
  split; [by rewrite H by left|]. apply IH; [|done]. intros x Hx. apply H. by right.
Qed.

Lemma nchain_frame d d' rs : (forall q, q ∈ rs -> nextd d' q = nextd d q) -> nchain d rs -> nchain d' rs.
Proof.
  induction rs as [|r rs IH]; [done|]. intros H [H1 H2]. split; [by rewrite H by left|].
  apply IH; [|done]. intros q Hq. apply H. by right.
Qed.

Lemma achain_apath d rs : achain d rs -> apath d rs.
Proof. induction rs as [|r [|q rs] IH]; try done. intros [H1 H2]. split; [done|by apply IH]. Qed.

Lemma achain_app d A B : achain d (A ++ B) -> achain d B.
Proof. induction A as [|r A IH]; [done|]. intros [_ H]. by apply IH. Qed.

Lemma achain_prefix d A B : achain d (A ++ B) -> apath d A.
Proof.
  induction A as [|r [|q A] IH]; try done. intros [H1 H2]. split; [done|by apply IH].
Qed.

(** Giving a path its last link. *)

Lemma apath_close d d' A t B : apath d (A ++ [t]) -> achain d B -> NoDup (A ++ [t]) -> (forall q, q ∈ A ++ [t] -> q ∉ B) ->
  (forall q, avail d' q = if decide (q = t) then Some (head B) else avail d q) -> achain d' ((A ++ [t]) ++ B).
Proof.
  intros HA HB Hn Hdis Hav.
  assert (HB' : achain d' B).
  { apply (achain_frame d); [|done]. intros q Hq. rewrite Hav, decide_False; [done|]. intros ->.
    apply (Hdis t); [apply elem_of_app; right; by left|done]. }
  clear HB. rewrite <- app_assoc. cbn [app]. induction A as [|r A IH]; cbn [app] in *.
  - split; [by rewrite Hav, decide_True|done].
  - apply NoDup_cons in Hn as [Hr Hn]. assert (Hrt : r <> t) by (intros ->; apply Hr, elem_of_app; right; by left).
    split.
    + rewrite Hav, decide_False by done. destruct A; by destruct HA as [-> _].
    + apply IH; [destruct A; [done|by destruct HA]|done|]. intros q Hq. apply Hdis. by right.
Qed.

Lemma apath_open d d' A t v : apath d (A ++ [t]) -> NoDup (A ++ [t]) ->
  (forall q, avail d' q = if decide (q = t) then v else avail d q) -> apath d' (A ++ [t]).
Proof.
  intros HA Hn Hav. induction A as [|r A IH]; [done|]. cbn [app] in *. apply NoDup_cons in Hn as [Hr Hn].
  assert (Hrt : r <> t) by (intros ->; apply Hr, elem_of_app; right; by left).
  destruct A as [|q A]; cbn [app] in *; destruct HA as [H1 H2]; (split; [by rewrite Hav, decide_False|]); [done|by apply IH].
Qed.

Lemma avail_lt d r a : avail d r = Some a -> (r < length (hd_recs d))%nat.
Proof. unfold avail. intros H. apply lookup_lt_is_Some. destruct (hd_recs d !! r); [done|discriminate]. Qed.

(** ** The invariant

    The ghost state of a thread is the list of records its operation owns. *)

Abbreviation ghosts := (gmap nat (hzpc * list nat)).

Definition gather (gs : ghosts) : list nat := map_to_list gs ≫= fun e => e.2.2.

Lemma gather_delete (gs : ghosts) t pc xs : gs !! t = Some (pc, xs) -> gather gs ≡ₚ xs ++ gather (delete t gs).
Proof. intros E. unfold gather. by rewrite <- (map_to_list_delete _ _ _ E). Qed.

Lemma gather_insert (gs : ghosts) t pc xs : gather (<[t := (pc, xs)]> gs) ≡ₚ xs ++ gather (delete t gs).
Proof. rewrite (gather_delete _ t pc xs) by apply lookup_insert_eq. by rewrite delete_insert_eq. Qed.

Lemma gather_elem (gs : ghosts) t pc xs q : gs !! t = Some (pc, xs) -> q ∈ xs -> q ∈ gather gs.
Proof. intros E Hq. rewrite (gather_delete gs t pc xs E). apply elem_of_app. by left. Qed.

Definition has_lock (pc : hzpc) : bool :=
  match pc with HtWalk _ _ _ _ | HtUnlock _ _ _ _ _ => true | _ => false end.

(** The walk stands at [tail] of the free list, which is what follows [A]. *)

Definition at_free (free : list nat) (N : nat) (hd tail : tagged) (n : nat) (B : list nat) : Prop :=
  exists A t, free = A ++ t :: B /\ hd = (head free, false) /\ tail = (Some t, false) /\ n = S (length A) /\ (n <= N)%nat.

(** A new record comes after the chain [acc]. *)

Definition new_ok (d : HzdDomain) (k : nat) (tail : option nat) (acc : list nat) (rec : nat) (xs : list nat) : Prop :=
  xs = acc ++ [rec] /\ (1 <= k)%nat /\ achain d acc /\ avail d rec = Some None /\ tail = last acc.

Definition hzpc_ok (d : HzdDomain) (free : list nat) (pc : hzpc) (xs : list nat) : Prop :=
  match pc with
  | HtLoad N => xs = [] /\ (1 <= N)%nat
  | HtLock N loaded => xs = [] /\ (1 <= N)%nat /\ loaded <> (None, false)
  | HtWalk N hd tail n => xs = [] /\ exists B, at_free free N hd tail n B
  | HtUnlock N hd tail n next => xs = [] /\ exists B, at_free free N hd tail n B /\ next = head B
  | HtCut N hd tail n =>
      (1 <= length xs <= N)%nat /\ apath d xs /\ hd = (head xs, false) /\ tail = (last xs, false) /\ n = length xs
  | HtFill k hd tail acc =>
      exists rest, xs = acc ++ rest /\ achain d xs /\ hd = (head rest, false) /\ tail = last acc /\
        (length rest <= k)%nat /\ (1 <= length acc + k)%nat
  | HtNew k tail acc rec _ | HtCount k tail acc rec | HtLink k tail acc rec => new_ok d k tail acc rec xs
  | HtPush hd tl => apath d xs /\ head xs = Some hd /\ last xs = Some tl
  | HtPushCas hd tl a => apath d xs /\ head xs = Some hd /\ last xs = Some tl /\ avail d tl = Some a.1 /\ a.2 = false
  end.

Lemma hzpc_ok_frame d d' free free' pc xs :
  (forall q, q ∈ xs -> avail d' q = avail d q) -> (has_lock pc = true -> free' = free) ->
  hzpc_ok d free pc xs -> hzpc_ok d' free' pc xs.
Proof.
  intros Hav Hfr. assert (Hnew : forall k tail acc rec, new_ok d k tail acc rec xs -> new_ok d' k tail acc rec xs).
  { intros k tail acc rec (-> & Hk & Hc & Hr & Ht). split; [done|]. split; [done|].
    split; [apply (achain_frame d); [|done]; intros q Hq; apply Hav, elem_of_app; by left|].
    split; [|done]. rewrite Hav; [done|]. apply elem_of_app. right. by left. }
  destruct pc; cbn [hzpc_ok has_lock] in *; try done; try apply Hnew.
  - by rewrite Hfr.
  - by rewrite Hfr.
  - intros (H1 & H2 & H3). split; [done|]. split; [by apply (apath_frame d)|done].
  - intros (rest & H1 & H2 & H3). exists rest. split; [done|]. split; [by apply (achain_frame d)|done].
  - intros (H1 & H2). split; [by apply (apath_frame d)|done].
  - intros (H1 & H2 & H3 & H4). split; [by apply (apath_frame d)|]. split; [done|]. split; [done|].
    rewrite Hav; [done|]. by apply last_Some_elem_of.
Qed.

(** Every record is free, owned by an operation or held by a caller. *)

Record own_inv (d : HzdDomain) (gs : ghosts) (held : list (list nat)) (free : list nat) (locker : option nat) : Prop := {
  oi_head : avail_head (hazard_pointers d) = (head free, bool_decide (is_Some locker));
  oi_free : achain d free;
  oi_held : Forall (fun rs => rs <> [] /\ achain d rs) held;
  oi_part : free ++ gather gs ++ concat held ≡ₚ seq 0 (length (hd_recs d));
  oi_pcs : map_Forall (fun t e => hzpc_ok d free e.1 e.2 /\ (has_lock e.1 = true <-> locker = Some t)) gs;
  oi_locker : forall t, locker = Some t -> is_Some (gs !! t)
}.

(** Every record is on the list of all records or about to be linked, and
    counted or about to be. *)

Definition unlinked (pc : hzpc) : list nat := match pc with HtNew _ _ _ rec _ => [rec] | _ => [] end.
Definition uncounted (pc : hzpc) : nat := match pc with HtCount _ _ _ _ => 1%nat | _ => 0%nat end.
Definition all_unlinked (gs : ghosts) : list nat := map_to_list gs ≫= fun e => unlinked e.2.1.

Record list_inv (d : HzdDomain) (gs : ghosts) (pub : list nat) : Prop := {
  li_head : hp_head (hazard_pointers d) = head pub;
  li_chain : nchain d pub;
  li_part : pub ++ all_unlinked gs ≡ₚ seq 0 (length (hd_recs d));
  li_count : wrap usize_bits (hp_count (hazard_pointers d) + Z.of_nat (total (fun e => uncounted e.1) gs)) = wrap usize_bits (len pub)
}.

Definition put_ghost (gs : ghosts) (t : nat) (e : option (hzpc * list nat)) : ghosts :=
  match e with Some e => <[t := e]> gs | None => delete t gs end.

Definition entry_own (e : option (hzpc * list nat)) : list nat := from_option snd [] e.

Lemma gather_put gs t e : gather (put_ghost gs t e) ≡ₚ entry_own e ++ gather (delete t gs).
Proof. destruct e as [[pc xs]|]; cbn; [apply gather_insert|done]. Qed.

Lemma gather_own gs t : gather gs ≡ₚ entry_own (gs !! t) ++ gather (delete t gs).
Proof. destruct (gs !! t) as [[pc xs]|] eqn:E; cbn; [by apply (gather_delete gs t pc)|by rewrite delete_id]. Qed.

(** The general step of thread [t], which changes the links of its own and of
    free records only. *)

Lemma own_update d d' gs held held' free free' locker locker' t e :
  own_inv d gs held free locker ->
  avail_head (hazard_pointers d') = (head free', bool_decide (is_Some locker')) -> achain d' free' ->
  Forall (fun rs => rs <> [] /\ achain d' rs) held' ->
  free' ++ entry_own e ++ concat held' ++ seq 0 (length (hd_recs d)) ≡ₚ
    free ++ entry_own (gs !! t) ++ concat held ++ seq 0 (length (hd_recs d')) ->
  (forall q, q ∈ gather (delete t gs) -> avail d' q = avail d q) ->
  (forall t', t' <> t -> (locker' = Some t' <-> locker = Some t')) ->
  (forall t', t' <> t -> locker = Some t' -> free' = free) ->
  match e with
  | Some (pc, xs) => hzpc_ok d' free' pc xs /\ (has_lock pc = true <-> locker' = Some t)
  | None => locker' <> Some t
  end ->
  own_inv d' (put_ghost gs t e) held' free' locker'.
Proof.
  intros I Hh Hf Hhe Hp Hav Hlk Hfr He. constructor; try done.
  - rewrite gather_put. apply (Permutation_app_inv_r (seq 0 (length (hd_recs d)))).
    transitivity ((free' ++ entry_own e ++ concat held' ++ seq 0 (length (hd_recs d))) ++ gather (delete t gs)); [solve_Permutation|].
    rewrite Hp. rewrite <- (oi_part _ _ _ _ _ I), (gather_own gs t). solve_Permutation.
  - intros t' [pc' xs'] E. cbn [fst snd]. destruct (decide (t' = t)) as [->|Hne].
    + destruct e as [[pc xs]|]; cbn [put_ghost] in E; [|by rewrite lookup_delete_eq in E].
      rewrite lookup_insert_eq in E. by injection E as <- <-.
    + assert (E' : gs !! t' = Some (pc', xs')).
      { destruct e; cbn [put_ghost] in E; by rewrite ?lookup_insert_ne, ?lookup_delete_ne in E. }
      destruct (oi_pcs _ _ _ _ _ I t' _ E') as [H1 H2]. cbn [fst snd] in *. split; [|by rewrite Hlk].
      apply (hzpc_ok_frame d d' free free'); [| |done].
      * intros q Hq. apply Hav, (gather_elem _ t' pc' xs'); [by rewrite lookup_delete_ne|done].
      * intros Hl. apply (Hfr t'); [done|by apply H2].
  - intros t' Ht'. destruct (decide (t' = t)) as [->|Hne].
    + destruct e; cbn; [rewrite lookup_insert_eq; by eexists|done].
    + apply Hlk in Ht'; [|done]. apply (oi_locker _ _ _ _ _ I) in Ht'.
      destruct e; cbn [put_ghost]; by rewrite ?lookup_insert_ne, ?lookup_delete_ne.
Qed.

Section invariant.
Context (d : HzdDomain) (gs : ghosts) (held : list (list nat)) (free : list nat) (locker : option nat)
  (I : own_inv d gs held free locker).

Lemma own_nodup t : NoDup (free ++ entry_own (gs !! t) ++ gather (delete t gs) ++ concat held).
Proof using I.
  rewrite (app_assoc (entry_own _)), <- gather_own. rewrite (oi_part _ _ _ _ _ I). apply NoDup_seq.
Qed.

Lemma own_nodup_parts t :
  NoDup (free ++ entry_own (gs !! t)) /\
  (forall q, q ∈ free ++ entry_own (gs !! t) -> (q ∉ gather (delete t gs)) /\ (q ∉ concat held)).
Proof using I.
  pose proof (own_nodup t) as Hn. rewrite app_assoc in Hn. apply NoDup_app in Hn as (H1 & H2 & _). split; [done|].
  intros q Hq. apply H2 in Hq. rewrite elem_of_app in Hq. tauto.
Qed.

Lemma own_below q : q ∈ free ++ gather gs ++ concat held <-> (q < length (hd_recs d))%nat.
Proof using I. rewrite (oi_part _ _ _ _ _ I), elem_of_seq. lia. Qed.

Lemma own_lt t q : q ∈ free ++ entry_own (gs !! t) -> (q < length (hd_recs d))%nat.
Proof using I.
  intros Hq. apply own_below. rewrite (gather_own gs t). rewrite elem_of_app in Hq. rewrite !elem_of_app. tauto.
Qed.

(** What callers hold stays. *)

Lemma held_frame d' t : (forall q, q ∉ free ++ entry_own (gs !! t) -> avail d' q = avail d q) ->
  Forall (fun rs => rs <> [] /\ achain d' rs) held.
Proof using I.
  intros Hav. pose proof (oi_held _ _ _ _ _ I) as H. rewrite Forall_forall in H |- *. intros rs Hrs.
  destruct (H rs Hrs) as [H1 H2]. split; [done|]. apply (achain_frame d); [|done]. intros q Hq. apply Hav. intros Hin.
  apply (own_nodup_parts t) in Hin as [_ Hin]. apply Hin, elem_of_concat. by exists rs.
Qed.

Lemma others_frame d' t : (forall q, q ∉ free ++ entry_own (gs !! t) -> avail d' q = avail d q) ->
  forall q, q ∈ gather (delete t gs) -> avail d' q = avail d q.
Proof using I. intros Hav q Hq. apply Hav. intros Hin. by apply (own_nodup_parts t) in Hin as [Hin _]. Qed.

Lemma own_pc t pc xs : gs !! t = Some (pc, xs) -> hzpc_ok d free pc xs /\ (has_lock pc = true <-> locker = Some t).
Proof using I. apply (oi_pcs _ _ _ _ _ I t). Qed.

(** A step that leaves the free list, the lock and what the thread owns. *)

Lemma own_stay d' t pc pc' xs :
  gs !! t = Some (pc, xs) -> has_lock pc' = has_lock pc ->
  avail_head (hazard_pointers d') = avail_head (hazard_pointers d) -> length (hd_recs d') = length (hd_recs d) ->
  (forall q, q ∉ xs -> avail d' q = avail d q) -> hzpc_ok d' free pc' xs ->
  own_inv d' (<[t := (pc', xs)]> gs) held free locker.
Proof using I.
  intros E Hl Hh Hlen Hav Hok. destruct (oi_pcs _ _ _ _ _ I t _ E) as [_ Hlk]. cbn [fst] in Hlk.
  assert (Hav' : forall q, q ∉ free ++ entry_own (gs !! t) -> avail d' q = avail d q).
  { intros q Hq. apply Hav. intros Hin. apply Hq. rewrite E. apply elem_of_app. by right. }
  apply (own_update d d' gs held held free free locker locker t (Some (pc', xs)) I); try done.
  - rewrite Hh. apply I.
  - apply (achain_frame d); [|apply I]. intros q Hq. apply Hav. intros Hin.
    pose proof (own_nodup_parts t) as [Hn _]. rewrite E in Hn. apply NoDup_app in Hn as (_ & Hn & _). by apply (Hn q).
  - by apply (held_frame d' t).
  - rewrite E, Hlen. done.
  - by apply (others_frame d' t).
  - split; [done|]. by rewrite Hl.
Qed.
End invariant.

(** ** Steps keep the ownership *)

Definition next_ghost (n : hznext) (xs : list nat) : option (hzpc * list nat) :=
  match n with HGo pc => Some (pc, xs) | _ => None end.

Definition next_held (n : hznext) (held : list (list nat)) : list (list nat) :=
  match n with HGot records => records :: held | _ => held end.

Definition own_step (gs : ghosts) (held : list (list nat)) (t : nat) (r : outcome (HzdDomain * hznext)) : Prop :=
  exists d n xs free locker, r = Done (d, n) /\ own_inv d (put_ghost gs t (next_ghost n xs)) (next_held n held) free locker.

Lemma set_avail_same d : set_avail d (avail_head (hazard_pointers d)) = d.
Proof. by destruct d as [[] ]. Qed.

Lemma head_tagged_None (free : list nat) : (head free, false) <> (None, false) -> exists h fs, free = h :: fs.
Proof. destruct free as [|h fs]; [done|by exists h, fs]. Qed.

Section own_steps.
Context (p : profile) (d : HzdDomain) (gs : ghosts) (held : list (list nat)) (free : list nat) (locker : option nat)
  (I : own_inv d gs held free locker).

Lemma load_own t N xs : gs !! t = Some (HtLoad N, xs) -> own_step gs held t (acquire_step p d N None).
Proof using I.
  intros E. destruct (own_pc d gs held free locker I t _ _ E) as [[-> HN] _]. unfold acquire_step.
  rewrite debug_assert_true by (by apply bool_decide_eq_true). cbn [mbind outcome_bind].
  eexists _, _, [], free, locker. split; [done|]. cbn [next_ghost put_ghost next_held].
  apply (own_stay d gs held free locker I d t (HtLoad N)); try done; [by case_decide|].
  case_decide as Hd; cbn; [|done]. exists []. split; [done|]. split; [done|]. split; [done|]. split; [done|]. cbn. lia.
Qed.

Lemma lock_own t N loaded xs : gs !! t = Some (HtLock N loaded, xs) ->
  ((avail_head (hazard_pointers d)).2 = false -> avail_head (hazard_pointers d) = loaded) ->
  own_step gs held t (acquire_step p d N (Some loaded)).
Proof using I.
  intros E Hst. destruct (own_pc d gs held free locker I t _ _ E) as [(-> & HN & Hl) Hlk]. unfold acquire_step.
  pose proof (oi_head _ _ _ _ _ I) as Hh. destruct locker as [u|] eqn:El.
  - assert (Hd : set_avail d ((avail_head (hazard_pointers d)).1, true) = d).
    { rewrite Hh. cbn. rewrite bool_decide_true in Hh by done. rewrite <- Hh. apply set_avail_same. }
    rewrite Hd, Hh. cbn [snd]. rewrite bool_decide_true by done. cbn [negb].
    eexists d, _, [], free, (Some u). split; [done|]. by apply (own_stay d gs held free (Some u) I d t (HtLock N loaded)).
  - rewrite bool_decide_false in Hh by (by intros [? ?]). rewrite Hh in Hst |- *. cbn [fst snd negb] in *.
    specialize (Hst eq_refl). subst loaded. destruct (head_tagged_None free Hl) as (h & fs & ->).
    eexists _, _, [], (h :: fs), (Some t). split; [done|]. cbn [next_ghost next_held].
    apply (own_update d _ gs held held _ _ _ _ t _ I); try done.
    + by apply achain_set_avail, I.
    + eapply Forall_impl; [apply I|]. intros rs [H1 H2]. split; [done|by apply achain_set_avail].
    + by rewrite E.
    + intros t' Hne. split; [by intros [= <-]|done].
    + cbn. split; [|done]. split; [done|]. exists fs, [], h. by split_and!.
Qed.

Lemma walk_own t N hd tail n xs : gs !! t = Some (HtWalk N hd tail n, xs) -> own_step gs held t (walk_step p d N hd tail n).
Proof using I.
  intros E. destruct (own_pc d gs held free locker I t _ _ E) as [(-> & B & A & tl & Hfree & Hhd & -> & Hn & HnN) _]. unfold walk_step.
  rewrite debug_assert_true by (apply bool_decide_eq_true; lia). cbn [mbind outcome_bind].
  pose proof (oi_free _ _ _ _ _ I) as Hf. rewrite Hfree in Hf. apply achain_app in Hf as [Hav _].
  destruct (avail_rec d tl _ Hav) as (c & -> & Hc). cbn [mbind outcome_bind]. rewrite Hc.
  assert (Hstay : forall pc', has_lock pc' = true -> hzpc_ok d free pc' [] -> own_step gs held t (Done (d, HGo pc'))).
  { intros pc' H1 H2. exists d, (HGo pc'), [], free, locker. split; [done|].
    by apply (own_stay d gs held free locker I d t (HtWalk N hd (Some tl, false) n)). }
  assert (Hun : has_lock (HtUnlock N hd (Some tl, false) n (head B)) = true) by done.
  destruct B as [|nx B]; cbn [head] in *.
  - apply Hstay; [done|]. split; [done|]. exists []. split; [|done]. by exists A, tl.
  - case_decide as HlN; apply Hstay; try done; (split; [done|]).
    + exists B, (A ++ [tl]), nx. rewrite <- app_assoc. split; [done|]. do 2 (split; [done|]). rewrite length_app. cbn. lia.
    + exists (nx :: B). split; [|done]. by exists A, tl.
Qed.

Lemma unlock_own t N hd tail n next xs : gs !! t = Some (HtUnlock N hd tail n next, xs) ->
  own_step gs held t (Done (set_avail d (next, false), HGo (HtCut N hd tail n))).
Proof using I.
  intros E. destruct (own_pc d gs held free locker I t _ _ E) as [(-> & B & (A & tl & Hfree & Hhd & -> & Hn & HnN) & ->) Hlk].
  cbn [has_lock] in Hlk. pose proof (oi_free _ _ _ _ _ I) as Hf. rewrite Hfree in Hf.
  assert (Hsplit : A ++ tl :: B = (A ++ [tl]) ++ B) by (by rewrite <- app_assoc).
  eexists _, _, (A ++ [tl]), B, None. split; [done|]. cbn [next_ghost next_held].
  apply (own_update d _ gs held held free B locker None t _ I); try done.
  - apply achain_set_avail. rewrite Hsplit in Hf. by apply (achain_app d (A ++ [tl])).
  - eapply Forall_impl; [apply I|]. intros rs [H1 H2]. split; [done|by apply achain_set_avail].
  - rewrite E, Hfree, Hsplit. cbn [entry_own from_option snd]. solve_Permutation.
  - intros t' Hne. split; [done|]. intros ->. assert (Some t' = Some t) by (by apply Hlk). congruence.
  - intros t' Hne ->. assert (Some t' = Some t) by (by apply Hlk). congruence.
  - cbn. split; [|done]. rewrite length_app, last_snoc. cbn [length]. split; [lia|].
    split; [rewrite Hsplit in Hf; by apply (achain_prefix _ _ B), achain_set_avail|].
    split; [rewrite Hhd, Hfree; by destruct A|]. split; [done|lia].
Qed.

Lemma cut_own t N hd tail n xs : gs !! t = Some (HtCut N hd tail n, xs) -> own_step gs held t (cut_step p d N hd tail n).
Proof using I.
  intros E. destruct (own_pc d gs held free locker I t _ _ E) as [(Hlen & Hpath & -> & -> & ->) _]. unfold cut_step.
  destruct (last xs) as [tl|] eqn:El; [|apply last_None in El as ->; cbn in Hlen; lia].
  pose proof El as Es. apply last_snoc_inv in Es as [A ->].
  assert (Htl : (tl < length (hd_recs d))%nat).
  { apply (own_lt d gs held free locker I t). rewrite E. cbn. apply elem_of_app. right. apply elem_of_app. right. by left. }
  unfold rec_at at 1. destruct (lookup_lt_is_Some_2 _ _ Htl) as [c Hc]. rewrite Hc. cbn [mbind outcome_bind].
  destruct (set_available_spec d tl None Htl) as (d' & -> & [Shp Slen] & Hav & _). cbn [mbind outcome_bind].
  rewrite !debug_assert_true, rust_assert_true by (apply bool_decide_eq_true; lia). cbn [mbind outcome_bind].
  exists d', (HGo (HtFill N (head (A ++ [tl]), false) None [])), (A ++ [tl]), free, locker. split; [done|].
  apply (own_stay d gs held free locker I d' t (HtCut N (head (A ++ [tl]), false) (Some tl, false) (length (A ++ [tl])))); try done.
  - by rewrite Shp.
  - intros q Hq. rewrite Hav, decide_False; [done|]. intros ->. apply Hq, elem_of_app. right. by left.
  - exists (A ++ [tl]). split; [done|]. split; [|split; [done|split; [done|cbn; lia]]].
    rewrite <- (app_nil_r (A ++ [tl])). apply (apath_close d); try done; [|set_solver].
    pose proof (own_nodup_parts d gs held free locker I t) as [Hn _]. rewrite E in Hn. by apply NoDup_app in Hn as (_ & _ & Hn).
Qed.

(** The array is full. *)

Lemma got_own t hd tail acc xs : gs !! t = Some (HtFill 0 hd tail acc, xs) -> own_step gs held t (fill_step d 0 hd tail acc).
Proof using I.
  intros E. destruct (own_pc d gs held free locker I t _ _ E) as [(rest & -> & Hc & -> & -> & Hk & Ha) Hlk]. cbn [has_lock] in Hlk.
  destruct rest as [|? ?]; [|cbn in Hk; lia]. rewrite app_nil_r in *. eexists d, (HGot acc), [], free, locker. split; [done|].
  cbn [next_ghost next_held]. apply (own_update d _ gs held _ free free locker locker t None I); try done; try apply I.
  - constructor; [|apply I]. split; [|done]. intros ->. cbn in Ha. lia.
  - rewrite E. cbn. by rewrite <- !app_assoc.
  - intros Hl. apply Hlk in Hl. done.
Qed.

(** The next record of the chain. *)

Lemma take_own t k hd tail acc xs : gs !! t = Some (HtFill (S k) hd tail acc, xs) -> hd <> (None, false) ->
  own_step gs held t (fill_step d (S k) hd tail acc).
Proof using I.
  intros E Hhd. destruct (own_pc d gs held free locker I t _ _ E) as [(rest & -> & Hc & -> & -> & Hk & Ha) _].
  destruct (head_tagged_None rest Hhd) as (h & rs & ->). cbn [fill_step]. rewrite decide_False by done.
  destruct (avail_rec d h (head rs)) as (c & E1 & Hcv); [by apply achain_app in Hc as [? _]|].
  change (head (h :: rs), false) with (Some h, false). rewrite E1. cbn [mbind outcome_bind]. rewrite Hcv.
  eexists d, _, (acc ++ h :: rs), free, locker. split; [done|]. cbn [next_ghost next_held put_ghost].
  apply (own_stay d gs held free locker I d t (HtFill (S k) (head (h :: rs), false) (last acc) acc)); try done.
  exists rs. rewrite <- app_assoc. split; [done|]. split; [done|]. split; [done|]. split; [by rewrite last_snoc|].
  rewrite length_app. cbn in *. split; lia.
Qed.

(** A new record is allocated. *)

Lemma alloc_own t k tail acc xs : gs !! t = Some (HtFill (S k) (None, false) tail acc, xs) ->
  own_step gs held t (fill_step d (S k) (None, false) tail acc).
Proof using I.
  intros E. destruct (own_pc d gs held free locker I t _ _ E) as [(rest & -> & Hc & Hhd & -> & Hk & Ha) Hlk]. cbn [has_lock] in Hlk.
  destruct rest as [|? ?]; [|done]. rewrite app_nil_r in *. cbn [fill_step]. rewrite decide_True by done.
  set (rec := length (hd_recs d)). set (d' := mkHzdDomain _ (hd_recs d ++ _)).
  assert (Hav : forall q, avail d' q = if decide (q = rec) then Some None else avail d q) by (intros q; apply recs_snoc).
  assert (Hold : forall q, (q < rec)%nat -> avail d' q = avail d q) by (intros q Hq; rewrite Hav, decide_False by lia; done).
  assert (Hbel : forall q, q ∈ free ++ gather gs ++ concat held -> avail d' q = avail d q).
  { intros q Hq%(own_below d gs held free locker I). by apply Hold. }
  eexists d', _, (acc ++ [rec]), free, locker. split; [done|]. cbn [next_ghost next_held].
  apply (own_update d _ gs held held free free locker locker t _ I); try done; try apply I.
  - apply (achain_frame d); [|apply I]. intros q Hq. apply Hbel, elem_of_app. by left.
  - pose proof (oi_held _ _ _ _ _ I) as Hh. rewrite Forall_forall in Hh |- *. intros rs Hrs. destruct (Hh rs Hrs) as [H1 H2].
    split; [done|]. apply (achain_frame d); [|done]. intros q Hq. apply Hbel. do 2 (apply elem_of_app; right).
    apply elem_of_concat. by exists rs.
  - rewrite E. cbn [entry_own from_option snd]. unfold d'. cbn [hd_recs]. rewrite length_app. cbn [length]. rewrite Nat.add_1_r, seq_S.
    cbn [Nat.add]. fold rec. solve_Permutation.
  - intros q Hq. apply Hbel. rewrite (gather_own gs t). rewrite !elem_of_app. tauto.
  - cbn. split; [|rewrite <- Hlk; done]. split; [done|]. split; [lia|]. split; [|split; [by rewrite Hav, decide_True|done]].
    apply (achain_frame d); [|done]. intros q Hq. apply Hbel. rewrite (gather_own gs t), E. cbn. rewrite !elem_of_app. tauto.
Qed.

(** Linking and counting a new record. *)

Lemma new_own t spurious k tail acc rec h xs : gs !! t = Some (HtNew k tail acc rec h, xs) ->
  own_step gs held t (link_head_step spurious d k tail acc rec h).
Proof using I.
  intros E. destruct (own_pc d gs held free locker I t _ _ E) as [Hok _]. pose proof Hok as (-> & Hk & Hc & Hr & Ht).
  unfold link_head_step. destruct (upd_rec_spec d rec (set_next h) (avail_lt _ _ _ Hr)) as (d' & -> & [Shp Slen] & Hl).
  cbn [mbind outcome_bind].
  assert (Hav : forall q, avail d' q = avail d q).
  { intros q. unfold avail. rewrite Hl. case_decide; [|done]. subst q. by destruct (hd_recs d !! rec). }
  assert (Hnew : forall d2, (forall q, avail d2 q = avail d' q) -> new_ok d2 k tail acc rec (acc ++ [rec])).
  { intros d2 H2. split; [done|]. split; [done|]. split; [apply (achain_frame d); [|done]; intros q _; by rewrite H2|].
    split; [by rewrite H2, Hav|done]. }
  case_decide as Hcas.
  - eexists (set_head d' (Some rec)), _, (acc ++ [rec]), free, locker. split; [done|].
    apply (own_stay d gs held free locker I _ t (HtNew k tail acc rec h)); try done; [cbn; by rewrite Shp|by intros q _; rewrite <- Hav|by apply Hnew].
  - eexists d', _, (acc ++ [rec]), free, locker. split; [done|].
    apply (own_stay d gs held free locker I _ t (HtNew k tail acc rec h)); try done; [by rewrite Shp|by apply Hnew].
Qed.

Lemma count_own t k tail acc rec xs : gs !! t = Some (HtCount k tail acc rec, xs) ->
  own_step gs held t (Done (add_count d, HGo (HtLink k tail acc rec))).
Proof using I.
  intros E. destruct (own_pc d gs held free locker I t _ _ E) as [Hok _].
  eexists (add_count d), _, xs, free, locker. split; [done|].
  apply (own_stay d gs held free locker I _ t (HtCount k tail acc rec)); try done.
  by apply (hzpc_ok_frame d _ free free (HtLink k tail acc rec)).
Qed.

Lemma link_own t spurious k tail acc rec xs : gs !! t = Some (HtLink k tail acc rec, xs) ->
  own_step gs held t (hz_step p spurious d (HtLink k tail acc rec)).
Proof using I.
  intros E. destruct (own_pc d gs held free locker I t _ _ E) as [(-> & Hk & Hc & Hr & ->) _]. cbn [hz_step].
  pose proof (own_nodup_parts d gs held free locker I t) as [Hn _]. rewrite E in Hn. apply NoDup_app in Hn as (_ & _ & Hn).
  cbn [entry_own from_option snd] in Hn.
  assert (Hd : exists d', match last acc with Some t => upd_rec d t (set_available (Some rec)) | None => Done d end = Done d' /\
    same_but d d' /\ achain d' (acc ++ [rec]) /\ forall q, q ∉ acc ++ [rec] -> avail d' q = avail d q).
  { destruct (last acc) as [tl|] eqn:El.
    - apply last_snoc_inv in El as [A ->].
      destruct (set_available_spec d tl (Some rec) (avail_lt _ _ _ (achain_avail _ _ _ Hc))) as (d' & -> & Hs & Hav & _).
      exists d'. split; [done|]. split; [done|]. apply NoDup_app in Hn as (Hn1 & Hn2 & _). split.
      + apply (apath_close d); [by apply achain_apath|done|done|done|done].
      + intros q Hq. rewrite Hav, decide_False; [done|]. intros ->. apply Hq. rewrite !elem_of_app. left. right. by left.
    - apply last_None in El as ->. by exists d. }
  destruct Hd as (d' & -> & [Shp Slen] & Hc' & Hav). cbn [mbind outcome_bind].
  eexists d', _, (acc ++ [rec]), free, locker. split; [done|].
  apply (own_stay d gs held free locker I d' t (HtLink k (last acc) acc rec)); try done; [by rewrite Shp|].
  exists []. rewrite app_nil_r, last_snoc, length_app. split; [done|]. split; [done|]. split; [done|]. split; [done|]. cbn. lia.
Qed.

(** Releasing. *)

Lemma push_own t hd tl xs : gs !! t = Some (HtPush hd tl, xs) -> own_step gs held t (push_step d hd tl None).
Proof using I.
  intros E. destruct (own_pc d gs held free locker I t _ _ E) as [(Hp & Hh & Hl) _]. pose proof Hl as Hs.
  apply last_snoc_inv in Hs as [A ->]. unfold push_step.
  assert (Htl : tl ∈ A ++ [tl]) by (apply elem_of_app; right; by left).
  pose proof (own_nodup_parts d gs held free locker I t) as [Hn _]. rewrite E in Hn. apply NoDup_app in Hn as (_ & _ & Hn).
  destruct (avail_head (hazard_pointers d)).2 eqn:Ea; cbn [negb].
  - eexists d, _, (A ++ [tl]), free, locker. split; [done|].
    by apply (own_stay d gs held free locker I d t (HtPush hd tl)).
  - assert (Hlt : (tl < length (hd_recs d))%nat).
    { apply (own_lt d gs held free locker I t). rewrite E. apply elem_of_app. by right. }
    destruct (set_available_spec d tl (avail_head (hazard_pointers d)).1 Hlt) as (d' & -> & [Shp Slen] & Hav & _).
    cbn [mbind outcome_bind]. eexists d', _, (A ++ [tl]), free, locker. split; [done|].
    apply (own_stay d gs held free locker I d' t (HtPush hd tl)); try done; [by rewrite Shp| |].
    + intros q Hq. rewrite Hav, decide_False; [done|]. by intros ->.
    + split; [by apply (apath_open d d' A tl (Some (avail_head (hazard_pointers d)).1))|]. split; [done|]. split; [done|].
      split; [|done]. by rewrite Hav, decide_True.
Qed.

Lemma push_cas_own t hd tl a xs : gs !! t = Some (HtPushCas hd tl a, xs) -> own_step gs held t (push_step d hd tl (Some a)).
Proof using I.
  intros E. destruct (own_pc d gs held free locker I t _ _ E) as [(Hp & Hh & Hl & Hav & Ha) Hlk]. unfold push_step.
  case_decide as Hcas; cycle 1.
  { eexists d, _, xs, free, locker. split; [done|]. by apply (own_stay d gs held free locker I d t (HtPushCas hd tl a)). }
  pose proof (oi_head _ _ _ _ _ I) as Hhead. rewrite Hhead in Hcas. subst a. cbn [fst snd] in *.
  destruct locker as [u|]; [by rewrite bool_decide_true in Ha by done|]. clear Ha.
  pose proof Hl as Hs. apply last_snoc_inv in Hs as [A ->].
  pose proof (own_nodup_parts d gs held free None I t) as [Hn _]. rewrite E in Hn. cbn [entry_own from_option snd] in Hn.
  apply NoDup_app in Hn as (_ & Hdis & Hn).
  eexists (set_avail d (Some hd, false)), HReleased, [], ((A ++ [tl]) ++ free), None. split; [done|]. cbn [next_ghost next_held].
  apply (own_update d _ gs held held free _ None None t None I); try done.
  - cbn. f_equal. by destruct A.
  - apply achain_set_avail. apply (apath_close d); try done; [apply I|intros q H1 H2; by apply (Hdis q)|].
    intros q. case_decide as Eq; [by subst q|done].
  - eapply Forall_impl; [apply I|]. intros rs [H1 H2]. split; [done|by apply achain_set_avail].
  - rewrite E. cbn. solve_Permutation.
Qed.
End own_steps.

(** The start of an operation. *)

Lemma acquire_own d gs held free locker t N : own_inv d gs held free locker -> gs !! t = None -> (1 <= N)%nat ->
  own_inv d (<[t := (HtLoad N, [])]> gs) held free locker.
Proof.
  intros I E HN. assert (Hnl : locker <> Some t).
  { intros ->. destruct (oi_locker _ _ _ _ _ I t eq_refl) as [? Hs]. by rewrite E in Hs. }
  apply (own_update d d gs held held free free locker locker t (Some (HtLoad N, [])) I); try done; try apply I.
  by rewrite E.
Qed.

Lemma release_own p d gs held free locker t i rs : own_inv d gs held free locker -> gs !! t = None -> held !! i = Some rs ->
  exists pc, release_begin_many p d rs = Done pc /\ unlinked pc = [] /\ uncounted pc = 0%nat /\
    own_inv d (<[t := (pc, rs)]> gs) (delete i held) free locker.
Proof.
  intros I E Hi. assert (Hnl : locker <> Some t).
  { intros ->. destruct (oi_locker _ _ _ _ _ I t eq_refl) as [? Hs]. by rewrite E in Hs. }
  pose proof (oi_held _ _ _ _ _ I) as Hheld. destruct (Forall_lookup_1 _ _ _ _ Hheld Hi) as [Hne Hc].
  destruct (last rs) as [tl|] eqn:El; [|by apply last_None in El]. pose proof El as Es. apply last_snoc_inv in Es as [A Ers].
  destruct rs as [|h rs']; [done|]. unfold release_begin_many. rewrite El.
  rewrite Ers in Hc. destruct (avail_rec _ _ _ (achain_avail _ _ _ Hc)) as (c & -> & Hcv). cbn [mbind outcome_bind].
  rewrite Hcv, rust_assert_true, debug_assert_true by done. cbn [mbind outcome_bind].
  eexists. do 3 (split; [done|]).
  apply (own_update d d gs held _ free free locker locker t (Some (HtPush h tl, h :: rs')) I); try done; try apply I.
  - by apply Forall_delete.
  - assert (Hcat : concat held ≡ₚ (h :: rs') ++ concat (delete i held)).
    { rewrite <- (take_drop_middle held i _ Hi) at 1. rewrite delete_take_drop, !concat_app. cbn [concat]. solve_Permutation. }
    rewrite E, Hcat. cbn [entry_own from_option snd]. solve_Permutation.
  - split; [|done]. split; [rewrite Ers; by apply achain_apath|done].
Qed.

(** ** Steps keep the list of all records *)

(** As [inv_bind], without substituting. *)

Ltac open_binds H :=
  repeat match type of H with
  | mbind _ ?m = _ => let E := fresh "E" in destruct m eqn:E; cbn [mbind outcome_bind] in H; try discriminate H
  end.

Definition next_unlinked (n : hznext) : list nat := match n with HGo pc => unlinked pc | _ => [] end.
Definition next_uncounted (n : hznext) : nat := match n with HGo pc => uncounted pc | _ => 0%nat end.

Abbreviation pending gs := (total (fun e : hzpc * list nat => uncounted e.1) gs).

Lemma unlinked_put gs t n xs :
  all_unlinked (put_ghost gs t (next_ghost n xs)) ≡ₚ next_unlinked n ++ all_unlinked (delete t gs).
Proof.
  unfold all_unlinked. destruct n; cbn; try done.
  rewrite <- (map_to_list_delete (<[t := (pc, xs)]> gs) t (pc, xs)) by apply lookup_insert_eq. cbn. by rewrite delete_insert_eq.
Qed.

Lemma unlinked_own gs t pc xs : gs !! t = Some (pc, xs) -> all_unlinked gs ≡ₚ unlinked pc ++ all_unlinked (delete t gs).
Proof. intros E. unfold all_unlinked. by rewrite <- (map_to_list_delete _ _ _ E). Qed.

Lemma pending_put gs t n xs : pending (put_ghost gs t (next_ghost n xs)) = (next_uncounted n + pending (delete t gs))%nat.
Proof.
  destruct n; cbn; try done. rewrite (total_delete _ _ t (pc, xs)) by apply lookup_insert_eq. by rewrite delete_insert_eq.
Qed.

Lemma pending_own gs t pc xs : gs !! t = Some (pc, xs) -> pending gs = (uncounted pc + pending (delete t gs))%nat.
Proof. intros E. by rewrite (total_delete _ _ t (pc, xs) E). Qed.

Definition list_step (gs : ghosts) (t : nat) (r : outcome (HzdDomain * hznext)) : Prop :=
  forall d n, r = Done (d, n) -> forall xs, exists pub, list_inv d (put_ghost gs t (next_ghost n xs)) pub.

Section list_steps.
Context (d : HzdDomain) (gs : ghosts) (pub : list nat) (I : list_inv d gs pub).

(** A step that links and counts nothing. *)

Lemma list_frame d' t pc xs n xs' : gs !! t = Some (pc, xs) ->
  hp_head (hazard_pointers d') = hp_head (hazard_pointers d) -> hp_count (hazard_pointers d') = hp_count (hazard_pointers d) ->
  length (hd_recs d') = length (hd_recs d) -> (forall q, nextd d' q = nextd d q) ->
  unlinked pc = [] -> next_unlinked n = [] -> uncounted pc = 0%nat -> next_uncounted n = 0%nat ->
  exists pub', list_inv d' (put_ghost gs t (next_ghost n xs')) pub'.
Proof using I.
  intros E Hh Hc Hlen Hn Hu Hu' Hp Hp'. exists pub. constructor.
  - rewrite Hh. apply I.
  - apply (nchain_frame d); [|apply I]. intros q _. apply Hn.
  - rewrite unlinked_put, Hu', Hlen, <- (li_part _ _ _ I), (unlinked_own gs t pc xs E), Hu. done.
  - rewrite pending_put, Hp', Hc, <- (li_count _ _ _ I), (pending_own gs t pc xs E), Hp. done.
Qed.

Lemma upd_available_list t pc xs r v d' n xs' : gs !! t = Some (pc, xs) -> upd_rec d r (set_available v) = Done d' ->
  unlinked pc = [] -> next_unlinked n = [] -> uncounted pc = 0%nat -> next_uncounted n = 0%nat ->
  exists pub', list_inv d' (put_ghost gs t (next_ghost n xs')) pub'.
Proof using I.
  intros E Hd H1 H2 H3 H4. assert (Hr : (r < length (hd_recs d))%nat).
  { unfold upd_rec, rec_at in Hd. apply lookup_lt_is_Some. destruct (hd_recs d !! r); [done|discriminate]. }
  destruct (set_available_spec d r v Hr) as (d2 & E2 & [Shp Slen] & _ & Hn & _). rewrite Hd in E2. injection E2 as <-.
  apply (list_frame d' t pc xs); try done; by rewrite Shp.
Qed.

Lemma acquire_list p t N loaded pc xs : gs !! t = Some (pc, xs) -> unlinked pc = [] -> uncounted pc = 0%nat ->
  list_step gs t (acquire_step p d N loaded).
Proof using I.
  intros E H1 H2 d' n H xs'. unfold acquire_step in H. destruct loaded; open_binds H; injection H as <- <-.
  - apply (list_frame _ t pc xs); try done; by case_match.
  - apply (list_frame _ t pc xs); try done; by destruct (decide (avail_head _ = _)).
Qed.

Lemma walk_list p t N hd tail n0 xs : gs !! t = Some (HtWalk N hd tail n0, xs) -> list_step gs t (walk_step p d N hd tail n0).
Proof using I.
  intros E d' n H xs'. unfold walk_step in H. open_binds H. destruct a0 as [r c]. injection H as <- <-.
  apply (list_frame _ t (HtWalk N hd tail n0) xs); try done; destruct (hz_available c); try destruct (decide (n0 < N)%nat); done.
Qed.

Lemma cut_list p t N hd tail n0 xs : gs !! t = Some (HtCut N hd tail n0, xs) -> list_step gs t (cut_step p d N hd tail n0).
Proof using I.
  intros E d' n H xs'. unfold cut_step in H. open_binds H. destruct a as [r c]. open_binds H. injection H as <- <-.
  by eapply (upd_available_list t _ xs r None).
Qed.

Lemma push_list t hd tl loaded pc xs : gs !! t = Some (pc, xs) -> unlinked pc = [] -> uncounted pc = 0%nat ->
  list_step gs t (push_step d hd tl loaded).
Proof using I.
  intros E H1 H2 d' n H xs'. unfold push_step in H. destruct loaded as [a|].
  - case_decide; injection H as <- <-; by apply (list_frame _ t pc xs).
  - destruct (negb _); open_binds H; injection H as <- <-; [by eapply (upd_available_list t pc xs tl)|by apply (list_frame _ t pc xs)].
Qed.

Lemma link_list p spurious t k tail acc rec xs : gs !! t = Some (HtLink k tail acc rec, xs) ->
  list_step gs t (hz_step p spurious d (HtLink k tail acc rec)).
Proof using I.
  intros E d' n H xs'. cbn [hz_step] in H. open_binds H. injection H as <- <-. destruct tail as [tl|].
  - by eapply (upd_available_list t _ xs tl).
  - injection E0 as <-. by apply (list_frame _ t _ xs _ _ E).
Qed.

Lemma fill_list t k hd tail acc xs : gs !! t = Some (HtFill k hd tail acc, xs) -> list_step gs t (fill_step d k hd tail acc).
Proof using I.
  intros E d' n H xs'. unfold fill_step in H. destruct k as [|k]; [injection H as <- <-; by apply (list_frame _ t _ xs _ _ E)|].
  case_decide; [|open_binds H; destruct a as [h c]; injection H as <- <-; by apply (list_frame _ t _ xs _ _ E)].
  injection H as <- <-. exists pub. set (rec := length (hd_recs d)).
  assert (Hn : forall q, nextd (mkHzdDomain (hazard_pointers d) (hd_recs d ++ [mkHzdPtrRec None None None])) q =
    if decide (q = rec) then Some None else nextd d q) by (intros q; apply recs_snoc).
  constructor.
  - apply I.
  - apply (nchain_frame d); [|apply I]. intros q Hq. rewrite Hn, decide_False; [done|]. intros ->.
    assert (Hin : rec ∈ seq 0 rec) by (unfold rec at 2; rewrite <- (li_part _ _ _ I); apply elem_of_app; by left).
    apply elem_of_seq in Hin. lia.
  - rewrite unlinked_put. cbn [next_unlinked unlinked]. cbn [hd_recs]. rewrite length_app. cbn [length]. rewrite Nat.add_1_r, seq_S.
    fold rec. cbn [Nat.add]. unfold rec at 2. rewrite <- (li_part _ _ _ I), (unlinked_own gs t _ xs E). cbn [unlinked]. solve_Permutation.
  - rewrite pending_put. cbn [next_uncounted uncounted]. rewrite <- (li_count _ _ _ I), (pending_own gs t _ xs E). done.
Qed.

Lemma new_list spurious t k tail acc rec h xs : gs !! t = Some (HtNew k tail acc rec h, xs) ->
  list_step gs t (link_head_step spurious d k tail acc rec h).
Proof using I.
  intros E d' n H xs'. unfold link_head_step in H. pose proof (unlinked_own gs t _ xs E) as Hu. cbn [unlinked] in Hu.
  assert (Hperm : seq 0 (length (hd_recs d)) ≡ₚ rec :: pub ++ all_unlinked (delete t gs)).
  { rewrite <- (li_part _ _ _ I), Hu. solve_Permutation. }
  assert (Hr : (rec < length (hd_recs d))%nat).
  { assert (Hin : rec ∈ seq 0 (length (hd_recs d))) by (rewrite Hperm; by left). apply elem_of_seq in Hin. lia. }
  assert (Hrp : rec ∉ pub).
  { pose proof (NoDup_seq 0 (length (hd_recs d))) as Hnd. rewrite Hperm in Hnd. apply NoDup_cons in Hnd as [Hnd _].
    intros Hin. apply Hnd, elem_of_app. by left. }
  destruct (upd_rec_spec d rec (set_next h) Hr) as (d1 & E1 & [Shp Slen] & Hl). rewrite E1 in H. cbn [mbind outcome_bind] in H.
  destruct (lookup_lt_is_Some_2 _ _ Hr) as [c Hc].
  assert (Hn : forall q, nextd d1 q = if decide (q = rec) then Some h else nextd d q).
  { intros q. unfold nextd. rewrite Hl. destruct (decide (q = rec)); [by rewrite Hc|done]. }
  assert (Hpub : nchain d1 pub).
  { apply (nchain_frame d); [|apply I]. intros q Hq. rewrite Hn, decide_False; [done|]. by intros ->. }
  destruct (decide (spurious = false /\ hp_head (hazard_pointers d1) = h)) as [Hcas|Hcas]; injection H as <- <-.
  - destruct Hcas as [_ Hcas]. rewrite Shp, (li_head _ _ _ I) in Hcas. exists (rec :: pub). constructor.
    + done.
    + split; [change (nextd d1 rec = Some (head pub)); by rewrite Hn, decide_True, <- Hcas|]. apply (nchain_frame d1); [done|done].
    + rewrite unlinked_put. cbn [next_unlinked unlinked set_head hd_recs]. rewrite Slen, Hperm. done.
    + rewrite pending_put. cbn [next_uncounted uncounted set_head hazard_pointers hp_count]. rewrite Shp.
      pose proof (li_count _ _ _ I) as Hcnt. rewrite (pending_own gs t _ xs E) in Hcnt. cbn [uncounted Nat.add] in Hcnt.
      autorewrite with lens. rewrite Nat2Z.inj_succ. unfold wrap in *.
      replace (hp_count (hazard_pointers d) + Z.succ (Z.of_nat (pending (delete t gs)))) with
        ((hp_count (hazard_pointers d) + Z.of_nat (pending (delete t gs))) + 1) by lia.
      rewrite <- Zplus_mod_idemp_l, Hcnt, Zplus_mod_idemp_l. f_equal. lia.
  - exists pub. constructor.
    + rewrite Shp. apply I.
    + done.
    + rewrite unlinked_put, Slen, <- (li_part _ _ _ I), Hu. done.
    + rewrite pending_put, Shp, <- (li_count _ _ _ I), (pending_own gs t _ xs E). done.
Qed.

Lemma count_list t k tail acc rec xs : gs !! t = Some (HtCount k tail acc rec, xs) ->
  list_step gs t (Done (add_count d, HGo (HtLink k tail acc rec))).
Proof using I.
  intros E d' n [= <- <-] xs'. exists pub. constructor; try apply I.
  - apply (nchain_frame d); [done|apply I].
  - rewrite unlinked_put. cbn [next_unlinked unlinked]. rewrite <- (li_part _ _ _ I), (unlinked_own gs t _ xs E). done.
  - rewrite pending_put. cbn [next_uncounted uncounted add_count hazard_pointers hp_count].
    rewrite <- (li_count _ _ _ I), (pending_own gs t _ xs E). cbn [uncounted]. unfold wrap. rewrite Zplus_mod_idemp_l. f_equal. lia.
Qed.
End list_steps.

(** ** Schedules *)

Definition threads_ok (s : hthreads) : Prop :=
  exists gs free locker pub, fst <$> gs = ht_pcs s /\ own_inv (ht_domain s) gs (ht_held s) free locker /\
    list_inv (ht_domain s) gs pub.

Section schedules.
Context (p : profile).

Lemma hz_step_ok d gs held free locker pub t pc xs spurious :
  own_inv d gs held free locker -> list_inv d gs pub -> gs !! t = Some (pc, xs) ->
  (forall N loaded, pc = HtLock N loaded -> (avail_head (hazard_pointers d)).2 = false -> avail_head (hazard_pointers d) = loaded) ->
  own_step gs held t (hz_step p spurious d pc) /\ list_step gs t (hz_step p spurious d pc).
Proof.
  intros I L E Hst. destruct pc as [N|N loaded|N hd tl n|N hd tl n nx|N hd tl n|k hd tl acc|k tl acc rec h|k tl acc rec|k tl acc rec|hd tl|hd tl a];
    cbn [hz_step].
  - split; [by apply (load_own p d gs held free locker I t N xs)|by apply (acquire_list d gs pub L p t N None _ xs E)].
  - split; [by apply (lock_own p d gs held free locker I t N loaded xs E), (Hst N)|by apply (acquire_list d gs pub L p t N (Some loaded) _ xs E)].
  - split; [by apply (walk_own p d gs held free locker I t N hd tl n xs)|by apply (walk_list d gs pub L p t N hd tl n xs)].
  - split; [by apply (unlock_own d gs held free locker I t N hd tl n nx xs)|].
    intros d' n' [= <- <-] xs'. by apply (list_frame d gs pub L _ t _ xs _ _ E).
  - split; [by apply (cut_own p d gs held free locker I t N hd tl n xs)|by apply (cut_list d gs pub L p t N hd tl n xs)].
  - split; [|by apply (fill_list d gs pub L t k hd tl acc xs)]. destruct k as [|k]; [by apply (got_own d gs held free locker I t hd tl acc xs)|].
    destruct (decide (hd = (None, false))) as [->|Hhd]; [by apply (alloc_own d gs held free locker I t k tl acc xs)|].
    by apply (take_own d gs held free locker I t k hd tl acc xs).
  - split; [by apply (new_own d gs held free locker I t spurious k tl acc rec h xs)|by apply (new_list d gs pub L spurious t k tl acc rec h xs)].
  - split; [by apply (count_own d gs held free locker I t k tl acc rec xs)|by apply (count_list d gs pub L t k tl acc rec xs)].
  - split; [by apply (link_own p d gs held free locker I t spurious k tl acc rec xs)|by apply (link_list d gs pub L p spurious t k tl acc rec xs)].
  - split; [by apply (push_own d gs held free locker I t hd tl xs)|by apply (push_list d gs pub L t hd tl None _ xs E)].
  - split; [by apply (push_cas_own d gs held free locker I t hd tl a xs)|by apply (push_list d gs pub L t hd tl (Some a) _ xs E)].
Qed.

Lemma start_pcs (gs : ghosts) pcs t : fst <$> gs = pcs -> pcs !! t = None -> gs !! t = None.
Proof. intros <- E. rewrite lookup_fmap in E. by destruct (gs !! t). Qed.

Lemma start_list d gs pub t pc xs : list_inv d gs pub -> gs !! t = None -> unlinked pc = [] -> uncounted pc = 0%nat ->
  list_inv d (<[t := (pc, xs)]> gs) pub.
Proof.
  intros [H1 H2 H3 H4] E Hu Hc. constructor; try done.
  - change (<[t := (pc, xs)]> gs) with (put_ghost gs t (next_ghost (HGo pc) xs)). rewrite unlinked_put. cbn [next_unlinked].
    by rewrite Hu, delete_id.
  - change (<[t := (pc, xs)]> gs) with (put_ghost gs t (next_ghost (HGo pc) xs)). rewrite pending_put. cbn [next_uncounted].
    by rewrite Hc, delete_id.
Qed.

Lemma hz_event_ok s e : threads_ok s -> stale_lock s e = false -> exists s', hz_event_step p s e = Done s' /\ threads_ok s'.
Proof.
  intros (gs & free & locker & pub & Hgs & I & L) Hst. assert (Hs : threads_ok s) by (by exists gs, free, locker, pub).
  destruct s as [d pcs held]. cbn [ht_domain ht_pcs ht_held] in *. destruct e as [t N|t i|t spurious]; cbn [hz_event_step].
  - destruct (pcs !! t) as [pc|] eqn:Et; [by eexists|]. case_decide as HN; [|by eexists]. eexists. split; [done|].
    pose proof (start_pcs gs pcs t Hgs Et) as Eg. exists (<[t := (HtLoad N, [])]> gs), free, locker, pub. cbn.
    split; [by rewrite fmap_insert, Hgs|]. split; [by apply acquire_own|by apply start_list].
  - destruct (pcs !! t) as [pc|] eqn:Et; [by eexists|]. destruct (held !! i) as [rs|] eqn:Ei; [|by eexists].
    pose proof (start_pcs gs pcs t Hgs Et) as Eg.
    destruct (release_own p d gs held free locker t i rs I Eg Ei) as (pc & -> & Hu & Hc & I'). cbn [mbind outcome_bind].
    eexists. split; [done|]. exists (<[t := (pc, rs)]> gs), free, locker, pub. cbn.
    split; [by rewrite fmap_insert, Hgs|]. split; [done|by apply start_list].
  - destruct (pcs !! t) as [pc|] eqn:Et; [|by eexists].
    assert (Eg : exists xs, gs !! t = Some (pc, xs)).
    { rewrite <- Hgs, lookup_fmap in Et. destruct (gs !! t) as [[pc' xs]|] eqn:Eg; [|done]. injection Et as ->. by exists xs. }
    destruct Eg as [xs Eg]. destruct (hz_step_ok d gs held free locker pub t pc xs spurious I L Eg) as [Ho Hl].
    { intros N loaded -> Ha. cbn in Hst. rewrite Et, Ha in Hst. cbn [negb andb] in Hst. apply negb_false_iff in Hst. by apply bool_decide_eq_true in Hst. }
    destruct Ho as (d' & n & xs' & free' & locker' & E & I'). destruct (Hl d' n E xs') as [pub' L']. rewrite E. cbn [mbind outcome_bind].
    eexists. split; [done|]. exists (put_ghost gs t (next_ghost n xs')), free', locker', pub'.
    destruct n; cbn in *; (split; [|by split]); by rewrite ?fmap_insert, ?fmap_delete, Hgs.
Qed.

Lemma hz_events_ok evs : forall s, threads_ok s -> never_stale p s evs = true ->
  exists s', hz_events p s evs = Done s' /\ threads_ok s'.
Proof.
  induction evs as [|e evs IH]; intros s Hs Hn; [by exists s|]. cbn [never_stale hz_events] in *.
  apply andb_true_iff in Hn as [Hn1 Hn2]. apply negb_true_iff in Hn1.
  destruct (hz_event_ok s e Hs Hn1) as (s1 & E & H1). rewrite E in Hn2 |- *. cbn [mbind outcome_bind]. by apply IH.
Qed.
End schedules.

Lemma hz_start_ok : threads_ok hz_start.
Proof.
  exists ∅, [], None, []. split; [done|]. split; constructor; done.
Qed.

(** ** Properties *)

(** The free list, and the list of all records, as the domain links them. *)

Definition free_list (d : HzdDomain) (free : list nat) : Prop :=
  (avail_head (hazard_pointers d)).1 = head free /\ achain d free.

Definition all_records (d : HzdDomain) (pub : list nat) : Prop := hp_head (hazard_pointers d) = head pub /\ nchain d pub.

Lemma unlinked_gathered d gs held free locker r : own_inv d gs held free locker -> r ∈ all_unlinked gs -> r ∈ gather gs.
Proof.
  intros I Hr. unfold all_unlinked in Hr. apply list_elem_of_bind in Hr as ([t [pc xs]] & Hr & Ht).
  apply elem_of_map_to_list in Ht. apply (gather_elem gs t pc xs r Ht). cbn in Hr.
  destruct (oi_pcs _ _ _ _ _ I t _ Ht) as [Hok _]. cbn [fst snd] in Hok. destruct pc; cbn in Hr; try (by apply elem_of_nil in Hr).
  apply list_elem_of_singleton in Hr as ->. destruct Hok as [-> _]. apply elem_of_app. right. by left.
Qed.

(** C16: threads acquire and release arrays of hazard records of one domain,
    interleaved in any way and with weak exchanges that fail at will.  If no
    thread ever takes the lock on another head than the one it loaded, no step
    panics or follows a bad pointer, no record is in two arrays or in an array
    and on the free list, every record a caller holds or that is free is on the
    list of all records once, the lock bit is set exactly while one thread, and
    only one, walks along the free list, and when no operation is in progress
    no record is lost and the counter is their number modulo its width. *)
Theorem hazard_threads_safe p evs :
  never_stale p hz_start evs = true ->
  exists s free pub, hz_events p hz_start evs = Done s /\
    let d := ht_domain s in let used := free ++ concat (ht_held s) in
    free_list d free /\ all_records d pub /\ NoDup used /\ NoDup pub /\ used ⊆ pub /\
    Forall (fun records => records <> []) (ht_held s) /\
    ((avail_head (hazard_pointers d)).2 = true <-> exists t pc, ht_pcs s !! t = Some pc /\ has_lock pc = true) /\
    (forall t1 t2 pc1 pc2, ht_pcs s !! t1 = Some pc1 -> ht_pcs s !! t2 = Some pc2 ->
       has_lock pc1 = true -> has_lock pc2 = true -> t1 = t2) /\
    (ht_pcs s = ∅ -> used ≡ₚ pub /\ wrap usize_bits (hp_count (hazard_pointers d)) = wrap usize_bits (len pub)).
Proof.
  intros Hn. destruct (hz_events_ok p evs hz_start hz_start_ok Hn) as (s & E & gs & free & locker & pub & Hgs & I & L).
  exists s, free, pub. split; [done|]. cbv zeta. pose proof (oi_head _ _ _ _ _ I) as Hh.
  assert (Hpc : forall t pc, ht_pcs s !! t = Some pc -> has_lock pc = true <-> locker = Some t).
  { intros t pc Et. rewrite <- Hgs, lookup_fmap in Et. destruct (gs !! t) as [[pc' xs]|] eqn:Eg; [|done]. injection Et as ->.
    apply (oi_pcs _ _ _ _ _ I t _ Eg). }
  pose proof (NoDup_seq 0 (length (hd_recs (ht_domain s)))) as Hnd.
  assert (Hu : NoDup (gather gs ++ free ++ concat (ht_held s))).
  { rewrite (Permutation_app_comm (gather gs)). rewrite <- app_assoc, (Permutation_app_comm (concat _)).
    by rewrite (oi_part _ _ _ _ _ I). }
  apply NoDup_app in Hu as (_ & Hdis & Hu). split; [by split; [rewrite Hh|apply I]|]. split; [split; apply L|]. split; [done|].
  split; [rewrite <- (li_part _ _ _ L) in Hnd; by apply NoDup_app in Hnd as [Hnd _]|].
  split; [|split; [|split; [|split]]].
  - intros r Hr. assert (Hin : r ∈ pub ++ all_unlinked gs).
    { rewrite (li_part _ _ _ L), <- (oi_part _ _ _ _ _ I). rewrite !elem_of_app in *. tauto. }
    apply elem_of_app in Hin as [Hin|Hin%(unlinked_gathered _ _ _ _ _ _ I)]; [done|]. exfalso. by apply (Hdis r).
  - eapply Forall_impl; [apply I|]. by intros rs [Hrs _].
  - rewrite Hh. cbn [snd]. rewrite bool_decide_eq_true. split.
    + intros [t Ht]. destruct (oi_locker _ _ _ _ _ I t Ht) as [[pc xs] Eg].
      assert (Et : ht_pcs s !! t = Some pc) by (by rewrite <- Hgs, lookup_fmap, Eg).
      exists t, pc. split; [done|]. by apply (Hpc t).
    + intros (t & pc & Et & Hl). apply (Hpc t pc Et) in Hl. by exists t.
  - intros t1 t2 pc1 pc2 E1 E2 H1%(Hpc t1 pc1 E1) H2%(Hpc t2 pc2 E2). congruence.
  - intros Hidle. assert (gs = ∅) as -> by (rewrite Hidle in Hgs; by apply fmap_empty_inv in Hgs).
    pose proof (oi_part _ _ _ _ _ I) as Hp1. pose proof (li_part _ _ _ L) as Hp2. pose proof (li_count _ _ _ L) as Hc.
    unfold gather, all_unlinked in *. rewrite map_to_list_empty in Hp1, Hp2. cbn in Hp1, Hp2. rewrite app_nil_r in Hp2.
    split; [by rewrite Hp1, Hp2|]. by rewrite Z.add_0_r in Hc.
Qed.

(** Two threads that meet at the lock. *)

Definition lock_race : list hz_event :=
  [HzAcquire 0 2] ++ replicate 10 (HzRun 0 false) ++ [HzRelease 0 0; HzRun 0 false; HzRun 0 false;
   HzAcquire 0 1; HzAcquire 1 1; HzRun 0 false; HzRun 0 false; HzRun 1 false; HzRun 1 false; HzRun 0 false; HzRun 0 false;
   HzRun 1 false; HzRun 1 false; HzRun 0 false; HzRun 1 false].

Lemma hazard_threads_safe_witness :
  never_stale Debug hz_start lock_race = true /\
  exists s free pub, hz_events Debug hz_start lock_race = Done s /\
    let d := ht_domain s in let used := free ++ concat (ht_held s) in
    free_list d free /\ all_records d pub /\ NoDup used /\ NoDup pub /\ used ⊆ pub /\
    Forall (fun records => records <> []) (ht_held s) /\
    ((avail_head (hazard_pointers d)).2 = true <-> exists t pc, ht_pcs s !! t = Some pc /\ has_lock pc = true) /\
    (forall t1 t2 pc1 pc2, ht_pcs s !! t1 = Some pc1 -> ht_pcs s !! t2 = Some pc2 ->
       has_lock pc1 = true -> has_lock pc2 = true -> t1 = t2) /\
    (ht_pcs s = ∅ -> used ≡ₚ pub /\ wrap usize_bits (hp_count (hazard_pointers d)) = wrap usize_bits (len pub)).
Proof. split; [by vm_compute|]. apply (hazard_threads_safe Debug lock_race). by vm_compute. Defined.
