(* ===== verification/Tagged.v ===== *)
(** * Tagged: pointers with room for a tag

    [utils/tagged_pointer.rs].  A pointer to an object of an aligned type ends
    in zero bits, which a tag may use.  What the source has so far is the check,
    run when the program is compiled, that a type has the bits a tagged pointer
    of it asks for; masking and reading a tag are not written yet.  A failed
    [const] assertion is a compile error in Rust and [Panic] here; the alignment
    of a type, which the compiler chooses, is the first field of [Taggable]. *)

From S2P Require Import Prelude.
Local Open Scope Z_scope.

(** ** Taggable types *)

(* @src crates/engine/src/utils/tagged_pointer.rs:20-26 TAGGABLE_BITS *)
Inductive TAGGABLE_BITS := TAG_16 | TAG_32 | TAG_64 | TAG_128.

(* @src crates/engine/src/utils/tagged_pointer.rs:20-26 TAGGABLE_BITS *)
Definition TAGGABLE_BITS_as_u32 (b : TAGGABLE_BITS) : Z :=
  match b with TAG_16 => 1 | TAG_32 => 2 | TAG_64 => 3 | TAG_128 => 4 end.

(* @src crates/engine/src/utils/tagged_pointer.rs:29-37 TAGGABLE_BITS::is_taggable *)
Definition is_taggable (tagging : Z) : bool :=
  match tagging with
  | 1 => true
  | 2 => true
  | 3 => true
  | 4 => true
  | _ => false
  end.

(* @src crates/engine/src/utils/tagged_pointer.rs:39-48 TAGGABLE_BITS::from_alignment *)
Definition from_alignment (align : Z) : outcome Z :=
  let trail := Z.of_nat (trailing_zeros align) in
  match trail with
  | 1 => Done (TAGGABLE_BITS_as_u32 TAG_16)
  | 2 => Done (TAGGABLE_BITS_as_u32 TAG_32)
  | 3 => Done (TAGGABLE_BITS_as_u32 TAG_64)
  | 4 => Done (TAGGABLE_BITS_as_u32 TAG_128)
  | _ => Panic "internal error: entered unreachable code"
  end.

(** A type that implements the trait: its alignment and the constant its
    implementation declares. *)

(* @src crates/engine/src/utils/tagged_pointer.rs:51-52 Taggable *)
Record Taggable := mkTaggable { tg_align : Z; TAG_BITS : Z }.

(* @src crates/engine/src/utils/tagged_pointer.rs:53-57 Taggable::VERIFY_ALIGNMENT *)
Definition VERIFY_ALIGNMENT (t : Taggable) : outcome unit :=
  rust_assert (is_taggable (TAG_BITS t)) "is_taggable(TAG_BITS)";;
  rust_assert (bool_decide (Z.of_nat (trailing_zeros (tg_align t)) = TAG_BITS t)) "align_of.trailing_zeros() == TAG_BITS";;
  rust_assert (bool_decide (TAG_BITS t < usize_bits)) "TAG_BITS < usize::BITS".

(* @src crates/engine/src/utils/tagged_pointer.rs:59-67 Taggable::verify *)
Definition verify (t : Taggable) (required_bits : Z) : outcome unit :=
  VERIFY_ALIGNMENT t;;
  rust_assert (bool_decide (required_bits > 0)) "REQUIRED_BITS > 0";;
  rust_assert (bool_decide (required_bits < usize_bits)) "REQUIRED_BITS < usize::BITS";;
  rust_assert (bool_decide (TAG_BITS t >= required_bits)) "TAG_BITS >= REQUIRED_BITS".

(* @src crates/engine/src/utils/tagged_pointer.rs:69-71 Taggable::available_bits *)
Definition available_bits (t : Taggable) : Z := TAG_BITS t.

(** ** Tagged pointers

    The object is named by its address. *)

(* @src crates/engine/src/utils/tagged_pointer.rs:74-84 TaggedPointer *)
Record TaggedPointer := mkTaggedPointer { tp_ptr : Z }.

(* @src crates/engine/src/utils/tagged_pointer.rs:87-96 TaggedPointer::new *)
Definition TaggedPointer_new (t : Taggable) (tag_bits : Z) (object : Z) : outcome TaggedPointer :=
  verify t tag_bits;;
  Done (mkTaggedPointer object).

(* @src crates/engine/src/utils/tagged_pointer.rs:99-99 TaggedPointer1Bit *)
Definition TaggedPointer1Bit_new (t : Taggable) : Z -> outcome TaggedPointer := TaggedPointer_new t 1.

(* @src crates/engine/src/utils/tagged_pointer.rs:100-100 TaggedPointer2Bits *)
Definition TaggedPointer2Bits_new (t : Taggable) : Z -> outcome TaggedPointer := TaggedPointer_new t 2.

(* @src crates/engine/src/utils/tagged_pointer.rs:101-101 TaggedPointer3Bits *)
Definition TaggedPointer3Bits_new (t : Taggable) : Z -> outcome TaggedPointer := TaggedPointer_new t 3.

(* @src crates/engine/src/utils/tagged_pointer.rs:102-102 TaggedPointer4Bits *)
Definition TaggedPointer4Bits_new (t : Taggable) : Z -> outcome TaggedPointer := TaggedPointer_new t 4.

(** ** Lemmas *)

Lemma is_taggable_spec n : is_taggable n = true <-> 1 <= n <= 4.
Proof.
  split; [unfold is_taggable; repeat case_match; done || lia|].
  intros H. assert (n = 1 \/ n = 2 \/ n = 3 \/ n = 4) as [->|[->|[->| ->]]] by lia; done.
Qed.

Lemma rust_assert_done b why : rust_assert b why = Done tt <-> b = true.
Proof. by destruct b. Qed.

(** The constant computed from the alignment is the one the check wants. *)

Lemma from_alignment_spec k n : 0 <= k -> (from_alignment (2 ^ k) = Done n <-> 1 <= k <= 4 /\ n = k).
Proof.
  intros Hk. unfold from_alignment. rewrite trailing_zeros_pow by done. split.
  - repeat case_match; intros [= <-]; lia.
  - intros [H ->]. assert (k = 1 \/ k = 2 \/ k = 3 \/ k = 4) as [->|[->|[->| ->]]] by lia; done.
Qed.

Lemma verify_spec k bits req : 0 <= k ->
  (verify (mkTaggable (2 ^ k) bits) req = Done tt <-> 1 <= k <= 4 /\ bits = k /\ 0 < req <= k).
Proof.
  intros Hk. unfold verify, VERIFY_ALIGNMENT. cbn [tg_align TAG_BITS]. rewrite trailing_zeros_pow by done. unfold usize_bits.
  destruct (is_taggable bits) eqn:Et; [apply is_taggable_spec in Et|].
  - cbn [rust_assert mbind outcome_bind]. repeat (case_bool_decide; cbn [rust_assert mbind outcome_bind]); split; try done; lia.
  - split; [done|]. intros (? & -> & ?). by rewrite (proj2 (is_taggable_spec k)) in Et.
Qed.

Lemma aligned_low_bit k addr i : 0 <= i < k -> addr mod 2 ^ k = 0 -> Z.testbit addr i = false.
Proof. intros Hi Ha. rewrite <- (Z.mod_pow2_bits_low addr k i) by lia. by rewrite Ha, Z.bits_0. Qed.

(** ** Property *)

(** C40: which tagged pointers the compile-time checks admit, and why these
    have room for their tag.  For a type of alignment [2 ^ k] whose
    implementation declares [bits], a pointer with a tag of [req] bits can be
    made exactly if [bits] is the exponent [k], it is between 1 and 4, and
    [req] is positive and no larger; it then holds the object's address
    unchanged, and in the address of an aligned object every bit of the tag is
    zero, so that any tag of that many bits can be put in and taken out without
    loss of either.  [from_alignment] computes the declaration that passes, and
    does not compile for the other alignments (bytes, and 32 and more). *)
Theorem tagged_pointer_room k bits req addr :
  0 <= k ->
  ((exists tp, TaggedPointer_new (mkTaggable (2 ^ k) bits) req addr = Done tp) <-> from_alignment (2 ^ k) = Done bits /\ 0 < req <= bits) /\
  (forall n, from_alignment (2 ^ k) = Done n <-> 1 <= k <= 4 /\ n = k) /\
  (forall tp tag, TaggedPointer_new (mkTaggable (2 ^ k) bits) req addr = Done tp -> addr mod 2 ^ k = 0 -> 0 <= tag < 2 ^ req ->
    tp_ptr tp = addr /\ Z.land addr (2 ^ req - 1) = 0 /\
    Z.land (Z.lor addr tag) (2 ^ req - 1) = tag /\ Z.ldiff (Z.lor addr tag) (2 ^ req - 1) = addr).
Proof.
  intros Hk. pose proof (fun n => from_alignment_spec k n Hk) as Hfrom. pose proof (verify_spec k bits req Hk) as Hv.
  assert (Hnew : forall tp, TaggedPointer_new (mkTaggable (2 ^ k) bits) req addr = Done tp ->
    tp = mkTaggedPointer addr /\ 1 <= k <= 4 /\ bits = k /\ 0 < req <= k).
  { unfold TaggedPointer_new. destruct (verify _ _) as [[]| | |]; cbn [mbind outcome_bind]; intros tp [= <-]. by split; [|apply Hv]. }
  split; [|split; [done|]].
  - rewrite Hfrom. split.
    + intros (tp & (_ & ? & -> & ?)%Hnew). done.
    + intros [[? ->] ?]. exists (mkTaggedPointer addr). unfold TaggedPointer_new. by rewrite (proj2 Hv).
  - intros tp tag (-> & _ & _ & Hreq)%Hnew Haddr Htag. split; [done|].
    assert (Hlow : Z.land addr (2 ^ req - 1) = 0).
    { rewrite land_mask by lia. apply Z.bits_inj_0. intros i. destruct (decide (0 <= i < req)) as [Hi|Hi].
      - rewrite Z.mod_pow2_bits_low by lia. apply (aligned_low_bit k); [lia|done].
      - destruct (decide (i < 0)); [by apply Z.testbit_neg_r|]. by rewrite Z.mod_pow2_bits_high by lia. }
    assert (Htag' : Z.land tag (2 ^ req - 1) = tag) by (rewrite land_mask by lia; by apply Z.mod_small).
    split; [done|]. split; [by rewrite Z.land_lor_distr_l, Hlow, Htag', Z.lor_0_l|].
    apply Z.bits_inj. intros i. rewrite Z.ldiff_spec, Z.lor_spec. change (2 ^ req - 1) with (Z.pred (2 ^ req)) in *.
    rewrite <- Z.ones_equiv in *. destruct (Z.testbit (Z.ones req) i) eqn:Eo.
    + rewrite andb_false_r. apply (f_equal (fun z => Z.testbit z i)) in Hlow. rewrite Z.land_spec, Eo, Z.bits_0, andb_true_r in Hlow. done.
    + rewrite andb_true_r. apply (f_equal (fun z => Z.testbit z i)) in Htag'. rewrite Z.land_spec, Eo, andb_false_r in Htag'.
      by rewrite <- Htag', orb_false_r.
Qed.

(** An eight-byte aligned type has room for three bits. *)

Lemma tagged_pointer_room_witness :
  TaggedPointer3Bits_new (mkTaggable 8 3) 0x7f08 = Done (mkTaggedPointer 0x7f08) /\
  ((exists tp, TaggedPointer_new (mkTaggable 8 3) 3 0x7f08 = Done tp) <-> from_alignment 8 = Done 3 /\ 0 < 3 <= 3) /\
  (forall n, from_alignment 8 = Done n <-> 1 <= 3 <= 4 /\ n = 3) /\
  (forall tp tag, TaggedPointer_new (mkTaggable 8 3) 3 0x7f08 = Done tp -> 0x7f08 mod 8 = 0 -> 0 <= tag < 2 ^ 3 ->
    tp_ptr tp = 0x7f08 /\ Z.land 0x7f08 (2 ^ 3 - 1) = 0 /\
    Z.land (Z.lor 0x7f08 tag) (2 ^ 3 - 1) = tag /\ Z.ldiff (Z.lor 0x7f08 tag) (2 ^ 3 - 1) = 0x7f08).
Proof. split; [reflexivity|]. exact (tagged_pointer_room 3 3 3 0x7f08 ltac:(lia)). Defined.
