(* ===== verification/Radix.v ===== *)
(** * Radix: nodes and slots of the radix tree

    [utils/radix.rs] has the node layouts of an adaptive radix tree, a slab of
    slots per kind of node, and constructors; searching and inserting are not
    written yet.  A pointer to a slot is where the slot is: in a chunk the slab
    keeps, or in a variable of a call that has returned. *)

From S2P Require Import Prelude.
Local Open Scope Z_scope.

(** ** Slots *)

Inductive slot_ptr := InChunk (chunk i : nat) | Returned.

(* @src crates/engine/src/utils/radix.rs:52-56 Slot *)
Record Slot (T : Type) := mkSlot { sl_value : option T; occupied : bool; next_free : option slot_ptr }.

#[global] Arguments mkSlot {T} _ _ _.
#[global] Arguments sl_value {T} _.
#[global] Arguments occupied {T} _.
#[global] Arguments next_free {T} _.

(* @src crates/engine/src/utils/radix.rs:59-65 Slot::new *)
Definition Slot_new {T} : Slot T := mkSlot None false None.

(* @src crates/engine/src/utils/radix.rs:68-71 ChunkSlab *)
Record ChunkSlab (T : Type) := mkChunkSlab { cs_chunks : list (list (Slot T)); cs_free : list slot_ptr }.

#[global] Arguments mkChunkSlab {T} _ _.
#[global] Arguments cs_chunks {T} _.
#[global] Arguments cs_free {T} _.

(* @src crates/engine/src/utils/radix.rs:75-84 ChunkSlab::new *)
Definition ChunkSlab_new {T} : ChunkSlab T := mkChunkSlab [] [].

(** The array is mapped by value: each slot is moved into the closure's
    parameter, whose address is collected, and is gone when the closure
    returns. *)

(* @src crates/engine/src/utils/radix.rs:86-89 ChunkSlab::allocate_chunk *)
Definition allocate_chunk {T} (CHUNK_SIZE : nat) (s : ChunkSlab T) : ChunkSlab T :=
  let chunk := replicate CHUNK_SIZE (Slot_new (T := T)) in
  foldl (fun s _ => mkChunkSlab (cs_chunks s) (cs_free s ++ [Returned])) s chunk.

Definition slot_ref {T} (s : ChunkSlab T) (q : slot_ptr) : outcome (Slot T) :=
  match q with
  | Returned => UB "pointer to a variable of a call that has returned"
  | InChunk c i =>
      match cs_chunks s !! c with
      | Some chunk => match chunk !! i with Some x => Done x | None => UB "dangling pointer" end
      | None => UB "dangling pointer"
      end
  end.

(** ** Nodes

    A node pointer is an address. *)

(* @src crates/engine/src/utils/radix.rs:94-97 NodePtr *)
Definition NodePtr : Type := Z.

(* @src crates/engine/src/utils/radix.rs:99-100 LeafPtr *)
Definition LeafPtr : Type := NodePtr.

(* @src crates/engine/src/utils/radix.rs:102-107 NodeHeader *)
Record NodeHeader := mkNodeHeader { nh_label : bytes; nh_children : Z; nh_terminal : option LeafPtr }.

(* @src crates/engine/src/utils/radix.rs:109-113 LinearChild *)
Record LinearChild := mkLinearChild { lc_edges : bytes; lc_children : list (option NodePtr) }.

(* @src crates/engine/src/utils/radix.rs:116-121 LinearChild::new *)
Definition LinearChild_new (INDEXES : nat) : LinearChild := mkLinearChild (replicate INDEXES 0) (replicate INDEXES None).

(* @src crates/engine/src/utils/radix.rs:124-128 IndexedChild *)
Record IndexedChild := mkIndexedChild { ic_edges : bytes; ic_children : list (option NodePtr) }.

(* @src crates/engine/src/utils/radix.rs:131-136 IndexedChild::new *)
Definition IndexedChild_new (INDEXES CHILDREN : nat) : IndexedChild :=
  mkIndexedChild (replicate INDEXES 0) (replicate CHILDREN None).

(* @src crates/engine/src/utils/radix.rs:139-142 DirectChild *)
Record DirectChild := mkDirectChild { dc_children : list (option NodePtr) }.

(* @src crates/engine/src/utils/radix.rs:145-149 DirectChild::new *)
Definition DirectChild_new (CHILD_LEN : nat) : DirectChild := mkDirectChild (replicate CHILD_LEN None).

(* @src crates/engine/src/utils/radix.rs:152-156 Leaf *)
Record Leaf (T : Type) := mkLeaf { lf_key : bytes; lf_value : T }.

(* @src crates/engine/src/utils/radix.rs:158-162 Node *)
Record RNode (C : Type) := mkRNode { rn_header : NodeHeader; rn_children : C }.

#[global] Arguments mkRNode {C} _ _.
#[global] Arguments rn_header {C} _.
#[global] Arguments rn_children {C} _.

(* @src crates/engine/src/utils/radix.rs:165-174 Node::new *)
Definition RNode_new {C} (children : C) : RNode C := mkRNode (mkNodeHeader [] 0 None) children.

(* @src crates/engine/src/utils/radix.rs:177-182 Node4 *)
Definition Node4_default : RNode LinearChild := RNode_new (LinearChild_new 4).
(* @src crates/engine/src/utils/radix.rs:183-188 Node16 *)
Definition Node16_default : RNode LinearChild := RNode_new (LinearChild_new 16).
(* @src crates/engine/src/utils/radix.rs:189-194 Node48 *)
Definition Node48_default : RNode IndexedChild := RNode_new (IndexedChild_new 48 256).
(* @src crates/engine/src/utils/radix.rs:195-200 Node256 *)
Definition Node256_default : RNode DirectChild := RNode_new (DirectChild_new 256).

(* @src crates/engine/src/utils/radix.rs:204-211 NodeKind *)
Inductive NodeKind := KNode4 | KNode16 | KNode48 | KNode256 | KLeaf.

(** ** The store and the tree *)

(* @src crates/engine/src/utils/radix.rs:214-220 NodeStore *)
Record NodeStore (T : Type) := mkNodeStore {
  ns_node4 : ChunkSlab (RNode LinearChild);
  ns_node16 : ChunkSlab (RNode LinearChild);
  ns_node48 : ChunkSlab (RNode IndexedChild);
  ns_node256 : ChunkSlab (RNode DirectChild);
  ns_leaf : ChunkSlab (Leaf T)
}.

#[global] Arguments mkNodeStore {T} _ _ _ _ _.

(* @src crates/engine/src/utils/radix.rs:222-232 NodeStore::new *)
Definition NodeStore_new {T} : NodeStore T :=
  mkNodeStore ChunkSlab_new ChunkSlab_new ChunkSlab_new ChunkSlab_new ChunkSlab_new.

(* @src crates/engine/src/utils/radix.rs:34-37 RadixTree *)
Record RadixTree (T : Type) := mkRadixTree { rt_root : NodePtr; rt_store : NodeStore T }.

#[global] Arguments mkRadixTree {T} _ _.

(** The dangling pointer's address is the alignment of the unit type. *)

(* @src crates/engine/src/utils/radix.rs:39-48 RadixTree::new *)
Definition RadixTree_new {T} : RadixTree T := mkRadixTree 1 NodeStore_new.

(** ** Allocating chunks *)

Lemma allocate_chunk_free {T} n (s : ChunkSlab T) :
  allocate_chunk n s = mkChunkSlab (cs_chunks s) (cs_free s ++ replicate n Returned).
Proof.
  unfold allocate_chunk. revert s. induction n as [|n IH]; intros [cs fr]; cbn; [by rewrite app_nil_r|].
  rewrite IH. cbn. by rewrite <- app_assoc.
Qed.

(** However many chunks are allocated, the slab has none, and every slot it
    lists as free is a dangling pointer. *)

Lemma allocated_slots_dangle {T} n k :
  let s := Nat.iter k (allocate_chunk n) (ChunkSlab_new (T := T)) in
  cs_chunks s = [] /\ length (cs_free s) = (k * n)%nat /\
  Forall (fun q => exists why, slot_ref s q = UB why) (cs_free s).
Proof.
  assert (H : Nat.iter k (allocate_chunk n) (ChunkSlab_new (T := T)) = mkChunkSlab [] (replicate (k * n) Returned)).
  { induction k as [|k IH]; [done|]. rewrite Nat.iter_succ, IH, allocate_chunk_free. cbn [Nat.mul]. cbn [cs_chunks cs_free].
    by rewrite <- replicate_add, Nat.add_comm. }
  cbv zeta. rewrite H. cbn [cs_chunks cs_free]. split; [done|]. split; [by rewrite length_replicate|].
  apply Forall_replicate. by eexists.
Qed.

(** ** Sizes

    The size of a [repr(C)] structure on a 64-bit target: each field, a size
    and an alignment, at the next multiple of its alignment, the whole a
    multiple of the largest one. *)

Definition align_to (n a : Z) : Z := (n + a - 1) / a * a.

Definition repr_c (align : Z) (fields : list (Z * Z)) : Z :=
  align_to (foldl (fun off f => align_to off f.2 + f.1) 0 fields) (foldl (fun a f => Z.max a f.2) align fields).

Definition header_size : Z := repr_c 1 [(16, 8); (2, 2); (8, 8)].
Definition indexed_size (indexes children : Z) : Z := repr_c 8 [(indexes, 1); (8 * children, 8)].
Definition node_size (children : Z) : Z := repr_c 1 [(header_size, 8); (children, 8)].

(** The nodes for 4 and 16 children take 72 and 176 bytes; the one for 48
    takes 2128, more than the 2080 of the one for 256, and has 48 index bytes
    for the 256 values a key byte has. *)

Lemma node_sizes :
  node_size (indexed_size 4 4) = 72 /\ node_size (indexed_size 16 16) = 176 /\
  node_size (indexed_size (len (ic_edges (rn_children Node48_default))) (len (ic_children (rn_children Node48_default)))) = 2128 /\
  node_size (repr_c 8 [(8 * len (dc_children (rn_children Node256_default)), 8)]) = 2080.
Proof. by vm_compute. Qed.
